(* ===== verification/_CoqProject ===== *)
-Q . S2P
Prelude.v
Locking.v
LockingFacts.v
Atomicity.v
Bytes.v
Float.v
Msgpack.v
MsgpackFacts.v
ErrorCodes.v
Types.v
UnorderedMap.v
Value.v
ValueFacts.v
ValueRoundtrip.v
ValueOrder.v
ValueHeap.v
ThreadSafeContainer.v
ThreadSafeContainerFacts.v
LockedContainers.v
LockfreeReader.v
AutoRefresh.v
ValueStore.v
ValueStoreFacts.v
StoragePolicy.v
StoragePolicyFacts.v
PolicyContainer.v
PolicyContainerFacts.v
Validation.v
Container.v
ContainerMsgpack.v
Regex.v
Numbers.v
Decimal.v
FloatArith.v
Utilities.v
Json.v
ValueText.v
ValueTextFacts.v
ValueObject.v
LockedValues.v
FloatSum.v
Metrics.v
MetricsFacts.v
MetricsConcurrent.v
Text.v
LockedHeader.v
TextFacts.v
TextScan.v
TextRoundtrip.v
TextViews.v
UtilitiesFacts.v
ValueView.v
ContainerFacts.v
ContainerMsgpackFacts.v
Schema.v
Serializers.v
SerializersFacts.v
ContainerCopies.v
ModuleInterface.v
Concepts.v
MetricsExport.v
Messaging.v
MessagingFacts.v
GrpcAdapter.v
GrpcAdapterFacts.v
GrpcService.v
GrpcServiceFacts.v
SchemaFacts.v
EpochManager.v
EpochManagerFacts.v
Simd.v
SimdFacts.v
Async.v
Generator.v
AsyncContainer.v
AsyncContainerFacts.v
MemoryPool.v
MemoryPoolFacts.v
PoolClients.v
RcuValue.v
