(* ===== verification/Prelude.v ===== *)
(** * container_system: a verification development

    ** The program

    container_system is a C++20 library of typed containers.  Its core is three
    representations of data, the formats that move them between processes, and
    the services built on them:

    - [value] and [thread_safe_container] ([internal/]): a named value over a
      16-way variant, and a map from keys to such values behind a reader-writer
      lock.  Values may hold containers and containers hold values; the pair has
      a little-endian wire format and a JSON writer.  [snapshot_reader],
      [lockfree_container_reader] and [auto_refresh_reader] answer reads from
      immutable snapshots of a container.
    - [value_container] ([core/container.cpp]): the message, a header (source,
      target, type, version) and an ordered vector of [optimized_value]s.  It is
      written to and read from MessagePack and a text format, written to JSON and
      XML, detected by [detect_format], read in place through [value_view],
      checked by [container_schema], and copied through its own text.
    - [value_store] ([core/value_store.cpp]), a key-value store whose binary
      format is that of [thread_safe_container] behind a version byte, and
      [basic_value_container] ([policy_container.h]), the message over a storage
      policy that is a template parameter.

    On top of them: [message_container] (a header with a [value_store]) and the
    text messages of [messaging_integration]; [async_container], whose operations
    are coroutines that work on other threads and on files; the gRPC adapter,
    service, server and client.  Beside them: metrics, SIMD kernels, the memory
    managers ([epoch_manager], [fixed_block_pool], [pool_allocator],
    [rcu_value]), string helpers, and the C++20 module interface.

    ** Files

    Components state their data and operations in one file and their theorems in
    a file [...Facts] beside it, or in the same file when it is short.
    Definitions carry the names of the source.

    - Prelude, Bytes, Float: what the components share.  [res A] is a
      computation that may have undefined behaviour ([Undef]) or out of fuel
      ([NoFuel]); integers are [Z] wrapped to their width by [wrap] and [swrap];
      byte vectors are [list byte]; [float] and [double] are bit patterns.
      UnorderedMap is [std::unordered_map] as the list of its elements in one
      iteration order, the oldest key first.  The standard leaves the order open;
      where a map read back is iterated (its bytes, its copies), ValueOrder
      proves the result for every order.
    - The standard library as far as the program uses it: Regex
      ([std::regex] searches by backtracking), Numbers ([std::stoi] and its like,
      [strtoll], [strtod]), Decimal (decimal input and output of doubles),
      FloatArith (products and quotients of doubles), FloatSum (sums of floats).
      Json is RFC 8259 as a reference parser; no code of the program reads JSON.
    - Types: [value_types.h] and the variant, one constructor per C++
      alternative.  Concepts: [concepts.h].  ErrorCodes, Validation:
      [error_codes.h] and the errors of [schema.h].
    - Msgpack, MsgpackFacts: [msgpack.h], byte by byte.
    - Value, ValueFacts, ValueRoundtrip: [value.cpp] and the serializers of
      [thread_safe_container.cpp] on containers that own what they hold
      ([tree]), the form the reader builds.  ValueOrder: the reader again,
      with the place of a new key left open ([places]).  ValueHeap: the writer
      on a heap where containers and the elements of arrays are addresses,
      shared or cyclic, with [circular_ref_guard] and the shared locks the
      thread holds.  ValueObject: the object with its lock and counters,
      copies, moves, comparison, and [variant_value_factory].  ValueText, ValueTextFacts: [to_string] and
      [to_json] of values, containers and stores.
    - Locking, LockingFacts: threads that interleave the actions of methods on
      [shared_mutex]es, objects and atomic counters; a check on the text of a
      method ([two_phase]) and what it gives.  Atomicity: the class
      [LockedClass], what a class with a lock promises.  LockedContainers,
      LockedValues, LockedHeader: the methods of [thread_safe_container],
      [value], [value_store] and [value_container] as they lock; the first
      three are instances of the class, the last as far as it locks.
    - ThreadSafeContainer and its facts: every operation of
      [thread_safe_container], one atomic step each, which LockedContainers
      justifies.  LockfreeReader, AutoRefresh: the readers, whose
      [refresh] is not atomic and therefore a step relation; beside it write the
      locked operations and the holders of references [operator[]] returned.
    - ValueStore and its facts: [value_store].
    - StoragePolicy and its facts: the dynamic, indexed and static policies.  The
      C++ concept is the class [StoragePolicy]; [StoragePolicyLaws] is what a
      client may rely on, and each policy is an instance.  PolicyContainer and
      its facts: [basic_value_container] over any policy, proved from the laws
      alone.
    - Container, ContainerFacts: state, header, reads, writes, compare-and-swap
      and the [Result] functions of [value_container], and [detect_format].
      ContainerMsgpack and its facts: [msgpack_serializer] and
      [from_msgpack_impl].
    - Text: the text format, written by [binary_serializer] and read by
      [deserialize] with the program's own regular expressions; constructors,
      copies and the operations that parse late; the index of [value_view].
      TextFacts (the reader on any text), TextScan and TextRoundtrip (a written
      text), TextViews and ValueView (reading in place).  ContainerCopies: the
      overloads for bytes, [copy], streams, [memory_footprint].  Utilities and its facts:
      [convert_string], its stub, [formatter].
    - Serializers, SerializersFacts: JSON, XML, the factory and the unified
      interface with detection and validation.  Schema, SchemaFacts:
      [container_schema].
    - Metrics, MetricsFacts, MetricsConcurrent, MetricsExport: the counters and
      histograms, alone and under interference, and the exporters.
    - Messaging, MessagingFacts: [message_container], [messaging_integration],
      the builder and the performance monitor.
    - GrpcAdapter, GrpcService and their facts: the conversion to messages, the
      six procedures, server and client.  [gtree] is a container with the types
      of no enumerator that a message can give its values.  The generated message classes are the
      class [protobuf] with [ProtobufLaws], the network the class [transport].
    - Async: tasks and awaitables as interleaved accesses to what threads share.
      Generator: coroutines that yield.  AsyncContainer and its facts: the work
      of the asynchronous operations, and files over a device.
    - Simd, SimdFacts: the kernels of all policies over float bit patterns.
    - EpochManager, MemoryPool and their facts, RcuValue: the memory managers.
      PoolClients: objects in the pools, the allocator each thread has, and what
      a container reports of it.
    - ModuleInterface: [src/modules/container.cppm].

    ** What is shown

    - Codecs.  What a writer wrote its reader reads back, for MessagePack tokens,
      values, containers (in every iteration order of the map that is read
      into), stores, messages in every form, files and base64
      ([tokens_roundtrip], [value_roundtrip], [tree_roundtrip],
      [store_roundtrip], [container_msgpack_roundtrip], [binary_roundtrip],
      [messaging_roundtrip], [builder_to_receiver], [grpc_roundtrip],
      [save_load_roundtrip], [chunks_roundtrip], [base64_roundtrip]).  A round
      trip is up to what the code loses by design, written out as a function
      ([value_norm], [norm], [restored]); the domain is a predicate on the input
      ([value_ok], [tree_ok], [text_ok]) that says which values the format can
      express.  Formats the program only writes are read by a reference reader:
      JSON by RFC 8259 ([store_json_reads_back], [message_json_roundtrip],
      [metrics_json_reads_back], [escapes_decode]).  On arbitrary input every
      reader returns, stays inside its bytes and stores only values of their
      types ([readers_in_bounds], [deserialize_total], [from_msgpack_total],
      [deserialize_typed], [received_is_sendable], which includes messages whose
      type numbers are no enumerators); lazy and eager reading agree
      ([lazy_reading_agrees]).
    - Refinement.  [thread_safe_container], [value_store] and
      [basic_value_container] over every lawful policy refine a finite map,
      results and counters included ([container_refines_map],
      [store_operations], [policy_container_refines_map],
      [interleavings_refine_map]);
      [value_container::set] is insertion ([set_inserts]);
      [container_schema::validate] answers "valid" for exactly the containers
      that conform to the schema, but for three concessions ([conceded]):
      integers of 2^63 and more, NaN, and patterns that are no regular
      expression ([validate_iff_conforms]).  [conforms] speaks of the integers,
      real numbers, sizes and texts the values hold and shares no code with the
      validator; [built_schemas_ok] says that the schemas the program builds are
      those the theorem is about.
    - Equivalence.  The indexed policy behaves as the dynamic one
      ([indexed_policy_is_dynamic]); serializing an acyclic heap, shared
      containers and array elements included, is serializing the tree it spans
      ([heap_serialize_tree]); the kernels of all instruction
      sets agree where floating point allows it ([sum_floats_exact],
      [min_max_agree]); string helpers are their definitions
      ([base64_is_rfc4648], [replace_is_substitution], [hex_roundtrip],
      [split_join], [format_writes_text]); the module is the headers
      ([interface_agrees]).
    - Locking.  The methods of the four classes that lock, interleaved action by
      action by any number of threads on any number of objects, do not race,
      are atomic, and can always be completed ([containers_atomic],
      [containers_finish], [values_atomic], [values_finish],
      [store_methods_atomic], [locked_methods_atomic]); with the refinement of
      the sequential operations, every interleaving on one container is a run of
      a finite map ([interleavings_refine_map]).  What does not hold is shown by
      schedules: [assignments_deadlock], [index_races],
      [statistics_not_atomic], [swap_header_torn], [serializer_header_torn],
      [unlocked_methods_race].
    - Concurrency without locks, over step relations with any number of threads
      or any interleaving: snapshots are states the container had, or, when
      references of [operator[]] were written meanwhile, have its keys and
      values of that time ([snapshot_consistent], [snapshot_of_no_moment]), and
      do not go back when one thread refreshes ([single_refresher_monotone]; two
      may: [two_refreshers_go_back]); a stopped
      reader refreshes no more ([stop_ends_refreshing]); one compare-and-swap
      wins ([compare_exchange_single_winner]); a deferred pointer is in exactly
      one place ([deferred_conserved]); updates are not lost
      ([rcu_no_lost_update]); statistics are exact when no call is in progress
      ([statistics_exact], [reservoir_races]); a task whose owner polls is used
      safely ([polling_owner_safe], against [unfinished_use_undefined]).
    - Services.  Counters of the gRPC service are exact and no request is lost
      ([service_accounting], [batch_counts], [client_echo]); metrics hold what
      was recorded ([percentiles_of_samples], [rates_bounded]); every file
      operation reads or writes all, or says what failed
      ([file_operations_total]).
    - Memory.  A block of the pool is never given to two owners and the
      statistics add up, for clients that free what they own, once
      ([pool_correct], [allocator_correct], [pool_stats_exact]); freeing twice
      makes the free list cyclic ([double_free_cycle]).
    - Behaviour that surprises: theorems that state it as the code has it, such
      as [array_element_misread], [msgpack_misreads], [unsigned_range_wraps],
      [invalid_pattern_not_enforced], [move_construct_keeps_no_values],
      [compare_exchange_after_set_fails], [third_gc_deletes],
      [bad_number_terminates], [copy_is_unparsed], [copies_differ],
      [footprint_counts_twice], [clone_with_name_reads_name],
      [message_binary_undefined], [nan_hides_minimum], [inner_guard_unpins], [foreign_free_leaks],
      [stub_replace_never_ends], [admitted_alternatives].

    ** Fuel and bounds

    No theorem says "if it returns".  Recursion that is not structural has a
    bound and a theorem that the bound is no restriction:

    - [value_deserialize] nests at most as deep as the vector is long, because
      every level consumes a header ([value_deserialize_equation]);
    - [from_msgpack_impl] recurses into binary values with the length of the
      data plus one ([fuel_for], [from_msgpack_total]);
    - [heap_serialize] takes the depth of the calls; it returns with some fuel,
      and the same with more, exactly when no array it reaches is among its own
      elements, containers being guarded ([serialize_returns_iff],
      [heap_serialize_more]); [to_json], which has no guard, exactly when the
      container reaches no cycle ([json_returns_iff_acyclic]);
    - the text reader recurses with the length of the text plus one, a regular
      expression search with the length of its subject ([deserialize_equation]);
      the reference JSON parser with the length of its text;
    - a conversion to or from gRPC messages has the program's own limit of 33
      levels; the file loops have the number of buffers the file needs
      ([rounds]); [replace] the length of the text plus one
      ([replace_is_substitution]);
    - [get_statistics] of a pool walks the free list with the number of blocks;
      enough unless the list is cyclic.

    Loops over a generator take fuel because a body may yield for ever; what a
    body emits decides how much is enough ([for_each_emits], [take_emits]).
    [size_t] sums over lengths read
    from the wire are exact because those lengths are below 2^32; counters and
    epochs are as the files say.

    ** What is assumed and what is left out

    Memory does not run out, except where an allocation's failure is an
    argument.  [std::atomic] operations are sequentially consistent.  A
    [shared_mutex] admits any number of readers or one writer and promises
    nothing about who is next; the methods of a container do not take the
    mutexes of the elements inside it.  To take a shared lock again in the
    thread that holds it is undefined by the standard and allowed by most
    implementations: ValueHeap and ValueText are about both ([reentrant]).  The
    operations of ThreadSafeContainer and ValueObject see the elements of an
    array as part of the value, so a change through another pointer to such an
    element is not in them.  A chunk of a pool lies in an address space of 2^64
    bytes.  [long] has 64 bits, [char] is signed, [std::format] exists; where the other choice
    matters it is modelled too ([formatter], [concepts]).  Parameters, with their
    documented behaviour as hypotheses where a theorem needs it: the language of
    a schema's regular expressions and its validators, vector intrinsics for
    minimum, maximum and reduction, the processor's feature bits, the executor,
    the capacities of strings and vectors, the device behind a file, the JSON library of the messages, the generated
    protobuf classes, the network.  The text reader uses the program's fixed
    expressions, which Regex interprets.

    Not modelled: [reserve], the handlers of [std::bad_alloc], concepts on callables,
    members that are declared and never defined, the socket and builder options
    of the gRPC library, the depth of the C++ stack, and, as no part of the
    library, its tests, benchmarks and examples. *)

From Stdlib Require Export ZArith Znumtheory Lia Bool.
From Stdlib Require Export Strings.Byte.
From stdpp Require Export base list option strings gmap numbers decidable countable.
From stdpp Require Import pretty.

#[global] Open Scope Z_scope.

(** ** Notations of the development *)

Declare Scope cs_scope.
Delimit Scope cs_scope with cs.
#[global] Open Scope cs_scope.

(** ** Outcomes: C++ code that can run into undefined behaviour

    [Undef] is a read outside an array or an iterator formed outside a range.
    Code that the model runs under a bound also has the outcome [NoFuel], so
    that "enough fuel" is a theorem and not a reading of [None]. *)

Inductive res (A : Type) : Type :=
| Val (a : A)
| Undef
| NoFuel.
Arguments Val {A} _.
Arguments Undef {A}.
Arguments NoFuel {A}.

Definition res_bind {A B} (f : A → res B) (r : res A) : res B :=
  match r with Val a => f a | Undef => Undef | NoFuel => NoFuel end.

Notation "'let?' x ':=' r 'in' k" := (res_bind (λ x, k) r)
  (at level 10, x pattern, r at level 100, k at level 200) : cs_scope.

Lemma res_bind_val {A B} (f : A → res B) a : res_bind f (Val a) = f a.
Proof. done. Qed.

Lemma res_bind_Val_inv {A B} (f : A → res B) r b :
  res_bind f r = Val b → ∃ a, r = Val a ∧ f a = Val b.
Proof. destruct r; simpl; naive_solver. Qed.

(** ** Machine words

    [wrap w] is the conversion to the unsigned [w]-bit type, [swrap w] the
    conversion to the signed one (two's complement). *)

Definition wrap (w z : Z) : Z := z mod 2 ^ w.

Definition swrap (w z : Z) : Z :=
  if wrap w z <? 2 ^ (w - 1) then wrap w z else wrap w z - 2 ^ w.

Definition u_ok (w z : Z) : bool := (0 <=? z) && (z <? 2 ^ w).
Definition s_ok (w z : Z) : bool := (- 2 ^ (w - 1) <=? z) && (z <? 2 ^ (w - 1)).

Lemma u_ok_spec w z : u_ok w z = true ↔ 0 ≤ z < 2 ^ w.
Proof. unfold u_ok. lia. Qed.

Lemma s_ok_spec w z : s_ok w z = true ↔ - 2 ^ (w - 1) ≤ z < 2 ^ (w - 1).
Proof. unfold s_ok. lia. Qed.

Lemma wrap_range w z : 0 ≤ w → 0 ≤ wrap w z < 2 ^ w.
Proof. intros ?. apply Z.mod_pos_bound, Z.pow_pos_nonneg; lia. Qed.

Lemma wrap_small w z : 0 ≤ z < 2 ^ w → wrap w z = z.
Proof. apply Z.mod_small. Qed.

Lemma wrap_wrap w z : 0 ≤ w → wrap w (wrap w z) = wrap w z.
Proof. intros ?. apply wrap_small, wrap_range; lia. Qed.

Lemma pow_double w : 0 < w → 2 ^ w = 2 * 2 ^ (w - 1).
Proof. intros ?. rewrite <-Z.pow_succ_r by lia. f_equal; lia. Qed.

Lemma swrap_range w z : 0 < w → - 2 ^ (w - 1) ≤ swrap w z < 2 ^ (w - 1).
Proof.
  intros Hw. pose proof (wrap_range w z ltac:(lia)). pose proof (pow_double w Hw).
  unfold swrap. case_match; lia.
Qed.

Lemma wrap_neg w z : 0 < w → - 2 ^ w ≤ z < 0 → wrap w z = z + 2 ^ w.
Proof.
  intros Hw Hz. unfold wrap. symmetry. apply (Z.mod_unique_pos _ _ (-1)); lia.
Qed.

Lemma swrap_small w z : 0 < w → - 2 ^ (w - 1) ≤ z < 2 ^ (w - 1) → swrap w z = z.
Proof.
  intros Hw Hz. pose proof (pow_double w Hw). unfold swrap.
  destruct (decide (0 ≤ z)).
  - rewrite wrap_small by lia. case_match; lia.
  - rewrite wrap_neg by lia. case_match; lia.
Qed.

(** Going through the unsigned type of the same width loses nothing. *)
Lemma swrap_wrap w z : 0 < w → swrap w (wrap w z) = swrap w z.
Proof. intros ?. unfold swrap. by rewrite wrap_wrap by lia. Qed.

(** Sums may be wrapped at every step. *)
Lemma wrap_add w a b : 0 ≤ w → wrap w (wrap w a + b) = wrap w (a + b).
Proof. intros ?. unfold wrap. by rewrite Zplus_mod_idemp_l. Qed.

Lemma swrap_add w a b : 0 < w → swrap w (swrap w a + b) = swrap w (a + b).
Proof.
  intros Hw. rewrite <-(swrap_wrap w (swrap w a + b)), <-(swrap_wrap w (a + b)) by done. f_equal.
  unfold swrap. case_match; [apply wrap_add; lia|].
  rewrite <-(wrap_add w a b) by lia. unfold wrap.
  replace (a mod 2 ^ w - 2 ^ w + b) with (a mod 2 ^ w + b + (-1) * 2 ^ w) by lia.
  by rewrite Z_mod_plus_full.
Qed.

Lemma wrap_wrap_le w w' z : 0 ≤ w ≤ w' → wrap w (wrap w' z) = wrap w z.
Proof.
  intros [??]. unfold wrap. apply Z.mod_mod_divide.
  exists (2 ^ (w' - w)). rewrite <-Z.pow_add_r by lia. f_equal; lia.
Qed.

(** ** Bytes: [uint8_t] *)

Definition u8 (b : byte) : Z := Z.of_N (Byte.to_N b).

(** [static_cast<uint8_t>] of an integer of any width. *)
Definition to_u8 (z : Z) : byte := default x00 (Byte.of_N (Z.to_N (wrap 8 z))).

Lemma u8_range b : 0 ≤ u8 b < 256.
Proof. unfold u8. pose proof (Byte.to_N_bounded b). lia. Qed.

Lemma to_u8_u8 b : to_u8 (u8 b) = b.
Proof.
  unfold to_u8. rewrite wrap_small by (pose proof (u8_range b); lia).
  unfold u8. by rewrite N2Z.id, Byte.of_to_N.
Qed.

Lemma u8_to_u8 z : u8 (to_u8 z) = wrap 8 z.
Proof.
  unfold to_u8. pose proof (wrap_range 8 z ltac:(lia)).
  destruct (Byte.of_N (Z.to_N (wrap 8 z))) as [b|] eqn:E; simpl.
  - apply Byte.to_of_N in E. unfold u8. rewrite E. lia.
  - apply Byte.of_N_None_iff in E. lia.
Qed.

Lemma u8_inj b1 b2 : u8 b1 = u8 b2 → b1 = b2.
Proof. intros E. rewrite <-(to_u8_u8 b1), <-(to_u8_u8 b2). by rewrite E. Qed.

Lemma u8_to_u8_small z : 0 ≤ z < 256 → u8 (to_u8 z) = z.
Proof. intros ?. rewrite u8_to_u8. by apply wrap_small. Qed.

#[export] Instance byte_eq_dec : EqDecision byte := Byte.byte_eq_dec.

(** ** Little-endian object representations ([memcpy] of an integer) *)

Fixpoint le_bytes (n : nat) (z : Z) : list byte :=
  match n with
  | O => []
  | S n => to_u8 z :: le_bytes n (z / 256)
  end.

Fixpoint le_val (bs : list byte) : Z :=
  match bs with
  | [] => 0
  | b :: bs => u8 b + 256 * le_val bs
  end.

Lemma length_le_bytes n z : length (le_bytes n z) = n.
Proof. revert z. induction n; intros; simpl; auto. Qed.

Lemma pow_256_S n : 2 ^ (8 * Z.of_nat (S n)) = 256 * 2 ^ (8 * Z.of_nat n).
Proof.
  replace (8 * Z.of_nat (S n)) with (8 + 8 * Z.of_nat n) by lia.
  rewrite Z.pow_add_r by lia. reflexivity.
Qed.

Lemma le_val_bytes n z : le_val (le_bytes n z) = wrap (8 * Z.of_nat n) z.
Proof.
  revert z. induction n as [|n IH]; intros z.
  - simpl. unfold wrap. by rewrite Z.mod_1_r.
  - cbn [le_bytes le_val]. rewrite IH, u8_to_u8. unfold wrap.
    rewrite pow_256_S, Z.rem_mul_r by lia || (apply Z.pow_pos_nonneg; lia).
    reflexivity.
Qed.

Lemma le_val_range bs : 0 ≤ le_val bs < 2 ^ (8 * Z.of_nat (length bs)).
Proof.
  induction bs as [|b bs IH]; [simpl; lia|].
  cbn [le_val length]. rewrite pow_256_S. pose proof (u8_range b). nia.
Qed.

Lemma le_val_bytes_u n w z :
  w = 8 * Z.of_nat n → 0 ≤ z < 2 ^ w → le_val (le_bytes n z) = z.
Proof. intros -> ?. rewrite le_val_bytes. by apply wrap_small. Qed.

Lemma le_val_bytes_s n w z :
  w = 8 * Z.of_nat n → 0 < w → - 2 ^ (w - 1) ≤ z < 2 ^ (w - 1) →
  swrap w (le_val (le_bytes n z)) = z.
Proof.
  intros E ??. rewrite le_val_bytes, <-E, swrap_wrap by done.
  by apply swrap_small.
Qed.

(** ** Strings: [std::string] is a sequence of bytes *)

Abbreviation str_bytes := String.list_byte_of_string (only parsing).
Abbreviation bytes_str := String.string_of_list_byte (only parsing).

Lemma bytes_str_bytes s : bytes_str (str_bytes s) = s.
Proof. apply String.string_of_list_byte_of_string. Qed.

Lemma str_bytes_str bs : str_bytes (bytes_str bs) = bs.
Proof. apply String.list_byte_of_string_of_list_byte. Qed.

Definition str_len (s : string) : Z := Z.of_nat (length (str_bytes s)).

(** [std::to_string] of an integer *)
Definition to_string (z : Z) : string := pretty z.

(** ** Lists tested by a boolean predicate, lists read by position *)

Lemma forallb_Forall {A} (f : A → bool) l : forallb f l = true ↔ Forall (λ x, f x = true) l.
Proof.
  induction l as [|x l IH]; simpl; [by split|].
  by rewrite andb_true_iff, IH, list.Forall_cons.
Qed.


Lemma lookup_mid {A} (pre : list A) x post :
  (pre ++ x :: post) !! length pre = Some x.
Proof. by rewrite list_lookup_middle. Qed.

Lemma take_drop_mid {A} (pre mid post : list A) :
  take (length mid) (drop (length pre) (pre ++ mid ++ post)) = mid.
Proof. by rewrite drop_app_length, take_app_length. Qed.
