(* ===== verification/LockingFacts.v ===== *)
(** * What holds of every program of two-phase methods

    The invariant [Inv] relates an interleaving to the calls performed one at a
    time in the order in which they begin to give back their locks: an object
    nobody holds exclusively is what the atomic calls made of it, and a call
    that is at work has done on the objects it holds what it would have done
    alone.  [atomicity] and [race_freedom] follow from it, [completion] from it
    and the order of the locks. *)

From S2P Require Import Prelude Locking.

(** ** Functions changed at a point *)

Lemma upd_eq {A} o (v : A) f : upd o v f o = v.
Proof. unfold upd. by rewrite Nat.eqb_refl. Qed.

Lemma upd_same {A} (f : nat → A) i o : upd i (f i) f o = f o.
Proof. unfold upd. by destruct (Nat.eqb_spec o i) as [->|]. Qed.

Lemma upd_upd {A} i (v w : A) f o : upd i v (upd i w f) o = upd i v f o.
Proof. unfold upd. by destruct (o =? i)%nat. Qed.

Lemma upd_ext {A} i (v : A) f g :
  (∀ o, f o = g o) → ∀ o, upd i v f o = upd i v g o.
Proof. intros H o. unfold upd. by case_match. Qed.

(** ** Counters *)

Definition occurrences (k : nat) (ks : list nat) : Z := Z.of_nat (length (filter (λ k', k' = k) ks)).

Lemma occurrences_app k ks1 ks2 : occurrences k (ks1 ++ ks2) = occurrences k ks1 + occurrences k ks2.
Proof. unfold occurrences. rewrite list.filter_app, length_app. lia. Qed.

Lemma occurrences_cons k k' ks : occurrences k (k' :: ks) = (if decide (k' = k) then 1 else 0) + occurrences k ks.
Proof. unfold occurrences. rewrite filter_cons. case_decide; cbn [length]; lia. Qed.

Lemma bump_app ks1 ks2 c : bump (ks1 ++ ks2) c = bump ks2 (bump ks1 c).
Proof. apply fold_left_app. Qed.

Lemma bump_occurrences ks c k :
  (∀ k, 0 ≤ c k < 2 ^ 64) → bump ks c k = wrap 64 (c k + occurrences k ks).
Proof.
  revert c; induction ks as [|k' ks IH]; intros c Hc.
  - cbn. rewrite Z.add_0_r, wrap_small; auto.
  - change (bump (k' :: ks) c) with (bump ks (upd k' (wrap 64 (c k' + 1)) c)).
    rewrite IH.
    + rewrite occurrences_cons. unfold upd. destruct (Nat.eqb_spec k k') as [->|Hne].
      * rewrite decide_True by done. rewrite wrap_add by lia. f_equal. lia.
      * by rewrite decide_False by congruence.
    + intros k1. unfold upd. destruct (k1 =? k')%nat; [apply wrap_range; lia|auto].
Qed.

Lemma bump_range ks c k : (∀ k, 0 ≤ c k < 2 ^ 64) → 0 ≤ bump ks c k < 2 ^ 64.
Proof. intros Hc. rewrite bump_occurrences by done. apply wrap_range; lia. Qed.

Lemma occurrences_insert k i p p' (ps : list (list nat)) :
  ps !! i = Some p →
  occurrences k (concat (<[i := p']> ps)) = occurrences k (concat ps) - occurrences k p + occurrences k p'.
Proof.
  revert i; induction ps as [|p1 ps IH]; intros [|i] Hi; try done.
  - injection Hi as ->. cbn. rewrite !occurrences_app. lia.
  - change (occurrences k (p1 ++ concat (<[i:=p']> ps)) = occurrences k (p1 ++ concat ps) - occurrences k p + occurrences k p').
    rewrite !occurrences_app, (IH i Hi). lia.
Qed.

(** ** The calls of one thread in an order *)

Definition proj {A} (i : nat) (l : list (nat * A)) : list A := (filter (λ p, p.1 = i) l).*2.

Lemma proj_snoc {A} i j (x : A) l :
  proj i (l ++ [(j, x)]) = if decide (j = i) then proj i l ++ [x] else proj i l.
Proof.
  unfold proj. rewrite list.filter_app, fmap_app, filter_cons, filter_nil. cbn [fst].
  case_decide; cbn; [done|by rewrite app_nil_r].
Qed.

Lemma proj_cons {A} i j (x : A) l :
  proj i ((j, x) :: l) = if decide (j = i) then x :: proj i l else proj i l.
Proof. unfold proj. rewrite filter_cons. cbn [fst]. by case_decide. Qed.

(** An order of the calls of some requests is an order of the requests. *)
Lemma order_of_requests {A B} (f : A → B) (order : list (nat * B)) (reqs : nat → list A) :
  (∀ i, proj i order = f <$> reqs i) →
  ∃ order', order = prod_map id f <$> order' ∧ ∀ i, proj i order' = reqs i.
Proof.
  revert reqs; induction order as [|[i b] order IH]; intros reqs H.
  - exists []. split; [done|]. intros i. specialize (H i). cbn in H. by destruct (reqs i).
  - pose proof (H i) as Hi. rewrite proj_cons, decide_True in Hi by done.
    destruct (reqs i) as [|r rs] eqn:Er; [done|]. injection Hi as -> Hi.
    destruct (IH (upd i rs reqs)) as (order' & -> & Horder').
    { intros j. specialize (H j). rewrite proj_cons in H. unfold upd.
      destruct (Nat.eqb_spec j i) as [->|Hne]; [done|]. by rewrite decide_False in H. }
    exists ((i, r) :: order'). split; [done|]. intros j. rewrite proj_cons, Horder'. unfold upd.
    destruct (Nat.eqb_spec j i) as [->|Hne]; [by rewrite decide_True|by rewrite decide_False].
Qed.

Lemma max_by {A} (f : A → nat) (l : list A) :
  l ≠ [] → ∃ x, x ∈ l ∧ ∀ y, y ∈ l → (f y ≤ f x)%nat.
Proof.
  induction l as [|x l IH]; [done|]. intros _. destruct l as [|x' l].
  - exists x. split; [by left|]. by intros y ->%list_elem_of_singleton.
  - destruct (IH ltac:(done)) as (m & Hm & Hmax).
    destruct (decide (f x ≤ f m)%nat).
    + exists m. split; [by right|]. intros y [->|Hy]%elem_of_cons; [done|auto].
    + exists x. split; [by left|]. intros y [->|Hy]%elem_of_cons; [done|]. specialize (Hmax y Hy). lia.
Qed.

Lemma sum_insert {A} (f : A → nat) (l : list A) i x y :
  l !! i = Some x → (sum_list_with f (<[i := y]> l) + f x = sum_list_with f l + f y)%nat.
Proof.
  revert i; induction l as [|z l IH]; intros [|i] Hi; try done.
  - injection Hi as ->. cbn. lia.
  - specialize (IH i Hi). change (<[S i := y]> (z :: l)) with (z :: <[i := y]> l).
    cbn [sum_list_with]. lia.
Qed.

Section Facts.
Context {V L : Type}.
Implicit Types (a : action V L) (acts : list (action V L)) (l : L) (h : nat → V) (c : nat → Z)
  (t : thread V L) (s : system V L) (hd : gmap nat mode).

(** ** Executing the actions of one call *)

Definition data acts : list (action V L) := filter (λ a, is_data a = true) acts.

Lemma data_cons a acts : data (a :: acts) = if is_data a then a :: data acts else data acts.
Proof. unfold data. cbn. destruct (is_data a) eqn:E; by rewrite ?decide_True, ?decide_False by congruence. Qed.

Lemma exec_data acts h c l : exec acts h c l = exec (data acts) h c l.
Proof.
  revert h c l; induction acts as [|a acts IH]; intros; [done|].
  rewrite data_cons. destruct (is_data a) eqn:E.
  - cbn. destruct (perform a h c l) as [[h1 l1] ks1]. by rewrite IH.
  - destruct a; try done; cbn; rewrite IH; by destruct (exec (data acts) h c l) as [[??]?].
Qed.

Lemma exec_app acts1 acts2 h c l h1 l1 ks1 h2 l2 ks2 :
  exec acts1 h c l = (h1, l1, ks1) → exec acts2 h1 (bump ks1 c) l1 = (h2, l2, ks2) →
  exec (acts1 ++ acts2) h c l = (h2, l2, ks1 ++ ks2).
Proof.
  revert h c l ks1; induction acts1 as [|b acts IH]; intros h c l ks1 E1 E2; cbn in *.
  - by injection E1 as <- <- <-.
  - destruct (perform b h c l) as [[h' l'] ks']. destruct (exec acts h' (bump ks' c) l') as [[??]?] eqn:E.
    injection E1 as -> -> <-. rewrite bump_app in E2.
    rewrite (IH _ _ _ _ E E2). by rewrite app_assoc.
Qed.

Lemma exec_snoc acts a h c l h1 l1 ks1 h2 l2 ks2 :
  exec acts h c l = (h1, l1, ks1) → perform a h1 (bump ks1 c) l1 = (h2, l2, ks2) →
  exec (acts ++ [a]) h c l = (h2, l2, ks1 ++ ks2).
Proof.
  intros E1 E2. apply (exec_app _ _ _ _ _ _ _ _ _ _ _ E1). cbn. rewrite E2. by rewrite app_nil_r.
Qed.

(** What a guarded access does depends on the objects held only. *)
Lemma perform_frame hd a h h' c c' l h1 l1 ks1 h2 l2 ks2 :
  guarded hd a = true → (∀ o, is_Some (hd !! o) → h o = h' o) →
  perform a h c l = (h1, l1, ks1) → perform a h' c' l = (h2, l2, ks2) →
  l1 = l2 ∧ ks1 = ks2 ∧ ∀ o, is_Some (hd !! o) → h1 o = h2 o.
Proof.
  intros Hg Heq E1 E2.
  destruct a as [| | | |o f|o f|k p|]; try done; cbn in *;
    injection E1 as <- <- <-; injection E2 as <- <- <-.
  - apply bool_decide_eq_true in Hg. by rewrite (Heq o Hg).
  - apply bool_decide_eq_true in Hg. rewrite (Heq o) by eauto. split_and!; [done..|].
    intros o' Ho'. unfold upd. destruct (o' =? o)%nat; auto.
  - done.
Qed.

Lemma exec_frame hd acts h h' c c' l h1 l1 ks1 h2 l2 ks2 :
  Forall (λ a, guarded hd a = true) acts → (∀ o, is_Some (hd !! o) → h o = h' o) →
  exec acts h c l = (h1, l1, ks1) → exec acts h' c' l = (h2, l2, ks2) →
  l1 = l2 ∧ ks1 = ks2 ∧ ∀ o, is_Some (hd !! o) → h1 o = h2 o.
Proof.
  intros Hg. revert h h' c c' l ks1 ks2; induction Hg as [|a acts Ha _ IH];
    intros h h' c c' l ks1 ks2 Heq E1 E2; cbn in *.
  - injection E1 as <- <- <-. injection E2 as <- <- <-. done.
  - destruct (perform a h c l) as [[ha la] ka] eqn:Ea, (perform a h' c' l) as [[hb lb] kb] eqn:Eb.
    destruct (perform_frame _ _ _ _ _ _ _ _ _ _ _ _ _ Ha Heq Ea Eb) as (<- & <- & Hab).
    destruct (exec acts ha (bump ka c) la) as [[??]?] eqn:Ea',
      (exec acts hb (bump ka c') la) as [[??]?] eqn:Eb'.
    injection E1 as -> -> <-. injection E2 as -> -> <-.
    destruct (IH _ _ _ _ _ _ _ Hab Ea' Eb') as (-> & -> & ?). done.
Qed.

(** What is not held exclusively is not written. *)
Lemma perform_outside hd a h c l h1 l1 ks1 o :
  guarded hd a = true → perform a h c l = (h1, l1, ks1) → hd !! o ≠ Some Exclusive → h1 o = h o.
Proof.
  intros Ha E Ho. destruct a as [| | | |o' f|o' f|k p|]; try done; cbn in *;
    injection E as <- <- <-; try done.
  unfold upd. destruct (Nat.eqb_spec o o') as [->|]; [|done].
  apply bool_decide_eq_true in Ha. congruence.
Qed.

Lemma exec_outside hd acts h c l h1 l1 ks1 o :
  Forall (λ a, guarded hd a = true) acts → exec acts h c l = (h1, l1, ks1) →
  hd !! o ≠ Some Exclusive → h1 o = h o.
Proof.
  intros Hg. revert h c l ks1; induction Hg as [|a acts Ha _ IH]; intros h c l ks1 E Ho; cbn in *.
  - by injection E as <- _ _.
  - destruct (perform a h c l) as [[ha la] ka] eqn:Ea.
    destruct (exec acts ha (bump ka c) la) as [[??]?] eqn:E'. injection E as -> -> <-.
    rewrite (IH _ _ _ _ E' Ho). by eapply perform_outside.
Qed.

(** ** The shape of what is left of a body *)

Lemma releases_data hd acts : releases hd acts = true → data acts = [].
Proof.
  revert hd; induction acts as [|a acts IH]; intros hd H; [done|].
  destruct a; try done. cbn in H. apply andb_prop in H as [_ H]. by apply (IH _ H).
Qed.

Lemma works_cons hd a acts :
  works hd (a :: acts) = if is_data a then guarded hd a && works hd acts else releases hd (a :: acts).
Proof. done. Qed.

Lemma releases_works hd acts : releases hd acts = true → works hd acts = true.
Proof. by destruct acts as [|[] acts]. Qed.

Lemma acquires_works hd acts : works hd acts = true → acquires hd acts = true.
Proof. by destruct acts as [|[] acts]. Qed.

Lemma available_shared md o ts t md' :
  available (V:=V) (L:=L) md o ts = true → t ∈ ts → held t !! o = Some md' → compatible md md' = true.
Proof.
  intros Ha Ht Hh. unfold available in Ha. rewrite forallb_forall in Ha.
  specialize (Ha t ltac:(by apply list_elem_of_In)). by rewrite Hh in Ha.
Qed.

(** ** Methods that lock once *)

Definition body_ok hd acts : bool := forallb (λ a, is_data a && guarded hd a) acts.

Lemma works_app hd acts rest :
  body_ok hd acts = true → works hd (acts ++ rest) = works hd rest.
Proof.
  induction acts as [|a acts IH]; [done|]. cbn. intros [[Hd Hg]%andb_prop H]%andb_prop.
  rewrite Hd, Hg. by apply IH.
Qed.

Lemma ordered_app rank hd hd' acts rest :
  body_ok hd' acts = true → ordered rank hd (acts ++ rest) = ordered rank hd rest.
Proof.
  induction acts as [|a acts IH]; [done|]. cbn. intros [[Hd _]%andb_prop H]%andb_prop.
  destruct a; try done; by apply IH.
Qed.

Lemma one_lock rank md o acts l :
  body_ok {[o := md]} acts = true →
  two_phase (Call (Lock md o :: acts ++ [Unlock o]) l) = true ∧
  ranked rank (Call (Lock md o :: acts ++ [Unlock o]) l) = true.
Proof.
  intros H. unfold two_phase, ranked. cbn [body acquires ordered].
  change (<[o := md]> ∅) with ({[o := md]} : gmap nat mode).
  unfold above. rewrite map_to_list_empty, (ordered_app _ _ _ _ _ H). split; [|done].
  rewrite lookup_empty, bool_decide_true by done. apply acquires_works.
  rewrite (works_app _ _ _ H). cbn. rewrite lookup_singleton_eq, bool_decide_true by eauto.
  by rewrite delete_singleton_eq, bool_decide_true.
Qed.

Lemma two_locks rank x y acts l :
  x ≠ y → body_ok (<[x := Exclusive]> {[y := Exclusive]}) acts = true →
  two_phase (Call (ScopedLock x y :: acts ++ [Unlock x; Unlock y]) l) = true ∧
  ranked rank (Call (ScopedLock x y :: acts ++ [Unlock x; Unlock y]) l) = true.
Proof.
  intros Hne H. unfold two_phase, ranked. cbn [body acquires ordered].
  change (<[y := Exclusive]> ∅) with ({[y := Exclusive]} : gmap nat mode).
  unfold above. rewrite map_to_list_empty, (ordered_app _ _ _ _ _ H). split; [|done].
  rewrite !lookup_empty, bool_decide_true by done. apply acquires_works.
  rewrite (works_app _ _ _ H). cbn. rewrite lookup_insert_eq, bool_decide_true by eauto.
  rewrite delete_insert_eq, delete_singleton_ne by done.
  by rewrite lookup_singleton_eq, bool_decide_true, delete_singleton_eq, bool_decide_true by eauto.
Qed.

(** Two locks, one after the other. *)
Lemma nested_two_phase md x y acts l :
  x ≠ y → body_ok (<[y := md]> {[x := Exclusive]}) acts = true →
  two_phase (Call (Lock Exclusive x :: Lock md y :: acts ++ [Unlock y; Unlock x]) l) = true.
Proof.
  intros Hne H. unfold two_phase. cbn [body acquires].
  change (<[x := Exclusive]> ∅) with ({[x := Exclusive]} : gmap nat mode).
  rewrite lookup_empty, lookup_singleton_ne, !bool_decide_true by done. apply acquires_works.
  rewrite (works_app _ _ _ H). cbn. rewrite lookup_insert_eq, bool_decide_true by eauto.
  rewrite delete_insert_eq, delete_singleton_ne by done.
  by rewrite lookup_singleton_eq, bool_decide_true, delete_singleton_eq, bool_decide_true by eauto.
Qed.

Lemma nested_ranked rank md x y acts l :
  (rank x < rank y)%nat → body_ok (<[y := md]> {[x := Exclusive]}) acts = true →
  ranked rank (Call (Lock Exclusive x :: Lock md y :: acts ++ [Unlock y; Unlock x]) l) = true.
Proof.
  intros Hxy H. unfold ranked. cbn [body ordered].
  change (<[x := Exclusive]> ∅) with ({[x := Exclusive]} : gmap nat mode).
  unfold above. rewrite map_to_list_empty, map_to_list_singleton. cbn [forallb fst andb].
  rewrite (proj2 (Nat.ltb_lt _ _) Hxy). cbn [andb]. by rewrite (ordered_app _ _ _ _ _ H).
Qed.

(** ** The invariant *)

Section Invariant.
Context (programs : list (list (call V L))) (h0 : nat → V) (c0 : nat → Z).
Hypothesis Hprog : ∀ i p k, programs !! i = Some p → k ∈ p → two_phase k = true.
Hypothesis Hc0 : ∀ k, 0 ≤ c0 k < 2 ^ 64.

Definition spec (order : list (nat * call V L)) : atomic V L := atomic_run order (Atomic h0 c0 []).

Lemma spec_snoc order i k :
  spec (order ++ [(i, k)]) = atomic_step (spec order) (i, k).
Proof. apply fold_left_app. Qed.

Lemma spec_counters order k : 0 ≤ a_counters (spec order) k < 2 ^ 64.
Proof.
  revert k; induction order as [|[i kl] order IH] using rev_ind; [done|]. intros k.
  rewrite spec_snoc. unfold atomic_step. destruct (exec _ _ _ _) as [[??]?]. by apply bump_range.
Qed.

(** A call that has given back nothing yet: [pre] is what it has done. *)
Definition at_work (A : atomic V L) (h : nat → V) hd (k : call V L) acts l (pend : list nat) : Prop :=
  ∃ pre hp, data (body k) = pre ++ data acts ∧ Forall (λ a, guarded hd a = true) pre ∧
    exec pre (a_heap A) (a_counters A) (start k) = (hp, l, pend) ∧
    (∀ o, is_Some (hd !! o) → h o = hp o) ∧
    acquires hd acts = true ∧ (pre = [] ∨ works hd acts = true).

(** A call that gives back its locks: it has happened. *)
Definition done_with (A : atomic V L) (h : nat → V) hd acts : Prop :=
  releases hd acts = true ∧ ∀ o, is_Some (hd !! o) → h o = a_heap A o.

Definition thread_ok (i : nat) (p : list (call V L)) (order : list (nat * call V L))
    (A : atomic V L) (h : nat → V) t (pend : list nat) : Prop :=
  match pc t with
  | None => held t = ∅ ∧ p = proj i order ++ todo t ∧ log t = proj i (a_log A) ∧ pend = []
  | Some (acts, l) =>
      ∃ k ks, todo t = k :: ks ∧
        ((p = proj i order ++ k :: ks ∧ log t = proj i (a_log A) ∧
          at_work A h (held t) k acts l pend) ∨
         (p = proj i order ++ ks ∧ log t ++ [l] = proj i (a_log A) ∧ pend = [] ∧
          done_with A h (held t) acts))
  end.

Record Inv s (order : list (nat * call V L)) (pends : list (list nat)) : Prop := {
  inv_programs : length (threads s) = length programs;
  inv_order i : (length programs ≤ i)%nat → proj i order = [];
  inv_pends : length pends = length (threads s);
  inv_thread i p t pend :
    programs !! i = Some p → threads s !! i = Some t → pends !! i = Some pend →
    thread_ok i p order (spec order) (heap s) t pend;
  inv_excl i j ti tj o :
    i ≠ j → threads s !! i = Some ti → threads s !! j = Some tj →
    held ti !! o = Some Exclusive → held tj !! o = None;
  inv_heap o :
    (∀ i t, threads s !! i = Some t → held t !! o ≠ Some Exclusive) →
    heap s o = a_heap (spec order) o;
  inv_counters k :
    counters s k = wrap 64 (a_counters (spec order) k + occurrences k (concat pends)) }.

Lemma thread_ok_stable i p order order' A A' h h' t pend :
  proj i order' = proj i order → proj i (a_log A') = proj i (a_log A) →
  (∀ o, is_Some (held t !! o) → h' o = h o ∧ a_heap A' o = a_heap A o) →
  thread_ok i p order A h t pend → thread_ok i p order' A' h' t pend.
Proof.
  intros Ho Hl Hh. unfold thread_ok. rewrite Ho, Hl. destruct (pc t) as [[acts l]|]; [|done].
  intros (k & ks & -> & [(? & ? & Hw)|(? & ? & ? & Hr & Hd)]); exists k, ks; split_and!; [done|left|done|right].
  - split_and!; [done..|]. destruct Hw as (pre & hp & ? & Hg & E & Hagree & ? & ?).
    destruct (exec pre (a_heap A') (a_counters A') (start k)) as [[hp' l'] pend'] eqn:E'.
    destruct (exec_frame _ _ _ (a_heap A') _ _ _ _ _ _ _ _ _ Hg ltac:(intros o Hs; symmetry; apply (Hh o Hs))
      E E') as (<- & <- & Heq).
    exists pre, hp'. split_and!; try done. intros o Hs. rewrite <-Heq by done.
    rewrite (proj1 (Hh o Hs)). auto.
  - split_and!; [done..|split; [done|]]. intros o Hs. destruct (Hh o Hs) as [-> ->]. auto.
Qed.

(** One thread changes, and with it perhaps the order. *)
Lemma inv_update s order pends i p t t' pend' h' c' order' :
  Inv s order pends → programs !! i = Some p → threads s !! i = Some t →
  thread_ok i p order' (spec order') h' t' pend' →
  (∀ o, held t !! o ≠ Some Exclusive →
     h' o = heap s o ∧ a_heap (spec order') o = a_heap (spec order) o) →
  (∀ o md, held t' !! o = Some md → held t !! o = Some md ∨ available md o (threads s) = true) →
  (∀ o, held t !! o = Some Exclusive → held t' !! o ≠ Some Exclusive →
     h' o = a_heap (spec order') o) →
  (∀ k, c' k = wrap 64 (a_counters (spec order') k + occurrences k (concat (<[i := pend']> pends)))) →
  (∀ j, j ≠ i → proj j order' = proj j order ∧
     proj j (a_log (spec order')) = proj j (a_log (spec order))) →
  Inv (System h' c' (<[i := t']> (threads s))) order' (<[i := pend']> pends).
Proof.
  intros HI Hp Ht Hok Hout Hheld Hrel Hcnt Hothers.
  pose proof (lookup_lt_Some _ _ _ Ht) as Hi.
  assert (∀ o md j tj, j ≠ i → threads s !! j = Some tj → held t' !! o = Some md →
    held tj !! o = None ∨ (md = Shared ∧ held tj !! o = Some Shared)) as Hother.
  { intros o md j tj Hj Htj Hmd. destruct (Hheld o md Hmd) as [Hold|Hav].
    - destruct md; [|left; by apply (inv_excl _ _ _ HI i j t tj)].
      destruct (held tj !! o) as [[]|] eqn:E; [by right| |by left].
      pose proof (inv_excl _ _ _ HI j i tj t o Hj Htj Ht E). congruence.
    - destruct (held tj !! o) as [md'|] eqn:E; [|by left]. right.
      pose proof (available_shared _ _ _ _ _ Hav (list_elem_of_lookup_2 _ _ _ Htj) E) as Hc.
      by destruct md, md'. }
  split; cbn.
  - rewrite length_insert. apply HI.
  - intros j Hj. assert (j ≠ i) as Hne by (intros ->; apply lookup_lt_Some in Hp; lia).
    rewrite (proj1 (Hothers j Hne)). by apply (inv_order _ _ _ HI).
  - rewrite !length_insert. apply HI.
  - intros j pj tj pendj Hpj Htj Hpendj. destruct (decide (j = i)) as [->|Hj].
    + rewrite list_lookup_insert_eq in Htj by done. injection Htj as <-.
      rewrite list_lookup_insert_eq in Hpendj by (rewrite (inv_pends _ _ _ HI); done).
      injection Hpendj as <-. by simplify_eq.
    + rewrite list_lookup_insert_ne in Htj by done. rewrite list_lookup_insert_ne in Hpendj by done. destruct (Hothers j Hj) as [Ho Hl].
      eapply thread_ok_stable; [exact Ho|exact Hl| |by eapply inv_thread].
      intros o [md Hs]. apply Hout. intros E. pose proof (inv_excl _ _ _ HI i j t tj o ltac:(done) Ht Htj E).
      congruence.
  - intros j j' tj tj' o Hjj Htj Htj' E.
    destruct (decide (j = i)) as [->|Hj].
    + rewrite list_lookup_insert_eq in Htj by done. injection Htj as <-.
      rewrite list_lookup_insert_ne in Htj' by done.
      destruct (Hother o _ j' tj' ltac:(done) Htj' E) as [?|[??]]; [done|congruence].
    + rewrite list_lookup_insert_ne in Htj by done. destruct (decide (j' = i)) as [->|Hj'].
      * rewrite list_lookup_insert_eq in Htj' by done. injection Htj' as <-.
        destruct (held t' !! o) as [md|] eqn:E'; [|done].
        destruct (Hother o md j tj Hj Htj E') as [?|[??]]; congruence.
      * rewrite list_lookup_insert_ne in Htj' by done. by eapply (inv_excl _ _ _ HI j j').
  - intros o Hno. destruct (decide (held t !! o = Some Exclusive)) as [E|E].
    + apply Hrel; [done|]. apply (Hno i). by apply list_lookup_insert_eq.
    + destruct (Hout o E) as [-> ->]. apply (inv_heap _ _ _ HI). intros j tj Htj.
      destruct (decide (j = i)) as [->|Hj]; [congruence|].
      apply (Hno j). by rewrite list_lookup_insert_ne.
  - apply Hcnt.
Qed.

Lemma initial_inv : Inv (initial h0 c0 programs) [] (replicate (length programs) []).
Proof.
  assert (concat (replicate (length programs) []) = ([] : list nat)) as Ec
    by (induction (length programs); done).
  split; cbn.
  - apply length_fmap.
  - done.
  - by rewrite length_replicate, length_fmap.
  - intros i p t pend Hp Ht Hpend. apply lookup_replicate in Hpend as [-> _].
    rewrite list_lookup_fmap, Hp in Ht. by injection Ht as <-.
  - intros i j ti tj o _ Hi _ Hx. apply list_lookup_fmap_Some in Hi as (? & -> & _). done.
  - done.
  - intros k. rewrite Ec. change (occurrences k []) with 0. rewrite Z.add_0_r, wrap_small; auto.
Qed.

Lemma exec_body (A : atomic V L) k pre acts hp l pend :
  data (body k) = pre ++ data acts → data acts = [] →
  exec pre (a_heap A) (a_counters A) (start k) = (hp, l, pend) →
  exec (body k) (a_heap A) (a_counters A) (start k) = (hp, l, pend).
Proof. intros Hd Hn E. by rewrite exec_data, Hd, Hn, app_nil_r. Qed.

(** When a call is about to give back its locks it has taken effect. *)
Lemma commit s order pends i p t acts l k ks pend :
  Inv s order pends → programs !! i = Some p → threads s !! i = Some t →
  pends !! i = Some pend → pc t = Some (acts, l) → todo t = k :: ks →
  p = proj i order ++ k :: ks → log t = proj i (a_log (spec order)) →
  at_work (spec order) (heap s) (held t) k acts l pend → releases (held t) acts = true →
  Inv s (order ++ [(i, k)]) (<[i := []]> pends) ∧
  log t ++ [l] = proj i (a_log (spec (order ++ [(i, k)]))) ∧
  ∀ o, is_Some (held t !! o) → heap s o = a_heap (spec (order ++ [(i, k)])) o.
Proof.
  intros HI Hp Ht Hpend Hpc Htodo Hsplit Hlog (pre & hp & Hd & Hg & E & Hagree & _ & _) Hrel.
  pose proof (exec_body _ _ _ _ _ _ _ Hd (releases_data _ _ Hrel) E) as Eb.
  assert (spec (order ++ [(i, k)])
    = Atomic hp (bump pend (a_counters (spec order))) (a_log (spec order) ++ [(i, l)])) as Es.
  { rewrite spec_snoc. unfold atomic_step. cbn [fst snd]. by rewrite Eb. }
  assert (log t ++ [l] = proj i (a_log (spec (order ++ [(i, k)])))) as Hlog'.
  { rewrite Es. cbn [a_log]. by rewrite proj_snoc, decide_True, Hlog. }
  assert (∀ o, is_Some (held t !! o) → heap s o = a_heap (spec (order ++ [(i, k)])) o) as Hh.
  { intros o Ho. rewrite Es. by apply Hagree. }
  split_and!; [|done..].
  assert (System (heap s) (counters s) (<[i := t]> (threads s)) = s) as Eid
    by (rewrite list_insert_id by done; by destruct s).
  rewrite <-Eid at 1.
  eapply (inv_update s order pends i p t t); try done.
  - unfold thread_ok. rewrite Hpc. exists k, ks. split; [done|]. right. split_and!; [|done..|done].
    rewrite proj_snoc, decide_True by done. by rewrite <-app_assoc.
  - intros o Ho. rewrite Es. cbn [a_heap]. split; [done|]. by apply (exec_outside _ _ _ _ _ _ _ _ _ Hg E).
  - intros o md ?. by left.
  - intros k'. rewrite Es. cbn [a_counters]. rewrite bump_occurrences by apply spec_counters.
    rewrite (occurrences_insert _ _ _ _ _ Hpend), wrap_add by lia.
    rewrite (inv_counters _ _ _ HI). f_equal. change (occurrences k' []) with 0. lia.
  - intros j Hj. rewrite Es. cbn [a_log]. by rewrite !proj_snoc, !decide_False.
Qed.

(** Whether or not it was before: now it has. *)
Lemma take_effect s order pends i p t acts l :
  Inv s order pends → programs !! i = Some p → threads s !! i = Some t →
  pc t = Some (acts, l) → releases (held t) acts = true →
  ∃ order' pends' k ks, Inv s order' pends' ∧ pends' !! i = Some [] ∧ todo t = k :: ks ∧
    p = proj i order' ++ ks ∧ log t ++ [l] = proj i (a_log (spec order')) ∧
    ∀ o, is_Some (held t !! o) → heap s o = a_heap (spec order') o.
Proof.
  intros HI Hp Ht Hpc Hrel.
  destruct (lookup_lt_is_Some_2 pends i) as [pend Hpend].
  { rewrite (inv_pends _ _ _ HI). by eapply lookup_lt_Some. }
  pose proof (inv_thread _ _ _ HI i p t pend Hp Ht Hpend) as Hok.
  unfold thread_ok in Hok. rewrite Hpc in Hok.
  destruct Hok as (k & ks & Htodo & [(Hsplit & Hlog & Hw)|(Hsplit & Hlog & -> & _ & Hh)]).
  - destruct (commit _ _ _ _ _ _ _ _ _ _ _ HI Hp Ht Hpend Hpc Htodo Hsplit Hlog Hw Hrel)
      as (HI' & Hlog' & Hh').
    exists (order ++ [(i, k)]), (<[i := []]> pends), k, ks. split_and!; try done.
    + apply list_lookup_insert_eq. by eapply lookup_lt_Some.
    + rewrite proj_snoc, decide_True by done. by rewrite <-app_assoc.
  - by exists order, pends, k, ks.
Qed.

(** A step that leaves the objects, the counters and the order alone. *)
Lemma inv_local s order pends i p t t' pend :
  Inv s order pends → programs !! i = Some p → threads s !! i = Some t → pends !! i = Some pend →
  thread_ok i p order (spec order) (heap s) t' pend →
  (∀ o md, held t' !! o = Some md → held t !! o = Some md ∨ available md o (threads s) = true) →
  (∀ o, held t !! o = Some Exclusive → held t' !! o ≠ Some Exclusive →
     heap s o = a_heap (spec order) o) →
  Inv (System (heap s) (counters s) (<[i := t']> (threads s))) order pends.
Proof.
  intros HI Hp Ht Hpend Hok Hheld Hrel.
  rewrite <-(list_insert_id pends i pend) by done.
  eapply (inv_update s order pends i p t t'); try done.
  intros k. rewrite list_insert_id by done. apply HI.
Qed.

(** What a mutex that is available guards is what the atomic calls made of it. *)
Lemma available_heap s order pends md o :
  Inv s order pends → available md o (threads s) = true → heap s o = a_heap (spec order) o.
Proof.
  intros HI Hav. apply (inv_heap _ _ _ HI). intros i t Ht Hx.
  pose proof (available_shared _ _ _ _ _ Hav (list_elem_of_lookup_2 _ _ _ Ht) Hx) as Hc. by destruct md.
Qed.

(** Locking: nothing has been done, and one more object is held. *)
Lemma inv_lock s order pends i p t acts acts' l md o :
  Inv s order pends → programs !! i = Some p → threads s !! i = Some t →
  pc t = Some (acts, l) → data acts' = data acts → (∀ hd, works hd acts = false) →
  (acquires (held t) acts = true → acquires (<[o := md]> (held t)) acts' = true) →
  available md o (threads s) = true →
  Inv (System (heap s) (counters s)
    (<[i := Thread (Some (acts', l)) (<[o := md]> (held t)) (todo t) (log t)]> (threads s)))
    order pends.
Proof.
  intros HI Hp Ht Hpc Hdata Hnw Hacq Hav.
  destruct (lookup_lt_is_Some_2 pends i) as [pend Hpend].
  { rewrite (inv_pends _ _ _ HI). by eapply lookup_lt_Some. }
  pose proof (inv_thread _ _ _ HI i p t pend Hp Ht Hpend) as Hok.
  eapply inv_local; [exact HI|exact Hp|exact Ht|exact Hpend|..]; cbn [held].
  - unfold thread_ok in *. rewrite Hpc in Hok. cbn [pc held todo log].
    destruct Hok as (k & ks & Htodo & [(Hsplit & Hlog & Hw)|(_ & _ & _ & Hr & _)]).
    + exists k, ks. split; [done|]. left. split_and!; [done..|].
      destruct Hw as (pre & hp & Hd & Hg & E & Hagree & Ha & [->|Hw]);
        [|by rewrite Hnw in Hw].
      cbn in E. injection E as <- <- <-. exists [], (a_heap (spec order)). split_and!; [|done|done| | |by left].
      * by rewrite Hdata.
      * intros o'. destruct (decide (o' = o)) as [->|Hne].
        -- intros _. by eapply available_heap.
        -- rewrite lookup_insert_ne by done. apply Hagree.
      * by apply Hacq.
    + apply releases_works in Hr. by rewrite Hnw in Hr.
  - intros o' md' Ho'. destruct (decide (o' = o)) as [->|Hne].
    + rewrite lookup_insert_eq in Ho'. injection Ho' as <-. by right.
    + rewrite lookup_insert_ne in Ho' by done. by left.
  - intros o' Hx Hnx. destruct (decide (o' = o)) as [->|Hne]; [by eapply available_heap|].
    rewrite lookup_insert_ne in Hnx by done. done.
Qed.

Lemma start_inv s order pends i p t k ks :
  Inv s order pends → programs !! i = Some p → threads s !! i = Some t →
  pc t = None → todo t = k :: ks →
  Inv (System (heap s) (counters s)
    (<[i := Thread (Some (body k, start k)) (held t) (todo t) (log t)]> (threads s))) order pends.
Proof.
  intros HI Hp Ht Hpc Htodo.
  destruct (lookup_lt_is_Some_2 pends i) as [pend Hpend].
  { rewrite (inv_pends _ _ _ HI). by eapply lookup_lt_Some. }
  pose proof (inv_thread _ _ _ HI i p t pend Hp Ht Hpend) as Hok.
  unfold thread_ok in Hok. rewrite Hpc in Hok. destruct Hok as (Hheld & Hsplit & Hlog & ->).
  eapply inv_local; [exact HI|exact Hp|exact Ht|exact Hpend|..]; cbn [held];
    [|rewrite Hheld; setoid_rewrite lookup_empty; congruence..].
  unfold thread_ok. cbn [pc held todo log]. exists k, ks. split; [done|]. left.
  split_and!; [congruence|done|]. exists [], (a_heap (spec order)). rewrite Hheld. split_and!; try done.
  - intros o [? ?%lookup_empty_Some]. done.
  - apply (Hprog i p k Hp). rewrite Hsplit, Htodo. apply elem_of_app. right. by left.
  - by left.
Qed.

Lemma return_inv s order pends i p t l :
  Inv s order pends → programs !! i = Some p → threads s !! i = Some t → pc t = Some ([], l) →
  held t = ∅ ∧ (∃ order' pends',
    Inv (System (heap s) (counters s)
      (<[i := Thread None (held t) (tail (todo t)) (log t ++ [l])]> (threads s))) order' pends').
Proof.
  intros HI Hp Ht Hpc.
  destruct (lookup_lt_is_Some_2 pends i) as [pend Hpend].
  { rewrite (inv_pends _ _ _ HI). by eapply lookup_lt_Some. }
  assert (releases (held t) ([] : list (action V L)) = true) as Hrel.
  { pose proof (inv_thread _ _ _ HI i p t pend Hp Ht Hpend) as Hok.
    unfold thread_ok in Hok. rewrite Hpc in Hok.
    by destruct Hok as (k & ks & _ & [(_ & _ & pre & hp & _ & _ & _ & _ & Ha & _)|(_ & _ & _ & Hr & _)]). }
  destruct (take_effect _ _ _ _ _ _ _ _ HI Hp Ht Hpc Hrel)
    as (order' & pends' & k & ks & HI' & Hpend' & Htodo & Hsplit & Hlog & _).
  pose proof Hrel as Hempty. apply bool_decide_eq_true in Hempty. split; [done|].
  exists order', pends'.
  eapply inv_local; [exact HI'|exact Hp|exact Ht|exact Hpend'|..]; cbn [held];
    [|rewrite Hempty; setoid_rewrite lookup_empty; congruence..].
  unfold thread_ok. cbn [pc held todo log]. by rewrite Htodo.
Qed.

Lemma unlock_inv s order pends i p t o acts l :
  Inv s order pends → programs !! i = Some p → threads s !! i = Some t →
  pc t = Some (Unlock o :: acts, l) →
  ∃ order' pends', Inv (System (heap s) (counters s)
    (<[i := Thread (Some (acts, l)) (delete o (held t)) (todo t) (log t)]> (threads s)))
    order' pends'.
Proof.
  intros HI Hp Ht Hpc.
  destruct (lookup_lt_is_Some_2 pends i) as [pend Hpend].
  { rewrite (inv_pends _ _ _ HI). by eapply lookup_lt_Some. }
  assert (releases (held t) (Unlock o :: acts) = true) as Hrel.
  { pose proof (inv_thread _ _ _ HI i p t pend Hp Ht Hpend) as Hok.
    unfold thread_ok in Hok. rewrite Hpc in Hok.
    by destruct Hok as (k & ks & _ & [(_ & _ & pre & hp & _ & _ & _ & _ & Ha & _)|(_ & _ & _ & Hr & _)]). }
  destruct (take_effect _ _ _ _ _ _ _ _ HI Hp Ht Hpc Hrel)
    as (order' & pends' & k & ks & HI' & Hpend' & Htodo & Hsplit & Hlog & Hh).
  exists order', pends'.
  eapply inv_local; [exact HI'|exact Hp|exact Ht|exact Hpend'|..]; cbn [held].
  - unfold thread_ok. cbn [pc held todo log]. exists k, ks. split; [done|]. right.
    split_and!; [done..|]. split.
    + cbn in Hrel. by apply andb_prop in Hrel as [_ ?].
    + intros o' [md Ho']%lookup_delete_is_Some. by apply Hh.
  - intros o' md Ho'. left. by apply lookup_delete_Some in Ho' as [_ ?].
  - intros o' Ho' _. apply Hh. eauto.
Qed.

Lemma counters_range s order pends k : Inv s order pends → 0 ≤ counters s k < 2 ^ 64.
Proof. intros HI. rewrite (inv_counters _ _ _ HI). apply wrap_range; lia. Qed.

Lemma data_inv s order pends i p t a acts l h l' ks :
  Inv s order pends → programs !! i = Some p → threads s !! i = Some t →
  pc t = Some (a :: acts, l) → is_data a = true →
  perform a (heap s) (counters s) l = (h, l', ks) →
  ∃ pends', Inv (System h (bump ks (counters s))
    (<[i := Thread (Some (acts, l')) (held t) (todo t) (log t)]> (threads s))) order pends'.
Proof.
  intros HI Hp Ht Hpc Hdata E.
  destruct (lookup_lt_is_Some_2 pends i) as [pend Hpend].
  { rewrite (inv_pends _ _ _ HI). by eapply lookup_lt_Some. }
  pose proof (inv_thread _ _ _ HI i p t pend Hp Ht Hpend) as Hok.
  unfold thread_ok in Hok. rewrite Hpc in Hok.
  destruct Hok as (k & ks' & Htodo & [(Hsplit & Hlog & Hw)|(_ & _ & _ & Hr & _)]);
    [|by destruct a].
  destruct Hw as (pre & hp & Hd & Hg & Ep & Hagree & Ha & _).
  assert (works (held t) (a :: acts) = true) as Hw by by destruct a.
  rewrite works_cons, Hdata in Hw. apply andb_prop in Hw as [Hga Hw].
  destruct (perform a hp (bump pend (a_counters (spec order))) l) as [[hp2 l2] ks2] eqn:E2.
  destruct (perform_frame _ _ _ _ _ _ _ _ _ _ _ _ _ Hga Hagree E E2) as (<- & <- & Hagree2).
  exists (<[i := pend ++ ks]> pends).
  eapply (inv_update s order pends i p t _ (pend ++ ks)); try done; cbn [held].
  - unfold thread_ok. cbn [pc held todo log]. exists k, ks'. split; [done|]. left.
    split_and!; [done..|]. exists (pre ++ [a]), hp2. split_and!.
    + by rewrite Hd, data_cons, Hdata, <-app_assoc.
    + apply list.Forall_app. by split; [|constructor].
    + by eapply exec_snoc.
    + done.
    + by apply acquires_works.
    + by right.
  - intros o Ho. split; [|done]. by eapply perform_outside.
  - intros o md ?. by left.
  - intros k'. rewrite bump_occurrences by (intros; by eapply counters_range).
    rewrite (inv_counters _ _ _ HI), wrap_add by lia.
    rewrite (occurrences_insert _ _ _ _ _ Hpend), occurrences_app. f_equal. lia.
Qed.

(** A failed attempt gives back the first mutex; nothing has been done. *)
Lemma back_off_inv s order pends i p t x y acts l :
  Inv s order pends → programs !! i = Some p → threads s !! i = Some t →
  pc t = Some (TryLock x y :: acts, l) →
  Inv (System (heap s) (counters s)
    (<[i := Thread (Some (ScopedLock y x :: acts, l)) (delete x (held t)) (todo t) (log t)]>
      (threads s))) order pends.
Proof.
  intros HI Hp Ht Hpc.
  destruct (lookup_lt_is_Some_2 pends i) as [pend Hpend].
  { rewrite (inv_pends _ _ _ HI). by eapply lookup_lt_Some. }
  pose proof (inv_thread _ _ _ HI i p t pend Hp Ht Hpend) as Hok.
  unfold thread_ok in Hok. rewrite Hpc in Hok.
  destruct Hok as (k & ks & Htodo & [(Hsplit & Hlog & Hw)|(_ & _ & _ & Hr & _)]); [|done].
  destruct Hw as (pre & hp & Hd & Hg & E & Hagree & Ha & [->|Hw]); [|done].
  cbn in Ha. apply andb_prop in Ha as [Hxy%bool_decide_eq_true Ha]. destruct Hxy as (Hne & Hx & Hy).
  eapply inv_local; [exact HI|exact Hp|exact Ht|exact Hpend|..]; cbn [held].
  - unfold thread_ok. cbn [pc held todo log]. exists k, ks. split; [done|]. left. split_and!; [done..|].
    exists [], hp. split_and!; [done..| | |by left].
    + intros o [md [_ Ho]%lookup_delete_Some]. apply Hagree. eauto.
    + cbn. rewrite bool_decide_true, insert_delete_eq.
      * by rewrite (insert_id (held t) x) by done.
      * split_and!; [done|by rewrite lookup_delete_ne|apply lookup_delete_eq].
  - intros o md [_ Ho]%lookup_delete_Some. by left.
  - intros o Ho _. cbn in E. injection E as <- _ _. apply Hagree. eauto.
Qed.

Lemma machine_step_inv s s' order pends i :
  Inv s order pends → step i s = Some s' → ∃ order' pends', Inv s' order' pends'.
Proof.
  intros HI Hs. unfold step in Hs. destruct (threads s !! i) as [t|] eqn:Ht; [|done].
  destruct (lookup_lt_is_Some_2 programs i) as [p Hp].
  { rewrite <-(inv_programs _ _ _ HI). by eapply lookup_lt_Some. }
  cbn in Hs. unfold advance in Hs. destruct (pc t) as [[[|a acts] l]|] eqn:Hpc.
  - injection Hs as <-. by destruct (return_inv _ _ _ _ _ _ _ HI Hp Ht Hpc) as [_ ?].
  - destruct (is_data a) eqn:Hdata.
    { destruct (perform a (heap s) (counters s) l) as [[h l'] ks] eqn:E.
      destruct (data_inv _ _ _ _ _ _ _ _ _ _ _ _ HI Hp Ht Hpc Hdata E) as [pends' HI'].
      exists order, pends'. destruct a; try done; cbn in Hs, E; rewrite ?E in Hs;
        injection Hs as <-; injection E as <- <- <-; exact HI'. }
    destruct a as [md o|x y|x y|o| | | |]; try done.
    + case_match eqn:Hav; [|done]. injection Hs as <-. exists order, pends.
      eapply inv_lock; [exact HI|exact Hp|exact Ht|exact Hpc|done|done| |exact Hav].
      cbn. by intros [_ ?]%andb_prop.
    + case_match eqn:Hav; [|done]. injection Hs as <-. exists order, pends.
      eapply inv_lock; [exact HI|exact Hp|exact Ht|exact Hpc|done|done| |exact Hav].
      cbn. intros [(Hne & Hx & Hy)%bool_decide_eq_true Ha]%andb_prop.
      rewrite bool_decide_true by (rewrite lookup_insert_eq, lookup_insert_ne; done).
      by rewrite insert_insert_ne by done.
    + case_match eqn:Hav; injection Hs as <-; exists order, pends; [|by apply (back_off_inv s _ _ i p)].
      eapply inv_lock; [exact HI|exact Hp|exact Ht|exact Hpc|done|done| |exact Hav].
      cbn. by intros [_ ?]%andb_prop.
    + injection Hs as <-. by eapply unlock_inv.
  - destruct (todo t) as [|k ks] eqn:Htodo; [done|]. injection Hs as <-.
    exists order, pends. rewrite <-Htodo. by eapply start_inv.
Qed.

Lemma run_inv schedule s order pends :
  Inv s order pends → ∃ order' pends', Inv (run schedule s) order' pends'.
Proof.
  revert s order pends; induction schedule as [|i schedule IH]; intros s order pends HI; [eauto|].
  cbn. destruct (step i s) as [s'|] eqn:E; cbn; [|by eapply IH].
  destruct (machine_step_inv _ _ _ _ _ HI E) as (order' & pends' & HI'). by eapply IH.
Qed.

Lemma reachable_inv schedule :
  ∃ order pends, Inv (run schedule (initial h0 c0 programs)) order pends.
Proof. eapply run_inv, initial_inv. Qed.

(** ** What follows from it *)

Lemma inv_lookup s order pends i t :
  Inv s order pends → threads s !! i = Some t →
  ∃ p pend, programs !! i = Some p ∧ pends !! i = Some pend ∧
    thread_ok i p order (spec order) (heap s) t pend.
Proof.
  intros HI Ht. pose proof (lookup_lt_Some _ _ _ Ht) as Hlt.
  destruct (lookup_lt_is_Some_2 programs i) as [p Hp]; [by rewrite <-(inv_programs _ _ _ HI)|].
  destruct (lookup_lt_is_Some_2 pends i) as [pend Hpend]; [by rewrite (inv_pends _ _ _ HI)|].
  exists p, pend. split_and!; [done..|]. by eapply inv_thread.
Qed.

(** The access a thread is about to make is under a lock. *)
Lemma next_guarded s order pends i t a acts l :
  Inv s order pends → threads s !! i = Some t → pc t = Some (a :: acts, l) →
  is_data a = true → guarded (held t) a = true.
Proof.
  intros HI Ht Hpc Hdata. destruct (inv_lookup _ _ _ _ _ HI Ht) as (p & pend & _ & _ & Hok).
  unfold thread_ok in Hok. rewrite Hpc in Hok.
  destruct Hok as (k & ks & _ & [(_ & _ & pre & hp & _ & _ & _ & _ & Ha & _)|(_ & _ & _ & Hr & _)]);
    [|by destruct a].
  assert (works (held t) (a :: acts) = true) as Hw by by destruct a.
  rewrite works_cons, Hdata in Hw. by apply andb_prop in Hw as [? _].
Qed.

Lemma race_freedom s order pends i j ti tj :
  Inv s order pends → i ≠ j → threads s !! i = Some ti → threads s !! j = Some tj →
  races ti tj = false.
Proof.
  intros HI Hij Hti Htj. unfold races.
  destruct (pc ti) as [[[|[| | | | |o f| |] acti] li]|] eqn:Epi; try done.
  destruct (pc tj) as [[[|a actj] lj]|] eqn:Epj; try done.
  destruct (touches o a) eqn:Et; [|done]. exfalso.
  pose proof (next_guarded _ _ _ _ _ _ _ _ HI Hti Epi eq_refl) as Hx. apply bool_decide_eq_true in Hx.
  pose proof (inv_excl _ _ _ HI i j ti tj o Hij Hti Htj Hx) as Hn.
  destruct a; try done; apply Nat.eqb_eq in Et as <-;
    pose proof (next_guarded _ _ _ _ _ _ _ _ HI Htj Epj eq_refl) as Hg; apply bool_decide_eq_true in Hg;
    rewrite Hn in Hg; [by destruct Hg|done].
Qed.

(** The calls that have happened, thread by thread, are the first ones of its
    program; what a thread has been given is what they gave. *)
Lemma order_prefix s order pends i p t :
  Inv s order pends → programs !! i = Some p → threads s !! i = Some t →
  proj i order `prefix_of` p ∧ log t `prefix_of` proj i (a_log (spec order)).
Proof.
  intros HI Hp Ht. destruct (inv_lookup _ _ _ _ _ HI Ht) as (p' & pend & Hp' & _ & Hok).
  assert (p' = p) as -> by congruence. unfold thread_ok in Hok. destruct (pc t) as [[acts l]|].
  - destruct Hok as (k & ks & _ & [(-> & -> & _)|(-> & <- & _)]);
      split; first [by apply prefix_app_r|by eexists|done].
  - destruct Hok as (_ & -> & -> & _). split; [by eexists|done].
Qed.

Lemma idle_spec t : idle t = true → pc t = None ∧ todo t = [].
Proof. unfold idle. by destruct (pc t), (todo t). Qed.

Lemma finished_idle s i t : finished s = true → threads s !! i = Some t → pc t = None ∧ todo t = [].
Proof.
  intros Hf Ht. apply idle_spec. unfold finished in Hf. rewrite forallb_forall in Hf.
  apply Hf, list_elem_of_In. by eapply list_elem_of_lookup_2.
Qed.

Lemma atomicity s order pends :
  Inv s order pends → finished s = true →
  (∀ i p t, programs !! i = Some p → threads s !! i = Some t →
     proj i order = p ∧ proj i (a_log (spec order)) = log t) ∧
  (∀ o, heap s o = a_heap (spec order) o) ∧
  (∀ k, counters s k = a_counters (spec order) k).
Proof.
  intros HI Hf.
  assert (∀ i t pend, threads s !! i = Some t → pends !! i = Some pend →
    ∃ p, programs !! i = Some p ∧ held t = ∅ ∧ p = proj i order ∧
      log t = proj i (a_log (spec order)) ∧ pend = []) as Hall.
  { intros i t pend Ht Hpend. destruct (finished_idle _ _ _ Hf Ht) as [Hpc Htodo].
    destruct (inv_lookup _ _ _ _ _ HI Ht) as (p & pend' & Hp & Hpend' & Hok).
    unfold thread_ok in Hok. rewrite Hpc, Htodo, app_nil_r in Hok. destruct Hok as (? & ? & ? & ?).
    exists p. split_and!; congruence. }
  split_and!.
  - intros i p t Hp Ht. destruct (lookup_lt_is_Some_2 pends i) as [pend Hpend].
    { rewrite (inv_pends _ _ _ HI). by eapply lookup_lt_Some. }
    destruct (Hall i t pend Ht Hpend) as (p' & Hp' & _ & Ep & El & _). split; congruence.
  - intros o. apply (inv_heap _ _ _ HI). intros i t Ht.
    destruct (lookup_lt_is_Some_2 pends i) as [pend Hpend].
    { rewrite (inv_pends _ _ _ HI). by eapply lookup_lt_Some. }
    destruct (Hall i t pend Ht Hpend) as (p' & _ & -> & _). by rewrite lookup_empty.
  - intros k. rewrite (inv_counters _ _ _ HI). assert (concat pends = []) as ->.
    { apply concat_nil_Forall. apply List.Forall_forall. intros pend Hin.
      apply list_elem_of_In, list_elem_of_lookup_1 in Hin as [i Hi].
      destruct (lookup_lt_is_Some_2 (threads s) i) as [t Ht].
      { rewrite <-(inv_pends _ _ _ HI). by eapply lookup_lt_Some. }
      by destruct (Hall i t pend Ht Hi) as (_ & _ & _ & _ & _ & ->). }
    change (occurrences k []) with 0. rewrite Z.add_0_r. apply wrap_small, spec_counters.
Qed.

(** ** Locks taken in order: the threads can always finish *)

Context (rank : nat → nat).
Hypothesis Hrank : ∀ i p k, programs !! i = Some p → k ∈ p → ranked rank k = true.

Definition in_order t : Prop :=
  match pc t with Some (acts, _) => ordered rank (held t) acts = true | None => True end.
Definition Ord s : Prop := ∀ i t, threads s !! i = Some t → in_order t.

Lemma above_spec o hd : above rank o hd = true ↔ ∀ o', is_Some (hd !! o') → (rank o' < rank o)%nat.
Proof.
  unfold above. rewrite forallb_forall. split.
  - intros H o' [md Ho']. apply Nat.ltb_lt, (H (o', md)), list_elem_of_In. by apply elem_of_map_to_list.
  - intros H [o' md] Hin. apply list_elem_of_In, elem_of_map_to_list in Hin.
    apply Nat.ltb_lt, H. eauto.
Qed.

Lemma above_delete x o hd : above rank o hd = true → above rank o (delete x hd) = true.
Proof. rewrite !above_spec. intros H o' [md [_ Ho']%lookup_delete_Some]. apply H. eauto. Qed.

(** The thread after its action, for a thread that has begun its call. *)
Lemma try_lock_shape s order pends i t x y acts l :
  Inv s order pends → threads s !! i = Some t → pc t = Some (TryLock x y :: acts, l) →
  x ≠ y ∧ held t !! x = Some Exclusive ∧ held t !! y = None.
Proof.
  intros HI Ht Hpc. destruct (inv_lookup _ _ _ _ _ HI Ht) as (p & pend & _ & _ & Hok).
  unfold thread_ok in Hok. rewrite Hpc in Hok.
  destruct Hok as (k & ks & _ & [(_ & _ & pre & hp & _ & _ & _ & _ & Ha & _)|(_ & _ & _ & Hr & _)]);
    [|done].
  cbn in Ha. by apply andb_prop in Ha as [?%bool_decide_eq_true _].
Qed.

Lemma advance_in_order s order pends i t s1 t' :
  Inv s order pends → threads s !! i = Some t → in_order t →
  advance t s = Some (s1, t') → in_order t' ∧ threads s1 = threads s.
Proof.
  intros HI Ht Ho Hs. unfold in_order in *. unfold advance in Hs.
  destruct (pc t) as [[[|a acts] l]|] eqn:Hpc.
  - by injection Hs as <- <-.
  - destruct a as [md o|x y|x y|o|o f|o f|k f|k f]; cbn in Hs, Ho.
    + case_match; [|done]. injection Hs as <- <-. by apply andb_prop in Ho as [_ ?].
    + case_match; [|done]. injection Hs as <- <-. split; [|done]. cbn.
      apply andb_prop in Ho as [[Hx Hy]%andb_prop Ho]. rewrite Ho, andb_true_r.
      apply andb_true_intro. split; apply above_spec; intros o' [md [Hne Ho']%lookup_delete_Some];
        rewrite lookup_insert_ne in Ho' by done; [by eapply above_spec in Hx|by eapply above_spec in Hy].
    + destruct (try_lock_shape _ _ _ _ _ _ _ _ _ HI Ht Hpc) as (Hne & Hx & Hy).
      apply andb_prop in Ho as [[Hax Hay]%andb_prop Ho].
      case_match; injection Hs as <- <-; (split; [|done]); cbn; [done|].
      rewrite Hax, Hay. cbn. rewrite insert_insert_ne by done.
      by rewrite insert_delete_eq, (insert_id (held t) x) by done.
    + by injection Hs as <- <-.
    + by injection Hs as <- <-.
    + by injection Hs as <- <-.
    + by injection Hs as <- <-.
    + by injection Hs as <- <-.
  - destruct (todo t) as [|k ks] eqn:Htodo; [done|]. injection Hs as <- <-. cbn. split; [|done].
    destruct (inv_lookup _ _ _ _ _ HI Ht) as (p & pend & Hp & _ & Hok).
    unfold thread_ok in Hok. rewrite Hpc in Hok. destruct Hok as (-> & -> & _).
    apply (Hrank i _ _ Hp). rewrite Htodo. apply elem_of_app. right. by left.
Qed.

Definition Good s : Prop := (∃ order pends, Inv s order pends) ∧ Ord s.

Lemma good_step s i s' : Good s → step i s = Some s' → Good s'.
Proof.
  intros [(order & pends & HI) Ho] Hs. split; [by eapply machine_step_inv|].
  unfold step in Hs. destruct (threads s !! i) as [t|] eqn:Ht; [|done]. cbn in Hs.
  destruct (advance t s) as [[s1 t']|] eqn:E; [|done]. injection Hs as <-.
  destruct (advance_in_order _ _ _ _ _ _ _ HI Ht (Ho i t Ht) E) as [Ht' _].
  intros j tj Hj. cbn in Hj. apply list_lookup_insert_Some in Hj as [(-> & <- & _)|[_ Hj]]; [done|].
  by eapply Ho.
Qed.

Lemma good_run schedule s : Good s → Good (run schedule s).
Proof.
  revert s; induction schedule as [|i schedule IH]; intros s Hg; [done|]. cbn. apply IH.
  destruct (step i s) as [s'|] eqn:E; [by eapply good_step|done].
Qed.

Lemma good_initial : Good (initial h0 c0 programs).
Proof.
  split; [eexists _, _; apply initial_inv|]. intros i t Ht.
  by apply list_lookup_fmap_Some in Ht as (p & -> & _).
Qed.

(** What is left to do, and how many threads are between the two mutexes of a
    [scoped_lock]. *)
Definition cost (k : call V L) : nat := 2 + length (body k).
Definition remaining t : nat :=
  match pc t with
  | Some (acts, _) => S (length acts) + sum_list_with cost (tail (todo t))
  | None => sum_list_with cost (todo t)
  end.
Definition trying t : nat :=
  match pc t with Some (TryLock _ _ :: _, _) => 1 | _ => 0 end.
Definition work s : nat := sum_list_with remaining (threads s).

Lemma step_at s i t s1 t' :
  threads s !! i = Some t → advance t s = Some (s1, t') →
  step i s = Some (System (heap s1) (counters s1) (<[i := t']> (threads s))).
Proof. intros Ht E. unfold step. rewrite Ht. cbn. by rewrite E. Qed.

Lemma step_less s i t s1 t' :
  threads s !! i = Some t → advance t s = Some (s1, t') → (remaining t' < remaining t)%nat →
  Good s → ∃ schedule, Good (run schedule s) ∧ (work (run schedule s) < work s)%nat.
Proof.
  intros Ht E Hlt Hg. exists [i]. pose proof (step_at _ _ _ _ _ Ht E) as Es.
  split; [by apply good_run|]. cbn. rewrite Es. cbn. unfold work. cbn [threads].
  pose proof (sum_insert remaining (threads s) i t t' Ht). lia.
Qed.

Lemma unheld_available md o s :
  (∀ j tj, threads s !! j = Some tj → held tj !! o = None) → available md o (threads s) = true.
Proof.
  intros H. unfold available. apply forallb_forall. intros t Hin.
  apply list_elem_of_In, list_elem_of_lookup_1 in Hin as [j Hj]. by rewrite (H j t Hj).
Qed.

(** The thread to run: nobody holds a mutex above all of its own. *)
Lemma pick s : Good s → finished s = false →
  ∃ i t, threads s !! i = Some t ∧ idle t = false ∧
    ∀ o, above rank o (held t) = true → ∀ j tj, threads s !! j = Some tj → held tj !! o = None.
Proof.
  intros [(order & pends & HI) _] Hf.
  set (holdings := concat ((λ t, (map_to_list (held t)).*1) <$> threads s)).
  assert (∀ j tj o, threads s !! j = Some tj → is_Some (held tj !! o) → o ∈ holdings) as Hin.
  { intros j tj o Hj [md Ho]. unfold holdings. apply list_elem_of_In, in_concat. eexists. split.
    - apply list_elem_of_In, list_elem_of_fmap. exists tj. split; [done|]. by eapply list_elem_of_lookup_2.
    - apply list_elem_of_In, list_elem_of_fmap. exists (o, md). split; [done|]. by apply elem_of_map_to_list. }
  destruct (decide (holdings = [])) as [Hnil|Hne].
  - assert (∃ t, t ∈ threads s ∧ idle t = false) as (t & Hint & Hidle).
    { unfold finished in Hf. apply not_true_iff_false in Hf. rewrite forallb_forall in Hf.
      destruct (decide (Exists (λ t, idle t = false) (threads s))) as [He|Hn].
      - by apply list.Exists_exists in He as (t & ? & ?); eauto.
      - exfalso. apply Hf. intros t Ht%list_elem_of_In. destruct (idle t) eqn:E; [done|].
        exfalso. apply Hn, list.Exists_exists. eauto. }
    apply list_elem_of_lookup_1 in Hint as [i Hi]. exists i, t. split_and!; [done..|].
    intros o _ j tj Hj. destruct (held tj !! o) as [md|] eqn:E; [|done].
    pose proof (Hin j tj o Hj ltac:(eauto)) as H. rewrite Hnil in H. by apply not_elem_of_nil in H.
  - destruct (max_by rank holdings Hne) as (m & Hm & Hmax).
    unfold holdings in Hm. apply list_elem_of_In, in_concat in Hm as (os & Hos & Hm).
    apply list_elem_of_In, list_elem_of_fmap in Hos as (t & -> & Hint).
    apply list_elem_of_In, list_elem_of_fmap in Hm as ([m' md] & -> & Hm).
    apply elem_of_map_to_list in Hm. apply list_elem_of_lookup_1 in Hint as [i Hi].
    exists i, t. split_and!; [done| |].
    + destruct (idle t) eqn:E; [|done]. apply idle_spec in E as [Hpc _].
      destruct (inv_lookup _ _ _ _ _ HI Hi) as (p & pend & _ & _ & Hok).
      unfold thread_ok in Hok. rewrite Hpc in Hok. destruct Hok as [Hh _].
      cbn in Hm. rewrite Hh in Hm. by rewrite lookup_empty in Hm.
    + intros o Ho j tj Hj. destruct (held tj !! o) as [md'|] eqn:E; [|done].
      pose proof (Hmax o (Hin j tj o Hj ltac:(eauto))) as Hle. cbn in Hle, Hm.
      rewrite above_spec in Ho. specialize (Ho m' ltac:(eauto)). lia.
Qed.

Lemma run_step s i s' schedule : step i s = Some s' → run (i :: schedule) s = run schedule s'.
Proof. intros E. change (run (i :: schedule) s) with (run schedule (default s (step i s))). by rewrite E. Qed.

Lemma step_then s i s' :
  Good s → step i s = Some s' → (work s' ≤ work s)%nat →
  (∃ schedule, Good (run schedule s') ∧ (work (run schedule s') < work s')%nat) →
  ∃ schedule, Good (run schedule s) ∧ (work (run schedule s) < work s)%nat.
Proof.
  intros Hg Es Hle (schedule & Hg' & Hlt). exists (i :: schedule).
  rewrite (run_step _ _ _ _ Es). split; [done|lia].
Qed.

(** Both mutexes of a [scoped_lock] are free: two steps take them. *)
Lemma scoped_lock_twice s i t x y acts l :
  Good s → threads s !! i = Some t → pc t = Some (ScopedLock x y :: acts, l) →
  (∀ j tj, threads s !! j = Some tj → held tj !! x = None ∧ held tj !! y = None) →
  ∃ schedule, Good (run schedule s) ∧ (work (run schedule s) < work s)%nat.
Proof.
  intros Hg Ht Hpc Hfree.
  set (t1 := Thread (Some (TryLock x y :: acts, l)) (<[x := Exclusive]> (held t)) (todo t) (log t)).
  assert (advance t s = Some (s, t1)) as E1.
  { unfold advance. rewrite Hpc, unheld_available; [done|]. intros j tj Hj. by apply (Hfree j tj). }
  pose proof (step_at _ _ _ _ _ Ht E1) as Es1. set (s1 := System _ _ _) in Es1.
  assert (threads s1 !! i = Some t1) as Ht1.
  { cbn. apply list_lookup_insert_eq. by eapply lookup_lt_Some. }
  pose proof (good_step _ _ _ Hg Es1) as Hg1.
  apply (step_then s i s1 Hg Es1).
  { unfold s1, work. cbn [threads]. pose proof (sum_insert remaining (threads s) i t t1 Ht) as Hw.
    unfold remaining at 2 4 in Hw. rewrite Hpc in Hw. cbn in Hw. lia. }
  destruct Hg1 as [(order & pends & HI1) Ho1] eqn:Eg.
  destruct (try_lock_shape _ _ _ _ _ _ _ _ _ HI1 Ht1 eq_refl) as (Hne & _ & _).
  eapply (step_less s1 i t1); [exact Ht1| | |exact Hg1].
  - unfold advance. cbn [pc t1]. rewrite unheld_available; [done|]. intros j tj Hj. cbn in Hj.
    apply list_lookup_insert_Some in Hj as [(-> & <- & _)|[_ Hj]]; [|by apply (Hfree j tj)].
    cbn. rewrite lookup_insert_ne by done. by apply (Hfree j t).
  - cbn. lia.
Qed.

Lemma progress_pick s :
  Good s → finished s = false → (∀ i t, threads s !! i = Some t → trying t = 0%nat) →
  ∃ schedule, Good (run schedule s) ∧ (work (run schedule s) < work s)%nat.
Proof.
  intros Hg Hf Htry. destruct (pick s Hg Hf) as (i & t & Ht & Hidle & Hfree).
  pose proof (proj2 Hg i t Ht) as Ho. specialize (Htry i t Ht).
  unfold in_order in Ho. unfold idle in Hidle. unfold trying in Htry.
  destruct (pc t) as [[[|a acts] l]|] eqn:Hpc.
  - eapply (step_less s i t); [done|unfold advance; by rewrite Hpc| |done].
    unfold remaining. rewrite Hpc. cbn. lia.
  - destruct a as [md o|x y|x y|o|o f|o f|k f|k f]; cbn in Ho; try done.
    2: { apply andb_prop in Ho as [[Hx Hy]%andb_prop _].
         eapply scoped_lock_twice; [done|done|done|]. intros j tj Hj. split; by eapply Hfree. }
    1: { apply andb_prop in Ho as [Ho _].
         eapply (step_less s i t); [done| | |done].
         - unfold advance. rewrite Hpc, unheld_available; [done|]. by apply Hfree.
         - unfold remaining. rewrite Hpc. cbn. lia. }
    all: eapply (step_less s i t); [done|unfold advance; rewrite Hpc; done| |done];
      unfold remaining; rewrite Hpc; cbn; lia.
  - destruct (todo t) as [|k ks] eqn:Htodo; [done|].
    eapply (step_less s i t); [done|unfold advance; by rewrite Hpc, Htodo| |done].
    unfold remaining. rewrite Hpc, Htodo. cbn. lia.
Qed.

Lemma progress n s :
  sum_list_with trying (threads s) = n → Good s → finished s = false →
  ∃ schedule, Good (run schedule s) ∧ (work (run schedule s) < work s)%nat.
Proof.
  revert s; induction n as [|n IH]; intros s Hn Hg Hf.
  - apply progress_pick; [done..|]. intros i t Ht.
    pose proof (sum_insert trying (threads s) i t (Thread None ∅ [] []) Ht) as Hs. cbn in Hs. lia.
  - destruct (decide (Exists (λ t, trying t ≠ 0%nat) (threads s))) as [He|Hno].
    2: { apply progress_pick; [done..|]. intros i t Ht. destruct (decide (trying t = 0%nat)); [done|].
         exfalso. apply Hno, list.Exists_exists. exists t. split; [by eapply list_elem_of_lookup_2|done]. }
    apply list.Exists_exists in He as (t & Hin & Htry). apply list_elem_of_lookup_1 in Hin as [i Ht].
    unfold trying in Htry.
    destruct (pc t) as [[[|[md o|x y|x y|o|o f|o f|k f|k f] acts] l]|] eqn:Hpc; try done. clear Htry.
    destruct (available Exclusive y (threads s)) eqn:Hav.
    { eapply (step_less s i t); [done|unfold advance; by rewrite Hpc, Hav| |done].
      unfold remaining. rewrite Hpc. cbn. lia. }
    set (t1 := Thread (Some (ScopedLock y x :: acts, l)) (delete x (held t)) (todo t) (log t)).
    assert (advance t s = Some (s, t1)) as E1 by (unfold advance; by rewrite Hpc, Hav).
    pose proof (step_at _ _ _ _ _ Ht E1) as Es1. set (s1 := System _ _ _) in Es1.
    apply (step_then s i s1 Hg Es1).
    { unfold s1, work. cbn [threads]. pose proof (sum_insert remaining (threads s) i t t1 Ht) as Hw.
      unfold remaining at 2 4 in Hw. rewrite Hpc in Hw. cbn in Hw. lia. }
    apply IH; [|by eapply good_step|].
    + unfold s1. cbn [threads]. pose proof (sum_insert trying (threads s) i t t1 Ht) as Hw.
      unfold trying at 2 4 in Hw. rewrite Hpc in Hw. cbn in Hw. lia.
    + apply not_true_iff_false. intros Hf1.
      assert (threads s1 !! i = Some t1) as Ht1.
      { cbn. apply list_lookup_insert_eq. by eapply lookup_lt_Some. }
      by destruct (finished_idle _ _ _ Hf1 Ht1) as [? _].
Qed.

Lemma run_schedules sch1 sch2 s : run (sch1 ++ sch2) s = run sch2 (run sch1 s).
Proof. apply fold_left_app. Qed.

Lemma completion s : Good s → ∃ schedule, finished (run schedule s) = true.
Proof.
  remember (work s) as w eqn:Ew. revert s Ew.
  induction w as [w IH] using lt_wf_ind; intros s -> Hg.
  destruct (finished s) eqn:Hf; [by exists []|].
  destruct (progress _ s eq_refl Hg Hf) as (sch & Hg' & Hlt).
  destruct (IH _ Hlt _ eq_refl Hg') as [sch' Hf']. exists (sch ++ sch'). by rewrite run_schedules.
Qed.
End Invariant.

(** ** The three facts, for any schedule *)

Section Schedules.
Context (programs : list (list (call V L))) (h0 : nat → V) (c0 : nat → Z).
Hypothesis Hprog : ∀ i p k, programs !! i = Some p → k ∈ p → two_phase k = true.
Hypothesis Hc0 : ∀ k, 0 ≤ c0 k < 2 ^ 64.

Lemma no_race schedule i j ti tj :
  let s := run schedule (initial h0 c0 programs) in
  i ≠ j → threads s !! i = Some ti → threads s !! j = Some tj → races ti tj = false.
Proof.
  intros s Hij Hi Hj. destruct (reachable_inv programs h0 c0 Hprog Hc0 schedule) as (o & ps & HI).
  by eapply race_freedom.
Qed.

Lemma calls_are_atomic schedule :
  let s := run schedule (initial h0 c0 programs) in
  finished s = true →
  ∃ order, let A := atomic_run order (Atomic h0 c0 []) in
    (∀ i, proj i order = default [] (programs !! i)) ∧
    (∀ i t, threads s !! i = Some t → log t = proj i (a_log A)) ∧
    (∀ o, heap s o = a_heap A o) ∧ (∀ k, counters s k = a_counters A k).
Proof.
  intros s Hf. subst s. destruct (reachable_inv programs h0 c0 Hprog Hc0 schedule) as (order & ps & HI).
  destruct (atomicity _ _ _ Hc0 _ _ _ HI Hf) as (Ht & Hh & Hc).
  exists order. split_and!; [| |exact Hh|exact Hc].
  - intros i. destruct (programs !! i) as [p|] eqn:Hp; cbn.
    + destruct (lookup_lt_is_Some_2 (threads (run schedule (initial h0 c0 programs))) i) as [t Hti].
      { rewrite (inv_programs _ _ _ _ _ _ HI). by eapply lookup_lt_Some. }
      by apply (Ht i p t).
    + apply (inv_order _ _ _ _ _ _ HI). by apply lookup_ge_None.
  - intros i t Hti. destruct (lookup_lt_is_Some_2 programs i) as [p Hp].
    { rewrite <-(inv_programs _ _ _ _ _ _ HI). by eapply lookup_lt_Some. }
    symmetry. by apply (Ht i p t).
Qed.

Lemma can_finish (rank : nat → nat) schedule :
  (∀ i p k, programs !! i = Some p → k ∈ p → ranked rank k = true) →
  ∃ schedule', finished (run (schedule ++ schedule') (initial h0 c0 programs)) = true.
Proof.
  intros Hrank.
  destruct (completion programs h0 c0 Hprog Hc0 rank Hrank (run schedule (initial h0 c0 programs)))
    as [schedule' Hf].
  { apply good_run; [done..|]. by apply good_initial. }
  exists schedule'. by rewrite run_schedules.
Qed.
End Schedules.
End Facts.
