(* ===== verification/Atomicity.v ===== *)
(** * Classes whose methods are atomic

    What the concurrent classes promise, as an interface: [LockedClass] names
    the methods of a class as they lock ([method]) and what the calls mean on
    objects ([respond]), with the laws that a method passes the check on its
    text and, when nothing interferes, does what the call means.  For every
    instance [requests_atomic] says that interleaved calls are calls performed
    one after the other, and [requests_race_free] that they do not race. *)

From S2P Require Import Prelude Locking LockingFacts.

(** [R]: calls with their arguments; [O]: objects as the rest of the development
    has them; [X]: results. *)
Class LockedClass (V L R O X : Type) : Type := {
  method : R → call V L;
  object : V → (nat → Z) → nat → O;
  reply : L → X;
  respond : R → (nat → O) → (nat → O) * X;
  is_atomic : R → bool;
  object_ext (v : V) c c' o : (∀ k, c k = c' k) → object v c o = object v c' o;
  method_two_phase r : is_atomic r = true → two_phase (method r) = true;
  respond_ext r σ σ' : (∀ o, σ o = σ' o) →
    (respond r σ).2 = (respond r σ').2 ∧ ∀ o, (respond r σ).1 o = (respond r σ').1 o;
  method_exec r h c : is_atomic r = true →
    let '(h', l, ks) := exec (body (method r)) h c (start (method r)) in
    let '(σ, x) := respond r (λ o, object (h o) c o) in
    reply l = x ∧ ∀ o, object (h' o) (bump ks c) o = σ o }.

Section Class_.
Context {V L R O X : Type} `{!LockedClass V L R O X}.

(** The objects in the memory of the threads. *)
Definition objects (h : nat → V) (c : nat → Z) (o : nat) : O := object (h o) c o.

Fixpoint respond_all (order : list (nat * R)) (σ : nat → O) : (nat → O) * list (nat * X) :=
  match order with
  | [] => (σ, [])
  | (i, r) :: order =>
      let '(σ, x) := respond r σ in let '(σ, xs) := respond_all order σ in (σ, (i, x) :: xs)
  end.

(** The program of a thread: its calls, one after the other. *)
Definition calls_of (rs : list R) : list (call V L) := method <$> rs.
Definition threads_of (h : nat → V) (c : nat → Z) (programs : list (list R)) : system V L :=
  initial h c (calls_of <$> programs).

Lemma respond_all_ext order σ σ' :
  (∀ o, σ o = σ' o) →
  (respond_all order σ).2 = (respond_all order σ').2 ∧
  ∀ o, (respond_all order σ).1 o = (respond_all order σ').1 o.
Proof.
  revert σ σ'; induction order as [|[i r] order IH]; intros σ σ' H; [done|]. cbn.
  destruct (respond_ext r σ σ' H) as [Hx Hσ].
  destruct (respond r σ) as [σ1 x], (respond r σ') as [σ2 x']. cbn in Hx, Hσ.
  subst x'. destruct (IH σ1 σ2 Hσ) as [Hxs Hσ'].
  destruct (respond_all order σ1), (respond_all order σ2). cbn in *. by subst.
Qed.

Lemma atomic_run_requests order (A : atomic V L) :
  (∀ i r, (i, r) ∈ order → is_atomic r = true) →
  let B := atomic_run (prod_map id method <$> order) A in
  let '(σ, replies) := respond_all order (objects (a_heap A) (a_counters A)) in
  prod_map id reply <$> a_log B = (prod_map id reply <$> a_log A) ++ replies ∧
  ∀ o, objects (a_heap B) (a_counters B) o = σ o.
Proof.
  revert A; induction order as [|[i r] order IH]; intros A Ha; cbn.
  - by rewrite app_nil_r.
  - pose proof (method_exec r (a_heap A) (a_counters A) (Ha i r ltac:(by left))) as He.
    change (λ o, object (a_heap A o) (a_counters A) o) with (objects (a_heap A) (a_counters A)) in He.
    destruct (exec (body (method r)) (a_heap A) (a_counters A) (start (method r)))
      as [[h l] ks] eqn:E.
    destruct (respond r (objects (a_heap A) (a_counters A))) as [σ1 x].
    destruct He as [Hret Hcont].
    set (A1 := Atomic h (bump ks (a_counters A)) (a_log A ++ [(i, l)])).
    assert (atomic_step A (i, method r) = A1) as Es
      by (unfold atomic_step; cbn [fst snd]; by rewrite E).
    unfold atomic_run. cbn [fold_left fmap list_fmap prod_map fst snd id]. rewrite Es.
    specialize (IH A1 ltac:(intros; apply (Ha i0); by right)). cbn zeta in IH.
    destruct (respond_all_ext order (objects (a_heap A1) (a_counters A1)) σ1 Hcont) as [Hx Hσ].
    destruct (respond_all order (objects (a_heap A1) (a_counters A1))) as [σ2 xs].
    destruct (respond_all order σ1) as [σ3 xs']. cbn in Hx, Hσ. subst xs'.
    destruct IH as [Hlog Hheap]. split; [|intros o; etransitivity; [apply Hheap|apply Hσ]].
    etransitivity; [apply Hlog|]. cbn [A1 a_log]. rewrite fmap_app, <-app_assoc. cbn. by rewrite Hret.
Qed.

Lemma proj_fmap {A B} (f : A → B) i (l : list (nat * A)) :
  proj i (prod_map id f <$> l) = f <$> proj i l.
Proof.
  induction l as [|[j x] l IH]; [done|].
  change (prod_map id f <$> (j, x) :: l) with ((j, f x) :: (prod_map id f <$> l)).
  rewrite !proj_cons. case_decide; cbn; by rewrite IH.
Qed.

(** ** Any threads, any schedule *)

Context (programs : list (list R)) (h0 : nat → V) (c0 : nat → Z).
Hypothesis Hatomic : ∀ i p r, programs !! i = Some p → r ∈ p → is_atomic r = true.
Hypothesis Hc0 : ∀ k, 0 ≤ c0 k < 2 ^ 64.

Lemma programs_ok i p k :
  (calls_of <$> programs) !! i = Some p → k ∈ p → two_phase k = true.
Proof.
  intros (p' & -> & Hp)%list_lookup_fmap_Some (r & -> & Hr)%list_elem_of_fmap.
  by apply method_two_phase, (Hatomic i p').
Qed.

Lemma requests_race_free schedule i j ti tj :
  let s := run schedule (threads_of h0 c0 programs) in
  i ≠ j → threads s !! i = Some ti → threads s !! j = Some tj → races ti tj = false.
Proof. by apply (no_race (calls_of <$> programs) h0 c0 programs_ok Hc0). Qed.

Lemma requests_atomic schedule :
  let s := run schedule (threads_of h0 c0 programs) in
  finished s = true →
  ∃ order, (∀ i, proj i order = default [] (programs !! i)) ∧
    let '(σ, replies) := respond_all order (objects h0 c0) in
    (∀ i t, threads s !! i = Some t → reply <$> log t = proj i replies) ∧
    ∀ o, objects (heap s) (counters s) o = σ o.
Proof.
  intros s Hf.
  destruct (calls_are_atomic (calls_of <$> programs) h0 c0 programs_ok Hc0 schedule Hf)
    as (order & Hproj & Hlog & Hheap & Hcnt).
  destruct (order_of_requests method order (λ i, default [] (programs !! i)))
    as (order' & -> & Hproj').
  { intros i. rewrite Hproj, list_lookup_fmap. by destruct (programs !! i). }
  exists order'. split; [done|].
  pose proof (atomic_run_requests order' (Atomic h0 c0 [])) as Hrun. cbn zeta in Hrun.
  destruct (respond_all order' (objects _ _)) as [σ replies].
  destruct Hrun as [Hreplies Hσ].
  { intros i r Hr. assert (r ∈ proj i order') as Hin.
    { apply list_elem_of_fmap. exists (i, r). split; [done|]. by apply list_elem_of_filter. }
    rewrite Hproj' in Hin. destruct (programs !! i) as [p|] eqn:Hp; [by eapply Hatomic|].
    by apply not_elem_of_nil in Hin. }
  split.
  - intros i t Ht. rewrite (Hlog i t Ht). cbn in Hreplies. rewrite <-Hreplies. symmetry. apply proj_fmap.
  - intros o. rewrite <-Hσ. unfold objects.
    etransitivity; [apply (f_equal (λ v, object v (counters s) o)), Hheap|by apply object_ext].
Qed.

Lemma requests_finish (rank : nat → nat) schedule :
  (∀ i p r, programs !! i = Some p → r ∈ p → ranked rank (method r) = true) →
  ∃ schedule', finished (run (schedule ++ schedule') (threads_of h0 c0 programs)) = true.
Proof.
  intros Hrank. apply (can_finish _ _ _ programs_ok Hc0 rank).
  intros i p k (p' & -> & Hp)%list_lookup_fmap_Some (r & -> & Hr)%list_elem_of_fmap. by eapply Hrank.
Qed.
End Class_.
