(* ===== verification/Bytes.v ===== *)
(** * Byte vectors: length-prefixed writing and bounds-checked reading

    The idioms the binary formats of the program are written in: appending the
    four bytes of a [uint32_t] and a block of bytes, copying a range of a
    vector by iterators, [memcpy] of an integer at an offset, and the test
    [if (offset + n > data.size())] in front of them. *)

From S2P Require Import Prelude.

#[global] Arguments le_bytes : simpl never.
#[global] Arguments le_val : simpl never.

(** [result.insert(end, &n, &n + sizeof n)] of a [uint32_t], and a length-prefixed block. *)
Definition put_u32 (n : Z) : list byte := le_bytes 4 n.
Definition put_block (bs : list byte) : list byte := put_u32 (Z.of_nat (length bs)) ++ bs.

(** [std::vector(data.begin() + a, data.begin() + b)] *)
Definition sub (data : list byte) (a b : Z) : res (list byte) :=
  if (0 <=? a) && (a <=? b) && (b <=? Z.of_nat (length data)) then
    Val (take (Z.to_nat (b - a)) (drop (Z.to_nat a) data))
  else Undef.

(** [if (offset + n > data.size()) return <failure>;] *)
Definition need {A} (data : list byte) (offset n : Z) (k : res (option A)) : res (option A) :=
  if Z.of_nat (length data) <? offset + n then Val None else k.

(** [memcpy(&x, data.data() + offset, n)] of an unsigned integer *)
Definition get_le (data : list byte) (offset n : Z) : res Z :=
  let? bs := sub data offset (offset + n) in Val (le_val bs).

(** ** Bytes at an offset of a byte vector *)

Definition at_bytes (data : list byte) (o : Z) (bs : list byte) : Prop :=
  ∃ pre post, data = pre ++ bs ++ post ∧ o = Z.of_nat (length pre).

Lemma at_bytes_cons data o b bs :
  at_bytes data o (b :: bs) → at_bytes data (o + 1) bs.
Proof.
  intros (pre & post & -> & ->). exists (pre ++ [b]), post.
  rewrite <-app_assoc, length_app. split; [done|simpl; lia].
Qed.

Lemma at_bytes_app data o bs1 bs2 :
  at_bytes data o (bs1 ++ bs2) →
  at_bytes data o bs1 ∧ at_bytes data (o + Z.of_nat (length bs1)) bs2.
Proof.
  intros (pre & post & -> & ->). split.
  - exists pre, (bs2 ++ post). by rewrite <-!app_assoc.
  - exists (pre ++ bs1), post. rewrite <-!app_assoc, length_app. split; [done|lia].
Qed.

Lemma at_bytes_fits data o bs :
  at_bytes data o bs → 0 ≤ o ∧ o + Z.of_nat (length bs) ≤ Z.of_nat (length data).
Proof. intros (pre & post & -> & ->). rewrite !length_app. lia. Qed.

Lemma at_bytes_all bs : at_bytes bs 0 bs.
Proof. exists [], []. by rewrite app_nil_r. Qed.

(** ** Reading what was written *)

Lemma length_put_u32 n : length (put_u32 n) = 4%nat.
Proof. apply length_le_bytes. Qed.

Lemma length_put_block bs : length (put_block bs) = (4 + length bs)%nat.
Proof. unfold put_block. by rewrite length_app, length_put_u32. Qed.

Lemma sub_at data o bs :
  at_bytes data o bs → sub data o (o + Z.of_nat (length bs)) = Val bs.
Proof.
  intros H. pose proof (at_bytes_fits _ _ _ H). unfold sub.
  replace ((0 <=? o) && _ && _) with true by lia.
  destruct H as (pre & post & -> & ->).
  replace (Z.of_nat (length pre) + Z.of_nat (length bs) - Z.of_nat (length pre))
    with (Z.of_nat (length bs)) by lia.
  by rewrite !Nat2Z.id, take_drop_mid.
Qed.

Lemma sub_rest data o bs :
  at_bytes data o bs → ∃ post, sub data o (Z.of_nat (length data)) = Val (bs ++ post).
Proof.
  intros H. pose proof (at_bytes_fits _ _ _ H). unfold sub.
  replace ((0 <=? o) && _ && _) with true by lia.
  destruct H as (pre & post & -> & ->). exists post. rewrite Nat2Z.id, drop_app_length.
  rewrite take_ge; [done|]. rewrite !length_app. lia.
Qed.

Lemma need_fits {A} data o n (k : res (option A)) :
  o + n ≤ Z.of_nat (length data) → need data o n k = k.
Proof.
  intros ?. unfold need. by destruct (Z.ltb_spec (Z.of_nat (length data)) (o + n)); [lia|].
Qed.

Lemma need_at {A} data o n bs (k : res (option A)) :
  at_bytes data o bs → n ≤ Z.of_nat (length bs) → need data o n k = k.
Proof.
  intros H%at_bytes_fits ?. apply need_fits. lia.
Qed.

Lemma get_le_at data o n w z bs :
  w = 8 * n → 0 ≤ n → at_bytes data o (le_bytes (Z.to_nat n) z ++ bs) →
  get_le data o n = Val (wrap w z).
Proof.
  intros -> Hn [H _]%at_bytes_app. unfold get_le.
  pose proof (sub_at _ _ _ H) as E. rewrite length_le_bytes, Z2Nat.id in E by done.
  rewrite E. simpl. by rewrite le_val_bytes, Z2Nat.id by done.
Qed.

Lemma get_u32_at data o z bs :
  0 ≤ z < 2 ^ 32 → at_bytes data o (put_u32 z ++ bs) → get_le data o 4 = Val z.
Proof.
  intros Hz H. rewrite (get_le_at _ _ 4 32 z bs) by done. by rewrite wrap_small.
Qed.

Lemma at_bytes_skip data o n bs1 bs2 :
  n = Z.of_nat (length bs1) → at_bytes data o (bs1 ++ bs2) → at_bytes data (o + n) bs2.
Proof. intros -> H. apply (at_bytes_app _ _ _ _ H). Qed.

Lemma at_bytes_u32 data o z bs : at_bytes data o (put_u32 z ++ bs) → at_bytes data (o + 4) bs.
Proof. apply at_bytes_skip. by rewrite length_put_u32. Qed.

Lemma at_bytes_prefix data o bs1 bs2 :
  at_bytes data o (bs1 ++ bs2) → at_bytes data o bs1.
Proof. intros H. apply (at_bytes_app _ _ _ _ H). Qed.

Lemma at_bytes_start bs rest : at_bytes (bs ++ rest) 0 bs.
Proof. by exists [], rest. Qed.

(** ** Reading arbitrary bytes inside the bounds *)

Lemma sub_in data a b :
  0 ≤ a ≤ b → b ≤ Z.of_nat (length data) →
  ∃ bs, sub data a b = Val bs ∧ Z.of_nat (length bs) = b - a.
Proof.
  intros. unfold sub. replace ((0 <=? a) && _ && _) with true by lia.
  eexists. split; [done|]. rewrite length_take, length_drop. lia.
Qed.

Lemma get_le_in data o n :
  0 ≤ o → 0 ≤ n → o + n ≤ Z.of_nat (length data) →
  ∃ z, get_le data o n = Val z ∧ 0 ≤ z < 2 ^ (8 * n).
Proof.
  intros ???. unfold get_le. destruct (sub_in data o (o + n)) as (bs & -> & Hl); [lia..|].
  simpl. exists (le_val bs). split; [done|].
  pose proof (le_val_range bs) as Hr. by replace (o + n - o) with n in Hl by lia; rewrite Hl in Hr.
Qed.

Lemma need_in {A} data o n (k : res (option A)) (P : option A → Prop) :
  P None → (o + n ≤ Z.of_nat (length data) → ∃ r, k = Val r ∧ P r) →
  ∃ r, need data o n k = Val r ∧ P r.
Proof.
  intros HN Hk. unfold need.
  destruct (Z.ltb_spec (Z.of_nat (length data)) (o + n)); [eauto|]. apply Hk. lia.
Qed.
