(* ===== verification/Float.v ===== *)
(** * IEEE-754 values as bit patterns

    The program moves [float] and [double] values between a byte buffer and a
    variable ([memcpy]), widens a [float] to a [double]
    ([static_cast<double>(float)] in [msgpack_decoder::read_double] and in
    [container_schema::validate_range]) and compares them ([==] of
    [std::variant], [<] of the range check) and prints a [double] with
    [std::to_string] ([to_string_f64], the format [%f]).  A float is modelled by its bit
    pattern, a [Z] in [0, 2^32) or [0, 2^64); these are the operations of the
    language on that representation (binary32 and binary64, as on every
    platform the program is built for). *)

From S2P Require Import Prelude.

(** A binary interchange format: exponent width and trailing significand width. *)
Record fmt : Type := Fmt { ebits : Z; mbits : Z }.

Definition f32 : fmt := Fmt 8 23.
Definition f64 : fmt := Fmt 11 52.

Definition fwidth (f : fmt) : Z := 1 + ebits f + mbits f.
Definition fbias (f : fmt) : Z := 2 ^ (ebits f - 1) - 1.

Definition f_sign (f : fmt) (b : Z) : Z := b / 2 ^ (ebits f + mbits f).
Definition f_mag (f : fmt) (b : Z) : Z := b mod 2 ^ (ebits f + mbits f).
Definition f_exp (f : fmt) (b : Z) : Z := f_mag f b / 2 ^ mbits f.
Definition f_man (f : fmt) (b : Z) : Z := b mod 2 ^ mbits f.

Definition f_make (f : fmt) (s e m : Z) : Z :=
  s * 2 ^ (ebits f + mbits f) + e * 2 ^ mbits f + m.

Definition f_is_nan (f : fmt) (b : Z) : bool :=
  (f_exp f b =? 2 ^ ebits f - 1) && negb (f_man f b =? 0).

(** The order of the non-NaN values is the order of these keys: -0 and +0 share one. *)
Definition f_key (f : fmt) (b : Z) : Z :=
  if f_sign f b =? 0 then f_mag f b else - f_mag f b.

Definition f_eqb (f : fmt) (a b : Z) : bool :=
  negb (f_is_nan f a) && negb (f_is_nan f b) && (f_key f a =? f_key f b).

Definition f_ltb (f : fmt) (a b : Z) : bool :=
  negb (f_is_nan f a) && negb (f_is_nan f b) && (f_key f a <? f_key f b).

(** The finite value as a pair (m, e), meaning m * 2^e. *)
Definition f_value (f : fmt) (b : Z) : Z * Z :=
  let sg := if f_sign f b =? 0 then 1 else -1 in
  if f_exp f b =? 0 then (sg * f_man f b, 1 - fbias f - mbits f)
  else (sg * (2 ^ mbits f + f_man f b), f_exp f b - fbias f - mbits f).

(** [static_cast<double>(float)].  A subnormal float is a normal double; a NaN
    keeps its payload and becomes quiet. *)
Definition f32_to_f64 (b : Z) : Z :=
  let s := f_sign f32 b in
  let e := f_exp f32 b in
  let m := f_man f32 b in
  if e =? 255 then
    f_make f64 s 2047 (if m =? 0 then 0 else Z.lor (m * 2 ^ 29) (2 ^ 51))
  else if e =? 0 then
    if m =? 0 then f_make f64 s 0 0
    else let k := Z.log2 m in f_make f64 s (k + 874) ((m - 2 ^ k) * 2 ^ (52 - k))
  else f_make f64 s (e + 896) (m * 2 ^ 29).

(** [std::to_string(double)], i.e. [printf("%f")]: the exact value with six
    decimals, rounded to nearest with ties to even; the C library's names of
    the special values. *)
Definition round_half_even (num den : Z) : Z :=
  let q := num / den in
  let r := num mod den in
  if (2 * r <? den) || ((2 * r =? den) && Z.even q) then q else q + 1.

Definition pad6 (s : string) : string :=
  String.append (String.concat "" (replicate (6 - String.length s) "0"%string)) s.

(** The magnitude in millionths. *)
Definition millionths (b : Z) : Z :=
  let (m, e) := f_value f64 b in
  round_half_even (Z.abs m * 10 ^ 6 * 2 ^ Z.max 0 e) (2 ^ Z.max 0 (- e)).

Definition to_string_f64 (b : Z) : string :=
  let sign := if f_sign f64 b =? 0 then ""%string else "-"%string in
  let body :=
    if f_exp f64 b =? 2047 then (if f_man f64 b =? 0 then "inf"%string else "nan"%string)
    else
      let n := millionths b in
      String.append (to_string (n / 10 ^ 6))
        (String.append "." (pad6 (to_string (n mod 10 ^ 6)))) in
  String.append sign body.

Example to_string_f64_examples :
  to_string_f64 0x3ff8000000000000 = "1.500000"%string ∧
  to_string_f64 0xc05edd2f1a9fbe77 = "-123.456000"%string ∧
  to_string_f64 0x3eb0c6f7a0b5ed8d = "0.000001"%string ∧
  to_string_f64 0xfff0000000000000 = "-inf"%string.
Proof. by vm_compute. Qed.

#[global] Arguments f_sign : simpl never.
#[global] Arguments f_exp : simpl never.
#[global] Arguments f_man : simpl never.
#[global] Arguments f_make : simpl never.

Section Fields.
  Context (f : fmt) (Hp : 0 < ebits f ∧ 0 < mbits f).

Lemma f_make_fields s e m :
  0 ≤ s → 0 ≤ e < 2 ^ ebits f → 0 ≤ m < 2 ^ mbits f →
  f_sign f (f_make f s e m) = s ∧ f_exp f (f_make f s e m) = e ∧
  f_man f (f_make f s e m) = m.
Proof.
  intros Hs He Hm. unfold f_sign, f_exp, f_mag, f_man, f_make.
  rewrite Z.pow_add_r by lia.
  set (E := 2 ^ ebits f) in *. set (M := 2 ^ mbits f) in *.
  assert (0 < E ∧ 0 < M) as [??] by (split; apply Z.pow_pos_nonneg; lia).
  assert (0 ≤ e * M + m < E * M) by nia.
  rewrite <-Z.add_assoc. split_and!.
  - rewrite Z.add_comm, Z.div_add, Z.div_small by lia. lia.
  - rewrite Z.add_comm, Z.mod_add, Z.mod_small by lia.
    rewrite Z.add_comm, Z.div_add, Z.div_small by lia. lia.
  - replace (s * (E * M) + (e * M + m)) with (m + (s * E + e) * M) by ring.
    rewrite Z.mod_add by lia. by apply Z.mod_small.
Qed.

End Fields.

Lemma f_fields_range f b :
  0 < ebits f → 0 < mbits f → 0 ≤ b < 2 ^ fwidth f →
  0 ≤ f_sign f b ≤ 1 ∧ 0 ≤ f_exp f b < 2 ^ ebits f ∧ 0 ≤ f_man f b < 2 ^ mbits f.
Proof.
  intros ?? Hb. unfold f_sign, f_exp, f_mag, f_man, fwidth in *.
  replace (1 + ebits f + mbits f) with (1 + (ebits f + mbits f)) in Hb by lia.
  rewrite Z.pow_add_r in Hb by lia.
  assert (0 < 2 ^ (ebits f + mbits f)) by (apply Z.pow_pos_nonneg; lia).
  assert (0 < 2 ^ mbits f) by (apply Z.pow_pos_nonneg; lia).
  pose proof (Z.mod_pos_bound b (2 ^ (ebits f + mbits f)) ltac:(lia)) as Hm.
  split_and!; try apply Z.mod_pos_bound; try lia.
  - apply Z.div_pos; lia.
  - apply Z.lt_succ_r, Z.div_lt_upper_bound; lia.
  - apply Z.div_pos; lia.
  - apply Z.div_lt_upper_bound; [lia|]. rewrite Z.pow_add_r in Hm at 3 by lia. lia.
Qed.

(** The dyadic value of an assembled pattern with a non-zero exponent field. *)
Lemma f_value_make_normal f s e m :
  0 < ebits f → 0 < mbits f →
  0 ≤ s ≤ 1 → 0 < e < 2 ^ ebits f → 0 ≤ m < 2 ^ mbits f →
  f_value f (f_make f s e m) =
  ((if s =? 0 then 1 else -1) * (2 ^ mbits f + m), e - fbias f - mbits f).
Proof.
  intros ?? Hs He Hm. unfold f_value.
  destruct (f_make_fields f (conj H H0) s e m) as (-> & -> & ->); [lia..|].
  cbv zeta. destruct (Z.eqb_spec e 0); [lia|]. done.
Qed.

Lemma log2_split m : 0 < m → m < 2 ^ 23 →
  0 ≤ Z.log2 m ≤ 22 ∧ 0 ≤ (m - 2 ^ Z.log2 m) * 2 ^ (52 - Z.log2 m) < 2 ^ 52 ∧
  2 ^ 52 + (m - 2 ^ Z.log2 m) * 2 ^ (52 - Z.log2 m) = m * 2 ^ (52 - Z.log2 m).
Proof.
  intros Hm Hm'. pose proof (Z.log2_spec m Hm) as [Hl Hu].
  pose proof (Z.log2_nonneg m). pose proof (proj1 (Z.log2_lt_pow2 m 23 Hm) Hm').
  rewrite Z.pow_succ_r in Hu by lia.
  assert (2 ^ 52 = 2 ^ Z.log2 m * 2 ^ (52 - Z.log2 m)) as E52
    by (rewrite <-Z.pow_add_r by lia; f_equal; lia).
  assert (0 < 2 ^ (52 - Z.log2 m)) by (apply Z.pow_pos_nonneg; lia).
  split_and!; [lia|lia| | |]; rewrite ?E52; nia.
Qed.

(** Widening a finite float keeps its value (equal dyadic rationals). *)
Lemma f32_to_f64_exact b :
  0 ≤ b < 2 ^ 32 → f_exp f32 b ≠ 255 →
  (f_value f32 b).1 * 2 ^ ((f_value f32 b).2 - (f_value f64 (f32_to_f64 b)).2)
  = (f_value f64 (f32_to_f64 b)).1.
Proof.
  intros Hb He.
  destruct (f_fields_range f32 b ltac:(simpl; lia) ltac:(simpl; lia) Hb) as (Hs & He' & Hm).
  unfold f32_to_f64. cbv zeta. simpl in He', Hm.
  destruct (Z.eqb_spec (f_exp f32 b) 255) as [?|_]; [done|].
  destruct (Z.eqb_spec (f_exp f32 b) 0) as [E0|E0];
    [destruct (Z.eqb_spec (f_man f32 b) 0) as [M0|M0]|].
  - unfold f_value at 1. rewrite E0, M0. simpl Z.eqb. cbv iota.
    unfold f_value. destruct (f_make_fields f64 ltac:(done) (f_sign f32 b) 0 0)
      as (-> & -> & ->); [simpl; lia..|]. simpl. destruct (f_sign f32 b =? 0); done.
  - destruct (log2_split (f_man f32 b)) as (? & ? & Hk); [lia..|].
    rewrite f_value_make_normal by (simpl; lia). unfold f_value.
    rewrite E0. simpl Z.eqb. cbv iota. unfold fbias. cbn [fst snd mbits f32 f64 ebits].
    change (2 ^ (8 - 1) - 1) with 127. change (2 ^ (11 - 1) - 1) with 1023.
    rewrite Hk.
    replace (1 - 127 - 23 - (Z.log2 (f_man f32 b) + 874 - 1023 - 52))
      with (52 - Z.log2 (f_man f32 b)) by lia. ring.
  - rewrite f_value_make_normal by (simpl; lia). unfold f_value.
    destruct (Z.eqb_spec (f_exp f32 b) 0) as [?|_]; [done|].
    unfold fbias. cbn [fst snd mbits f32 f64 ebits].
    change (2 ^ (8 - 1) - 1) with 127. change (2 ^ (11 - 1) - 1) with 1023.
    replace (f_exp f32 b - 127 - 23 - (f_exp f32 b + 896 - 1023 - 52)) with 29 by lia.
    ring.
Qed.
