(* ===== verification/Msgpack.v ===== *)
(** * MessagePack encoder and decoder

    [include/kcenon/container/container/msgpack.h]: the format constants
    (namespace [msgpack_format]), the enumeration [msgpack_type], the class
    [msgpack_encoder] (a byte buffer that only grows) and the class
    [msgpack_decoder] (a byte range and a read position).

    A reader of the decoder is a function from the decoder to [res (A * decoder)].
    A read of [data_[i]] outside the range is [Undef]; [std::nullopt] is [None],
    and the decoder returned with it is the one the early return leaves behind
    (some readers have consumed a header by then).

    [size_t] sums such as [offset_ + len] are exact: a vector holds fewer than
    2^63 bytes and a length read from the wire is below 2^32, so they stay
    below 2^64. *)

From S2P Require Import Prelude Float.

(** ** Format constants *)

Module msgpack_format.
Definition POSITIVE_FIXINT_MAX := 0x7f.
Definition FIXMAP_PREFIX := 0x80.
Definition FIXMAP_MAX_SIZE := 0x0f.
Definition FIXARRAY_PREFIX := 0x90.
Definition FIXARRAY_MAX_SIZE := 0x0f.
Definition FIXSTR_PREFIX := 0xa0.
Definition FIXSTR_MAX_SIZE := 0x1f.
Definition NIL := 0xc0.
Definition FALSE := 0xc2.
Definition TRUE := 0xc3.
Definition BIN8 := 0xc4.
Definition BIN16 := 0xc5.
Definition BIN32 := 0xc6.
Definition FLOAT32 := 0xca.
Definition FLOAT64 := 0xcb.
Definition UINT8 := 0xcc.
Definition UINT16 := 0xcd.
Definition UINT32 := 0xce.
Definition UINT64 := 0xcf.
Definition INT8 := 0xd0.
Definition INT16 := 0xd1.
Definition INT32 := 0xd2.
Definition INT64 := 0xd3.
Definition STR8 := 0xd9.
Definition STR16 := 0xda.
Definition STR32 := 0xdb.
Definition ARRAY16 := 0xdc.
Definition ARRAY32 := 0xdd.
Definition MAP16 := 0xde.
Definition MAP32 := 0xdf.
Definition NEGATIVE_FIXINT_PREFIX := 0xe0.
End msgpack_format.

(** <cstdint> limits. *)
Definition INT8_MIN := - 2 ^ 7.
Definition INT16_MIN := - 2 ^ 15.
Definition INT32_MIN := - 2 ^ 31.
Definition INT32_MAX := 2 ^ 31 - 1.
Definition INT64_MAX := 2 ^ 63 - 1.
Definition UINT8_MAX := 2 ^ 8 - 1.
Definition UINT16_MAX := 2 ^ 16 - 1.
Definition UINT32_MAX := 2 ^ 32 - 1.

Inductive msgpack_type : Type :=
| mt_nil | mt_boolean | mt_positive_int | mt_negative_int | mt_float32 | mt_float64
| mt_str | mt_bin | mt_array | mt_map | mt_unknown.

#[export] Instance msgpack_type_eq_dec : EqDecision msgpack_type.
Proof. solve_decision. Defined.

(** ** Encoder *)

Module msgpack_encoder.
Import msgpack_format.

Record t : Type := Encoder { buffer_ : list byte }.

Definition empty : t := Encoder [].

Definition push_back (z : Z) (e : t) : t := Encoder (buffer_ e ++ [to_u8 z]).
Definition insert_end (bs : list byte) (e : t) : t := Encoder (buffer_ e ++ bs).

Definition write_be16 (value : Z) (e : t) : t :=
  push_back value (push_back (Z.shiftr value 8) e).

Definition write_be32 (value : Z) (e : t) : t :=
  push_back value (push_back (Z.shiftr value 8)
    (push_back (Z.shiftr value 16) (push_back (Z.shiftr value 24) e))).

Definition write_be64 (value : Z) (e : t) : t :=
  push_back value (push_back (Z.shiftr value 8)
    (push_back (Z.shiftr value 16) (push_back (Z.shiftr value 24)
      (push_back (Z.shiftr value 32) (push_back (Z.shiftr value 40)
        (push_back (Z.shiftr value 48) (push_back (Z.shiftr value 56) e))))))).

Definition write_nil (e : t) : t := push_back NIL e.

Definition write_bool (value : bool) (e : t) : t :=
  push_back (if value then TRUE else FALSE) e.

Definition write_uint (value : Z) (e : t) : t :=
  if value <=? POSITIVE_FIXINT_MAX then push_back value e
  else if value <=? UINT8_MAX then push_back value (push_back UINT8 e)
  else if value <=? UINT16_MAX then write_be16 (wrap 16 value) (push_back UINT16 e)
  else if value <=? UINT32_MAX then write_be32 (wrap 32 value) (push_back UINT32 e)
  else write_be64 value (push_back UINT64 e).

Definition write_int (value : Z) (e : t) : t :=
  if 0 <=? value then write_uint (wrap 64 value) e
  else if -32 <=? value then push_back value e
  else if INT8_MIN <=? value then push_back value (push_back INT8 e)
  else if INT16_MIN <=? value then write_be16 (wrap 16 value) (push_back INT16 e)
  else if INT32_MIN <=? value then write_be32 (wrap 32 value) (push_back INT32 e)
  else write_be64 (wrap 64 value) (push_back INT64 e).

(** [float] and [double] arguments are bit patterns. *)
Definition write_float (bits : Z) (e : t) : t :=
  write_be32 bits (push_back FLOAT32 e).

Definition write_double (bits : Z) (e : t) : t :=
  write_be64 bits (push_back FLOAT64 e).

Definition write_string (value : string) (e : t) : t :=
  let len := str_len value in
  let e1 :=
    if len <=? FIXSTR_MAX_SIZE then push_back (Z.lor FIXSTR_PREFIX len) e
    else if len <=? UINT8_MAX then push_back len (push_back STR8 e)
    else if len <=? UINT16_MAX then write_be16 (wrap 16 len) (push_back STR16 e)
    else write_be32 (wrap 32 len) (push_back STR32 e) in
  insert_end (str_bytes value) e1.

Definition write_binary (value : list byte) (e : t) : t :=
  let len := Z.of_nat (length value) in
  let e1 :=
    if len <=? UINT8_MAX then push_back len (push_back BIN8 e)
    else if len <=? UINT16_MAX then write_be16 (wrap 16 len) (push_back BIN16 e)
    else write_be32 (wrap 32 len) (push_back BIN32 e) in
  insert_end value e1.

Definition write_array_header (count : Z) (e : t) : t :=
  if count <=? FIXARRAY_MAX_SIZE then push_back (Z.lor FIXARRAY_PREFIX count) e
  else if count <=? UINT16_MAX then write_be16 (wrap 16 count) (push_back ARRAY16 e)
  else write_be32 (wrap 32 count) (push_back ARRAY32 e).

Definition write_map_header (count : Z) (e : t) : t :=
  if count <=? FIXMAP_MAX_SIZE then push_back (Z.lor FIXMAP_PREFIX count) e
  else if count <=? UINT16_MAX then write_be16 (wrap 16 count) (push_back MAP16 e)
  else write_be32 (wrap 32 count) (push_back MAP32 e).

(** [finish] moves the buffer out and leaves the encoder empty. *)
Definition finish (e : t) : list byte * t := (buffer_ e, empty).

Definition size (e : t) : Z := Z.of_nat (length (buffer_ e)).
End msgpack_encoder.

(** ** Decoder *)

Module msgpack_decoder.
Import msgpack_format.

Record t : Type := Decoder { data_ : list byte; offset_ : Z }.

Definition of_bytes (data : list byte) : t := Decoder data 0.

Definition size_ (d : t) : Z := Z.of_nat (length (data_ d)).
Definition advance (n : Z) (d : t) : t := Decoder (data_ d) (offset_ d + n).

(** [data_[i]] *)
Definition at_index (d : t) (i : Z) : res Z :=
  if 0 <=? i then
    match data_ d !! Z.to_nat i with Some b => Val (u8 b) | None => Undef end
  else Undef.

(** The bytes [data_ + offset_, data_ + offset_ + len). *)
Definition range (d : t) (len : Z) : res (list byte) :=
  if (0 <=? offset_ d) && (offset_ d + len <=? size_ d) then
    Val (take (Z.to_nat len) (drop (Z.to_nat (offset_ d)) (data_ d)))
  else Undef.

Definition reader (A : Type) : Type := t → res (option A * t).

Definition eof (d : t) : bool := size_ d <=? offset_ d.
Definition position (d : t) : Z := offset_ d.
Definition remaining (d : t) : Z := wrap 64 (size_ d - offset_ d).

Definition read_be16 (d : t) : res (Z * t) :=
  let? b0 := at_index d (offset_ d) in
  let? b1 := at_index d (offset_ d + 1) in
  Val (Z.lor (Z.shiftl b0 8) b1, advance 2 d).

Definition read_be32 (d : t) : res (Z * t) :=
  let? b0 := at_index d (offset_ d) in
  let? b1 := at_index d (offset_ d + 1) in
  let? b2 := at_index d (offset_ d + 2) in
  let? b3 := at_index d (offset_ d + 3) in
  Val (Z.lor (Z.lor (Z.lor (Z.shiftl b0 24) (Z.shiftl b1 16)) (Z.shiftl b2 8)) b3,
       advance 4 d).

Definition read_be64 (d : t) : res (Z * t) :=
  let? b0 := at_index d (offset_ d) in
  let? b1 := at_index d (offset_ d + 1) in
  let? b2 := at_index d (offset_ d + 2) in
  let? b3 := at_index d (offset_ d + 3) in
  let? b4 := at_index d (offset_ d + 4) in
  let? b5 := at_index d (offset_ d + 5) in
  let? b6 := at_index d (offset_ d + 6) in
  let? b7 := at_index d (offset_ d + 7) in
  Val (Z.lor (Z.lor (Z.lor (Z.lor (Z.lor (Z.lor (Z.lor
         (Z.shiftl b0 56) (Z.shiftl b1 48)) (Z.shiftl b2 40)) (Z.shiftl b3 32))
         (Z.shiftl b4 24)) (Z.shiftl b5 16)) (Z.shiftl b6 8)) b7,
       advance 8 d).

(** [data_[offset_++]] *)
Definition read_byte (d : t) : res (Z * t) :=
  let? b := at_index d (offset_ d) in Val (b, advance 1 d).

Definition type_of_byte (byte : Z) : msgpack_type :=
  if byte <=? POSITIVE_FIXINT_MAX then mt_positive_int
  else if Z.land byte 0xf0 =? FIXMAP_PREFIX then mt_map
  else if Z.land byte 0xf0 =? FIXARRAY_PREFIX then mt_array
  else if Z.land byte 0xe0 =? FIXSTR_PREFIX then mt_str
  else if NEGATIVE_FIXINT_PREFIX <=? byte then mt_negative_int
  else if byte =? NIL then mt_nil
  else if (byte =? FALSE) || (byte =? TRUE) then mt_boolean
  else if (byte =? BIN8) || (byte =? BIN16) || (byte =? BIN32) then mt_bin
  else if byte =? FLOAT32 then mt_float32
  else if byte =? FLOAT64 then mt_float64
  else if (byte =? UINT8) || (byte =? UINT16) || (byte =? UINT32) || (byte =? UINT64)
  then mt_positive_int
  else if (byte =? INT8) || (byte =? INT16) || (byte =? INT32) || (byte =? INT64)
  then mt_negative_int
  else if (byte =? STR8) || (byte =? STR16) || (byte =? STR32) then mt_str
  else if (byte =? ARRAY16) || (byte =? ARRAY32) then mt_array
  else if (byte =? MAP16) || (byte =? MAP32) then mt_map
  else mt_unknown.

Definition peek_type (d : t) : res msgpack_type :=
  if size_ d <=? offset_ d then Val mt_unknown
  else let? byte := at_index d (offset_ d) in Val (type_of_byte byte).

(** [read_nil] returns its success as a [bool]. *)
Definition read_nil (d : t) : res (bool * t) :=
  if size_ d <=? offset_ d then Val (false, d)
  else
    let? byte := at_index d (offset_ d) in
    if negb (byte =? NIL) then Val (false, d) else Val (true, advance 1 d).

Definition read_bool : reader bool := λ d,
  if size_ d <=? offset_ d then Val (None, d)
  else
    let? byte := at_index d (offset_ d) in
    if byte =? TRUE then Val (Some true, advance 1 d)
    else if byte =? FALSE then Val (Some false, advance 1 d)
    else Val (None, d).

(** [if (offset_ + n > size_) return std::nullopt;] *)
Definition guard {A} (d : t) (n : Z) (k : res (option A * t)) : res (option A * t) :=
  if size_ d <? offset_ d + n then Val (None, d) else k.

Definition read_int : reader Z := λ d,
  if size_ d <=? offset_ d then Val (None, d)
  else
    let? byte := at_index d (offset_ d) in
    if byte <=? POSITIVE_FIXINT_MAX then Val (Some byte, advance 1 d)
    else if NEGATIVE_FIXINT_PREFIX <=? byte then Val (Some (swrap 8 byte), advance 1 d)
    else if byte =? INT8 then
      guard d 2 (let? (v, d') := read_byte (advance 1 d) in Val (Some (swrap 8 v), d'))
    else if byte =? INT16 then
      guard d 3 (let? (v, d') := read_be16 (advance 1 d) in Val (Some (swrap 16 v), d'))
    else if byte =? INT32 then
      guard d 5 (let? (v, d') := read_be32 (advance 1 d) in Val (Some (swrap 32 v), d'))
    else if byte =? INT64 then
      guard d 9 (let? (v, d') := read_be64 (advance 1 d) in Val (Some (swrap 64 v), d'))
    else if byte =? UINT8 then
      guard d 2 (let? (v, d') := read_byte (advance 1 d) in Val (Some v, d'))
    else if byte =? UINT16 then
      guard d 3 (let? (v, d') := read_be16 (advance 1 d) in Val (Some v, d'))
    else if byte =? UINT32 then
      guard d 5 (let? (v, d') := read_be32 (advance 1 d) in Val (Some v, d'))
    else if byte =? UINT64 then
      guard d 9 (let? (v, d') := read_be64 (advance 1 d) in
        if INT64_MAX <? v then Val (None, d') else Val (Some (swrap 64 v), d'))
    else Val (None, d).

Definition read_uint : reader Z := λ d,
  if size_ d <=? offset_ d then Val (None, d)
  else
    let? byte := at_index d (offset_ d) in
    if byte <=? POSITIVE_FIXINT_MAX then Val (Some byte, advance 1 d)
    else if byte =? UINT8 then
      guard d 2 (let? (v, d') := read_byte (advance 1 d) in Val (Some v, d'))
    else if byte =? UINT16 then
      guard d 3 (let? (v, d') := read_be16 (advance 1 d) in Val (Some v, d'))
    else if byte =? UINT32 then
      guard d 5 (let? (v, d') := read_be32 (advance 1 d) in Val (Some v, d'))
    else if byte =? UINT64 then
      guard d 9 (let? (v, d') := read_be64 (advance 1 d) in Val (Some v, d'))
    else Val (None, d).

Definition read_float : reader Z := λ d,
  if size_ d <=? offset_ d then Val (None, d)
  else
    let? byte := at_index d (offset_ d) in
    if negb (byte =? FLOAT32) then Val (None, d)
    else guard d 5 (let? (v, d') := read_be32 (advance 1 d) in Val (Some v, d')).

Definition read_double : reader Z := λ d,
  if size_ d <=? offset_ d then Val (None, d)
  else
    let? byte := at_index d (offset_ d) in
    if byte =? FLOAT32 then
      let? (f, d') := read_float d in
      match f with
      | Some f => Val (Some (f32_to_f64 f), d')
      | None => Val (None, d')
      end
    else if negb (byte =? FLOAT64) then Val (None, d)
    else guard d 9 (let? (v, d') := read_be64 (advance 1 d) in Val (Some v, d')).

(** The common tail of [read_string] and [read_binary]: the payload of [len] bytes. *)
Definition read_payload (len : Z) : reader (list byte) := λ d,
  guard d len (let? bs := range d len in Val (Some bs, advance len d)).

Definition read_string : reader string := λ d,
  if size_ d <=? offset_ d then Val (None, d)
  else
    let? byte := at_index d (offset_ d) in
    let tail len d' :=
      let? (r, d'') := read_payload len d' in Val (bytes_str <$> r, d'') in
    if Z.land byte 0xe0 =? FIXSTR_PREFIX then tail (Z.land byte 0x1f) (advance 1 d)
    else if byte =? STR8 then
      guard d 2 (let? (len, d') := read_byte (advance 1 d) in tail len d')
    else if byte =? STR16 then
      guard d 3 (let? (len, d') := read_be16 (advance 1 d) in tail len d')
    else if byte =? STR32 then
      guard d 5 (let? (len, d') := read_be32 (advance 1 d) in tail len d')
    else Val (None, d).

Definition read_binary : reader (list byte) := λ d,
  if size_ d <=? offset_ d then Val (None, d)
  else
    let? byte := at_index d (offset_ d) in
    if byte =? BIN8 then
      guard d 2 (let? (len, d') := read_byte (advance 1 d) in read_payload len d')
    else if byte =? BIN16 then
      guard d 3 (let? (len, d') := read_be16 (advance 1 d) in read_payload len d')
    else if byte =? BIN32 then
      guard d 5 (let? (len, d') := read_be32 (advance 1 d) in read_payload len d')
    else Val (None, d).

Definition read_array_header : reader Z := λ d,
  if size_ d <=? offset_ d then Val (None, d)
  else
    let? byte := at_index d (offset_ d) in
    if Z.land byte 0xf0 =? FIXARRAY_PREFIX then
      Val (Some (Z.land byte 0x0f), advance 1 d)
    else if byte =? ARRAY16 then
      guard d 3 (let? (v, d') := read_be16 (advance 1 d) in Val (Some v, d'))
    else if byte =? ARRAY32 then
      guard d 5 (let? (v, d') := read_be32 (advance 1 d) in Val (Some v, d'))
    else Val (None, d).

Definition read_map_header : reader Z := λ d,
  if size_ d <=? offset_ d then Val (None, d)
  else
    let? byte := at_index d (offset_ d) in
    if Z.land byte 0xf0 =? FIXMAP_PREFIX then
      Val (Some (Z.land byte 0x0f), advance 1 d)
    else if byte =? MAP16 then
      guard d 3 (let? (v, d') := read_be16 (advance 1 d) in Val (Some v, d'))
    else if byte =? MAP32 then
      guard d 5 (let? (v, d') := read_be32 (advance 1 d) in Val (Some v, d'))
    else Val (None, d).
End msgpack_decoder.
