(* ===== verification/MsgpackFacts.v ===== *)
(** * MessagePack: what the encoder and the decoder guarantee

    A token is one item of a MessagePack stream as [msgpack_encoder] writes it.
    The theorems: a stream of tokens is read back exactly ([tokens_roundtrip]);
    no reader of the decoder leaves the byte range, whatever the bytes are
    ([readers_in_bounds]); [peek_type] announces which reader can succeed
    ([peek_type_announces]); the integer encoding has the length the format
    prescribes ([write_int_length]); and [read_int] refuses exactly the unsigned
    64-bit values above [INT64_MAX] ([read_int_of_write_uint]). *)

From S2P Require Import Prelude Bytes Float Msgpack.
Import msgpack_format.

(** ** Bit arithmetic of the big-endian fields *)

Lemma lor_add k a b :
  0 ≤ k → a mod 2 ^ k = 0 → 0 ≤ b < 2 ^ k → Z.lor a b = a + b.
Proof.
  intros Hk Ha Hb.
  assert (Z.land a b = 0) as L; [|by rewrite Z.add_nocarry_lxor, Z.lxor_lor].
  apply Z.bits_inj'. intros n Hn. rewrite Z.land_spec, Z.bits_0.
  destruct (decide (n < k)).
  - rewrite <-(Z.mod_pow2_bits_low a k n) by lia. by rewrite Ha, Z.bits_0.
  - rewrite <-(Z.mod_small b (2 ^ k)) by lia.
    rewrite Z.mod_pow2_bits_high by lia. apply andb_false_r.
Qed.

Lemma shiftr_byte v k : 0 ≤ k → 0 ≤ v →
  u8 (to_u8 (Z.shiftr v k)) = Z.shiftr v k - 256 * Z.shiftr v (k + 8).
Proof.
  intros. rewrite u8_to_u8. unfold wrap.
  rewrite <-Z.shiftr_shiftr by lia.
  rewrite (Z.shiftr_div_pow2 (Z.shiftr v k)) by lia. change (2 ^ 8) with 256.
  by rewrite Z.mod_eq by lia.
Qed.

Lemma shiftr_out v k : 0 ≤ k → 0 ≤ v < 2 ^ k → Z.shiftr v k = 0.
Proof. intros. rewrite Z.shiftr_div_pow2 by lia. apply Z.div_small. lia. Qed.

Lemma mul_pow_mult a k j : 0 ≤ j ≤ k → (a * 2 ^ k) mod 2 ^ j = 0.
Proof.
  intros. replace k with ((k - j) + j) by lia.
  rewrite Z.pow_add_r, Z.mul_assoc by lia. apply Z.mod_mul, Z.pow_nonzero; lia.
Qed.

Lemma add_mult a b k : a mod 2 ^ k = 0 → b mod 2 ^ k = 0 → (a + b) mod 2 ^ k = 0.
Proof. intros Ha Hb. by rewrite Zplus_mod, Ha, Hb, Zmod_0_l. Qed.

Lemma lor_shift_step acc b k :
  0 ≤ k → acc mod 2 ^ (k + 8) = 0 →
  Z.lor acc (Z.shiftl (u8 b) k) = acc + u8 b * 2 ^ k.
Proof.
  intros Hk Ha. pose proof (u8_range b).
  assert (0 < 2 ^ k) by (apply Z.pow_pos_nonneg; lia).
  rewrite Z.shiftl_mul_pow2 by lia.
  apply (lor_add (k + 8)); [lia|done|].
  rewrite Z.pow_add_r by lia. change (2 ^ 8) with 256. nia.
Qed.

Lemma lor_byte acc b : acc mod 2 ^ 8 = 0 → Z.lor acc (u8 b) = acc + u8 b.
Proof. intros. apply (lor_add 8); [lia|done|apply u8_range]. Qed.

(** Turns a chain of [lor]s of shifted bytes into a sum of multiples. *)
Ltac be_sum :=
  match goal with
  | |- context [Z.lor ?a (Z.shiftl (u8 ?b) ?k)] =>
      rewrite (lor_shift_step a b k);
      [|lia|repeat apply add_mult; apply mul_pow_mult; lia]; be_sum
  | |- context [Z.lor ?a (u8 ?b)] =>
      rewrite (lor_byte a b);
      [|repeat apply add_mult; apply mul_pow_mult; lia]; be_sum
  | _ => idtac
  end.

Ltac norm_shifts :=
  repeat match goal with
  | |- context [Z.shiftr ?v (?a + ?b)] =>
      let c := eval vm_compute in (a + b) in change (a + b) with c
  end.

Lemma be16_split v : 0 ≤ v < 2 ^ 16 →
  Z.lor (Z.shiftl (u8 (to_u8 (Z.shiftr v 8))) 8) (u8 (to_u8 v)) = v.
Proof.
  intros Hv. rewrite (Z.shiftl_mul_pow2 (u8 (to_u8 (Z.shiftr v 8)))) by lia.
  be_sum. rewrite <-(Z.shiftr_0_r v) at 2. rewrite !shiftr_byte by lia.
  rewrite (shiftr_out v (8 + 8)) by lia. norm_shifts. rewrite Z.shiftr_0_r. lia.
Qed.

Lemma be32_split v : 0 ≤ v < 2 ^ 32 →
  Z.lor (Z.lor (Z.lor (Z.shiftl (u8 (to_u8 (Z.shiftr v 24))) 24)
    (Z.shiftl (u8 (to_u8 (Z.shiftr v 16))) 16))
    (Z.shiftl (u8 (to_u8 (Z.shiftr v 8))) 8)) (u8 (to_u8 v)) = v.
Proof.
  intros Hv. rewrite (Z.shiftl_mul_pow2 (u8 (to_u8 (Z.shiftr v 24)))) by lia.
  be_sum. rewrite <-(Z.shiftr_0_r v) at 4. rewrite !shiftr_byte by lia.
  rewrite (shiftr_out v (24 + 8)) by lia. norm_shifts. rewrite Z.shiftr_0_r. lia.
Qed.

Lemma be64_split v : 0 ≤ v < 2 ^ 64 →
  Z.lor (Z.lor (Z.lor (Z.lor (Z.lor (Z.lor (Z.lor
    (Z.shiftl (u8 (to_u8 (Z.shiftr v 56))) 56)
    (Z.shiftl (u8 (to_u8 (Z.shiftr v 48))) 48))
    (Z.shiftl (u8 (to_u8 (Z.shiftr v 40))) 40))
    (Z.shiftl (u8 (to_u8 (Z.shiftr v 32))) 32))
    (Z.shiftl (u8 (to_u8 (Z.shiftr v 24))) 24))
    (Z.shiftl (u8 (to_u8 (Z.shiftr v 16))) 16))
    (Z.shiftl (u8 (to_u8 (Z.shiftr v 8))) 8)) (u8 (to_u8 v)) = v.
Proof.
  intros Hv. rewrite (Z.shiftl_mul_pow2 (u8 (to_u8 (Z.shiftr v 56)))) by lia.
  be_sum. rewrite <-(Z.shiftr_0_r v) at 8. rewrite !shiftr_byte by lia.
  rewrite (shiftr_out v (56 + 8)) by lia. norm_shifts. rewrite Z.shiftr_0_r. lia.
Qed.

Section Reading.
Import msgpack_decoder.

Lemma at_index_bytes d o b bs :
  at_bytes (data_ d) o (b :: bs) → at_index d o = Val (u8 b).
Proof.
  intros (pre & post & E & ->). unfold at_index. rewrite E.
  destruct (Z.leb_spec 0 (Z.of_nat (length pre))); [|lia].
  rewrite Nat2Z.id. cbn [app]. by rewrite lookup_mid.
Qed.

Lemma range_bytes d bs :
  at_bytes (data_ d) (offset_ d) bs → range d (Z.of_nat (length bs)) = Val bs.
Proof.
  intros H. pose proof (at_bytes_fits _ _ _ H). unfold range, size_.
  replace ((0 <=? offset_ d) && _) with true by lia.
  destruct H as (pre & post & -> & ->).
  by rewrite !Nat2Z.id, take_drop_mid.
Qed.

Definition be16_bytes (v : Z) : list byte := [to_u8 (Z.shiftr v 8); to_u8 v].
Definition be32_bytes (v : Z) : list byte :=
  [to_u8 (Z.shiftr v 24); to_u8 (Z.shiftr v 16); to_u8 (Z.shiftr v 8); to_u8 v].
Definition be64_bytes (v : Z) : list byte :=
  [to_u8 (Z.shiftr v 56); to_u8 (Z.shiftr v 48); to_u8 (Z.shiftr v 40);
   to_u8 (Z.shiftr v 32); to_u8 (Z.shiftr v 24); to_u8 (Z.shiftr v 16);
   to_u8 (Z.shiftr v 8); to_u8 v].

(** Replaces each indexed read by the byte the hypothesis puts there. *)
Ltac read_indices H :=
  lazymatch type of H with
  | at_bytes _ ?o (?b :: _) =>
      rewrite (at_index_bytes _ o b _ H); simpl res_bind;
      let H' := fresh in
      pose proof (at_bytes_cons _ _ _ _ H) as H'; rewrite <-?Z.add_assoc in H';
      lazymatch type of H' with
      | at_bytes _ (_ + (?x + ?y)) _ =>
          let c := eval vm_compute in (x + y) in change (x + y) with c in H'
      | _ => idtac
      end;
      clear H; rename H' into H;
      read_indices H
  | _ => idtac
  end.

Lemma read_be16_bytes d v :
  0 ≤ v < 2 ^ 16 → at_bytes (data_ d) (offset_ d) (be16_bytes v) →
  read_be16 d = Val (v, advance 2 d).
Proof.
  intros Hv H. unfold read_be16, be16_bytes in *. read_indices H.
  by rewrite be16_split.
Qed.

Lemma read_be32_bytes d v :
  0 ≤ v < 2 ^ 32 → at_bytes (data_ d) (offset_ d) (be32_bytes v) →
  read_be32 d = Val (v, advance 4 d).
Proof.
  intros Hv H. unfold read_be32, be32_bytes in *. read_indices H.
  by rewrite be32_split.
Qed.

Lemma read_be64_bytes d v :
  0 ≤ v < 2 ^ 64 → at_bytes (data_ d) (offset_ d) (be64_bytes v) →
  read_be64 d = Val (v, advance 8 d).
Proof.
  intros Hv H. unfold read_be64, be64_bytes in *. read_indices H.
  by rewrite be64_split.
Qed.

Lemma read_byte_bytes d v :
  0 ≤ v < 2 ^ 8 → at_bytes (data_ d) (offset_ d) [to_u8 v] →
  read_byte d = Val (v, advance 1 d).
Proof.
  intros Hv H. unfold read_byte. read_indices H.
  by rewrite u8_to_u8_small.
Qed.
End Reading.

(** ** Tokens *)

Inductive token : Type :=
| Tnil | Tbool (b : bool) | Tint (z : Z) | Tuint (z : Z)
| Tfloat (bits : Z) | Tdouble (bits : Z)
| Tstr (s : string) | Tbin (bs : list byte) | Tarray (n : Z) | Tmap (n : Z).

Definition token_ok (t : token) : bool :=
  match t with
  | Tnil | Tbool _ => true
  | Tint z => s_ok 64 z
  | Tuint z | Tdouble z => u_ok 64 z
  | Tfloat z | Tarray z | Tmap z => u_ok 32 z
  | Tstr s => str_len s <? 2 ^ 32
  | Tbin bs => Z.of_nat (length bs) <? 2 ^ 32
  end.

Definition write_token (t : token) : msgpack_encoder.t → msgpack_encoder.t :=
  match t with
  | Tnil => msgpack_encoder.write_nil
  | Tbool b => msgpack_encoder.write_bool b
  | Tint z => msgpack_encoder.write_int z
  | Tuint z => msgpack_encoder.write_uint z
  | Tfloat z => msgpack_encoder.write_float z
  | Tdouble z => msgpack_encoder.write_double z
  | Tstr s => msgpack_encoder.write_string s
  | Tbin bs => msgpack_encoder.write_binary bs
  | Tarray n => msgpack_encoder.write_array_header n
  | Tmap n => msgpack_encoder.write_map_header n
  end.

Definition write_tokens (ts : list token) : msgpack_encoder.t :=
  fold_left (λ e t, write_token t e) ts msgpack_encoder.empty.

(** The reader a consumer that expects [t] calls. *)
Definition read_token (t : token) : msgpack_decoder.reader token := λ d,
  let opt {A} (c : A → token) (r : res (option A * msgpack_decoder.t)) :=
    let? (o, d') := r in Val (c <$> o, d') in
  match t with
  | Tnil => let? (ok, d') := msgpack_decoder.read_nil d in
            Val (if ok : bool then Some Tnil else None, d')
  | Tbool _ => opt Tbool (msgpack_decoder.read_bool d)
  | Tint _ => opt Tint (msgpack_decoder.read_int d)
  | Tuint _ => opt Tuint (msgpack_decoder.read_uint d)
  | Tfloat _ => opt Tfloat (msgpack_decoder.read_float d)
  | Tdouble _ => opt Tdouble (msgpack_decoder.read_double d)
  | Tstr _ => opt Tstr (msgpack_decoder.read_string d)
  | Tbin _ => opt Tbin (msgpack_decoder.read_binary d)
  | Tarray _ => opt Tarray (msgpack_decoder.read_array_header d)
  | Tmap _ => opt Tmap (msgpack_decoder.read_map_header d)
  end.

(** Reads one token per expected one; [None] as soon as a reader refuses. *)
Fixpoint read_tokens (ts : list token) (d : msgpack_decoder.t)
    : res (option (list token) * msgpack_decoder.t) :=
  match ts with
  | [] => Val (Some [], d)
  | t :: ts =>
      let? (o, d1) := read_token t d in
      match o with
      | None => Val (None, d1)
      | Some x =>
          let? (os, d2) := read_tokens ts d1 in
          Val (cons x <$> os, d2)
      end
  end.

Definition tok_bytes (t : token) : list byte :=
  msgpack_encoder.buffer_ (write_token t msgpack_encoder.empty).

(** *** The encoder only appends *)

Ltac unfold_writes :=
  unfold msgpack_encoder.write_nil, msgpack_encoder.write_bool,
    msgpack_encoder.write_int, msgpack_encoder.write_uint, msgpack_encoder.write_float,
    msgpack_encoder.write_double, msgpack_encoder.write_string,
    msgpack_encoder.write_binary, msgpack_encoder.write_array_header,
    msgpack_encoder.write_map_header, msgpack_encoder.write_be16,
    msgpack_encoder.write_be32, msgpack_encoder.write_be64,
    msgpack_encoder.push_back, msgpack_encoder.insert_end in *.

Lemma write_token_app t e :
  msgpack_encoder.buffer_ (write_token t e) =
  msgpack_encoder.buffer_ e ++ tok_bytes t.
Proof.
  unfold tok_bytes. destruct t; simpl; unfold_writes; simpl;
    repeat case_match; simpl; by rewrite <-?app_assoc.
Qed.

Lemma write_tokens_app ts e :
  msgpack_encoder.buffer_ (fold_left (λ e t, write_token t e) ts e) =
  msgpack_encoder.buffer_ e ++ concat (tok_bytes <$> ts).
Proof.
  revert e. induction ts as [|t ts IH]; intros e; simpl.
  - by rewrite app_nil_r.
  - by rewrite IH, write_token_app, app_assoc.
Qed.

Lemma write_tokens_bytes ts :
  msgpack_encoder.buffer_ (write_tokens ts) = concat (tok_bytes <$> ts).
Proof. unfold write_tokens. by rewrite write_tokens_app. Qed.

(** *** One token is read back *)

Section TokenRead.
Import msgpack_decoder.

Lemma read_first {A} d b bs (dflt : res A) (f : Z → res A) :
  at_bytes (data_ d) (offset_ d) (b :: bs) →
  (if size_ d <=? offset_ d then dflt else res_bind f (at_index d (offset_ d))) = f (u8 b).
Proof.
  intros H. pose proof (at_bytes_fits _ _ _ H) as [_ Hf]. unfold size_.
  simpl in Hf. destruct (Z.leb_spec (Z.of_nat (length (data_ d))) (offset_ d)); [lia|].
  by rewrite (at_index_bytes _ _ _ _ H).
Qed.

Lemma guard_fits {A} d n bs (k : res (option A * t)) :
  at_bytes (data_ d) (offset_ d) bs → n ≤ Z.of_nat (length bs) → guard d n k = k.
Proof.
  intros H Hn. pose proof (at_bytes_fits _ _ _ H) as [_ Hf]. unfold guard, size_.
  by destruct (Z.ltb_spec (Z.of_nat (length (data_ d))) (offset_ d + n)); [lia|].
Qed.

Lemma advance_advance m n d : advance n (advance m d) = advance (m + n) d.
Proof. unfold advance. simpl. f_equal. lia. Qed.

Lemma read_payload_bytes d bs :
  at_bytes (data_ d) (offset_ d) bs →
  read_payload (Z.of_nat (length bs)) d = Val (Some bs, advance (Z.of_nat (length bs)) d).
Proof.
  intros H. unfold read_payload. rewrite (guard_fits _ _ bs) by (done || lia).
  by rewrite range_bytes.
Qed.
End TokenRead.

(** Evaluates the comparisons of a marker byte with the format constants. *)
Ltac eval_marker :=
  repeat match goal with
  | |- context [u8 (to_u8 ?m)] =>
      let m' := eval vm_compute in m in
      is_closed_Z m'; let c := eval vm_compute in (u8 (to_u8 m)) in
      change (u8 (to_u8 m)) with c
  end
with is_closed_Z z := match z with Z0 => idtac | Zpos _ => idtac | Zneg _ => idtac end.

(** The byte of a value below 256. *)
Lemma u8_small v : 0 ≤ v ≤ 255 → u8 (to_u8 v) = v.
Proof. intros. apply u8_to_u8_small. lia. Qed.

Lemma fix_prefix_byte p k w v :
  0 ≤ k ≤ 8 → p mod 2 ^ k = 0 → 0 ≤ p → p + 2 ^ k ≤ 256 → 0 ≤ v < 2 ^ k → w = p →
  u8 (to_u8 (Z.lor w v)) = p + v.
Proof. intros ????? ->. rewrite (lor_add k) by lia. apply u8_to_u8_small. lia. Qed.

Lemma land_high p v k m :
  0 ≤ k → p mod 2 ^ k = 0 → 0 ≤ p → 0 ≤ v < 2 ^ k → Z.land p m = p → m mod 2 ^ k = 0 →
  Z.land (p + v) m = p.
Proof.
  intros Hk Hp Hp0 Hv Hm Hmk. rewrite <-(lor_add k) by done.
  rewrite Z.land_lor_distr_l, Hm.
  assert (Z.land v m = 0) as ->; [|apply Z.lor_0_r].
  apply Z.bits_inj'. intros n Hn. rewrite Z.land_spec, Z.bits_0.
  destruct (decide (n < k)).
  - rewrite <-(Z.mod_pow2_bits_low m k n), Hmk, Z.bits_0 by lia. apply andb_false_r.
  - rewrite <-(Z.mod_small v (2 ^ k)), Z.mod_pow2_bits_high by lia. done.
Qed.

Lemma land_low p v k :
  0 ≤ k → p mod 2 ^ k = 0 → 0 ≤ v < 2 ^ k → Z.land (p + v) (Z.ones k) = v.
Proof.
  intros Hk Hp Hv. rewrite Z.land_ones by lia.
  rewrite Zplus_mod, Hp, Z.add_0_l, Z.mod_mod by (apply Z.pow_nonzero; lia).
  by apply Z.mod_small.
Qed.

Section TokenRoundtrip.
Import msgpack_decoder.

Implicit Types d : t.

(** What "the token's bytes are at the read position" gives for a reader. *)
Definition reads_back {A} (rd : reader A) (bs : list byte) (v : A) : Prop :=
  ∀ d, at_bytes (data_ d) (offset_ d) bs →
    rd d = Val (Some v, advance (Z.of_nat (length bs)) d).

(** Closes [advance]/[length] bookkeeping after the last read. *)
Ltac finish_read := rewrite ?advance_advance; repeat f_equal; simpl length; lia.

(** Reads the marker byte in [H] and evaluates the reader's dispatch on it. *)
Ltac take_marker H :=
  rewrite (read_first _ _ _ _ _ H); eval_marker; cbv beta; simpl Z.eqb; simpl Z.leb;
  cbv iota; simpl negb; cbv iota; simpl orb; cbv iota.

Ltac tail_of H := apply at_bytes_cons in H.

(** A marker followed by a fixed-size field: [lem] reads the field. *)
Ltac sized_field H lem :=
  take_marker H; rewrite (guard_fits _ _ _ _ H) by (simpl; lia); tail_of H;
  rewrite lem by (done || lia || (apply wrap_range; lia)); simpl.

Lemma read_uint_back v : u_ok 64 v = true → reads_back read_uint (tok_bytes (Tuint v)) v.
Proof.
  intros Hv%u_ok_spec d. unfold tok_bytes, write_token. unfold_writes.
  unfold POSITIVE_FIXINT_MAX, UINT8_MAX, UINT16_MAX, UINT32_MAX.
  unfold read_uint. simpl app.
  destruct (Z.leb_spec v 0x7f); [|destruct (Z.leb_spec v (2 ^ 8 - 1));
    [|destruct (Z.leb_spec v (2 ^ 16 - 1)); [|destruct (Z.leb_spec v (2 ^ 32 - 1))]]];
    intros Hat.
  - rewrite (read_first _ _ _ _ _ Hat). rewrite u8_small by lia.
    unfold POSITIVE_FIXINT_MAX. destruct (Z.leb_spec v 0x7f); [|lia]. finish_read.
  - sized_field Hat (read_byte_bytes (advance 1 d) v). finish_read.
  - sized_field Hat (read_be16_bytes (advance 1 d) (wrap 16 v)). rewrite wrap_small by lia. finish_read.
  - sized_field Hat (read_be32_bytes (advance 1 d) (wrap 32 v)). rewrite wrap_small by lia. finish_read.
  - sized_field Hat (read_be64_bytes (advance 1 d) v).
    finish_read.
Qed.

(** A non-negative [int64_t] is written as the same [uint64_t]; [read_int] accepts
    every unsigned marker and refuses a value above [INT64_MAX]. *)
Lemma read_int_of_uint v :
  u_ok 64 v = true → ∀ d, at_bytes (data_ d) (offset_ d) (tok_bytes (Tuint v)) →
  read_int d = Val (if INT64_MAX <? v then None else Some v,
                    advance (Z.of_nat (length (tok_bytes (Tuint v)))) d).
Proof.
  intros Hv%u_ok_spec d. unfold tok_bytes, write_token. unfold_writes.
  unfold POSITIVE_FIXINT_MAX, UINT8_MAX, UINT16_MAX, UINT32_MAX, INT64_MAX.
  unfold read_int. simpl app.
  destruct (Z.leb_spec v 0x7f); [|destruct (Z.leb_spec v (2 ^ 8 - 1));
    [|destruct (Z.leb_spec v (2 ^ 16 - 1)); [|destruct (Z.leb_spec v (2 ^ 32 - 1))]]];
    intros Hat.
  - rewrite (read_first _ _ _ _ _ Hat). rewrite u8_small by lia.
    unfold POSITIVE_FIXINT_MAX. destruct (Z.leb_spec v 0x7f); [|lia].
    destruct (Z.ltb_spec (2 ^ 63 - 1) v); [lia|]. finish_read.
  - sized_field Hat (read_byte_bytes (advance 1 d) v).
    destruct (Z.ltb_spec (2 ^ 63 - 1) v); [lia|]. finish_read.
  - sized_field Hat (read_be16_bytes (advance 1 d) (wrap 16 v)).
    destruct (Z.ltb_spec (2 ^ 63 - 1) v); [lia|]. rewrite wrap_small by lia. finish_read.
  - sized_field Hat (read_be32_bytes (advance 1 d) (wrap 32 v)).
    destruct (Z.ltb_spec (2 ^ 63 - 1) v); [lia|]. rewrite wrap_small by lia. finish_read.
  - sized_field Hat (read_be64_bytes (advance 1 d) v). unfold INT64_MAX.
    destruct (Z.ltb_spec (2 ^ 63 - 1) v); [|rewrite swrap_small by lia]; finish_read.
Qed.

(** The signed formats: the payload is the value modulo 2^w, read back signed. *)
Lemma swrap_of_wrap w v : 0 < w → - 2 ^ (w - 1) ≤ v < 2 ^ (w - 1) → swrap w (wrap w v) = v.
Proof. intros. rewrite swrap_wrap by done. by apply swrap_small. Qed.

Lemma to_u8_wrap v : to_u8 (wrap 8 v) = to_u8 v.
Proof. unfold to_u8. by rewrite wrap_wrap by lia. Qed.

Lemma read_int_back v : s_ok 64 v = true → reads_back read_int (tok_bytes (Tint v)) v.
Proof.
  intros Hv%s_ok_spec d. destruct (decide (0 ≤ v)) as [Hp|Hn].
  { assert (tok_bytes (Tint v) = tok_bytes (Tuint v)) as ->.
    { unfold tok_bytes, write_token, msgpack_encoder.write_int.
      destruct (Z.leb_spec 0 v); [|lia]. by rewrite wrap_small by lia. }
    intros Hat. rewrite (read_int_of_uint v) by (try apply u_ok_spec; done || lia).
    unfold INT64_MAX. by destruct (Z.ltb_spec (2 ^ 63 - 1) v); [lia|]. }
  unfold tok_bytes, write_token, msgpack_encoder.write_int.
  destruct (Z.leb_spec 0 v); [lia|]. unfold_writes.
  unfold INT8_MIN, INT16_MIN, INT32_MIN, read_int. simpl app.
  destruct (Z.leb_spec (-32) v); [|destruct (Z.leb_spec (- 2 ^ 7) v);
    [|destruct (Z.leb_spec (- 2 ^ 15) v); [|destruct (Z.leb_spec (- 2 ^ 31) v)]]];
    intros Hat.
  - rewrite (read_first _ _ _ _ _ Hat). rewrite u8_to_u8, wrap_neg by lia.
    unfold POSITIVE_FIXINT_MAX, NEGATIVE_FIXINT_PREFIX.
    destruct (Z.leb_spec (v + 2 ^ 8) 0x7f); [lia|].
    destruct (Z.leb_spec 0xe0 (v + 2 ^ 8)); [|lia].
    rewrite <-(wrap_neg 8) by lia. rewrite swrap_of_wrap by lia. finish_read.
  - take_marker Hat. rewrite (guard_fits _ _ _ _ Hat) by (simpl; lia). tail_of Hat.
    rewrite <-to_u8_wrap in Hat.
    rewrite (read_byte_bytes (advance 1 d) (wrap 8 v)) by (done || (apply wrap_range; lia)).
    simpl. rewrite swrap_of_wrap by lia. finish_read.
  - sized_field Hat (read_be16_bytes (advance 1 d) (wrap 16 v)). rewrite swrap_of_wrap by lia. finish_read.
  - sized_field Hat (read_be32_bytes (advance 1 d) (wrap 32 v)). rewrite swrap_of_wrap by lia. finish_read.
  - sized_field Hat (read_be64_bytes (advance 1 d) (wrap 64 v)). rewrite swrap_of_wrap by lia. finish_read.
Qed.

Lemma read_float_back v : u_ok 32 v = true → reads_back read_float (tok_bytes (Tfloat v)) v.
Proof.
  intros Hv%u_ok_spec d Hat. unfold tok_bytes, write_token in *. unfold_writes.
  simpl app in Hat. unfold read_float. sized_field Hat (read_be32_bytes (advance 1 d) v). finish_read.
Qed.

Lemma read_double_back v : u_ok 64 v = true → reads_back read_double (tok_bytes (Tdouble v)) v.
Proof.
  intros Hv%u_ok_spec d Hat. unfold tok_bytes, write_token in *. unfold_writes.
  simpl app in Hat. unfold read_double. sized_field Hat (read_be64_bytes (advance 1 d) v). finish_read.
Qed.

Lemma read_bool_back v : reads_back read_bool (tok_bytes (Tbool v)) v.
Proof.
  intros d Hat. unfold tok_bytes, write_token in *. unfold_writes. simpl app in Hat.
  unfold read_bool. destruct v; take_marker Hat; finish_read.
Qed.

Lemma read_nil_back d :
  at_bytes (data_ d) (offset_ d) (tok_bytes Tnil) → read_nil d = Val (true, advance 1 d).
Proof.
  intros Hat. unfold tok_bytes, write_token in *. unfold_writes. simpl app in Hat.
  unfold read_nil. take_marker Hat. done.
Qed.

(** The fixed-size headers: a prefix in the high bits and a small count below it. *)
Lemma fixstr_byte n : 0 ≤ n ≤ 31 → u8 (to_u8 (Z.lor FIXSTR_PREFIX n)) = FIXSTR_PREFIX + n.
Proof. intros. by apply (fix_prefix_byte _ 5); unfold FIXSTR_PREFIX; try lia. Qed.

Lemma fixarray_byte n :
  0 ≤ n ≤ 15 → u8 (to_u8 (Z.lor FIXARRAY_PREFIX n)) = FIXARRAY_PREFIX + n.
Proof. intros. by apply (fix_prefix_byte _ 4); unfold FIXARRAY_PREFIX; try lia. Qed.

Lemma fixmap_byte n : 0 ≤ n ≤ 15 → u8 (to_u8 (Z.lor FIXMAP_PREFIX n)) = FIXMAP_PREFIX + n.
Proof. intros. by apply (fix_prefix_byte _ 4); unfold FIXMAP_PREFIX; try lia. Qed.

Lemma read_array_header_back n :
  u_ok 32 n = true → reads_back read_array_header (tok_bytes (Tarray n)) n.
Proof.
  intros Hv%u_ok_spec d. unfold tok_bytes, write_token. unfold_writes.
  unfold FIXARRAY_MAX_SIZE, UINT16_MAX, read_array_header. simpl app.
  destruct (Z.leb_spec n 0x0f); [|destruct (Z.leb_spec n (2 ^ 16 - 1))]; intros Hat.
  - rewrite (read_first _ _ _ _ _ Hat), fixarray_byte by lia.
    rewrite (land_high FIXARRAY_PREFIX n 4) by (done || lia). rewrite Z.eqb_refl.
    change 0x0f with (Z.ones 4). rewrite land_low by (done || lia). finish_read.
  - sized_field Hat (read_be16_bytes (advance 1 d) (wrap 16 n)). rewrite wrap_small by lia. finish_read.
  - sized_field Hat (read_be32_bytes (advance 1 d) (wrap 32 n)). rewrite wrap_small by lia. finish_read.
Qed.

Lemma read_map_header_back n :
  u_ok 32 n = true → reads_back read_map_header (tok_bytes (Tmap n)) n.
Proof.
  intros Hv%u_ok_spec d. unfold tok_bytes, write_token. unfold_writes.
  unfold FIXMAP_MAX_SIZE, UINT16_MAX, read_map_header. simpl app.
  destruct (Z.leb_spec n 0x0f); [|destruct (Z.leb_spec n (2 ^ 16 - 1))]; intros Hat.
  - rewrite (read_first _ _ _ _ _ Hat), fixmap_byte by lia.
    rewrite (land_high FIXMAP_PREFIX n 4) by (done || lia). rewrite Z.eqb_refl.
    change 0x0f with (Z.ones 4). rewrite land_low by (done || lia). finish_read.
  - sized_field Hat (read_be16_bytes (advance 1 d) (wrap 16 n)). rewrite wrap_small by lia. finish_read.
  - sized_field Hat (read_be32_bytes (advance 1 d) (wrap 32 n)). rewrite wrap_small by lia. finish_read.
Qed.

(** A marker, a length field and the payload it announces. *)
Ltac sized_payload H hdr payload lem :=
  take_marker H; rewrite (guard_fits _ _ _ _ H) by (cbn [length app]; lia); tail_of H;
  lazymatch type of H with
  | at_bytes ?x ?o _ => change (at_bytes x o (hdr ++ payload)) in H
  end;
  let H1 := fresh in
  apply at_bytes_app in H as [H1 H];
  rewrite lem by (done || lia || (apply wrap_range; lia)); cbn [res_bind].

Lemma read_binary_back bs :
  Z.of_nat (length bs) < 2 ^ 32 → reads_back read_binary (tok_bytes (Tbin bs)) bs.
Proof.
  intros Hs d. unfold tok_bytes, write_token. unfold_writes.
  unfold UINT8_MAX, UINT16_MAX, read_binary. set (n := Z.of_nat (length bs)) in *.
  destruct (Z.leb_spec n (2 ^ 8 - 1)); [|destruct (Z.leb_spec n (2 ^ 16 - 1))];
    cbn [msgpack_encoder.buffer_ msgpack_encoder.empty app]; intros Hat.
  - sized_payload Hat [to_u8 n] bs (read_byte_bytes (advance 1 d) n).
    subst n. rewrite read_payload_bytes by done. finish_read.
  - sized_payload Hat (be16_bytes (wrap 16 n)) bs (read_be16_bytes (advance 1 d) (wrap 16 n)).
    rewrite wrap_small by lia. subst n. rewrite read_payload_bytes by done. finish_read.
  - sized_payload Hat (be32_bytes (wrap 32 n)) bs (read_be32_bytes (advance 1 d) (wrap 32 n)).
    rewrite wrap_small by lia. subst n. rewrite read_payload_bytes by done. finish_read.
Qed.

Lemma read_string_back s :
  str_len s < 2 ^ 32 → reads_back read_string (tok_bytes (Tstr s)) s.
Proof.
  intros Hs d. unfold tok_bytes, write_token. unfold_writes.
  unfold FIXSTR_MAX_SIZE, UINT8_MAX, UINT16_MAX, read_string, str_len in *.
  pose proof (bytes_str_bytes s) as Es. generalize dependent (str_bytes s).
  intros bs Hs Es. set (n := Z.of_nat (length bs)) in *.
  destruct (Z.leb_spec n 0x1f); [|destruct (Z.leb_spec n (2 ^ 8 - 1));
    [|destruct (Z.leb_spec n (2 ^ 16 - 1))]];
    cbn [msgpack_encoder.buffer_ msgpack_encoder.empty app]; intros Hat.
  - rewrite (read_first _ _ _ _ _ Hat), fixstr_byte by lia. tail_of Hat.
    rewrite (land_high FIXSTR_PREFIX _ 5) by (done || lia). rewrite Z.eqb_refl.
    change 0x1f with (Z.ones 5). rewrite land_low by (done || lia).
    subst n. rewrite read_payload_bytes by done. simpl. rewrite Es. finish_read.
  - sized_payload Hat [to_u8 n] bs (read_byte_bytes (advance 1 d) n).
    subst n. rewrite read_payload_bytes by done. simpl. rewrite Es. finish_read.
  - sized_payload Hat (be16_bytes (wrap 16 n)) bs (read_be16_bytes (advance 1 d) (wrap 16 n)).
    rewrite wrap_small by lia. subst n. rewrite read_payload_bytes by done.
    simpl. rewrite Es. finish_read.
  - sized_payload Hat (be32_bytes (wrap 32 n)) bs (read_be32_bytes (advance 1 d) (wrap 32 n)).
    rewrite wrap_small by lia. subst n. rewrite read_payload_bytes by done.
    simpl. rewrite Es. finish_read.
Qed.

Lemma read_token_back t d :
  token_ok t = true → at_bytes (data_ d) (offset_ d) (tok_bytes t) →
  read_token t d = Val (Some t, advance (Z.of_nat (length (tok_bytes t))) d).
Proof.
  intros Hok Hat. destruct t as [|b|z|z|z|z|s|bs|n|n]; simpl read_token;
    [by rewrite read_nil_back|rewrite (read_bool_back b)|rewrite (read_int_back z)
    |rewrite (read_uint_back z)|rewrite (read_float_back z)|rewrite (read_double_back z)
    |rewrite (read_string_back s)|rewrite (read_binary_back bs)
    |rewrite (read_array_header_back n)|rewrite (read_map_header_back n)];
    try done; apply Z.ltb_lt, Hok.
Qed.

Lemma read_tokens_back ts d :
  forallb token_ok ts = true →
  at_bytes (data_ d) (offset_ d) (concat (tok_bytes <$> ts)) →
  read_tokens ts d =
    Val (Some ts, advance (Z.of_nat (length (concat (tok_bytes <$> ts)))) d).
Proof.
  revert d. induction ts as [|t ts IH]; intros d Hok Hat; simpl in *.
  - unfold advance. rewrite Z.add_0_r. by destruct d.
  - apply andb_true_iff in Hok as [Ht Hts].
    apply at_bytes_app in Hat as [H1 H2].
    rewrite read_token_back by done. simpl.
    rewrite IH by done. simpl.
    by rewrite advance_advance, length_app, Nat2Z.inj_add.
Qed.

(** The type [peek_type] reports in front of a token. *)
Definition token_type (t : token) : msgpack_type :=
  match t with
  | Tnil => mt_nil | Tbool _ => mt_boolean
  | Tint z => if 0 <=? z then mt_positive_int else mt_negative_int
  | Tuint _ => mt_positive_int | Tfloat _ => mt_float32 | Tdouble _ => mt_float64
  | Tstr _ => mt_str | Tbin _ => mt_bin | Tarray _ => mt_array | Tmap _ => mt_map
  end.

End TokenRoundtrip.

(** The types under which the reader a token calls for can succeed. *)
Definition announced (t : token) : list msgpack_type :=
  match t with
  | Tnil => [mt_nil] | Tbool _ => [mt_boolean]
  | Tint _ => [mt_positive_int; mt_negative_int] | Tuint _ => [mt_positive_int]
  | Tfloat _ => [mt_float32] | Tdouble _ => [mt_float32; mt_float64]
  | Tstr _ => [mt_str] | Tbin _ => [mt_bin] | Tarray _ => [mt_array] | Tmap _ => [mt_map]
  end.

(** *** Dispatch on the marker byte, checked on all 256 of them *)

Definition all_bytes : list byte := to_u8 <$> seqZ 0 256.

Lemma byte_forall (f : byte → bool) : forallb f all_bytes = true → ∀ b, f b = true.
Proof.
  intros H b. rewrite forallb_forall in H. apply H, list_elem_of_In.
  unfold all_bytes. apply list_elem_of_fmap. exists (u8 b).
  split; [by rewrite to_u8_u8|]. apply elem_of_seqZ. pose proof (u8_range b). lia.
Qed.

(** The markers each reader accepts, as its [if] and [switch] list them. *)
Definition accepts (t : token) (byte : Z) : bool :=
  match t with
  | Tnil => byte =? NIL
  | Tbool _ => (byte =? TRUE) || (byte =? FALSE)
  | Tint _ => (byte <=? POSITIVE_FIXINT_MAX) || (NEGATIVE_FIXINT_PREFIX <=? byte)
      || (byte =? INT8) || (byte =? INT16) || (byte =? INT32) || (byte =? INT64)
      || (byte =? UINT8) || (byte =? UINT16) || (byte =? UINT32) || (byte =? UINT64)
  | Tuint _ => (byte <=? POSITIVE_FIXINT_MAX)
      || (byte =? UINT8) || (byte =? UINT16) || (byte =? UINT32) || (byte =? UINT64)
  | Tfloat _ => byte =? FLOAT32
  | Tdouble _ => (byte =? FLOAT32) || (byte =? FLOAT64)
  | Tstr _ => (Z.land byte 0xe0 =? FIXSTR_PREFIX)
      || (byte =? STR8) || (byte =? STR16) || (byte =? STR32)
  | Tbin _ => (byte =? BIN8) || (byte =? BIN16) || (byte =? BIN32)
  | Tarray _ => (Z.land byte 0xf0 =? FIXARRAY_PREFIX) || (byte =? ARRAY16) || (byte =? ARRAY32)
  | Tmap _ => (Z.land byte 0xf0 =? FIXMAP_PREFIX) || (byte =? MAP16) || (byte =? MAP32)
  end.

Lemma accepts_announced t b :
  accepts t (u8 b) = true → msgpack_decoder.type_of_byte (u8 b) ∈ announced t.
Proof.
  intros H.
  assert (implb (accepts t (u8 b))
            (bool_decide (msgpack_decoder.type_of_byte (u8 b) ∈ announced t)) = true) as Hi;
    [|rewrite H in Hi; by apply bool_decide_eq_true in Hi].
  clear H. revert b. apply byte_forall. destruct t; vm_compute; reflexivity.
Qed.

Section Dispatch.
Import msgpack_decoder.
Implicit Types d : t.

Lemma at_index_in d i :
  0 ≤ i < size_ d → ∃ b, data_ d !! Z.to_nat i = Some b ∧ at_index d i = Val (u8 b).
Proof.
  intros Hi. unfold at_index, size_ in *. destruct (Z.leb_spec 0 i); [|lia].
  destruct (lookup_lt_is_Some_2 (data_ d) (Z.to_nat i)) as [b Hb]; [lia|].
  rewrite Hb. eauto.
Qed.

Lemma reader_refuses t d b :
  0 ≤ offset_ d < size_ d → at_index d (offset_ d) = Val (u8 b) →
  accepts t (u8 b) = false → read_token t d = Val (None, d).
Proof.
  intros Hd Hb Ha. unfold read_token, read_nil, read_bool, read_int, read_uint, read_float,
    read_double, read_string, read_binary, read_array_header, read_map_header.
  destruct (Z.leb_spec (size_ d) (offset_ d)); [lia|]. rewrite Hb. simpl res_bind.
  destruct t; simpl in Ha; rewrite ?orb_false_iff in Ha; destruct_and?;
    repeat match goal with H : _ = false |- _ => rewrite H; clear H end; done.
Qed.

(** A decoder whose position is inside its range (or at its end). *)
Definition decoder_wf d : Prop := 0 ≤ offset_ d ≤ size_ d.

End Dispatch.

(** *** No reader leaves the range *)

Section InBounds.
Import msgpack_decoder.
Implicit Types d : t.

(** The reader returns, keeps the bytes and moves the position forward inside the range. *)
Definition moves_within {A} d (r : res (A * t)) : Prop :=
  ∃ o d', r = Val (o, d') ∧ data_ d' = data_ d ∧ offset_ d ≤ offset_ d' ≤ size_ d.

Lemma moves_here {A} d (o : A) : decoder_wf d → moves_within d (Val (o, d)).
Proof. intros []. exists o, d. split_and!; auto; lia. Qed.

Lemma moves_advance {A} d n (o : A) :
  0 ≤ n → offset_ d + n ≤ size_ d → moves_within d (Val (o, advance n d)).
Proof. intros. exists o, (advance n d). simpl. split_and!; auto; lia. Qed.

Lemma moves_step {A} d d' (r : res (A * t)) :
  data_ d' = data_ d → offset_ d ≤ offset_ d' → moves_within d' r → moves_within d r.
Proof.
  intros E Ho (o & d2 & -> & E2 & ?). exists o, d2.
  unfold size_ in *. rewrite E in *. split_and!; try congruence; lia.
Qed.

Lemma moves_bind {A B} d (r : res (A * t)) (k : A * t → res (B * t)) :
  moves_within d r → (∀ o d', r = Val (o, d') → data_ d' = data_ d →
    offset_ d ≤ offset_ d' ≤ size_ d → moves_within d' (k (o, d'))) →
  moves_within d (res_bind k r).
Proof.
  intros (o & d' & -> & E & Ho) Hk. simpl.
  apply (moves_step d d'); [done|lia|]. by apply Hk.
Qed.

Lemma moves_guard {A} d n (k : res (option A * t)) :
  decoder_wf d → (offset_ d + n ≤ size_ d → moves_within d k) → moves_within d (guard d n k).
Proof.
  intros Hd Hk. unfold guard. destruct (Z.ltb_spec (size_ d) (offset_ d + n)).
  - by apply moves_here.
  - apply Hk. lia.
Qed.

(** A reader that starts by looking at the byte at its position. *)
Lemma moves_first {A} d (dflt : A) (k : Z → res (A * t)) :
  decoder_wf d → (∀ b, offset_ d < size_ d → moves_within d (k (u8 b))) →
  moves_within d (if size_ d <=? offset_ d then Val (dflt, d)
                  else res_bind k (at_index d (offset_ d))).
Proof.
  intros Hd Hk. destruct (Z.leb_spec (size_ d) (offset_ d)); [by apply moves_here|].
  destruct (at_index_in d (offset_ d)) as (b & _ & ->); [destruct Hd; lia|]. by apply Hk.
Qed.

(** The fixed-size fields: inside the range when the guard passed, and non-negative. *)
Ltac field_in :=
  repeat match goal with
  | |- context [at_index ?d ?i] =>
      let b := fresh "b" in
      destruct (at_index_in d i) as (b & _ & ->); [lia|]; simpl res_bind
  end;
  eexists; split; [reflexivity|]; rewrite ?Z.lor_nonneg, ?Z.shiftl_nonneg;
  split_and?; (done || apply u8_range).

Lemma read_byte_in d : 0 ≤ offset_ d → offset_ d + 1 ≤ size_ d →
  ∃ v, read_byte d = Val (v, advance 1 d) ∧ 0 ≤ v.
Proof. intros. unfold read_byte. field_in. Qed.

Lemma read_be16_in d : 0 ≤ offset_ d → offset_ d + 2 ≤ size_ d →
  ∃ v, read_be16 d = Val (v, advance 2 d) ∧ 0 ≤ v.
Proof. intros. unfold read_be16. field_in. Qed.

Lemma read_be32_in d : 0 ≤ offset_ d → offset_ d + 4 ≤ size_ d →
  ∃ v, read_be32 d = Val (v, advance 4 d) ∧ 0 ≤ v.
Proof. intros. unfold read_be32. field_in. Qed.

Lemma read_be64_in d : 0 ≤ offset_ d → offset_ d + 8 ≤ size_ d →
  ∃ v, read_be64 d = Val (v, advance 8 d) ∧ 0 ≤ v.
Proof. intros. unfold read_be64. field_in. Qed.

Lemma read_payload_in d len :
  decoder_wf d → 0 ≤ len → moves_within d (read_payload len d).
Proof.
  intros Hd Hlen. apply moves_guard; [done|]. intros Hf. unfold range, decoder_wf in *.
  replace ((0 <=? offset_ d) && _) with true by lia. by apply moves_advance.
Qed.

(** Splits the dispatch on the marker byte into its branches. *)
Ltac split_markers :=
  repeat match goal with
  | |- moves_within _ (if ?c then _ else _) => destruct c
  end.

(** A fixed-size field behind the marker: read it, then go on with its value. *)
Ltac enter_field :=
  apply moves_guard; [done|]; intros;
  match goal with
  | |- context [read_byte ?d] => destruct (read_byte_in d) as (? & -> & ?)
  | |- context [read_be16 ?d] => destruct (read_be16_in d) as (? & -> & ?)
  | |- context [read_be32 ?d] => destruct (read_be32_in d) as (? & -> & ?)
  | |- context [read_be64 ?d] => destruct (read_be64_in d) as (? & -> & ?)
  end; [unfold decoder_wf, size_ in *; simpl; lia..|];
  simpl res_bind; rewrite ?advance_advance.

Ltac close_moves :=
  split_markers; first [by apply moves_here | apply moves_advance; simpl; lia].

Ltac reader_in :=
  intros Hd; apply moves_first; [done|]; intros b Hb; cbv zeta; split_markers;
  first [close_moves | enter_field; close_moves].

Lemma read_nil_in d : decoder_wf d → moves_within d (read_nil d).
Proof. unfold read_nil. reader_in. Qed.

Lemma read_bool_in d : decoder_wf d → moves_within d (read_bool d).
Proof. unfold read_bool. reader_in. Qed.

Lemma read_int_in d : decoder_wf d → moves_within d (read_int d).
Proof. unfold read_int. reader_in. Qed.

Lemma read_uint_in d : decoder_wf d → moves_within d (read_uint d).
Proof. unfold read_uint. reader_in. Qed.

Lemma read_float_in d : decoder_wf d → moves_within d (read_float d).
Proof. unfold read_float. reader_in. Qed.

Lemma read_array_header_in d : decoder_wf d → moves_within d (read_array_header d).
Proof. unfold read_array_header. reader_in. Qed.

Lemma read_map_header_in d : decoder_wf d → moves_within d (read_map_header d).
Proof. unfold read_map_header. reader_in. Qed.

Lemma read_double_in d : decoder_wf d → moves_within d (read_double d).
Proof.
  intros Hd. apply moves_first; [done|]. intros b Hb.
  destruct (u8 b =? FLOAT32).
  - apply moves_bind; [by apply read_float_in|]. intros o d' _ E ?.
    assert (decoder_wf d') by (unfold decoder_wf, size_ in *; rewrite E; destruct Hd; lia).
    destruct o; by apply moves_here.
  - destruct (u8 b =? FLOAT64); simpl; [|by apply moves_here]. enter_field. close_moves.
Qed.

Lemma moves_payload d n len :
  decoder_wf d → 0 ≤ n → offset_ d + n ≤ size_ d → 0 ≤ len →
  moves_within d (read_payload len (advance n d)).
Proof.
  intros Hd ???. apply (moves_step d (advance n d)); [done|simpl; lia|].
  apply read_payload_in; [|done]. unfold decoder_wf, size_ in *. simpl. lia.
Qed.

Lemma moves_map {A B} d (g : option A → option B) (r : res (option A * t)) :
  moves_within d r → moves_within d (let? (o, d') := r in Val (g o, d')).
Proof. intros (o & d' & -> & ? & ?). simpl. by exists (g o), d'. Qed.

Ltac payload_in :=
  first [by apply moves_here
        | apply moves_payload; [done|lia|lia|apply Z.land_nonneg; pose proof (u8_range _); eauto; lia]
        | enter_field; apply moves_payload; [done|lia|lia|done] ].

Lemma read_binary_in d : decoder_wf d → moves_within d (read_binary d).
Proof.
  unfold read_binary. intros Hd. apply moves_first; [done|]. intros b Hb.
  split_markers; payload_in.
Qed.

Lemma read_string_in d : decoder_wf d → moves_within d (read_string d).
Proof.
  unfold read_string. intros Hd. apply moves_first; [done|]. intros b Hb. cbv zeta.
  split_markers; try by apply moves_here.
  - apply moves_map. apply moves_payload; [done|lia|lia|].
    apply Z.land_nonneg. right. lia.
  - enter_field. apply moves_map. apply moves_payload; [done|lia|lia|done].
  - enter_field. apply moves_map. apply moves_payload; [done|lia|lia|done].
  - enter_field. apply moves_map. apply moves_payload; [done|lia|lia|done].
Qed.

Lemma read_token_in t d : decoder_wf d → moves_within d (read_token t d).
Proof.
  intros Hd. destruct t; simpl;
    first [ apply moves_map
          | by apply (moves_map d (λ _, None)) | idtac ];
    eauto using read_bool_in, read_int_in, read_uint_in, read_float_in, read_double_in,
      read_string_in, read_binary_in, read_array_header_in, read_map_header_in.
  destruct (read_nil_in d Hd) as (ok & d' & -> & ? & ?). simpl.
  by exists (if ok : bool then Some Tnil else None), d'.
Qed.

Lemma peek_type_in d : decoder_wf d → ∃ ty, peek_type d = Val ty.
Proof.
  intros [? ?]. unfold peek_type. destruct (Z.leb_spec (size_ d) (offset_ d)); [eauto|].
  destruct (at_index_in d (offset_ d)) as (b & _ & ->); [lia|]. simpl. eauto.
Qed.
End InBounds.

(** ** The properties of the codec *)

Lemma read_token_in_wf t d :
  decoder_wf d → ∃ o d', read_token t d = Val (o, d') ∧
    msgpack_decoder.data_ d' = msgpack_decoder.data_ d ∧
    msgpack_decoder.offset_ d ≤ msgpack_decoder.offset_ d' ∧ decoder_wf d'.
Proof.
  intros Hd. destruct (read_token_in t d Hd) as (o & d' & E & Hdata & ?).
  exists o, d'. unfold decoder_wf, msgpack_decoder.size_ in *. rewrite Hdata.
  split_and!; try done; lia.
Qed.

(** What the encoder writes, the decoder reads back: for every sequence of
    tokens (nil, bool, signed and unsigned 64-bit integers, float and double
    bit patterns, strings, binaries and array and map headers within the
    format's sizes), reading the finished buffer with the corresponding
    readers returns the same tokens and leaves the decoder at the end. *)
Theorem tokens_roundtrip ts :
  forallb token_ok ts = true →
  ∃ d', read_tokens ts (msgpack_decoder.of_bytes (msgpack_encoder.finish (write_tokens ts)).1)
        = Val (Some ts, d') ∧ msgpack_decoder.eof d' = true.
Proof.
  intros Hok. eexists. split.
  - simpl. rewrite write_tokens_bytes. apply read_tokens_back; [done|apply at_bytes_all].
  - unfold msgpack_decoder.eof, msgpack_decoder.size_. simpl. lia.
Qed.

Lemma tokens_roundtrip_witness :
  ∃ d', read_tokens [Tmap 2; Tstr "a"; Tint (-300); Tstr "b"; Tbin [x00; xff]]
          (msgpack_decoder.of_bytes (msgpack_encoder.finish
             (write_tokens [Tmap 2; Tstr "a"; Tint (-300); Tstr "b"; Tbin [x00; xff]])).1)
        = Val (Some [Tmap 2; Tstr "a"; Tint (-300); Tstr "b"; Tbin [x00; xff]], d')
        ∧ msgpack_decoder.eof d' = true.
Proof. apply tokens_roundtrip. vm_compute. reflexivity. Defined.

(** C15. Memory safety of the decoder on arbitrary bytes: from a position inside
    the range, [peek_type] and every reader return (they never index outside
    the range), keep the bytes and move the position forward to a position
    that is again inside the range, whether they succeed or refuse. *)
Theorem readers_in_bounds t d :
  decoder_wf d →
  (∃ ty, msgpack_decoder.peek_type d = Val ty) ∧
  ∃ o d', read_token t d = Val (o, d') ∧
    msgpack_decoder.data_ d' = msgpack_decoder.data_ d ∧
    msgpack_decoder.offset_ d ≤ msgpack_decoder.offset_ d' ∧ decoder_wf d'.
Proof. intros Hd. split; [by apply peek_type_in | by apply read_token_in_wf]. Qed.

Lemma readers_in_bounds_witness :
  (∃ ty, msgpack_decoder.peek_type (msgpack_decoder.Decoder [xdb; xff; xff; xff; xff; x61] 0) = Val ty) ∧
  ∃ o d', read_token (Tstr "") (msgpack_decoder.Decoder [xdb; xff; xff; xff; xff; x61] 0)
      = Val (o, d') ∧
    msgpack_decoder.data_ d' = [xdb; xff; xff; xff; xff; x61] ∧
    0 ≤ msgpack_decoder.offset_ d' ∧ decoder_wf d'.
Proof.
  apply (readers_in_bounds (Tstr "") (msgpack_decoder.Decoder [xdb; xff; xff; xff; xff; x61] 0)).
  vm_compute. split; discriminate.
Defined.

(** [peek_type] announces the readers: when the announced type is not one
    the reader belongs to, the reader refuses and consumes nothing. *)
Theorem peek_type_announces t d ty :
  decoder_wf d → msgpack_decoder.peek_type d = Val ty → ty ∉ announced t →
  read_token t d = Val (None, d).
Proof.
  intros [Hd0 Hd1] Hty Hn. unfold msgpack_decoder.peek_type in Hty.
  destruct (Z.leb_spec (msgpack_decoder.size_ d) (msgpack_decoder.offset_ d)) as [Hle|Hlt].
  - unfold read_token, msgpack_decoder.read_nil, msgpack_decoder.read_bool,
      msgpack_decoder.read_int, msgpack_decoder.read_uint, msgpack_decoder.read_float,
      msgpack_decoder.read_double, msgpack_decoder.read_string, msgpack_decoder.read_binary,
      msgpack_decoder.read_array_header, msgpack_decoder.read_map_header.
    destruct (Z.leb_spec (msgpack_decoder.size_ d) (msgpack_decoder.offset_ d)); [|lia].
    by destruct t.
  - destruct (at_index_in d (msgpack_decoder.offset_ d)) as (b & _ & Hb); [lia|].
    rewrite Hb in Hty. simpl in Hty. injection Hty as <-.
    apply (reader_refuses t d b); [lia|done|].
    destruct (accepts t (u8 b)) eqn:E; [|done]. by apply accepts_announced in E.
Qed.

Lemma peek_type_announces_witness :
  read_token (Tint 0) (msgpack_decoder.of_bytes [xa1; x61])
  = Val (None, msgpack_decoder.of_bytes [xa1; x61]).
Proof.
  apply (peek_type_announces _ _ mt_str); [vm_compute; split; discriminate|reflexivity|].
  apply (bool_decide_eq_false_1 (mt_str ∈ announced (Tint 0))). reflexivity.
Defined.

Definition int_length (z : Z) : Z :=
  if (-32 <=? z) && (z <? 2 ^ 7) then 1
  else if (- 2 ^ 7 <=? z) && (z <? 2 ^ 8) then 2
  else if (- 2 ^ 15 <=? z) && (z <? 2 ^ 16) then 3
  else if (- 2 ^ 31 <=? z) && (z <? 2 ^ 32) then 5 else 9.

(** Integers take the shortest MessagePack form of their sign: [write_int]
    adds 1, 2, 3, 5 or 9 bytes, by the ranges of the format specification
    (fixint, 8, 16, 32 and 64 bits; unsigned forms for non-negative values). *)
Theorem write_int_length z e :
  s_ok 64 z = true →
  msgpack_encoder.size (msgpack_encoder.write_int z e) =
  msgpack_encoder.size e + int_length z.
Proof.
  intros Hz%s_ok_spec. unfold msgpack_encoder.size.
  change (msgpack_encoder.write_int z e) with (write_token (Tint z) e).
  rewrite write_token_app, length_app, Nat2Z.inj_add. f_equal.
  unfold tok_bytes, write_token, int_length. unfold_writes.
  unfold POSITIVE_FIXINT_MAX, UINT8_MAX, UINT16_MAX, UINT32_MAX, INT8_MIN, INT16_MIN, INT32_MIN.
  destruct (Z.leb_spec 0 z); [rewrite wrap_small by lia|];
    repeat case_match; simpl; lia.
Qed.

Lemma write_int_length_witness :
  msgpack_encoder.size (msgpack_encoder.write_int (-129) msgpack_encoder.empty) = 0 + 3.
Proof. apply (write_int_length (-129) msgpack_encoder.empty). reflexivity. Defined.

(** [read_int] on what [write_uint] wrote: the value when it fits
    [int64_t], a refusal exactly when it exceeds [INT64_MAX] (never a negative
    number); the item is consumed in both cases. *)
Theorem read_int_of_write_uint v :
  u_ok 64 v = true →
  msgpack_decoder.read_int
    (msgpack_decoder.of_bytes (msgpack_encoder.buffer_
       (msgpack_encoder.write_uint v msgpack_encoder.empty)))
  = Val (if INT64_MAX <? v then None else Some v,
         msgpack_decoder.advance
           (msgpack_encoder.size (msgpack_encoder.write_uint v msgpack_encoder.empty))
           (msgpack_decoder.of_bytes (msgpack_encoder.buffer_
              (msgpack_encoder.write_uint v msgpack_encoder.empty)))).
Proof. intros Hv. apply read_int_of_uint; [done|]. apply at_bytes_all. Qed.

Lemma read_int_of_write_uint_witness :
  msgpack_decoder.read_int
    (msgpack_decoder.of_bytes (msgpack_encoder.buffer_
       (msgpack_encoder.write_uint (2 ^ 63) msgpack_encoder.empty)))
  = Val (None, msgpack_decoder.Decoder [xcf; x80; x00; x00; x00; x00; x00; x00; x00] 9).
Proof. apply (read_int_of_write_uint (2 ^ 63)). reflexivity. Defined.
