(* ===== verification/ErrorCodes.v ===== *)
(** * Error codes

    [include/kcenon/container/container/error_codes.h], namespace
    [error_codes]: the codes, [get_message], [get_category], the category tests
    and [make_message]. *)

From S2P Require Import Prelude.

Module error_codes.

Definition key_not_found : Z := 100.
Definition type_mismatch : Z := 101.
Definition value_out_of_range : Z := 102.
Definition invalid_value : Z := 103.
Definition key_already_exists : Z := 104.
Definition empty_key : Z := 105.
Definition serialization_failed : Z := 200.
Definition deserialization_failed : Z := 201.
Definition invalid_format : Z := 202.
Definition version_mismatch : Z := 203.
Definition corrupted_data : Z := 204.
Definition header_parse_failed : Z := 205.
Definition value_parse_failed : Z := 206.
Definition encoding_error : Z := 207.
Definition schema_validation_failed : Z := 300.
Definition missing_required_field : Z := 301.
Definition constraint_violated : Z := 302.
Definition type_constraint_violated : Z := 303.
Definition max_size_exceeded : Z := 304.
Definition memory_allocation_failed : Z := 400.
Definition file_not_found : Z := 401.
Definition file_read_error : Z := 402.
Definition file_write_error : Z := 403.
Definition permission_denied : Z := 404.
Definition resource_exhausted : Z := 405.
Definition io_error : Z := 406.
Definition lock_acquisition_failed : Z := 500.
Definition concurrent_modification : Z := 501.
Definition lock_timeout : Z := 502.

(** The cases of [get_message]'s [switch], in its order. *)
Definition messages : list (Z * string) :=
  [ (key_not_found, "Key not found"); (type_mismatch, "Type mismatch");
    (value_out_of_range, "Value out of range"); (invalid_value, "Invalid value");
    (key_already_exists, "Key already exists"); (empty_key, "Empty key");
    (serialization_failed, "Serialization failed");
    (deserialization_failed, "Deserialization failed");
    (invalid_format, "Invalid format"); (version_mismatch, "Version mismatch");
    (corrupted_data, "Corrupted data"); (header_parse_failed, "Header parse failed");
    (value_parse_failed, "Value parse failed"); (encoding_error, "Encoding error");
    (schema_validation_failed, "Schema validation failed");
    (missing_required_field, "Missing required field");
    (constraint_violated, "Constraint violated");
    (type_constraint_violated, "Type constraint violated");
    (max_size_exceeded, "Maximum size exceeded");
    (memory_allocation_failed, "Memory allocation failed");
    (file_not_found, "File not found"); (file_read_error, "File read error");
    (file_write_error, "File write error"); (permission_denied, "Permission denied");
    (resource_exhausted, "Resource exhausted"); (io_error, "I/O error");
    (lock_acquisition_failed, "Lock acquisition failed");
    (concurrent_modification, "Concurrent modification");
    (lock_timeout, "Lock timeout") ]%string.

Fixpoint find_case (code : Z) (cases : list (Z * string)) : option string :=
  match cases with
  | [] => None
  | (c, m) :: cases => if code =? c then Some m else find_case code cases
  end.

Definition get_message (code : Z) : string :=
  default "Unknown error"%string (find_case code messages).

Definition get_category (code : Z) : string :=
  if (100 <=? code) && (code <? 200) then "value_operation"
  else if (200 <=? code) && (code <? 300) then "serialization"
  else if (300 <=? code) && (code <? 400) then "validation"
  else if (400 <=? code) && (code <? 500) then "resource"
  else if (500 <=? code) && (code <? 600) then "thread_safety"
  else "unknown".

Definition is_category (code category_base : Z) : bool :=
  (category_base <=? code) && (code <? category_base + 100).

Definition is_value_error (code : Z) : bool := is_category code 100.
Definition is_serialization_error (code : Z) : bool := is_category code 200.
Definition is_validation_error (code : Z) : bool := is_category code 300.
Definition is_resource_error (code : Z) : bool := is_category code 400.
Definition is_thread_error (code : Z) : bool := is_category code 500.

Definition make_message (code : Z) (detail : string) : string :=
  if bool_decide (detail = ""%string) then get_message code
  else (get_message code ++ ": " ++ detail)%string.

End error_codes.

(** [kcenon::common::error_info] as the program builds it: a code, a message and
    the name of the module, always ["container_system"]. *)
Record error_info : Type := ErrorInfo { code : Z; message : string; module_ : string }.

Definition error (code : Z) (message : string) : error_info :=
  ErrorInfo code message "container_system".

Import error_codes.

(** Every code of the [switch] is below 600 and at least 100, so it has a category. *)
Lemma find_case_elem code cases m :
  find_case code cases = Some m → (code, m) ∈ cases.
Proof.
  induction cases as [|[c m'] cases IH]; simpl; [done|].
  destruct (Z.eqb_spec code c) as [->|]; intros E; [injection E as ->; left|right; auto].
Qed.

(** The error code table is consistent: a code with a message of its own
    is in exactly one category, [get_category] names it, and the five category
    tests agree with [get_category] on every integer. *)
Theorem error_categories code :
  (is_value_error code = true ↔ get_category code = "value_operation"%string) ∧
  (is_serialization_error code = true ↔ get_category code = "serialization"%string) ∧
  (is_validation_error code = true ↔ get_category code = "validation"%string) ∧
  (is_resource_error code = true ↔ get_category code = "resource"%string) ∧
  (is_thread_error code = true ↔ get_category code = "thread_safety"%string) ∧
  (get_message code = "Unknown error"%string ∨ get_category code ≠ "unknown"%string).
Proof.
  unfold is_value_error, is_serialization_error, is_validation_error, is_resource_error,
    is_thread_error, is_category, get_category.
  split_and!; [repeat case_match; split; intros; try done; lia..|].
  unfold get_message. destruct (find_case code messages) as [m|] eqn:E; [right|by left].
  apply find_case_elem, (list_elem_of_fmap_2 fst) in E. simpl in E.
  repeat (apply elem_of_cons in E as [->|E]; [vm_compute; done|]).
  by apply not_elem_of_nil in E.
Qed.
