(* ===== verification/Types.v ===== *)
(** * Value types and the variant shared by the two value representations

    [include/kcenon/container/value_types.h], [core/value_types.cpp] and
    [include/kcenon/container/container/types.h].  Both [std::variant]s of the
    program ([ValueVariant] of [internal/value.h] and [value_variant] of
    [types.h]) have the same sixteen alternatives up to the types of the last
    two (container pointer, array), so [variant] takes these as parameters.
    Integers are [Z] within the width of their alternative ([variant_ok]; LP64:
    [long] is 64 bits wide), floats are bit patterns. *)

From S2P Require Import Prelude Float.
#[local] Set Warnings "-register-all".

(** ** [value_types] *)

Inductive value_types : Type :=
| null_value | bool_value | short_value | ushort_value | int_value | uint_value
| long_value | ulong_value | llong_value | ullong_value | float_value | double_value
| string_value | bytes_value | container_value | array_value.

#[export] Instance value_types_eq_dec : EqDecision value_types.
Proof. solve_decision. Defined.

Definition all_types : list value_types :=
  [null_value; bool_value; short_value; ushort_value; int_value; uint_value;
   long_value; ulong_value; llong_value; ullong_value; float_value; double_value;
   string_value; bytes_value; container_value; array_value].

(** The enumerator's integer value and the cast back ([None] out of 0..15). *)
Definition type_index (t : value_types) : Z :=
  match t with
  | null_value => 0 | bool_value => 1 | short_value => 2 | ushort_value => 3
  | int_value => 4 | uint_value => 5 | long_value => 6 | ulong_value => 7
  | llong_value => 8 | ullong_value => 9 | float_value => 10 | double_value => 11
  | string_value => 12 | bytes_value => 13 | container_value => 14 | array_value => 15
  end.

Definition type_of_index (i : Z) : option value_types :=
  if 0 <=? i then all_types !! Z.to_nat i else None.

Lemma type_of_index_index t : type_of_index (type_index t) = Some t.
Proof. by destruct t. Qed.

Lemma type_of_index_range i t : type_of_index i = Some t → type_index t = i ∧ 0 ≤ i ≤ 15.
Proof.
  unfold type_of_index. destruct (Z.leb_spec 0 i) as [Hi|]; [|done].
  intros E. pose proof (lookup_lt_Some _ _ _ E) as Hl. simpl in Hl.
  rewrite <-(Z2Nat.id i) by done. split; [|lia].
  revert E. generalize (Z.to_nat i) as n. clear. intros n.
  do 16 (destruct n as [|n]; [by intros [= <-]|]). done.
Qed.

(** The table of decimal names that headers and text formats use. *)
Definition type_map : list (string * value_types) :=
  [("0", null_value); ("1", bool_value); ("2", short_value); ("3", ushort_value);
   ("4", int_value); ("5", uint_value); ("6", long_value); ("7", ulong_value);
   ("8", llong_value); ("9", ullong_value); ("10", float_value); ("11", double_value);
   ("12", string_value); ("13", bytes_value); ("14", container_value);
   ("15", array_value)]%string.

Fixpoint find_key (str : string) (l : list (string * value_types)) : option value_types :=
  match l with
  | [] => None
  | (key, ty) :: l => if bool_decide (key = str) then Some ty else find_key str l
  end.

Fixpoint find_val (ty : value_types) (l : list (string * value_types)) : option string :=
  match l with
  | [] => None
  | (key, val) :: l => if bool_decide (val = ty) then Some key else find_val ty l
  end.

Definition get_type_from_string (str : string) : value_types :=
  default null_value (find_key str type_map).

Definition get_string_from_type (ty : value_types) : string :=
  default "0"%string (find_val ty type_map).

(** ** The variant *)

Inductive variant (C A : Type) : Type :=
| V_null
| V_bool (b : bool)
| V_short (z : Z)
| V_ushort (z : Z)
| V_int (z : Z)
| V_uint (z : Z)
| V_long (z : Z)
| V_ulong (z : Z)
| V_llong (z : Z)
| V_ullong (z : Z)
| V_float (bits : Z)
| V_double (bits : Z)
| V_string (s : string)
| V_bytes (bs : list byte)
| V_container (c : C)
| V_array (a : A).
Arguments V_null {C A}.
Arguments V_bool {C A} _.
Arguments V_short {C A} _.
Arguments V_ushort {C A} _.
Arguments V_int {C A} _.
Arguments V_uint {C A} _.
Arguments V_long {C A} _.
Arguments V_ulong {C A} _.
Arguments V_llong {C A} _.
Arguments V_ullong {C A} _.
Arguments V_float {C A} _.
Arguments V_double {C A} _.
Arguments V_string {C A} _.
Arguments V_bytes {C A} _.
Arguments V_container {C A} _.
Arguments V_array {C A} _.

Section VariantOps.
Context {C A : Type}.

(** [static_cast<value_types>(data_.index())] *)
Definition variant_type (v : variant C A) : value_types :=
  match v with
  | V_null => null_value | V_bool _ => bool_value | V_short _ => short_value
  | V_ushort _ => ushort_value | V_int _ => int_value | V_uint _ => uint_value
  | V_long _ => long_value | V_ulong _ => ulong_value | V_llong _ => llong_value
  | V_ullong _ => ullong_value | V_float _ => float_value | V_double _ => double_value
  | V_string _ => string_value | V_bytes _ => bytes_value
  | V_container _ => container_value | V_array _ => array_value
  end.

(** Every alternative holds a value of its type; [okC] and [okA] for the last two. *)
Definition variant_ok (okC : C → bool) (okA : A → bool) (v : variant C A) : bool :=
  match v with
  | V_null | V_bool _ => true
  | V_short z => s_ok 16 z | V_ushort z => u_ok 16 z
  | V_int z => s_ok 32 z | V_uint z => u_ok 32 z
  | V_long z | V_llong z => s_ok 64 z
  | V_ulong z | V_ullong z => u_ok 64 z
  | V_float z => u_ok 32 z | V_double z => u_ok 64 z
  | V_string s => str_len s <? 2 ^ 32
  | V_bytes bs => Z.of_nat (length bs) <? 2 ^ 32
  | V_container c => okC c
  | V_array a => okA a
  end.

(** [==] of two variants: same alternative and equal contents. *)
Definition variant_eqb (eqC : C → C → bool) (eqA : A → A → bool) (v w : variant C A) : bool :=
  match v, w with
  | V_null, V_null => true
  | V_bool a, V_bool b => Bool.eqb a b
  | V_short a, V_short b | V_ushort a, V_ushort b | V_int a, V_int b | V_uint a, V_uint b
  | V_long a, V_long b | V_ulong a, V_ulong b | V_llong a, V_llong b
  | V_ullong a, V_ullong b => a =? b
  | V_float a, V_float b => f_eqb f32 a b
  | V_double a, V_double b => f_eqb f64 a b
  | V_string a, V_string b => bool_decide (a = b)
  | V_bytes a, V_bytes b => bool_decide (a = b)
  | V_container a, V_container b => eqC a b
  | V_array a, V_array b => eqA a b
  | _, _ => false
  end.
End VariantOps.

(** Renames the container pointers and the arrays. *)
Definition variant_map {C C' A A'} (fC : C → C') (fA : A → A') (v : variant C A)
    : variant C' A' :=
  match v with
  | V_null => V_null | V_bool b => V_bool b | V_short z => V_short z
  | V_ushort z => V_ushort z | V_int z => V_int z | V_uint z => V_uint z
  | V_long z => V_long z | V_ulong z => V_ulong z | V_llong z => V_llong z
  | V_ullong z => V_ullong z | V_float z => V_float z | V_double z => V_double z
  | V_string s => V_string s | V_bytes bs => V_bytes bs
  | V_container c => V_container (fC c) | V_array a => V_array (fA a)
  end.

(** ** [types.h]: the variant of value_container and its values *)

(** [value_variant]: the array alternative is a pointer to [array_values], a
    vector of variants. *)
Inductive value_variant (C : Type) : Type :=
  Vv { vv : variant (option C) (option (list (value_variant C))) }.
Arguments Vv {C} _.
Arguments vv {C} _.

Record optimized_value (C : Type) : Type := Optimized {
  name : string;
  type : value_types;
  data : value_variant C }.
Arguments Optimized {C} _ _ _.
Arguments name {C} _.
Arguments type {C} _.
Arguments data {C} _.

Definition index_type {C} (v : value_variant C) : value_types := variant_type (vv v).

(** [optimized_value()] and [optimized_value(n, t)] *)
Definition default_optimized {C} : optimized_value C := Optimized "" null_value (Vv V_null).
Definition new_optimized {C} (n : string) (t : value_types) : optimized_value C :=
  Optimized n t (Vv V_null).

Definition is_stack_allocated {C} (v : optimized_value C) : bool :=
  negb (bool_decide (type v = string_value)) && negb (bool_decide (type v = bytes_value)) &&
  negb (bool_decide (type v = container_value)).

(** The table [type_map] is a bijection between the sixteen value types
    and their decimal names; any other string converts to [null_value]. *)
Theorem type_names_roundtrip :
  (∀ ty, get_type_from_string (get_string_from_type ty) = ty) ∧
  (∀ str, get_string_from_type (get_type_from_string str) = str ∨
          get_type_from_string str = null_value ∧ str ∉ type_map.*1).
Proof.
  split; [by intros []|]. intros str.
  destruct (decide (str ∈ type_map.*1)) as [Hin|Hout].
  - left. simpl in Hin.
    repeat (apply elem_of_cons in Hin as [->|Hin]; [reflexivity|]).
    by apply not_elem_of_nil in Hin.
  - right. split; [|done]. unfold get_type_from_string.
    replace (find_key str type_map) with (@None value_types); [done|].
    symmetry. revert Hout. generalize type_map. induction l as [|[k t] l IH]; [done|].
    rewrite fmap_cons, not_elem_of_cons. intros [Hk ?]. simpl in Hk. cbn [find_key].
    rewrite bool_decide_eq_false_2 by congruence. auto.
Qed.
