(* ===== verification/UnorderedMap.v ===== *)
(** * std::unordered_map with string keys

    An [unordered_map] is a list of its elements; the standard leaves open in
    which order they are iterated.  Where the list has a new element at its end,
    that is one of the orders a library may choose: a map is meant up to the
    permutation [≡ₚ] of its elements, every operation respects it
    ([um_index_perm] and the lemmas after it), and the theorems on what a program
    reads from a map quantify over the list, that is over every order.  Every map
    the program builds has distinct keys ([um_ok]); [um_map] forgets the order, and
    each operation is the corresponding operation on stdpp's finite maps. *)

From S2P Require Import Prelude.

Section UnorderedMap.
Context {V : Type}.
Implicit Types (m : list (string * V)) (k : string) (v : V).

Fixpoint um_find k m : option V :=
  match m with
  | [] => None
  | (k', v) :: m => if bool_decide (k' = k) then Some v else um_find k m
  end.

Definition um_contains k m : bool := bool_decide (is_Some (um_find k m)).

(** [m[k]], default-constructing the element when there is none, then updated by [f]. *)
Fixpoint um_index (dflt : V) (f : V → V) k m : list (string * V) :=
  match m with
  | [] => [(k, f dflt)]
  | (k', v) :: m =>
      if bool_decide (k' = k) then (k', f v) :: m else (k', v) :: um_index dflt f k m
  end.

(** [m.emplace(k, v)] keeps an element that is already there. *)
Definition um_emplace k v m : list (string * V) :=
  if um_contains k m then m else m ++ [(k, v)].

Fixpoint um_erase k m : list (string * V) :=
  match m with
  | [] => []
  | (k', v) :: m => if bool_decide (k' = k) then m else (k', v) :: um_erase k m
  end.

Definition um_size m : Z := Z.of_nat (length m).
Definition um_keys m : list string := m.*1.

Definition um_ok m : Prop := NoDup (um_keys m).
Definition um_map m : gmap string V := list_to_map m.

#[global] Arguments um_map : simpl never.

Lemma um_map_nil : um_map [] = ∅.
Proof. done. Qed.

Lemma um_map_cons k v m : um_map ((k, v) :: m) = <[k := v]> (um_map m).
Proof. done. Qed.

(** ** Lookup *)

Lemma um_find_map k m : um_find k m = um_map m !! k.
Proof.
  induction m as [|[k' v] m IH]; [done|].
  cbn [um_find]. rewrite um_map_cons, IH. case_bool_decide as E.
  - subst. symmetry. apply lookup_insert_eq.
  - symmetry. by apply lookup_insert_ne.
Qed.

Lemma um_find_Some k m v : um_find k m = Some v → (k, v) ∈ m.
Proof.
  induction m as [|[k' v'] m IH]; simpl; [done|].
  case_bool_decide as E; [intros [= ->]; subst; left|right; auto].
Qed.

Lemma um_find_None k m : um_find k m = None ↔ k ∉ um_keys m.
Proof.
  unfold um_keys. induction m as [|[k' v'] m IH]; simpl;
    [split; [intros _; apply not_elem_of_nil|done]|].
  rewrite not_elem_of_cons. case_bool_decide as E.
  - subst. split; [done|]. by intros [[] _].
  - rewrite IH. split; [|by intros [_ ?]]. intros ?. split; [congruence|done].
Qed.

Lemma um_find_elem k v m : um_ok m → (k, v) ∈ m → um_find k m = Some v.
Proof.
  unfold um_ok, um_keys. induction m as [|[k' v'] m IH]; [by intros _ ?%not_elem_of_nil|].
  rewrite fmap_cons. intros [Hn Hok]%list.NoDup_cons. simpl in *. intros [[= -> ->]|Hin]%elem_of_cons.
  - by rewrite bool_decide_eq_true_2.
  - rewrite bool_decide_eq_false_2; [auto|].
    intros ->. apply Hn. by apply (list_elem_of_fmap_2 fst) in Hin.
Qed.

(** ** The operations on the finite map *)

Lemma um_index_map d f k m :
  um_map (um_index d f k m) = <[k := f (default d (um_find k m))]> (um_map m).
Proof.
  induction m as [|[k' v] m IH]; [done|]. simpl. case_bool_decide as E.
  - subst. rewrite !um_map_cons. simpl. by rewrite insert_insert_eq.
  - rewrite !um_map_cons, IH. by apply insert_insert_ne.
Qed.

Lemma um_erase_map k m : um_ok m → um_map (um_erase k m) = delete k (um_map m).
Proof.
  unfold um_ok, um_keys. induction m as [|[k' v] m IH]; [by rewrite um_map_nil, delete_empty|].
  rewrite fmap_cons. intros [Hn Hok]%list.NoDup_cons. simpl in *.
  rewrite um_map_cons. case_bool_decide as E.
  - subst. rewrite delete_insert_eq. symmetry. apply delete_id.
    rewrite <-um_find_map. by apply um_find_None.
  - rewrite delete_insert_ne by congruence. by rewrite um_map_cons, IH.
Qed.

Lemma um_map_app m1 m2 : um_map (m1 ++ m2) = um_map m1 ∪ um_map m2.
Proof. apply list_to_map_app. Qed.

Lemma um_emplace_map k v m :
  um_map (um_emplace k v m) = if um_contains k m then um_map m else <[k := v]> (um_map m).
Proof.
  unfold um_emplace, um_contains. case_bool_decide as E; [done|].
  rewrite um_map_app, um_map_cons, um_map_nil, insert_empty.
  symmetry. apply insert_union_singleton_r.
  rewrite <-um_find_map. by apply eq_None_not_Some.
Qed.

Lemma um_size_map m : um_ok m → um_size m = Z.of_nat (size (um_map m)).
Proof.
  intros Hok. unfold um_size. f_equal. unfold um_map.
  rewrite <-size_dom, dom_list_to_map_L, size_list_to_set by done.
  symmetry. apply length_fmap.
Qed.

(** ** Distinct keys *)

Lemma um_index_keys d f k m :
  um_keys (um_index d f k m) = if um_contains k m then um_keys m else um_keys m ++ [k].
Proof.
  unfold um_contains, um_keys. induction m as [|[k' v] m IH]; simpl; [done|].
  destruct (decide (k' = k)) as [E|E].
  - by rewrite !(bool_decide_eq_true_2 (k' = k)) by done.
  - rewrite !(bool_decide_eq_false_2 (k' = k)) by done. rewrite fmap_cons, IH.
    by destruct (bool_decide (is_Some _)).
Qed.

Lemma um_ok_snoc k (l : list string) : NoDup l → k ∉ l → NoDup (l ++ [k]).
Proof.
  intros. apply list.NoDup_app. split_and!; [done| |apply NoDup_singleton].
  intros x ? ->%list_elem_of_singleton. done.
Qed.

Lemma um_index_ok d f k m : um_ok m → um_ok (um_index d f k m).
Proof.
  unfold um_ok. intros Hok. rewrite um_index_keys. unfold um_contains.
  case_bool_decide as E; [done|]. apply um_ok_snoc; [done|].
  apply um_find_None. by apply eq_None_not_Some.
Qed.

Lemma um_emplace_ok k v m : um_ok m → um_ok (um_emplace k v m).
Proof.
  unfold um_ok, um_emplace, um_contains. intros Hok. case_bool_decide as E; [done|].
  unfold um_keys. rewrite fmap_app. apply um_ok_snoc; [done|].
  apply um_find_None. by apply eq_None_not_Some.
Qed.

Lemma um_erase_keys_subset k m x : x ∈ um_keys (um_erase k m) → x ∈ um_keys m.
Proof.
  unfold um_keys. induction m as [|[k' v] m IH]; simpl; [done|].
  case_bool_decide; simpl; rewrite !elem_of_cons; [by right|]. intros [?|?]; auto.
Qed.

Lemma um_erase_ok k m : um_ok m → um_ok (um_erase k m).
Proof.
  unfold um_ok, um_keys. induction m as [|[k' v] m IH]; simpl; [done|].
  intros [Hn Hok]%list.NoDup_cons. case_bool_decide; [done|]. simpl. apply list.NoDup_cons.
  split; [|auto]. contradict Hn. by apply (um_erase_keys_subset k).
Qed.

Lemma um_ok_nil : um_ok [].
Proof. apply NoDup_nil_2. Qed.

Lemma um_index_fresh d f k m :
  k ∉ um_keys m → um_index d f k m = m ++ [(k, f d)].
Proof.
  unfold um_keys. induction m as [|[k' v] m IH]; simpl; [done|].
  rewrite not_elem_of_cons. intros [??]. rewrite bool_decide_eq_false_2 by congruence.
  f_equal. auto.
Qed.

Lemma um_index_elem d f k m x :
  x ∈ um_index d f k m → x ∈ m ∨ ∃ v, x = (k, f v) ∧ (v = d ∨ (k, v) ∈ m).
Proof.
  induction m as [|[k' v] m IH]; simpl.
  - intros ->%list_elem_of_singleton. eauto.
  - case_bool_decide as E; rewrite !elem_of_cons.
    + subst. intros [->|?]; [|auto]. right. exists v. rewrite elem_of_cons. auto.
    + intros [->|Hin]; [auto|]. destruct (IH Hin) as [?|(w & -> & [->|?])]; [auto| |];
        right; eexists; rewrite elem_of_cons; eauto.
Qed.
Lemma um_find_index d f k k' m :
  um_find k (um_index d f k' m) =
  if decide (k = k') then Some (f (default d (um_find k' m))) else um_find k m.
Proof.
  rewrite um_find_map, um_index_map. case_decide as E.
  - subst. apply lookup_insert_eq.
  - rewrite lookup_insert_ne by congruence. by rewrite um_find_map.
Qed.

Lemma um_find_erase k k' m :
  um_ok m → um_find k (um_erase k' m) = if decide (k = k') then None else um_find k m.
Proof.
  intros Hok. rewrite !um_find_map, um_erase_map by done. case_decide as E.
  - subst. apply lookup_delete_eq.
  - by apply lookup_delete_ne.
Qed.

(** ** Iteration order

    Two lists of the same elements answer every lookup alike, and stay lists of
    the same elements under every operation. *)

#[global] Instance um_keys_perm : Proper ((≡ₚ) ==> (≡ₚ)) um_keys.
Proof. intros m m' Hp. unfold um_keys. by rewrite Hp. Qed.

Lemma um_ok_perm m m' : m ≡ₚ m' → um_ok m → um_ok m'.
Proof. intros Hp. unfold um_ok. by rewrite Hp. Qed.

Lemma um_map_perm m m' : um_ok m → m ≡ₚ m' → um_map m = um_map m'.
Proof. intros Hok Hp. by apply list_to_map_proper. Qed.

Lemma um_map_inj m m' : um_ok m → um_ok m' → um_map m = um_map m' → m ≡ₚ m'.
Proof. apply list_to_map_inj. Qed.

Lemma um_find_perm k m m' : um_ok m → m ≡ₚ m' → um_find k m = um_find k m'.
Proof. intros Hok Hp. by rewrite !um_find_map, (um_map_perm m m'). Qed.

Lemma um_contains_perm k m m' : um_ok m → m ≡ₚ m' → um_contains k m = um_contains k m'.
Proof. intros Hok Hp. unfold um_contains. by rewrite (um_find_perm k m m'). Qed.

Lemma um_size_perm m m' : m ≡ₚ m' → um_size m = um_size m'.
Proof. intros Hp. unfold um_size. by rewrite Hp. Qed.

Lemma um_index_perm d f k m m' :
  um_ok m → m ≡ₚ m' → um_index d f k m ≡ₚ um_index d f k m'.
Proof.
  intros Hok Hp. pose proof (um_ok_perm _ _ Hp Hok).
  apply um_map_inj; [by apply um_index_ok..|].
  by rewrite !um_index_map, (um_find_perm k m m'), (um_map_perm m m').
Qed.

Lemma um_emplace_perm k v m m' :
  um_ok m → m ≡ₚ m' → um_emplace k v m ≡ₚ um_emplace k v m'.
Proof.
  intros Hok Hp. unfold um_emplace. rewrite (um_contains_perm k m m') by done.
  case_match; by rewrite Hp.
Qed.

Lemma um_erase_perm k m m' : um_ok m → m ≡ₚ m' → um_erase k m ≡ₚ um_erase k m'.
Proof.
  intros Hok Hp. pose proof (um_ok_perm _ _ Hp Hok).
  apply um_map_inj; [by apply um_erase_ok..|].
  by rewrite !um_erase_map, (um_map_perm m m').
Qed.
End UnorderedMap.

Create HintDb umap.
#[export] Hint Resolve um_index_ok um_emplace_ok um_erase_ok um_ok_nil : umap.

(** A map of the values keeps keys and order. *)
Lemma um_keys_fmap {V W} (f : V → W) (m : list (string * V)) :
  um_keys (prod_map id f <$> m) = um_keys m.
Proof. unfold um_keys. rewrite <-list_fmap_compose. by apply list_fmap_ext. Qed.

Lemma um_find_fmap {V W} (f : V → W) k (m : list (string * V)) :
  um_find k (prod_map id f <$> m) = f <$> um_find k m.
Proof.
  induction m as [|[k' v] m IH]; [done|]. cbn. case_bool_decide; [done|]. apply IH.
Qed.

Lemma um_ok_fmap {V W} (f : V → W) (m : list (string * V)) :
  um_ok m → um_ok (prod_map id f <$> m).
Proof. unfold um_ok. by rewrite um_keys_fmap. Qed.
