(* ===== verification/Value.v ===== *)
(** * value and the wire format of values and containers

    [internal/value.h], [internal/value.cpp] and the serialization half of
    [internal/thread_safe_container.cpp].

    A [value C] is a [class value] that owns the elements of its arrays and whose
    nested containers are named by [C]: [tree] for what the deserializer builds,
    which allocates every element and every nested container afresh and so owns
    them all.  Copying a value copies its elements too.  [value.serialize] takes
    the serializer of the nested containers as an argument, the way the C++ code
    calls [thread_safe_container::serialize]; [tree_serialize] ties the knot for
    trees.  Values a program builds may share containers and array elements or
    reach themselves: for these ValueHeap has both as addresses.

    A read outside a vector is [Undef]; sums of [size_t] are exact (a vector
    holds fewer than 2^63 bytes, lengths on the wire are below 2^32).  Running
    out of memory ([reserve] of a huge count) and the statistics counters of a
    [value] are not part of the model.  LP64: [int64_t] is [long]. *)

From S2P Require Import Prelude Bytes Float Types UnorderedMap.
#[local] Set Warnings "-register-all".

(** ** Data *)

(** The alternatives of [ValueVariant]: a container pointer that may be null,
    and an array of [shared_ptr<value>]s that may be null. *)
Inductive value (C : Type) : Type :=
  Value { name_ : string; data_ : variant (option C) (list (option (value C))) }.
Arguments Value {C} _ _.
Arguments name_ {C} _.
Arguments data_ {C} _.

Abbreviation ValueVariant C := (variant (option C) (list (option (value C)))).

(** The address of a container. *)
Definition loc := positive.

(** A thread_safe_container that owns its nested containers: its [values_]. *)
Inductive tree : Type := Tree { entries : list (string * value tree) }.

Module value.

(** [value(name)] *)
Definition of_name {C} (name : string) : value C := Value name V_null.

(** [type()] *)
Definition type {C} (v : value C) : value_types := variant_type (data_ v).
Definition is_null {C} (v : value C) : bool := type_index (type v) =? 0.

(** The copy constructor.  Copying an array copies its elements and skips those
    that are null. *)
Fixpoint copy {C} (v : value C) : value C :=
  Value (name_ v)
    match data_ v with
    | V_array l =>
        V_array ((fix copy_array (l : list (option (value C))) :=
          match l with
          | [] => []
          | Some e :: l => Some (copy e) :: copy_array l
          | None :: l => copy_array l
          end) l)
    | d => d
    end.
Definition copy_data {C} (d : ValueVariant C) : ValueVariant C := data_ (copy (Value "" d)).

(** [get<T>()]: a copy of the contents when [T] is the alternative [ty]; [set<T>(d)]. *)
Definition get {C} (ty : value_types) (v : value C) : option (ValueVariant C) :=
  if decide (type v = ty) then Some (copy_data (data_ v)) else None.
Definition set {C} (d : ValueVariant C) (v : value C) : value C := Value (name_ v) d.

(** Move assignment: the name of the target is [const] and stays; copy assignment. *)
Definition assign {C} (target source : value C) : value C :=
  Value (name_ target) (data_ source).
Definition copy_assign {C} (target source : value C) : value C := assign target (copy source).

(** [operator==] of two objects; [same] says that they are one object. *)
Section Compare.
Context {C : Type} (same_ptr : option C → option C → bool).

Fixpoint eqb (v w : value C) : bool :=
  bool_decide (name_ v = name_ w) &&
  variant_eqb same_ptr
    (λ a b, (Z.of_nat (length a) =? Z.of_nat (length b)) &&
       (fix array_eqb (a b : list (option (value C))) : bool :=
          match a, b with
          | x :: a, y :: b =>
              match x, y with
              | None, None => true
              | Some x, Some y => eqb x y
              | _, _ => false
              end && array_eqb a b
          | _, _ => true
          end) a b)
    (data_ v) (data_ w).

Definition operator_eq (same : bool) (v w : value C) : bool :=
  if same then true else eqb v w.
End Compare.

(** *** Serialization *)

Section Serialize.
Context {C : Type}.

(** [serialize_data]. [ser_container c] is [None] when [c] is being serialized
    by an enclosing call (the guard reports a circular reference). *)
Definition serialize_data (ser_container : C → option (list byte))
    (ser_value : value C → list byte) (data : ValueVariant C) : list byte :=
  match data with
  | V_null => []
  | V_bool b => [to_u8 (if b then 1 else 0)]
  | V_short z | V_ushort z => le_bytes 2 z
  | V_int z | V_uint z | V_float z => le_bytes 4 z
  | V_long z | V_ulong z | V_llong z | V_ullong z | V_double z => le_bytes 8 z
  | V_string s => put_u32 (str_len s) ++ str_bytes s
  | V_bytes bs => put_u32 (Z.of_nat (length bs)) ++ bs
  | V_container (Some c) =>
      match ser_container c with
      | None => put_u32 0
      | Some container_data => put_block container_data
      end
  | V_container None => put_u32 0
  | V_array values =>
      put_u32 (Z.of_nat (length values)) ++
      concat (map (λ elem, match elem with
                           | Some elem => ser_value elem
                           | None => put_u32 0 ++ [to_u8 0]
                           end) values)
  end.

Fixpoint serialize (ser_container : C → option (list byte)) (v : value C) : list byte :=
  put_u32 (str_len (name_ v)) ++ str_bytes (name_ v)
  ++ [to_u8 (type_index (variant_type (data_ v)))]
  ++ serialize_data ser_container (serialize ser_container) (data_ v).
End Serialize.
End value.

(** [thread_safe_container::serialize] of the elements in iteration order. *)
Definition serialize_entries {C} (ser_value : value C → list byte)
    (values : list (string * value C)) : list byte :=
  put_u32 (Z.of_nat (length values)) ++
  concat (map (λ kv : string * value C,
    put_u32 (str_len kv.1) ++ str_bytes kv.1 ++ put_block (ser_value kv.2)) values).

Fixpoint tree_serialize (t : tree) : list byte :=
  serialize_entries (value.serialize (λ c, Some (tree_serialize c))) (entries t).

Definition serialize_value (v : value tree) : list byte :=
  value.serialize (λ c, Some (tree_serialize c)) v.

(** ** Deserialization *)

(** [values_[key] = v]: the element keeps the name it has. *)
Definition assign_entry (key : string) (v : value tree) (values : list (string * value tree))
    : list (string * value tree) :=
  um_index (value.of_name "") (λ old, value.assign old v) key values.

Section Deserialize.
(** [container->values_[key] = std::move(v)].  Where the element lands in the
    iteration order is the library's choice: [assign_entry] is one. *)
Variable insert : string → value tree → list (string * value tree) → list (string * value tree).
(** The recursive call of [value::deserialize]. *)
Variable deserialize : list byte → res (option (value tree)).

(** The loop of [thread_safe_container::deserialize] from iteration [i] on. *)
Fixpoint entries_loop (fuel : nat) (i count : Z) (data : list byte) (offset : Z)
    (values : list (string * value tree)) : res (option (list (string * value tree))) :=
  match fuel with
  | O => NoFuel
  | S fuel =>
      if i <? count then
        need data offset 4 (
        let? key_len := get_le data offset 4 in
        let offset := offset + 4 in
        need data offset (key_len + 4) (
        let? key := sub data offset (offset + key_len) in
        let offset := offset + key_len in
        let? value_len := get_le data offset 4 in
        let offset := offset + 4 in
        need data offset value_len (
        let? value_data := sub data offset (offset + value_len) in
        let offset := offset + value_len in
        let? value_opt := deserialize value_data in
        let values :=
          match value_opt with
          | Some v => insert (bytes_str key) v values
          | None => values
          end in
        entries_loop fuel (i + 1) count data offset values)))
      else Val (Some values)
  end.

(** [thread_safe_container::deserialize]; [None] is the null pointer. *)
Definition container_deserialize (data : list byte) : res (option tree) :=
  need data 0 4 (
  let? count := get_le data 0 4 in
  let? r := entries_loop (S (length data)) 0 count data 4 [] in
  Val (Tree <$> r)).

(** The array loop of [deserialize_data] from iteration [i] on: the offset moves
    by the size of the element serialized again. *)
Fixpoint array_loop (fuel : nat) (i count : Z) (data : list byte) (offset : Z)
    (values : list (option (value tree)))
    : res (option (list (option (value tree)) * Z)) :=
  match fuel with
  | O => NoFuel
  | S fuel =>
      if i <? count then
        let? rest := sub data offset (Z.of_nat (length data)) in
        let? elem := deserialize rest in
        match elem with
        | None => Val None
        | Some elem =>
            array_loop fuel (i + 1) count data
              (offset + Z.of_nat (length (serialize_value elem))) (values ++ [Some elem])
        end
      else Val (Some (values, offset))
  end.

(** The cases that [memcpy] a number of [n] bytes. *)
Definition fixed (data : list byte) (offset n : Z) (mk : Z → ValueVariant tree)
    : res (option (ValueVariant tree * Z)) :=
  need data offset n (let? z := get_le data offset n in Val (Some (mk z, offset + n))).

(** The cases that read a length and then that many bytes. *)
Definition sized (data : list byte) (offset : Z) (mk : list byte → ValueVariant tree)
    : res (option (ValueVariant tree * Z)) :=
  need data offset 4 (
  let? size := get_le data offset 4 in
  let offset := offset + 4 in
  need data offset size (
  let? bs := sub data offset (offset + size) in
  Val (Some (mk bs, offset + size)))).

(** [value::deserialize_data]: the new [data_] and offset, [None] for [false]. *)
Definition deserialize_data (ty : value_types) (data : list byte) (offset : Z)
    : res (option (ValueVariant tree * Z)) :=
  match ty with
  | null_value => Val (Some (V_null, offset))
  | bool_value =>
      need data offset 1 (
      let? b := get_le data offset 1 in Val (Some (V_bool (negb (b =? 0)), offset + 1)))
  | short_value => fixed data offset 2 (λ z, V_short (swrap 16 z))
  | ushort_value => fixed data offset 2 (λ z, V_ushort z)
  | int_value => fixed data offset 4 (λ z, V_int (swrap 32 z))
  | uint_value => fixed data offset 4 (λ z, V_uint z)
  | long_value | llong_value => fixed data offset 8 (λ z, V_long (swrap 64 z))
  | ulong_value | ullong_value => fixed data offset 8 (λ z, V_ulong z)
  | float_value => fixed data offset 4 (λ z, V_float z)
  | double_value => fixed data offset 8 (λ z, V_double z)
  | bytes_value => sized data offset (λ bs, V_bytes bs)
  | string_value => sized data offset (λ bs, V_string (bytes_str bs))
  | container_value =>
      need data offset 4 (
      let? size := get_le data offset 4 in
      let offset := offset + 4 in
      if size =? 0 then Val (Some (V_container None, offset))
      else
        need data offset size (
        let? container_data := sub data offset (offset + size) in
        let? container := container_deserialize container_data in
        Val (Some (V_container container, offset + size))))
  | array_value =>
      need data offset 4 (
      let? count := get_le data offset 4 in
      let? r := array_loop (S (length data)) 0 count data (offset + 4) [] in
      match r with
      | None => Val None
      | Some (values, offset) => Val (Some (V_array values, offset))
      end)
  end.

(** The body of [value::deserialize]. *)
Definition deserialize_step (data : list byte) : res (option (value tree)) :=
  if Z.of_nat (length data) <? 4 + 1 then Val None
  else
    let? name_len := get_le data 0 4 in
    need data 4 (name_len + 1) (
    let? name := sub data 4 (4 + name_len) in
    let offset := 4 + name_len in
    let? type_byte := get_le data offset 1 in
    match type_of_index type_byte with
    | None => Val None
    | Some type =>
        let? r := deserialize_data type data (offset + 1) in
        match r with
        | None => Val None
        | Some (d, _) => Val (Some (Value (bytes_str name) d))
        end
    end).
End Deserialize.

Section Calls.
Variable insert : string → value tree → list (string * value tree) → list (string * value tree).

(** [value::deserialize]; [depth] bounds the nesting of the calls. *)
Fixpoint deserialize_depth (depth : nat) (data : list byte) : res (option (value tree)) :=
  match depth with
  | O => NoFuel
  | S depth => deserialize_step insert (deserialize_depth depth) data
  end.

Definition value_deserialize_by (data : list byte) : res (option (value tree)) :=
  deserialize_depth (S (length data)) data.

(** [thread_safe_container::deserialize] *)
Definition tree_deserialize_by (data : list byte) : res (option tree) :=
  container_deserialize insert value_deserialize_by data.
End Calls.

(** With one iteration order; ValueOrder.v shows that the choice does not matter. *)
Definition value_deserialize : list byte → res (option (value tree)) :=
  value_deserialize_by assign_entry.
Definition tree_deserialize : list byte → res (option tree) := tree_deserialize_by assign_entry.

(** [value(name, type, raw_data)]: null when the data does not decode. *)
Definition value_of_raw (name : string) (ty : value_types) (raw_data : list byte)
    : res (value tree) :=
  let? r := deserialize_data assign_entry value_deserialize ty raw_data 0 in
  Val (Value name (match r with Some (d, _) => d | None => V_null end)).
