(* ===== verification/ValueFacts.v ===== *)
(** * Facts about the wire format of values and containers

    - Safety: on arbitrary bytes the deserializers return, read nothing outside
      the vector, and what they return serializes to no more bytes than were
      given ([value_deserialize_in], [tree_deserialize_in]); the last part is why
      the array loop, which moves by the size of the element serialized again,
      cannot form an iterator past the end.
    - The deserializer satisfies its own equation ([value_deserialize_step]). *)

From S2P Require Import Prelude Bytes Float Types UnorderedMap Value.

Abbreviation size_of v := (Z.of_nat (length (serialize_value v))).
Abbreviation tsize t := (Z.of_nat (length (tree_serialize t))).

(** ** Values of any kind of container *)

Section ValueInd.
Context {C : Type} (P : value C → Prop).
Hypothesis step : ∀ name d, (∀ l e, d = V_array l → Some e ∈ l → P e) → P (Value name d).

Lemma value_ind' : ∀ v, P v.
Proof.
  fix IH 1. intros [name d]. apply step. destruct d as [| | | | | | | | | | | | | | |l];
    try (clear IH; discriminate).
  assert (∀ e, Some e ∈ l → P e) as Hl; [|intros l' e [= <-]; apply Hl].
  induction l as [|o l IHl]; intros e He.
  - clear IH. exfalso. by apply not_elem_of_nil in He.
  - destruct o as [w|].
    + pose proof (IH w) as Hw. clear IH.
      apply elem_of_cons in He as [[= ->]|He]; [exact Hw|exact (IHl e He)].
    + clear IH. apply elem_of_cons in He as [E|He]; [discriminate E|exact (IHl e He)].
Qed.
End ValueInd.

Lemma map_ext_elem {A B} (f g : A → B) l : (∀ x, x ∈ l → f x = g x) → map f l = map g l.
Proof. intros H. apply map_ext_in. intros x Hx%list_elem_of_In. auto. Qed.

Section ValueMap.
Context {C D : Type} (f : C → D).

Fixpoint value_map (v : value C) : value D :=
  Value (name_ v) (variant_map (option_map f) (map (option_map value_map)) (data_ v)).
End ValueMap.

Lemma serialize_map {C D} (f : C → D) (g : D → option (list byte)) v :
  value.serialize g (value_map f v) = value.serialize (λ c, g (f c)) v.
Proof.
  induction v as [name d IH] using value_ind'.
  destruct d as [| | | | | | | | | | | | | |[c|]|l]; try done.
  cbn [value_map value.serialize name_ data_ variant_map variant_type]. do 3 f_equal.
  unfold value.serialize_data. rewrite length_map, map_map. do 2 f_equal.
  apply map_ext_elem. intros [e|] He; [|done]. by apply (IH l e).
Qed.

(** ** Sizes *)

Definition entry_bytes (kv : string * value tree) : list byte :=
  put_u32 (str_len kv.1) ++ str_bytes kv.1 ++ put_block (serialize_value kv.2).

Lemma tree_serialize_eq t :
  tree_serialize t =
  put_u32 (Z.of_nat (length (entries t))) ++ concat (map entry_bytes (entries t)).
Proof. by destruct t. Qed.

Definition data_bytes (d : ValueVariant tree) : list byte :=
  value.serialize_data (λ c, Some (tree_serialize c)) serialize_value d.

Lemma serialize_value_eq v :
  serialize_value v =
  put_u32 (str_len (name_ v)) ++ str_bytes (name_ v)
  ++ [to_u8 (type_index (variant_type (data_ v)))] ++ data_bytes (data_ v).
Proof. by destruct v. Qed.

Lemma size_of_eq v :
  size_of v = 5 + str_len (name_ v) + Z.of_nat (length (data_bytes (data_ v))).
Proof.
  rewrite serialize_value_eq, !length_app, length_put_u32. unfold str_len. simpl. lia.
Qed.

Lemma str_len_nonneg s : 0 ≤ str_len s.
Proof. unfold str_len. lia. Qed.

Lemma size_of_min v : 5 ≤ size_of v.
Proof. rewrite size_of_eq. pose proof (str_len_nonneg (name_ v)). lia. Qed.

Definition elem_bytes (o : option (value tree)) : list byte :=
  match o with Some e => serialize_value e | None => put_u32 0 ++ [to_u8 0] end.

Lemma data_bytes_array l :
  data_bytes (V_array l) =
  put_u32 (Z.of_nat (length l)) ++ concat (map elem_bytes l).
Proof. done. Qed.

Lemma length_container_bytes c :
  Z.of_nat (length (data_bytes (V_container c))) =
  4 + from_option (λ t, tsize t) 0 c.
Proof.
  destruct c as [t|]; unfold data_bytes, value.serialize_data, from_option, default.
  - rewrite length_put_block. lia.
  - by rewrite length_put_u32.
Qed.

Definition entries_size (m : list (string * value tree)) : Z :=
  Z.of_nat (length (concat (map entry_bytes m))).

Lemma entries_size_cons kv m :
  entries_size (kv :: m) = 8 + str_len kv.1 + size_of kv.2 + entries_size m.
Proof.
  unfold entries_size. cbn [map concat]. rewrite length_app. unfold entry_bytes.
  rewrite !length_app, length_put_block, length_put_u32. unfold str_len. lia.
Qed.

Lemma tsize_eq t : tsize t = 4 + entries_size (entries t).
Proof.
  rewrite tree_serialize_eq, length_app, length_put_u32. unfold entries_size. lia.
Qed.

(** Every entry of a map the deserializer builds is nameless: assignment keeps the
    name of the default-constructed target. *)
Definition nameless (m : list (string * value tree)) : Prop :=
  Forall (λ kv, name_ kv.2 = ""%string) m.

Abbreviation um_assign := assign_entry.

Lemma assign_entry_fresh k v m :
  k ∉ um_keys m → um_assign k v m = m ++ [(k, Value "" (data_ v))].
Proof. intros Hk. unfold assign_entry. by rewrite um_index_fresh. Qed.

Lemma um_assign_size k v m :
  nameless m →
  nameless (um_assign k v m) ∧
  entries_size (um_assign k v m) ≤ entries_size m + 8 + str_len k + size_of v.
Proof.
  assert (∀ old, name_ old = ""%string → size_of (value.assign old v) ≤ size_of v) as Hsz.
  { intros old E. rewrite !size_of_eq. simpl. rewrite E.
    pose proof (str_len_nonneg (name_ v)). change (str_len "") with 0. lia. }
  pose proof (str_len_nonneg k).
  induction m as [|[k' v'] m IH]; intros Hm; unfold assign_entry in *; cbn [um_index].
  - split; [by constructor|]. rewrite entries_size_cons. cbn [fst snd].
    specialize (Hsz (value.of_name "") eq_refl). change (entries_size []) with 0. lia.
  - apply list.Forall_cons in Hm as [H1 Hm]. simpl in H1. case_bool_decide.
    + split; [by constructor|]. rewrite !entries_size_cons. cbn [fst snd].
      specialize (Hsz v' H1). pose proof (size_of_min v'). lia.
    + destruct (IH Hm) as [??]. split; [by constructor|].
      rewrite !entries_size_cons. lia.
Qed.

(** ** Safety and termination of the deserializers *)

(** What a deserializer of values does with [data]: it returns, and a value it
    returns serializes to at most [length data] bytes. *)
Definition decodes_within (r : res (option (value tree))) (n : Z) : Prop :=
  ∃ o, r = Val o ∧ from_option (λ v, size_of v ≤ n) True o.

Section Safety.
(** The bound below which the recursive calls are known to behave. *)
Context (deser : list byte → res (option (value tree))) (bound : Z).
Hypothesis deser_ok : ∀ data,
  Z.of_nat (length data) < bound → decodes_within (deser data) (Z.of_nat (length data)).

Lemma entries_loop_in fuel i count data offset m :
  Z.of_nat (length data) < bound →
  0 ≤ offset ≤ Z.of_nat (length data) → nameless m →
  Z.of_nat (length data) - offset < Z.of_nat fuel →
  ∃ r, entries_loop assign_entry deser fuel i count data offset m = Val r ∧
    from_option (λ m', nameless m' ∧
      entries_size m' ≤ entries_size m + (Z.of_nat (length data) - offset)) True r.
Proof.
  intros Hb. revert i offset m. induction fuel as [|fuel IH]; intros i offset m Ho Hm Hf; [lia|].
  cbn [entries_loop]. destruct (i <? count); [|exists (Some m); split; [done|split; [done|lia]]].
  apply need_in; [done|]. intros H1.
  destruct (get_le_in data offset 4) as (kl & -> & Hkl); [lia..|]. cbn [res_bind].
  apply need_in; [done|]. intros H2.
  destruct (sub_in data (offset + 4) (offset + 4 + kl)) as (key & -> & Hkey); [lia..|].
  cbn [res_bind]. destruct (get_le_in data (offset + 4 + kl) 4) as (vl & -> & Hvl); [lia..|].
  cbn [res_bind]. apply need_in; [done|]. intros H3.
  destruct (sub_in data (offset + 4 + kl + 4) (offset + 4 + kl + 4 + vl))
    as (vd & -> & Hvd); [lia..|]. cbn [res_bind].
  destruct (deser_ok vd) as (o & -> & Hv); [lia|]. cbn [res_bind].
  destruct o as [v|]; simpl in Hv.
  - destruct (um_assign_size (bytes_str key) v m Hm) as [Hn Hs].
    unfold str_len in Hs at 1. rewrite str_bytes_str in Hs.
    destruct (IH (i + 1) (offset + 4 + kl + 4 + vl) (um_assign (bytes_str key) v m))
      as (r & -> & Hr); [lia|done|lia|].
    exists r. split; [done|]. destruct r as [m'|]; [|done]. simpl in *.
    destruct Hr. split; [done|lia].
  - destruct (IH (i + 1) (offset + 4 + kl + 4 + vl) m) as (r & -> & Hr); [lia|done|lia|].
    exists r. split; [done|]. destruct r as [m'|]; [|done]. simpl in *.
    destruct Hr. split; [done|lia].
Qed.

Lemma container_deserialize_in data :
  Z.of_nat (length data) < bound →
  ∃ r, container_deserialize assign_entry deser data = Val r ∧
    from_option (λ t, tsize t ≤ Z.of_nat (length data) ∧ nameless (entries t)) True r.
Proof.
  intros Hb. unfold container_deserialize. apply need_in; [done|]. intros H1.
  destruct (get_le_in data 0 4) as (count & -> & _); [lia..|]. cbn [res_bind].
  destruct (entries_loop_in (S (length data)) 0 count data 4 []) as (r & -> & Hr);
    [done|lia|by constructor|lia|].
  cbn [res_bind]. destruct r as [m|]; [|by exists None].
  exists (Some (Tree m)). split; [done|]. destruct Hr as [Hn Hs]. cbv beta iota delta [from_option default].
  rewrite tsize_eq. cbn [entries]. change (entries_size []) with 0 in Hs. split; [lia|done].
Qed.

Definition elems_size (l : list (option (value tree))) : Z :=
  Z.of_nat (length (concat (map elem_bytes l))).

Lemma array_loop_in fuel i count data offset l :
  Z.of_nat (length data) - offset < bound →
  0 ≤ offset ≤ Z.of_nat (length data) →
  Z.of_nat (length data) - offset < Z.of_nat fuel →
  ∃ r, array_loop deser fuel i count data offset l = Val r ∧
    from_option (λ '(l', offset'), offset ≤ offset' ≤ Z.of_nat (length data) ∧
      elems_size l' = elems_size l + (offset' - offset)) True r.
Proof.
  revert i offset l. induction fuel as [|fuel IH]; intros i offset l Hb Ho Hf; [lia|].
  cbn [array_loop]. destruct (i <? count);
    [|exists (Some (l, offset)); split; [done|simpl; lia]].
  destruct (sub_in data offset (Z.of_nat (length data))) as (rest & -> & Hrest); [lia..|].
  cbn [res_bind]. destruct (deser_ok rest) as (o & -> & Hv); [lia|]. cbn [res_bind].
  destruct o as [v|]; [|by exists None]. simpl in Hv. pose proof (size_of_min v).
  destruct (IH (i + 1) (offset + size_of v) (l ++ [Some v])) as (r & -> & Hr); [lia..|].
  exists r. split; [done|]. destruct r as [[l' o']|]; [|done]. simpl in *.
  unfold elems_size in *. rewrite map_app, concat_app, length_app in Hr. simpl in Hr.
  rewrite app_nil_r in Hr. lia.
Qed.

(** The postcondition of [deserialize_data] started at [offset]. *)
Definition data_within (data : list byte) (offset : Z)
    (r : res (option (ValueVariant tree * Z))) : Prop :=
  ∃ o, r = Val o ∧ from_option (λ '(d, offset'),
    offset ≤ offset' ≤ Z.of_nat (length data) ∧
    Z.of_nat (length (data_bytes d)) ≤ offset' - offset) True o.

Lemma fixed_in data offset n mk :
  0 ≤ offset → 0 ≤ n → (∀ z, length (data_bytes (mk z)) = Z.to_nat n) →
  data_within data offset (fixed data offset n mk).
Proof.
  intros Ho Hn Hmk. apply need_in; [done|]. intros H1.
  destruct (get_le_in data offset n) as (z & -> & _); [lia..|]. cbn [res_bind].
  eexists. split; [done|]. cbn. rewrite Hmk. lia.
Qed.

Lemma sized_in data offset mk :
  0 ≤ offset → (∀ bs, length (data_bytes (mk bs)) = (4 + length bs)%nat) →
  data_within data offset (sized data offset mk).
Proof.
  intros Ho Hmk. apply need_in; [done|]. intros H1.
  destruct (get_le_in data offset 4) as (z & -> & Hz); [lia..|]. cbn [res_bind].
  apply need_in; [done|]. intros H2.
  destruct (sub_in data (offset + 4) (offset + 4 + z)) as (bs & -> & Hbs); [lia..|].
  cbn [res_bind]. eexists. split; [done|]. cbn. rewrite Hmk. lia.
Qed.

Lemma deserialize_data_in ty data offset :
  Z.of_nat (length data) - offset ≤ bound → Z.of_nat (length data) < bound + 5 →
  0 ≤ offset ≤ Z.of_nat (length data) →
  data_within data offset (deserialize_data assign_entry deser ty data offset).
Proof.
  intros Hb Hb' Ho. destruct ty; cbn [deserialize_data];
    try (apply fixed_in; [lia|lia|]; intros; apply length_le_bytes).
  - exists (Some (V_null, offset)). split; [done|]. simpl. lia.
  - apply need_in; [done|]. intros H1.
    destruct (get_le_in data offset 1) as (z & -> & _); [lia..|].
    eexists. split; [done|]. cbn. lia.
  - apply sized_in; [lia|]. intros bs. cbn. rewrite length_app, length_put_u32.
    by rewrite str_bytes_str.
  - apply sized_in; [lia|]. intros bs. cbn. by rewrite length_app, length_put_u32.
  - apply need_in; [done|]. intros H1.
    destruct (get_le_in data offset 4) as (z & -> & Hz); [lia..|]. cbn [res_bind].
    destruct (Z.eqb_spec z 0) as [->|]; [exists (Some (V_container None, offset + 4)); split; [done|];
      cbv beta iota delta [from_option default]; rewrite length_container_bytes; simpl; lia|].
    apply need_in; [done|]. intros H2.
    destruct (sub_in data (offset + 4) (offset + 4 + z)) as (bs & -> & Hbs); [lia..|].
    cbn [res_bind]. destruct (container_deserialize_in bs) as (r & -> & Hr); [lia|].
    cbn [res_bind]. exists (Some (V_container r, offset + 4 + z)). split; [done|].
    cbv beta iota delta [from_option default]. rewrite length_container_bytes.
    destruct r; cbv beta iota delta [from_option default] in *; lia.
  - apply need_in; [done|]. intros H1.
    destruct (get_le_in data offset 4) as (z & -> & Hz); [lia..|]. cbn [res_bind].
    destruct (array_loop_in (S (length data)) 0 z data (offset + 4) [])
      as (r & -> & Hr); [lia..|]. cbn [res_bind].
    destruct r as [[l o']|]; [|by exists None]. exists (Some (V_array l, o')).
    split; [done|]. simpl in Hr. cbv beta iota delta [from_option default].
    rewrite data_bytes_array, length_app, length_put_u32.
    unfold elems_size in Hr. simpl in Hr. lia.
Qed.

Lemma deserialize_step_in data :
  Z.of_nat (length data) < bound + 5 →
  decodes_within (deserialize_step assign_entry deser data) (Z.of_nat (length data)).
Proof.
  intros Hb. unfold deserialize_step.
  destruct (Z.ltb_spec (Z.of_nat (length data)) (4 + 1)); [by exists None|].
  destruct (get_le_in data 0 4) as (nl & -> & Hnl); [lia..|]. cbn [res_bind].
  apply need_in; [done|]. intros H1.
  destruct (sub_in data 4 (4 + nl)) as (name & -> & Hname); [lia..|]. cbn [res_bind].
  destruct (get_le_in data (4 + nl) 1) as (tb & -> & Htb); [lia..|]. cbn [res_bind].
  destruct (type_of_index tb) as [ty|]; [|by exists None].
  destruct (deserialize_data_in ty data (4 + nl + 1)) as (r & -> & Hr); [lia..|].
  cbn [res_bind]. destruct r as [[d o']|]; [|by exists None].
  exists (Some (Value (bytes_str name) d)). split; [done|]. simpl in Hr.
  cbv beta iota delta [from_option default]. rewrite size_of_eq. cbn [name_ data_].
  unfold str_len. rewrite str_bytes_str. lia.
Qed.
End Safety.

Lemma deserialize_depth_in depth data :
  Z.of_nat (length data) < Z.of_nat depth →
  decodes_within (deserialize_depth assign_entry depth data) (Z.of_nat (length data)).
Proof.
  revert data. induction depth as [|depth IH]; intros data Hd; [lia|].
  apply (deserialize_step_in _ (Z.of_nat depth)); [done|lia].
Qed.

Lemma value_deserialize_in data :
  decodes_within (value_deserialize data) (Z.of_nat (length data)).
Proof. apply deserialize_depth_in. lia. Qed.

Lemma tree_deserialize_in data :
  ∃ r, tree_deserialize data = Val r ∧
    from_option (λ t, tsize t ≤ Z.of_nat (length data) ∧ nameless (entries t)) True r.
Proof.
  apply (container_deserialize_in _ (Z.of_nat (length data) + 1)); [|lia].
  intros. apply value_deserialize_in.
Qed.

(** ** The depth bound disappears: the deserializer satisfies its own equation *)

Section Extensionality.
Context (f g : list byte → res (option (value tree))) (bound : Z).
Hypothesis fg : ∀ data, Z.of_nat (length data) < bound → f data = g data.

Lemma sub_length data a b bs :
  sub data a b = Val bs → 0 ≤ a ∧ a ≤ b ≤ Z.of_nat (length data) ∧ Z.of_nat (length bs) = b - a.
Proof.
  unfold sub. destruct ((0 <=? a) && (a <=? b) && (b <=? _)) eqn:E; [|done].
  intros [= <-]. rewrite length_take, length_drop. lia.
Qed.

Lemma bind_ext {A B} (k1 k2 : A → res B) r :
  (∀ a, r = Val a → k1 a = k2 a) → res_bind k1 r = res_bind k2 r.
Proof. destruct r; simpl; auto. Qed.

Lemma need_ext {A} data o n (k1 k2 : res (option A)) :
  (o + n ≤ Z.of_nat (length data) → k1 = k2) → need data o n k1 = need data o n k2.
Proof.
  unfold need. intros Hk. destruct (Z.ltb_spec (Z.of_nat (length data)) (o + n)); auto.
Qed.

Lemma entries_loop_ext fuel i count data offset m :
  Z.of_nat (length data) < bound →
  entries_loop assign_entry f fuel i count data offset m = entries_loop assign_entry g fuel i count data offset m.
Proof.
  intros Hb. revert i offset m. induction fuel as [|fuel IH]; intros; [done|].
  cbn [entries_loop]. destruct (i <? count); [|done].
  apply need_ext; intros _. apply bind_ext; intros kl _. apply need_ext; intros _.
  apply bind_ext; intros key _. apply bind_ext; intros vl _. apply need_ext; intros _.
  apply bind_ext; intros vd Hvd. apply sub_length in Hvd.
  rewrite fg by lia. apply bind_ext; intros o _. apply IH.
Qed.

Lemma container_deserialize_ext data :
  Z.of_nat (length data) < bound → container_deserialize assign_entry f data = container_deserialize assign_entry g data.
Proof.
  intros Hb. apply need_ext; intros _. apply bind_ext; intros count _.
  by rewrite entries_loop_ext.
Qed.

Lemma array_loop_ext fuel i count data offset l :
  Z.of_nat (length data) < bound + offset →
  array_loop f fuel i count data offset l = array_loop g fuel i count data offset l.
Proof.
  revert i offset l. induction fuel as [|fuel IH]; intros i offset l Hb; [done|].
  cbn [array_loop]. destruct (i <? count); [|done].
  apply bind_ext; intros rest Hrest. apply sub_length in Hrest.
  rewrite fg by lia. apply bind_ext; intros [v|] _; [|done].
  apply IH. lia.
Qed.

Lemma deserialize_step_ext data :
  Z.of_nat (length data) < bound + 5 → deserialize_step assign_entry f data = deserialize_step assign_entry g data.
Proof.
  intros Hb. unfold deserialize_step.
  destruct (Z.of_nat (length data) <? 4 + 1); [done|].
  apply bind_ext; intros nl _. apply need_ext; intros Hn.
  apply bind_ext; intros name Hname. apply sub_length in Hname.
  apply bind_ext; intros tb _. destruct (type_of_index tb) as [ty|]; [|done].
  f_equal. destruct ty; cbn [deserialize_data]; try done.
  - apply need_ext; intros _. apply bind_ext; intros z _. destruct (z =? 0); [done|].
    apply need_ext; intros _. apply bind_ext; intros bs Hbs. apply sub_length in Hbs.
    by rewrite container_deserialize_ext by lia.
  - apply need_ext; intros _. apply bind_ext; intros z _. by rewrite array_loop_ext by lia.
Qed.
End Extensionality.

Lemma deserialize_depth_irrel d1 d2 data :
  (length data < d1)%nat → (length data < d2)%nat →
  deserialize_depth assign_entry d1 data = deserialize_depth assign_entry d2 data.
Proof.
  revert d2 data. induction d1 as [|d1 IH]; intros [|d2] data H1 H2; [lia..|].
  cbn [deserialize_depth]. apply (deserialize_step_ext _ _ (Z.of_nat (length data))); [|lia].
  intros data' ?. apply IH; lia.
Qed.

Lemma value_deserialize_step data :
  value_deserialize data = deserialize_step assign_entry value_deserialize data.
Proof.
  unfold value_deserialize, value_deserialize_by at 1. cbn [deserialize_depth].
  apply (deserialize_step_ext _ _ (Z.of_nat (length data))); [|lia].
  intros data' ?. apply deserialize_depth_irrel; lia.
Qed.
