(* ===== verification/ValueRoundtrip.v ===== *)
(** * Round trips of the value and container wire format

    [value_norm] is what a value becomes on the wire, [value_ok] the values the
    format represents: integers within their types, lengths below 2^32, distinct
    keys, and no named entry in a container inside an array (the array loop of
    [deserialize_data] misreads those, see [array_element_misread]). *)

From S2P Require Import Prelude Bytes Float Types UnorderedMap Value ValueFacts.

(** ** What a value becomes *)

Section Norm.
Variable norm_container : tree → tree.

Definition data_norm (norm_value : value tree → value tree) (d : ValueVariant tree)
    : ValueVariant tree :=
  match d with
  | V_llong z => V_long z
  | V_ullong z => V_ulong z
  | V_container c => V_container (norm_container <$> c)
  | V_array l =>
      V_array (map (λ o, Some (match o with
                               | Some e => norm_value e
                               | None => value.of_name ""
                               end)) l)
  | d => d
  end.

Fixpoint value_norm_with (v : value tree) : value tree :=
  Value (name_ v) (data_norm value_norm_with (data_ v)).
End Norm.

(** A container entry keeps its key; the name of its value is lost. *)
Fixpoint tree_norm (t : tree) : tree :=
  Tree (map (λ kv, (kv.1, Value "" (data_ (value_norm_with tree_norm kv.2)))) (entries t)).

Definition value_norm : value tree → value tree := value_norm_with tree_norm.

(** ** What the format represents *)

Definition small (bs : list byte) : bool := Z.of_nat (length bs) <? 2 ^ 32.
Definition small_str (s : string) : bool := str_len s <? 2 ^ 32.

Section Ok.
(** [strict] inside an array: the entries of containers must be nameless. *)
Variable container_ok : tree → bool → bool.

Definition data_ok (value_ok : value tree → bool → bool) (d : ValueVariant tree)
    (strict : bool) : bool :=
  variant_ok
    (λ c, match c with
          | Some t => container_ok t strict && small (tree_serialize t)
          | None => true
          end)
    (λ l, (Z.of_nat (length l) <? 2 ^ 32) &&
          forallb (λ o, match o with Some e => value_ok e true | None => true end) l) d.

Fixpoint value_ok_with (v : value tree) (strict : bool) : bool :=
  small_str (name_ v) && data_ok value_ok_with (data_ v) strict.
End Ok.

Fixpoint tree_ok (t : tree) (strict : bool) : bool :=
  bool_decide (NoDup (um_keys (entries t))) && (Z.of_nat (length (entries t)) <? 2 ^ 32) &&
  forallb (λ kv : string * value tree,
    small_str kv.1 && implb strict (bool_decide (name_ kv.2 = ""%string)) &&
    value_ok_with tree_ok kv.2 strict && small (serialize_value kv.2)) (entries t).

Definition value_ok (v : value tree) : bool := value_ok_with tree_ok v false.

(** ** The round trip, by induction on the depth *)

Lemma type_byte ty : to_u8 (type_index ty) = to_u8 (type_index ty) ∧
  le_val [to_u8 (type_index ty)] = type_index ty.
Proof. split; [done|]. by destruct ty. Qed.

(** A value whose wire bytes are at [offset] is recognised by [deser]. *)
Definition reads_value (deser : list byte → res (option (value tree))) (v : value tree) : Prop :=
  ∀ rest, deser (serialize_value v ++ rest) = Val (Some (value_norm v)).

Lemma size_of_norm_nameless v :
  size_of (Value "" (data_ (value_norm v)))
  = 5 + Z.of_nat (length (data_bytes (data_ (value_norm v)))).
Proof. rewrite size_of_eq. cbn [name_ data_]. by change (str_len "") with 0. Qed.

(** Where the six reads of one entry find its parts. *)
Lemma entry_reads data o k v rest :
  small_str k = true → small (serialize_value v) = true →
  at_bytes data o (entry_bytes (k, v) ++ rest) →
  o + 4 ≤ Z.of_nat (length data) ∧ get_le data o 4 = Val (str_len k) ∧
  o + 4 + (str_len k + 4) ≤ Z.of_nat (length data) ∧
  sub data (o + 4) (o + 4 + str_len k) = Val (str_bytes k) ∧
  get_le data (o + 4 + str_len k) 4 = Val (size_of v) ∧
  o + 4 + str_len k + 4 + size_of v ≤ Z.of_nat (length data) ∧
  sub data (o + 4 + str_len k + 4) (o + 4 + str_len k + 4 + size_of v) = Val (serialize_value v) ∧
  at_bytes data (o + 4 + str_len k + 4 + size_of v) rest.
Proof.
  intros Hk%Z.ltb_lt Hv%Z.ltb_lt H. pose proof (str_len_nonneg k).
  unfold entry_bytes, put_block in H. cbn [fst snd] in H. rewrite <-!app_assoc in H.
  pose proof (at_bytes_fits _ _ _ H) as [_ Hfit]. rewrite !length_app, !length_put_u32 in Hfit.
  unfold str_len in *. set (n := Z.of_nat (length (str_bytes k))) in *.
  assert (0 ≤ n < 2 ^ 32) as Hn by lia. rewrite (get_u32_at _ _ n _ Hn H).
  pose proof (at_bytes_u32 _ _ _ _ H) as H1.
  pose proof (at_bytes_skip _ _ _ _ _ eq_refl H1) as H2.
  pose proof (at_bytes_u32 _ _ _ _ H2) as H3.
  pose proof (at_bytes_skip _ _ _ _ _ eq_refl H3) as H4. subst n.
  rewrite (get_u32_at _ _ (size_of v) _ ltac:(lia) H2).
  rewrite (sub_at _ _ _ (at_bytes_prefix _ _ _ _ H1)), (sub_at _ _ _ (at_bytes_prefix _ _ _ _ H3)).
  split_and!; (done || lia).
Qed.

Lemma keys_fresh {V} k (v : V) m acc : NoDup (um_keys (acc ++ (k, v) :: m)) → k ∉ um_keys acc.
Proof.
  unfold um_keys. rewrite fmap_app, fmap_cons. intros (_ & Hd & _)%list.NoDup_app Hin.
  apply (Hd k Hin). by left.
Qed.

Section Step.
Context (deser : list byte → res (option (value tree))).

Lemma fixed_at data offset n w z mk :
  w = 8 * n → 0 ≤ n → at_bytes data offset (le_bytes (Z.to_nat n) z) →
  fixed data offset n mk = Val (Some (mk (wrap w z), offset + n)).
Proof.
  intros -> Hn H. unfold fixed. rewrite (need_at _ _ _ _ _ H) by (rewrite length_le_bytes; lia).
  rewrite <-(app_nil_r (le_bytes (Z.to_nat n) z)) in H.
  by rewrite (get_le_at _ _ n (8 * n) z []).
Qed.

Lemma sized_at data offset mk bs :
  small bs = true → at_bytes data offset (put_u32 (Z.of_nat (length bs)) ++ bs) →
  sized data offset mk = Val (Some (mk bs, offset + 4 + Z.of_nat (length bs))).
Proof.
  intros Hs%Z.ltb_lt H. unfold sized. pose proof (at_bytes_u32 _ _ _ _ H) as Hbs.
  rewrite (need_at _ _ _ _ _ H) by (rewrite length_app, length_put_u32; lia).
  rewrite (get_u32_at _ _ (Z.of_nat (length bs)) bs) by (done || lia). cbn [res_bind].
  rewrite (need_at _ _ _ _ _ Hbs) by lia. by rewrite (sub_at _ _ _ Hbs).
Qed.

(** The container loop reads the entries one after the other. *)
Lemma entries_loop_at fuel data offset count i (m acc : list (string * value tree)) :
  at_bytes data offset (concat (map entry_bytes m)) →
  (∀ kv, kv ∈ m → small_str kv.1 = true ∧ small (serialize_value kv.2) = true ∧
                  reads_value deser kv.2) →
  NoDup (um_keys (acc ++ m)) → count - i = Z.of_nat (length m) →
  (length m < fuel)%nat →
  entries_loop assign_entry deser fuel i count data offset acc =
  Val (Some (acc ++ map (λ kv, (kv.1, Value "" (data_ (value_norm kv.2)))) m)).
Proof.
  revert offset i m acc. induction fuel as [|fuel IH]; intros offset i m acc H Hm Hnd Hc Hf; [lia|].
  destruct m as [|[k v] m]; cbn [entries_loop length] in *.
  { destruct (Z.ltb_spec i count); [lia|]. simpl. by rewrite app_nil_r. }
  destruct (Z.ltb_spec i count); [|lia]. cbn [map concat] in H.
  destruct (Hm (k, v)) as (Hk & Hv & Hr); [by left|]. cbn [fst snd] in *.
  destruct (entry_reads _ _ _ _ _ Hk Hv H) as (N1 & -> & N2 & Hkey & Hvl & N3 & Hvd & Hrest).
  rewrite need_fits by done. cbn [res_bind]. rewrite need_fits, Hkey by done. cbn [res_bind].
  rewrite Hvl. cbn [res_bind]. rewrite need_fits, Hvd by done. cbn [res_bind].
  specialize (Hr []). rewrite app_nil_r in Hr. rewrite Hr. cbn [res_bind].
  rewrite bytes_str_bytes, assign_entry_fresh by (by apply keys_fresh in Hnd).
  rewrite (IH _ _ m); [by rewrite <-app_assoc|done| | |lia|lia].
  - intros kv Hkv. apply Hm. by right.
  - unfold um_keys in *. rewrite !fmap_app in *. simpl in *. by rewrite <-app_assoc.
Qed.
End Step.

(** ** Sizes of the parts *)

Lemma concat_map_length {A B} (f : A → list byte) (g : B → list byte) (h : A → B) l :
  (∀ x, x ∈ l → length (g (h x)) = length (f x)) →
  length (concat (map g (map h l))) = length (concat (map f l)).
Proof.
  induction l as [|x l IH]; intros H; [done|]. cbn [map concat].
  rewrite !length_app, H by (by left). f_equal. apply IH. intros. apply H. by right.
Qed.

Lemma concat_elem_length {A} (f : A → list byte) l x :
  x ∈ l → (length (f x) ≤ length (concat (map f l)))%nat.
Proof.
  intros (l1 & l2 & ->)%list_elem_of_split. rewrite map_app, concat_app. cbn [map concat].
  rewrite !length_app. lia.
Qed.

Lemma entry_smaller t kv : kv ∈ entries t → size_of kv.2 + 12 ≤ tsize t.
Proof.
  intros H. rewrite tsize_eq. unfold entries_size.
  apply (concat_elem_length entry_bytes) in H. unfold entry_bytes at 1 in H.
  rewrite !length_app, length_put_block, length_put_u32 in H. lia.
Qed.

Lemma container_smaller v t : data_ v = V_container (Some t) → tsize t + 9 ≤ size_of v.
Proof.
  intros E. rewrite size_of_eq, E, length_container_bytes. simpl from_option.
  pose proof (str_len_nonneg (name_ v)). lia.
Qed.

(** A null element is written as a nameless null value. *)
Definition elem_value (o : option (value tree)) : value tree :=
  match o with Some e => e | None => value.of_name "" end.

Lemma elem_bytes_value o : elem_bytes o = serialize_value (elem_value o).
Proof. by destruct o. Qed.

Lemma elem_smaller v l o :
  data_ v = V_array l → o ∈ l → size_of (elem_value o) + 9 ≤ size_of v.
Proof.
  intros E H. rewrite (size_of_eq v), E, data_bytes_array, length_app, length_put_u32.
  apply (concat_elem_length elem_bytes) in H. rewrite elem_bytes_value in H.
  pose proof (str_len_nonneg (name_ v)). lia.
Qed.

(** The conditions on the parts that [value_ok_with] collects. *)
Lemma value_ok_inv v strict :
  value_ok_with tree_ok v strict = true →
  small_str (name_ v) = true ∧ data_ok tree_ok (value_ok_with tree_ok) (data_ v) strict = true.
Proof. destruct v. simpl. by rewrite andb_true_iff. Qed.

Lemma container_ok_inv t strict :
  data_ok tree_ok (value_ok_with tree_ok) (V_container (Some t)) strict = true →
  tree_ok t strict = true ∧ small (tree_serialize t) = true.
Proof. simpl. by rewrite andb_true_iff. Qed.

Lemma array_ok_inv l strict :
  data_ok tree_ok (value_ok_with tree_ok) (V_array l) strict = true →
  Z.of_nat (length l) < 2 ^ 32 ∧
  ∀ o, o ∈ l → value_ok_with tree_ok (elem_value o) true = true.
Proof.
  simpl. rewrite andb_true_iff, forallb_forall, Z.ltb_lt. intros [? Hl]. split; [done|].
  intros [e|] He%list_elem_of_In; [by apply (Hl _ He)|done].
Qed.

Lemma tree_ok_inv t strict :
  tree_ok t strict = true →
  NoDup (um_keys (entries t)) ∧ Z.of_nat (length (entries t)) < 2 ^ 32 ∧
  ∀ kv, kv ∈ entries t → small_str kv.1 = true ∧ (strict = true → name_ kv.2 = ""%string) ∧
    value_ok_with tree_ok kv.2 strict = true ∧ small (serialize_value kv.2) = true.
Proof.
  destruct t as [m]. cbn [tree_ok entries].
  rewrite !andb_true_iff, bool_decide_eq_true, Z.ltb_lt, forallb_forall.
  intros [[? ?] Hm]. split_and!; [done..|]. intros kv Hkv%list_elem_of_In.
  specialize (Hm _ Hkv). rewrite !andb_true_iff in Hm. destruct Hm as [[[? Hs] ?] ?].
  split_and!; [done| |done..]. intros ->. simpl in Hs. by apply bool_decide_eq_true in Hs.
Qed.

(** Inside an array nothing shrinks. *)
Lemma value_norm_eq v : value_norm v = Value (name_ v) (data_norm tree_norm value_norm (data_ v)).
Proof. by destruct v. Qed.

Lemma strict_size n v :
  size_of v < Z.of_nat n → value_ok_with tree_ok v true = true →
  size_of (value_norm v) = size_of v.
Proof.
  revert v. induction n as [|n IH]; intros v Hn Hok; [pose proof (size_of_min v); lia|].
  apply value_ok_inv in Hok as [_ Hd]. rewrite value_norm_eq.
  rewrite !size_of_eq. cbn [name_ data_]. f_equal.
  destruct (data_ v) as [| | | | | | | | | | | | | |c|l] eqn:E; try done; cbn [data_norm].
  - destruct c as [t|]; [|done]. cbn [fmap option_fmap option_map].
    apply container_ok_inv in Hd as [(_ & _ & Ht)%tree_ok_inv _].
    apply container_smaller in E. rewrite !length_container_bytes. simpl from_option.
    rewrite !tsize_eq. unfold entries_size. do 3 f_equal.
    destruct t as [m]. cbn [tree_norm entries] in *. apply concat_map_length.
    intros [k w] Hkw. destruct (Ht _ Hkw) as (_ & Hname & Hw & _).
    specialize (Hname eq_refl). cbn [snd] in *. unfold entry_bytes. cbn [fst snd].
    rewrite !length_app, !length_put_block. do 3 f_equal. apply Nat2Z.inj.
    apply (entry_smaller (Tree m)) in Hkw. cbn [snd] in Hkw.
    rewrite <-(IH w) by (done || lia). f_equal. f_equal. destruct w; simpl in *.
    by subst.
  - apply array_ok_inv in Hd as [_ Hl]. f_equal.
    rewrite !data_bytes_array, !length_app, !length_put_u32. f_equal. apply concat_map_length. intros o He. rewrite !elem_bytes_value.
    pose proof (elem_smaller _ _ _ E He). apply Nat2Z.inj.
    replace (elem_value (Some _)) with (value_norm (elem_value o)) by (by destruct o).
    apply IH; [lia|auto].
Qed.

(** ** Reading back what was written *)

Section ReadBack.
Context (deser : list byte → res (option (value tree))).

Lemma array_loop_at fuel data offset count i (l acc : list (option (value tree))) :
  at_bytes data offset (concat (map elem_bytes l)) →
  (∀ o, o ∈ l → reads_value deser (elem_value o) ∧
     size_of (value_norm (elem_value o)) = size_of (elem_value o)) →
  count - i = Z.of_nat (length l) → (length l < fuel)%nat →
  ∃ offset', array_loop deser fuel i count data offset acc =
    Val (Some (acc ++ map (λ o, Some (match o with
      | Some e => value_norm e | None => value.of_name ""
      end)) l, offset')).
Proof.
  revert offset i l acc. induction fuel as [|fuel IH];
    intros offset i l acc H Hl Hc Hf; [lia|].
  destruct l as [|o l]; cbn [array_loop length] in *.
  { destruct (Z.ltb_spec i count); [lia|]. simpl. rewrite app_nil_r. eauto. }
  destruct (Z.ltb_spec i count); [|lia]. cbn [map concat] in H.
  destruct (sub_rest _ _ _ H) as (post & ->). cbn [res_bind]. rewrite <-app_assoc.
  destruct (Hl o) as [Hr Hs]; [by left|]. rewrite elem_bytes_value, Hr. cbn [res_bind].
  rewrite Hs. destruct (IH (offset + size_of (elem_value o)) (i + 1) l
    (acc ++ [Some (value_norm (elem_value o))])) as [o' ->].
  - rewrite elem_bytes_value in H. by apply (at_bytes_skip _ _ _ _ _ eq_refl) in H.
  - intros e' He'. apply Hl. by right.
  - lia.
  - lia.
  - exists o'. rewrite <-app_assoc. destruct o; done.
Qed.

Lemma container_at t rest :
  tree_ok t true = true ∨ tree_ok t false = true →
  (∀ kv, kv ∈ entries t → reads_value deser kv.2) →
  container_deserialize assign_entry deser (tree_serialize t ++ rest) = Val (Some (tree_norm t)).
Proof.
  intros Hok Hr. unfold container_deserialize.
  assert (∃ strict, tree_ok t strict = true) as [strict (Hnd & Hlen & Ht)%tree_ok_inv]
    by (destruct Hok; eauto).
  pose proof (at_bytes_start (tree_serialize t) rest) as H. rewrite tree_serialize_eq in H at 2.
  rewrite (need_at _ _ _ _ _ H) by (rewrite length_app, length_put_u32; lia).
  rewrite (get_u32_at _ _ (Z.of_nat (length (entries t))) _ ltac:(lia) H). cbn [res_bind].
  apply at_bytes_u32 in H. rewrite (entries_loop_at deser _ _ _ _ _ (entries t) []).
  - simpl. by destruct t.
  - done.
  - intros kv Hkv. destruct (Ht _ Hkv) as (? & ? & ? & ?). auto.
  - done.
  - lia.
  - apply at_bytes_fits in H as [_ H].
    assert (length (entries t) ≤ length (concat (map entry_bytes (entries t))))%nat; [|lia].
    clear. induction (entries t) as [|kv m IH]; [done|]. cbn [map concat].
    rewrite length_app. unfold entry_bytes at 1. rewrite !length_app, length_put_u32.
    cbn [length]. lia.
Qed.

Lemma bool_byte (b : bool) : negb (wrap 8 (u8 (to_u8 (if b then 1 else 0))) =? 0) = b.
Proof. by destruct b. Qed.

Lemma deserialize_data_at data offset strict d :
  at_bytes data offset (data_bytes d) → 0 ≤ offset →
  data_ok tree_ok (value_ok_with tree_ok) d strict = true →
  (∀ t kv, d = V_container (Some t) → kv ∈ entries t → reads_value deser kv.2) →
  (∀ l o, d = V_array l → o ∈ l → reads_value deser (elem_value o) ∧
     size_of (value_norm (elem_value o)) = size_of (elem_value o)) →
  ∃ offset', deserialize_data assign_entry deser (variant_type d) data offset
             = Val (Some (data_norm tree_norm value_norm d, offset')).
Proof.
  intros H Ho Hok Hct Har.
  destruct d as [|b|z|z|z|z|z|z|z|z|z|z|s|bs|c|l];
    cbn [variant_type deserialize_data data_norm];
    try (apply u_ok_spec in Hok || apply s_ok_spec in Hok);
    try (unfold data_bytes, value.serialize_data in H;
         first [ rewrite (fixed_at _ _ 2 16 z) by done
               | rewrite (fixed_at _ _ 4 32 z) by done
               | rewrite (fixed_at _ _ 8 64 z) by done ];
         rewrite ?swrap_wrap, ?swrap_small, ?wrap_small by (simpl; lia); by eexists).
  - eauto.
  - unfold data_bytes, value.serialize_data in H.
    rewrite (need_at _ _ _ _ _ H) by done.
    rewrite (get_le_at _ _ 1 8 (u8 (to_u8 (if b then 1 else 0))) []);
      [|done..|by destruct b]. cbn [res_bind]. rewrite bool_byte. by eexists.
  - unfold data_bytes, value.serialize_data in H. rewrite (sized_at _ _ _ (str_bytes s)) by done.
    rewrite bytes_str_bytes. by eexists.
  - unfold data_bytes, value.serialize_data in H. rewrite (sized_at _ _ _ bs) by done. by eexists.
  - destruct c as [t|]; unfold data_bytes, value.serialize_data in H.
    + apply container_ok_inv in Hok as [Ht Hs%Z.ltb_lt]. unfold put_block in H.
      rewrite (need_at _ _ _ _ _ H) by (rewrite length_app, length_put_u32; lia).
      rewrite (get_u32_at _ _ (tsize t) _ ltac:(lia) H). cbn [res_bind].
      destruct (Z.eqb_spec (tsize t) 0) as [E|_].
      { rewrite tsize_eq in E. unfold entries_size in E. lia. }
      apply at_bytes_u32 in H. rewrite (need_at _ _ _ _ _ H) by lia.
      rewrite (sub_at _ _ _ H). cbn [res_bind]. rewrite <-(app_nil_r (tree_serialize t)).
      rewrite container_at; [by eexists|destruct strict; auto|eauto].
    + rewrite <-(app_nil_r (put_u32 0)) in H.
      rewrite (need_at _ _ _ _ _ H) by (rewrite length_app, length_put_u32; lia).
      rewrite (get_u32_at _ _ 0 _ ltac:(lia) H). by eexists.
  - apply array_ok_inv in Hok as [Hl _]. rewrite data_bytes_array in H.
    rewrite (need_at _ _ _ _ _ H) by (rewrite length_app, length_put_u32; lia).
    rewrite (get_u32_at _ _ (Z.of_nat (length l)) _ ltac:(lia) H). cbn [res_bind].
    apply at_bytes_u32 in H.
    destruct (array_loop_at (S (length data)) data (offset + 4) (Z.of_nat (length l)) 0 l [])
      as [o' ->]; [done|eauto|lia| |by eexists].
    apply at_bytes_fits in H as [_ H].
    assert (length l ≤ length (concat (map elem_bytes l)))%nat; [|lia].
    clear. induction l as [|o l IH]; [done|]. cbn [map concat length]. rewrite length_app.
    assert (1 ≤ length (elem_bytes o))%nat; [|lia].
    destruct o as [e|]; cbn [elem_bytes]; [pose proof (size_of_min e); lia|].
    rewrite length_app, length_put_u32. simpl. lia.
Qed.
End ReadBack.

Lemma deserialize_step_at deser v strict rest :
  value_ok_with tree_ok v strict = true →
  (∀ t kv, data_ v = V_container (Some t) → kv ∈ entries t → reads_value deser kv.2) →
  (∀ l o, data_ v = V_array l → o ∈ l → reads_value deser (elem_value o) ∧
     size_of (value_norm (elem_value o)) = size_of (elem_value o)) →
  deserialize_step assign_entry deser (serialize_value v ++ rest) = Val (Some (value_norm v)).
Proof.
  intros [Hname%Z.ltb_lt Hd]%value_ok_inv Hct Har. unfold deserialize_step.
  pose proof (at_bytes_start (serialize_value v) rest) as H.
  pose proof (at_bytes_fits _ _ _ H) as [_ Hfit]. pose proof (size_of_min v).
  pose proof (str_len_nonneg (name_ v)).
  destruct (Z.ltb_spec (Z.of_nat (length (serialize_value v ++ rest))) (4 + 1)); [lia|].
  rewrite (serialize_value_eq v) in H at 2.
  rewrite (get_u32_at _ _ (str_len (name_ v)) _ ltac:(lia) H). cbn [res_bind].
  apply at_bytes_u32 in H. change (0 + 4) with 4 in H.
  rewrite (need_at _ _ _ _ _ H) by (rewrite length_app; unfold str_len; simpl; lia).
  pose proof (sub_at _ _ _ (at_bytes_prefix _ _ _ _ H)) as Hsub.
  change (Z.of_nat (length (str_bytes (name_ v)))) with (str_len (name_ v)) in Hsub.
  rewrite Hsub. cbn [res_bind].
  apply (at_bytes_skip _ _ (str_len (name_ v)) _ _ eq_refl) in H.
  rewrite (get_le_at _ _ 1 8 (type_index (variant_type (data_ v))) _ eq_refl ltac:(lia) H).
  cbn [res_bind]. rewrite wrap_small by (destruct (variant_type _); simpl; lia).
  rewrite type_of_index_index. apply at_bytes_cons in H.
  destruct (deserialize_data_at deser _ _ strict (data_ v) H ltac:(lia) Hd Hct Har)
    as [o' ->].
  cbn [res_bind]. by rewrite bytes_str_bytes, value_norm_eq.
Qed.

Lemma deserialize_depth_at depth v strict :
  size_of v < Z.of_nat depth → value_ok_with tree_ok v strict = true →
  reads_value (deserialize_depth assign_entry depth) v.
Proof.
  revert v strict. induction depth as [|depth IH]; intros v strict Hd Hok rest; [lia|].
  cbn [deserialize_depth]. pose proof (size_of_min v).
  destruct (value_ok_inv _ _ Hok) as [_ Hdata].
  apply (deserialize_step_at _ _ strict); [done| |].
  - intros t kv E Hkv. rewrite E in Hdata.
    apply container_ok_inv in Hdata as [(_ & _ & Ht)%tree_ok_inv _].
    destruct (Ht _ Hkv) as (_ & _ & Hw & _). apply (IH _ strict); [|done].
    apply container_smaller in E. apply entry_smaller in Hkv. lia.
  - intros l o E Ho. rewrite E in Hdata. apply array_ok_inv in Hdata as [_ Hl].
    pose proof (elem_smaller _ _ _ E Ho). split; [apply (IH _ true); [lia|auto]|].
    apply (strict_size (S (length (serialize_value (elem_value o))))); [lia|auto].
Qed.

(** ** The properties of the wire format *)

Lemma tree_reads t strict rest :
  tree_ok t strict = true →
  tree_deserialize (tree_serialize t ++ rest) = Val (Some (tree_norm t)).
Proof.
  intros Hok. unfold tree_deserialize, tree_deserialize_by. apply container_at; [destruct strict; auto|].
  intros kv Hkv rest'. destruct (tree_ok_inv _ _ Hok) as (_ & _ & Ht).
  destruct (Ht _ Hkv) as (_ & _ & Hw & _). apply (deserialize_depth_at _ _ strict); [|done].
  rewrite length_app. lia.
Qed.

(** C4. Deserializing is total and safe: on every byte vector
    [value::deserialize] returns (the recursion and the count-driven loops
    terminate within the length of the input), never forms an iterator or reads
    outside the vector, and what it returns serializes to at most as many bytes
    as it was given; [thread_safe_container::deserialize] likewise, and every
    value stored in the container it returns has lost its name. *)
Theorem deserialize_total data :
  (∃ o, value_deserialize data = Val o ∧
     ∀ v, o = Some v → (length (serialize_value v) ≤ length data)%nat) ∧
  (∃ o, tree_deserialize data = Val o ∧
     ∀ t, o = Some t → (length (tree_serialize t) ≤ length data)%nat ∧
                       ∀ kv, kv ∈ entries t → name_ kv.2 = ""%string).
Proof.
  split.
  - destruct (value_deserialize_in data) as (o & -> & Ho). exists o. split; [done|].
    intros v ->. simpl in Ho. lia.
  - destruct (tree_deserialize_in data) as (o & -> & Ho). exists o. split; [done|].
    intros t ->. destruct Ho as [Hs Hn]. split; [lia|]. by apply list.Forall_forall.
Qed.

(** The depth bound is no restriction: the deserializer satisfies the
    recursive equation of the source, with itself as the callee for nested
    containers and array elements, on every input. *)
Theorem value_deserialize_equation data :
  value_deserialize data = deserialize_step assign_entry value_deserialize data.
Proof. apply value_deserialize_step. Qed.

(** Round trip of values: a representable value, followed by any bytes,
    is read back as itself up to [value_norm]: its name, type and contents are
    kept except that long long becomes long, unsigned long long becomes unsigned
    long, null array elements become null values and container entries lose
    the names of their values. *)
Theorem value_roundtrip v rest :
  value_ok v = true →
  value_deserialize (serialize_value v ++ rest) = Val (Some (value_norm v)).
Proof. intros Hok. apply (deserialize_depth_at _ _ false); [rewrite length_app; lia|done]. Qed.

Definition sample_value : value tree :=
  Value "msg" (V_container (Some (Tree
    [("id"%string, Value "id" (V_llong (-7)));
     ("tags"%string, Value "" (V_array [Some (Value "t" (V_string "x")); None;
        Some (Value "" (V_container (Some (Tree [("pi"%string, Value "" (V_double 0x400921fb54442d18))]))))]))]))).

Lemma value_roundtrip_witness :
  value_deserialize (serialize_value sample_value ++ [x00]) =
  Val (Some (value_norm sample_value)).
Proof. apply value_roundtrip. vm_compute. reflexivity. Defined.

(** An array of a container with a named entry and an integer. *)
Definition misread_array : value tree :=
  Value "a" (V_array
    [Some (Value "" (V_container (Some (Tree [("k"%string, Value "k" (V_bool true))]))));
     Some (Value "n" (V_int 258))]).

(** The array loop of [deserialize_data] advances by the size of the
    element serialized again, not by the bytes it consumed. A container entry
    loses the name of its value when it is stored, so the two differ as soon
    as an array element holds a container with a named entry: the value below is
    within every limit of the format, and reading it back fails. *)
Theorem array_element_misread :
  variant_ok (λ _, true) (λ _, true) (data_ misread_array) = true ∧
  tree_ok (Tree [("k"%string, Value "k" (V_bool true))]) false = true ∧
  value_deserialize (serialize_value misread_array) = Val None.
Proof. split_and!; vm_compute; reflexivity. Qed.
