(* ===== verification/ValueOrder.v ===== *)
(** * The wire format does not depend on the iteration order of maps

    [thread_safe_container] holds an [unordered_map], and the standard leaves
    open in which order it is iterated.  A writer goes through the elements in
    the order its map has: the theorems quantify over the list of a [tree], so
    over every order.  A reader fills a fresh map: the deserializers take the
    insertion as an argument, [insert], of which only [places] is assumed, that
    the elements afterwards are those that [values_[key] = v] leaves, anywhere.

    [contents] forgets the order at every level.  [deserialize_sim]: on any
    bytes, any two insertions give the same outcome, the same contents and
    values that serialize to equally many bytes (which matters, because the array
    loop moves by that number).  [tree_roundtrip]: a container is read back with
    the contents it was written with, up to [contents_norm]. *)

From S2P Require Import Prelude Bytes Float Types UnorderedMap Value ValueFacts ValueRoundtrip.
#[local] Set Warnings "-register-all".

(** ** Contents: containers as finite maps *)

Inductive mtree : Type := MTree (elements : gmap string (value mtree)).

Fixpoint contents (t : tree) : mtree :=
  MTree (list_to_map (map (λ kv, (kv.1, value_map contents kv.2)) (entries t))).
Definition value_contents : value tree → value mtree := value_map contents.

(** What the wire format makes of contents: see [tree_norm]. *)
Section Norm.
Context (norm : mtree → mtree).

Fixpoint value_norm_contents (v : value mtree) : value mtree :=
  Value (name_ v)
    match data_ v with
    | V_llong z => V_long z
    | V_ullong z => V_ulong z
    | V_container c => V_container (option_map norm c)
    | V_array l =>
        V_array (map (λ o, Some match o with
                                | Some e => value_norm_contents e
                                | None => value.of_name ""
                                end) l)
    | d => d
    end.
End Norm.

(** Every key stays, with its value, whose own name is lost. *)
Fixpoint contents_norm (t : mtree) : mtree :=
  let 'MTree m := t in
  MTree ((λ v, Value "" (data_ (value_norm_contents contents_norm v))) <$> m).

Lemma contents_Tree m : contents (Tree m) = MTree (value_contents <$> um_map m).
Proof.
  cbn [contents entries]. f_equal. unfold um_map.
  rewrite <-(list_to_map_fmap value_contents m). f_equal.
Qed.

(** ** Values that differ in iteration orders only *)

Definition same_value (v w : value tree) : Prop :=
  value_contents v = value_contents w ∧ size_of v = size_of w.
Definition same_tree (t u : tree) : Prop := contents t = contents u ∧ tsize t = tsize u.
Definition same_entry (a b : string * value tree) : Prop := a.1 = b.1 ∧ same_value a.2 b.2.
Definition same_elem (a b : option (value tree)) : Prop :=
  match a, b with Some v, Some w => same_value v w | None, None => True | _, _ => False end.

(** The elements of [m], in some order, are those of [m'] up to [same_value]. *)
Definition same_map (m m' : list (string * value tree)) : Prop :=
  um_ok m' ∧ ∃ m0, m ≡ₚ m0 ∧ Forall2 same_entry m0 m'.

Lemma same_value_refl v : same_value v v.
Proof. done. Qed.

Lemma same_value_parts v w :
  same_value v w → name_ v = name_ w ∧
  length (data_bytes (data_ v)) = length (data_bytes (data_ w)).
Proof.
  intros [Hc Hs]. assert (name_ v = name_ w) as Hn by (apply (f_equal name_) in Hc; by destruct v, w).
  split; [done|]. rewrite !size_of_eq, Hn in Hs. lia.
Qed.

Lemma same_renamed n v w : same_value v w → same_value (Value n (data_ v)) (Value n (data_ w)).
Proof.
  intros H. destruct (same_value_parts _ _ H) as [_ Hd]. destruct H as [Hc _]. split.
  - apply (f_equal data_) in Hc. destruct v as [nv dv], w as [nw dw]. unfold value_contents in *.
    cbn [value_map data_ name_] in *. by f_equal.
  - rewrite !size_of_eq. cbn [name_ data_]. lia.
Qed.

Lemma same_keys m0 m : Forall2 same_entry m0 m → um_keys m0 = um_keys m.
Proof. unfold um_keys. induction 1 as [|a b m0 m [E _] _ IH]; [done|]. cbn. by rewrite E, IH. Qed.

Lemma same_map_ok m m' : same_map m m' → um_ok m.
Proof.
  intros (Hok & m0 & Hp & Hf). apply (um_ok_perm m0 m); [by symmetry|].
  unfold um_ok. by rewrite (same_keys m0 m').
Qed.

Lemma entries_size_perm m m' : m ≡ₚ m' → entries_size m = entries_size m'.
Proof. induction 1 as [| | |]; rewrite ?entries_size_cons; lia. Qed.

Lemma same_map_tree m m' : same_map m m' → same_tree (Tree m) (Tree m').
Proof.
  intros Hm. pose proof (same_map_ok _ _ Hm) as Hok. destruct Hm as (_ & m0 & Hp & Hf). split.
  - rewrite !contents_Tree, (um_map_perm m m0) by done. f_equal. clear Hp Hok.
    induction Hf as [|[k v] [k' w] m0 m' [Hk [Hv _]] _ IH]; [done|]. cbn [fst snd] in *. subst k'.
    by rewrite !um_map_cons, !fmap_insert, IH, Hv.
  - rewrite !tsize_eq. cbn [entries]. rewrite (entries_size_perm m m0 Hp). f_equal. clear Hp Hok.
    induction Hf as [|a b m0 m' [Hk [_ Hv]] _ IH]; [done|].
    by rewrite !entries_size_cons, IH, Hk, Hv.
Qed.

(** ** Insertions *)

(** An insertion places the element that [values_[key] = v] creates or changes anywhere. *)
Definition places
    (insert : string → value tree → list (string * value tree) → list (string * value tree)) : Prop :=
  ∀ k v m, um_ok m → insert k v m ≡ₚ assign_entry k v m.

Lemma assign_entry_same k v w m0 m :
  same_value v w → Forall2 same_entry m0 m → Forall2 same_entry (assign_entry k v m0) (assign_entry k w m).
Proof.
  intros Hv. unfold assign_entry. induction 1 as [|[k1 v1] [k2 w1] m0 m [Hk Hv1] Hf IH]; cbn [um_index].
  - constructor; [|constructor]. split; [done|]. by apply same_renamed.
  - cbn [fst snd] in *. subst k2. case_bool_decide; constructor; try done; split; try done.
    cbn [snd]. unfold value.assign. destruct (same_value_parts _ _ Hv1) as [-> _].
    by apply same_renamed.
Qed.

Section Sim.
Context (insert : string → value tree → list (string * value tree) → list (string * value tree)).
Hypothesis Hinsert : places insert.

Lemma insert_same k v w m m' :
  same_value v w → same_map m m' → same_map (insert k v m) (assign_entry k w m').
Proof.
  intros Hv Hm. pose proof (same_map_ok _ _ Hm) as Hok. destruct Hm as (Hok' & m0 & Hp & Hf).
  split; [by apply um_index_ok|]. exists (assign_entry k v m0). split; [|by apply assign_entry_same].
  rewrite (Hinsert k v m Hok). by apply um_index_perm.
Qed.

(** ** The two readers in lockstep *)

Definition same_outcome {A B} (R : A → B → Prop) (r : res (option A)) (r' : res (option B)) : Prop :=
  match r, r' with
  | Val (Some a), Val (Some b) => R a b
  | Val None, Val None | Undef, Undef | NoFuel, NoFuel => True
  | _, _ => False
  end.

Lemma same_bind {A B D} (R : B → D → Prop) (r : res A) f g :
  (∀ a, same_outcome R (f a) (g a)) → same_outcome R (res_bind f r) (res_bind g r).
Proof. intros H. destruct r; simpl; [apply H|done..]. Qed.

Lemma same_need {B D} (R : B → D → Prop) data o n r r' :
  same_outcome R r r' → same_outcome R (need data o n r) (need data o n r').
Proof. intros H. unfold need. by case_match. Qed.

(** The call of the reader of values, and what is done with its outcome. *)
Lemma same_call {A B D} (R : B → D → Prop) (Q : A → A → Prop) (r r' : res (option A)) f g :
  same_outcome Q r r' → same_outcome R (f None) (g None) →
  (∀ a b, Q a b → same_outcome R (f (Some a)) (g (Some b))) →
  same_outcome R (res_bind f r) (res_bind g r').
Proof. intros Hr Hn Hs. destruct r as [[a|]| |], r' as [[b|]| |]; simpl in *; try done. by apply Hs. Qed.

Section Step.
Context (deser deser' : list byte → res (option (value tree))).
Hypothesis Hdeser : ∀ data, same_outcome same_value (deser data) (deser' data).

Lemma entries_loop_same fuel i count data offset m m' :
  same_map m m' →
  same_outcome same_map (entries_loop insert deser fuel i count data offset m)
    (entries_loop assign_entry deser' fuel i count data offset m').
Proof.
  revert i offset m m'. induction fuel as [|fuel IH]; intros i offset m m' Hm; [done|].
  cbn [entries_loop]. destruct (i <? count); [|done].
  apply same_need, same_bind; intros kl. apply same_need, same_bind; intros key.
  apply same_bind; intros vl. apply same_need, same_bind; intros vd.
  apply (same_call _ same_value); [done|by apply IH|].
  intros v w Hv. by apply IH, insert_same.
Qed.

Lemma container_same data :
  same_outcome same_tree (container_deserialize insert deser data)
    (container_deserialize assign_entry deser' data).
Proof.
  apply same_need, same_bind; intros count. eapply same_call.
  - apply (entries_loop_same (S (length data)) 0 count data 4 [] []). split; [apply um_ok_nil|by exists []].
  - done.
  - intros m m'. apply same_map_tree.
Qed.

Lemma array_loop_same fuel i count data offset l l' :
  Forall2 same_elem l l' →
  same_outcome (λ a b, Forall2 same_elem a.1 b.1 ∧ a.2 = b.2)
    (array_loop deser fuel i count data offset l) (array_loop deser' fuel i count data offset l').
Proof.
  revert i offset l l'. induction fuel as [|fuel IH]; intros i offset l l' Hl; [done|].
  cbn [array_loop]. destruct (i <? count); [|done]. apply same_bind; intros rest.
  apply (same_call _ same_value); [done|done|]. intros v w [Hc Hs]. rewrite Hs.
  apply IH, Forall2_app; [done|]. by repeat constructor.
Qed.

Definition same_data (a b : ValueVariant tree * Z) : Prop :=
  same_value (Value "" a.1) (Value "" b.1) ∧ a.2 = b.2.

Lemma same_array l l' : Forall2 same_elem l l' → same_value (Value "" (V_array l)) (Value "" (V_array l')).
Proof.
  intros H. split.
  - unfold value_contents. cbn [value_map name_ data_ variant_map]. do 2 f_equal.
    induction H as [|[v|] [w|] l l' He _ IH]; cbn [map option_map]; try done; [|by rewrite IH].
    destruct He as [He _]. rewrite IH. do 2 f_equal. exact He.
  - rewrite !size_of_eq. cbn [data_ name_]. rewrite !data_bytes_array, !length_app, !length_put_u32.
    do 3 f_equal. induction H as [|a b l l' He _ IH]; [done|]. cbn [map concat].
    rewrite !length_app, IH, !elem_bytes_value. f_equal. destruct a, b; try done.
    destruct He as [_ He]. cbn [elem_value]. lia.
Qed.

Lemma deserialize_data_same ty data offset :
  same_outcome same_data (deserialize_data insert deser ty data offset)
    (deserialize_data assign_entry deser' ty data offset).
Proof.
  destruct ty; cbn [deserialize_data];
    try (unfold fixed, sized; repeat (apply same_need || (apply same_bind; intros ?)); exact (conj (conj eq_refl eq_refl) eq_refl)).
  - apply same_need, same_bind; intros size. destruct (size =? 0); [done|].
    apply same_need, same_bind; intros bs.
    pose proof (container_same bs) as H. destruct (container_deserialize insert deser bs) as [[t|]| |],
      (container_deserialize assign_entry deser' bs) as [[t'|]| |]; try done.
    destruct H as [Hc Hs]. split; [|done]. split; cbn [fst].
    + unfold value_contents. cbn [value_map name_ data_ variant_map option_map]. by rewrite Hc.
    + rewrite !size_of_eq. cbn [data_ name_]. rewrite !length_container_bytes. cbn. by rewrite Hs.
  - apply same_need, same_bind; intros count. eapply same_call.
    + apply (array_loop_same (S (length data)) 0 count data (offset + 4) [] []). constructor.
    + done.
    + intros [l o] [l' o'] [Hl Ho]. cbn in *. split; [by apply same_array|done].
Qed.

Lemma deserialize_step_same data :
  same_outcome same_value (deserialize_step insert deser data) (deserialize_step assign_entry deser' data).
Proof.
  unfold deserialize_step. destruct (_ <? _); [done|]. apply same_bind; intros nl.
  apply same_need, same_bind; intros name. apply same_bind; intros tb.
  destruct (type_of_index tb) as [ty|]; [|done].
  apply (same_call _ same_data); [apply deserialize_data_same|done|].
  intros [d o] [d' o'] [Hd _]. exact (same_renamed (bytes_str name) _ _ Hd).
Qed.
End Step.

(** Whatever the bytes, the outcome is that of [value_deserialize] up to iteration orders. *)
Lemma deserialize_sim data :
  same_outcome same_value (value_deserialize_by insert data) (value_deserialize data).
Proof.
  unfold value_deserialize, value_deserialize_by. generalize (S (length data)). intros depth.
  revert data. induction depth as [|depth IH]; intros data; [done|]. by apply deserialize_step_same.
Qed.

Lemma tree_sim data : same_outcome same_tree (tree_deserialize_by insert data) (tree_deserialize data).
Proof. apply container_same, deserialize_sim. Qed.
End Sim.

(** ** Normal forms *)

Lemma tree_norm_entries m :
  tree_norm (Tree m) = Tree (prod_map id (λ v, Value "" (data_ (value_norm v))) <$> m).
Proof. reflexivity. Qed.

Lemma um_map_fmap {V W} (f : V → W) (m : list (string * V)) :
  um_map (prod_map id f <$> m) = f <$> um_map m.
Proof. apply list_to_map_fmap. Qed.

Lemma norm_contents_below n :
  (∀ v, size_of v < Z.of_nat n →
     value_contents (value_norm v) = value_norm_contents contents_norm (value_contents v)) ∧
  (∀ t, tsize t < Z.of_nat n → contents (tree_norm t) = contents_norm (contents t)).
Proof.
  induction n as [|n [IHv IHt]]; [split; intros; lia|]. split.
  - intros v Hn. rewrite value_norm_eq. destruct v as [k d]. unfold value_contents.
    cbn [value_map value_norm_contents name_ data_]. f_equal.
    destruct d as [| | | | | | | | | | | | | |[t|]|l]; try done.
    + cbn [data_norm variant_map option_map fmap option_fmap]. do 2 f_equal. apply IHt.
      pose proof (container_smaller (Value k (V_container (Some t))) t eq_refl). lia.
    + cbn [data_norm variant_map]. f_equal. rewrite !map_map. apply map_ext_elem.
      intros [e|] He; [|done]. cbn [option_map]. f_equal. apply IHv.
      pose proof (elem_smaller (Value k (V_array l)) l (Some e) eq_refl He) as Hs.
      cbn [elem_value] in Hs. lia.
  - intros [m] Hn. rewrite tree_norm_entries, !contents_Tree. cbn [contents_norm]. f_equal.
    rewrite um_map_fmap, <-!map_fmap_compose. apply map_fmap_ext. intros k v Hkv.
    assert (size_of v < Z.of_nat n) as Hv.
    { apply elem_of_list_to_map_2 in Hkv. pose proof (entry_smaller (Tree m) (k, v) Hkv) as Hs.
      cbn [snd] in Hs. lia. }
    specialize (IHv v Hv). apply (f_equal data_) in IHv. cbn [compose].
    unfold value_contents in *. rewrite <-IHv. by destruct (value_norm v).
Qed.

Lemma contents_of_norm t : contents (tree_norm t) = contents_norm (contents t).
Proof. apply (norm_contents_below (S (length (tree_serialize t)))). lia. Qed.

(** ** The round trip *)

(** C5. Round trip of containers, whatever the iteration orders of the maps that are
    written and wherever the maps that are read put a new element: the bytes of a
    representable container, followed by any others, are read back as a container
    with the same keys and the same values at every level, up to [contents_norm]. *)
Theorem tree_roundtrip insert t rest :
  places insert → tree_ok t false = true →
  ∃ r, tree_deserialize_by insert (tree_serialize t ++ rest) = Val (Some r) ∧
       contents r = contents_norm (contents t).
Proof.
  intros Hi Hok. pose proof (tree_sim insert Hi (tree_serialize t ++ rest)) as H.
  rewrite (tree_reads t false rest Hok) in H.
  destruct (tree_deserialize_by insert _) as [[r|]| |]; try done.
  exists r. split; [done|]. destruct H as [-> _]. apply contents_of_norm.
Qed.

(** A library that iterates its newest element first. *)
Definition newest_first (k : string) (v : value tree) (m : list (string * value tree))
    : list (string * value tree) :=
  if um_contains k m then assign_entry k v m else (k, Value "" (data_ v)) :: m.

Lemma newest_first_places : places newest_first.
Proof.
  intros k v m _. unfold newest_first, um_contains. case_bool_decide as E; [done|].
  rewrite assign_entry_fresh; [apply Permutation_cons_append|].
  apply um_find_None. by apply eq_None_not_Some.
Qed.

Definition sample_tree : tree :=
  Tree [("k"%string, sample_value); ("a"%string, Value "a" (V_ullong 7))].

Lemma tree_roundtrip_witness :
  ∃ r, tree_deserialize_by newest_first (tree_serialize sample_tree ++ [x01]) = Val (Some r) ∧
       contents r = contents_norm (contents sample_tree) ∧
       um_keys (entries r) = ["a"; "k"]%string.
Proof.
  destruct (tree_roundtrip newest_first sample_tree [x01] newest_first_places) as (r & Hr & Hc);
    [vm_compute; reflexivity|].
  exists r. split; [exact Hr|]. split; [exact Hc|].
  revert Hr. vm_compute. intros [= <-]. reflexivity.
Defined.
