(* ===== verification/ValueHeap.v ===== *)
(** * Serializing objects that are shared or cyclic

    A [shared_ptr<thread_safe_container>] is an address, and so is an element of
    an array, a [shared_ptr<value>]: containers and values may be shared, and the
    program may store a container inside itself or an array among its own
    elements.  [heap] has the containers and the values that are pointed to; the
    values inside a map are part of their container.

    [serialize_data] keeps the containers that enclosing calls of this thread are
    serializing in a thread-local set ([circular_ref_guard]) and writes a null
    container for one of them.  The container on which [serialize] is called
    first is not put there, and arrays are not guarded.  While a call iterates it
    holds the shared lock of its container or value; to take it again in the same
    thread is undefined behaviour by the standard, but most implementations allow
    it as long as no writer waits: [reentrant] says which.

    [walk] is the order of calls without what they return.
    [serialize_returns_iff] says when serializing returns, in both readings;
    [heap_serialize_tree] that on an acyclic heap the bytes are those of
    [tree_serialize] on the tree the pointers span. *)

From S2P Require Import Prelude Bytes Float Types UnorderedMap Value ValueFacts ValueRoundtrip.
From stdpp Require Import relations.

(** ** The heap *)

(** A [value] whose array elements are addresses. *)
Record cell : Type := Cell {
  cell_name : string; cell_data : variant (option loc) (list (option loc)) }.

Record heap : Type := Heap {
  containers : gmap loc (list (string * cell));
  values : gmap loc cell }.

(** A container or a value. *)
Definition node : Type := loc + loc.

(** The pointers of a value that are not null, in the order they are followed. *)
Definition cell_targets (x : cell) : list node :=
  match cell_data x with
  | V_container (Some c) => [inl c]
  | V_array l => omap (option_map inr) l
  | _ => []
  end.

Definition targets (h : heap) (n : node) : list node :=
  match n with
  | inl c => concat (map (λ kv, cell_targets kv.2) (default [] (containers h !! c)))
  | inr v => from_option cell_targets [] (values h !! v)
  end.

Definition allocated (h : heap) (n : node) : Prop :=
  match n with inl c => is_Some (containers h !! c) | inr v => is_Some (values h !! v) end.

#[global] Instance allocated_dec h n : Decision (allocated h n).
Proof. destruct n; apply _. Defined.

(** No pointer dangles. *)
Definition closed (h : heap) : Prop := ∀ n p, p ∈ targets h n → allocated h p.

(** [p] is a pointer inside [n]; [w] is an element of the array [v] holds. *)
Definition points_to (h : heap) (p n : node) : Prop := p ∈ targets h n.
Definition element_of (h : heap) (w v : loc) : Prop := points_to h (inr w) (inr v).

(** ** The serializer *)

(** [circular_ref_guard(c)]: [None] when [c] is already in the set, else the set with [c]. *)
Definition circular_ref_guard (serializing : gset loc) (c : loc) : option (gset loc) :=
  if decide (c ∈ serializing) then None else Some ({[c]} ∪ serializing).

(** What a loop appends to a vector. *)
Fixpoint append_all {A} (f : A → res (list byte)) (l : list A) : res (list byte) :=
  match l with
  | [] => Val []
  | x :: l => let? a := f x in let? r := append_all f l in Val (a ++ r)
  end.

Section Serialize.
Context (ser_container : loc → res (option (list byte))) (ser_value : loc → res (list byte)).

(** [value::serialize_data]; [ser_container] gives [None] when the guard is circular. *)
Definition cell_serialize_data (d : variant (option loc) (list (option loc))) : res (list byte) :=
  match d with
  | V_container (Some c) =>
      let? r := ser_container c in
      Val match r with None => put_u32 0 | Some container_data => put_block container_data end
  | V_array l =>
      let? elements := append_all (λ elem, match elem with
                                           | Some elem => ser_value elem
                                           | None => Val (put_u32 0 ++ [to_u8 0])
                                           end) l in
      Val (put_u32 (Z.of_nat (length l)) ++ elements)
  | V_container None => Val (put_u32 0)
  | V_null => Val []
  | V_bool b => Val [to_u8 (if b then 1 else 0)]
  | V_short z | V_ushort z => Val (le_bytes 2 z)
  | V_int z | V_uint z | V_float z => Val (le_bytes 4 z)
  | V_long z | V_ulong z | V_llong z | V_ullong z | V_double z => Val (le_bytes 8 z)
  | V_string s => Val (put_u32 (str_len s) ++ str_bytes s)
  | V_bytes bs => Val (put_u32 (Z.of_nat (length bs)) ++ bs)
  end.

(** [value::serialize] *)
Definition cell_serialize (x : cell) : res (list byte) :=
  let? data := cell_serialize_data (cell_data x) in
  Val (put_u32 (str_len (cell_name x)) ++ str_bytes (cell_name x)
       ++ [to_u8 (type_index (variant_type (cell_data x)))] ++ data).

(** The loop of [thread_safe_container::serialize]. *)
Definition container_serialize (m : list (string * cell)) : res (list byte) :=
  let? entries := append_all (λ kv : string * cell,
    let? value_data := cell_serialize kv.2 in
    Val (put_u32 (str_len kv.1) ++ str_bytes kv.1 ++ put_block value_data)) m in
  Val (put_u32 (Z.of_nat (length m)) ++ entries).
End Serialize.

Section Heap.
Context (reentrant : bool) (h : heap).

(** To lock what this thread has locked. *)
Definition relocking (locked : list node) (n : node) : bool :=
  negb reentrant && bool_decide (n ∈ locked).

(** [serialize] of the object [n], called while this thread holds the shared locks
    of [locked] and the guards of [serializing]. *)
Fixpoint heap_serialize (fuel : nat) (locked : list node) (serializing : gset loc) (n : node)
    : res (list byte) :=
  match fuel with
  | O => NoFuel
  | S fuel =>
      if relocking locked n then Undef else
      let locked := n :: locked in
      let ser_container c :=
        match circular_ref_guard serializing c with
        | None => Val None
        | Some serializing =>
            let? data := heap_serialize fuel locked serializing (inl c) in Val (Some data)
        end in
      let ser_value v := heap_serialize fuel locked serializing (inr v) in
      match n with
      | inl c =>
          match containers h !! c with
          | Some m => container_serialize ser_container ser_value m
          | None => Undef
          end
      | inr v =>
          match values h !! v with
          | Some x => cell_serialize ser_container ser_value x
          | None => Undef
          end
      end
  end.
End Heap.

(** ** The calls without their results *)

Definition kind {A} (r : res A) : res unit :=
  match r with Val _ => Val tt | Undef => Undef | NoFuel => NoFuel end.

(** One after the other, until the first that does not return. *)
Definition in_turn (ks : list (res unit)) : res unit := foldr (λ k r, let? _ := k in r) (Val tt) ks.

Section Walk.
Context (guarded reentrant : bool) (h : heap).

(** [guarded]: containers are entered through the guard. *)
Definition enter (serializing : gset loc) (p : node) : option (gset loc) :=
  match p with
  | inl c => if guarded then circular_ref_guard serializing c else Some serializing
  | inr _ => Some serializing
  end.

Fixpoint walk (fuel : nat) (locked : list node) (serializing : gset loc) (n : node) : res unit :=
  match fuel with
  | O => NoFuel
  | S fuel =>
      if relocking reentrant locked n then Undef
      else if bool_decide (allocated h n) then
        in_turn (map (λ p,
          match enter serializing p with
          | None => Val tt
          | Some serializing => walk fuel (n :: locked) serializing p
          end) (targets h n))
      else Undef
  end.
End Walk.

Lemma kind_bind {A B} (f : A → res B) r :
  kind (res_bind f r) = match r with Val a => kind (f a) | Undef => Undef | NoFuel => NoFuel end.
Proof. by destruct r. Qed.

Lemma kind_val {A} (r : res A) : kind r = Val tt ↔ ∃ a, r = Val a.
Proof. destruct r; simpl; naive_solver. Qed.

Lemma kind_undef {A} (r : res A) : kind r = Undef ↔ r = Undef.
Proof. by destruct r. Qed.

Lemma in_turn_app ks1 ks2 : in_turn (ks1 ++ ks2) = let? _ := in_turn ks1 in in_turn ks2.
Proof. induction ks1 as [|k ks1 IH]; [done|]. simpl. destruct k; simpl; auto. Qed.

Lemma in_turn_val ks : in_turn ks = Val tt ↔ ∀ k, k ∈ ks → k = Val tt.
Proof.
  induction ks as [|k ks IH]; simpl; [split; [by intros _ ? ?%not_elem_of_nil|done]|].
  destruct k as [[]| |]; simpl.
  - rewrite IH. split; [by intros H k [->|?]%elem_of_cons; auto|]. intros H k ?. apply H. by right.
  - split; [done|]. intros H. specialize (H Undef (list_elem_of_here _ _)). done.
  - split; [done|]. intros H. specialize (H NoFuel (list_elem_of_here _ _)). done.
Qed.

Lemma in_turn_bad ks k : in_turn ks = k → k ≠ Val tt → k ∈ ks.
Proof.
  induction ks as [|k' ks IH]; simpl; [congruence|]. intros E Hk.
  destruct k' as [[]| |]; simpl in E; [right; by apply IH|subst; by left..].
Qed.

Lemma append_all_kind {A} (f : A → res (list byte)) l :
  kind (append_all f l) = in_turn (map (λ x, kind (f x)) l).
Proof.
  induction l as [|x l IH]; [done|]. cbn [append_all map]. rewrite kind_bind. unfold in_turn in *. simpl.
  destruct (f x); simpl; [|done..]. rewrite <-IH, kind_bind. by destruct (append_all f l).
Qed.

(** What the calls for the pointers of a value do, is what the value does. *)
Section Kinds.
Context {A B : Type} (f : loc → res A) (g : loc → res B).
Definition call_kind (p : node) : res unit := match p with inl c => kind (f c) | inr v => kind (g v) end.

Lemma elements_kind (l : list (option loc)) (null : res B) :
  kind null = Val tt →
  in_turn (map (λ o, kind (match o with Some v => g v | None => null end)) l) =
  in_turn (map call_kind (omap (option_map inr) l)).
Proof.
  unfold in_turn. intros Hn. induction l as [|[v|] l IH]; [done| |]; simpl.
  - by rewrite IH.
  - rewrite Hn. exact IH.
Qed.

Lemma entries_kind (k : cell → res unit) (m : list (string * cell)) :
  (∀ x, k x = in_turn (map call_kind (cell_targets x))) →
  in_turn (map (λ kv, k kv.2) m) = in_turn (map call_kind (concat (map (λ kv, cell_targets kv.2) m))).
Proof.
  intros Hk. induction m as [|kv m IH]; [done|]. cbn [map concat].
  rewrite map_app, in_turn_app, <-IH, <-Hk. done.
Qed.
End Kinds.

Lemma cell_kind ser_container ser_value x :
  kind (cell_serialize ser_container ser_value x) =
  in_turn (map (call_kind ser_container ser_value) (cell_targets x)).
Proof.
  unfold cell_serialize. rewrite kind_bind.
  transitivity (kind (cell_serialize_data ser_container ser_value (cell_data x)));
    [by destruct (cell_serialize_data _ _ _)|].
  unfold cell_targets. destruct (cell_data x) as [| | | | | | | | | | | | | |[c|]|l]; try done.
  - simpl. by destruct (ser_container c).
  - cbn [cell_serialize_data]. rewrite <-(elements_kind ser_container ser_value l (Val (put_u32 0 ++ [to_u8 0]))) by done.
    rewrite <-append_all_kind, kind_bind. by destruct (append_all _ l).
Qed.

Lemma container_kind ser_container ser_value m :
  kind (container_serialize ser_container ser_value m) =
  in_turn (map (call_kind ser_container ser_value) (concat (map (λ kv, cell_targets kv.2) m))).
Proof.
  unfold container_serialize. rewrite kind_bind.
  rewrite <-(entries_kind _ _ (λ x, kind (cell_serialize ser_container ser_value x)))
    by (intros; apply cell_kind).
  transitivity (in_turn (map (λ kv : string * cell, kind (let? value_data := cell_serialize ser_container ser_value kv.2 in
    Val (put_u32 (str_len kv.1) ++ str_bytes kv.1 ++ put_block value_data))) m)).
  - rewrite <-append_all_kind. by destruct (append_all _ m).
  - f_equal. apply map_ext. intros kv. rewrite kind_bind. by destruct (cell_serialize _ _ kv.2).
Qed.

(** The serializer makes the calls of the guarded walk. *)
Lemma serialize_kind reentrant h fuel locked serializing n :
  kind (heap_serialize reentrant h fuel locked serializing n) =
  walk true reentrant h fuel locked serializing n.
Proof.
  revert locked serializing n. induction fuel as [|fuel IH]; intros locked serializing n; [done|].
  cbn [heap_serialize walk]. destruct (relocking reentrant locked n); [done|].
  case_bool_decide as Ha.
  - assert (∀ p, call_kind
      (λ c, match circular_ref_guard serializing c with
            | Some s => let? data := heap_serialize reentrant h fuel (n :: locked) s (inl c) in Val (Some data)
            | None => Val None
            end)
      (λ v, heap_serialize reentrant h fuel (n :: locked) serializing (inr v)) p =
      match enter true serializing p with
      | Some s => walk true reentrant h fuel (n :: locked) s p
      | None => Val tt
      end) as Hc.
    { intros [c|v]; cbn [call_kind enter]; [|apply IH].
      destruct (circular_ref_guard serializing c); [|done]. rewrite <-IH, kind_bind.
      by destruct (heap_serialize _ _ _ _ _ _). }
    destruct n as [c|v]; cbn [allocated targets] in *; destruct Ha as [x ->]; cbn [default from_option].
    + rewrite container_kind. f_equal. by apply map_ext.
    + rewrite cell_kind. f_equal. by apply map_ext.
  - destruct n as [c|v]; cbn [allocated] in Ha; apply eq_None_not_Some in Ha; by rewrite Ha.
Qed.

(** ** Which calls are made *)

Section Calls.
Context (guarded : bool) (h : heap) (root : node).

(** The calls a thread makes that serializes [root]: the locks it holds, innermost
    first, the guards, and the object. *)
Inductive calls : list node → gset loc → node → Prop :=
| calls_root : calls [] ∅ root
| calls_inner locked serializing n p serializing' :
    calls locked serializing n → points_to h p n →
    enter guarded serializing p = Some serializing' → calls (n :: locked) serializing' p.

(** Some call takes a lock that an enclosing call holds. *)
Definition relocks : Prop := ∃ locked serializing n, calls locked serializing n ∧ n ∈ locked.

Definition reaches (n : node) : Prop := rtc (flip (points_to h)) root n.

Lemma calls_reach locked serializing n : calls locked serializing n → reaches n.
Proof. induction 1 as [|locked S n p S' _ IH Hp _]; [constructor|]. by eapply rtc_r. Qed.

(** What is in the set is being serialized. *)
Lemma calls_guards locked serializing n c :
  calls locked serializing n → c ∈ serializing → ∃ l S, calls l S (inl c).
Proof.
  intros H. revert c. induction H as [|locked S n p S' H IH Hp He]; intros c Hc; [by apply not_elem_of_empty in Hc|].
  pose proof (calls_inner _ _ _ _ _ H Hp He) as Hcall. destruct p as [c'|v]; cbn in He.
  - destruct guarded; [|injection He as <-; by apply IH]. unfold circular_ref_guard in He.
    case_decide; [done|]. injection He as <-.
    apply elem_of_union in Hc as [->%elem_of_singleton|Hc]; [eauto|by apply IH].
  - injection He as <-. by apply IH.
Qed.

Lemma calls_along n m :
  rtc (flip (points_to h)) n m → (∃ locked serializing, calls locked serializing n) →
  ∃ locked serializing, calls locked serializing m.
Proof.
  induction 1 as [|n p m Hp _ IH]; [done|]. intros (locked & S & Hc). apply IH.
  destruct (enter guarded S p) as [S'|] eqn:E; [exists (n :: locked), S'; by econstructor|].
  destruct p as [c|v]; [|done]. cbn in E. destruct guarded; [|done]. unfold circular_ref_guard in E.
  case_decide; [|done]. by apply (calls_guards locked S n).
Qed.

(** Every object that can be reached is called: where the guard stops, an enclosing
    call has it. *)
Lemma reach_calls n : reaches n → ∃ locked serializing, calls locked serializing n.
Proof. intros H. apply (calls_along root n H). exists [], ∅. constructor. Qed.
End Calls.

Section Facts.
Context (guarded reentrant : bool) (h : heap).
Abbreviation walk := (walk guarded reentrant h).

(** The call for one pointer. *)
Definition inner (fuel : nat) (locked : list node) (serializing : gset loc) (p : node) : res unit :=
  match enter guarded serializing p with
  | None => Val tt
  | Some serializing => walk fuel locked serializing p
  end.

Lemma walk_val fuel locked serializing n :
  walk (S fuel) locked serializing n = Val tt ↔
  relocking reentrant locked n = false ∧ allocated h n ∧
  ∀ p, points_to h p n → inner fuel (n :: locked) serializing p = Val tt.
Proof.
  cbn [ValueHeap.walk]. destruct (relocking reentrant locked n); [by split; [|intros [? _]]|].
  case_bool_decide as Ha; [|by split; [|intros (_ & ? & _)]].
  rewrite in_turn_val. split.
  - intros H. split_and!; [done..|]. intros p Hp. apply H.
    by apply (list_elem_of_fmap_2 (inner fuel (n :: locked) serializing)).
  - intros (_ & _ & H) k (p & -> & Hp)%list_elem_of_fmap. by apply H.
Qed.

Lemma walk_more fuel fuel' locked serializing n :
  (fuel ≤ fuel')%nat → walk fuel locked serializing n = Val tt → walk fuel' locked serializing n = Val tt.
Proof.
  revert fuel' locked serializing n. induction fuel as [|fuel IH]; intros fuel' locked S n Hf; [done|].
  destruct fuel' as [|fuel']; [lia|]. rewrite !walk_val. intros (? & ? & H). split_and!; [done..|].
  intros p Hp. specialize (H p Hp). unfold inner in *. case_match; [|done]. apply IH; [lia|done].
Qed.

Lemma fuel_for_all locked serializing (l : list node) :
  (∀ p, p ∈ l → ∃ fuel, inner fuel locked serializing p = Val tt) →
  ∃ fuel, ∀ p, p ∈ l → inner fuel locked serializing p = Val tt.
Proof.
  induction l as [|p l IH]; intros H; [exists O; intros p Hp; by apply not_elem_of_nil in Hp|].
  destruct IH as (n & Hn); [intros q Hq; apply H; by right|].
  destruct (H p) as (m & Hm); [by left|]. exists (Nat.max m n).
  assert (∀ k q, (k ≤ Nat.max m n)%nat → inner k locked serializing q = Val tt →
    inner (Nat.max m n) locked serializing q = Val tt) as Hmore.
  { intros k q Hk. unfold inner. case_match; [|done]. by apply walk_more. }
  intros q [->|Hq]%elem_of_cons; [apply (Hmore m)|apply (Hmore n)]; auto; lia.
Qed.

(** One level: an object returns when all it calls do. *)
Lemma walk_level locked serializing n :
  relocking reentrant locked n = false → allocated h n →
  (∀ p serializing', points_to h p n → enter guarded serializing p = Some serializing' →
     ∃ fuel, walk fuel (n :: locked) serializing' p = Val tt) →
  ∃ fuel, walk fuel locked serializing n = Val tt.
Proof.
  intros Hr Ha H. destruct (fuel_for_all (n :: locked) serializing (targets h n)) as (fuel & Hf).
  { intros p Hp. unfold inner. destruct (enter _ _ _) eqn:E; [by apply (H p)|by exists O]. }
  exists (S fuel). by apply walk_val.
Qed.

(** A call that returns is made of calls that return. *)
Lemma calls_return root locked serializing n fuel :
  calls guarded h root locked serializing n → walk fuel [] ∅ root = Val tt →
  ∃ fuel', walk (S fuel') locked serializing n = Val tt.
Proof.
  intros Hc Hroot. induction Hc as [|locked S n p S' _ IH Hp He].
  - destruct fuel as [|fuel]; [done|by exists fuel].
  - destruct IH as (f & (_ & _ & H)%walk_val). specialize (H p Hp). unfold inner in H. rewrite He in H.
    destruct f as [|f]; [done|by exists f].
Qed.
End Facts.

(** ** Locks that can be taken again: only arrays make the serializer loop *)

Section Reentrant.
Context (h : heap) (Hclosed : closed h).
Abbreviation walk := (walk true true h).

Definition unvisited (serializing : gset loc) : nat := size (dom (containers h) ∖ serializing).

Lemma unvisited_guard S c S' :
  is_Some (containers h !! c) → circular_ref_guard S c = Some S' → (unvisited S' < unvisited S)%nat.
Proof.
  unfold circular_ref_guard, unvisited. case_decide as Hc; [done|]. intros Hin [= <-].
  apply subset_size. apply elem_of_dom in Hin. set_solver.
Qed.

(** A value returns when the containers called from it do and its arrays are well founded. *)
Lemma value_returns_acc v locked serializing :
  Acc (element_of h) v → is_Some (values h !! v) →
  (∀ c locked serializing', is_Some (containers h !! c) → circular_ref_guard serializing c = Some serializing' →
     rtc (flip (points_to h)) (inr v) (inl c) → ∃ fuel, walk fuel locked serializing' (inl c) = Val tt) →
  ∃ fuel, walk fuel locked serializing (inr v) = Val tt.
Proof.
  intros Hacc. revert locked. induction Hacc as [v _ IH]. intros locked Hv Hc.
  apply walk_level; [done|done|]. intros [c|w] S' Hp He; cbn in He.
  - apply Hc; [exact (Hclosed _ _ Hp)|done|]. by apply rtc_once.
  - injection He as <-. apply IH; [done|exact (Hclosed _ _ Hp)|].
    intros c l S' ?? Hr. apply Hc; [done|done|]. eapply rtc_l; [|exact Hr]. exact Hp.
Qed.

Lemma container_returns_acc k c locked serializing :
  (unvisited serializing ≤ k)%nat → is_Some (containers h !! c) →
  (∀ v, rtc (flip (points_to h)) (inl c) (inr v) → Acc (element_of h) v) →
  ∃ fuel, walk fuel locked serializing (inl c) = Val tt.
Proof.
  revert c locked serializing. induction k as [|k IH]; intros c locked S Hk Hc Hacc;
    (apply walk_level; [done|done|]); intros [d|v] S' Hp He; cbn in He.
  - pose proof (unvisited_guard _ _ _ (Hclosed _ _ Hp) He). lia.
  - injection He as <-. apply value_returns_acc; [by apply Hacc, rtc_once|exact (Hclosed _ _ Hp)|].
    intros d l S' Hd He _. pose proof (unvisited_guard _ _ _ Hd He). lia.
  - apply IH; [|exact (Hclosed _ _ Hp)|].
    + pose proof (unvisited_guard _ _ _ (Hclosed _ _ Hp) He). lia.
    + intros w Hw. apply Hacc. by eapply rtc_l.
  - injection He as <-. apply value_returns_acc; [by apply Hacc, rtc_once|exact (Hclosed _ _ Hp)|].
    intros d l S' Hd He Hr. apply IH; [|done|].
    + pose proof (unvisited_guard _ _ _ Hd He). lia.
    + intros w Hw. apply Hacc. eapply rtc_l; [exact Hp|]. by etrans.
Qed.

(** The elements of an array that returns return. *)
Lemma return_acc fuel locked serializing v :
  walk fuel locked serializing (inr v) = Val tt → Acc (element_of h) v.
Proof.
  revert locked v. induction fuel as [|fuel IH]; intros locked v H; [done|].
  apply walk_val in H as (_ & _ & H). constructor. intros w Hw. exact (IH _ w (H (inr w) Hw)).
Qed.

Lemma reentrant_returns c :
  is_Some (containers h !! c) →
  (∃ fuel, walk fuel [] ∅ (inl c) = Val tt) ↔ ∀ v, reaches h (inl c) (inr v) → Acc (element_of h) v.
Proof.
  intros Hc. split.
  - intros (fuel & Hf) v Hv. destruct (reach_calls true h _ _ Hv) as (locked & S & Hcall).
    destruct (calls_return true true h _ _ _ _ fuel Hcall Hf) as (f & Hw). by eapply return_acc.
  - intros Hacc. by apply (container_returns_acc (unvisited ∅)).
Qed.
End Reentrant.

(** ** Locks that must not be taken again *)

Section Strict.
Context (guarded : bool) (h : heap) (Hclosed : closed h).
Abbreviation walk := (walk guarded false h).

Lemma relocking_false locked n : relocking false locked n = false ↔ n ∉ locked.
Proof. unfold relocking. simpl. by rewrite bool_decide_eq_false. Qed.

(** The locks held are those of different objects, so calls nest at most so deep. *)
Definition objects : gset node :=
  set_map (inl (B:=loc)) (dom (containers h)) ∪ set_map (inr (A:=loc)) (dom (values h)).

Lemma elem_of_objects n : n ∈ objects ↔ allocated h n.
Proof.
  unfold objects. rewrite elem_of_union.
  assert (∀ c, inl c ∈ (set_map inl (dom (containers h)) : gset node) ↔ allocated h (inl c)) as Hc.
  { intros c. cbn. rewrite <-elem_of_dom, elem_of_map. naive_solver. }
  assert (∀ v, inr v ∈ (set_map inr (dom (values h)) : gset node) ↔ allocated h (inr v)) as Hv.
  { intros v. cbn. rewrite <-elem_of_dom, elem_of_map. naive_solver. }
  destruct n as [c|v]; split.
  - intros [?%Hc|(w & ? & _)%elem_of_map]; done.
  - intros ?. left. by apply Hc.
  - intros [(w & ? & _)%elem_of_map|?%Hv]; done.
  - intros ?. right. by apply Hv.
Qed.

Lemma locked_bound locked :
  NoDup locked → (∀ n, n ∈ locked → allocated h n) → (length locked ≤ size objects)%nat.
Proof.
  intros Hnd Hl. rewrite <-(size_list_to_set (C:=gset node)) by done. apply subseteq_size.
  intros n ?%elem_of_list_to_set. by apply elem_of_objects, Hl.
Qed.

Lemma strict_ends fuel locked serializing n :
  NoDup locked → (∀ m, m ∈ locked → allocated h m) → allocated h n →
  (size objects < fuel + length locked)%nat → walk fuel locked serializing n ≠ NoFuel.
Proof.
  revert locked serializing n. induction fuel as [|fuel IH]; intros locked S n Hnd Hl Hn Hf.
  { pose proof (locked_bound locked Hnd Hl). lia. }
  cbn [ValueHeap.walk]. destruct (relocking false locked n) eqn:Er; [done|]. apply relocking_false in Er.
  rewrite bool_decide_eq_true_2 by done. intros E. pose proof (in_turn_bad _ _ E ltac:(done)) as Hin.
  apply list_elem_of_fmap in Hin as (p & Hp & Hin). destruct (enter guarded S p) as [S'|]; [|done].
  symmetry in Hp. revert Hp. apply IH; [by constructor| |exact (Hclosed _ _ Hin)|cbn; lia].
  intros m [->|Hm]%elem_of_cons; auto.
Qed.

Lemma calls_allocated root locked serializing n :
  allocated h root → calls guarded h root locked serializing n → allocated h n.
Proof. intros Hr. induction 1 as [|locked S n p S' _ _ Hp _]; [done|exact (Hclosed _ _ Hp)]. Qed.

Lemma undefined_relocks root fuel locked serializing n :
  allocated h root → calls guarded h root locked serializing n →
  walk fuel locked serializing n = Undef → relocks guarded h root.
Proof.
  intros Hr. revert locked serializing n. induction fuel as [|fuel IH]; intros locked S n Hc; [done|].
  cbn [ValueHeap.walk]. destruct (relocking false locked n) eqn:Er.
  - intros _. exists locked, S, n. split; [done|]. unfold relocking in Er. by apply bool_decide_eq_true in Er.
  - rewrite bool_decide_eq_true_2 by (by eapply calls_allocated). intros E.
    pose proof (in_turn_bad _ _ E ltac:(done)) as Hin.
    apply list_elem_of_fmap in Hin as (p & Hp & Hin). destruct (enter guarded S p) as [S'|] eqn:Ee; [|done].
    apply (IH (n :: locked) S' p); [by econstructor|done].
Qed.

Lemma return_no_relock root fuel : walk fuel [] ∅ root = Val tt → ¬ relocks guarded h root.
Proof.
  intros Hf (locked & S & n & Hc & Hn).
  destruct (calls_return guarded false h _ _ _ _ fuel Hc Hf) as (f & (Hr & _)%walk_val).
  by apply relocking_false in Hr.
Qed.

Lemma strict_cases root :
  allocated h root →
  ((∃ fuel, walk fuel [] ∅ root = Val tt) ↔ ¬ relocks guarded h root) ∧
  ((∃ fuel, walk fuel [] ∅ root = Undef) ↔ relocks guarded h root).
Proof.
  intros Hr. pose proof (strict_ends (S (size objects)) [] ∅ root (NoDup_nil_2 (A:=node))
    ltac:(by intros ? ?%not_elem_of_nil) Hr ltac:(cbn; lia)) as Hend.
  assert (∀ fuel, walk fuel [] ∅ root = Undef → relocks guarded h root) as Hu.
  { intros fuel. apply undefined_relocks; [done|constructor]. }
  destruct (walk (S (size objects)) [] ∅ root) as [[]| |] eqn:E; [..|done].
  - pose proof (return_no_relock _ _ E). split; split; eauto. intros (f & Hf). by apply Hu in Hf.
    all: intros; done.
  - pose proof (Hu _ E) as H. split; split; eauto.
    + intros (f & Hf). by apply return_no_relock in Hf.
    + done.
Qed.
End Strict.

(** ** Without the guard *)

Section Unguarded.
Context (reentrant : bool) (h : heap) (Hclosed : closed h).
Abbreviation walk := (walk false reentrant h).

Lemma acc_no_cycle {A} (R : relation A) x : Acc R x → ¬ tc R x x.
Proof.
  induction 1 as [x _ IH]. intros Hx.
  assert (∃ y, R y x ∧ tc R y y) as (y & Hy & Hyy); [|exact (IH y Hy Hyy)].
  inversion Hx as [? ? Hxx|? y ? Hxy Hyx]; subst; [by exists x|].
  apply tc_rtc in Hyx. apply rtc_inv_r in Hyx as [->|(z & Hyz & Hz)]; [by exists x|].
  exists z. split; [done|]. apply (tc_l _ _ x); [done|]. apply (tc_rtc_r _ y); [by constructor|done].
Qed.

Lemma acc_returns n locked serializing :
  Acc (points_to h) n → allocated h n → (∀ m, m ∈ locked → tc (points_to h) n m) →
  ∃ fuel, walk fuel locked serializing n = Val tt.
Proof.
  intros Hacc. revert locked serializing. induction Hacc as [n Hn IH].
  intros locked S Ha Hl. apply walk_level.
  - unfold relocking. case_bool_decide as Hin; [|by rewrite andb_false_r].
    destruct (acc_no_cycle (points_to h) n); [by constructor|by apply Hl].
  - done.
  - intros p S' Hp _. apply (IH p Hp); [exact (Hclosed _ _ Hp)|].
    intros m [->|Hm]%elem_of_cons; [by constructor|]. eapply tc_l; [exact Hp|by apply Hl].
Qed.

Lemma unguarded_acc fuel locked serializing n :
  walk fuel locked serializing n = Val tt → Acc (points_to h) n.
Proof.
  revert locked serializing n. induction fuel as [|fuel IH]; intros locked S n H; [done|].
  apply walk_val in H as (_ & _ & H). constructor. intros p Hp. specialize (H p Hp).
  unfold inner in H. destruct p; exact (IH _ _ _ H).
Qed.

Lemma unguarded_returns n :
  allocated h n → (∃ fuel, walk fuel [] ∅ n = Val tt) ↔ Acc (points_to h) n.
Proof.
  intros Ha. split; [intros (f & Hf); by eapply unguarded_acc|].
  intros Hacc. apply acc_returns; [done|done|]. by intros m ?%not_elem_of_nil.
Qed.
End Unguarded.

(** ** Acyclic heaps *)

Section Trees.
Context (τ : loc → tree) (ν : loc → value tree).

(** The value a cell spans, and an object's bytes, when [τ] and [ν] say what trees the
    addresses span. *)
Definition cell_value (x : cell) : value tree :=
  Value (cell_name x) (variant_map (option_map τ) (map (option_map ν)) (cell_data x)).

Definition node_bytes (n : node) : list byte :=
  match n with inl c => tree_serialize (τ c) | inr v => serialize_value (ν v) end.

(** It can be chosen so when following pointers always ends. *)
Definition spans (h : heap) : Prop :=
  (∀ c m, containers h !! c = Some m → entries (τ c) = map (λ kv, (kv.1, cell_value kv.2)) m) ∧
  (∀ v x, values h !! v = Some x → ν v = cell_value x).

Lemma append_all_val {A} (f : A → res (list byte)) g l :
  (∀ x, x ∈ l → f x = Val (g x)) → append_all f l = Val (concat (map g l)).
Proof.
  induction l as [|x l IH]; intros H; [done|]. cbn [append_all map concat].
  rewrite (H x), IH; [done| |by left]. intros y ?. apply H. by right.
Qed.

Lemma cell_target_smaller p x :
  p ∈ cell_targets x → (length (node_bytes p) < length (serialize_value (cell_value x)))%nat.
Proof.
  unfold cell_targets. destruct x as [name d]. cbn [cell_data].
  destruct d as [| | | | | | | | | | | | | |[c|]|l]; try (by intros ?%not_elem_of_nil).
  - intros ->%list_elem_of_singleton. cbn [node_bytes].
    pose proof (container_smaller (cell_value (Cell name (V_container (Some c)))) (τ c) eq_refl). lia.
  - intros (o & Ho & Hp)%list_elem_of_omap. destruct o as [v|]; [|done]. injection Hp as <-.
    pose proof (elem_smaller (cell_value (Cell name (V_array l))) (map (option_map ν) l) (Some (ν v)) eq_refl) as Hs.
    cbn [elem_value node_bytes] in *. enough (Some (ν v) ∈ map (option_map ν) l) as Hin; [specialize (Hs Hin); lia|].
    by apply (list_elem_of_fmap_2 (option_map ν) l (Some v)).
Qed.

Lemma target_smaller h p n :
  spans h → points_to h p n → (length (node_bytes p) < length (node_bytes n))%nat.
Proof.
  intros (Ht & Hv). unfold points_to, targets. destruct n as [c|v].
  - destruct (containers h !! c) as [m|] eqn:E; [|by intros ?%not_elem_of_nil]. cbn [default].
    intros (ps & Hps & Hp)%list_elem_of_In%in_concat. apply in_map_iff in Hps as (kv & <- & Hkv).
    apply list_elem_of_In, cell_target_smaller in Hp. apply list_elem_of_In in Hkv.
    pose proof (entry_smaller (τ c) (kv.1, cell_value kv.2)) as Hs. rewrite (Ht _ _ E) in Hs. cbn [snd] in Hs.
    enough ((kv.1, cell_value kv.2) ∈ map (λ kv, (kv.1, cell_value kv.2)) m) as Hin;
      [specialize (Hs Hin); cbn [node_bytes]; lia|].
    by apply (list_elem_of_fmap_2 (λ kv, (kv.1, cell_value kv.2))).
  - destruct (values h !! v) as [x|] eqn:E; [|by intros ?%not_elem_of_nil]. cbn [from_option].
    intros Hp%cell_target_smaller. cbn [node_bytes]. by rewrite (Hv _ _ E).
Qed.

Section Callbacks.
Context (ser_container : loc → res (option (list byte))) (ser_value : loc → res (list byte)).

Definition answers (p : node) : Prop :=
  match p with
  | inl c => ser_container c = Val (Some (tree_serialize (τ c)))
  | inr v => ser_value v = Val (serialize_value (ν v))
  end.

Lemma cell_serialize_spans x :
  (∀ p, p ∈ cell_targets x → answers p) →
  cell_serialize ser_container ser_value x = Val (serialize_value (cell_value x)).
Proof.
  intros H. unfold cell_serialize. rewrite serialize_value_eq.
  enough (cell_serialize_data ser_container ser_value (cell_data x) = Val (data_bytes (data_ (cell_value x)))) as ->.
  { cbn. by destruct (cell_data x). }
  unfold cell_targets, cell_value in *. cbn [data_].
  destruct (cell_data x) as [| | | | | | | | | | | | | |[c|]|l]; try done.
  - cbn [cell_serialize_data]. by rewrite (H (inl c) (list_elem_of_here _ _) : ser_container c = _).
  - cbn [cell_serialize_data variant_map]. rewrite data_bytes_array, length_map, map_map.
    rewrite (append_all_val _ (λ o, elem_bytes (option_map ν o))); [done|].
    intros [v|] Ho; [|done]. apply (H (inr v)). apply list_elem_of_omap. by exists (Some v).
Qed.

Lemma container_serialize_spans c m :
  entries (τ c) = map (λ kv, (kv.1, cell_value kv.2)) m →
  (∀ p, p ∈ concat (map (λ kv, cell_targets kv.2) m) → answers p) →
  container_serialize ser_container ser_value m = Val (tree_serialize (τ c)).
Proof.
  intros E H. unfold container_serialize. rewrite tree_serialize_eq, E, length_map, map_map.
  rewrite (append_all_val _ (λ kv, entry_bytes (kv.1, cell_value kv.2))); [done|].
  intros kv Hkv. rewrite cell_serialize_spans; [done|]. intros p Hp. apply H.
  apply list_elem_of_In, in_concat. exists (cell_targets kv.2).
  split; [apply in_map_iff; exists kv; split; [done|]|]; by apply list_elem_of_In.
Qed.
End Callbacks.

Lemma heap_serialize_spans reentrant h fuel locked serializing n :
  closed h → spans h → allocated h n → (length (node_bytes n) < fuel)%nat →
  (∀ m, m ∈ locked → (length (node_bytes n) < length (node_bytes m))%nat) →
  (∀ s, s ∈ serializing → (length (node_bytes n) ≤ length (node_bytes (inl s)))%nat) →
  heap_serialize reentrant h fuel locked serializing n = Val (node_bytes n).
Proof.
  intros Hh Hs. revert locked serializing n.
  induction fuel as [|fuel IH]; intros locked S n Ha Hf Hl HS; [lia|].
  cbn [heap_serialize].
  assert (relocking reentrant locked n = false) as ->.
  { unfold relocking. case_bool_decide as Hin; [|by rewrite andb_false_r]. specialize (Hl _ Hin). lia. }
  assert (∀ p S', points_to h p n → (∀ s, s ∈ S' → s ∈ S ∨ inl s = p) →
    heap_serialize reentrant h fuel (n :: locked) S' p = Val (node_bytes p)) as Hcall.
  { intros p S' Hp HS'. pose proof (target_smaller h p n Hs Hp) as Hlt.
    apply IH; [exact (Hh _ _ Hp)|lia| |].
    - intros m [->|Hm]%elem_of_cons; [done|]. specialize (Hl m Hm). lia.
    - intros s [?%HS| ->]%HS'; lia. }
  assert (∀ p, points_to h p n → answers
    (λ c, match circular_ref_guard S c with
          | Some S' => let? data := heap_serialize reentrant h fuel (n :: locked) S' (inl c) in Val (Some data)
          | None => Val None
          end) (λ v, heap_serialize reentrant h fuel (n :: locked) S (inr v)) p) as Hans.
  { intros [c|v] Hp; [|apply (Hcall (inr v)); auto]. pose proof (target_smaller h _ n Hs Hp) as Hlt.
    unfold answers, circular_ref_guard. destruct (decide (c ∈ S)) as [Hin|_]; [specialize (HS _ Hin); lia|].
    rewrite (Hcall (inl c)); [done..|]. intros s [->%elem_of_singleton|?]%elem_of_union; auto. }
  destruct n as [c|v]; cbn [allocated targets points_to] in *; destruct Ha as [x Hx]; rewrite Hx.
  - apply container_serialize_spans; [by apply (proj1 Hs)|]. unfold points_to, targets in Hans. by rewrite Hx in Hans.
  - cbn [node_bytes]. rewrite (proj2 Hs v x Hx). apply cell_serialize_spans.
    unfold points_to, targets in Hans. by rewrite Hx in Hans.
Qed.
End Trees.

(** ** More fuel does not change the answer *)

Definition refines {A} (r r' : res A) : Prop := ∀ a, r = Val a → r' = Val a.

Lemma refines_refl {A} (r : res A) : refines r r.
Proof. by intros a. Qed.
#[local] Hint Resolve refines_refl : core.

Lemma refines_bind {A B} (r r' : res A) (f f' : A → res B) :
  refines r r' → (∀ a, refines (f a) (f' a)) → refines (res_bind f r) (res_bind f' r').
Proof. intros Hr Hf b. destruct r as [a| |]; [|discriminate..]. rewrite (Hr a eq_refl). apply Hf. Qed.

Lemma refines_append_all {A} (f f' : A → res (list byte)) l :
  (∀ x, refines (f x) (f' x)) → refines (append_all f l) (append_all f' l).
Proof.
  intros Hf. induction l as [|x l IH]; [done|]. cbn [append_all].
  apply refines_bind; [apply Hf|]. intros a. by apply refines_bind.
Qed.

Section More.
Context (sc sc' : loc → res (option (list byte))) (sv sv' : loc → res (list byte)).
Hypothesis (Hsc : ∀ c, refines (sc c) (sc' c)) (Hsv : ∀ v, refines (sv v) (sv' v)).

Lemma refines_cell x : refines (cell_serialize sc sv x) (cell_serialize sc' sv' x).
Proof.
  apply refines_bind; [|done]. destruct (cell_data x) as [| | | | | | | | | | | | | |[c|]|l]; try done.
  - by apply refines_bind.
  - apply refines_bind; [|done]. apply refines_append_all. by intros [v|].
Qed.

Lemma refines_container m : refines (container_serialize sc sv m) (container_serialize sc' sv' m).
Proof.
  apply refines_bind; [|done]. apply refines_append_all. intros kv.
  apply refines_bind; [apply refines_cell|done].
Qed.
End More.

Lemma heap_serialize_more reentrant h fuel fuel' locked serializing n :
  (fuel ≤ fuel')%nat →
  refines (heap_serialize reentrant h fuel locked serializing n)
          (heap_serialize reentrant h fuel' locked serializing n).
Proof.
  revert fuel' locked serializing n. induction fuel as [|fuel IH]; intros fuel' locked S' n Hf; [done|].
  destruct fuel' as [|fuel']; [lia|]. cbn [heap_serialize].
  destruct (relocking reentrant locked n); [done|].
  assert (∀ S n', refines (heap_serialize reentrant h fuel (n :: locked) S n')
    (heap_serialize reentrant h fuel' (n :: locked) S n')) as H by (intros; apply IH; lia).
  destruct n as [c|v]; (case_match; [|done]); [apply refines_container|apply refines_cell]; try (intros; apply H);
    intros d; destruct (circular_ref_guard S' d); try done; by apply refines_bind.
Qed.

(** The bytes of an object, when serializing it returns. *)
Definition serializes (reentrant : bool) (h : heap) (n : node) (bs : list byte) : Prop :=
  ∃ fuel0, ∀ fuel, (fuel0 ≤ fuel)%nat → heap_serialize reentrant h fuel [] ∅ n = Val bs.

Lemma serializes_walk reentrant h n :
  (∃ bs, serializes reentrant h n bs) ↔ ∃ fuel, walk true reentrant h fuel [] ∅ n = Val tt.
Proof.
  split.
  - intros (bs & f & Hf). exists f. rewrite <-serialize_kind. apply kind_val. eauto.
  - intros (f & Hf). rewrite <-serialize_kind in Hf. apply kind_val in Hf as (bs & Hbs).
    exists bs, f. intros f' Hle. by apply (heap_serialize_more _ _ f f' _ _ _ Hle).
Qed.

(** ** The properties *)

(** C6. When serializing a container of any heap without dangling pointers returns.
    If a thread may take a shared lock again: exactly if, in every array it reaches,
    following elements of elements ends; containers that hold themselves are no
    obstacle, an array among its own elements makes it run for ever.  By the
    standard: exactly if no call takes the lock of an object that an enclosing call
    is serializing, and otherwise the behaviour is undefined. *)
Theorem serialize_returns_iff h c :
  closed h → is_Some (containers h !! c) →
  ((∃ bs, serializes true h (inl c) bs) ↔ ∀ v, reaches h (inl c) (inr v) → Acc (element_of h) v) ∧
  ((∃ bs, serializes false h (inl c) bs) ↔ ¬ relocks true h (inl c)) ∧
  ((∃ fuel, heap_serialize false h fuel [] ∅ (inl c) = Undef) ↔ relocks true h (inl c)).
Proof.
  intros Hh Hc. rewrite !serializes_walk. destruct (strict_cases true h Hh (inl c) Hc) as (Hv & Hu).
  split_and!; [by apply reentrant_returns|done|]. rewrite <-Hu.
  split; intros (f & Hf); exists f; [|apply kind_undef]; by rewrite <-?serialize_kind, ?Hf in *.
Qed.

(** A container with an array that is its own only element. *)
Definition loop_heap : heap :=
  {| containers := {[ 1%positive := [("a"%string, Cell "" (V_array [Some 1%positive]))] ]};
     values := {[ 1%positive := Cell "" (V_array [Some 1%positive]) ]} |}.

Lemma loop_heap_targets n p : p ∈ targets loop_heap n → p = inr 1%positive.
Proof.
  destruct n as [c|v]; unfold targets, loop_heap; cbn [containers values].
  - destruct (decide (c = 1%positive)) as [->|Hc].
    + by intros ->%list_elem_of_singleton.
    + rewrite lookup_singleton_ne by done. by intros ?%not_elem_of_nil.
  - destruct (decide (v = 1%positive)) as [->|Hv].
    + by intros ->%list_elem_of_singleton.
    + rewrite lookup_singleton_ne by done. by intros ?%not_elem_of_nil.
Qed.

Lemma loop_heap_closed : closed loop_heap.
Proof. intros n p ->%loop_heap_targets. by eexists. Qed.

Lemma serialize_returns_iff_witness :
  (¬ ∃ bs, serializes true loop_heap (inl 1%positive) bs) ∧
  ¬ (∃ bs, serializes false loop_heap (inl 1%positive) bs) ∧
  relocks true loop_heap (inl 1%positive).
Proof.
  destruct (serialize_returns_iff loop_heap 1%positive loop_heap_closed) as (H1 & H2 & H3);
    [by eexists|].
  assert (relocks true loop_heap (inl 1%positive)) as H.
  { apply H3. exists 3%nat. vm_compute. reflexivity. }
  split_and!; [|by intros ?%H2|done]. rewrite H1. intros Hacc.
  apply (acc_no_cycle (element_of loop_heap) 1%positive).
  - apply Hacc. apply rtc_once. by left.
  - apply tc_once. by left.
Defined.

Lemma root_below guarded h root locked serializing n :
  calls guarded h root locked serializing n → n = root ∧ locked = [] ∨ root ∈ locked.
Proof.
  induction 1 as [|locked S n p S' _ IH _ _]; [by left|]. right.
  destruct IH as [(-> & ->)|?]; [by left|by right].
Qed.

Lemma tc_last {A} (R : relation A) x y : tc R x y → ∃ z, rtc R x z ∧ R z y.
Proof.
  induction 1 as [x y H|x w y H _ (z & Hz & Hy)]; [by exists x|]. exists z. split; [by eapply rtc_l|done].
Qed.

(** A cycle through the container serialized first is always such a case. *)
Theorem self_reaching_relocks h c :
  tc (flip (points_to h)) (inl c) (inl c) → relocks true h (inl c).
Proof.
  intros Hc. apply tc_last in Hc as (n & Hn & Hp).
  destruct (reach_calls true h _ n Hn) as (locked & S & Hcall).
  destruct (circular_ref_guard S c) as [S'|] eqn:E.
  - exists (n :: locked), S', (inl c). assert (calls true h (inl c) (n :: locked) S' (inl c)) as Hcc by by econstructor.
    split; [done|]. by destruct (root_below _ _ _ _ _ _ Hcc) as [[_ ?]|?].
  - assert (c ∈ S) as Hin. { unfold circular_ref_guard in E. by case_decide. }
    clear E Hn Hp. remember (inl c) as root eqn:Er. induction Hcall as [|locked S n p S' Hcall IH Hp He];
      [by apply not_elem_of_empty in Hin|]. subst root.
    destruct (decide (c ∈ S)) as [?|Hout]; [by apply IH|].
    pose proof (calls_inner _ _ _ _ _ _ _ _ Hcall Hp He) as Hcc. destruct p as [d|v]; cbn in He.
    + unfold circular_ref_guard in He. case_decide; [done|]. injection He as <-.
      apply elem_of_union in Hin as [->%elem_of_singleton|?]; [|done].
      exists (n :: locked), ({[d]} ∪ S), (inl d). split; [done|].
      by destruct (root_below _ _ _ _ _ _ Hcc) as [[_ ?]|?].
    + by injection He as <-.
Qed.

(** C7. On an acyclic heap serializing returns, neither the guard nor a lock taken
    twice is met, and sharing is invisible: the bytes are those of the tree the
    pointers span, with which [thread_safe_container::deserialize] gives a tree of
    fresh containers. *)
Theorem heap_serialize_tree reentrant h τ ν c :
  closed h → spans τ ν h → is_Some (containers h !! c) →
  serializes reentrant h (inl c) (tree_serialize (τ c)).
Proof.
  intros Hh Ht Hc. exists (S (length (tree_serialize (τ c)))). intros fuel Hf.
  apply (heap_serialize_spans τ ν reentrant h fuel [] ∅ (inl c)); try done.
  by intros m ?%not_elem_of_nil.
Qed.

(** A nested container that two entries share, and an array that has the same element
    twice. *)
Definition shared_cells : list (string * cell) :=
  [("a"%string, Cell "" (V_container (Some 2%positive)));
   ("b"%string, Cell "" (V_container (Some 2%positive)));
   ("c"%string, Cell "" (V_array [Some 1%positive; None; Some 1%positive]))].

Definition shared_heap : heap :=
  {| containers := {[ 1%positive := shared_cells;
                      2%positive := [("x"%string, Cell "" (V_int 5))] ]};
     values := {[ 1%positive := Cell "e" (V_container (Some 2%positive)) ]} |}.

Definition shared_leaf : tree := Tree [("x"%string, Value "" (V_int 5))].
Definition shared_element (v : loc) : value tree := Value "e" (V_container (Some shared_leaf)).
Definition shared_tree (c : loc) : tree :=
  if bool_decide (c = 2%positive) then shared_leaf
  else Tree [("a"%string, Value "" (V_container (Some shared_leaf)));
             ("b"%string, Value "" (V_container (Some shared_leaf)));
             ("c"%string, Value "" (V_array [Some (shared_element 1%positive); None;
                                             Some (shared_element 1%positive)]))].

Lemma shared_heap_containers c m :
  containers shared_heap !! c = Some m →
  c = 1%positive ∧ m = shared_cells ∨ c = 2%positive ∧ m = [("x"%string, Cell "" (V_int 5))].
Proof.
  unfold shared_heap. cbn [containers].
  intros [[<- <-]|[? [<- <-]%lookup_singleton_Some]]%lookup_insert_Some; auto.
Qed.

Lemma shared_heap_values v x :
  values shared_heap !! v = Some x → v = 1%positive ∧ x = Cell "e" (V_container (Some 2%positive)).
Proof. unfold shared_heap. cbn [values]. by intros [<- <-]%lookup_singleton_Some. Qed.

Lemma shared_heap_closed : closed shared_heap.
Proof.
  intros [c|v] p; unfold targets.
  - destruct (containers shared_heap !! c) as [m|] eqn:E; [|by intros ?%not_elem_of_nil].
    apply shared_heap_containers in E as [[-> ->]|[-> ->]]; [|by intros ?%not_elem_of_nil].
    cbn [default from_option]. change (concat _) with [inl 2%positive; inl 2%positive; inr 1%positive; inr 1%positive].
    rewrite !elem_of_cons, elem_of_nil. intros [->|[->|[->|[->|[]]]]]; by eexists.
  - destruct (values shared_heap !! v) as [x|] eqn:E; [|by intros ?%not_elem_of_nil].
    apply shared_heap_values in E as [-> ->]. intros ->%list_elem_of_singleton. by eexists.
Qed.

Lemma heap_serialize_tree_witness :
  serializes false shared_heap (inl 1%positive) (tree_serialize (shared_tree 1%positive)).
Proof.
  apply (heap_serialize_tree false shared_heap shared_tree shared_element).
  - apply shared_heap_closed.
  - split.
    + by intros c m [[-> ->]|[-> ->]]%shared_heap_containers.
    + by intros v x [-> ->]%shared_heap_values.
  - by eexists.
Defined.

(** A container that holds itself. *)
Definition self_heap : heap :=
  {| containers := {[ 1%positive := [("self"%string, Cell "" (V_container (Some 1%positive)))] ]};
     values := ∅ |}.

(** Where locks may be taken again it is written with the inner occurrence of its
    inner occurrence replaced by a null container, so the bytes decode to one
    unrolling; by the standard the behaviour is undefined. *)
Theorem cyclic_container_unrolls_once :
  (let? bs := heap_serialize true self_heap 3 [] ∅ (inl 1%positive) in tree_deserialize bs) =
  Val (Some (Tree [("self"%string, Value "" (V_container (Some
    (Tree [("self"%string, Value "" (V_container None))]))))])) ∧
  heap_serialize false self_heap 3 [] ∅ (inl 1%positive) = Undef.
Proof. split; vm_compute; reflexivity. Qed.
