(* ===== verification/ThreadSafeContainer.v ===== *)
(** * thread_safe_container: operations under the lock

    [internal/thread_safe_container.h] and [.cpp].  Every operation takes
    [mutex_] for its whole body and is one function here; that a concurrent
    execution is a sequence of them is proved in LockedContainers.v.  The
    exception is [index], which is [operator[]] and one write through the reference
    it returns: in the code that write comes after the lock is released, and
    LockedContainers.v and LockfreeReader.v have it as a step of its own.  [C] names
    nested containers ([shared_ptr], compared as addresses by [same_ptr]).

    [values_] is an [unordered_map]; assignment to an element keeps the name of
    the element ([value.assign]), so a value stored under a fresh key by
    [values_[key] = ...] has the empty name of the default-constructed element.
    The counters are [atomic<size_t>], 64 bits wide.  A container that was moved
    from is empty (the standard leaves it unspecified; this is what the standard
    libraries do).  A value that is copied loses the null elements of its arrays
    ([value.copy]); a parameter taken by value is moved on. *)

From S2P Require Import Prelude Bytes Float Types UnorderedMap Value.

Module thread_safe_container.

Section Operations.
Context {C : Type} (same_ptr : option C → option C → bool).

Abbreviation value_map := (list (string * value C)).

Record t : Type := Container {
  values_ : value_map;
  read_count_ : Z;
  write_count_ : Z;
  bulk_read_count_ : Z;
  bulk_write_count_ : Z }.

Definition empty_container : t := Container [] 0 0 0 0.

(** [fetch_add(1)] *)
Definition incr (z : Z) : Z := wrap 64 (z + 1).

Definition with_values (m : value_map) (c : t) : t :=
  Container m (read_count_ c) (write_count_ c) (bulk_read_count_ c) (bulk_write_count_ c).
Definition count_read (c : t) : t :=
  Container (values_ c) (incr (read_count_ c)) (write_count_ c)
    (bulk_read_count_ c) (bulk_write_count_ c).
Definition count_write (c : t) : t :=
  Container (values_ c) (read_count_ c) (incr (write_count_ c))
    (bulk_read_count_ c) (bulk_write_count_ c).
Definition count_bulk_read (c : t) : t :=
  Container (values_ c) (read_count_ c) (write_count_ c)
    (incr (bulk_read_count_ c)) (bulk_write_count_ c).
Definition count_bulk_write (c : t) : t :=
  Container (values_ c) (read_count_ c) (write_count_ c)
    (bulk_read_count_ c) (incr (bulk_write_count_ c)).

(** [values_[key] = v] *)
Definition assign_at (key : string) (v : value C) (m : value_map) : value_map :=
  um_index (value.of_name "") (λ old, value.assign old v) key m.

Definition of_list (init : list (string * value C)) : t :=
  with_values (fold_left (λ m kv, um_emplace kv.1 (value.copy kv.2) m) init []) empty_container.

(** A copy of the map. *)
Definition copy_map (m : value_map) : value_map := map (λ kv, (kv.1, value.copy kv.2)) m.

Definition copy (other : t) : t := with_values (copy_map (values_ other)) other.

(** The new object and what is left of the source. *)
Definition move (other : t) : t * t := (other, empty_container).

Definition copy_assign (self other : t) : t :=
  count_write (with_values (copy_map (values_ other)) self).

Definition move_assign (self other : t) : t * t :=
  (count_write (with_values (values_ other) self), with_values [] other).

Definition get (key : string) (c : t) : t * option (value C) :=
  (count_read c, value.copy <$> um_find key (values_ c)).

Definition get_typed (ty : value_types) (key : string) (c : t) : option (ValueVariant C) :=
  um_find key (values_ c) ≫= value.get ty.

Definition set (key : string) (v : value C) (c : t) : t :=
  with_values (assign_at key v (values_ c)) (count_write c).

Definition set_typed (key : string) (d : ValueVariant C) (c : t) : t := set key (Value key d) c.

Definition remove (key : string) (c : t) : t * bool :=
  let c := count_write c in
  match um_find key (values_ c) with
  | Some _ => (with_values (um_erase key (values_ c)) c, true)
  | None => (c, false)
  end.

Definition clear (c : t) : t := with_values [] (count_write c).
Definition size (c : t) : Z := um_size (values_ c).
Definition empty (c : t) : bool := bool_decide (values_ c = []).

Definition contains (key : string) (c : t) : t * bool :=
  (count_read c, um_contains key (values_ c)).

Definition keys (c : t) : t * list string := (count_read c, um_keys (values_ c)).

Definition set_variant (v : value C) (c : t) : t :=
  with_values (assign_at (name_ v) (value.copy v) (values_ c)) (count_write c).

Definition get_variant (key : string) (c : t) : t * option (value C) :=
  (count_read c, value.copy <$> um_find key (values_ c)).

Definition set_container (key : string) (container : option C) (c : t) : t :=
  with_values (assign_at key (Value key (V_container container)) (values_ c)) (count_write c).

Definition get_container (key : string) (c : t) : t * option C :=
  (count_read c,
   match um_find key (values_ c) with
   | Some v => match data_ v with V_container p => p | _ => None end
   | None => None
   end).

(** The callbacks are functions; a mutable one may assign to the element. *)
Definition for_each {S} (func : string → value C → S → S) (c : t) (s : S) : S :=
  fold_left (λ s kv, func kv.1 kv.2 s) (values_ c) s.
Definition for_each_mut (func : string → value C → value C) (c : t) : t :=
  with_values (map (λ kv, (kv.1, func kv.1 kv.2)) (values_ c)) c.

Definition bulk_update (updater : value_map → value_map) (c : t) : t :=
  count_bulk_write (with_values (updater (values_ c)) c).
Definition bulk_read {R} (reader : value_map → R) (c : t) : t * R :=
  (count_bulk_read c, reader (values_ c)).

Definition compare_exchange (key : string) (expected desired : value C) (c : t) : t * bool :=
  let c := count_write c in
  match um_find key (values_ c) with
  | Some v =>
      if value.eqb same_ptr v expected then
        (with_values (assign_at key (value.copy desired) (values_ c)) c, true)
      else (c, false)
  | None => (c, false)
  end.

(** [operator[]] followed by an update of the element it returns. *)
Definition index (key : string) (update : value C → value C) (c : t) : t :=
  with_values (um_index (value.of_name key) update key (values_ c)) (count_write c).

Record Statistics : Type := Stats {
  stat_read_count : Z; stat_write_count : Z;
  stat_bulk_read_count : Z; stat_bulk_write_count : Z; stat_size : Z }.

Definition get_statistics (c : t) : Statistics :=
  Stats (read_count_ c) (write_count_ c) (bulk_read_count_ c) (bulk_write_count_ c)
    (um_size (values_ c)).
End Operations.
Arguments t : clear implicits.
End thread_safe_container.
