(* ===== verification/ThreadSafeContainerFacts.v ===== *)
(** * thread_safe_container refines a finite map

    The specification is a [gmap] from keys to values and the four counters;
    [spec_run] is what each operation promises.  [container_refines_map]: every
    sequence of operations, and by LockedContainers.v every concurrent execution,
    gives the results and the final map of the specification, keeps the keys
    distinct and counts the operations.  Then compare_exchange: at most one of
    the competing exchanges wins, and why it never succeeds against a value
    that was just [set]. *)

From S2P Require Import Prelude Bytes Float Types UnorderedMap Value ValueFacts ThreadSafeContainer.

(** ** Copies of values *)

(** What was copied once is copied exactly, under any name. *)
Lemma copy_copied {C} n (v : value C) :
  value.copy (Value n (data_ (value.copy v))) = Value n (data_ (value.copy v)).
Proof.
  revert n. induction v as [name d IH] using value_ind'. intros n.
  destruct d as [| | | | | | | | | | | | | | |l]; try done.
  cbn [value.copy data_ name_]. do 2 f_equal.
  induction l as [|[e|] l IHl]; [done| |].
  - f_equal.
    + pose proof (IH _ e eq_refl ltac:(by left) (name_ e)) as H. destruct e. by f_equal.
    + apply IHl. intros l' e' [= <-] He. apply (IH _ e' eq_refl). by right.
  - apply IHl. intros l' e' [= <-] He. apply (IH _ e' eq_refl). by right.
Qed.

Lemma copy_idemp {C} (v : value C) : value.copy (value.copy v) = value.copy v.
Proof. pose proof (copy_copied (name_ v) v) as H. by destruct v. Qed.

Lemma get_copy {C} ty (v : value C) : value.get ty (value.copy v) = value.get ty v.
Proof.
  unfold value.get, value.type. assert (variant_type (data_ (value.copy v)) = variant_type (data_ v)) as ->
    by by destruct v as [? []].
  case_decide; [|done]. f_equal. unfold value.copy_data. rewrite copy_copied. by destruct v.
Qed.

Lemma copy_map_keys {C} (m : list (string * value C)) :
  um_keys (thread_safe_container.copy_map m) = um_keys m.
Proof. unfold um_keys, thread_safe_container.copy_map. rewrite <-list_fmap_compose. by apply list_fmap_ext. Qed.

Lemma copy_map_find {C} key (m : list (string * value C)) :
  um_find key (thread_safe_container.copy_map m) = value.copy <$> um_find key m.
Proof.
  induction m as [|[k v] m IH]; [done|]. cbn [thread_safe_container.copy_map map um_find fst snd].
  by case_bool_decide.
Qed.

Section Container.
Context {C : Type} (same_ptr : option C → option C → bool).
Import thread_safe_container.

(** ** Operations and their results as data *)

Inductive op : Type :=
| Get (key : string) | GetTyped (ty : value_types) (key : string)
| Set_ (key : string) (v : value C) | SetTyped (key : string) (d : ValueVariant C)
| Remove (key : string) | Clear | Size | Empty | Contains (key : string) | Keys
| SetVariant (v : value C) | GetVariant (key : string)
| SetContainer (key : string) (p : option C) | GetContainer (key : string)
| CompareExchange (key : string) (expected desired : value C)
| Index (key : string) (update : value C → value C).

Inductive result : Type :=
| R_unit | R_bool (b : bool) | R_size (n : Z) | R_value (o : option (value C))
| R_data (o : option (ValueVariant C)) | R_pointer (o : option C) | R_keys (ks : list string).

Definition run (o : op) (c : t C) : t C * result :=
  match o with
  | Get k => prod_map id R_value (get k c)
  | GetTyped ty k => (c, R_data (get_typed ty k c))
  | Set_ k v => (set k v c, R_unit)
  | SetTyped k d => (set_typed k d c, R_unit)
  | Remove k => prod_map id R_bool (remove k c)
  | Clear => (clear c, R_unit)
  | Size => (c, R_size (size c))
  | Empty => (c, R_bool (empty c))
  | Contains k => prod_map id R_bool (contains k c)
  | Keys => prod_map id R_keys (keys c)
  | SetVariant v => (set_variant v c, R_unit)
  | GetVariant k => prod_map id R_value (get_variant k c)
  | SetContainer k p => (set_container k p c, R_unit)
  | GetContainer k => prod_map id R_pointer (get_container k c)
  | CompareExchange k e d => prod_map id R_bool (compare_exchange same_ptr k e d c)
  | Index k f => (index k f c, R_unit)
  end.

(** ** The specification *)

Abbreviation contents := (gmap string (value C)).

(** What [values_[k] = v] does: the name of the element is not assigned. *)
Definition put (k : string) (v : value C) (m : contents) : contents :=
  <[k := value.assign (default (value.of_name "") (m !! k)) v]> m.

(** The result is compared up to the order of the keys. *)
Definition spec_run (o : op) (m : contents) : contents * (result → Prop) :=
  match o with
  | Get k | GetVariant k => (m, eq (R_value (value.copy <$> m !! k)))
  | GetTyped ty k => (m, eq (R_data (m !! k ≫= value.get ty)))
  | Set_ k v => (put k v m, eq R_unit)
  | SetTyped k d => (put k (Value k d) m, eq R_unit)
  | Remove k => (delete k m, eq (R_bool (bool_decide (is_Some (m !! k)))))
  | Clear => (∅, eq R_unit)
  | Size => (m, eq (R_size (Z.of_nat (stdpp.base.size m))))
  | Empty => (m, eq (R_bool (bool_decide (m = ∅))))
  | Contains k => (m, eq (R_bool (bool_decide (is_Some (m !! k)))))
  | Keys => (m, λ r, ∃ ks, r = R_keys ks ∧ NoDup ks ∧ list_to_set ks = dom m)
  | SetVariant v => (put (name_ v) (value.copy v) m, eq R_unit)
  | SetContainer k p => (put k (Value k (V_container p)) m, eq R_unit)
  | GetContainer k =>
      (m, eq (R_pointer (m !! k ≫= λ v, match data_ v with V_container p => p | _ => None end)))
  | CompareExchange k e d =>
      match m !! k with
      | Some v => if value.eqb same_ptr v e then (put k (value.copy d) m, eq (R_bool true))
                  else (m, eq (R_bool false))
      | None => (m, eq (R_bool false))
      end
  | Index k f => (<[k := f (default (value.of_name k) (m !! k))]> m, eq R_unit)
  end.

(** Whether an operation counts as a read and as a write. *)
Definition is_read (o : op) : bool :=
  match o with
  | Get _ | Contains _ | Keys | GetVariant _ | GetContainer _ => true | _ => false
  end.
Definition is_write (o : op) : bool :=
  match o with
  | Set_ _ _ | SetTyped _ _ | Remove _ | Clear | SetVariant _ | SetContainer _ _
  | CompareExchange _ _ _ | Index _ _ => true | _ => false
  end.

(** ** One operation *)

Definition container_ok (c : t C) : Prop := um_ok (values_ c).
Definition map_of (c : t C) : contents := um_map (values_ c).

Lemma assign_at_map k v m : um_map (assign_at k v m) = put k v (um_map m).
Proof. unfold assign_at, put. by rewrite um_index_map, um_find_map. Qed.

Lemma um_contains_map k (m : list (string * value C)) :
  um_contains k m = bool_decide (is_Some (um_map m !! k)).
Proof. unfold um_contains. by rewrite um_find_map. Qed.

Lemma um_map_empty (m : list (string * value C)) :
  bool_decide (m = []) = bool_decide (um_map m = ∅).
Proof.
  apply bool_decide_ext. split; [by intros ->|]. destruct m as [|[k v] m]; [done|].
  intros E. apply (f_equal (lookup k)) in E. rewrite um_map_cons in E.
  by rewrite lookup_insert_eq, lookup_empty in E.
Qed.

Lemma run_refines o c :
  container_ok c →
  container_ok (run o c).1 ∧ map_of (run o c).1 = (spec_run o (map_of c)).1 ∧
  (spec_run o (map_of c)).2 (run o c).2.
Proof.
  unfold container_ok, map_of. intros Hok.
  destruct o; simpl; unfold get_typed, count_read, count_write, with_values; simpl;
    rewrite ?um_find_map, ?assign_at_map, ?um_contains_map;
    unfold assign_at; auto with umap.
  - unfold remove. simpl. rewrite ?um_find_map. destruct (um_map (values_ c) !! key) eqn:E; simpl.
    + split_and!; [auto with umap|by apply um_erase_map|done].
    + by split_and!; [|rewrite delete_id|].
  - split_and!; [done..|]. unfold size. by rewrite um_size_map.
  - split_and!; [done..|]. unfold empty. by rewrite um_map_empty.
  - split_and!; [done..|]. eexists. split_and!; [done|done|].
    unfold um_keys, um_map. by rewrite dom_list_to_map_L.
  - unfold compare_exchange. simpl. rewrite ?um_find_map.
    destruct (um_map (values_ c) !! key) as [v|] eqn:E; simpl; [|auto].
    destruct (value.eqb same_ptr v expected); simpl; [|auto].
    split_and!; [unfold assign_at; auto with umap|apply assign_at_map|done].
  - split_and!; [auto with umap| |done]. by rewrite um_index_map, ?um_find_map.
Qed.

Definition b2z (b : bool) : Z := if b then 1 else 0.

Lemma run_counts o c :
  (read_count_ c = wrap 64 (read_count_ c) → write_count_ c = wrap 64 (write_count_ c) →
   read_count_ (run o c).1 = wrap 64 (read_count_ c + b2z (is_read o)) ∧
   write_count_ (run o c).1 = wrap 64 (write_count_ c + b2z (is_write o))).
Proof.
  intros Hr Hw. destruct o; simpl;
    unfold remove, compare_exchange; simpl; repeat case_match; simpl;
    rewrite ?Z.add_0_r; by auto.
Qed.

(** ** Sequences of operations *)

Fixpoint run_all (os : list op) (c : t C) : t C * list result :=
  match os with
  | [] => (c, [])
  | o :: os => let '(c, r) := run o c in prod_map id (cons r) (run_all os c)
  end.

Fixpoint spec_all (os : list op) (m : contents) : contents * list (result → Prop) :=
  match os with
  | [] => (m, [])
  | o :: os => let '(m, p) := spec_run o m in prod_map id (cons p) (spec_all os m)
  end.

Definition count (f : op → bool) (os : list op) : Z :=
  fold_right (λ o n, b2z (f o) + n) 0 os.

Lemma run_all_refines os c :
  container_ok c →
  container_ok (run_all os c).1 ∧ map_of (run_all os c).1 = (spec_all os (map_of c)).1 ∧
  Forall2 (λ r p, p r) (run_all os c).2 (spec_all os (map_of c)).2.
Proof.
  revert c. induction os as [|o os IH]; intros c Hok; [done|]. cbn [run_all spec_all].
  pose proof (run_refines o c Hok) as (Hok' & Hm & Hr).
  destruct (run o c) as [c' r]. destruct (spec_run o (map_of c)) as [m' p]. simpl in *. subst m'.
  destruct (IH c' Hok') as (? & ? & ?).
  destruct (run_all os c'), (spec_all os (map_of c')). simpl in *. auto.
Qed.

Lemma wrap_add_wrap w a b : wrap w (wrap w a + b) = wrap w (a + b).
Proof. unfold wrap. apply Zplus_mod_idemp_l. Qed.

Lemma run_all_counts os c :
  0 ≤ read_count_ c < 2 ^ 64 → 0 ≤ write_count_ c < 2 ^ 64 →
  read_count_ (run_all os c).1 = wrap 64 (read_count_ c + count is_read os) ∧
  write_count_ (run_all os c).1 = wrap 64 (write_count_ c + count is_write os).
Proof.
  revert c. induction os as [|o os IH]; intros c Hr Hw; cbn [run_all count fold_right].
  - rewrite !Z.add_0_r, !wrap_small by lia. done.
  - destruct (run_counts o c) as [Er Ew]; [by rewrite wrap_small by lia..|].
    destruct (run o c) as [c' r]. simpl in Er, Ew.
    destruct (IH c') as [Er' Ew'];
      [rewrite Er; apply wrap_range; lia|rewrite Ew; apply wrap_range; lia|].
    destruct (run_all os c') as [c2 rs]. simpl in *. rewrite Er', Ew', Er, Ew.
    rewrite !wrap_add_wrap, !Z.add_assoc. done.
Qed.
End Container.

(** ** compare_exchange *)

Section CompareExchange.
Context {C : Type} (same_ptr : option C → option C → bool).
Import thread_safe_container.

Lemma find_assign_at k (v : value C) m :
  um_find k (assign_at k v m) =
  Some (value.assign (default (value.of_name "") (um_find k m)) v).
Proof.
  rewrite um_find_map, assign_at_map. unfold put.
  by rewrite lookup_insert_eq, um_find_map.
Qed.

Definition matches (key : string) (expected : value C) (c : t C) : bool :=
  match um_find key (values_ c) with
  | Some v => value.eqb same_ptr v expected
  | None => false
  end.

Lemma compare_exchange_result key e d c :
  (compare_exchange same_ptr key e d c).2 = matches key e c.
Proof. unfold compare_exchange, matches. simpl. by repeat case_match. Qed.

Lemma matches_after key e d c :
  value.eqb same_ptr (Value (match um_find key (values_ c) with
                             | Some v => name_ v | None => "" end) (data_ (value.copy d))) e = false →
  matches key e (compare_exchange same_ptr key e d c).1 = false.
Proof.
  intros Hd. unfold compare_exchange. simpl.
  destruct (um_find key (values_ c)) as [v|] eqn:E; simpl.
  - destruct (value.eqb same_ptr v e) eqn:Ev; unfold matches; simpl.
    + by rewrite find_assign_at, E.
    + by rewrite E.
  - unfold matches. simpl. by rewrite E.
Qed.

Lemma exchanges_lose key e ds c :
  (∀ d n, d ∈ ds → value.eqb same_ptr (Value n (data_ (value.copy d))) e = false) →
  matches key e c = false →
  (run_all same_ptr (map (CompareExchange key e) ds) c).2 = replicate (length ds) (R_bool false).
Proof.
  revert c. induction ds as [|d ds IH]; intros c Hd Hc; [done|].
  cbn [map run_all run]. pose proof (compare_exchange_result key e d c) as Hr.
  pose proof (matches_after key e d c) as Ha.
  destruct (compare_exchange same_ptr key e d c) as [c' b]. simpl in *. subst b.
  specialize (IH c' ltac:(intros; apply Hd; by right) ltac:(apply Ha, Hd; by left)).
  destruct (run_all same_ptr _ c'). simpl in *. by rewrite IH, Hc.
Qed.

(** No float in the value is a NaN, and pointers equal themselves. *)
Fixpoint nan_free (v : value C) : bool :=
  match data_ v with
  | V_float b => negb (f_is_nan f32 b)
  | V_double b => negb (f_is_nan f64 b)
  | V_array l => forallb (λ o, match o with Some e => nan_free e | None => true end) l
  | _ => true
  end.

Lemma eqb_refl (Hptr : ∀ p, same_ptr p p = true) v :
  nan_free v = true → value.eqb same_ptr v v = true.
Proof.
  induction v as [name d IH] using value_ind'. intros Hn.
  cbn [value.eqb name_ data_]. rewrite bool_decide_eq_true_2 by done. cbn [andb].
  destruct d as [|b| | | | | | | | |b|b|s|bs|c|l]; cbn [variant_eqb];
    rewrite ?Z.eqb_refl; auto using eqb_reflx, bool_decide_eq_true_2.
  1, 2: cbn in Hn; unfold f_eqb; by rewrite Hn, Z.eqb_refl.
  cbn [andb]. cbn [nan_free data_] in Hn.
  assert (∀ e, Some e ∈ l → value.eqb same_ptr e e = true) as Hl.
  { intros e He. apply (IH l e eq_refl He). rewrite forallb_forall in Hn.
    apply list_elem_of_In in He. by apply (Hn _ He). }
  clear IH Hn. induction l as [|o l IHl]; [done|]. destruct o as [e|].
  - rewrite Hl by (by left). apply IHl. intros. apply Hl. by right.
  - apply IHl. intros. apply Hl. by right.
Qed.
End CompareExchange.

(** Containers named by addresses. *)
Definition same_loc (a b : option loc) : bool := bool_decide (a = b).

(** Refinement: any sequence of operations on a container (any serialization
    of concurrent calls) returns
    what the finite-map specification says, leaves the map the specification
    leaves with distinct keys, and counts reads and writes modulo 2^64. *)
Theorem container_refines_map (os : list (op (C:=loc))) (c : thread_safe_container.t loc) :
  container_ok c →
  0 ≤ thread_safe_container.read_count_ c < 2 ^ 64 →
  0 ≤ thread_safe_container.write_count_ c < 2 ^ 64 →
  let '(c', results) := run_all same_loc os c in
  let '(m', promises) := spec_all same_loc os (map_of c) in
  container_ok c' ∧ map_of c' = m' ∧ Forall2 (λ r p, p r) results promises ∧
  thread_safe_container.read_count_ c'
    = wrap 64 (thread_safe_container.read_count_ c + count is_read os) ∧
  thread_safe_container.write_count_ c'
    = wrap 64 (thread_safe_container.write_count_ c + count is_write os).
Proof.
  intros Hok Hr Hw. pose proof (run_all_refines same_loc os c Hok) as (? & ? & ?).
  pose proof (run_all_counts same_loc os c Hr Hw) as [??].
  destruct (run_all same_loc os c), (spec_all same_loc os (map_of c)). done.
Qed.

Definition sample_ops : list (op (C:=loc)) :=
  [Set_ "a" (Value "a" (V_int 1)); Index "b" (value.set (V_bool true)); Get "a";
   CompareExchange "b" (Value "b" (V_bool true)) (Value "" V_null); Remove "a"; Size]%string.

Lemma container_refines_map_witness :
  let '(c', results) := run_all same_loc sample_ops thread_safe_container.empty_container in
  let '(m', promises) := spec_all same_loc sample_ops (map_of thread_safe_container.empty_container) in
  container_ok c' ∧ map_of c' = m' ∧ Forall2 (λ r p, p r) results promises ∧
  thread_safe_container.read_count_ c' = wrap 64 (0 + count is_read sample_ops) ∧
  thread_safe_container.write_count_ c' = wrap 64 (0 + count is_write sample_ops).
Proof.
  apply (container_refines_map sample_ops thread_safe_container.empty_container);
    [apply NoDup_nil_2|vm_compute; split; congruence..].
Defined.

(** Competing exchanges have one winner: when several threads call
    [compare_exchange] on a key with the same expected value and new values that
    differ from it, in whatever order the lock serializes them, the first one
    succeeds if the stored value matched, and every later one fails. *)
Theorem compare_exchange_single_winner key e d ds (c : thread_safe_container.t loc) :
  (∀ d' n, d' ∈ d :: ds → value.eqb same_loc (Value n (data_ (value.copy d'))) e = false) →
  (run_all same_loc (map (CompareExchange key e) (d :: ds)) c).2 =
  R_bool (matches same_loc key e c) :: replicate (length ds) (R_bool false).
Proof.
  intros Hd. cbn [map run_all run].
  pose proof (compare_exchange_result same_loc key e d c) as Hr.
  pose proof (matches_after same_loc key e d c) as Ha.
  destruct (thread_safe_container.compare_exchange same_loc key e d c) as [c' b].
  cbn [fst snd] in *. subst b.
  pose proof (exchanges_lose same_loc key e ds c' ltac:(intros; apply Hd; by right)
    ltac:(apply Ha, Hd; by left)) as El.
  change (R_bool (matches same_loc key e c) ::
    (run_all same_loc (map (CompareExchange key e) ds) c').2 =
    R_bool (matches same_loc key e c) :: replicate (length ds) (R_bool false)).
  by rewrite El.
Qed.

Definition one_container : thread_safe_container.t loc :=
  thread_safe_container.of_list [("k"%string, Value "k" (V_int 0))].

Lemma compare_exchange_single_winner_witness :
  (run_all same_loc (map (CompareExchange "k" (Value "k" (V_int 0)))
     (Value "k" (V_int 1) :: [Value "k" (V_int 2); Value "k" (V_int 3)])) one_container).2 =
  R_bool true :: replicate 2 (R_bool false).
Proof.
  apply (compare_exchange_single_winner "k" (Value "k" (V_int 0)) (Value "k" (V_int 1))
    [Value "k" (V_int 2); Value "k" (V_int 3)] one_container).
  intros d' n Hd. rewrite !elem_of_cons in Hd.
  destruct Hd as [->|[->|[->|Hd]]]; [by cbn; rewrite andb_false_r..|].
  by apply not_elem_of_nil in Hd.
Defined.

(** An exchange against the value that [get] returned succeeds, unless the
    value holds a NaN or [get] lost null elements of an array. *)
Theorem compare_exchange_current key v d (c : thread_safe_container.t loc) :
  um_find key (thread_safe_container.values_ c) = Some v → value.copy v = v → nan_free v = true →
  (thread_safe_container.get key c).2 = Some v ∧
  let '(c', ok) := thread_safe_container.compare_exchange same_loc key v d c in
  ok = true ∧ (thread_safe_container.get key c').2 = Some (Value (name_ v) (data_ (value.copy d))).
Proof.
  intros Hv Hcopy Hn. split; [simpl; rewrite Hv; simpl; by rewrite Hcopy|].
  unfold thread_safe_container.compare_exchange. simpl. rewrite Hv.
  rewrite eqb_refl; [|by intros; apply bool_decide_eq_true_2|done].
  split; [done|]. simpl. rewrite find_assign_at, Hv. cbn [fmap option_fmap option_map default].
  unfold value.assign. by rewrite copy_copied.
Qed.

Lemma compare_exchange_current_witness :
  (thread_safe_container.get "k" one_container).2 = Some (Value "k" (V_int 0)) ∧
  let '(c', ok) := thread_safe_container.compare_exchange same_loc "k"
                     (Value "k" (V_int 0)) (Value "z" (V_bool true)) one_container in
  ok = true ∧ (thread_safe_container.get "k" c').2 = Some (Value "k" (V_bool true)).
Proof. apply (compare_exchange_current "k" (Value "k" (V_int 0))); reflexivity. Defined.

(** A value loses its name when [set] stores it under a fresh key, and
    [operator==] compares names, so an exchange that expects the value that was
    just set fails. *)
Theorem compare_exchange_after_set_fails key v d (c : thread_safe_container.t loc) :
  (thread_safe_container.contains key c).2 = false → name_ v ≠ ""%string →
  (thread_safe_container.compare_exchange same_loc key v d
     (thread_safe_container.set key v c)).2 = false.
Proof.
  simpl. unfold um_contains. intros Hf Hn. rewrite compare_exchange_result.
  unfold matches. simpl. rewrite find_assign_at.
  apply bool_decide_eq_false in Hf. rewrite <-eq_None_not_Some in Hf. rewrite Hf.
  destruct v as [n w]. simpl in *. by rewrite bool_decide_eq_false_2 by congruence.
Qed.

Lemma compare_exchange_after_set_fails_witness :
  (thread_safe_container.compare_exchange same_loc "n" (Value "n" (V_int 1)) (Value "n" (V_int 2))
     (thread_safe_container.set "n" (Value "n" (V_int 1)) one_container)).2 = false.
Proof.
  apply (compare_exchange_after_set_fails "n" (Value "n" (V_int 1)));
    [vm_compute; reflexivity|discriminate].
Defined.
