(* ===== verification/LockedContainers.v ===== *)
(** * thread_safe_container: the methods as they lock

    Each method of [internal/thread_safe_container.cpp] as the actions of its
    body on the mutex, the map and the four atomic counters of the objects it
    works on; object [o] has the counters [4 o], ..., [4 o + 3].  An iterator is
    its validity ([it]) and is dereferenced by the key it was found under.
    [operator[]] returns a reference after it has unlocked, so that the
    assignment to the element is outside; [get_statistics] loads the counters
    one by one.  The callbacks of the bulk operations run under the lock.

    ThreadSafeContainer.v takes the methods as atomic.  Here this is proved:
    whatever the interleaving, the calls of any number of threads on any number
    of containers have the results and the effect of performing them one after
    the other ([containers_atomic]), they never race, and because [operator=]
    locks both containers at once the threads can always finish
    ([containers_finish]).  The two exceptions are shown by schedules:
    [index_races] and [statistics_not_atomic]. *)

From S2P Require Import Prelude Bytes Float Types UnorderedMap Value ValueFacts ThreadSafeContainer ThreadSafeContainerFacts Locking LockingFacts Atomicity.

Module locked_container.
Import thread_safe_container.

Section Methods.
Context {C : Type} (same_ptr : option C → option C → bool).
Abbreviation value_map := (list (string * value C)).
Abbreviation reply := (result (C:=C)).

(** The local variables of a method: whether [find] found the key, the elements
    copied from another container, the numbers collected, and what is returned. *)
Record locals : Type := Locals {
  it : bool; tmp : value_map; stats : list Z; ret : reply }.
Definition no_locals : locals := Locals false [] [] R_unit.
Definition set_it (b : bool) (l : locals) : locals := Locals b (tmp l) (stats l) (ret l).
Definition set_tmp (m : value_map) (l : locals) : locals := Locals (it l) m (stats l) (ret l).
Definition add_stat (z : Z) (l : locals) : locals := Locals (it l) (tmp l) (stats l ++ [z]) (ret l).
Definition set_ret (r : reply) (l : locals) : locals := Locals (it l) (tmp l) (stats l) r.
Abbreviation action := (action value_map locals).

Definition read_count (o : nat) : nat := 4 * o.
Definition write_count (o : nat) : nat := 4 * o + 1.
Definition bulk_read_count (o : nat) : nat := 4 * o + 2.
Definition bulk_write_count (o : nat) : nat := 4 * o + 3.
Definition count (k : nat) : action := FetchAdd k (λ _, true).

(** [auto it = values_.find(key)] *)
Definition find (self : nat) (key : string) : action :=
  Read self (λ m, set_it (um_contains key m)).
(** [return e], where [e] reads the map and knows whether the key was found. *)
Definition returns (self : nat) (e : bool → value_map → reply) : action :=
  Read self (λ m l, set_ret (e (it l) m) l).
(** A statement that changes the map. *)
Definition updates (self : nat) (f : bool → value_map → value_map) : action :=
  Write self (λ m l, (f (it l) m, l)).

Definition shared (self : nat) (acts : list action) : list action :=
  Lock Shared self :: acts ++ [Unlock self].
Definition unique (self : nat) (acts : list action) : list action :=
  Lock Exclusive self :: acts ++ [Unlock self].

Definition get (self : nat) (key : string) : list action :=
  shared self [count (read_count self); find self key;
    returns self (λ it m, R_value (if it then value.copy <$> um_find key m else None))].

Definition get_typed (self : nat) (ty : value_types) (key : string) : list action :=
  shared self [find self key;
    returns self (λ it m, R_data (if it then um_find key m ≫= value.get ty else None))].

Definition set (self : nat) (key : string) (v : value C) : list action :=
  unique self [count (write_count self); updates self (λ _, assign_at key v)].

Definition set_typed (self : nat) (key : string) (d : ValueVariant C) : list action :=
  set self key (Value key d).

Definition remove (self : nat) (key : string) : list action :=
  unique self [count (write_count self); find self key;
    updates self (λ it m, if it then um_erase key m else m);
    returns self (λ it _, R_bool it)].

Definition clear (self : nat) : list action :=
  unique self [count (write_count self); updates self (λ _ _, [])].

Definition size (self : nat) : list action :=
  shared self [returns self (λ _ m, R_size (um_size m))].

Definition empty (self : nat) : list action :=
  shared self [returns self (λ _ m, R_bool (bool_decide (m = [])))].

Definition contains (self : nat) (key : string) : list action :=
  shared self [count (read_count self); find self key; returns self (λ it _, R_bool it)].

Definition keys (self : nat) : list action :=
  shared self [count (read_count self); returns self (λ _ m, R_keys (um_keys m))].

Definition set_variant (self : nat) (v : value C) : list action :=
  unique self [count (write_count self); updates self (λ _, assign_at (name_ v) (value.copy v))].

Definition get_variant (self : nat) (key : string) : list action :=
  shared self [count (read_count self); find self key;
    returns self (λ it m, R_value (if it then value.copy <$> um_find key m else None))].

Definition set_container (self : nat) (key : string) (p : option C) : list action :=
  unique self [count (write_count self);
    updates self (λ _, assign_at key (Value key (V_container p)))].

Definition get_container (self : nat) (key : string) : list action :=
  shared self [count (read_count self); find self key;
    returns self (λ it m, R_pointer (if it then
      um_find key m ≫= λ v, match data_ v with V_container p => p | _ => None end else None))].

Definition compare_exchange (self : nat) (key : string) (expected desired : value C) : list action :=
  unique self [count (write_count self); find self key;
    Read self (λ m l, set_it (it l &&
      match um_find key m with Some v => value.eqb same_ptr v expected | None => false end) l);
    updates self (λ it m, if it then assign_at key (value.copy desired) m else m);
    returns self (λ it _, R_bool it)].

(** The reference is used when the lock is gone; nothing is assigned to an
    element that is not there any more (in the code that is undefined). *)
Definition index (self : nat) (key : string) (update : value C → value C) : list action :=
  unique self [count (write_count self); find self key;
    updates self (λ it m, if it then m else um_emplace key (value.of_name key) m)] ++
  [updates self (λ _, map (λ kv, (kv.1, if bool_decide (kv.1 = key) then update kv.2 else kv.2)))].

Definition bulk_update (self : nat) (updater : value_map → value_map) : list action :=
  unique self [updates self (λ _, updater); count (bulk_write_count self)].

Definition bulk_read (self : nat) (reader : value_map → reply) : list action :=
  shared self [count (bulk_read_count self); returns self (λ _, reader)].

Definition for_each (self : nat) (func : string → value C → reply → reply) (s : reply) : list action :=
  shared self [returns self (λ _ m, fold_left (λ s kv, func kv.1 kv.2 s) m s)].
Definition for_each_mut (self : nat) (func : string → value C → value C) : list action :=
  unique self [updates self (λ _, map (λ kv, (kv.1, func kv.1 kv.2)))].

(** The four loads and the size, collected in the order of the members. *)
Definition get_statistics (self : nat) : list action :=
  shared self [Load (read_count self) add_stat; Load (write_count self) add_stat;
    Load (bulk_read_count self) add_stat; Load (bulk_write_count self) add_stat;
    Read self (λ m, add_stat (um_size m))].

(** [values_ = other.values_] *)
Definition copy_assign (self other : nat) : list action :=
  if decide (self = other) then [] else
  [ScopedLock self other; Read other (λ m, set_tmp (copy_map m));
   Write self (λ _ l, (tmp l, l)); count (write_count self); Unlock self; Unlock other].

Definition move_assign (self other : nat) : list action :=
  if decide (self = other) then [] else
  [ScopedLock self other; Write other (λ m l, ([], set_tmp m l));
   Write self (λ _ l, (tmp l, l)); count (write_count self); Unlock self; Unlock other].

(** ** Calls *)

Inductive request : Type :=
| On (self : nat) (o : op (C:=C))
| BulkUpdate (self : nat) (updater : value_map → value_map)
| BulkRead (self : nat) (reader : value_map → reply)
| ForEach (self : nat) (func : string → value C → reply → reply) (s : reply)
| ForEachMut (self : nat) (func : string → value C → value C)
| GetStatistics (self : nat)
| CopyAssign (self other : nat)
| MoveAssign (self other : nat).

Definition method_body (r : request) : list action :=
  match r with
  | On self o =>
      match o with
      | Get k => get self k | GetTyped ty k => get_typed self ty k
      | Set_ k v => set self k v | SetTyped k d => set_typed self k d
      | Remove k => remove self k | Clear => clear self | Size => size self
      | Empty => empty self | Contains k => contains self k | Keys => keys self
      | SetVariant v => set_variant self v | GetVariant k => get_variant self k
      | SetContainer k p => set_container self k p | GetContainer k => get_container self k
      | CompareExchange k e d => compare_exchange self k e d
      | Index k f => index self k f
      end
  | BulkUpdate self f => bulk_update self f
  | BulkRead self f => bulk_read self f
  | ForEach self f s => for_each self f s
  | ForEachMut self f => for_each_mut self f
  | GetStatistics self => get_statistics self
  | CopyAssign self other => copy_assign self other
  | MoveAssign self other => move_assign self other
  end.
Definition call_of (r : request) : call value_map locals := Call (method_body r) no_locals.

Definition ops_on (self : nat) (os : list op) : list request := On self <$> os.

(** The requests that are atomic. *)
Definition atomic_request (r : request) : bool :=
  match r with On _ (Index _ _) | GetStatistics _ => false | _ => true end.

(** What a request means on the containers of ThreadSafeContainer.v. *)
Definition respond (r : request) (σ : nat → t C) : (nat → t C) * reply :=
  match r with
  | On self o => let '(c, x) := ThreadSafeContainerFacts.run same_ptr o (σ self) in (upd self c σ, x)
  | BulkUpdate self f => (upd self (thread_safe_container.bulk_update f (σ self)) σ, R_unit)
  | BulkRead self f =>
      let '(c, x) := thread_safe_container.bulk_read f (σ self) in (upd self c σ, x)
  | ForEach self f s => (σ, thread_safe_container.for_each f (σ self) s)
  | ForEachMut self f => (upd self (thread_safe_container.for_each_mut f (σ self)) σ, R_unit)
  | GetStatistics _ => (σ, R_unit)
  | CopyAssign self other =>
      if decide (self = other) then (σ, R_unit)
      else (upd self (thread_safe_container.copy_assign (σ self) (σ other)) σ, R_unit)
  | MoveAssign self other =>
      if decide (self = other) then (σ, R_unit)
      else let '(c, c') := thread_safe_container.move_assign (σ self) (σ other) in
           (upd self c (upd other c' σ), R_unit)
  end.

(** The container [o]: its map and its four counters. *)
Definition container (m : value_map) (c : nat → Z) (o : nat) : t C :=
  Container m (c (read_count o)) (c (write_count o)) (c (bulk_read_count o))
    (c (bulk_write_count o)).
Definition containers (h : nat → value_map) (c : nat → Z) (o : nat) : t C := container (h o) c o.
End Methods.
End locked_container.

Section Facts.
Context {C : Type} (same_ptr : option C → option C → bool).
Import locked_container.
Implicit Types (r : request (C:=C)) (h : nat → list (string * value C)) (c : nat → Z).

(** ** Every method but two passes the check *)

Ltac one_lock :=
  apply one_lock; cbn; rewrite ?lookup_singleton_eq, ?bool_decide_true by eauto; reflexivity.

Lemma containers_call_ok r :
  atomic_request r = true →
  two_phase (call_of same_ptr r) = true ∧ ranked (λ _, 0%nat) (call_of same_ptr r) = true.
Proof.
  destruct r as [self []| | | | | |self other|self other]; intros Ha; try done; try one_lock;
    unfold call_of, method_body, copy_assign, move_assign; case_decide as E; try done;
    apply (two_locks _ self other [_; _; _]); [done|..|done|]; cbn;
    by rewrite !lookup_insert_eq, lookup_insert_ne, lookup_singleton_eq, !bool_decide_true by eauto.
Qed.
(** ** What a method does when nothing interferes *)

Ltac counter_case o self :=
  unfold bump, fold_left, containers, container, read_count, write_count, bulk_read_count, bulk_write_count, upd;
  destruct (Nat.eqb_spec o self) as [->|Hne];
  repeat match goal with
  | |- context [(?x =? ?y)%nat] => destruct (Nat.eqb_spec x y); try (exfalso; lia)
  end; reflexivity.

Lemma containers_heap self m h c o :
  containers (upd self m h) c o =
  upd self (thread_safe_container.with_values m (containers h c self)) (containers h c) o.
Proof. counter_case o self. Qed.
Lemma containers_read self h c o :
  containers h (bump [read_count self] c) o =
  upd self (thread_safe_container.count_read (containers h c self)) (containers h c) o.
Proof. counter_case o self. Qed.
Lemma containers_write self h c o :
  containers h (bump [write_count self] c) o =
  upd self (thread_safe_container.count_write (containers h c self)) (containers h c) o.
Proof. counter_case o self. Qed.
Lemma containers_bulk_read self h c o :
  containers h (bump [bulk_read_count self] c) o =
  upd self (thread_safe_container.count_bulk_read (containers h c self)) (containers h c) o.
Proof. counter_case o self. Qed.
Lemma containers_bulk_write self h c o :
  containers h (bump [bulk_write_count self] c) o =
  upd self (thread_safe_container.count_bulk_write (containers h c self)) (containers h c) o.
Proof. counter_case o self. Qed.

#[local] Arguments read_count : simpl never.
#[local] Arguments write_count : simpl never.
#[local] Arguments bulk_read_count : simpl never.
#[local] Arguments bulk_write_count : simpl never.
#[local] Arguments bump : simpl never.

Lemma writes_counted self m h c x :
  x = thread_safe_container.with_values m (thread_safe_container.count_write (containers h c self)) →
  ∀ o, containers (upd self m h) (bump [write_count self] c) o = upd self x (containers h c) o.
Proof.
  intros -> o. rewrite containers_heap. unfold upd at 1.
  destruct (Nat.eqb_spec o self) as [->|Hne]; rewrite !containers_write, ?upd_eq; [done|].
  unfold upd. by apply Nat.eqb_neq in Hne as ->.
Qed.

Lemma bulk_writes_counted self m h c x :
  x = thread_safe_container.count_bulk_write (thread_safe_container.with_values m (containers h c self)) →
  ∀ o, containers (upd self m h) (bump [bulk_write_count self] c) o = upd self x (containers h c) o.
Proof.
  intros -> o. rewrite containers_heap. unfold upd at 1.
  destruct (Nat.eqb_spec o self) as [->|Hne]; rewrite !containers_bulk_write, ?upd_eq; [done|].
  unfold upd. by apply Nat.eqb_neq in Hne as ->.
Qed.

(** A method that only reads: its result by cases on what it finds. *)
Ltac reading :=
  cbn -[um_find]; split;
  [ first [done
          |unfold um_contains, thread_safe_container.get_container, thread_safe_container.get_typed;
           cbn -[um_find]; match goal with |- context [um_find ?k ?m] => by destruct (um_find k m) end]
  | intros o; first [apply containers_read|apply containers_bulk_read|by rewrite upd_same|done] ].
Ltac writing :=
  cbn -[um_find]; split; [done|first [by apply writes_counted|by apply bulk_writes_counted]].

Lemma respond_exec r h c :
  atomic_request r = true →
  let '(h', l, ks) := exec (method_body same_ptr r) h c no_locals in
  ret l = (respond same_ptr r (containers h c)).2 ∧
  ∀ o, containers h' (bump ks c) o = (respond same_ptr r (containers h c)).1 o.
Proof.
  destruct r as [self []|self f|self f|self f x|self f| |self other|self other]; intros Ha; try done.
  all: try solve [reading|writing].
  - cbn -[um_find]. unfold um_contains, thread_safe_container.remove. cbn -[um_find].
    destruct (um_find key (h self)); (split; [done|by apply writes_counted]).
  - cbn -[um_find]. unfold um_contains, thread_safe_container.compare_exchange. cbn -[um_find].
    destruct (um_find key (h self)) as [v|]; [|split; [done|by apply writes_counted]].
    cbn. destruct (value.eqb same_ptr v expected); (split; [done|by apply writes_counted]).
  - split; [done|]. apply containers_heap.
  - cbn. unfold copy_assign. case_decide as E; [done|]. split; [done|]. by apply writes_counted.
  - cbn. unfold move_assign. case_decide as E; [done|]. split; [done|]. intros o. cbn.
    rewrite (writes_counted self (h other) (upd other [] h) c
      (thread_safe_container.count_write (thread_safe_container.with_values (h other) (containers h c self)))).
    + unfold upd at 1 3. destruct (o =? self)%nat; [done|]. apply containers_heap.
    + rewrite containers_heap. unfold upd. by apply Nat.eqb_neq in E as ->.
Qed.
(** ** One request after the other *)

Lemma containers_respond_proper r σ σ' :
  (∀ o, σ o = σ' o) →
  (respond same_ptr r σ).2 = (respond same_ptr r σ').2 ∧
  ∀ o, (respond same_ptr r σ).1 o = (respond same_ptr r σ').1 o.
Proof.
  intros H. assert (∀ self x o, upd self x σ o = upd self x σ' o) as Hu
    by (intros; unfold upd; by case_match).
  destruct r as [self op|self f|self f|self f x|self f| |self other|self other]; cbn.
  - rewrite (H self). destruct (ThreadSafeContainerFacts.run same_ptr op (σ' self)) as [x y].
    split; [done|apply Hu].
  - rewrite (H self). split; [done|apply Hu].
  - rewrite (H self). split; [done|apply Hu].
  - by rewrite (H self).
  - rewrite (H self). split; [done|apply Hu].
  - done.
  - rewrite (H self), (H other). case_decide; [done|]. split; [done|apply Hu].
  - rewrite (H self), (H other). case_decide; [done|]. split; [done|]. intros o. cbn.
    unfold upd. by repeat case_match.
Qed.

Lemma container_ext (m : list (string * value C)) c c' o :
  (∀ k, c k = c' k) → container m c o = container m c' o.
Proof. intros Hc. unfold container. by rewrite !Hc. Qed.

Lemma containers_call_exec r h c :
  atomic_request r = true →
  let '(h', l, ks) := exec (body (call_of same_ptr r)) h c (start (call_of same_ptr r)) in
  let '(σ, x) := respond same_ptr r (λ o, container (h o) c o) in
  ret l = x ∧ ∀ o, container (h' o) (bump ks c) o = σ o.
Proof.
  intros Hr. pose proof (respond_exec r h c Hr) as H. cbn [body start call_of].
  destruct (exec (method_body same_ptr r) h c no_locals) as [[h' l] ks].
  change (λ o, container (h o) c o) with (containers h c).
  by destruct (respond same_ptr r (containers h c)).
Qed.

#[export] Instance thread_safe_container_class :
  LockedClass (list (string * value C)) locals request (thread_safe_container.t C) result := {
  method := call_of same_ptr; object := container; reply := ret; respond := respond same_ptr;
  is_atomic := atomic_request; object_ext := container_ext;
  method_two_phase r Hr := proj1 (containers_call_ok r Hr); respond_ext := containers_respond_proper;
  method_exec := containers_call_exec }.
End Facts.

(** ** The properties *)

Section Properties.
Import locked_container.
#[local] Open Scope nat_scope.
Abbreviation contents := (list (string * value loc)).
Abbreviation requests := (list (request (C:=loc))).
#[local] Instance loc_class : LockedClass _ _ _ _ _ := thread_safe_container_class same_loc.

(** C10. Refinement: any number of threads call any methods but [operator[]] and
    [get_statistics] on any number of containers, and the actions of the
    methods on mutexes, maps and counters are interleaved in any way.  No two
    threads are ever about to access one map with one of them writing it; and
    when all are done, there is an order of the calls, keeping the order of
    every thread, in which performing the operations of ThreadSafeContainer.v
    one after the other gives every call its result and every container its
    contents and counters. *)
Theorem containers_atomic (programs : list requests) (h : nat → contents) (c : nat → Z)
    (schedule : list nat) :
  (∀ i p r, programs !! i = Some p → r ∈ p → is_atomic r = true) →
  (∀ k, 0 ≤ c k < 2 ^ 64)%Z →
  let s := run schedule (threads_of h c programs) in
  (∀ i j ti tj, i ≠ j → threads s !! i = Some ti → threads s !! j = Some tj →
     races ti tj = false) ∧
  (finished s = true →
   ∃ order, (∀ i, proj i order = default [] (programs !! i)) ∧
     let '(σ, replies) := respond_all order (objects h c) in
     (∀ i t, threads s !! i = Some t → ret <$> log t = proj i replies) ∧
     ∀ o, objects (heap s) (counters s) o = σ o).
Proof.
  intros Ha Hc s. split.
  - intros i j ti tj. exact (requests_race_free programs h c Ha Hc schedule i j ti tj).
  - exact (requests_atomic programs h c Ha Hc schedule).
Qed.

Definition sample_programs : list requests :=
  [[On 0 (Set_ "a"%string (Value "a" (V_int 1))); CopyAssign 1 0];
   [On 1 (Remove "a"%string); MoveAssign 0 1; On 0 (Contains "a"%string)]].
Definition sample_schedule : list nat := flat_map (λ _, [0; 1; 1]) (seq 0 20).

Lemma sample_atomic : ∀ i p r, sample_programs !! i = Some p → r ∈ p → is_atomic r = true.
Proof.
  intros [|[|i]] p r Hp Hr; [..|done]; injection Hp as <-;
    repeat (apply elem_of_cons in Hr as [->|Hr]; [done|]); by apply not_elem_of_nil in Hr.
Qed.

Lemma containers_atomic_witness :
  let s := run sample_schedule (threads_of (λ _, []) (λ _, 0%Z) sample_programs) in
  finished s = true ∧
  ∃ order, (∀ i, proj i order = default [] (sample_programs !! i)) ∧
    let '(σ, replies) := respond_all order (objects (λ _, []) (λ _, 0%Z)) in
    (∀ i t, threads s !! i = Some t → ret <$> log t = proj i replies) ∧
    ∀ o, objects (heap s) (counters s) o = σ o.
Proof.
  split; [vm_compute; reflexivity|].
  apply (containers_atomic sample_programs (λ _, []) (λ _, 0%Z) sample_schedule).
  - exact sample_atomic.
  - intros _. split; [done|reflexivity].
  - vm_compute; reflexivity.
Defined.

(** C11. Liveness: from every state such threads can reach, some schedule lets
    all of them finish: [operator=] between two containers locks both with
    [scoped_lock], so that no two assignments wait for each other. *)
Theorem containers_finish (programs : list requests) (h : nat → contents) (c : nat → Z)
    (schedule : list nat) :
  (∀ i p r, programs !! i = Some p → r ∈ p → is_atomic r = true) →
  (∀ k, 0 ≤ c k < 2 ^ 64)%Z →
  ∃ schedule', finished (run (schedule ++ schedule') (threads_of h c programs)) = true.
Proof.
  intros Ha Hc. apply (requests_finish programs h c Ha Hc (λ _, 0)).
  intros i p r Hp Hr. by apply (containers_call_ok same_loc r), (Ha i p).
Qed.

Lemma containers_finish_witness :
  ∃ schedule', finished (run ([0; 0; 1; 1; 0; 1] ++ schedule')
    (threads_of (λ _, []) (λ _, 0%Z) [[CopyAssign 0 1]; [CopyAssign 1 0]])) = true.
Proof.
  apply (containers_finish [[CopyAssign 0 1]; [CopyAssign 1 0]] (λ _, []) (λ _, 0%Z)
    [0; 0; 1; 1; 0; 1]).
  - intros [|[|i]] p r Hp Hr; [..|done]; injection Hp as <-;
      by apply list_elem_of_singleton in Hr as ->.
  - intros _. split; [done|reflexivity].
Defined.

(** Requests that are operations on one container run as the operations do. *)
Lemma respond_all_ops (order : list (nat * op (C:=loc))) (σ : nat → thread_safe_container.t loc) :
  let '(σ', replies) := respond_all (prod_map id (On 0) <$> order) σ in
  σ' 0 = (run_all same_loc order.*2 (σ 0)).1 ∧
  replies = zip order.*1 (run_all same_loc order.*2 (σ 0)).2.
Proof.
  revert σ; induction order as [|[i o] order IH]; intros σ; [done|].
  cbn [fmap list_fmap prod_map fst snd id respond_all run_all].
  change (Atomicity.respond (On 0 o) σ) with (respond same_loc (On 0 o) σ). cbn [respond].
  destruct (ThreadSafeContainerFacts.run same_loc o (σ 0)) as [c r].
  specialize (IH (upd 0 c σ)). destruct (respond_all _ (upd 0 c σ)) as [σ' replies].
  rewrite upd_eq in IH. destruct IH as [-> ->].
  by destruct (run_all same_loc order.*2 c).
Qed.
Lemma forall2_proj {A B} (P : A → B → Prop) (order : list nat) (xs : list A) (ys : list B) i :
  length xs = length order → Forall2 P xs ys →
  Forall2 P (proj i (zip order xs)) (proj i (zip order ys)).
Proof.
  intros Hlen HP. revert order Hlen. induction HP as [|x y xs ys Hxy HP IH]; intros [|j order] Hlen; try done.
  cbn [zip_with]. rewrite !proj_cons. case_decide; [constructor; [done|]|]; apply IH; cbn in Hlen; lia.
Qed.

Lemma run_all_length os (c : thread_safe_container.t loc) :
  length (run_all same_loc os c).2 = length os.
Proof.
  revert c; induction os as [|o os IH]; intros c; [done|]. cbn [run_all].
  destruct (ThreadSafeContainerFacts.run same_loc o c) as [c' r].
  specialize (IH c'). destruct (run_all same_loc os c') as [c2 rs]. cbn in *. lia.
Qed.

(** C9. Refinement: whatever the interleaving of any number of threads that
    operate on one container, there is an order of the operations, keeping the
    order of every thread, for which every thread was given what the finite map
    of [spec_run] promises, the container holds that map with distinct keys,
    and the counters are the numbers of reads and writes modulo 2^64. *)
Theorem interleavings_refine_map (programs : list (list (op (C:=loc)))) (m : contents)
    (schedule : list nat) :
  um_ok m → (∀ i p o, programs !! i = Some p → o ∈ p → is_atomic (On 0 o) = true) →
  let s := run schedule (threads_of (λ _, m) (λ _, 0%Z) (ops_on 0 <$> programs)) in
  finished s = true →
  ∃ order, (∀ i, proj i order = default [] (programs !! i)) ∧
    let '(m', promises) := spec_all same_loc order.*2 (um_map m) in
    um_ok (heap s 0) ∧ um_map (heap s 0) = m' ∧
    (∀ i t, threads s !! i = Some t →
       Forall2 (λ l p, p (ret l)) (log t) (proj i (zip order.*1 promises))) ∧
    counters s 0 = wrap 64 (ThreadSafeContainerFacts.count is_read order.*2) ∧
    counters s 1 = wrap 64 (ThreadSafeContainerFacts.count is_write order.*2).
Proof.
  intros Hm Ha s Hf.
  assert (∀ i p r, (ops_on 0 <$> programs) !! i = Some p → r ∈ p → is_atomic r = true) as Ha'.
  { intros i p r (p' & -> & Hp)%list_lookup_fmap_Some (o & -> & Ho)%list_elem_of_fmap. by eapply Ha. }
  assert (∀ k : nat, (0 ≤ (λ _ : nat, 0%Z) k < 2 ^ 64)%Z) as Hc by (intros; split; [done|reflexivity]).
  destruct (requests_atomic _ _ _ Ha' Hc schedule Hf) as (order & Hproj & Hall).
  destruct (order_of_requests (On 0) order (λ i, default [] (programs !! i)))
    as (order' & -> & Hproj').
  { intros i. rewrite Hproj, list_lookup_fmap. by destruct (programs !! i). }
  exists order'. split; [done|].
  pose proof (respond_all_ops order' (objects (λ _, m) (λ _, 0%Z))) as Hops.
  destruct (respond_all (prod_map id (On 0) <$> order') (objects (λ _, m) (λ _, 0%Z))) as [σ replies].
  destruct Hops as [Hσ0 ->], Hall as [Hlog Hσ].
  set (c0 := objects (λ _, m) (λ _, 0%Z) 0) in *.
  pose proof (run_all_refines same_loc order'.*2 c0 Hm) as Href.
  pose proof (run_all_counts same_loc order'.*2 c0 (Hc 0) (Hc 0)) as [Hr Hw].
  pose proof (run_all_length order'.*2 c0) as Hlen. rewrite length_fmap in Hlen.
  destruct (run_all same_loc order'.*2 c0) as [c1 results].
  change (map_of c0) with (um_map m) in Href. destruct (spec_all same_loc order'.*2 (um_map m)) as [m' promises].
  destruct Href as (Hok & Hmap & Hprom). cbn [fst snd] in *.
  assert (objects (heap s) (counters s) 0 = c1) as <- by (rewrite <-Hσ0; apply Hσ).
  split_and!; [exact Hok|exact Hmap| |exact Hr|exact Hw].
  intros i t Ht.
  assert (length results = length order'.*1) as Hlen' by by rewrite length_fmap.
  pose proof (forall2_proj _ order'.*1 _ _ i Hlen' Hprom) as Hi.
  rewrite <-(Hlog i t Ht) in Hi. by apply list.Forall2_fmap_l in Hi.
Qed.
Definition sample_ops_programs : list (list (op (C:=loc))) :=
  [[Set_ "a"%string (Value "a" (V_int 1)); Get "b"%string; Remove "a"%string];
   [Contains "a"%string; SetTyped "b"%string (V_bool true)]].

Lemma interleavings_refine_map_witness :
  let s := run (flat_map (λ _, [0; 1; 0]) (seq 0 20))
    (threads_of (λ _, []) (λ _, 0%Z) (ops_on 0 <$> sample_ops_programs)) in
  finished s = true ∧
  ∃ order, (∀ i, proj i order = default [] (sample_ops_programs !! i)) ∧
    let '(m', promises) := spec_all same_loc order.*2 (um_map []) in
    um_ok (heap s 0) ∧ um_map (heap s 0) = m' ∧
    (∀ i t, threads s !! i = Some t →
       Forall2 (λ l p, p (ret l)) (log t) (proj i (zip order.*1 promises))) ∧
    counters s 0 = wrap 64 (ThreadSafeContainerFacts.count is_read order.*2) ∧
    counters s 1 = wrap 64 (ThreadSafeContainerFacts.count is_write order.*2).
Proof.
  split; [vm_compute; reflexivity|].
  apply (interleavings_refine_map sample_ops_programs [] (flat_map (λ _, [0; 1; 0]) (seq 0 20))).
  - apply NoDup_nil_2.
  - intros [|[|i]] p o Hp Ho; [..|done]; injection Hp as <-;
      repeat (apply elem_of_cons in Ho as [->|Ho]; [done|]); by apply not_elem_of_nil in Ho.
  - vm_compute; reflexivity.
Defined.

(** [operator[]] returns a reference and unlocks: the assignment to the element
    races with any method that writes the map, here [clear]. *)
Theorem index_races :
  let s := run [0; 0; 0; 0; 0; 0; 1; 1; 1]
    (threads_of (λ _, []) (λ _, 0%Z)
      [[On 0 (Index "a"%string (value.set (V_int 1)))]; [On 0 Clear]]) in
  ∃ t0 t1, threads s !! 0 = Some t0 ∧ threads s !! 1 = Some t1 ∧ races t0 t1 = true.
Proof. eexists _, _. split_and!; vm_compute; reflexivity. Qed.

(** [get_statistics] holds the lock, but readers count under the same shared
    lock: it can see the second of two reads of a thread without the first,
    which no order of the calls gives. *)
Definition stats_programs : list requests :=
  [[GetStatistics 0]; [On 0 (Contains "a"%string); BulkRead 0 (λ _, R_unit)]].
Definition stats_seen (l : list (nat * locals (C:=loc))) : list (list Z) := stats <$> proj 0 l.

Theorem statistics_not_atomic :
  let start := threads_of (λ _, []) (λ _, 0%Z) stats_programs in
  let s := run ([0; 0; 0] ++ replicate 14 1 ++ replicate 6 0) start in
  finished s = true ∧
  (∀ t, threads s !! 0 = Some t → stats <$> log t = [[0; 0; 1; 0; 0]]%Z) ∧
  Forall (λ order, stats_seen (a_log (atomic_run (prod_map id method <$> order)
                     (Atomic (λ _, []) (λ _, 0%Z) []))) ≠ [[0; 0; 1; 0; 0]]%Z)
    (let g := (0, GetStatistics 0) in
     let a := (1, On 0 (Contains "a"%string)) in
     let b := (1, BulkRead 0 (λ _, R_unit)) in
     [[g; a; b]; [a; g; b]; [a; b; g]]).
Proof.
  cbv zeta. split_and!.
  - vm_compute. reflexivity.
  - intros t Ht. vm_compute in Ht. injection Ht as <-. reflexivity.
  - repeat constructor; vm_compute; congruence.
Qed.
End Properties.
