(* ===== verification/LockfreeReader.v ===== *)
(** * Snapshot readers of a thread_safe_container

    [internal/thread_safe_container.h], classes [snapshot_reader] and
    [lockfree_container_reader], [thread_safe_container.cpp:
    snapshot_reader::update_snapshot].  A reader answers from an immutable copy
    of the container's map; [refresh] makes a new copy under the container's
    shared lock, publishes it by an atomic store and counts itself.

    Between these steps other threads run, so the concurrent behaviour is a step
    relation.  A copy is made element by element under the shared lock, which
    keeps the operations that take the lock exclusively out.  It does not keep out
    a thread that holds a reference [operator[]] returned: its writes only take
    the mutex of the element.  [snapshot_consistent] says what a snapshot is when
    such writes are possible, [snapshot_of_no_moment] that it may then be a map the
    container never held.  [snapshot_reader] copies in the same way. *)

From S2P Require Import Prelude Bytes Float Types UnorderedMap Value ValueFacts.
From S2P Require Import ThreadSafeContainer ThreadSafeContainerFacts.

Abbreviation container := (thread_safe_container.t loc).
Abbreviation snapshot_type := (list (string * value loc)).

(** ** snapshot_reader *)

Module snapshot_reader.
(** [snapshot_]; the reader also holds the pointer to its container. *)
Definition t : Type := option snapshot_type.

(** [update_snapshot] copies the map in a [bulk_read]. *)
Definition update_snapshot (c : container) : container * t :=
  let '(c, m) := thread_safe_container.bulk_read thread_safe_container.copy_map c in (c, Some m).

Definition get (ty : value_types) (key : string) (r : t) : option (ValueVariant loc) :=
  match r with
  | None => None
  | Some m => um_find key m ≫= value.get ty
  end.
End snapshot_reader.

(** ** lockfree_container_reader *)

Module lockfree_container_reader.

(** The pointer [snapshot_] is never null after construction; a null one reads
    as an empty map everywhere. *)
Record t : Type := Reader { snapshot_ : option snapshot_type; refresh_count_ : Z }.

(** What [refresh] builds: every element visited by [for_each] is emplaced. *)
Definition copy_element (key : string) (val : value loc) (new_snapshot : snapshot_type) : snapshot_type :=
  um_emplace key (value.copy val) new_snapshot.
Definition copy_of (c : container) : snapshot_type :=
  thread_safe_container.for_each copy_element c [].

Definition store (m : snapshot_type) (r : t) : t := Reader (Some m) (refresh_count_ r).
Definition count_refresh (r : t) : t :=
  Reader (snapshot_ r) (thread_safe_container.incr (refresh_count_ r)).
Definition refresh (c : container) (r : t) : t := count_refresh (store (copy_of c) r).

(** The constructor refreshes; a copied reader shares the snapshot and counts from 0. *)
Definition create (c : container) : t := refresh c (Reader (Some []) 0).
Definition copy (other : t) : t := Reader (snapshot_ other) 0.
Definition assign (self other : t) : t := Reader (snapshot_ other) (refresh_count_ self).

Definition get (ty : value_types) (key : string) (r : t) : option (ValueVariant loc) :=
  match snapshot_ r with
  | None => None
  | Some m => um_find key m ≫= value.get ty
  end.

Definition contains (key : string) (r : t) : bool :=
  match snapshot_ r with None => false | Some m => um_contains key m end.
Definition size (r : t) : Z :=
  match snapshot_ r with None => 0 | Some m => um_size m end.
Definition empty (r : t) : bool := size r =? 0.
Definition keys (r : t) : list string :=
  match snapshot_ r with None => [] | Some m => um_keys m end.
Definition for_each {S} (func : string → value loc → S → S) (r : t) (s : S) : S :=
  match snapshot_ r with
  | None => s
  | Some m => fold_left (λ s kv, func kv.1 kv.2 s) m s
  end.
End lockfree_container_reader.

(** A reader with the pointer to its container, [P]; [deref] is what it points to.
    Refreshing through a null pointer is undefined. *)
Module reader_object.
Section Object.
Context {P : Type} (deref : P → container).

Record t : Type := Object { container_ : option P; state : lockfree_container_reader.t }.

Definition refresh (r : t) : res t :=
  match container_ r with
  | Some p => Val (Object (Some p) (lockfree_container_reader.refresh (deref p) (state r)))
  | None => Undef
  end.

Definition create (container : option P) : res t :=
  refresh (Object container (lockfree_container_reader.Reader (Some []) 0)).

(** [create_lockfree_reader], on a container that a [shared_ptr] owns. *)
Definition create_lockfree_reader (this : P) : res t := create (Some this).

(** The new object and the source: the pointer is moved, the snapshot shared. *)
Definition move_construct (other : t) : t * t :=
  (Object (container_ other) (lockfree_container_reader.copy (state other)), Object None (state other)).

(** [*this] and [other]; [same] is [this == &other]. *)
Definition move_assign (same : bool) (this other : t) : t * t :=
  if same then (this, other)
  else (Object (container_ other) (lockfree_container_reader.assign (state this) (state other)),
        Object None (state other)).

Definition refresh_count (r : t) : Z := lockfree_container_reader.refresh_count_ (state r).
Definition source (r : t) : option P := container_ r.

(** A reader that was moved from still answers, with the snapshot it had, as does
    the new one; but refreshing it dereferences null. *)
Theorem moved_reader other :
  let (r, other') := move_construct other in
  (∀ ty key, lockfree_container_reader.get ty key (state r) = lockfree_container_reader.get ty key (state other)) ∧
  (∀ ty key, lockfree_container_reader.get ty key (state other') = lockfree_container_reader.get ty key (state other)) ∧
  source r = source other ∧ refresh_count r = 0 ∧ refresh other' = Undef.
Proof. done. Qed.
End Object.
End reader_object.

Import lockfree_container_reader.

(** ** The copy is exact *)

Abbreviation copied c := (thread_safe_container.copy_map (thread_safe_container.values_ c)).

Lemma fold_emplace (m acc : snapshot_type) :
  NoDup (um_keys (acc ++ m)) →
  fold_left (λ s kv, um_emplace kv.1 (value.copy kv.2) s) m acc
  = acc ++ thread_safe_container.copy_map m.
Proof.
  revert acc. induction m as [|[k v] m IH]; intros acc Hnd; simpl; [by rewrite app_nil_r|].
  assert (um_emplace k (value.copy v) acc = acc ++ [(k, value.copy v)]) as ->.
  { unfold um_emplace, um_contains. rewrite bool_decide_eq_false_2; [done|].
    rewrite <-eq_None_not_Some. apply um_find_None. unfold um_keys in *.
    rewrite fmap_app in Hnd. apply list.NoDup_app in Hnd as (_ & Hd & _).
    intros Hin. apply (Hd k Hin). by left. }
  rewrite IH; [by rewrite <-app_assoc|]. revert Hnd. unfold um_keys. by rewrite !fmap_app, <-app_assoc.
Qed.

Lemma copy_of_values (c : container) :
  container_ok c → copy_of c = copied c.
Proof. intros Hok. unfold copy_of, thread_safe_container.for_each. by apply fold_emplace. Qed.

(** ** Concurrent refreshes *)

(** What the container holds. *)
Abbreviation contents := (gmap string (value loc)).
Definition held (c : container) : contents := um_map (copied c).

(** The operations that take the lock exclusively; [operator[]] up to its return, then
    the caller has a reference. *)
Inductive locked_write : container → container → Prop :=
| write_op c (o : op (C:=loc)) :
    is_write o = true → (∀ key update, o ≠ Index key update) → locked_write c (run same_loc o c).1
| write_index c key : locked_write c (thread_safe_container.index key id c)
| write_update c updater :
    um_ok (updater (thread_safe_container.values_ c)) →
    locked_write c (thread_safe_container.bulk_update updater c)
| write_each c func : locked_write c (thread_safe_container.for_each_mut func c)
| write_assign c other : container_ok other → locked_write c (thread_safe_container.copy_assign c other)
| write_move c other : container_ok other → locked_write c (thread_safe_container.move_assign c other).1
| write_moved c other : locked_write c (thread_safe_container.move_assign other c).2.

(** [set] or an assignment through a reference to the element at [key]: the name of the
    element stays. *)
Definition write_reference (key : string) (d : ValueVariant loc) (c : container) : container :=
  thread_safe_container.with_values
    (um_index (value.of_name key) (value.set d) key (thread_safe_container.values_ c)) c.

(** A copy that is being made: where in the log it began, the keys of the elements still
    to be visited, what was emplaced. *)
Record copy_run : Type := Copy {
  copy_first : nat; copy_rest : list string; copy_acc : snapshot_type }.

(** [log]: the maps the container has held, oldest first, and whether a write through a
    reference made it.  [in_flight]: the copies of refreshes that have not published yet,
    each with the positions in [log] at which it was begun and finished; [published]:
    those positions for the snapshot. *)
Record sys : Type := Sys {
  cont : container;
  log : list (bool * contents);
  reader : t;
  published : nat * nat;
  copying : list copy_run;
  in_flight : list ((nat * nat) * snapshot_type);
  uncounted : nat }.

Abbreviation now l := (pred (length l)).

(** [n] refreshing threads at most. *)
Inductive step (n : nat) : sys → sys → Prop :=
| step_read c l r p cs fl u (o : op (C:=loc)) :
    is_write o = false → step n (Sys c l r p cs fl u) (Sys (run same_loc o c).1 l r p cs fl u)
| step_write c c' l r p fl u :
    locked_write c c' → step n (Sys c l r p [] fl u) (Sys c' (l ++ [(false, held c')]) r p [] fl u)
| step_reference c l r p cs fl u key d :
    um_contains key (thread_safe_container.values_ c) = true →
    step n (Sys c l r p cs fl u)
      (Sys (write_reference key d c) (l ++ [(true, held (write_reference key d c))]) r p cs fl u)
| step_begin c l r p cs fl u :
    (length cs + length fl + u < n)%nat →
    step n (Sys c l r p cs fl u)
      (Sys c l r p (cs ++ [Copy (now l) (um_keys (thread_safe_container.values_ c)) []]) fl u)
| step_element c l r p cs1 cs2 fl u f key rest acc v :
    um_find key (thread_safe_container.values_ c) = Some v →
    step n (Sys c l r p (cs1 ++ Copy f (key :: rest) acc :: cs2) fl u)
      (Sys c l r p (cs1 ++ Copy f rest (copy_element key v acc) :: cs2) fl u)
| step_finish c l r p cs1 cs2 fl u f acc :
    step n (Sys c l r p (cs1 ++ Copy f [] acc :: cs2) fl u)
      (Sys c l r p (cs1 ++ cs2) (fl ++ [((f, now l), acc)]) u)
| step_store c l r p cs fl1 fl2 v m u :
    step n (Sys c l r p cs (fl1 ++ (v, m) :: fl2) u) (Sys c l (store m r) v cs (fl1 ++ fl2) (S u))
| step_count c l r p cs fl u :
    step n (Sys c l r p cs fl (S u)) (Sys c l (count_refresh r) p cs fl u).

Inductive steps (n : nat) : sys → sys → Prop :=
| steps_refl s : steps n s s
| steps_step s1 s2 s3 : step n s1 s2 → steps n s2 s3 → steps n s1 s3.

(** A reader that was just created. *)
Definition start (c : container) : sys :=
  Sys c [(false, held c)] (create c) (0%nat, 0%nat) [] [] 0.

(** The values of [m] were held between [first] and [last], when the keys were those of
    [keys] and only references wrote. *)
Record drawn (log : list (bool * contents)) (keys : gset string) (first last : nat) (m : contents)
    : Prop := Drawn {
  drawn_order : (first ≤ last < length log)%nat;
  drawn_references : ∀ i e, (first < i ≤ last)%nat → log !! i = Some e → e.1 = true;
  drawn_keys : ∀ i e, (first ≤ i ≤ last)%nat → log !! i = Some e → dom e.2 = keys;
  drawn_values : ∀ key v, m !! key = Some v →
    ∃ i e, (first ≤ i ≤ last)%nat ∧ log !! i = Some e ∧ e.2 !! key = Some v }.

Lemma drawn_log log e keys first last m :
  drawn log keys first last m → drawn (log ++ [e]) keys first last m.
Proof.
  intros [Ho Hr Hk Hv]. assert (∀ i, (i ≤ last)%nat → (log ++ [e]) !! i = log !! i) as Hl.
  { intros i Hi. apply lookup_app_l. lia. }
  split; [rewrite length_app; simpl; lia| | |].
  - intros i e' Hi. rewrite Hl by lia. eauto.
  - intros i e' Hi. rewrite Hl by lia. eauto.
  - intros key v (i & e' & Hi & He & Hv')%Hv. exists i, e'. by rewrite Hl by lia.
Qed.

(** A write through a reference while the copy is being made. *)
Lemma drawn_reference log h keys first m :
  drawn log keys first (now log) m → dom h = keys →
  drawn (log ++ [(true, h)]) keys first (now (log ++ [(true, h)])) m.
Proof.
  intros [Ho Hr Hk Hv] Hh. rewrite length_app, Nat.add_1_r. cbn [pred].
  assert (∀ i e, (i ≤ length log)%nat → (log ++ [(true, h)]) !! i = Some e →
    e = (true, h) ∨ (i ≤ now log)%nat ∧ log !! i = Some e) as Hl.
  { intros i e Hi [He|[? He]]%lookup_app_Some.
    2: { apply list_lookup_singleton_Some in He as [_ <-]. by left. }
    right. split; [apply lookup_lt_Some in He; lia|done]. }
  split; [rewrite length_app; simpl; lia| | |].
  - intros i e Hi [->|[? ?]]%Hl; [done| |lia]. apply (Hr i); [lia|done].
  - intros i e Hi [->|[? ?]]%Hl; [done| |lia]. apply (Hk i); [lia|done].
  - intros key v (i & e & Hi & He & Hv')%Hv. exists i, e. split_and!; [lia|lia| |done].
    by apply lookup_app_l_Some.
Qed.

(** A snapshot during whose making no reference wrote is a map the container held. *)
Lemma drawn_exact log first m :
  drawn log (dom m) first first m → ∃ b, log !! first = Some (b, m).
Proof.
  intros [Ho _ Hk Hv]. destruct (lookup_lt_is_Some_2 log first) as [[b h] He]; [lia|].
  exists b. rewrite He. do 2 f_equal. specialize (Hk first _ ltac:(lia) He). cbn in Hk.
  apply map_eq. intros key. destruct (m !! key) as [v|] eqn:Em.
  - apply Hv in Em as (i & e & Hi & He' & Hv'). assert (i = first) as -> by lia.
    by rewrite He in He'; injection He' as <-.
  - apply not_elem_of_dom. rewrite Hk. by apply not_elem_of_dom.
Qed.

Lemma write_reference_keys key d c :
  um_contains key (thread_safe_container.values_ c) = true →
  um_keys (thread_safe_container.values_ (write_reference key d c))
  = um_keys (thread_safe_container.values_ c).
Proof.
  intros Hk. unfold write_reference, thread_safe_container.with_values. cbn [thread_safe_container.values_].
  by rewrite um_index_keys, Hk.
Qed.

Lemma held_dom c : dom (held c) = list_to_set (um_keys (thread_safe_container.values_ c)).
Proof. unfold held, um_map. rewrite dom_list_to_map_L. fold (um_keys (copied c)). by rewrite copy_map_keys. Qed.

Lemma run_read (o : op (C:=loc)) c :
  is_write o = false →
  thread_safe_container.values_ (run same_loc o c).1 = thread_safe_container.values_ c.
Proof. by destruct o. Qed.

Lemma locked_write_ok c c' : container_ok c → locked_write c c' → container_ok c'.
Proof.
  intros Hc Hw. revert Hc. destruct Hw as [c o|c key|c u Hu|c func|c other Ho|c other Ho|c other]; intros Hc.
  - by apply run_refines.
  - by apply (run_refines same_loc (Index key id)).
  - done.
  - unfold container_ok, um_ok, um_keys in *. cbn. by rewrite <-list_fmap_compose.
  - unfold container_ok, um_ok. change (NoDup (um_keys (copied other))). by rewrite copy_map_keys.
  - done.
  - apply NoDup_nil_2.
Qed.

(** ** The invariant *)

Definition copy_ok (c : container) (l : list (bool * contents)) (r : copy_run) : Prop :=
  um_keys (thread_safe_container.values_ c) = um_keys (copy_acc r) ++ copy_rest r ∧
  drawn l (dom (held c)) (copy_first r) (now l) (um_map (copy_acc r)).

Definition snapshot_ok (l : list (bool * contents)) (p : nat * nat) (m : snapshot_type) : Prop :=
  drawn l (dom (um_map m)) p.1 p.2 (um_map m).

Record sys_ok (s : sys) : Prop := SysOk {
  ok_cont : container_ok (cont s);
  ok_last : ∃ b, log s !! now (log s) = Some (b, held (cont s));
  ok_published : ∃ m, snapshot_ (reader s) = Some m ∧ snapshot_ok (log s) (published s) m;
  ok_copying : ∀ r, r ∈ copying s → copy_ok (cont s) (log s) r;
  ok_in_flight : ∀ p m, (p, m) ∈ in_flight s → snapshot_ok (log s) p m }.

Lemma log_last {A} (l : list A) x : (l ++ [x]) !! now (l ++ [x]) = Some x.
Proof. rewrite length_app, Nat.add_1_r. cbn [pred]. by apply list_lookup_middle. Qed.

Lemma copy_begin c l b :
  l !! now l = Some (b, held c) → copy_ok c l (Copy (now l) (um_keys (thread_safe_container.values_ c)) []).
Proof.
  intros Hl. pose proof (lookup_lt_Some _ _ _ Hl) as Hlt.
  split; [done|]. split; cbn [copy_first copy_acc]; [lia|lia| |].
  - intros i e Hi He. assert (i = now l) as -> by lia. by rewrite Hl in He; injection He as <-.
  - intros key v. by rewrite um_map_nil, lookup_empty.
Qed.

Lemma copy_element_ok c l b f key rest acc v :
  container_ok c → l !! now l = Some (b, held c) →
  um_find key (thread_safe_container.values_ c) = Some v →
  copy_ok c l (Copy f (key :: rest) acc) → copy_ok c l (Copy f rest (copy_element key v acc)).
Proof.
  unfold copy_ok. cbn [copy_first copy_rest copy_acc]. intros Hok Hl Hv [Hk [Ho Hr Hkeys Hval]].
  assert (key ∉ um_keys acc) as Hfresh.
  { unfold container_ok, um_ok in Hok. rewrite Hk in Hok.
    apply list.NoDup_app in Hok as (_ & Hd & _). intros Hin. apply (Hd key Hin). by left. }
  assert (um_contains key acc = false) as Hc.
  { unfold um_contains. apply bool_decide_eq_false. rewrite <-eq_None_not_Some. by apply um_find_None. }
  unfold copy_element. rewrite um_emplace_map, Hc. split.
  - rewrite Hk. unfold um_emplace. rewrite Hc. unfold um_keys. by rewrite fmap_app, <-app_assoc.
  - split; [done..|]. intros k w [[<- <-]|[_ Hw]]%lookup_insert_Some; [|by apply Hval].
    exists (now l), (b, held c). split_and!; [lia|lia|done|]. unfold held. cbn.
    by rewrite <-um_find_map, copy_map_find, Hv.
Qed.

(** An operation that keeps the keys keeps the copies that are being made. *)
Lemma copy_ok_reference c l key d r :
  container_ok c → um_contains key (thread_safe_container.values_ c) = true → copy_ok c l r →
  copy_ok (write_reference key d c) (l ++ [(true, held (write_reference key d c))]) r.
Proof.
  intros Hok Hc [Hk Hd]. assert (dom (held (write_reference key d c)) = dom (held c)) as He
    by (by rewrite !held_dom, write_reference_keys).
  split; [by rewrite write_reference_keys|]. rewrite He. by apply drawn_reference.
Qed.

Lemma snapshot_ok_log l e p m : snapshot_ok l p m → snapshot_ok (l ++ [e]) p m.
Proof. apply drawn_log. Qed.

Lemma start_ok c : container_ok c → sys_ok (start c).
Proof.
  intros Hok. split; cbn; [done|by eexists| |by intros r ?%not_elem_of_nil|by intros ? ? ?%not_elem_of_nil].
  eexists. split; [done|]. unfold snapshot_ok. rewrite copy_of_values by done. fold (held c).
  split; cbn; [lia|lia| |].
  - intros [|i] e Hi; [|lia]. by intros [= <-].
  - intros key v Hv. exists 0%nat. eexists. by split_and!; [lia|lia|done|].
Qed.

Lemma step_ok n s s' : sys_ok s → step n s s' → sys_ok s'.
Proof.
  intros [Hc (b & Hl) (m & Hm & Hp) Hcp Hf] Hstep.
  destruct Hstep as [c l r p cs fl u o Hr|c c' l r p fl u Hw|c l r p cs fl u key d Hk|c l r p cs fl u Hn
    |c l r p cs1 cs2 fl u f key rest acc v Hv|c l r p cs1 cs2 fl u f acc|c l r p cs fl1 fl2 v m' u|c l r p cs fl u];
    cbn [cont log reader published copying in_flight] in *.
  - assert (held (run same_loc o c).1 = held c) as Hh by (unfold held; by rewrite run_read).
    split; cbn; [by apply run_refines|exists b; by rewrite Hh|by exists m| |done].
    intros q Hq. unfold copy_ok. rewrite Hh, run_read by done. by apply Hcp.
  - split; cbn; [by eapply locked_write_ok|by eexists; apply log_last|exists m| |].
    + split; [done|]. by apply snapshot_ok_log.
    + by intros q ?%not_elem_of_nil.
    + intros q w Hq. by apply snapshot_ok_log, Hf.
  - split; cbn; [|by eexists; apply log_last|exists m| |].
    + unfold container_ok, um_ok. by rewrite write_reference_keys.
    + split; [done|]. by apply snapshot_ok_log.
    + intros q Hq. by apply copy_ok_reference, Hcp.
    + intros q w Hq. by apply snapshot_ok_log, Hf.
  - split; cbn; [done|by exists b|by exists m| |done].
    intros q [Hq|Hq]%elem_of_app; [by apply Hcp|].
    apply list_elem_of_singleton in Hq as ->. by eapply copy_begin.
  - split; cbn; [done|by exists b|by exists m| |done].
    intros q Hq. rewrite elem_of_app, elem_of_cons in Hq. destruct Hq as [Hq|[->|Hq]].
    1, 3: apply Hcp; rewrite elem_of_app, elem_of_cons; auto.
    eapply copy_element_ok; [done..|]. apply Hcp. rewrite elem_of_app. right. by left.
  - split; cbn; [done|by exists b|by exists m| |].
    + intros q Hq. apply Hcp. rewrite elem_of_app, elem_of_cons. apply elem_of_app in Hq. tauto.
    + intros q w [Hq|Hq]%elem_of_app; [by apply Hf|]. apply list_elem_of_singleton in Hq as [= -> ->].
      destruct (Hcp (Copy f [] acc)) as [Hk Hd]; [rewrite elem_of_app; right; by left|].
      unfold snapshot_ok. cbn [copy_acc copy_rest copy_first fst snd] in *. rewrite app_nil_r in Hk.
      assert (dom (um_map acc) = dom (held c)) as ->; [|done].
      unfold um_map at 1. by rewrite held_dom, Hk, dom_list_to_map_L.
  - split; cbn; [done|by exists b|exists m'|done|].
    + split; [done|]. apply Hf. rewrite elem_of_app. right. by left.
    + intros q w Hq. apply Hf. rewrite elem_of_app, elem_of_cons. apply elem_of_app in Hq. tauto.
  - split; cbn; [done|by exists b|by exists m|done|done].
Qed.

Lemma steps_ok n s s' : sys_ok s → steps n s s' → sys_ok s'.
Proof. intros Hok Hs. induction Hs; eauto using step_ok. Qed.

(** ** One refreshing thread: versions only grow *)

Definition single_ok (s : sys) : Prop :=
  (length (copying s) + length (in_flight s) + uncounted s ≤ 1 ∧
   (published s).1 ≤ (published s).2 ≤ now (log s))%nat ∧
  Forall (λ r, (published s).2 ≤ copy_first r ≤ now (log s))%nat (copying s) ∧
  Forall (λ pm, (published s).2 ≤ pm.1.1 ∧ pm.1.1 ≤ pm.1.2 ≤ now (log s))%nat (in_flight s).

Definition not_before (p q : nat * nat) : Prop := (p.1 ≤ q.1 ∧ p.2 ≤ q.2)%nat.

(** A longer log. *)
Lemma single_log c' l e r p cs fl u c :
  single_ok (Sys c l r p cs fl u) → single_ok (Sys c' (l ++ [e]) r p cs fl u).
Proof.
  unfold single_ok. cbn [published log copying in_flight uncounted].
  intros (Hn & Hc & Hf). rewrite length_app, Nat.add_1_r. cbn [pred]. split_and!; [lia|lia|lia| |].
  - eapply list.Forall_impl; [exact Hc|]. simpl. lia.
  - eapply list.Forall_impl; [exact Hf|]. simpl. lia.
Qed.

Lemma single_step s s' :
  single_ok s → step 1 s s' → single_ok s' ∧ not_before (published s) (published s').
Proof.
  intros Hs Hstep.
  destruct Hstep as [c l r p cs fl u o Hr|c c' l r p fl u Hw|c l r p cs fl u key d Hk|c l r p cs fl u Hn
    |c l r p cs1 cs2 fl u f key rest acc v Hv|c l r p cs1 cs2 fl u f acc|c l r p cs fl1 fl2 v m' u|c l r p cs fl u].
  - by split.
  - split; [by eapply single_log|by split].
  - split; [by eapply single_log|by split].
  - split; [|by split]. destruct Hs as (? & Hc & Hf). unfold single_ok in *. cbn in *.
    rewrite length_app. cbn. split_and!; [lia|lia|lia| |done].
    apply list.Forall_app. split; [done|]. apply list.Forall_singleton. cbn. lia.
  - split; [|by split]. destruct Hs as (? & Hc & Hf). unfold single_ok in *. cbn in *.
    rewrite length_app in *. cbn in *. split_and!; [lia|lia|lia| |done].
    apply list.Forall_app in Hc as [Hc1 [Hr Hc2]%list.Forall_cons].
    apply list.Forall_app. split; [done|]. by apply list.Forall_cons.
  - split; [|by split]. destruct Hs as (? & Hc & Hf). unfold single_ok in *. cbn in *.
    rewrite !length_app in *. cbn in *. apply list.Forall_app in Hc as [Hc1 [Hr Hc2]%list.Forall_cons].
    cbn in Hr. split_and!; [lia|lia|lia|by apply list.Forall_app|].
    apply list.Forall_app. split; [done|]. apply list.Forall_singleton. cbn. lia.
  - destruct Hs as ((? & ?) & Hc & Hf). unfold single_ok, not_before in *. cbn in *.
    rewrite !length_app in *. cbn in *. destruct cs, fl1, fl2; cbn in *; try lia.
    apply list.Forall_cons in Hf as [Hf _]. cbn in Hf. by split_and!; [lia..|constructor|constructor|lia|lia].
  - split; [|by split]. destruct Hs as (? & Hc & Hf). unfold single_ok in *. cbn in *. by split_and!; [lia..| |].
Qed.

(** ** The properties *)

(** A refresh with nothing in between is exact: afterwards the reader
    answers [get], [contains], [size] and [keys] as the container does, and it
    has counted one refresh. *)
Theorem refresh_agrees (c : container) r :
  container_ok c →
  (∀ ty key, get ty key (refresh c r) = thread_safe_container.get_typed ty key c) ∧
  (∀ key, contains key (refresh c r) = (thread_safe_container.contains key c).2) ∧
  size (refresh c r) = thread_safe_container.size c ∧
  keys (refresh c r) = (thread_safe_container.keys c).2 ∧
  refresh_count_ (refresh c r) = wrap 64 (refresh_count_ r + 1) ∧
  (∀ ty key, snapshot_reader.get ty key (snapshot_reader.update_snapshot c).2
             = thread_safe_container.get_typed ty key c).
Proof.
  intros Hok.
  unfold refresh, store, count_refresh, get, contains, size, keys. simpl.
  rewrite copy_of_values by done.
  assert (∀ ty key, um_find key (copied c) ≫= value.get ty = thread_safe_container.get_typed ty key c)
    as Hget.
  { intros ty key. unfold thread_safe_container.get_typed. rewrite copy_map_find.
    destruct (um_find key _) as [v|]; [apply get_copy|done]. }
  split_and!; try done.
  - intros key. unfold um_contains. rewrite copy_map_find. apply bool_decide_ext. by rewrite fmap_is_Some.
  - unfold um_size, thread_safe_container.copy_map. by rewrite length_map.
  - by rewrite copy_map_keys.
Qed.

Lemma refresh_agrees_witness :
  (∀ ty key, get ty key (refresh one_container (create one_container))
             = thread_safe_container.get_typed ty key one_container) ∧
  (∀ key, contains key (refresh one_container (create one_container))
          = (thread_safe_container.contains key one_container).2) ∧
  size (refresh one_container (create one_container)) = 1 ∧
  keys (refresh one_container (create one_container)) = ["k"%string] ∧
  refresh_count_ (refresh one_container (create one_container)) = 2 ∧
  (∀ ty key, snapshot_reader.get ty key (snapshot_reader.update_snapshot one_container).2
             = thread_safe_container.get_typed ty key one_container).
Proof. apply (refresh_agrees one_container (create one_container)). apply NoDup_singleton. Defined.

(** C8. What a snapshot is, however operations, writes through references [operator[]]
    returned and any number of refreshes interleave: there is a stretch of time in
    which nothing but such references wrote, the snapshot has the keys the container
    had throughout, and every value is one its element had in it.  If no reference
    wrote, the snapshot is exactly a map the container has held, never a mixture. *)
Theorem snapshot_consistent n c s :
  container_ok c → steps n (start c) s →
  ∃ m first last, snapshot_ (reader s) = Some m ∧
    drawn (log s) (dom (um_map m)) first last (um_map m) ∧
    ((∀ i e, (first < i ≤ last)%nat → log s !! i = Some e → e.1 = false) →
     ∃ b, log s !! first = Some (b, um_map m)).
Proof.
  intros Hok Hs. destruct (steps_ok _ _ _ (start_ok c Hok) Hs) as [_ _ (m & Hm & Hp) _ _].
  exists m, (published s).1, (published s).2. split_and!; [done|done|]. intros Hno.
  destruct Hp as [Ho Hr Hk Hv]. assert ((published s).2 = (published s).1) as E.
  { destruct (decide ((published s).1 < (published s).2)%nat) as [Hlt|?]; [|lia].
    destruct (lookup_lt_is_Some_2 (log s) (published s).2) as [e He]; [lia|].
    pose proof (Hr _ e ltac:(split; [exact Hlt|reflexivity]) He).
    pose proof (Hno _ e ltac:(split; [exact Hlt|reflexivity]) He). congruence. }
  apply drawn_exact. split; rewrite E in *; done.
Qed.

Definition write_k : op (C:=loc) := Set_ "k" (Value "" (V_int 1)).

(** A refresh of a container with one element, finished before a write and published
    after it. *)
Lemma write_during_refresh :
  ∃ s, steps 1 (start one_container) s ∧ published s = (0, 0)%nat ∧ length (log s) = 2%nat.
Proof.
  eexists. split.
  - eapply steps_step; [apply step_begin; simpl; lia|].
    eapply steps_step; [by eapply (step_element _ _ _ _ _ [] [])|].
    eapply steps_step; [eapply (step_finish _ _ _ _ _ [] [])|].
    eapply steps_step; [by apply step_write, (write_op _ write_k)|].
    eapply steps_step; [eapply (step_store _ _ _ _ _ _ [] [])|]. apply steps_refl.
  - done.
Qed.

Lemma snapshot_consistent_witness :
  ∃ s m first last, steps 1 (start one_container) s ∧ snapshot_ (reader s) = Some m ∧
    drawn (log s) (dom (um_map m)) first last (um_map m) ∧
    ((∀ i e, (first < i ≤ last)%nat → log s !! i = Some e → e.1 = false) →
     ∃ b, log s !! first = Some (b, um_map m)).
Proof.
  destruct write_during_refresh as (s & Hs & _).
  destruct (snapshot_consistent 1 one_container s) as (m & first & last & H); [apply NoDup_singleton|done|].
  exists s, m, first, last. done.
Defined.

(** Two elements, both written through references while the refresh is between them:
    the snapshot has the first as it was and the second as it is, which no map the
    container held has. *)
Definition two_container : container :=
  thread_safe_container.with_values [("a"%string, Value "a" (V_int 0)); ("b"%string, Value "b" (V_int 0))]
    thread_safe_container.empty_container.

Theorem snapshot_of_no_moment :
  ∃ s m, steps 1 (start two_container) s ∧ snapshot_ (reader s) = Some m ∧
    Forall (λ e, e.2 ≠ um_map m) (log s).
Proof.
  do 2 eexists. split_and!.
  - eapply steps_step; [apply step_begin; simpl; lia|].
    eapply steps_step; [by eapply (step_element _ _ _ _ _ [] [])|].
    eapply steps_step; [by apply (step_reference _ _ _ _ _ _ _ _ "a" (V_int 1))|].
    eapply steps_step; [by apply (step_reference _ _ _ _ _ _ _ _ "b" (V_int 1))|].
    eapply steps_step; [by eapply (step_element _ _ _ _ _ [] [])|].
    eapply steps_step; [eapply (step_finish _ _ _ _ _ [] [])|].
    eapply steps_step; [eapply (step_store _ _ _ _ _ _ [] [])|]. apply steps_refl.
  - reflexivity.
  - repeat apply list.Forall_cons_2; try apply list.Forall_nil_2; intros E;
      apply (f_equal (λ f : contents, (f !! "a"%string, f !! "b"%string))) in E; vm_compute in E; discriminate E.
Qed.

(** With one refreshing thread the reader never goes back in time: along
    every execution the snapshots it has published are from later and later
    stretches. *)
Theorem single_refresher_monotone c s s' :
  steps 1 (start c) s → steps 1 s s' → not_before (published s) (published s').
Proof.
  intros H1 H2. assert (single_ok s) as Hs.
  { assert (single_ok (start c)) as H0 by (split_and!; simpl; [lia..|constructor|constructor]).
    clear H2. induction H1; [done|]. apply IHsteps. by apply (single_step s1). }
  clear H1. induction H2 as [s|s1 s2 s3 Hstep _ IH]; [done|].
  destruct (single_step _ _ Hs Hstep) as [Hs2 Hle]. specialize (IH Hs2).
  unfold not_before in *. lia.
Qed.

Lemma single_refresher_monotone_witness :
  ∃ s s', steps 1 (start one_container) s ∧ steps 1 s s' ∧ not_before (published s) (published s').
Proof.
  destruct write_during_refresh as (s & Hs & _). exists (start one_container), s.
  split_and!; [apply steps_refl|done|].
  by apply (single_refresher_monotone one_container); [apply steps_refl|].
Defined.

(** With two refreshing threads (a manual [refresh] next to the background
    one of [auto_refresh_reader]) it can: the thread that copied the older map
    may publish it last, and a value that was already visible disappears. *)
Theorem two_refreshers_go_back :
  ∃ s s', steps 2 (start one_container) s ∧ steps 2 s s' ∧
    get int_value "k" (reader s) = Some (V_int 1) ∧
    get int_value "k" (reader s') = Some (V_int 0) ∧
    thread_safe_container.get_typed int_value "k" (cont s') = Some (V_int 1).
Proof.
  do 2 eexists. split_and!.
  - eapply steps_step; [apply step_begin; simpl; lia|].
    eapply steps_step; [by eapply (step_element _ _ _ _ _ [] [])|].
    eapply steps_step; [eapply (step_finish _ _ _ _ _ [] [])|].
    eapply steps_step; [by apply step_write, (write_op _ write_k)|].
    eapply steps_step; [apply step_begin; simpl; lia|].
    eapply steps_step; [by eapply (step_element _ _ _ _ _ [] [])|].
    eapply steps_step; [eapply (step_finish _ _ _ _ _ [] [])|].
    eapply steps_step; [eapply (step_store _ _ _ _ _ _ [_] [])|].
    eapply steps_step; [apply step_count|]. apply steps_refl.
  - eapply steps_step; [eapply (step_store _ _ _ _ _ _ [] [])|]. apply steps_refl.
  - vm_compute. reflexivity.
  - vm_compute. reflexivity.
  - vm_compute. reflexivity.
Qed.
