(* ===== verification/AutoRefresh.v ===== *)
(** * The automatically refreshed reader

    [internal/thread_safe_container.h], class [auto_refresh_reader]: a
    [lockfree_container_reader] that a background thread refreshes, and the
    protocol that stops the thread.  Reads are those of the reader
    (LockfreeReader.v); the thread, any number of callers of [stop()], the mutex
    and the condition variable are a transition system.  A wait may end by a
    notification, spuriously or by the timeout. *)

From S2P Require Import Prelude Bytes Float Types UnorderedMap Value ValueFacts.
From S2P Require Import ThreadSafeContainer ThreadSafeContainerFacts LockfreeReader.

Module auto_refresh_reader.

(** [reader_] and the interval in milliseconds; the rest is in [sys]. *)
Record t : Type := Auto { reader_ : lockfree_container_reader.t; refresh_interval_ : Z }.

Definition create (c : container) (refresh_interval : Z) : t :=
  Auto (lockfree_container_reader.create c) refresh_interval.
Definition refresh_interval (r : t) : Z := refresh_interval_ r.

Definition get (ty : value_types) (key : string) (r : t) : option (ValueVariant loc) :=
  lockfree_container_reader.get ty key (reader_ r).
Definition contains (key : string) (r : t) : bool := lockfree_container_reader.contains key (reader_ r).
Definition size (r : t) : Z := lockfree_container_reader.size (reader_ r).
Definition empty (r : t) : bool := lockfree_container_reader.empty (reader_ r).
Definition keys (r : t) : list string := lockfree_container_reader.keys (reader_ r).
Definition for_each {S} (func : string → value loc → S → S) (r : t) (s : S) : S :=
  lockfree_container_reader.for_each func (reader_ r) s.
Definition refresh (c : container) (r : t) : t :=
  Auto (lockfree_container_reader.refresh c (reader_ r)) (refresh_interval_ r).
Definition refresh_count (r : t) : Z := lockfree_container_reader.refresh_count_ (reader_ r).

(** ** The thread and its stoppers *)

(** [refresh_loop]: acquiring the mutex, the predicate before the wait, the wait,
    reacquiring and the predicate behind it, the refresh. *)
Inductive loop_pc : Type :=
| L_acquire | L_test | L_waiting
| L_reacquire (timed_out : bool) | L_retest (timed_out : bool)
| L_refresh | L_end.

(** [stop()]: what it returned from, without or with joining the thread. *)
Inductive stop_pc : Type := S_acquire | S_test | S_notify | S_join | S_returned (joined : bool).

Inductive actor : Type := Loop | Stopper (i : nat).

Record sys : Type := Sys {
  mutex_ : option actor; running_ : bool; loop : loop_pc; stops : list stop_pc; refreshes : nat }.

(** The constructor, with [n] future calls of [stop()]. *)
Definition start (n : nat) : sys := Sys None true L_acquire (replicate n S_acquire) 0.

Definition set_loop (m : option actor) (p : loop_pc) (s : sys) : sys :=
  Sys m (running_ s) p (stops s) (refreshes s).
Definition set_stop (m : option actor) (i : nat) (p : stop_pc) (s : sys) : sys :=
  Sys m (running_ s) (loop s) (<[i := p]> (stops s)) (refreshes s).

(** [cv_.wait_for(lock, interval, pred)] is [while (!pred()) if (wait times out)
    return pred();] the thread breaks when it returned true. *)
Definition loop_step (timed_out : bool) (s : sys) : sys :=
  match loop s with
  | L_acquire => match mutex_ s with None => set_loop (Some Loop) L_test s | Some _ => s end
  | L_test => if running_ s then set_loop None L_waiting s else set_loop None L_end s
  | L_waiting => set_loop (mutex_ s) (L_reacquire timed_out) s
  | L_reacquire t =>
      match mutex_ s with None => set_loop (Some Loop) (L_retest t) s | Some _ => s end
  | L_retest t =>
      if running_ s then set_loop None (if t : bool then L_refresh else L_waiting) s
      else set_loop None L_end s
  | L_refresh => Sys (mutex_ s) (running_ s) L_acquire (stops s) (S (refreshes s))
  | L_end => s
  end.

Definition stop_step (i : nat) (s : sys) : sys :=
  match stops s !! i with
  | Some S_acquire =>
      match mutex_ s with None => set_stop (Some (Stopper i)) i S_test s | Some _ => s end
  | Some S_test =>
      if running_ s
      then set_stop None i S_notify (Sys (mutex_ s) false (loop s) (stops s) (refreshes s))
      else set_stop None i (S_returned false) s
  | Some S_notify => set_stop (mutex_ s) i S_join s
  | Some S_join =>
      match loop s with L_end => set_stop (mutex_ s) i (S_returned true) s | _ => s end
  | _ => s
  end.

(** [is_running()], when no one else holds the mutex. *)
Definition is_running (s : sys) : bool := running_ s.

Inductive event : Type := By_loop (timed_out : bool) | By_stop (i : nat).

Definition step (s : sys) (e : event) : sys :=
  match e with By_loop t => loop_step t s | By_stop i => stop_step i s end.

Definition run (s : sys) (es : list event) : sys := foldl step s es.

Example refreshes_and_stops :
  let s := run (start 1) (replicate 12 (By_loop true) ++ [By_stop 0; By_stop 0; By_stop 0]
             ++ replicate 4 (By_loop true) ++ [By_stop 0]) in
  (loop s, stops s, refreshes s) = (L_end, [S_returned true], 2%nat).
Proof. by vm_compute. Qed.

(** ** The protocol *)

Definition stopping (p : stop_pc) : bool :=
  match p with S_notify | S_join | S_returned true => true | _ => false end.

Record ok (s : sys) : Prop := Ok {
  ok_loop : mutex_ s = Some Loop ↔ (loop s = L_test ∨ ∃ t, loop s = L_retest t);
  ok_end : loop s = L_end → running_ s = false;
  ok_stopping : ∀ i p, stops s !! i = Some p → stopping p = true → running_ s = false;
  ok_joined : ∀ i, stops s !! i = Some (S_returned true) → loop s = L_end;
  ok_one : ∀ i j p q, stops s !! i = Some p → stops s !! j = Some q →
    stopping p = true → stopping q = true → i = j;
  ok_mutex : ∀ i, stops s !! i = Some S_test ↔ mutex_ s = Some (Stopper i) }.

Lemma ok_start n : ok (start n).
Proof.
  assert (∀ i p, stops (start n) !! i = Some p → p = S_acquire) as Hs.
  { intros i p H. by apply lookup_replicate in H as [-> _]. }
  split.
  - split; [done|]. intros [?|[? ?]]; done.
  - done.
  - intros i p H. by apply Hs in H as ->.
  - intros i H. by apply Hs in H.
  - intros i j p q H. by apply Hs in H as ->.
  - intros i. split; [|done]. intros H. by apply Hs in H.
Qed.

(** A step of the thread leaves the callers and their hold of the mutex alone. *)
Lemma ok_set_loop m p s :
  ok s → (∀ i, m = Some (Stopper i) ↔ mutex_ s = Some (Stopper i)) →
  (m = Some Loop ↔ p = L_test ∨ ∃ t, p = L_retest t) →
  (p = L_end → running_ s = false) → (loop s = L_end → p = L_end) → ok (set_loop m p s).
Proof.
  intros [Hl He Hs Hj Ho Hm] H1 H2 H3 H4. split; cbn; try done; [by eauto|].
  intros i. by rewrite H1.
Qed.

Lemma holds_loop s : ok s → loop s = L_test ∨ (∃ t, loop s = L_retest t) → mutex_ s = Some Loop.
Proof. intros H. by apply (ok_loop s H). Qed.

Lemma ok_loop_step t s : ok s → ok (loop_step t s).
Proof.
  intros Hs. unfold loop_step.
  destruct (loop s) as [| | |t'|t'| |] eqn:El.
  - destruct (mutex_ s) eqn:Em; [done|].
    apply ok_set_loop; rewrite ?Em, ?El; try done. split; auto.
  - pose proof (holds_loop s Hs (or_introl El)) as Em.
    destruct (running_ s) eqn:Er; apply ok_set_loop; rewrite ?Em, ?El; try done;
      split; try done; by intros [?|[? ?]].
  - apply ok_set_loop; rewrite ?El; try done. rewrite (ok_loop s Hs), El. naive_solver.
  - destruct (mutex_ s) eqn:Em; [done|].
    apply ok_set_loop; rewrite ?Em, ?El; try done. split; eauto.
  - pose proof (holds_loop s Hs (or_intror (ex_intro _ _ El))) as Em.
    destruct (running_ s) eqn:Er, t'; apply ok_set_loop; rewrite ?Em, ?El; try done;
      split; try done; by intros [?|[? ?]].
  - destruct Hs as [Hl He Hst Hj Ho Hm]. split; cbn; try done.
    + rewrite Hl, El. naive_solver.
    + intros i Hi. apply Hj in Hi. congruence.
  - done.
Qed.

(** A caller's step from a state where the others are as before. *)
Lemma ok_set_stop i p m r s :
  ok s → (i < length (stops s))%nat →
  (m = Some Loop ↔ mutex_ s = Some Loop) →
  (running_ s = false → r = false) →
  (p = S_returned true → loop s = L_end) →
  (stopping p = true → r = false ∧
     ∀ j q, j ≠ i → stops s !! j = Some q → stopping q = false) →
  (p = S_test ↔ m = Some (Stopper i)) →
  (∀ j, j ≠ i → m = Some (Stopper j) ↔ mutex_ s = Some (Stopper j)) →
  ok (Sys m r (loop s) (<[i := p]> (stops s)) (refreshes s)).
Proof.
  intros [Hl He Hs Hj Ho Hm] Hi Hmut Hr Hret Hstop Htest Hothers.
  assert (∀ j q, <[i := p]> (stops s) !! j = Some q → (j = i ∧ q = p) ∨ (j ≠ i ∧ stops s !! j = Some q))
    as Hins.
  { intros j q H. apply list_lookup_insert_Some in H as [(-> & -> & _)|[? ?]]; [by left|by right]. }
  split; cbn.
  - by rewrite Hmut.
  - intros H. by apply Hr, He.
  - intros j q [[-> ->]|[_ H]]%Hins Hq; [by apply Hstop|eauto].
  - intros j [[_ H]|[_ H]]%Hins; [by apply Hret|eauto].
  - intros j k q1 q2 [[-> ->]|[Hne1 H1]]%Hins [[-> ->]|[Hne2 H2]]%Hins Hq1 Hq2; [done| | |by eauto].
    + apply Hstop in Hq1 as [_ Hq1]. rewrite (Hq1 _ _ Hne2 H2) in Hq2. done.
    + apply Hstop in Hq2 as [_ Hq2]. rewrite (Hq2 _ _ Hne1 H1) in Hq1. done.
  - intros j. destruct (decide (j = i)) as [->|Hne].
    + rewrite list_lookup_insert_eq by done. rewrite <-Htest. split; [by intros [= ->]|by intros ->].
    + by rewrite list_lookup_insert_ne, Hothers by done.
Qed.

(** Who is about to notify or to join is alone in that. *)
Lemma only_stopping i p s :
  ok s → stops s !! i = Some p → stopping p = true →
  running_ s = false ∧ ∀ j q, j ≠ i → stops s !! j = Some q → stopping q = false.
Proof.
  intros Hs Hi Hp. split; [by apply (ok_stopping s Hs i p)|].
  intros j q Hne Hj. destruct (stopping q) eqn:Hq; [|done].
  by destruct Hne; apply (ok_one s Hs j i q p).
Qed.

Lemma ok_stop_step i s : ok s → ok (stop_step i s).
Proof.
  intros Hs. unfold stop_step. destruct (stops s !! i) as [p|] eqn:Hi; [|done].
  pose proof (lookup_lt_Some _ _ _ Hi) as Hlt. pose proof (ok_mutex s Hs) as Hm.
  destruct p as [| | | |b]; [| | | |done].
  - destruct (mutex_ s) eqn:E; [done|]. apply ok_set_stop; rewrite ?E; try done; by intros; split; intros; simplify_eq.
  - assert (mutex_ s = Some (Stopper i)) as E by (by apply Hm).
    destruct (running_ s) eqn:Hr; apply (ok_set_stop i _ _ _ s); cbn; rewrite ?E; try done;
      try (by intros; split; intros; simplify_eq).
    intros _. split; [done|]. intros j q Hne Hj. destruct (stopping q) eqn:Hq; [|done].
    pose proof (ok_stopping s Hs j q Hj Hq). congruence.
  - apply ok_set_stop; try done; [intros _; by apply (only_stopping i S_notify)|].
    rewrite <-Hm, Hi. naive_solver.
  - destruct (loop s) eqn:El; try done. unfold set_stop.
    apply ok_set_stop; try done; [intros _; by apply (only_stopping i S_join)|].
    rewrite <-Hm, Hi. naive_solver.
Qed.

Lemma ok_run n es : ok (run (start n) es).
Proof.
  unfold run. generalize (ok_start n). generalize (start n).
  induction es as [|[t|i] es IH]; intros s Hs; [done|..]; apply IH;
    [by apply ok_loop_step|by apply ok_stop_step].
Qed.
Lemma running_stays es s : running_ s = false → running_ (run s es) = false.
Proof.
  revert s. induction es as [|e es IH]; intros s Hs; [done|]. apply IH.
  destruct e; cbn; unfold loop_step, stop_step, set_loop, set_stop; by repeat (case_match; cbn).
Qed.

(** The refreshes still to come once [running_] is false. *)
Definition pending (s : sys) : nat := match loop s with L_refresh => 1 | _ => 0 end.

Lemma refreshes_pending e s :
  running_ s = false →
  (refreshes (step s e) + pending (step s e) = refreshes s + pending s)%nat.
Proof.
  intros Hr. unfold pending. destruct e as [t|i]; cbn; unfold loop_step, stop_step, set_loop, set_stop.
  - rewrite Hr. destruct (loop s) as [| | |t'|t'| |] eqn:El; cbn; rewrite ?El; try lia;
      destruct (mutex_ s); cbn; rewrite ?El; lia.
  - repeat (case_match; cbn in *); try lia; congruence.
Qed.

Lemma refreshes_run es s :
  running_ s = false → (refreshes (run s es) + pending (run s es) = refreshes s + pending s)%nat.
Proof.
  revert s. induction es as [|e es IH]; intros s Hs; [done|].
  change (run s (e :: es)) with (run (step s e) es).
  rewrite IH by (by apply (running_stays [e])). by apply refreshes_pending.
Qed.

Lemma run_end es s : loop s = L_end → loop (run s es) = L_end.
Proof.
  revert s. induction es as [|e es IH]; intros s Hs; [done|]. apply IH.
  destruct e; cbn; unfold loop_step, stop_step, set_stop; [by rewrite Hs|].
  by repeat (case_match; cbn).
Qed.

(** C18. In every interleaving of the thread with any number of callers of [stop()]:
    when a call that joined has returned the thread has ended, and there is no
    automatic refresh after it; at most one call joins; once [running_] is false
    at most one refresh is left, and with the mutex free the thread ends in
    three steps, however its wait ends. *)
Theorem stop_ends_refreshing n es :
  let s := run (start n) es in
  (∀ i, stops s !! i = Some (S_returned true) →
     loop s = L_end ∧ running_ s = false ∧ ∀ es', refreshes (run s es') = refreshes s) ∧
  (∀ i j, stops s !! i = Some (S_returned true) → stops s !! j = Some (S_returned true) → i = j) ∧
  (running_ s = false → ∀ es', refreshes (run s es') ≤ refreshes s + 1)%nat ∧
  (running_ s = false → mutex_ s = None ∨ mutex_ s = Some Loop →
     ∀ t1 t2 t3, loop (run s [By_loop t1; By_loop t2; By_loop t3]) = L_end).
Proof.
  intros s. pose proof (ok_run n es) as Hs. fold s in Hs. split_and!.
  - intros i Hi. pose proof (ok_joined s Hs i Hi) as El. pose proof (ok_end s Hs El) as Er.
    split_and!; [done..|]. intros es'. pose proof (refreshes_run es' s Er) as H.
    unfold pending in H. rewrite El, (run_end es' s El) in H. lia.
  - intros i j Hi Hj. by apply (ok_one s Hs i j _ _ Hi Hj).
  - intros Er es'. pose proof (refreshes_run es' s Er) as H.
    unfold pending in H. destruct (loop s), (loop (run s es')); lia.
  - intros Er Hm t1 t2 t3. assert (mutex_ s = None ∨ loop s = L_test ∨ ∃ t, loop s = L_retest t) as Hm'
      by (destruct Hm as [|Hm]; [by left|right; by apply (ok_loop s Hs)]).
    unfold run. cbn [foldl step]. unfold loop_step at 3.
    destruct (loop s) as [| | |t'|t'| |] eqn:El; rewrite ?Er; cbn; rewrite ?El; try done;
      (destruct Hm' as [E|[?|[? ?]]]; [rewrite ?E|congruence..]); cbn; rewrite ?Er; try done.
    exact (run_end [By_loop t2; By_loop t3] s El).
Qed.

(** A second caller returns at once while the first still waits for the thread:
    refreshes go on after its [stop()]. *)
Theorem second_stop_returns_early :
  let before := replicate 5 (By_loop true) ++ [By_stop 0; By_stop 0; By_stop 1; By_stop 1] in
  let s := run (start 2) before in
  stops s !! 1%nat = Some (S_returned false) ∧ refreshes s = 0%nat ∧
  refreshes (run s [By_loop true]) = 1%nat.
Proof. by vm_compute. Qed.
End auto_refresh_reader.
