(* ===== verification/ValueStore.v ===== *)
(** * value_store: a key-value store with a checked binary format

    [include/kcenon/container/value_store.h] and [core/value_store.cpp].
    Nested containers are owned trees (see Value.v). An exception
    [std::runtime_error(what)] and an error [Result] are the right side of a
    sum; running out of memory is not modelled. [serialize] (JSON) is not part
    of this file. *)

From S2P Require Import Prelude Bytes Float Types ErrorCodes UnorderedMap Value ThreadSafeContainer.
#[local] Open Scope Z_scope.

(** [if (offset + n > data.size()) <fail with e>] *)
Definition need_else {A E} (data : list byte) (offset n : Z) (e : E) (k : res (A + E)) : res (A + E) :=
  if Z.of_nat (length data) <? offset + n then Val (inr e) else k.

Module value_store.

Record t : Type := Store {
  values_ : list (string * value tree);
  read_count_ : Z;
  write_count_ : Z }.

Definition empty_store : t := Store [] 0 0.

Definition incr := thread_safe_container.incr.
Definition assign_at := thread_safe_container.assign_at (C:=tree).

Definition add (key : string) (val : value tree) (s : t) : t :=
  Store (assign_at key val (values_ s)) (read_count_ s) (incr (write_count_ s)).

(** Only a hit counts as a read. *)
Definition get (key : string) (s : t) : t * option (value tree) :=
  match um_find key (values_ s) with
  | Some v => (Store (values_ s) (incr (read_count_ s)) (write_count_ s), Some (value.copy v))
  | None => (s, None)
  end.

Definition contains (key : string) (s : t) : bool := um_contains key (values_ s).

Definition remove (key : string) (s : t) : t * bool :=
  match um_find key (values_ s) with
  | Some _ => (Store (um_erase key (values_ s)) (read_count_ s) (write_count_ s), true)
  | None => (s, false)
  end.

Definition clear (s : t) : t := Store [] (read_count_ s) (write_count_ s).
Definition size (s : t) : Z := um_size (values_ s).
Definition empty (s : t) : bool := size s =? 0.
Definition get_read_count (s : t) : Z := read_count_ s.
Definition get_write_count (s : t) : Z := write_count_ s.
Definition reset_statistics (s : t) : t := Store (values_ s) 0 0.

Definition version : Z := 1.

Definition serialize_binary (s : t) : t * list byte :=
  (Store (values_ s) (incr (read_count_ s)) (write_count_ s),
   to_u8 version :: serialize_entries serialize_value (values_ s)).

(** JSON input is never accepted. *)
Definition deserialize (json_data : string) : t + string :=
  inr "value_store::deserialize() requires JSON parser - use deserialize_binary() instead"%string.

(** *** deserialize_binary, which throws *)

Definition what_small : string := "value_store::deserialize_binary() - invalid data: too small".
Definition what_version (v : Z) : string :=
  "value_store::deserialize_binary() - unsupported version: " ++ to_string v.
Definition what_entry (i : Z) : string :=
  "value_store::deserialize_binary() - truncated data at entry " ++ to_string i.
Definition what_key : string := "value_store::deserialize_binary() - truncated key data".
Definition what_value : string := "value_store::deserialize_binary() - truncated value data".
Definition what_parse (key : string) : string :=
  "value_store::deserialize_binary() - failed to deserialize value for key: " ++ key.

Fixpoint binary_loop (fuel : nat) (i count : Z) (data : list byte) (offset : Z)
    (values : list (string * value tree)) : res (list (string * value tree) + string) :=
  match fuel with
  | O => NoFuel
  | S fuel =>
      if i <? count then
        need_else data offset 4 (what_entry i) (
        let? key_len := get_le data offset 4 in
        let offset := offset + 4 in
        need_else data offset (key_len + 4) what_key (
        let? key := sub data offset (offset + key_len) in
        let offset := offset + key_len in
        let? value_len := get_le data offset 4 in
        let offset := offset + 4 in
        need_else data offset value_len what_value (
        let? value_data := sub data offset (offset + value_len) in
        let offset := offset + value_len in
        let? value_opt := value_deserialize value_data in
        match value_opt with
        | Some v =>
            binary_loop fuel (i + 1) count data offset (assign_at (bytes_str key) v values)
        | None => Val (inr (what_parse (bytes_str key)))
        end)))
      else Val (inl values)
  end.

Definition deserialize_binary (binary_data : list byte) : res (t + string) :=
  if Z.of_nat (length binary_data) <? 1 + 4 then Val (inr what_small)
  else
    let? v := get_le binary_data 0 1 in
    if negb (v =? 1) then Val (inr (what_version v))
    else
      let? count := get_le binary_data 1 4 in
      let? r := binary_loop (S (length binary_data)) 0 count binary_data 5 [] in
      Val (match r with inl values => inl (Store values 0 0) | inr e => inr e end).

(** *** deserialize_binary_result, which returns an error *)

Definition err_small : error_info :=
  error error_codes.corrupted_data
    "value_store::deserialize_binary_result() - invalid data: too small".
Definition err_version (v : Z) : error_info :=
  error error_codes.version_mismatch
    ("value_store::deserialize_binary_result() - unsupported version: " ++ to_string v).
Definition err_entry (i : Z) : error_info :=
  error error_codes.corrupted_data
    ("value_store::deserialize_binary_result() - truncated data at entry " ++ to_string i).
Definition err_key : error_info :=
  error error_codes.corrupted_data
    "value_store::deserialize_binary_result() - truncated key data".
Definition err_value : error_info :=
  error error_codes.corrupted_data
    "value_store::deserialize_binary_result() - truncated value data".
Definition err_parse (key : string) : error_info :=
  error error_codes.value_parse_failed
    ("value_store::deserialize_binary_result() - failed to deserialize value for key: " ++ key).

Definition deserialize_result (json_data : string) : t + error_info :=
  inr (error error_codes.deserialization_failed
    "value_store::deserialize_result() requires JSON parser - use deserialize_binary_result() instead").

Fixpoint result_loop (fuel : nat) (i count : Z) (data : list byte) (offset : Z)
    (values : list (string * value tree)) : res (list (string * value tree) + error_info) :=
  match fuel with
  | O => NoFuel
  | S fuel =>
      if i <? count then
        need_else data offset 4 (err_entry i) (
        let? key_len := get_le data offset 4 in
        let offset := offset + 4 in
        need_else data offset (key_len + 4) err_key (
        let? key := sub data offset (offset + key_len) in
        let offset := offset + key_len in
        let? value_len := get_le data offset 4 in
        let offset := offset + 4 in
        need_else data offset value_len err_value (
        let? value_data := sub data offset (offset + value_len) in
        let offset := offset + value_len in
        let? value_opt := value_deserialize value_data in
        match value_opt with
        | Some v =>
            result_loop fuel (i + 1) count data offset (assign_at (bytes_str key) v values)
        | None => Val (inr (err_parse (bytes_str key)))
        end)))
      else Val (inl values)
  end.

Definition deserialize_binary_result (binary_data : list byte) : res (t + error_info) :=
  if Z.of_nat (length binary_data) <? 1 + 4 then Val (inr err_small)
  else
    let? v := get_le binary_data 0 1 in
    if negb (v =? 1) then Val (inr (err_version v))
    else
      let? count := get_le binary_data 1 4 in
      let? r := result_loop (S (length binary_data)) 0 count binary_data 5 [] in
      Val (match r with inl values => inl (Store values 0 0) | inr e => inr e end).
End value_store.
