(* ===== verification/ValueStoreFacts.v ===== *)
(** * value_store: what its operations and its binary format guarantee

    The binary format is the one of thread_safe_container behind a version byte,
    read strictly: the two deserializers of value_store are total, agree with
    each other on every input ([store_deserializers_agree]), accept nothing that
    thread_safe_container would not read to the same map
    ([store_accepts_container]), and read back what [serialize_binary] wrote
    ([store_roundtrip]). *)

From S2P Require Import Prelude Bytes Float Types ErrorCodes UnorderedMap Value ValueFacts.
From S2P Require Import ValueRoundtrip ThreadSafeContainer ThreadSafeContainerFacts ValueStore.
Import value_store.

(** ** The two loops and the loop of the container, side by side *)

(** The exception and the error that the two versions report at the same point. *)
Inductive same_failure : string → error_info → Prop :=
| fail_small : same_failure what_small err_small
| fail_version v : v ≠ 1 → same_failure (what_version v) (err_version v)
| fail_entry i : same_failure (what_entry i) (err_entry i)
| fail_key : same_failure what_key err_key
| fail_value : same_failure what_value err_value
| fail_parse k : same_failure (what_parse k) (err_parse k).

Definition same_outcome {A} (r1 : A + string) (r2 : A + error_info) : Prop :=
  match r1, r2 with
  | inl x, inl y => x = y
  | inr what, inr e => same_failure what e
  | _, _ => False
  end.

(** The container skips an entry whose value does not decode. *)
Definition stricter (r : list (string * value tree) + string)
    (c : option (list (string * value tree))) : Prop :=
  match r with
  | inl m => c = Some m
  | inr what => c = None ∨ ∃ k, what = what_parse k
  end.

Lemma need_else_cases {A E} data offset n (e : E) (k : res (A + E)) :
  (need_else data offset n e k = Val (inr e) ∧ Z.of_nat (length data) < offset + n) ∨
  (need_else data offset n e k = k ∧ offset + n ≤ Z.of_nat (length data)).
Proof.
  unfold need_else. destruct (Z.ltb_spec (Z.of_nat (length data)) (offset + n)); auto.
Qed.

Lemma need_else_fits {A E} data o n (e : E) (k : res (A + E)) :
  o + n ≤ Z.of_nat (length data) → need_else data o n e k = k.
Proof. intros ?. destruct (need_else_cases data o n e k) as [[_ ?]|[-> _]]; [lia|done]. Qed.

Lemma need_else_fails {A E} data o n (e : E) (k : res (A + E)) :
  Z.of_nat (length data) < o + n → need_else data o n e k = Val (inr e).
Proof. intros ?. destruct (need_else_cases data o n e k) as [[-> _]|[_ ?]]; [done|lia]. Qed.

Lemma need_fails {A} data o n (k : res (option A)) :
  Z.of_nat (length data) < o + n → need data o n k = Val None.
Proof. intros ?. unfold need. by destruct (Z.ltb_spec (Z.of_nat (length data)) (o + n)); [|lia]. Qed.

(** Bytes behind the version byte. *)
Lemma sub_cons b data a' c' a c :
  a' = 1 + a → c' = 1 + c → 0 ≤ a → sub (b :: data) a' c' = sub data a c.
Proof.
  intros -> -> Ha. unfold sub. cbn [length].
  assert ((0 <=? 1 + a) && (1 + a <=? 1 + c) && (1 + c <=? Z.of_nat (S (length data))) =
          (0 <=? a) && (a <=? c) && (c <=? Z.of_nat (length data))) as ->.
  { apply eq_true_iff_eq. rewrite !andb_true_iff, !Z.leb_le. lia. }
  replace (1 + c - (1 + a)) with (c - a) by lia.
  replace (Z.to_nat (1 + a)) with (S (Z.to_nat a)) by lia. done.
Qed.

Lemma get_le_cons b data o' o n :
  o' = 1 + o → 0 ≤ o → get_le (b :: data) o' n = get_le data o n.
Proof. intros -> Ho. unfold get_le. by rewrite (sub_cons b data _ _ o (o + n)) by lia. Qed.

Lemma value_deserialize_val data : ∃ o, value_deserialize data = Val o.
Proof. destruct (value_deserialize_in data) as (o & -> & _). eauto. Qed.

(** The bounds check at [o], with the same decision in the three loops. *)
Ltac check_at data o :=
  match goal with
  | |- context [need data o ?n _] =>
      destruct (Z.ltb_spec (Z.of_nat (length data)) (o + n));
      [rewrite need_fails, !need_else_fails by (cbn [length]; lia);
       do 3 eexists; split_and!; [done..|by left|constructor]
      |rewrite need_fits, !need_else_fits by (cbn [length]; lia)]
  end.

Ltac field_at b data o :=
  rewrite !(get_le_cons b data _ o) by lia;
  let z := fresh "z" in
  destruct (get_le_in data o 4) as (z & -> & ?); [lia..|]; cbn [res_bind].

Lemma loops_agree b data fuel fuel' i count o o' m :
  o' = 1 + o → 0 ≤ o ≤ Z.of_nat (length data) → nameless m →
  Z.of_nat (length data) - o < Z.of_nat fuel → Z.of_nat (length data) - o < Z.of_nat fuel' →
  ∃ rc rb rr,
    entries_loop assign_entry value_deserialize fuel i count data o m = Val rc ∧
    binary_loop fuel' i count (b :: data) o' m = Val rb ∧
    result_loop fuel' i count (b :: data) o' m = Val rr ∧
    stricter rb rc ∧ same_outcome rb rr.
Proof.
  revert fuel' i o o' m. induction fuel as [|fuel IH]; intros [|fuel'] i o o' m Eo Ho Hm Hf Hf';
    [lia..|]. cbn [entries_loop binary_loop result_loop].
  destruct (i <? count); [|by exists (Some m), (inl m), (inl m)].
  check_at data o. field_at b data o. check_at data (o + 4).
  rewrite !(sub_cons b data _ _ (o + 4) (o + 4 + z)) by lia.
  destruct (sub_in data (o + 4) (o + 4 + z)) as (key & -> & _); [lia..|]. cbn [res_bind].
  field_at b data (o + 4 + z). check_at data (o + 4 + z + 4).
  rewrite !(sub_cons b data _ _ (o + 4 + z + 4) (o + 4 + z + 4 + z0)) by lia.
  destruct (sub_in data (o + 4 + z + 4) (o + 4 + z + 4 + z0)) as (vd & -> & _); [lia..|].
  cbn [res_bind]. destruct (value_deserialize_val vd) as [[v|] ->]; cbn [res_bind].
  - apply IH; [lia|lia|by apply um_assign_size|lia|lia].
  - destruct (entries_loop_in value_deserialize (Z.of_nat (length data) + 1)
      ltac:(intros; apply value_deserialize_in) fuel (i + 1) count data (o + 4 + z + 4 + z0) m)
      as (rc & -> & _); [lia|lia|done|lia|].
    do 3 eexists. split_and!; [done..|right; by eexists|constructor].
Qed.

(** ** The two deserializers *)

Lemma deserializers_cases data :
  ∃ rb rr, deserialize_binary data = Val rb ∧ deserialize_binary_result data = Val rr ∧
    same_outcome rb rr ∧
    (∀ s, rb = inl s → ∃ body, data = to_u8 version :: body ∧ read_count_ s = 0 ∧
       write_count_ s = 0 ∧ tree_deserialize body = Val (Some (Tree (values_ s)))) ∧
    (∀ body t, data = to_u8 version :: body → tree_deserialize body = Val (Some t) →
       rb = inl (Store (entries t) 0 0) ∨ ∃ k, rb = inr (what_parse k)).
Proof.
  unfold deserialize_binary, deserialize_binary_result.
  destruct (Z.ltb_spec (Z.of_nat (length data)) (1 + 4)) as [Hs|Hs].
  { exists (inr what_small), (inr err_small). split_and!; [done..|constructor|done|].
    intros body t -> Ht. exfalso. unfold tree_deserialize, tree_deserialize_by, container_deserialize in Ht.
    rewrite need_fails in Ht by (simpl in Hs; lia). done. }
  destruct data as [|b data]; [simpl in Hs; lia|]. cbn [length] in Hs.
  assert (get_le (b :: data) 0 1 = Val (u8 b)) as ->.
  { unfold get_le. change (0 + 1) with (0 + Z.of_nat (length [b])).
    rewrite (sub_at (b :: data) 0 [b] (at_bytes_start [b] data)). cbn [res_bind]. f_equal.
    change (u8 b + 256 * 0 = u8 b). lia. }
  cbn [res_bind]. destruct (Z.eqb_spec (u8 b) 1) as [Hb|Hb]; cbn [negb].
  2:{ exists (inr (what_version (u8 b))), (inr (err_version (u8 b))).
      split_and!; [done..|by constructor|done|]. intros body t [= -> ->] _. by destruct Hb. }
  assert (b = to_u8 version) as -> by (by rewrite <-(to_u8_u8 b), Hb).
  rewrite (get_le_cons _ data 1 0) by lia.
  destruct (get_le_in data 0 4) as (count & Hc & _); [lia..|]. rewrite Hc. cbn [res_bind].
  destruct (loops_agree (to_u8 version) data (S (length data)) (S (S (length data))) 0 count 4 5 [])
    as (rc & rb & rr & Hrc & Hrb & Hrr & Hst & Hso); [lia|lia|by constructor|lia|lia|].
  cbn [length]. rewrite Hrb, Hrr. cbn [res_bind].
  assert (tree_deserialize data = Val (Tree <$> rc)) as Htree.
  { unfold tree_deserialize, tree_deserialize_by, container_deserialize. fold value_deserialize. rewrite need_fits by lia. rewrite Hc.
    cbn [res_bind]. by rewrite Hrc. }
  exists (match rb with inl m => inl (Store m 0 0) | inr e => inr e end),
    (match rr with inl m => inl (Store m 0 0) | inr e => inr e end).
  split_and!; [done|done| | |].
  - destruct rb, rr; simpl in *; try done. by subst.
  - intros s E. destruct rb as [m|]; [|done]. injection E as <-. exists data.
    simpl in Hst. subst rc. done.
  - intros body t [= <-] Ht. rewrite Htree in Ht. destruct rc as [m|]; [|done].
    injection Ht as <-. destruct rb as [m'|what]; simpl in Hst.
    + left. by injection Hst as ->.
    + right. destruct Hst as [?|[k ->]]; [done|by exists k].
Qed.

(** ** Reading back *)

Lemma binary_loop_at fuel data o count i (m acc : list (string * value tree)) :
  at_bytes data o (concat (map entry_bytes m)) →
  (∀ kv, kv ∈ m → small_str kv.1 = true ∧ small (serialize_value kv.2) = true ∧
                  reads_value value_deserialize kv.2) →
  NoDup (um_keys (acc ++ m)) → count - i = Z.of_nat (length m) → (length m < fuel)%nat →
  binary_loop fuel i count data o acc =
  Val (inl (acc ++ map (λ kv, (kv.1, Value "" (data_ (value_norm kv.2)))) m)).
Proof.
  revert o i m acc. induction fuel as [|fuel IH]; intros o i m acc H Hm Hnd Hc Hf; [lia|].
  destruct m as [|[k v] m]; cbn [binary_loop length] in *.
  { destruct (Z.ltb_spec i count); [lia|]. simpl. by rewrite app_nil_r. }
  destruct (Z.ltb_spec i count); [|lia]. cbn [map concat] in H.
  destruct (Hm (k, v)) as (Hk & Hv & Hr); [by left|]. cbn [fst snd] in *.
  destruct (entry_reads _ _ _ _ _ Hk Hv H) as (N1 & -> & N2 & Hkey & Hvl & N3 & Hvd & Hrest).
  rewrite need_else_fits by done. cbn [res_bind].
  rewrite need_else_fits, Hkey by done. cbn [res_bind].
  rewrite Hvl. cbn [res_bind]. rewrite need_else_fits, Hvd by done. cbn [res_bind].
  specialize (Hr []). rewrite app_nil_r in Hr. rewrite Hr. cbn [res_bind].
  unfold assign_at, thread_safe_container.assign_at.
  rewrite bytes_str_bytes, um_index_fresh by (by apply keys_fresh in Hnd).
  rewrite (IH _ _ m); [by rewrite <-app_assoc|done| | |lia|lia].
  - intros kv Hkv. apply Hm. by right.
  - unfold um_keys in *. rewrite !fmap_app in *. simpl in *. by rewrite <-app_assoc.
Qed.

Lemma value_reads v strict :
  value_ok_with tree_ok v strict = true → reads_value value_deserialize v.
Proof. intros Hok rest. apply (deserialize_depth_at _ _ strict); [rewrite length_app; lia|done]. Qed.

(** ** The operations *)

(** What a store holds, and the effect of an operation on it. *)
Inductive store_op : Type :=
| SAdd (key : string) (v : value tree) | SGet (key : string) | SContains (key : string)
| SRemove (key : string) | SClear | SSize | SEmpty.

Inductive store_result : Type :=
| S_unit | S_value (o : option (value tree)) | S_bool (b : bool) | S_size (n : Z).

Definition store_run (o : store_op) (s : t) : t * store_result :=
  match o with
  | SAdd k v => (add k v s, S_unit)
  | SGet k => prod_map id S_value (get k s)
  | SContains k => (s, S_bool (contains k s))
  | SRemove k => prod_map id S_bool (remove k s)
  | SClear => (clear s, S_unit)
  | SSize => (s, S_size (size s))
  | SEmpty => (s, S_bool (empty s))
  end.

Definition store_spec (o : store_op) (m : gmap string (value tree))
    : gmap string (value tree) * store_result :=
  match o with
  | SAdd k v => (put k v m, S_unit)
  | SGet k => (m, S_value (value.copy <$> m !! k))
  | SContains k => (m, S_bool (bool_decide (is_Some (m !! k))))
  | SRemove k => (delete k m, S_bool (bool_decide (is_Some (m !! k))))
  | SClear => (∅, S_unit)
  | SSize => (m, S_size (Z.of_nat (stdpp.base.size m)))
  | SEmpty => (m, S_bool (bool_decide (m = ∅)))
  end.

Lemma store_run_refines o s :
  um_ok (values_ s) →
  um_ok (values_ (store_run o s).1) ∧
  um_map (values_ (store_run o s).1) = (store_spec o (um_map (values_ s))).1 ∧
  (store_run o s).2 = (store_spec o (um_map (values_ s))).2.
Proof.
  intros Hok.
  destruct o; simpl; unfold get, remove, contains, size, empty; rewrite ?um_find_map;
    unfold assign_at; simpl; rewrite ?assign_at_map, ?um_contains_map.
  - split_and!; [unfold thread_safe_container.assign_at; auto with umap|done|done].
  - by destruct (um_map (values_ s) !! key).
  - done.
  - destruct (um_map (values_ s) !! key) eqn:E; simpl.
    + split_and!; [auto with umap|by apply um_erase_map|done].
    + by rewrite delete_id.
  - split_and!; [apply um_ok_nil|done|done].
  - by rewrite um_size_map.
  - split_and!; [done|done|]. f_equal. unfold size. rewrite um_size_map by done.
    apply eq_true_iff_eq. rewrite Z.eqb_eq, bool_decide_eq_true, <-map_size_empty_iff. lia.
Qed.

(** ** The properties *)

(** The deserializers of value_store are total and agree on every input:
    both return (nothing outside the vector is read), both succeed with the same
    store or fail at the same point, the thrown message and the error result
    naming the same failure; the error code is one of version_mismatch,
    corrupted_data and value_parse_failed. *)
Theorem store_deserializers_agree data :
  ∃ r1 r2, deserialize_binary data = Val r1 ∧ deserialize_binary_result data = Val r2 ∧
    match r1, r2 with
    | inl s1, inl s2 => s1 = s2
    | inr what, inr e => same_failure what e ∧
        code e ∈ [error_codes.version_mismatch; error_codes.corrupted_data;
                  error_codes.value_parse_failed]
    | _, _ => False
    end.
Proof.
  destruct (deserializers_cases data) as (r1 & r2 & E1 & E2 & Ho & _). exists r1, r2.
  split_and!; [done..|]. destruct r1 as [s1|what], r2 as [s2|e]; simpl in Ho; try done.
  split; [done|]. destruct Ho; simpl; set_solver.
Qed.

(** The strict format is a sub-format: when [deserialize_binary] accepts
    bytes, they are the version byte and a body that
    [thread_safe_container::deserialize] reads to the same entries, and the
    counters of the new store are zero. *)
Theorem store_accepts_container data s :
  deserialize_binary data = Val (inl s) →
  ∃ body, data = to_u8 version :: body ∧ read_count_ s = 0 ∧ write_count_ s = 0 ∧
    tree_deserialize body = Val (Some (Tree (values_ s))).
Proof.
  intros E. destruct (deserializers_cases data) as (r1 & r2 & E1 & _ & _ & H & _).
  rewrite E in E1. injection E1 as <-. by apply H.
Qed.

Definition sample_store : t :=
  add "b" (Value "b" (V_bytes [x00; xff])) (add "a" (Value "a" (V_llong 5)) empty_store).

Lemma store_accepts_container_witness :
  ∃ body, (serialize_binary sample_store).2 = to_u8 version :: body ∧
    tree_deserialize body =
      Val (Some (Tree [("a"%string, Value "" (V_long 5));
                       ("b"%string, Value "" (V_bytes [x00; xff]))])).
Proof.
  destruct (store_accepts_container (serialize_binary sample_store).2
    (Store [("a"%string, Value "" (V_long 5)); ("b"%string, Value "" (V_bytes [x00; xff]))] 0 0))
    as (body & ? & _ & _ & ?); [vm_compute; reflexivity|]. by exists body.
Defined.

(** C14. Round trip of the store: what [serialize_binary] writes of a
    representable store is read back with the same keys and normalized values. *)
Theorem store_roundtrip s rest :
  tree_ok (Tree (values_ s)) false = true →
  deserialize_binary ((serialize_binary s).2 ++ rest) =
  Val (inl (Store (entries (tree_norm (Tree (values_ s)))) 0 0)).
Proof.
  intros Hok. destruct (tree_ok_inv _ _ Hok) as (Hnd & Hlen & Ht). cbn [entries] in *.
  unfold deserialize_binary, serialize_binary. cbn [snd].
  assert (serialize_entries serialize_value (values_ s) = put_u32 (Z.of_nat (length (values_ s)))
    ++ concat (map entry_bytes (values_ s))) as -> by done.
  set (data := to_u8 version :: _). pose proof (at_bytes_start data rest) as H.
  pose proof (at_bytes_fits _ _ _ H) as [_ Hfit]. unfold data in H at 2.
  assert (5 + Z.of_nat (length (concat (map entry_bytes (values_ s)))) = Z.of_nat (length data)) as Hd.
  { unfold data. cbn [length]. rewrite length_app, length_put_u32. lia. }
  destruct (Z.ltb_spec (Z.of_nat (length (data ++ rest))) (1 + 4)); [lia|].
  assert (get_le (data ++ rest) 0 1 = Val 1) as ->.
  { rewrite (get_le_at _ _ 1 8 version
      (put_u32 (Z.of_nat (length (values_ s))) ++ concat (map entry_bytes (values_ s)))); done. }
  cbn [res_bind]. cbn [negb Z.eqb Pos.eqb]. apply at_bytes_cons in H. change (0 + 1) with 1 in H.
  rewrite (get_u32_at _ _ (Z.of_nat (length (values_ s))) _ ltac:(lia) H). cbn [res_bind].
  apply at_bytes_u32 in H. rewrite (binary_loop_at _ _ _ _ _ (values_ s) []).
  - done.
  - done.
  - intros kv Hkv. destruct (Ht _ Hkv) as (? & _ & ? & ?). eauto using value_reads.
  - done.
  - lia.
  - enough (length (values_ s) ≤ length (concat (map entry_bytes (values_ s))))%nat by lia.
    clear. induction (values_ s) as [|kv m IH]; [done|]. cbn [map concat length].
    rewrite length_app. unfold entry_bytes at 1. rewrite length_app, length_put_u32. lia.
Qed.

Lemma store_roundtrip_witness :
  deserialize_binary ((serialize_binary sample_store).2 ++ [x07]) =
  Val (inl (Store (entries (tree_norm (Tree (values_ sample_store)))) 0 0)).
Proof. apply store_roundtrip. vm_compute. reflexivity. Defined.

(** Each operation of the store is the map operation of the specification:
    same result, same map afterwards, keys stay distinct; [get] counts a read
    exactly when it finds the key and [add] always counts a write. *)
Theorem store_operations o s :
  um_ok (values_ s) →
  um_ok (values_ (store_run o s).1) ∧
  um_map (values_ (store_run o s).1) = (store_spec o (um_map (values_ s))).1 ∧
  (store_run o s).2 = (store_spec o (um_map (values_ s))).2 ∧
  get_read_count (store_run o s).1 =
    (match o with
     | SGet k => if contains k s then incr (get_read_count s) else get_read_count s
     | _ => get_read_count s
     end) ∧
  get_write_count (store_run o s).1 =
    (match o with SAdd _ _ => incr (get_write_count s) | _ => get_write_count s end).
Proof.
  intros Hok. destruct (store_run_refines o s Hok) as (? & ? & ?). split_and!; try done.
  - destruct o; try done; simpl; unfold get, remove, contains, um_contains.
    + by destruct (um_find key (values_ s)).
    + by destruct (um_find key (values_ s)).
  - destruct o; try done; simpl; unfold get, remove; by destruct (um_find key (values_ s)).
Qed.

Lemma store_operations_witness :
  get_read_count (store_run (SGet "a") sample_store).1 = 1 ∧
  (store_run (SGet "a") sample_store).2 = S_value (Some (Value "" (V_llong 5))).
Proof.
  destruct (store_operations (SGet "a") sample_store) as (_ & _ & Hr & Hc & _).
  - apply (bool_decide_eq_true_1 (NoDup (um_keys (values_ sample_store)))). vm_compute. reflexivity.
  - rewrite Hr, Hc. split; vm_compute; reflexivity.
Defined.
