(* ===== verification/StoragePolicy.v ===== *)
(** * Storage policies

    [include/kcenon/container/storage_policy.h].  The C++ concept
    [StoragePolicy] is the class [StoragePolicy]; what a policy promises to a
    container is [StoragePolicyLaws]: its state represents a finite map from
    names to values, the operations are those of the map, and iteration visits
    every element once.  The laws speak of [set(key, value)] with
    [key = value.name], which is how every container calls it.

    Instances: [dynamic_storage_policy] (linear search in a vector),
    [indexed_storage_policy] (a vector and a hash index of positions, kept
    consistent by decrementing the positions behind an erased element) and
    [static_storage_policy] (a vector that silently ignores values whose
    alternative is not in its list).  An unchecked [values_[i]] or
    [erase(begin() + i)] outside the vector is [Undef]. *)

From S2P Require Import Prelude Types UnorderedMap.

(** ** The interface *)

Class StoragePolicy (C P : Type) : Type := {
  p_empty : P;
  p_set : string → optimized_value C → P → res P;
  p_get : string → P → res (option (optimized_value C));
  p_contains : string → P → bool;
  p_remove : string → P → res (P * bool);
  p_clear : P → P;
  p_elements : P → list (optimized_value C);
  p_size : P → Z;
  p_is_empty : P → bool;
  (** Whether [set] stores the value at all. *)
  p_allows : optimized_value C → bool }.

Definition named {C} (l : list (optimized_value C)) : list (string * optimized_value C) :=
  (λ v, (name v, v)) <$> l.

Class StoragePolicyLaws (C P : Type) `{StoragePolicy C P} : Type := {
  p_wf : P → Prop;
  p_model (p : P) : gmap string (optimized_value C) := list_to_map (named (p_elements p));
  law_empty_wf : p_wf p_empty;
  law_empty : p_elements p_empty = [];
  law_nodup p : p_wf p → NoDup (name <$> p_elements p);
  law_set v p : p_wf p → ∃ p', p_set (name v) v p = Val p' ∧ p_wf p' ∧
    p_model p' = if p_allows v then <[name v := v]> (p_model p) else p_model p;
  law_get k p : p_wf p → p_get k p = Val (p_model p !! k);
  law_contains k p : p_wf p → p_contains k p = bool_decide (is_Some (p_model p !! k));
  law_remove k p : p_wf p → ∃ p', p_remove k p =
      Val (p', bool_decide (is_Some (p_model p !! k))) ∧ p_wf p' ∧ p_model p' = delete k (p_model p);
  law_clear p : p_wf p → p_wf (p_clear p) ∧ p_elements (p_clear p) = [];
  law_size p : p_wf p → p_size p = Z.of_nat (length (p_elements p));
  law_is_empty p : p_wf p → p_is_empty p = bool_decide (p_elements p = []) }.

(** ** Vectors searched by name *)

Section Vector.
Context {C : Type}.
Implicit Types (l : list (optimized_value C)).

(** [std::find_if(begin, end, v.name == key)] as a position. *)
Fixpoint find_by_key (key : string) l : option nat :=
  match l with
  | [] => None
  | v :: l => if bool_decide (name v = key) then Some O else S <$> find_by_key key l
  end.

(** [*it = value] when the key is found, else [push_back]. *)
Definition set_by_key (key : string) (v : optimized_value C) l : list (optimized_value C) :=
  match find_by_key key l with
  | Some i => <[i := v]> l
  | None => l ++ [v]
  end.

Definition get_by_key (key : string) l : option (optimized_value C) :=
  match find_by_key key l with
  | Some i => l !! i
  | None => None
  end.

(** [values_.erase(it)] *)
Definition remove_by_key (key : string) l : list (optimized_value C) * bool :=
  match find_by_key key l with
  | Some i => (delete i l, true)
  | None => (l, false)
  end.
End Vector.

(** ** dynamic_storage_policy *)

Module dynamic_storage_policy.
Section Dynamic.
Context {C : Type}.

Record t : Type := Dynamic { values_ : list (optimized_value C) }.

Definition set (key : string) (v : optimized_value C) (p : t) : t :=
  Dynamic (set_by_key key v (values_ p)).
Definition get (key : string) (p : t) : option (optimized_value C) := get_by_key key (values_ p).
Definition contains (key : string) (p : t) : bool :=
  bool_decide (is_Some (find_by_key key (values_ p))).
Definition remove (key : string) (p : t) : t * bool :=
  prod_map Dynamic id (remove_by_key key (values_ p)).
Definition clear (p : t) : t := Dynamic [].
Definition size (p : t) : Z := Z.of_nat (length (values_ p)).
Definition empty (p : t) : bool := bool_decide (values_ p = []).
End Dynamic.
Arguments t : clear implicits.
End dynamic_storage_policy.

#[export] Instance dynamic_policy C : StoragePolicy C (dynamic_storage_policy.t C) := {
  p_empty := dynamic_storage_policy.Dynamic [];
  p_set k v p := Val (dynamic_storage_policy.set k v p);
  p_get k p := Val (dynamic_storage_policy.get k p);
  p_contains := dynamic_storage_policy.contains;
  p_remove k p := Val (dynamic_storage_policy.remove k p);
  p_clear := dynamic_storage_policy.clear;
  p_elements := dynamic_storage_policy.values_;
  p_size := dynamic_storage_policy.size;
  p_is_empty := dynamic_storage_policy.empty;
  p_allows _ := true }.

(** ** indexed_storage_policy *)

Module indexed_storage_policy.
Section Indexed.
Context {C : Type}.

Record t : Type := Indexed {
  values_ : list (optimized_value C);
  index_ : list (string * nat) }.

(** [values_[i] = v] *)
Definition store_at (i : nat) (v : optimized_value C) (l : list (optimized_value C))
    : res (list (optimized_value C)) :=
  if decide (i < length l)%nat then Val (<[i := v]> l) else Undef.

Definition set (key : string) (v : optimized_value C) (p : t) : res t :=
  match um_find key (index_ p) with
  | Some i => let? values := store_at i v (values_ p) in Val (Indexed values (index_ p))
  | None =>
      Val (Indexed (values_ p ++ [v])
             (um_index O (λ _, length (values_ p)) key (index_ p)))
  end.

Definition get (key : string) (p : t) : res (option (optimized_value C)) :=
  match um_find key (index_ p) with
  | Some i => match values_ p !! i with Some v => Val (Some v) | None => Undef end
  | None => Val None
  end.

Definition contains (key : string) (p : t) : bool := um_contains key (index_ p).

Definition remove (key : string) (p : t) : res (t * bool) :=
  match um_find key (index_ p) with
  | None => Val (p, false)
  | Some idx =>
      if decide (idx < length (values_ p))%nat then
        Val (Indexed (delete idx (values_ p))
               (prod_map id (λ v, if decide (idx < v)%nat then pred v else v) <$>
                  um_erase key (index_ p)), true)
      else Undef
  end.

Definition clear (p : t) : t := Indexed [] [].
Definition size (p : t) : Z := Z.of_nat (length (values_ p)).
Definition empty (p : t) : bool := bool_decide (values_ p = []).

(** [index_[values_[i].name] = i] for each position, after the index was cleared. *)
Definition rebuild_index (p : t) : t :=
  Indexed (values_ p)
    (fold_left (λ idx iv, um_index O (λ _, iv.1) (name iv.2) idx)
       (imap pair (values_ p)) []).

(** What a client does through [data()] or an iterator: the vector changes, the
    index does not. *)
Definition modify_data (edit : list (optimized_value C) → list (optimized_value C)) (p : t) : t :=
  Indexed (edit (values_ p)) (index_ p).

(** Moving empties both members of the source. *)
Definition move (other : t) : t * t := (Indexed (values_ other) (index_ other), Indexed [] []).
End Indexed.
Arguments t : clear implicits.
End indexed_storage_policy.

#[export] Instance indexed_policy C : StoragePolicy C (indexed_storage_policy.t C) := {
  p_empty := indexed_storage_policy.Indexed [] [];
  p_set := indexed_storage_policy.set;
  p_get := indexed_storage_policy.get;
  p_contains := indexed_storage_policy.contains;
  p_remove := indexed_storage_policy.remove;
  p_clear := indexed_storage_policy.clear;
  p_elements := indexed_storage_policy.values_;
  p_size := indexed_storage_policy.size;
  p_is_empty := indexed_storage_policy.empty;
  p_allows _ := true }.

(** ** static_storage_policy *)

Module static_storage_policy.
Section Static.
Context {C : Type} (allowed : list value_types).

(** [AllowedTypes...] is the list of the alternatives they name. *)
Record t : Type := Static { values_ : list (optimized_value C) }.

Definition is_variant_type_allowed (v : value_variant C) : bool :=
  bool_decide (index_type v ∈ allowed).

Definition set (key : string) (v : optimized_value C) (p : t) : t :=
  if is_variant_type_allowed (data v) then Static (set_by_key key v (values_ p)) else p.

(** [T] is one of the allowed types (checked at compile time); [d] holds it. *)
Definition set_typed (key : string) (d : value_variant C) (p : t) : t :=
  Static (set_by_key key (Optimized key (index_type d) d) (values_ p)).

Definition get (key : string) (p : t) : option (optimized_value C) := get_by_key key (values_ p).

Definition get_typed (ty : value_types) (key : string) (p : t) : option (value_variant C) :=
  match get_by_key key (values_ p) with
  | Some v => if decide (index_type (data v) = ty) then Some (data v) else None
  | None => None
  end.

Definition contains (key : string) (p : t) : bool :=
  bool_decide (is_Some (find_by_key key (values_ p))).
Definition remove (key : string) (p : t) : t * bool :=
  prod_map Static id (remove_by_key key (values_ p)).
Definition clear (p : t) : t := Static [].
Definition size (p : t) : Z := Z.of_nat (length (values_ p)).
Definition empty (p : t) : bool := bool_decide (values_ p = []).
Definition allows (ty : value_types) : bool := bool_decide (ty ∈ allowed).
End Static.
Arguments t : clear implicits.
End static_storage_policy.

Definition static_policy C (allowed : list value_types)
    : StoragePolicy C (static_storage_policy.t C) := {|
  p_empty := static_storage_policy.Static [];
  p_set k v p := Val (static_storage_policy.set allowed k v p);
  p_get k p := Val (static_storage_policy.get k p);
  p_contains := static_storage_policy.contains;
  p_remove k p := Val (static_storage_policy.remove k p);
  p_clear := static_storage_policy.clear;
  p_elements := static_storage_policy.values_;
  p_size := static_storage_policy.size;
  p_is_empty := static_storage_policy.empty;
  p_allows v := static_storage_policy.is_variant_type_allowed allowed (data v) |}.
