(* ===== verification/StoragePolicyFacts.v ===== *)
(** * Storage policies: the instances keep their promises

    [dynamic_laws], [indexed_laws] and [static_laws] discharge
    [StoragePolicyLaws].  For the indexed policy the invariant is that the index
    finds exactly what a linear search would find; so it holds the same vector
    as the dynamic policy after the same operations
    ([indexed_policy_is_dynamic]) and its unchecked accesses stay inside. *)

From S2P Require Import Prelude Types UnorderedMap StoragePolicy.

Section Vector.
Context {C : Type}.
Implicit Types (l : list (optimized_value C)) (v : optimized_value C).

(** ** The vector as a map keyed by name *)

Lemma named_keys l : um_keys (named l) = name <$> l.
Proof. unfold um_keys, named. rewrite <-list_fmap_compose. by apply list_fmap_ext. Qed.

Lemma find_by_key_Some k l i :
  find_by_key k l = Some i → ∃ v, l !! i = Some v ∧ name v = k.
Proof.
  revert i. induction l as [|v l IH]; intros i; simpl; [done|]. case_bool_decide as E.
  - intros [= <-]. by exists v.
  - destruct (find_by_key k l) as [j|]; [|done]. intros [= <-]. by apply IH.
Qed.

Lemma find_by_key_lt k l i : find_by_key k l = Some i → (i < length l)%nat.
Proof. intros (v & Hv & _)%find_by_key_Some. by apply lookup_lt_Some in Hv. Qed.

Lemma named_get k l : um_find k (named l) = get_by_key k l.
Proof.
  unfold get_by_key. induction l as [|v l IH]; [done|]. cbn. case_bool_decide; [done|].
  unfold named in IH. rewrite IH. by destruct (find_by_key k l).
Qed.

Lemma get_by_key_find k l : is_Some (get_by_key k l) ↔ is_Some (find_by_key k l).
Proof.
  unfold get_by_key. destruct (find_by_key k l) as [i|] eqn:E; [|done].
  apply find_by_key_Some in E as (v & -> & _). split; eauto.
Qed.

Lemma named_set v l :
  named (set_by_key (name v) v l) = um_index v (λ _, v) (name v) (named l).
Proof.
  unfold set_by_key. induction l as [|w l IH]; [done|]. cbn. case_bool_decide as E.
  - cbn. by rewrite E.
  - revert IH. destruct (find_by_key (name v) l); intros IH; exact (f_equal (cons (name w, w)) IH).
Qed.

Lemma named_remove k l : named (remove_by_key k l).1 = um_erase k (named l).
Proof.
  unfold remove_by_key. induction l as [|w l IH]; [done|]. cbn. case_bool_decide as E; [done|].
  revert IH. destruct (find_by_key k l); intros IH; exact (f_equal (cons (name w, w)) IH).
Qed.

Lemma remove_found k l : (remove_by_key k l).2 = bool_decide (is_Some (find_by_key k l)).
Proof. unfold remove_by_key. by destruct (find_by_key k l). Qed.

Lemma names_nodup l : NoDup (name <$> l) ↔ um_ok (named l).
Proof. unfold um_ok. by rewrite named_keys. Qed.

Lemma model_get k l : (list_to_map (named l) : gmap string _) !! k = get_by_key k l.
Proof. rewrite <-named_get. symmetry. apply um_find_map. Qed.

Lemma model_find k l :
  bool_decide (is_Some (find_by_key k l)) =
  bool_decide (is_Some ((list_to_map (named l) : gmap string _) !! k)).
Proof. apply bool_decide_ext. by rewrite model_get, get_by_key_find. Qed.

(** ** How the three updates move the positions *)

Lemma find_set k v l :
  find_by_key k (set_by_key (name v) v l) =
  if decide (k = name v) then Some (default (length l) (find_by_key k l)) else find_by_key k l.
Proof.
  unfold set_by_key. induction l as [|w l IH]; cbn [find_by_key].
  - cbn. case_bool_decide; case_decide; first [done | congruence].
  - destruct (decide (name w = name v)) as [E|E].
    + rewrite (bool_decide_eq_true_2 (name w = name v)) by done. cbn.
      rewrite E. case_bool_decide; case_decide; first [done | congruence].
    + rewrite (bool_decide_eq_false_2 (name w = name v)) by done.
      transitivity (if bool_decide (name w = k) then Some 0%nat else
        S <$> find_by_key k (match find_by_key (name v) l with
          | Some i => <[i := v]> l | None => l ++ [v] end)).
      { by destruct (find_by_key (name v) l). }
      rewrite IH. case_bool_decide as Ek; [case_decide; [congruence|done]|].
      case_decide; [|done]. by destruct (find_by_key k l).
Qed.

Lemma find_delete k key l idx :
  NoDup (name <$> l) → find_by_key key l = Some idx →
  find_by_key k (delete idx l) =
  if decide (k = key) then None
  else (λ j, if decide (idx < j)%nat then pred j else j) <$> find_by_key k l.
Proof.
  revert idx. induction l as [|w l IH]; intros idx Hnd; cbn; [done|].
  rewrite fmap_cons in Hnd. apply list.NoDup_cons in Hnd as [Hw Hnd]. case_bool_decide as E.
  - intros [= <-]. cbn. destruct (decide (k = key)) as [->|Hk].
    + destruct (find_by_key key l) as [i|] eqn:Ef; [|done].
      apply find_by_key_Some in Ef as (v & Hv & Hn). destruct Hw. rewrite E, <-Hn.
      apply list_elem_of_fmap_2. by apply list_elem_of_lookup_2 in Hv.
    + rewrite bool_decide_eq_false_2 by congruence. by destruct (find_by_key k l).
  - destruct (find_by_key key l) as [i|] eqn:Ef; [|done]. intros [= <-].
    transitivity (if bool_decide (name w = k) then Some 0%nat
                  else S <$> find_by_key k (delete i l)); [done|].
    rewrite (IH i) by done. cbn [find_by_key]. case_bool_decide as Ek.
    + subst. by rewrite decide_False.
    + case_decide; [done|]. destruct (find_by_key k l) as [j|]; [|done]. cbn. f_equal.
      repeat case_decide; lia.
Qed.
End Vector.

(** ** dynamic_storage_policy *)

Section Instances.
Context {C : Type}.

Lemma set_by_key_ok (v : optimized_value C) l :
  NoDup (name <$> l) → NoDup (name <$> set_by_key (name v) v l) ∧
  (list_to_map (named (set_by_key (name v) v l)) : gmap string _) =
  <[name v := v]> (list_to_map (named l)).
Proof.
  rewrite !names_nodup, named_set. intros Hok. split; [by apply um_index_ok|].
  apply (um_index_map v (λ _, v) (name v)).
Qed.

Lemma remove_by_key_ok k (l : list (optimized_value C)) :
  NoDup (name <$> l) → NoDup (name <$> (remove_by_key k l).1) ∧
  (list_to_map (named (remove_by_key k l).1) : gmap string _) =
  delete k (list_to_map (named l)).
Proof.
  rewrite !names_nodup, named_remove. intros Hok. split; [by apply um_erase_ok|].
  by apply um_erase_map.
Qed.

#[export] Instance dynamic_laws : StoragePolicyLaws C (dynamic_storage_policy.t C).
Proof.
  refine {| p_wf p := NoDup (name <$> dynamic_storage_policy.values_ p) |}; simpl.
  - apply NoDup_nil_2.
  - done.
  - done.
  - intros v p Hok. eexists. split; [done|]. by apply set_by_key_ok.
  - intros k p _. f_equal. symmetry. apply model_get.
  - intros k p _. apply model_find.
  - intros k p Hok. unfold dynamic_storage_policy.remove.
    destruct (remove_by_key_ok k (dynamic_storage_policy.values_ p) Hok) as [Hok' Hm].
    pose proof (remove_found k (dynamic_storage_policy.values_ p)) as Hf.
    destruct (remove_by_key k (dynamic_storage_policy.values_ p)) as [l b]. simpl in *.
    exists (dynamic_storage_policy.Dynamic l). split; [|by split]. by rewrite Hf, model_find.
  - split; [apply NoDup_nil_2|done].
  - done.
  - done.
Defined.

(** ** indexed_storage_policy *)

(** The index finds what a linear search for the name finds. *)
Definition index_ok (p : indexed_storage_policy.t C) : Prop :=
  um_ok (indexed_storage_policy.index_ p) ∧
  NoDup (name <$> indexed_storage_policy.values_ p) ∧
  ∀ k, um_find k (indexed_storage_policy.index_ p)
       = find_by_key k (indexed_storage_policy.values_ p).

(** On a consistent index, the operations are those of the searched vector. *)
Lemma indexed_set v p :
  index_ok p → ∃ p', indexed_storage_policy.set (name v) v p = Val p' ∧ index_ok p' ∧
    indexed_storage_policy.values_ p' = set_by_key (name v) v (indexed_storage_policy.values_ p).
Proof.
  intros (Hi & Hn & Hf). destruct p as [l idx]. unfold indexed_storage_policy.set. simpl in *.
  pose proof (set_by_key_ok v l Hn) as [Hn' _]. pose proof (λ k, find_set k v l) as Hs.
  rewrite Hf. unfold set_by_key in *. destruct (find_by_key (name v) l) as [i|] eqn:E.
  - unfold indexed_storage_policy.store_at. rewrite decide_True by (by apply find_by_key_lt in E).
    eexists. split; [done|]. split; [|done]. split_and!; [done|done|]. intros k. simpl.
    rewrite Hs, Hf. case_decide; [|done]. subst. by rewrite E.
  - eexists. split; [done|]. split; [|done]. split_and!; simpl; [by apply um_index_ok|done|].
    intros k. rewrite um_find_index, Hs, Hf. case_decide; [|done]. subst. by rewrite E.
Qed.

Lemma indexed_get k p :
  index_ok p → indexed_storage_policy.get k p = Val (get_by_key k (indexed_storage_policy.values_ p)).
Proof.
  intros (_ & _ & Hf). unfold indexed_storage_policy.get, get_by_key. rewrite Hf.
  destruct (find_by_key k _) as [i|] eqn:E; [|done].
  by apply find_by_key_Some in E as (v & -> & _).
Qed.

Lemma indexed_contains k (p : indexed_storage_policy.t C) :
  indexed_storage_policy.contains k p =
  bool_decide (is_Some (um_find k (indexed_storage_policy.index_ p))).
Proof. done. Qed.

Lemma indexed_remove k p :
  index_ok p → ∃ p',
    indexed_storage_policy.remove k p =
      Val (p', (remove_by_key k (indexed_storage_policy.values_ p)).2) ∧ index_ok p' ∧
    indexed_storage_policy.values_ p' = (remove_by_key k (indexed_storage_policy.values_ p)).1.
Proof.
  intros (Hi & Hn & Hf). destruct p as [l idx].
  unfold indexed_storage_policy.remove, remove_by_key. simpl in *.
  pose proof (remove_by_key_ok k l Hn) as [Hn' _]. unfold remove_by_key in Hn'.
  rewrite Hf. destruct (find_by_key k l) as [i|] eqn:E.
  - rewrite decide_True by (by apply find_by_key_lt in E).
    eexists. split; [done|]. split; [|done]. split_and!; simpl.
    + by apply um_ok_fmap, um_erase_ok.
    + done.
    + intros k'. rewrite um_find_fmap, um_find_erase, Hf by done.
      rewrite (find_delete k' k l i) by done. by case_decide.
  - eexists. split; [done|]. split; [|done]. done.
Qed.

#[export] Instance indexed_laws : StoragePolicyLaws C (indexed_storage_policy.t C).
Proof.
  refine {| p_wf := index_ok |}; simpl.
  - split_and!; [apply um_ok_nil|apply NoDup_nil_2|done].
  - done.
  - by intros p (_ & ? & _).
  - intros v p Hok. destruct (indexed_set v p Hok) as (p' & Hp & Hok' & Hv).
    exists p'. split_and!; [done|done|]. rewrite Hv. apply set_by_key_ok, Hok.
  - intros k p Hok. rewrite indexed_get by done. by rewrite model_get.
  - intros k p (_ & _ & Hf). rewrite indexed_contains, Hf. apply model_find.
  - intros k p Hok. destruct (indexed_remove k p Hok) as (p' & Hp & Hok' & Hv).
    exists p'. rewrite Hp, remove_found, model_find, Hv. split_and!; [done|done|].
    apply remove_by_key_ok, Hok.
  - split; [|done]. split_and!; [apply um_ok_nil|apply NoDup_nil_2|done].
  - done.
  - done.
Defined.

(** *** After direct access to the vector *)

Lemma rebuild_find k (l : list (optimized_value C)) n acc :
  NoDup (name <$> l) →
  um_find k (fold_left (λ idx iv, um_index O (λ _, iv.1) (name iv.2) idx)
               (imap (λ i v, ((n + i)%nat, v)) l) acc)
  = match find_by_key k l with Some i => Some (n + i)%nat | None => um_find k acc end.
Proof.
  revert n acc. induction l as [|v l IH]; intros n acc Hn; [done|].
  apply list.NoDup_cons in Hn as [Hv Hn].
  cbn [imap fold_left find_by_key fst snd]. rewrite Nat.add_0_r.
  rewrite (imap_ext _ (λ i v, ((S n + i)%nat, v))) by (intros; simpl; f_equal; lia).
  rewrite IH by done. rewrite um_find_index.
  case_bool_decide as E.
  - subst k. destruct (find_by_key (name v) l) as [i|] eqn:Ei.
    + apply find_by_key_Some in Ei as (v' & Hl & Hname). destruct Hv.
      rewrite <-Hname. apply list_elem_of_fmap. exists v'. split; [done|]. by eapply list_elem_of_lookup_2.
    + by rewrite decide_True, Nat.add_0_r.
  - rewrite decide_False by congruence.
    destruct (find_by_key k l); simpl; [f_equal; lia|done].
Qed.

(** [rebuild_index] makes the policy lawful again, whatever was done to the vector,
    if its names are distinct; before that the index may lead outside: a name whose
    value was erased is read out of bounds. *)
Theorem rebuild_restores edit (p : indexed_storage_policy.t C) :
  NoDup (name <$> edit (indexed_storage_policy.values_ p)) →
  index_ok (indexed_storage_policy.rebuild_index (indexed_storage_policy.modify_data edit p)) ∧
  ∀ k i, um_find k (indexed_storage_policy.index_ p) = Some i →
    indexed_storage_policy.get k (indexed_storage_policy.modify_data (λ _, []) p) = Undef.
Proof.
  intros Hn. split.
  - split_and!; [|done|].
    + unfold indexed_storage_policy.rebuild_index. simpl.
      assert (um_ok (@nil (string * nat))) as H0 by apply um_ok_nil. revert H0.
      generalize (@nil (string * nat)). generalize (imap pair (edit (indexed_storage_policy.values_ p))).
      induction l as [|iv l IH]; intros acc Ha; [done|]. by apply IH, um_index_ok.
    + intros k. simpl. rewrite (imap_ext _ (λ i v, ((0 + i)%nat, v))) by done.
      rewrite rebuild_find by done. by destruct (find_by_key k _).
  - intros k i E. unfold indexed_storage_policy.get. simpl. by rewrite E.
Qed.

(** ** static_storage_policy *)

Lemma static_laws (allowed : list value_types) :
  @StoragePolicyLaws C (static_storage_policy.t C) (static_policy C allowed).
Proof.
  refine {| p_wf p := NoDup (name <$> static_storage_policy.values_ p) |}; simpl.
  - apply NoDup_nil_2.
  - done.
  - done.
  - intros v p Hok. eexists. split; [done|]. unfold static_storage_policy.set.
    destruct (static_storage_policy.is_variant_type_allowed allowed (data v)); [|done].
    by apply set_by_key_ok.
  - intros k p _. f_equal. symmetry. apply model_get.
  - intros k p _. apply model_find.
  - intros k p Hok. unfold static_storage_policy.remove.
    destruct (remove_by_key_ok k (static_storage_policy.values_ p) Hok) as [Hok' Hm].
    pose proof (remove_found k (static_storage_policy.values_ p)) as Hf.
    destruct (remove_by_key k (static_storage_policy.values_ p)) as [l b]. simpl in *.
    exists (static_storage_policy.Static l). split; [|by split]. by rewrite Hf, model_find.
  - split; [apply NoDup_nil_2|done].
  - done.
  - done.
Defined.
End Instances.
