(* ===== verification/PolicyContainer.v ===== *)
(** * basic_value_container

    [include/kcenon/container/policy_container.h]: a container over a storage
    policy, with a message header.  Every method holds the lock for its whole
    body, so the methods are atomic.  The model is written against the class
    [StoragePolicy]; its theorems use [StoragePolicyLaws] only, and so hold for
    every policy.  [policy_container], [fast_policy_container] and
    [typed_policy_container] are its instances at the three policies.

    [Undef] comes from the policy (an index outside the vector). Running out of
    memory is not modelled; moving from a container leaves its strings empty. *)

From S2P Require Import Prelude Types ErrorCodes UnorderedMap StoragePolicy StoragePolicyFacts.

Module basic_value_container.
Section Container.
Context {C P : Type} `{StoragePolicy C P}.

Record t : Type := Container {
  storage_ : P;
  source_id_ : string;
  source_sub_id_ : string;
  target_id_ : string;
  target_sub_id_ : string;
  message_type_ : string;
  version_ : string }.

Definition new : t := Container p_empty "" "" "" "" "" "1.0.0.0".

Definition with_storage (s : P) (c : t) : t :=
  Container s (source_id_ c) (source_sub_id_ c) (target_id_ c) (target_sub_id_ c)
    (message_type_ c) (version_ c).

(** The copy constructor and copy assignment take every field of [other]. *)
Definition copy (other : t) : t :=
  Container (storage_ other) (source_id_ other) (source_sub_id_ other) (target_id_ other)
    (target_sub_id_ other) (message_type_ other) (version_ other).

(** [c = other]; [same] is [this == &other]. *)
Definition copy_assign (same : bool) (c other : t) : t := if same then c else copy other.

(** Moving: the new value and what is left of [other], whose storage [move] empties. *)
Definition moved_from (other : t) (left : P) : t := Container left "" "" "" "" "" "".
Definition move_construct (move : P → P * P) (other : t) : t * t :=
  let (s, left) := move (storage_ other) in
  (Container s (source_id_ other) (source_sub_id_ other) (target_id_ other) (target_sub_id_ other)
     (message_type_ other) (version_ other), moved_from other left).
Definition move_assign (move : P → P * P) (same : bool) (c other : t) : t * t :=
  if same then (c, other)
  else
    let (s, left) := move (storage_ other) in
    (Container s (source_id_ other) (source_sub_id_ other) (target_id_ other) (target_sub_id_ other)
       (message_type_ other) (version_ other), moved_from other left).

Definition source_id (c : t) : string := source_id_ c.
Definition source_sub_id (c : t) : string := source_sub_id_ c.
Definition target_id (c : t) : string := target_id_ c.
Definition target_sub_id (c : t) : string := target_sub_id_ c.
Definition message_type (c : t) : string := message_type_ c.
Definition version (c : t) : string := version_ c.

Definition set_source (id sub_id : string) (c : t) : t :=
  Container (storage_ c) id sub_id (target_id_ c) (target_sub_id_ c) (message_type_ c) (version_ c).
Definition set_target (id sub_id : string) (c : t) : t :=
  Container (storage_ c) (source_id_ c) (source_sub_id_ c) id sub_id (message_type_ c) (version_ c).
Definition set_message_type (ty : string) (c : t) : t :=
  Container (storage_ c) (source_id_ c) (source_sub_id_ c) (target_id_ c) (target_sub_id_ c)
    ty (version_ c).
Definition swap_header (c : t) : t :=
  Container (storage_ c) (target_id_ c) (target_sub_id_ c) (source_id_ c) (source_sub_id_ c)
    (message_type_ c) (version_ c).

(** [set(key, data)]: the value's type is its variant index. *)
Definition make_value (key : string) (d : value_variant C) : optimized_value C :=
  Optimized key (index_type d) d.

Definition set (key : string) (d : value_variant C) (c : t) : res t :=
  let? s := p_set key (make_value key d) (storage_ c) in Val (with_storage s c).

Definition set_value (v : optimized_value C) (c : t) : res t :=
  let? s := p_set (name v) v (storage_ c) in Val (with_storage s c).

Fixpoint store_all (vals : list (optimized_value C)) (s : P) : res P :=
  match vals with
  | [] => Val s
  | v :: vals => let? s := p_set (name v) v s in store_all vals s
  end.

Definition set_all (vals : list (optimized_value C)) (c : t) : res t :=
  let? s := store_all vals (storage_ c) in Val (with_storage s c).

(** Both overloads; [reserve] has no effect on the contents. *)
Definition bulk_insert (vals : list (optimized_value C)) (c : t) : res t :=
  let? s := store_all vals (storage_ c) in Val (with_storage s c).

Definition get (key : string) (c : t) : res (option (optimized_value C)) :=
  p_get key (storage_ c).
Definition contains (key : string) (c : t) : bool := p_contains key (storage_ c).
Definition remove (key : string) (c : t) : res (t * bool) :=
  let? (s, ok) := p_remove key (storage_ c) in Val (with_storage s c, ok).
Definition clear_value (c : t) : t := with_storage (p_clear (storage_ c)) c.

(** [get<T>(key)] with a [Result]; [ty] is the alternative of [T]. *)
Definition get_result (ty : value_types) (key : string) (c : t)
    : res (value_variant C + error_info) :=
  let? result := p_get key (storage_ c) in
  match result with
  | None =>
      Val (inr (error error_codes.key_not_found
                  (error_codes.make_message error_codes.key_not_found key)))
  | Some v =>
      if decide (index_type (data v) = ty) then Val (inl (data v))
      else Val (inr (error error_codes.type_mismatch
                       (error_codes.make_message error_codes.type_mismatch key)))
  end.

Definition set_result (key : string) (d : value_variant C) (c : t)
    : res (t * option error_info) :=
  if bool_decide (key = ""%string) then
    Val (c, Some (error error_codes.empty_key (error_codes.make_message error_codes.empty_key "")))
  else
    let? s := p_set key (make_value key d) (storage_ c) in Val (with_storage s c, None).

Fixpoint get_batch (keys : list string) (c : t) : res (list (option (optimized_value C))) :=
  match keys with
  | [] => Val []
  | key :: keys =>
      let? r := p_get key (storage_ c) in
      let? rs := get_batch keys c in Val (r :: rs)
  end.

Definition contains_batch (keys : list string) (c : t) : list bool :=
  map (λ key, p_contains key (storage_ c)) keys.

Fixpoint remove_loop (keys : list string) (s : P) (count : Z) : res (P * Z) :=
  match keys with
  | [] => Val (s, count)
  | key :: keys =>
      let? (s, ok) := p_remove key s in
      remove_loop keys s (if ok : bool then count + 1 else count)
  end.

Definition remove_batch (keys : list string) (c : t) : res (t * Z) :=
  let? (s, count) := remove_loop keys (storage_ c) 0 in Val (with_storage s c, count).

Definition size (c : t) : Z := p_size (storage_ c).
Definition empty (c : t) : bool := p_is_empty (storage_ c).
Definition iterate (c : t) : list (optimized_value C) := p_elements (storage_ c).
End Container.
Arguments t : clear implicits.
End basic_value_container.

(** The type aliases at the end of the file. *)
Abbreviation policy_container C := (basic_value_container.t (dynamic_storage_policy.t C)).
Abbreviation fast_policy_container C := (basic_value_container.t (indexed_storage_policy.t C)).
Abbreviation typed_policy_container C := (basic_value_container.t (static_storage_policy.t C)).

(** ** The specification: a finite map *)

Section Specification.
Context {C P : Type} `{L : StoragePolicyLaws C P}.
Import basic_value_container.

Implicit Types (m : gmap string (optimized_value C)) (c : t P).

Inductive op : Type :=
| OSet (key : string) (d : value_variant C) | OSetValue (v : optimized_value C)
| OSetAll (vals : list (optimized_value C)) | OBulkInsert (vals : list (optimized_value C))
| OGet (key : string) | OContains (key : string) | ORemove (key : string) | OClear
| OGetResult (ty : value_types) (key : string) | OSetResult (key : string) (d : value_variant C)
| OGetBatch (keys : list string) | OContainsBatch (keys : list string)
| ORemoveBatch (keys : list string) | OSize | OEmpty.

Inductive result : Type :=
| R_unit | R_value (o : option (optimized_value C)) | R_bool (b : bool) | R_size (n : Z)
| R_data (r : value_variant C + error_info) | R_status (e : option error_info)
| R_values (l : list (option (optimized_value C))) | R_bools (l : list bool).

Definition done_with {A} (f : A → result) (r : res (t P * A)) : res (t P * result) :=
  let? (c, a) := r in Val (c, f a).
Definition just (r : res (t P)) : res (t P * result) := let? c := r in Val (c, R_unit).

Definition run (o : op) c : res (t P * result) :=
  match o with
  | OSet k d => just (set k d c)
  | OSetValue v => just (set_value v c)
  | OSetAll vs => just (set_all vs c)
  | OBulkInsert vs => just (bulk_insert vs c)
  | OGet k => let? r := get k c in Val (c, R_value r)
  | OContains k => Val (c, R_bool (contains k c))
  | ORemove k => done_with R_bool (remove k c)
  | OClear => Val (clear_value c, R_unit)
  | OGetResult ty k => let? r := get_result ty k c in Val (c, R_data r)
  | OSetResult k d => done_with R_status (set_result k d c)
  | OGetBatch ks => let? r := get_batch ks c in Val (c, R_values r)
  | OContainsBatch ks => Val (c, R_bools (contains_batch ks c))
  | ORemoveBatch ks => done_with R_size (remove_batch ks c)
  | OSize => Val (c, R_size (size c))
  | OEmpty => Val (c, R_bool (empty c))
  end.

Definition put (v : optimized_value C) m : gmap string (optimized_value C) :=
  if p_allows v then <[name v := v]> m else m.

Definition put_all (vs : list (optimized_value C)) m : gmap string (optimized_value C) :=
  fold_left (λ m v, put v m) vs m.

Definition present (k : string) m : bool := bool_decide (is_Some (m !! k)).

Fixpoint drop_all (ks : list string) m : gmap string (optimized_value C) * Z :=
  match ks with
  | [] => (m, 0)
  | k :: ks =>
      let '(m', n) := drop_all ks (delete k m) in
      (m', (if present k m then 1 else 0) + n)
  end.

Definition spec (o : op) m : gmap string (optimized_value C) * result :=
  match o with
  | OSet k d => (put (make_value k d) m, R_unit)
  | OSetValue v => (put v m, R_unit)
  | OSetAll vs | OBulkInsert vs => (put_all vs m, R_unit)
  | OGet k => (m, R_value (m !! k))
  | OContains k => (m, R_bool (present k m))
  | ORemove k => (delete k m, R_bool (present k m))
  | OClear => (∅, R_unit)
  | OGetResult ty k =>
      (m, R_data match m !! k with
                 | None => inr (error error_codes.key_not_found
                             (error_codes.make_message error_codes.key_not_found k))
                 | Some v => if decide (index_type (data v) = ty) then inl (data v)
                             else inr (error error_codes.type_mismatch
                               (error_codes.make_message error_codes.type_mismatch k))
                 end)
  | OSetResult k d =>
      if decide (k = ""%string) then
        (m, R_status (Some (error error_codes.empty_key
                              (error_codes.make_message error_codes.empty_key ""))))
      else (put (make_value k d) m, R_status None)
  | OGetBatch ks => (m, R_values (map (λ k, m !! k) ks))
  | OContainsBatch ks => (m, R_bools (map (λ k, present k m) ks))
  | ORemoveBatch ks => let '(m', n) := drop_all ks m in (m', R_size n)
  | OSize => (m, R_size (Z.of_nat (stdpp.base.size m)))
  | OEmpty => (m, R_bool (bool_decide (m = ∅)))
  end.
End Specification.
