(* ===== verification/PolicyContainerFacts.v ===== *)
(** * basic_value_container refines a finite map, over every policy

    [call_refines] is proved from [StoragePolicyLaws] alone; the theorems at the
    end instantiate it: [policy_container_refines_map] for any policy with the
    laws, [indexed_policy_is_dynamic] for the two standard policies, which hold
    the same elements in the same order and return the same results. *)

From S2P Require Import Prelude Types ErrorCodes UnorderedMap StoragePolicy StoragePolicyFacts.
From S2P Require Import PolicyContainer.
Import basic_value_container.

Section Refinement.
Context {C P : Type} `{L : StoragePolicyLaws C P}.
Implicit Types (c : t P) (s : P).

Definition model c : gmap string (optimized_value C) := p_model (storage_ c).
Definition wf c : Prop := p_wf (storage_ c).

(** Everything but the storage. *)
Definition header c : list string :=
  [source_id_ c; source_sub_id_ c; target_id_ c; target_sub_id_ c; message_type_ c; version_ c].

Lemma set_put v s :
  p_wf s → ∃ s', p_set (name v) v s = Val s' ∧ p_wf s' ∧ p_model s' = put v (p_model s).
Proof. intros Hs. destruct (law_set v s Hs) as (s' & ? & ? & ?). by exists s'. Qed.

Lemma store_all_put vs s :
  p_wf s → ∃ s', store_all vs s = Val s' ∧ p_wf s' ∧ p_model s' = put_all vs (p_model s).
Proof.
  revert s. induction vs as [|v vs IH]; intros s Hs; [by exists s|]. cbn [store_all].
  destruct (set_put v s Hs) as (s1 & -> & Hs1 & Hm1). cbn [res_bind].
  destruct (IH s1 Hs1) as (s2 & -> & Hs2 & Hm2). exists s2. by rewrite Hm2, Hm1.
Qed.

Lemma get_batch_model ks c :
  wf c → get_batch ks c = Val (map (λ k, model c !! k) ks).
Proof.
  intros Hc. induction ks as [|k ks IH]; [done|]. cbn [get_batch].
  rewrite law_get by done. cbn [res_bind]. by rewrite IH.
Qed.

Lemma remove_loop_model ks s n :
  p_wf s → ∃ s', remove_loop ks s n = Val (s', n + (drop_all ks (p_model s)).2) ∧
    p_wf s' ∧ p_model s' = (drop_all ks (p_model s)).1.
Proof.
  revert s n. induction ks as [|k ks IH]; intros s n Hs; cbn [remove_loop drop_all].
  - exists s. by rewrite Z.add_0_r.
  - destruct (law_remove k s Hs) as (s1 & -> & Hs1 & Hm1). cbn [res_bind].
    destruct (IH s1 (if bool_decide (is_Some (p_model s !! k)) then n + 1 else n) Hs1)
      as (s2 & -> & Hs2 & Hm2).
    rewrite Hm1 in *. destruct (drop_all ks (delete k (p_model s))) as [m' n'] eqn:E.
    exists s2. split_and!; [|done|done]. unfold present. simpl. do 2 f_equal.
    case_bool_decide; lia.
Qed.

(** Elements and model agree, so sizes do. *)
Lemma elements_size s : p_wf s → length (p_elements s) = stdpp.base.size (p_model s).
Proof.
  intros Hs. pose proof (law_nodup s Hs) as Hn. apply names_nodup in Hn.
  pose proof (um_size_map _ Hn) as Hz. unfold um_size, named in Hz. rewrite length_fmap in Hz.
  apply Nat2Z.inj, Hz.
Qed.

Lemma elements_empty s : p_wf s → bool_decide (p_elements s = []) = bool_decide (p_model s = ∅).
Proof.
  intros Hs. apply bool_decide_ext. rewrite <-map_size_empty_iff, <-elements_size by done.
  split; [by intros ->|apply nil_length_inv].
Qed.

(** One method call. *)
Lemma call_refines o c :
  wf c → ∃ c' r, run o c = Val (c', r) ∧ wf c' ∧ (model c', r) = spec o (model c) ∧
    header c' = header c.
Proof.
  unfold wf, model. intros Hc.
  destruct o; cbn [run spec]; unfold just, done_with, set, set_value, set_all, bulk_insert, get,
    contains, remove, get_result, set_result, get_batch, contains_batch, remove_batch.
  - destruct (set_put (make_value key d) (storage_ c) Hc) as (s & E & ? & Hm).
    change (name (make_value key d)) with key in E. rewrite E.
    do 2 eexists. split_and!; [done|done| |done]. simpl. by rewrite Hm.
  - destruct (set_put v (storage_ c) Hc) as (s & -> & ? & Hm).
    do 2 eexists. split_and!; [done|done| |done]. simpl. by rewrite Hm.
  - destruct (store_all_put vals (storage_ c) Hc) as (s & -> & ? & Hm).
    do 2 eexists. split_and!; [done|done| |done]. simpl. by rewrite Hm.
  - destruct (store_all_put vals (storage_ c) Hc) as (s & -> & ? & Hm).
    do 2 eexists. split_and!; [done|done| |done]. simpl. by rewrite Hm.
  - rewrite law_get by done. do 2 eexists. by split_and!.
  - rewrite law_contains by done. do 2 eexists. by split_and!.
  - destruct (law_remove key (storage_ c) Hc) as (s & -> & ? & Hm).
    do 2 eexists. split_and!; [done|done| |done]. simpl. by rewrite Hm.
  - destruct (law_clear (storage_ c) Hc) as [Hw He].
    do 2 eexists. split_and!; [done|done| |done]. simpl. unfold p_model. by rewrite He.
  - rewrite law_get by done. cbn [res_bind].
    destruct (p_model (storage_ c) !! key) as [v|]; [|do 2 eexists; by split_and!].
    case_decide; do 2 eexists; by split_and!.
  - destruct (decide (key = ""%string)) as [E|E].
    + rewrite bool_decide_eq_true_2 by done. do 2 eexists. by split_and!.
    + rewrite bool_decide_eq_false_2 by done.
      destruct (set_put (make_value key d) (storage_ c) Hc) as (s & Es & ? & Hm).
      change (name (make_value key d)) with key in Es. rewrite Es.
      do 2 eexists. split_and!; [done|done| |done]. simpl. by rewrite Hm.
  - fold (get_batch keys c). rewrite get_batch_model by done. do 2 eexists. by split_and!.
  - do 2 eexists. split_and!; [done|done| |done]. do 2 f_equal. apply map_ext.
    intros k. by apply law_contains.
  - destruct (remove_loop_model keys (storage_ c) 0 Hc) as (s & -> & ? & Hm).
    destruct (drop_all keys (p_model (storage_ c))) as [m' n].
    do 2 eexists. split_and!; [done|done| |done]. simpl in *. by rewrite Hm.
  - do 2 eexists. split_and!; [done|done| |done]. unfold size.
    by rewrite law_size, elements_size.
  - do 2 eexists. split_and!; [done|done| |done]. unfold empty.
    by rewrite law_is_empty, elements_empty.
Qed.

(** ** Sequences of calls *)

Fixpoint run_all (os : list op) c : res (t P * list result) :=
  match os with
  | [] => Val (c, [])
  | o :: os =>
      let? (c, r) := run o c in let? (c, rs) := run_all os c in Val (c, r :: rs)
  end.

Fixpoint spec_all (os : list op) (m : gmap string (optimized_value C))
    : gmap string (optimized_value C) * list result :=
  match os with
  | [] => (m, [])
  | o :: os => let '(m, r) := spec o m in let '(m, rs) := spec_all os m in (m, r :: rs)
  end.

Lemma calls_refine os c :
  wf c → ∃ c' rs, run_all os c = Val (c', rs) ∧ wf c' ∧ (model c', rs) = spec_all os (model c) ∧
    header c' = header c.
Proof.
  revert c. induction os as [|o os IH]; intros c Hc; [by exists c, []|]. cbn [run_all spec_all].
  destruct (call_refines o c Hc) as (c1 & r & -> & Hc1 & <- & Hh1). cbn [res_bind].
  destruct (IH c1 Hc1) as (c2 & rs & -> & Hc2 & <- & Hh2). cbn [res_bind].
  exists c2, (r :: rs). by rewrite Hh2.
Qed.
End Refinement.

(** ** The indexed policy against the dynamic one *)

Section Simulation.
Context {C : Type}.
Abbreviation ipolicy := (indexed_storage_policy.t C).
Abbreviation dpolicy := (dynamic_storage_policy.t C).

(** Consistent index, same vector. *)
Definition sim_storage (pi : ipolicy) (pd : dpolicy) : Prop :=
  index_ok pi ∧ indexed_storage_policy.values_ pi = dynamic_storage_policy.values_ pd.

Definition sim (ci : t ipolicy) (cd : t dpolicy) : Prop :=
  sim_storage (storage_ ci) (storage_ cd) ∧ header ci = header cd.

(** Two calls that return related states and equal results. *)
Definition sim_res {A} (R : ipolicy → dpolicy → Prop) (ri : res (ipolicy * A))
    (rd : res (dpolicy * A)) : Prop :=
  ∃ pi pd a, ri = Val (pi, a) ∧ rd = Val (pd, a) ∧ R pi pd.

Lemma sim_set v pi pd :
  sim_storage pi pd → ∃ pi', p_set (name v) v pi = Val pi' ∧
    sim_storage pi' (dynamic_storage_policy.set (name v) v pd).
Proof.
  intros [Hi Hv]. destruct (indexed_set v pi Hi) as (pi' & E & Hi' & Hv').
  exists pi'. split; [done|]. split; [done|]. by rewrite Hv', Hv.
Qed.

Lemma sim_get k pi pd :
  sim_storage pi pd → p_get k pi = Val (dynamic_storage_policy.get k pd).
Proof. intros [Hi Hv]. simpl. rewrite indexed_get by done. by rewrite Hv. Qed.

Lemma sim_contains k pi pd :
  sim_storage pi pd → p_contains k pi = dynamic_storage_policy.contains k pd.
Proof.
  intros [(_ & _ & Hf) Hv]. simpl. rewrite indexed_contains, Hf. by rewrite Hv.
Qed.

Lemma sim_remove k pi pd :
  sim_storage pi pd → sim_res sim_storage (p_remove k pi) (p_remove k pd).
Proof.
  intros [Hi Hv]. destruct (indexed_remove k pi Hi) as (pi' & E & Hi' & Hv').
  exists pi', (dynamic_storage_policy.Dynamic (remove_by_key k (dynamic_storage_policy.values_ pd)).1),
    (remove_by_key k (dynamic_storage_policy.values_ pd)).2.
  rewrite Hv in E, Hv'. split_and!; [done| |by split].
  simpl. unfold dynamic_storage_policy.remove.
  by destruct (remove_by_key k (dynamic_storage_policy.values_ pd)).
Qed.

Lemma sim_store_all vs pi pd :
  sim_storage pi pd → ∃ pi' pd', store_all vs pi = Val pi' ∧ store_all vs pd = Val pd' ∧
    sim_storage pi' pd'.
Proof.
  revert pi pd. induction vs as [|v vs IH]; intros pi pd Hs; [by exists pi, pd|].
  cbn [store_all]. destruct (sim_set v pi pd Hs) as (pi1 & -> & Hs1). cbn [res_bind]. by apply IH.
Qed.

Lemma sim_remove_loop ks n pi pd :
  sim_storage pi pd → sim_res sim_storage (remove_loop ks pi n) (remove_loop ks pd n).
Proof.
  revert n pi pd. induction ks as [|k ks IH]; intros n pi pd Hs; [by exists pi, pd, n|].
  cbn [remove_loop]. destruct (sim_remove k pi pd Hs) as (pi1 & pd1 & b & -> & -> & Hs1).
  cbn [res_bind]. by apply IH.
Qed.

Lemma sim_get_batch ks ci cd : sim ci cd → get_batch ks ci = get_batch ks cd.
Proof.
  intros [Hs _]. induction ks as [|k ks IH]; [done|]. cbn [get_batch].
  rewrite (sim_get k _ _ Hs). cbn. by rewrite IH.
Qed.

Lemma sim_with pi pd ci cd :
  sim ci cd → sim_storage pi pd → sim (with_storage pi ci) (with_storage pd cd).
Proof. intros [_ Hh] Hs. by split. Qed.

Lemma run_sim o ci cd :
  sim ci cd → ∃ ci' cd' r, run o ci = Val (ci', r) ∧ run o cd = Val (cd', r) ∧ sim ci' cd'.
Proof.
  intros Hs. pose proof Hs as [Hst _].
  destruct o; cbn [run]; unfold just, done_with, set, set_value, set_all, bulk_insert, get,
    contains, remove, get_result, set_result, contains_batch, remove_batch, size, empty.
  - destruct (sim_set (make_value key d) _ _ Hst) as (pi & E & Hs1).
    change (name (make_value key d)) with key in *. rewrite E.
    do 3 eexists. split_and!; [done|done|]. by apply sim_with.
  - destruct (sim_set v _ _ Hst) as (pi & -> & Hs1).
    do 3 eexists. split_and!; [done|done|]. by apply sim_with.
  - destruct (sim_store_all vals _ _ Hst) as (pi & pd & -> & -> & Hs1).
    do 3 eexists. split_and!; [done|done|]. by apply sim_with.
  - destruct (sim_store_all vals _ _ Hst) as (pi & pd & -> & -> & Hs1).
    do 3 eexists. split_and!; [done|done|]. by apply sim_with.
  - rewrite (sim_get _ _ _ Hst). do 3 eexists. by split_and!.
  - rewrite (sim_contains _ _ _ Hst). do 3 eexists. by split_and!.
  - destruct (sim_remove key _ _ Hst) as (pi & pd & b & -> & -> & Hs1).
    do 3 eexists. split_and!; [done|done|]. by apply sim_with.
  - do 3 eexists. split_and!; [done|done|]. apply sim_with; [done|].
    split; [|done]. split_and!; [apply um_ok_nil|apply NoDup_nil_2|done].
  - rewrite (sim_get _ _ _ Hst). cbn [res_bind p_get dynamic_policy].
    destruct (dynamic_storage_policy.get key (storage_ cd)) as [v|];
      [case_decide|]; do 3 eexists; by split_and!.
  - destruct (bool_decide (key = ""%string)); [do 3 eexists; by split_and!|].
    destruct (sim_set (make_value key d) _ _ Hst) as (pi & E & Hs1).
    change (name (make_value key d)) with key in *. rewrite E.
    do 3 eexists. split_and!; [done|done|]. by apply sim_with.
  - rewrite (sim_get_batch _ _ _ Hs).
    rewrite (get_batch_model keys cd);
      [do 3 eexists; by split_and!|].
    destruct Hst as [(_ & Hn & _) Hv]. unfold wf. simpl. by rewrite <-Hv.
  - do 3 eexists. split_and!; [done| |done]. do 3 f_equal. apply map_ext. intros k.
    symmetry. by apply sim_contains.
  - destruct (sim_remove_loop keys 0 _ _ Hst) as (pi & pd & n & -> & -> & Hs1).
    do 3 eexists. split_and!; [done|done|]. by apply sim_with.
  - destruct Hst as [_ Hv]. do 3 eexists. split_and!; [done| |done]. simpl.
    unfold dynamic_storage_policy.size, indexed_storage_policy.size. by rewrite Hv.
  - destruct Hst as [_ Hv]. do 3 eexists. split_and!; [done| |done]. simpl.
    unfold dynamic_storage_policy.empty, indexed_storage_policy.empty. by rewrite Hv.
Qed.

Lemma run_all_sim os ci cd :
  sim ci cd → ∃ ci' cd' rs, run_all os ci = Val (ci', rs) ∧ run_all os cd = Val (cd', rs) ∧
    sim ci' cd'.
Proof.
  revert ci cd. induction os as [|o os IH]; intros ci cd Hs; [by exists ci, cd, []|].
  cbn [run_all]. destruct (run_sim o ci cd Hs) as (ci1 & cd1 & r & -> & -> & Hs1).
  cbn [res_bind]. destruct (IH ci1 cd1 Hs1) as (ci2 & cd2 & rs & -> & -> & Hs2).
  cbn [res_bind]. by exists ci2, cd2, (r :: rs).
Qed.
End Simulation.

(** ** The properties *)

(** Pointers to nested containers. *)
Abbreviation pointer := positive.

(** C12. Over any storage policy that keeps the laws, every sequence of method
    calls on a container returns (no access leaves the policy's vector), gives
    the results of a finite map from names to values (with the error codes
    key_not_found, type_mismatch and empty_key of the Result methods), leaves
    that map, and does not touch the header. *)
Theorem policy_container_refines_map (P : Type) (SP : StoragePolicy pointer P)
    (Laws : @StoragePolicyLaws pointer P SP) (os : list op) (c : t P) :
  wf c → ∃ c' rs, run_all os c = Val (c', rs) ∧ wf c' ∧ (model c', rs) = spec_all os (model c) ∧
    header c' = header c.
Proof. apply calls_refine. Qed.

Definition sample_calls : list (op (C:=pointer)) :=
  [OSet "a" (Vv (V_int 1)); OSet "b" (Vv (V_bool true)); OSet "a" (Vv (V_string "x"));
   OGetResult int_value "a"; OSetResult "" (Vv V_null); ORemoveBatch ["a"; "z"]; OGet "b";
   OSize]%string.

Lemma policy_container_refines_map_witness :
  ∃ c', run_all sample_calls (new (P:=indexed_storage_policy.t pointer)) =
    Val (c', (spec_all sample_calls (∅ : gmap string (optimized_value pointer))).2).
Proof.
  destruct (policy_container_refines_map (indexed_storage_policy.t pointer) _ _ sample_calls new)
    as (c' & rs & E & _ & Hs & _); [apply law_empty_wf|].
  exists c'. rewrite E. do 2 f_equal. exact (f_equal snd Hs).
Defined.

(** C13. The indexed policy is an optimisation: the same calls on a container
    with [indexed_storage_policy] and on one with [dynamic_storage_policy] give
    the same results, and the two hold the same values in the same order. *)
Theorem indexed_policy_is_dynamic (os : list (op (C:=pointer))) :
  ∃ ci cd rs,
    run_all os (new (P:=indexed_storage_policy.t pointer)) = Val (ci, rs) ∧
    run_all os (new (P:=dynamic_storage_policy.t pointer)) = Val (cd, rs) ∧
    iterate ci = iterate cd.
Proof.
  destruct (run_all_sim os (new (P:=indexed_storage_policy.t pointer))
    (new (P:=dynamic_storage_policy.t pointer))) as (ci & cd & rs & Ei & Ed & [[_ Hv] _]).
  - split; [|done]. split; [|done]. split_and!; [apply um_ok_nil|apply NoDup_nil_2|done].
  - exists ci, cd, rs. done.
Qed.

(** [static_storage_policy] stores a value exactly when its alternative is
    in the list; a value of another type is ignored without an error, even by
    [set_result], which reports success. *)
Theorem static_policy_ignores_disallowed (allowed : list value_types) key
    (d : value_variant pointer) (c : typed_policy_container pointer) :
  NoDup (name <$> static_storage_policy.values_ (storage_ c)) → key ≠ ""%string →
  ∃ c', @set_result _ _ (static_policy pointer allowed) key d c = Val (c', None) ∧
    static_storage_policy.get key (storage_ c') =
      if decide (index_type d ∈ allowed) then Some (make_value key d)
      else static_storage_policy.get key (storage_ c).
Proof.
  intros Hok Hk. unfold set_result. rewrite bool_decide_eq_false_2 by done.
  eexists. split; [done|]. simpl. unfold static_storage_policy.set,
    static_storage_policy.is_variant_type_allowed. simpl.
  case_bool_decide; [rewrite decide_True by done|by rewrite decide_False by done].
  unfold static_storage_policy.get. simpl. rewrite <-model_get.
  change key with (name (make_value key d)) at 1 2.
  rewrite (proj2 (set_by_key_ok (make_value key d) _ Hok)). apply lookup_insert_eq.
Qed.

Lemma static_policy_ignores_disallowed_witness :
  ∃ c', @set_result _ _ (static_policy pointer [int_value]) "k" (Vv (V_bool true))
      (@new _ _ (static_policy pointer [int_value])) = Val (c', None) ∧
    static_storage_policy.get "k" (storage_ c') = None.
Proof.
  apply (static_policy_ignores_disallowed [int_value] "k" (Vv (V_bool true))
    (@new _ _ (static_policy pointer [int_value]))); [apply NoDup_nil_2|discriminate].
Defined.

(** [swap_header] exchanges source and target (ids and sub-ids) and undoes
    itself; like every header setter it leaves the stored values alone. *)
Theorem swap_header_involutive {P} `{StoragePolicy pointer P} (c : t P) :
  source_id_ (swap_header c) = target_id_ c ∧ source_sub_id_ (swap_header c) = target_sub_id_ c ∧
  target_id_ (swap_header c) = source_id_ c ∧ target_sub_id_ (swap_header c) = source_sub_id_ c ∧
  swap_header (swap_header c) = c ∧ storage_ (swap_header c) = storage_ c ∧
  (∀ id sub_id, storage_ (set_source id sub_id c) = storage_ c ∧
     storage_ (set_target id sub_id c) = storage_ c).
Proof. by destruct c. Qed.
