(* ===== verification/Validation.v ===== *)
(** * Validation errors

    [include/kcenon/container/container/schema.h], namespace
    [validation_codes] (the codes 310 to 317 and their messages) and the struct
    [validation_error] with the functions that build one error per kind of
    failure. *)

From S2P Require Import Prelude Float ErrorCodes Types.

Module validation_codes.

Definition missing_required : Z := 310.
Definition type_mismatch : Z := 311.
Definition out_of_range : Z := 312.
Definition invalid_length : Z := 313.
Definition pattern_mismatch : Z := 314.
Definition not_in_allowed_values : Z := 315.
Definition custom_validation_failed : Z := 316.
Definition nested_validation_failed : Z := 317.

Definition messages : list (Z * string) :=
  [ (missing_required, "Required field is missing"); (type_mismatch, "Field type mismatch");
    (out_of_range, "Value is out of range"); (invalid_length, "Invalid length");
    (pattern_mismatch, "Pattern mismatch");
    (not_in_allowed_values, "Value not in allowed list");
    (custom_validation_failed, "Custom validation failed");
    (nested_validation_failed, "Nested schema validation failed") ]%string.

Definition get_message (code : Z) : string :=
  match error_codes.find_case code messages with
  | Some m => m
  | None => error_codes.get_message code
  end.
End validation_codes.

Module validation_error.
#[local] Open Scope string_scope.

Record t : Type := ValidationError { field : string; message : string; code : Z }.

#[global] Instance t_eq_dec : EqDecision t.
Proof. solve_decision. Defined.

(** [validation_error()] *)
Definition none : t := ValidationError "" "" 0%Z.

Definition missing_required (field_name : string) : t :=
  ValidationError field_name ("Required field '" ++ field_name ++ "' is missing")
    validation_codes.missing_required.

Definition type_mismatch (field_name : string) (expected actual : value_types) : t :=
  ValidationError field_name
    ("Field '" ++ field_name ++ "' type mismatch: expected " ++
     get_string_from_type expected ++ ", got " ++ get_string_from_type actual)
    validation_codes.type_mismatch.

(** The template over the number type: [show] is its [std::to_string]. *)
Definition out_of_range (show : Z → string) (field_name : string) (value min_val max_val : Z) : t :=
  ValidationError field_name
    ("Field '" ++ field_name ++ "' value " ++ show value ++ " is out of range [" ++
     show min_val ++ ", " ++ show max_val ++ "]")
    validation_codes.out_of_range.

Definition invalid_length (field_name : string) (actual min_len max_len : Z) : t :=
  ValidationError field_name
    ("Field '" ++ field_name ++ "' length " ++ to_string actual ++ " is outside bounds [" ++
     to_string min_len ++ ", " ++ to_string max_len ++ "]")
    validation_codes.invalid_length.

Definition pattern_mismatch (field_name pattern : string) : t :=
  ValidationError field_name
    ("Field '" ++ field_name ++ "' does not match pattern '" ++ pattern ++ "'")
    validation_codes.pattern_mismatch.

Definition not_allowed (field_name value : string) : t :=
  ValidationError field_name
    ("Field '" ++ field_name ++ "' value '" ++ value ++ "' is not in allowed values")
    validation_codes.not_in_allowed_values.

Definition custom_failed (field_name reason : string) : t :=
  ValidationError field_name
    ("Field '" ++ field_name ++ "' custom validation failed: " ++ reason)
    validation_codes.custom_validation_failed.

Definition nested_failed (field_name : string) (nested_errors : list t) : t :=
  ValidationError field_name
    ("Field '" ++ field_name ++ "' nested validation failed with " ++
     to_string (Z.of_nat (length nested_errors)) ++ " error(s)")
    validation_codes.nested_validation_failed.

(** [err.field = name + "." + err.field] *)
Definition prefixed (name : string) (err : t) : t :=
  ValidationError (name ++ "." ++ field err) (message err) (code err).
End validation_error.
