(* ===== verification/Container.v ===== *)
(** * value_container

    [include/kcenon/container/container.h] and [core/container.cpp]: the
    message container.  This file holds its state and the operations on the
    stored values and the header; MessagePack is in ContainerMsgpack.v.

    [C] is the type of container pointers ([std::shared_ptr<value_container>]
    is [option C]).  [==] on two pointers compares addresses, which the model
    does not give to arrays, so [update_if] takes the two pointer comparisons as
    arguments.  Every method is one function; which of them are atomic
    beside other threads is the subject of LockedHeader.v.  The metrics calls are left out: metrics are off by
    default ([metrics_manager::enabled_{false}]) and no method reads them.
    Moved-from strings and vectors are empty; memory does not run out. *)

From S2P Require Import Prelude Types ErrorCodes UnorderedMap Validation.

(** [value_index_entry]: a value located in the raw data. *)
Record value_index_entry : Type := IndexEntry {
  entry_name : string; value_offset : Z; value_length : Z; entry_type : value_types }.

Module value_container.

Record header : Type := Header {
  source_id_ : string; source_sub_id_ : string; target_id_ : string; target_sub_id_ : string;
  message_type_ : string; version_ : string }.

Record t (C : Type) : Type := Container {
  parsed_data_ : bool;
  changed_data_ : bool;
  data_string_ : string;
  raw_data_ptr_ : option string;
  value_index_ : option (list value_index_entry);
  index_built_ : bool;
  zero_copy_mode_ : bool;
  header_ : header;
  optimized_units_ : list (optimized_value C);
  use_soo_ : bool;
  heap_allocations_ : Z;
  stack_allocations_ : Z;
  validation_errors_ : list validation_error.t }.
Arguments Container {C}.
Arguments parsed_data_ {C} _.
Arguments changed_data_ {C} _.
Arguments data_string_ {C} _.
Arguments raw_data_ptr_ {C} _.
Arguments value_index_ {C} _.
Arguments index_built_ {C} _.
Arguments zero_copy_mode_ {C} _.
Arguments header_ {C} _.
Arguments optimized_units_ {C} _.
Arguments use_soo_ {C} _.
Arguments heap_allocations_ {C} _.
Arguments stack_allocations_ {C} _.
Arguments validation_errors_ {C} _.

Section Container.
Context {C : Type}.
Abbreviation t := (t C).
Implicit Types (c : t) (val : optimized_value C).

(** ** Field updates *)

Definition with_data (parsed changed : bool) (data : string) c : t :=
  Container parsed changed data (raw_data_ptr_ c) (value_index_ c) (index_built_ c)
    (zero_copy_mode_ c) (header_ c) (optimized_units_ c) (use_soo_ c) (heap_allocations_ c)
    (stack_allocations_ c) (validation_errors_ c).

Definition with_changed c : t := with_data (parsed_data_ c) true (data_string_ c) c.

Definition with_header (h : header) c : t :=
  Container (parsed_data_ c) (changed_data_ c) (data_string_ c) (raw_data_ptr_ c)
    (value_index_ c) (index_built_ c) (zero_copy_mode_ c) h (optimized_units_ c) (use_soo_ c)
    (heap_allocations_ c) (stack_allocations_ c) (validation_errors_ c).

Definition with_units (us : list (optimized_value C)) c : t :=
  Container (parsed_data_ c) (changed_data_ c) (data_string_ c) (raw_data_ptr_ c)
    (value_index_ c) (index_built_ c) (zero_copy_mode_ c) (header_ c) us (use_soo_ c)
    (heap_allocations_ c) (stack_allocations_ c) (validation_errors_ c).

Definition with_allocations (heap stack : Z) c : t :=
  Container (parsed_data_ c) (changed_data_ c) (data_string_ c) (raw_data_ptr_ c)
    (value_index_ c) (index_built_ c) (zero_copy_mode_ c) (header_ c) (optimized_units_ c)
    (use_soo_ c) heap stack (validation_errors_ c).

Definition with_validation_errors (errs : list validation_error.t) c : t :=
  Container (parsed_data_ c) (changed_data_ c) (data_string_ c) (raw_data_ptr_ c)
    (value_index_ c) (index_built_ c) (zero_copy_mode_ c) (header_ c) (optimized_units_ c)
    (use_soo_ c) (heap_allocations_ c) (stack_allocations_ c) errs.

(** ** Construction and moves *)

Definition empty_data : string := "@data={{}};".

(** [value_container()] *)
Definition new : t :=
  Container true false empty_data None None false false
    (Header "" "" "" "" "data_container" "1.0.0.0") [] true 0 0 [].

Definition moved_header : header := Header "" "" "" "" "" "".

(** The new object and what is left of the source. *)
Definition move_construct (other : t) : t * t :=
  (Container (parsed_data_ other) (changed_data_ other) (data_string_ other) None None false
     false (header_ other) [] true 0 0 [],
   with_data true false "" (with_header moved_header other)).

(** [this != &other]; the target object and the source. *)
Definition move_assign (c other : t) : t * t :=
  (Container (parsed_data_ other) (changed_data_ other) (data_string_ other) (raw_data_ptr_ c)
     (value_index_ c) (index_built_ c) (zero_copy_mode_ c) (header_ other)
     (optimized_units_ other) (use_soo_ other) (heap_allocations_ c) (stack_allocations_ c)
     (validation_errors_ c),
   with_data true false "" (with_header moved_header (with_units [] other))).

(** ** Header *)

Definition set_source (sid ssubid : string) c : t :=
  let h := header_ c in
  with_header (Header sid ssubid (target_id_ h) (target_sub_id_ h) (message_type_ h)
                 (version_ h)) c.

Definition set_target (tid tsubid : string) c : t :=
  let h := header_ c in
  with_header (Header (source_id_ h) (source_sub_id_ h) tid tsubid (message_type_ h)
                 (version_ h)) c.

Definition set_message_type (msg_type : string) c : t :=
  let h := header_ c in
  with_header (Header (source_id_ h) (source_sub_id_ h) (target_id_ h) (target_sub_id_ h)
                 msg_type (version_ h)) c.

Definition swap_header c : t :=
  let h := header_ c in
  with_header (Header (target_id_ h) (target_sub_id_ h) (source_id_ h) (source_sub_id_ h)
                 (message_type_ h) (version_ h)) c.

Definition source_id c : string := source_id_ (header_ c).
Definition source_sub_id c : string := source_sub_id_ (header_ c).
Definition target_id c : string := target_id_ (header_ c).
Definition target_sub_id c : string := target_sub_id_ (header_ c).
Definition message_type c : string := message_type_ (header_ c).
Definition version c : string := version_ (header_ c).

Definition clear_value c : t := with_units [] (with_data true false empty_data c).

Definition initialize c : t :=
  clear_value (with_header (Header "" "" "" "" "data_container" "1.0") c).

(** ** Reading values *)

(** The loop [for (val : optimized_units_) if (val.name == key)]. *)
Fixpoint find_unit (key : string) (us : list (optimized_value C)) : option (optimized_value C) :=
  match us with
  | [] => None
  | val :: us => if bool_decide (name val = key) then Some val else find_unit key us
  end.

Definition get (key : string) c : option (optimized_value C) :=
  find_unit key (optimized_units_ c).

(** [get(keys)] *)
Definition get_batch (keys : list string) c : list (option (optimized_value C)) :=
  (λ key, find_unit key (optimized_units_ c)) <$> keys.

Definition get_as_map (keys : list string) c : list (string * optimized_value C) :=
  fold_left (λ results key,
    match find_unit key (optimized_units_ c) with
    | Some val => um_index default_optimized (λ _, val) key results
    | None => results
    end) keys [].

Definition contains (key : string) c : bool :=
  bool_decide (is_Some (find_unit key (optimized_units_ c))).

Definition contains_batch (keys : list string) c : list bool :=
  (λ key, bool_decide (is_Some (find_unit key (optimized_units_ c)))) <$> keys.

Definition get_variant_values c : list (optimized_value C) := optimized_units_ c.
Definition size c : Z := Z.of_nat (length (optimized_units_ c)).
Definition empty c : bool := bool_decide (optimized_units_ c = []).

(** ** Writing values *)

(** [use_soo_ && val.is_stack_allocated()] selects the counter. *)
Definition count_allocation val c : t :=
  if use_soo_ c && is_stack_allocated val
  then with_allocations (heap_allocations_ c) (wrap 64 (stack_allocations_ c + 1)) c
  else with_allocations (wrap 64 (heap_allocations_ c + 1)) (stack_allocations_ c) c.

(** [existing = val] for the first value of that name. *)
Fixpoint replace_unit val (us : list (optimized_value C)) : option (list (optimized_value C)) :=
  match us with
  | [] => None
  | existing :: us =>
      if bool_decide (name existing = name val) then Some (val :: us)
      else cons existing <$> replace_unit val us
  end.

Definition set_unit_impl val c : t :=
  match replace_unit val (optimized_units_ c) with
  | Some us => with_changed (with_units us c)
  | None => count_allocation val (with_changed (with_units (optimized_units_ c ++ [val]) c))
  end.

(** [set(key, data)], [set(val)] and [set_all(vals)] *)
Definition set (key : string) (d : value_variant C) c : t :=
  set_unit_impl (Optimized key (index_type d) d) c.

Definition set_value val c : t := set_unit_impl val c.

Definition set_all (vals : list (optimized_value C)) c : t :=
  fold_left (λ c val, set_unit_impl val c) vals c.

(** Both overloads: [reserve] has no effect on the contents. *)
Definition bulk_insert (values : list (optimized_value C)) c : t :=
  if bool_decide (values = []) then c
  else with_changed (fold_left (λ c val,
         with_units (optimized_units_ c ++ [val]) (count_allocation val c)) values c).

Section Updates.
Context (same_container : option C → option C → bool).
Context (same_array : option (list (value_variant C)) → option (list (value_variant C)) → bool).

(** [val.data == expected] *)
Definition data_eqb (d expected : value_variant C) : bool :=
  variant_eqb same_container same_array (vv d) (vv expected).

(** [None]: no value of that name, or its data differs. *)
Fixpoint update_unit (key : string) (expected new_value : value_variant C)
    (us : list (optimized_value C)) : option (list (optimized_value C)) :=
  match us with
  | [] => None
  | val :: us =>
      if bool_decide (name val = key) then
        if data_eqb (data val) expected
        then Some (Optimized (name val) (index_type new_value) new_value :: us)
        else None
      else cons val <$> update_unit key expected new_value us
  end.

Definition update_if (key : string) (expected new_value : value_variant C) c : t * bool :=
  match update_unit key expected new_value (optimized_units_ c) with
  | Some us => (with_changed (with_units us c), true)
  | None => (c, false)
  end.

Record update_spec : Type := UpdateSpec {
  us_key : string; us_expected : value_variant C; us_new_value : value_variant C }.

Fixpoint update_batch_if (updates : list update_spec) c : t * list bool :=
  match updates with
  | [] => (c, [])
  | u :: updates =>
      let (c1, updated) := update_if (us_key u) (us_expected u) (us_new_value u) c in
      let (c2, results) := update_batch_if updates c1 in
      (c2, updated :: results)
  end.
End Updates.

(** ** Result-based API *)

(** [get<T>(key)]; [get_if] is [std::get_if<T>]. *)
Definition get_typed {T} (get_if : value_variant C → option T) (key : string) c : T + error_info :=
  match find_unit key (optimized_units_ c) with
  | Some val =>
      match get_if (data val) with
      | Some x => inl x
      | None => inr (error error_codes.type_mismatch
                       (error_codes.make_message error_codes.type_mismatch key))
      end
  | None => inr (error error_codes.key_not_found
                   (error_codes.make_message error_codes.key_not_found key))
  end.

Definition get_result (key : string) c : optimized_value C + error_info :=
  match find_unit key (optimized_units_ c) with
  | Some val => inl val
  | None => inr (error error_codes.key_not_found
                   (error_codes.make_message error_codes.key_not_found key))
  end.

Definition empty_key_error : error_info :=
  error error_codes.empty_key (error_codes.make_message error_codes.empty_key "").

Definition set_result val c : t * (unit + error_info) :=
  if bool_decide (name val = ""%string) then (c, inr empty_key_error)
  else (set_unit_impl val c, inl tt).

(** [set_result(key, data)] *)
Definition set_result_typed (key : string) (d : value_variant C) c : t * (unit + error_info) :=
  if bool_decide (key = ""%string) then (c, inr empty_key_error)
  else (set_unit_impl (Optimized key (index_type d) d) c, inl tt).

(** Stops at the first empty name; what came before it stays stored. *)
Fixpoint set_all_result (vals : list (optimized_value C)) c : t * (unit + error_info) :=
  match vals with
  | [] => (c, inl tt)
  | val :: vals =>
      if bool_decide (name val = ""%string) then (c, inr empty_key_error)
      else set_all_result vals (set_unit_impl val c)
  end.

Definition bulk_insert_result (values : list (optimized_value C)) c : t * (unit + error_info) :=
  (bulk_insert values c, inl tt).

Definition get_batch_result (keys : list string) c
    : list (option (optimized_value C)) + error_info := inl (get_batch keys c).

(** ** The rest of the state *)

Definition is_zero_copy_mode c : bool := zero_copy_mode_ c.
Definition memory_stats c : Z * Z := (heap_allocations_ c, stack_allocations_ c).
Definition set_soo_enabled (enable : bool) c : t :=
  Container (parsed_data_ c) (changed_data_ c) (data_string_ c) (raw_data_ptr_ c)
    (value_index_ c) (index_built_ c) (zero_copy_mode_ c) (header_ c) (optimized_units_ c)
    enable (heap_allocations_ c) (stack_allocations_ c) (validation_errors_ c).
Definition is_soo_enabled c : bool := use_soo_ c.
Definition get_validation_errors c : list validation_error.t := validation_errors_ c.
Definition clear_validation_errors c : t := with_validation_errors [] c.
End Container.
End value_container.

(** ** Format detection *)

Inductive serialization_format : Type :=
| fmt_binary | fmt_json | fmt_xml | fmt_msgpack | fmt_auto_detect | fmt_unknown.

#[export] Instance serialization_format_eq_dec : EqDecision serialization_format.
Proof. solve_decision. Defined.

Module detect.

(** [std::isspace] in the C locale: the space and 9 to 13. *)
Definition isspace (b : byte) : bool := (u8 b =? 32) || ((9 <=? u8 b) && (u8 b <=? 13)).

Fixpoint skip_space (bs : list byte) : list byte :=
  match bs with
  | [] => []
  | b :: bs' => if isspace b then skip_space bs' else bs
  end.

(** [detect_format(std::string_view)] *)
Definition detect_format_text (data : list byte) : serialization_format :=
  match skip_space data with
  | [] => fmt_unknown
  | (first_char :: _) as rest =>
      if bool_decide (first_char = x7b) || bool_decide (first_char = x5b) then fmt_json
      else if bool_decide (first_char = x3c) then fmt_xml
      else if bool_decide (take 7 rest = str_bytes "@header") then fmt_binary
      else if bool_decide (take 5 rest = str_bytes "@data") then fmt_binary
      else fmt_unknown
  end.

(** [detect_format(std::vector<uint8_t>)] *)
Definition detect_format (data : list byte) : serialization_format :=
  match data with
  | [] => fmt_unknown
  | first_byte :: _ =>
      let b := u8 first_byte in
      if ((0x80 <=? b) && (b <=? 0x8f)) || (b =? 0xde) || (b =? 0xdf) then fmt_msgpack
      else detect_format_text data
  end.
End detect.

Example detect_examples :
  detect.detect_format (str_bytes "  @header={{}};") = fmt_binary ∧
  detect.detect_format (str_bytes "@data={{}};") = fmt_binary ∧
  detect.detect_format (str_bytes " <c/>") = fmt_xml ∧
  detect.detect_format [x82; xa6] = fmt_msgpack ∧
  detect.detect_format (str_bytes "@hea") = fmt_unknown.
Proof. by vm_compute. Qed.
