(* ===== verification/ContainerMsgpack.v ===== *)
(** * MessagePack form of value_container

    [core/serializers/msgpack_serializer.cpp] (writing) and
    [value_container::from_msgpack_impl] of [core/container.cpp] (reading), over
    the codec of Msgpack.v.  Nested containers are owned trees: a cycle of
    container pointers, on which the writer would not return, has no tree.

    [std::get<T>] on a variant that does not hold a [T] throws
    [std::bad_variant_access]; an encoder result [None] is that exception.  The
    reader is a state transformer: its early [return false] leaves the fields it
    has set so far.  Recursion into a binary value is bounded by [fuel]; the
    length of the data plus one is always enough (ContainerMsgpackFacts.v). *)

#[local] Set Warnings "-register-all".
From S2P Require Import Prelude Float Msgpack Types ErrorCodes UnorderedMap Validation Container.
Import value_container.

(** A container and, through its values, the containers it owns. *)
Inductive ctree : Type := Node { node : value_container.t ctree }.

(** ** Writing *)

Module msgpack_serializer.
Import msgpack_encoder.

(** The header map: four ids only for a typed message. *)
Definition write_header (h : header) (e : msgpack_encoder.t) : msgpack_encoder.t :=
  let typed := negb (bool_decide (message_type_ h = "data_container"%string)) in
  let e := write_map_header 2 e in
  let e := write_string "header" e in
  let e := write_map_header (if typed then 6 else 2) e in
  let e :=
    if typed then
      let e := write_string "target_id" e in
      let e := write_string (target_id_ h) e in
      let e := write_string "target_sub_id" e in
      let e := write_string (target_sub_id_ h) e in
      let e := write_string "source_id" e in
      let e := write_string (source_id_ h) e in
      let e := write_string "source_sub_id" e in
      write_string (source_sub_id_ h) e
    else e in
  let e := write_string "message_type" e in
  let e := write_string (message_type_ h) e in
  let e := write_string "version" e in
  let e := write_string (version_ h) e in
  write_string "values" e.

(** Writes each element with [f], the exception of one stopping the loop. *)
Section WriteEach.
Context {A : Type} (f : A → msgpack_encoder.t → option msgpack_encoder.t).

Fixpoint write_each (l : list A) (e : msgpack_encoder.t) : option msgpack_encoder.t :=
  match l with
  | [] => Some e
  | x :: l => match f x e with Some e => write_each l e | None => None end
  end.
End WriteEach.

(** The [switch] of [write_value_to_encoder]; [nested] serializes a container and
    [items] writes the elements of an array. *)
Definition write_case (ty : value_types) (d : value_variant ctree)
    (nested : ctree → option (list byte))
    (items : list (value_variant ctree) → msgpack_encoder.t → option msgpack_encoder.t)
    (e : msgpack_encoder.t) : option msgpack_encoder.t :=
  match ty, vv d with
  | null_value, _ => Some (write_nil e)
  | bool_value, V_bool b => Some (write_bool b e)
  | short_value, V_short z | int_value, V_int z | long_value, V_long z
  | llong_value, V_llong z => Some (write_int z e)
  | ushort_value, V_ushort z | uint_value, V_uint z | ulong_value, V_ulong z
  | ullong_value, V_ullong z => Some (write_uint z e)
  | float_value, V_float z => Some (write_float z e)
  | double_value, V_double z => Some (write_double z e)
  | string_value, V_string s => Some (write_string s e)
  | bytes_value, V_bytes bs => Some (write_binary bs e)
  | container_value, V_container (Some n) => bs ← nested n; Some (write_binary bs e)
  | container_value, V_container None => Some (write_nil e)
  | array_value, V_array (Some ((_ :: _) as l)) =>
      items l (write_array_header (wrap 32 (Z.of_nat (length l))) e)
  | array_value, V_array _ => Some (write_array_header 0 e)
  | _, _ => None
  end.

Fixpoint serialize_container_to_msgpack (n : ctree) : option (list byte) :=
  let fix write_value (ty : value_types) (d : value_variant ctree) (e : msgpack_encoder.t)
      {struct d} : option msgpack_encoder.t :=
    write_case ty d serialize_container_to_msgpack
      (write_each (λ item, write_value (index_type item) item)) e in
  match n with
  | Node c =>
      let values := get_variant_values c in
      let e := write_header (header_ c) msgpack_encoder.empty in
      let e := write_map_header (Z.of_nat (length values)) e in
      match write_each (λ unit e, write_value (type unit) (data unit)
                                    (write_string (name unit) e)) values e with
      | Some e => Some (finish e).1
      | None => None
      end
  end.

(** [write_value_to_encoder] *)
Fixpoint write_value_to_encoder (ty : value_types) (d : value_variant ctree)
    (e : msgpack_encoder.t) {struct d} : option msgpack_encoder.t :=
  write_case ty d serialize_container_to_msgpack
    (write_each (λ item, write_value_to_encoder (index_type item) item)) e.

(** [serialize]; [what] is the text of [std::bad_variant_access]. *)
Definition serialize (what : string) (n : ctree) : list byte + error_info :=
  match serialize_container_to_msgpack n with
  | Some data => inl data
  | None => inr (ErrorInfo (-1) ("MessagePack serialization failed: " ++ what)
                   "msgpack_serializer")
  end.
End msgpack_serializer.

(** ** Reading *)

Module from_msgpack.
Import msgpack_decoder.

(** One [hkey]/[hval] pair of the header; an unknown key is dropped. *)
Definition set_header_field (hkey hval : string) (h : header) : header :=
  let 'Header sid ssub tid tsub ty v := h in
  if bool_decide (hkey = "target_id"%string) then Header sid ssub hval tsub ty v
  else if bool_decide (hkey = "target_sub_id"%string) then Header sid ssub tid hval ty v
  else if bool_decide (hkey = "source_id"%string) then Header hval ssub tid tsub ty v
  else if bool_decide (hkey = "source_sub_id"%string) then Header sid hval tid tsub ty v
  else if bool_decide (hkey = "message_type"%string) then Header sid ssub tid tsub hval v
  else if bool_decide (hkey = "version"%string) then Header sid ssub tid tsub ty hval
  else h.

(** The header loop of [n] entries; [false] is its [return false]. *)
Fixpoint read_header (n : nat) (h : header) (d : t) : res (bool * header * t) :=
  match n with
  | O => Val (true, h, d)
  | S n =>
      let? (hkey, d) := read_string d in
      let? (hval, d) := read_string d in
      match hkey, hval with
      | Some hkey, Some hval => read_header n (set_header_field hkey hval h) d
      | _, _ => Val (false, h, d)
      end
  end.

(** An array element: a failed read leaves [monostate]. *)
Definition elem {A} (f : A → value_variant ctree) (r : res (option A * t))
    : res (value_variant ctree * t) :=
  let? (x, d) := r in Val (default (Vv V_null) (f <$> x), d).

Definition read_item (d : t) : res (value_variant ctree * t) :=
  let? elem_type := peek_type d in
  match elem_type with
  | mt_nil => let? (_, d) := read_nil d in Val (Vv V_null, d)
  | mt_boolean => elem (λ b, Vv (V_bool b)) (read_bool d)
  | mt_positive_int | mt_negative_int => elem (λ n, Vv (V_llong n)) (read_int d)
  | mt_float32 => elem (λ f, Vv (V_float f)) (read_float d)
  | mt_float64 => elem (λ f, Vv (V_double f)) (read_double d)
  | mt_str => elem (λ s, Vv (V_string s)) (read_string d)
  | mt_bin => elem (λ b, Vv (V_bytes b)) (read_binary d)
  | mt_array | mt_map | mt_unknown => Val (Vv V_null, d)
  end.

Fixpoint read_items (n : nat) (d : t) : res (list (value_variant ctree) * t) :=
  match n with
  | O => Val ([], d)
  | S n =>
      let? (x, d) := read_item d in
      let? (xs, d) := read_items n d in Val (x :: xs, d)
  end.

(** The integer goes to the smallest of [int] and [long long]. *)
Definition int_variant (n : Z) : value_variant ctree :=
  if ((0 <=? n) && (n <=? INT32_MAX)) || ((INT32_MIN <=? n) && (n <? 0))
  then Vv (V_int n) else Vv (V_llong n).

Section Values.
(** [nested->from_msgpack_impl(b)] on a fresh container: the container on success. *)
Context (nested : list byte → res (option ctree)).

Definition value (r : res (option (value_variant ctree) * t))
    : res (option (value_types * value_variant ctree) * t) :=
  let? (x, d) := r in Val ((λ v, (index_type v, v)) <$> x, d).

Definition typed {A} (f : A → value_variant ctree) (r : res (option A * t))
    : res (option (value_types * value_variant ctree) * t) :=
  value (let? (x, d) := r in Val (f <$> x, d)).

(** The [switch] on the type of the next value; [None] is [return false]. *)
Definition read_value (d : t) : res (option (value_types * value_variant ctree) * t) :=
  let? type := peek_type d in
  match type with
  | mt_nil => let? (_, d) := read_nil d in value (Val (Some (Vv V_null), d))
  | mt_boolean => typed (λ b, Vv (V_bool b)) (read_bool d)
  | mt_positive_int | mt_negative_int => typed int_variant (read_int d)
  | mt_float32 => typed (λ f, Vv (V_float f)) (read_float d)
  | mt_float64 => typed (λ f, Vv (V_double f)) (read_double d)
  | mt_str => typed (λ s, Vv (V_string s)) (read_string d)
  | mt_bin =>
      let? (b, d) := read_binary d in
      match b with
      | None => Val (None, d)
      | Some b =>
          let? n := if 2 <=? Z.of_nat (length b) then nested b else Val None in
          match n with
          | Some n => value (Val (Some (Vv (V_container (Some n))), d))
          | None => value (Val (Some (Vv (V_bytes b)), d))
          end
      end
  | mt_array =>
      let? (arr_size, d) := read_array_header d in
      match arr_size with
      | None => Val (None, d)
      | Some arr_size =>
          let? (items, d) := read_items (Z.to_nat arr_size) d in
          value (Val (Some (Vv (V_array (Some items))), d))
      end
  | mt_map | mt_unknown => value (Val (Some (Vv V_null), d))
  end.

(** The loop over the values map: every value is appended. *)
Fixpoint read_values (n : nat) (c : value_container.t ctree) (d : t)
    : res (bool * value_container.t ctree * t) :=
  match n with
  | O => Val (true, c, d)
  | S n =>
      let? (vkey, d) := read_string d in
      match vkey with
      | None => Val (false, c, d)
      | Some vkey =>
          let? (v, d) := read_value d in
          match v with
          | None => Val (false, c, d)
          | Some (ty, v) =>
              read_values n (with_units (optimized_units_ c ++ [Optimized vkey ty v]) c) d
          end
      end
  end.

(** The loop over the outer map; a key other than the two is not followed by a skip. *)
Fixpoint read_outer (n : nat) (c : value_container.t ctree) (d : t)
    : res (bool * value_container.t ctree * t) :=
  match n with
  | O => Val (true, c, d)
  | S n =>
      let? (key, d) := read_string d in
      match key with
      | None => Val (false, c, d)
      | Some key =>
          if bool_decide (key = "header"%string) then
            let? (header_count, d) := read_map_header d in
            match header_count with
            | None => Val (false, c, d)
            | Some header_count =>
                let? (ok, h, d) := read_header (Z.to_nat header_count) (header_ c) d in
                if ok : bool then read_outer n (with_header h c) d
                else Val (false, with_header h c, d)
            end
          else if bool_decide (key = "values"%string) then
            let? (values_count, d) := read_map_header d in
            match values_count with
            | None => Val (false, c, d)
            | Some values_count =>
                let? (ok, c, d) := read_values (Z.to_nat values_count) c d in
                if ok : bool then read_outer n c d else Val (false, c, d)
            end
          else read_outer n c d
      end
  end.
End Values.

Fixpoint from_msgpack_impl (fuel : nat) (data : list byte) (c : value_container.t ctree)
    : res (bool * value_container.t ctree) :=
  match fuel with
  | O => NoFuel
  | S fuel =>
      let nested b :=
        let? (ok, c) := from_msgpack_impl fuel b new in
        Val (if ok : bool then Some (Node c) else None) in
      if bool_decide (data = []) then Val (false, c)
      else
        let c := initialize c in
        let? (outer_count, d) := read_map_header (of_bytes data) in
        match outer_count with
        | None => Val (false, c)
        | Some outer_count =>
            let? (ok, c, _) := read_outer nested (Z.to_nat outer_count) c d in
            if ok : bool then Val (true, with_data true false (data_string_ c) c)
            else Val (false, c)
        end
  end.

(** The bound that is always enough. *)
Definition fuel_for (data : list byte) : nat := S (length data).

(** [deserialize(data, serialization_format::msgpack)] *)
Definition deserialize (data : list byte) (c : value_container.t ctree)
    : res (value_container.t ctree * (unit + error_info)) :=
  let? (ok, c) := from_msgpack_impl (fuel_for data) data c in
  Val (c, if ok : bool then inl tt
          else inr (error error_codes.deserialization_failed
                 (error_codes.make_message error_codes.deserialization_failed
                    "Invalid MessagePack data"))).
End from_msgpack.

Section Examples.
#[local] Open Scope string_scope.

Definition sample : ctree := Node
  (set "n" (Vv (V_ushort 300%Z)) (set "s" (Vv (V_string "hi")) (set_source "a" "b"
    (set_message_type "ping" new)))).

Example sample_roundtrip :
  match msgpack_serializer.serialize_container_to_msgpack sample with
  | Some bs =>
      let? (ok, c) := from_msgpack.from_msgpack_impl (from_msgpack.fuel_for bs) bs new in
      Val (ok, header_ c, optimized_units_ c)
  | None => Undef
  end = Val (true, Header "a" "b" "" "" "ping" "1.0.0.0",
             [Optimized "s" string_value (Vv (V_string "hi"));
              Optimized "n" int_value (Vv (V_int 300%Z))]).
Proof. by vm_compute. Qed.
End Examples.
