(* ===== verification/Regex.v ===== *)
(** * The regular expressions of the text format

    [std::regex] with the default (ECMAScript) grammar, for the patterns the
    program compiles: a concatenation of literals and of repeated character
    classes, every capture group being one item.  The matcher backtracks in the
    order ECMAScript prescribes: a greedy item takes as much as the rest of the
    pattern allows, a lazy one as little.  A match is the list of the pieces the
    items took, so that group [n] is the piece of its item.

    The text is a [list byte]; classes are those of the C locale.  Recursion is
    structural, so the matcher is total; the depth of the C++ stack is not part
    of the model. *)

From S2P Require Import Prelude.

Inductive item : Type :=
| Lit (l : list byte)               (* a literal *)
| Opt (b : byte)                    (* b? *)
| Star (p : byte → bool)            (* class*  *)
| Plus (p : byte → bool)            (* class+ *)
| Lazy (p : byte → bool).           (* class*? *)

Abbreviation regex := (list item).
Abbreviation text := (list byte).

(** [\s], [\w] and [.] *)
Definition space (b : byte) : bool := (u8 b =? 32) || ((9 <=? u8 b) && (u8 b <=? 13)).

Definition word (b : byte) : bool :=
  let n := u8 b in
  ((48 <=? n) && (n <=? 57)) || ((65 <=? n) && (n <=? 90)) || ((97 <=? n) && (n <=? 122))
  || (n =? 95).

Definition dot (b : byte) : bool := negb ((u8 b =? 10) || (u8 b =? 13)).

(** ** Matching at a position *)

(** The pieces and the text behind the match. *)
Abbreviation matched := (list text * text)%type.

Definition more (b : byte) (m : matched) : matched :=
  match m with
  | (q :: ps, t) => ((b :: q) :: ps, t)
  | _ => m
  end.

Definition none_taken (m : matched) : matched := ([] :: m.1, m.2).

Fixpoint strip (l s : text) : option text :=
  match l, s with
  | [], _ => Some s
  | x :: l, y :: s => if bool_decide (x = y) then strip l s else None
  | _ :: _, [] => None
  end.

Fixpoint greedy (p : byte → bool) (k : text → option matched) (s : text) : option matched :=
  match s with
  | b :: s' =>
      if p b then
        match greedy p k s' with
        | Some m => Some (more b m)
        | None => none_taken <$> k s
        end
      else none_taken <$> k s
  | [] => none_taken <$> k s
  end.

Fixpoint lazy (p : byte → bool) (k : text → option matched) (s : text) : option matched :=
  match k s with
  | Some m => Some (none_taken m)
  | None =>
      match s with
      | b :: s' => if p b then more b <$> lazy p k s' else None
      | [] => None
      end
  end.

Fixpoint run (r : regex) (s : text) : option matched :=
  match r with
  | [] => Some ([], s)
  | Lit l :: r => s' ← strip l s; m ← run r s'; Some (l :: m.1, m.2)
  | Opt b :: r =>
      match s with
      | c :: s' =>
          if bool_decide (c = b) then
            match run r s' with
            | Some m => Some ([b] :: m.1, m.2)
            | None => none_taken <$> run r s
            end
          else none_taken <$> run r s
      | [] => none_taken <$> run r s
      end
  | Star p :: r => greedy p (run r) s
  | Plus p :: r =>
      match s with
      | b :: s' => if p b then more b <$> greedy p (run r) s' else None
      | [] => None
      end
  | Lazy p :: r => lazy p (run r) s
  end.

(** ** Searching *)

(** What is before the leftmost match, its pieces, what is behind it. *)
Fixpoint regex_search (r : regex) (s : text) : option (text * list text * text) :=
  match run r s with
  | Some (ps, t) => Some ([], ps, t)
  | None =>
      match s with
      | b :: s' =>
          match regex_search r s' with
          | Some (pre, ps, t) => Some (b :: pre, ps, t)
          | None => None
          end
      | [] => None
      end
  end.

(** [match[n]] for the group that is item [i]; [match[0]]. *)
Definition group (ps : list text) (i : nat) : text := nth i ps [].
Definition whole (ps : list text) : text := concat ps.

(** [std::sregex_iterator]: the matches from left to right, each with the text
    in front of it; no pattern of the program matches the empty text. *)
Fixpoint regex_iterate (fuel : nat) (r : regex) (s : text) : list (text * list text) :=
  match fuel with
  | O => []
  | S fuel =>
      match regex_search r s with
      | Some (pre, ps, t) => (pre, ps) :: regex_iterate fuel r t
      | None => []
      end
  end.

(** Every match consumes a character, so the length bounds their number. *)
Definition regex_matches (r : regex) (s : text) : list (text * list text) :=
  regex_iterate (length s) r s.

Example regex_examples :
  let r := [Lit [x5b]; Plus word; Lit [x2c]; Star space; Lazy dot; Lit [x5d; x3b]] in
  regex_search r (str_bytes "..[ab,  x];y];")
  = Some (str_bytes "..", str_bytes <$> ["["; "ab"; ","; "  "; "x"; "];"]%string, str_bytes "y];")
  ∧ length (regex_matches r (str_bytes "[a,1];[b,2];x[c,];")) = 3%nat.
Proof. by vm_compute. Qed.

(** ** What a match is made of *)

Definition item_ok (i : item) (piece : text) : Prop :=
  match i with
  | Lit l => piece = l
  | Opt b => piece = [] ∨ piece = [b]
  | Star p | Lazy p => Forall (λ b, p b = true) piece
  | Plus p => piece ≠ [] ∧ Forall (λ b, p b = true) piece
  end.

Lemma strip_app l s t : strip l s = Some t ↔ s = l ++ t.
Proof.
  revert s; induction l as [|x l IH]; intros s; simpl; [naive_solver|].
  destruct s as [|y s]; [clear IH; naive_solver|].
  case_bool_decide; [subst; rewrite IH|]; clear IH; naive_solver.
Qed.

(** A repetition splits off a piece of its class and leaves the rest to [k]. *)
Lemma greedy_sound p k s ps t :
  greedy p k s = Some (ps, t) →
  ∃ q ps' s', ps = q :: ps' ∧ s = q ++ s' ∧ Forall (λ b, p b = true) q ∧ k s' = Some (ps', t).
Proof.
  revert ps t; induction s as [|b s IH]; intros ps t; simpl.
  - destruct (k []) as [[ps' t']|] eqn:E; [|done]. intros [= <- <-]. by exists [], ps', [].
  - assert (none_taken <$> k (b :: s) = Some (ps, t) →
      ∃ q ps' s', ps = q :: ps' ∧ b :: s = q ++ s' ∧ Forall (λ b, p b = true) q
                  ∧ k s' = Some (ps', t)) as Hn.
    { destruct (k (b :: s)) as [[ps' t']|] eqn:E; [|done]. intros [= <- <-].
      by exists [], ps', (b :: s). }
    destruct (p b) eqn:Hp; [|done]. destruct (greedy p k s) as [[ps1 t1]|]; [|done].
    destruct (IH _ _ eq_refl) as (q & ps' & s' & -> & -> & ? & ?). intros [= <- <-].
    exists (b :: q), ps', s'. by repeat constructor.
Qed.

Lemma lazy_sound p k s ps t :
  lazy p k s = Some (ps, t) →
  ∃ q ps' s', ps = q :: ps' ∧ s = q ++ s' ∧ Forall (λ b, p b = true) q ∧ k s' = Some (ps', t).
Proof.
  revert ps t; induction s as [|b s IH]; intros ps t; simpl.
  - destruct (k []) as [[ps' t']|] eqn:E; [|done]. intros [= <- <-]. by exists [], ps', [].
  - destruct (k (b :: s)) as [[ps' t']|] eqn:E.
    { intros [= <- <-]. by exists [], ps', (b :: s). }
    destruct (p b) eqn:Hp; [|done]. destruct (lazy p k s) as [[ps1 t1]|]; [|done].
    destruct (IH _ _ eq_refl) as (q & ps' & s' & -> & -> & ? & ?). intros [= <- <-].
    exists (b :: q), ps', s'. by repeat constructor.
Qed.

Lemma none_taken_Some o ps t :
  none_taken <$> o = Some (ps, t) → ∃ ps', ps = [] :: ps' ∧ o = Some (ps', t).
Proof. destruct o as [[ps' t']|]; simpl; [intros [= <- <-]; by exists ps'|done]. Qed.

(** One item takes a piece, the rest of the pattern matches what follows. *)
Lemma run_cons i r s ps t :
  run (i :: r) s = Some (ps, t) →
  ∃ q ps' s', ps = q :: ps' ∧ s = q ++ s' ∧ item_ok i q ∧ run r s' = Some (ps', t).
Proof.
  destruct i as [l|b|p|p|p]; simpl.
  - destruct (strip l s) as [s'|] eqn:E1; [|done]. apply strip_app in E1 as ->. simpl.
    destruct (run r s') as [[ps' t']|] eqn:E; [|done]. intros [= <- <-].
    by exists l, ps', s'.
  - assert (none_taken <$> run r s = Some (ps, t) →
      ∃ q ps' s', ps = q :: ps' ∧ s = q ++ s' ∧ (q = [] ∨ q = [b]) ∧ run r s' = Some (ps', t))
      as Hn.
    { intros (ps' & -> & E)%none_taken_Some. exists [], ps', s. auto. }
    destruct s as [|c s]; [done|]. case_bool_decide as Hc; [|done]. subst c.
    destruct (run r s) as [[ps' t']|] eqn:E; [|done]. intros [= <- <-].
    exists [b], ps', s. auto.
  - apply greedy_sound.
  - destruct s as [|b s]; [done|]. destruct (p b) eqn:Hb; [|done].
    destruct (greedy p (run r) s) as [[ps1 t1]|] eqn:E1; [|done].
    apply greedy_sound in E1 as (q & ps' & s' & -> & -> & ? & E). intros [= <- <-].
    exists (b :: q), ps', s'. by repeat constructor.
  - apply lazy_sound.
Qed.

Lemma run_app r1 r2 s ps t :
  run (r1 ++ r2) s = Some (ps, t) →
  ∃ ps1 ps2 s', ps = ps1 ++ ps2 ∧ s = concat ps1 ++ s' ∧ Forall2 item_ok r1 ps1
                ∧ run r2 s' = Some (ps2, t).
Proof.
  revert s ps; induction r1 as [|i r1 IH]; intros s ps.
  { intros E. by exists [], ps, s. }
  intros (q & ps' & s' & -> & -> & ? & E)%run_cons.
  apply IH in E as (ps1 & ps2 & s2 & -> & -> & ? & ?).
  exists (q :: ps1), ps2, s2. simpl. rewrite app_assoc. by repeat constructor.
Qed.

Lemma run_sound r s ps t :
  run r s = Some (ps, t) → s = concat ps ++ t ∧ Forall2 item_ok r ps.
Proof.
  rewrite <-(app_nil_r r) at 1. intros (ps1 & ps2 & s' & -> & -> & ? & [= <- <-])%run_app.
  by rewrite app_nil_r.
Qed.

Lemma regex_search_sound r s pre ps t :
  regex_search r s = Some (pre, ps, t) →
  s = pre ++ concat ps ++ t ∧ run r (concat ps ++ t) = Some (ps, t) ∧
  (∀ a b, pre = a ++ b → b ≠ [] → run r (b ++ concat ps ++ t) = None).
Proof.
  revert pre ps t; induction s as [|b s IH]; intros pre ps t; simpl.
  - destruct (run r []) as [[ps' t']|] eqn:E; [|done]. intros [= <- <- <-].
    pose proof (run_sound _ _ _ _ E) as [<- _]. split_and!; [done..|].
    by intros [|] [|].
  - destruct (run r (b :: s)) as [[ps' t']|] eqn:E.
    { intros [= <- <- <-]. pose proof (run_sound _ _ _ _ E) as [<- _]. split_and!; [done..|].
      by intros [|] [|]. }
    destruct (regex_search r s) as [[[pre' ps'] t']|]; [|done]. intros [= <- <- <-].
    destruct (IH _ _ _ eq_refl) as (-> & ? & Hpre). split_and!; [done..|].
    intros [|x a] b0; simpl; [by intros <- _|]. intros [= <- ?] ?. by apply (Hpre a).
Qed.

(** The matches of the iterator lie in the text. *)
Lemma regex_matches_in r s :
  Forall (λ m, Forall2 item_ok r m.2 ∧ ∃ a b, s = a ++ whole m.2 ++ b) (regex_matches r s).
Proof.
  unfold regex_matches. generalize (length s) as fuel. intros fuel.
  revert s; induction fuel as [|fuel IH]; intros s; simpl; [done|].
  destruct (regex_search r s) as [[[pre ps] t]|] eqn:E; [|done].
  apply regex_search_sound in E as (-> & E & _). apply run_sound in E as [_ ?].
  constructor; [by eauto|]. eapply list.Forall_impl; [apply IH|].
  intros m [? (a & b & ->)]. split; [done|]. exists (pre ++ concat ps ++ a), b.
  by rewrite <-!app_assoc.
Qed.

Lemma whole_split (ps : list text) i :
  (i < length ps)%nat → whole ps = whole (take i ps) ++ group ps i ++ whole (drop (S i) ps).
Proof.
  unfold whole, group. revert i; induction ps as [|q ps IH]; intros [|i] Hi; simpl in *; try lia.
  - done.
  - rewrite (IH i) by lia. by rewrite <-app_assoc.
Qed.

(** ** Which match is found *)

Lemma strip_self l s : strip l (l ++ s) = Some s.
Proof. by apply strip_app. Qed.

Lemma strip_head x l y s : x ≠ y → strip (x :: l) (y :: s) = None.
Proof. intros ?. simpl. by rewrite bool_decide_eq_false_2. Qed.

(** What a list starts with; its class. *)
Definition starts_not (p : byte → bool) (s : text) : Prop :=
  match s with b :: _ => p b = false | [] => True end.

(** A greedy item takes everything of its class when the rest of the pattern
    accepts what follows. *)
Lemma greedy_all p k q s ps t :
  Forall (λ b, p b = true) q → starts_not p s → k s = Some (ps, t) →
  greedy p k (q ++ s) = Some (q :: ps, t).
Proof.
  intros Hq Hs Hk. induction Hq as [|b q Hb _ IH]; simpl.
  - destruct s as [|b s]; simpl in *; [|rewrite Hs]; by rewrite Hk.
  - by rewrite Hb, IH.
Qed.

(** A lazy item stops at the first place the rest of the pattern accepts. *)
Lemma lazy_first p k q s ps t :
  Forall (λ b, p b = true) q → k s = Some (ps, t) →
  (∀ a b, q = a ++ b → b ≠ [] → k (b ++ s) = None) →
  lazy p k (q ++ s) = Some (q :: ps, t).
Proof.
  intros Hq Hk. induction Hq as [|b q Hb _ IH]; intros Hn; simpl.
  - destruct s; simpl; by rewrite Hk.
  - rewrite (Hn [] (b :: q) eq_refl ltac:(done) : k (b :: q ++ s) = None), Hb, IH; [done|].
    intros a c -> ?. by apply (Hn (b :: a)).
Qed.

Lemma lazy_minimal p k s q ps t :
  lazy p k s = Some (q :: ps, t) →
  ∃ s', s = q ++ s' ∧ k s' = Some (ps, t) ∧ ∀ a b, q = a ++ b → b ≠ [] → k (b ++ s') = None.
Proof.
  revert q; induction s as [|b s IH]; intros q; simpl.
  - destruct (k []) as [[ps' t']|] eqn:E; [|done]. intros [= <- <- <-]. exists [].
    split_and!; [done..|]. by intros [|] [|].
  - destruct (k (b :: s)) as [[ps' t']|] eqn:E.
    { intros [= <- <- <-]. exists (b :: s). split_and!; [done..|]. by intros [|] [|]. }
    destruct (p b) eqn:Hb; [|done]. destruct (lazy p k s) as [[[|q1 ps1] t1]|] eqn:El; [|
      |done]; simpl.
    { by apply lazy_sound in El as (? & ? & ? & [= ] & _). }
    intros [= <- -> ->]. destruct (IH _ eq_refl) as (s' & -> & ? & Hm). exists s'.
    split_and!; [done..|]. intros [|x a] c; simpl; [by intros <- _|].
    intros [= <- ->] ?. by apply (Hm a).
Qed.

Lemma run_lazy_minimal p r s q ps t :
  run (Lazy p :: r) s = Some (q :: ps, t) →
  ∃ s', s = q ++ s' ∧ run r s' = Some (ps, t) ∧
    ∀ a b, q = a ++ b → b ≠ [] → run r (b ++ s') = None.
Proof. apply lazy_minimal. Qed.

(** The search skips a prefix at none of whose positions the pattern matches. *)
Lemma search_skip r pre s ps t :
  run r s = Some (ps, t) →
  (∀ a b, pre = a ++ b → b ≠ [] → run r (b ++ s) = None) →
  regex_search r (pre ++ s) = Some (pre, ps, t).
Proof.
  intros Hs. induction pre as [|b pre IH]; intros Hn; simpl.
  - destruct s; simpl; by rewrite Hs.
  - rewrite (Hn [] (b :: pre) eq_refl ltac:(done) : run r (b :: pre ++ s) = None), IH; [done|].
    intros a c -> ?. by apply (Hn (b :: a)).
Qed.

Lemma search_none r s :
  (∀ a b, s = a ++ b → run r b = None) → regex_search r s = None.
Proof.
  induction s as [|b s IH]; intros Hn; simpl; rewrite (Hn [] _ eq_refl); [done|].
  rewrite IH; [done|]. intros a c ->. by apply (Hn (b :: a)).
Qed.

Lemma search_none_inv r s a b : regex_search r s = None → s = a ++ b → run r b = None.
Proof.
  revert s; induction a as [|x a IH]; intros s Hs ->; simpl in *.
  - destruct b; simpl in Hs; by destruct (run r _) as [[? ?]|].
  - destruct (run r (x :: a ++ b)) as [[? ?]|]; [done|].
    destruct (regex_search r (a ++ b)) as [[[? ?] ?]|] eqn:E; [done|]. by eapply IH.
Qed.

(** A pattern that starts with a literal matches only where its first character is. *)
Lemma run_lit_head x l r y s : x ≠ y → run (Lit (x :: l) :: r) (y :: s) = None.
Proof. intros ?. cbn -[strip]. by rewrite strip_head. Qed.

Lemma search_lit_none x l r s : x ∉ s → regex_search (Lit (x :: l) :: r) s = None.
Proof.
  intros Hx. apply search_none. intros a [|y b] ->; [done|].
  apply run_lit_head. intros ->. apply Hx. apply elem_of_app. right. left.
Qed.

Lemma search_lit_skip x l r pre s ps t :
  x ∉ pre → run (Lit (x :: l) :: r) s = Some (ps, t) →
  regex_search (Lit (x :: l) :: r) (pre ++ s) = Some (pre, ps, t).
Proof.
  intros Hx Hs. apply search_skip; [done|]. intros a [|y b] -> ?; [done|].
  apply run_lit_head. intros ->. apply Hx. apply elem_of_app. right. left.
Qed.

(** ** Occurrences *)

Fixpoint occurs (pat s : text) : bool :=
  bool_decide (is_Some (strip pat s)) ||
  match s with [] => false | _ :: s' => occurs pat s' end.

Lemma occurs_false pat s : occurs pat s = false ↔ ∀ a b, s ≠ a ++ pat ++ b.
Proof.
  assert (∀ s, ¬ is_Some (strip pat s) ↔ ∀ b, s ≠ pat ++ b) as Hstrip.
  { intros s'. split.
    - intros Hn b E. apply Hn. exists b. by apply strip_app.
    - intros Hn [b E]. apply strip_app in E. by apply (Hn b). }
  induction s as [|x s IH]; simpl; rewrite orb_false_iff, bool_decide_eq_false, Hstrip.
  - split; [intros [Hn _] [|y a] b E; [by apply (Hn b)|done]|].
    intros Hn. split; [|done]. intros b. apply (Hn []).
  - rewrite IH. split.
    + intros [Hn Hs] [|y a] b E; [by apply (Hn b)|]. injection E as -> E. by apply (Hs a b).
    + intros Hn. split; [intros b; apply (Hn [])|]. intros a b ->. by apply (Hn (x :: a) b).
Qed.

Lemma occurs_pair_app x y s1 s2 :
  occurs [x; y] s1 = false → occurs [x; y] s2 = false →
  list.last s1 ≠ Some x ∨ list.head s2 ≠ Some y →
  occurs [x; y] (s1 ++ s2) = false.
Proof.
  rewrite !occurs_false. intros H1 H2 Hl a b E.
  assert ((∃ m, a = s1 ++ m ∧ s2 = m ++ [x; y] ++ b) ∨
          (∃ m, s1 = a ++ [x; y] ++ m) ∨ (s1 = a ++ [x] ∧ s2 = y :: b)) as [Hc|[Hc|Hc]].
  { apply app_eq_inv in E as [(m & -> & E)|(m & -> & E)].
    - destruct m as [|z m]; simpl in E.
      { left. exists []. by rewrite !app_nil_r. }
      injection E as <- E. destruct m as [|z m]; simpl in E; [by right; right|].
      injection E as <- E. right. left. by exists m.
    - left. by exists m. }
  - destruct Hc as (m & -> & ->). by apply (H2 m b).
  - destruct Hc as (m & ->). by apply (H1 a m).
  - destruct Hc as [-> ->]. rewrite last_snoc in Hl. by destruct Hl.
Qed.

(** A character outside the pattern separates its occurrences. *)
Lemma occurs_sep pat c s1 s2 :
  c ∉ pat → occurs pat s1 = false → occurs pat s2 = false → occurs pat (s1 ++ c :: s2) = false.
Proof.
  rewrite !occurs_false. intros Hc H1 H2 a b E.
  apply app_eq_inv in E as [(m & -> & E)|(m & -> & E)].
  - apply app_eq_inv in E as [(k & -> & E)|(k & -> & _)]; [|by apply (H1 a k)].
    destruct k as [|x k]; simpl in E.
    + apply (H1 a []). by rewrite !app_nil_r.
    + injection E as <- _. apply Hc, elem_of_app. right. left.
  - destruct m as [|x m]; simpl in E.
    + destruct pat as [|y pat].
      * by apply (H1 s1 []); rewrite app_nil_r.
      * injection E as -> _. apply Hc. left.
    + injection E as -> E. by apply (H2 m b).
Qed.

Lemma occurs_nil x pat : occurs (x :: pat) [] = false.
Proof. done. Qed.

(** Searching a pattern that starts with a word, behind a text without the word. *)
Lemma search_word_skip w r pre c s ps t :
  c ∉ w → occurs w (pre ++ [c]) = false → run (Lit w :: r) s = Some (ps, t) →
  regex_search (Lit w :: r) ((pre ++ [c]) ++ s) = Some (pre ++ [c], ps, t).
Proof.
  intros Hc Hocc Hs. apply search_skip; [done|]. intros a b E Hb.
  cbn [run]. destruct (strip w (b ++ s)) as [s'|] eqn:Ew; [|done]. apply strip_app in Ew.
  destruct (exists_last Hb) as (b' & x & ->).
  assert (x = c ∧ pre = a ++ b') as [-> ->].
  { rewrite app_assoc in E. by apply app_inj_tail in E as [-> ->]. }
  apply app_eq_inv in Ew as [(k & Ek & _)|(k & Ek & _)].
  - rewrite occurs_false in Hocc. destruct (Hocc a k). by rewrite <-app_assoc, Ek.
  - destruct Hc. rewrite Ek. apply elem_of_app. left. apply elem_of_app. right. left.
Qed.
