(* ===== verification/Numbers.v ===== *)
(** * Numbers in the text format: std::stoi, std::stoul, std::stod and friends

    The text format writes numbers with [std::to_string] and reads them with the
    conversions of [<string>].  Those wrap [strtol], [strtoul] and [strtod]: skip
    white space, take the longest prefix that is a number, ignore what follows;
    [std::invalid_argument] when there is none, [std::out_of_range] when [errno]
    is [ERANGE] or the result does not fit.  LP64, C locale.  Rounding is to
    nearest, underflow is detected before rounding, and [nan(chars)] is the
    default NaN.

    What [std::to_string] prints these conversions read back
    ([sto_signed_to_string], [sto_unsigned_to_string]). *)

From stdpp Require Import pretty.
From S2P Require Import Prelude Float Regex.
#[local] Open Scope Z_scope.

(** What the conversions throw, with the name of the function; and what
    [std::get] throws. *)
Inductive std_exception : Type :=
| invalid_argument (fn : string)
| out_of_range (fn : string)
| bad_variant_access.

(** ** Integers *)

Definition digit (b : byte) : bool := (48 <=? u8 b) && (u8 b <=? 57).

Fixpoint skip_spaces (s : text) : text :=
  match s with
  | b :: s' => if space b then skip_spaces s' else s
  | [] => []
  end.

(** The sign, and what follows it. *)
Definition read_sign (s : text) : bool * text :=
  match s with
  | b :: s' => if u8 b =? 45 then (true, s') else if u8 b =? 43 then (false, s') else (false, s)
  | [] => (false, [])
  end.

Fixpoint read_digits (s : text) (acc : Z) : Z :=
  match s with
  | b :: s' => if digit b then read_digits s' (10 * acc + (u8 b - 48)) else acc
  | [] => acc
  end.

(** Sign and magnitude in base 10; [None]: no conversion. *)
Definition strto (s : text) : option (bool * Z) :=
  let (neg, s) := read_sign (skip_spaces s) in
  match s with
  | b :: _ => if digit b then Some (neg, read_digits s 0) else None
  | [] => None
  end.

(** [fn] is the function's name, [w] the width of its result. *)
Definition sto_signed (fn : string) (w : Z) (s : text) : Z + std_exception :=
  match strto s with
  | None => inr (invalid_argument fn)
  | Some (neg, m) =>
      let z := if neg : bool then - m else m in
      if (- 2 ^ (w - 1) <=? z) && (z <? 2 ^ (w - 1)) then inl z else inr (out_of_range fn)
  end.

(** [strtoul] negates in the unsigned type. *)
Definition sto_unsigned (fn : string) (s : text) : Z + std_exception :=
  match strto s with
  | None => inr (invalid_argument fn)
  | Some (neg, m) =>
      if m <? 2 ^ 64 then inl (if neg : bool then wrap 64 (- m) else m) else inr (out_of_range fn)
  end.

Definition stoi : text → Z + std_exception := sto_signed "stoi" 32.
Definition stol : text → Z + std_exception := sto_signed "stol" 64.
Definition stoll : text → Z + std_exception := sto_signed "stoll" 64.
Definition stoul : text → Z + std_exception := sto_unsigned "stoul".
Definition stoull : text → Z + std_exception := sto_unsigned "stoull".

Example sto_examples :
  stoi (str_bytes " -12x") = inl (-12) ∧ stoi (str_bytes "x") = inr (invalid_argument "stoi") ∧
  stoi (str_bytes "2147483648") = inr (out_of_range "stoi") ∧
  stoul (str_bytes "-1") = inl (2 ^ 64 - 1).
Proof. by vm_compute. Qed.

(** ** Floating point *)

(** The integer [k] with [2^k <= num / den < 2^(k+1)]. *)
Definition floor_log2 (num den : Z) : Z :=
  let k := Z.log2 num - Z.log2 den in
  if num * 2 ^ Z.max 0 (- k) <? den * 2 ^ Z.max 0 k then k - 1 else k.

(** The value [num / den >= 0] in format [f], and whether [errno] is [ERANGE]. *)
Definition nearest (f : fmt) (num den : Z) : Z * bool :=
  if num =? 0 then (0, false) else
  let fl := floor_log2 num den in
  let emin := 1 - fbias f - mbits f in
  let e := Z.max emin (fl - mbits f) in
  let n := num * 2 ^ Z.max 0 (- e) in
  let d := den * 2 ^ Z.max 0 e in
  let bits := (e - emin) * 2 ^ mbits f + round_half_even n d in
  let inf := (2 ^ ebits f - 1) * 2 ^ mbits f in
  if inf <=? bits then (inf, true)
  else (bits, (fl <? 1 - fbias f) && negb (n mod d =? 0)).

(** The value of a digit in bases up to 16. *)
Definition digit_of (base : Z) (b : byte) : option Z :=
  let n := u8 b in
  let v := if digit b then n - 48
           else if (97 <=? n) && (n <=? 102) then n - 87
           else if (65 <=? n) && (n <=? 70) then n - 55 else 16 in
  if v <? base then Some v else None.

(** A hexadecimal digit, as [%x] prints it. *)
Definition hex_digit (n : Z) : byte :=
  nth (Z.to_nat n) (str_bytes "0123456789abcdef") x30.

(** Digits read, their number, the rest. *)
Fixpoint read_base (base : Z) (s : text) (acc n : Z) : Z * Z * text :=
  match s with
  | b :: s' =>
      match digit_of base b with
      | Some v => read_base base s' (base * acc + v) (n + 1)
      | None => (acc, n, s)
      end
  | [] => (acc, n, [])
  end.

(** Mantissa, digits behind the point, the rest; [None]: no digit. *)
Definition read_mantissa (base : Z) (s : text) : option (Z * Z * text) :=
  let '(m, n1, s1) := read_base base s 0 0 in
  match s1 with
  | b :: s2 =>
      if u8 b =? 46 then
        let '(m, n2, s3) := read_base base s2 m 0 in
        if n1 + n2 =? 0 then None else Some (m, n2, s3)
      else if n1 =? 0 then None else Some (m, 0, s1)
  | [] => if n1 =? 0 then None else Some (m, 0, [])
  end.

(** The exponent behind the letter [lower]/[upper], 0 when there is none. *)
Definition read_exponent (lower upper : Z) (s : text) : Z :=
  match s with
  | b :: s' =>
      if (u8 b =? lower) || (u8 b =? upper) then
        let (neg, s') := read_sign s' in
        let m := read_digits s' 0 in if neg : bool then - m else m
      else 0
  | [] => 0
  end.

Definition to_lower (b : byte) : Z := if (65 <=? u8 b) && (u8 b <=? 90) then u8 b + 32 else u8 b.
Definition starts (w : string) (s : text) : bool :=
  bool_decide (to_lower <$> take (String.length w) s = to_lower <$> str_bytes w).

(** [m * base^e] *)
Definition scaled (f : fmt) (m base e : Z) : Z * bool :=
  if 0 <=? e then nearest f (m * base ^ e) 1 else nearest f m (base ^ (- e)).

(** The magnitude. *)
Definition strtod_magnitude (f : fmt) (s : text) : option (Z * bool) :=
  let inf := (2 ^ ebits f - 1) * 2 ^ mbits f in
  if starts "inf" s then Some (inf, false)
  else if starts "nan" s then Some (inf + 2 ^ (mbits f - 1), false)
  else
    let hex := if starts "0x" s then read_mantissa 16 (drop 2 s) else None in
    match hex with
    | Some (m, n, s) => Some (scaled f m 2 (read_exponent 112 80 s - 4 * n))
    | None =>
        match read_mantissa 10 s with
        | Some (m, n, s) => Some (scaled f m 10 (read_exponent 101 69 s - n))
        | None => None
        end
    end.

Definition strtod (f : fmt) (s : text) : option (Z * bool) :=
  let (neg, s) := read_sign (skip_spaces s) in
  match strtod_magnitude f s with
  | Some (m, erange) => Some ((if neg : bool then 2 ^ (ebits f + mbits f) + m else m), erange)
  | None => None
  end.

Definition sto_float (fn : string) (f : fmt) (s : text) : Z + std_exception :=
  match strtod f s with
  | None => inr (invalid_argument fn)
  | Some (bits, erange) => if erange : bool then inr (out_of_range fn) else inl bits
  end.

Definition stof : text → Z + std_exception := sto_float "stof" f32.
Definition stod : text → Z + std_exception := sto_float "stod" f64.

Example stod_examples :
  stod (str_bytes "1.5") = inl 0x3ff8000000000000 ∧
  stod (str_bytes "-0.1") = inl 0xbfb999999999999a ∧
  stof (str_bytes " 16777217") = inl 0x4b800000 ∧
  stod (str_bytes "0x1.8p-1") = inl 0x3fe8000000000000 ∧
  stod (str_bytes "1e400") = inr (out_of_range "stod") ∧
  stod (str_bytes "4.9e-324") = inr (out_of_range "stod") ∧
  stof (str_bytes "-inf") = inl 0xff800000 ∧
  stod (str_bytes ".") = inr (invalid_argument "stod") ∧
  stod (str_bytes "0.000001") = inl 0x3eb0c6f7a0b5ed8d.
Proof. by vm_compute. Qed.

(** ** What [std::to_string] prints is read back *)

Lemma str_bytes_String a s : str_bytes (String a s) = Ascii.byte_of_ascii a :: str_bytes s.
Proof. done. Qed.

Lemma str_bytes_app s1 s2 : str_bytes (String.append s1 s2) = str_bytes s1 ++ str_bytes s2.
Proof.
  induction s1 as [|a s1 IH]; [done|].
  change (String.append (String a s1) s2) with (String a (String.append s1 s2)).
  by rewrite !str_bytes_String, IH.
Qed.

(** Digits that denote [n] behind any accumulated prefix. *)
Definition digits_of (n : Z) (ds : text) : Prop :=
  Forall (λ b, digit b = true) ds ∧
  ∀ rest acc, read_digits (ds ++ rest) acc = read_digits rest (acc * 10 ^ Z.of_nat (length ds) + n).

Lemma pretty_digit x : (x < 10)%N → digits_of (Z.of_N x) [Ascii.byte_of_ascii (pretty_N_char x)].
Proof.
  intros Hx. assert (x ∈ [0; 1; 2; 3; 4; 5; 6; 7; 8; 9])%N as Hin by (apply list_elem_of_In; simpl; lia).
  repeat (apply elem_of_cons in Hin as [->|Hin];
    [split; [by repeat constructor|]; intros rest acc; cbn; f_equal; lia|]).
  by apply not_elem_of_nil in Hin.
Qed.

Lemma digits_of_app m n ds es :
  digits_of m ds → digits_of n es → digits_of (m * 10 ^ Z.of_nat (length es) + n) (ds ++ es).
Proof.
  intros [Hd Rd] [He Re]. split; [by apply Forall_app|]. intros rest acc.
  rewrite <-app_assoc, Rd, Re, length_app, Nat2Z.inj_add, Z.pow_add_r by lia. f_equal. ring.
Qed.

Lemma pretty_N_go_digits x s :
  ∃ ds, str_bytes (pretty_N_go x s) = ds ++ str_bytes s ∧ digits_of (Z.of_N x) ds ∧
        (x ≠ 0%N → ds ≠ []) ∧
        ∀ k, Z.of_N x < 10 ^ Z.of_nat k → (length ds ≤ k)%nat.
Proof.
  revert s. induction (N.lt_wf_0 x) as [x _ IH]; intros s.
  destruct (decide (x = 0)%N) as [->|Hx].
  { exists []. split_and!; [done| |done|simpl; lia]. split; [constructor|].
    intros rest acc. cbn. f_equal. lia. }
  rewrite pretty_N_go_step by lia.
  destruct (IH (x `div` 10)%N ltac:(apply N.div_lt; lia)
    (String (pretty_N_char (x `mod` 10)) s)) as (ds & -> & Hds & _ & Hlen).
  exists (ds ++ [Ascii.byte_of_ascii (pretty_N_char (x `mod` 10))]).
  split_and!; [by rewrite str_bytes_String, <-app_assoc| |by destruct ds|].
  2:{ intros [|k] Hk; [simpl in Hk; lia|]. rewrite length_app. cbn [length].
      rewrite Nat2Z.inj_succ, Z.pow_succ_r in Hk by lia.
      specialize (Hlen k). rewrite N2Z.inj_div in Hlen.
      assert (Z.of_N x `div` 10 < 10 ^ Z.of_nat k) by (apply Z.div_lt_upper_bound; lia). lia. }
  pose proof (digits_of_app _ _ _ _ Hds (pretty_digit (x `mod` 10) ltac:(apply N.mod_lt; lia)))
    as H.
  replace (Z.of_N x) with
    (Z.of_N (x `div` 10) * 10 ^ Z.of_nat (length [Ascii.byte_of_ascii (pretty_N_char (x `mod` 10))])
     + Z.of_N (x `mod` 10)); [done|].
  cbn [length]. rewrite (N.div_mod x 10) at 3 by lia. lia.
Qed.

Lemma pretty_N_digits x :
  ∃ ds, str_bytes (pretty x) = ds ∧ digits_of (Z.of_N x) ds ∧ ds ≠ [] ∧
        ∀ k, Z.of_N x < 10 ^ Z.of_nat (S k) → (length ds ≤ S k)%nat.
Proof.
  unfold pretty, pretty_N. case_decide as Hx.
  - subst. exists [x30]. split_and!; [done| |done|intros; simpl; lia].
    apply (pretty_digit 0). lia.
  - destruct (pretty_N_go_digits x "") as (ds & E & H & Hne & Hl). exists ds.
    rewrite E. cbn. rewrite app_nil_r. auto.
Qed.

(** [std::to_string] of an integer: a sign and digits. *)
Lemma to_string_digits z :
  ∃ ds, str_bytes (to_string z) = (if z <? 0 then [x2d] else []) ++ ds ∧
        digits_of (Z.abs z) ds ∧ ds ≠ [] ∧
        ∀ k, Z.abs z < 10 ^ Z.of_nat (S k) → (length ds ≤ S k)%nat.
Proof.
  destruct z as [|p|p].
  - exists [x30]. split_and!; [done| |done|intros; simpl; lia]. apply (pretty_digit 0). lia.
  - change (to_string (Z.pos p)) with (pretty (N.pos p)).
    destruct (pretty_N_digits (N.pos p)) as (ds & -> & ? & ? & ?). by exists ds.
  - change (to_string (Z.neg p)) with (String.append "-" (pretty (N.pos p))).
    destruct (pretty_N_digits (N.pos p)) as (ds & E & ? & ? & ?). exists ds.
    by rewrite str_bytes_app, E.
Qed.

Lemma digit_not_space b : digit b = true → space b = false.
Proof. destruct b; vm_compute; congruence. Qed.

Lemma digit_not_sign b : digit b = true → (u8 b =? 45) = false ∧ (u8 b =? 43) = false.
Proof. destruct b; vm_compute; auto; congruence. Qed.

Lemma strto_to_string z : strto (str_bytes (to_string z)) = Some (z <? 0, Z.abs z).
Proof.
  destruct (to_string_digits z) as (ds & -> & [Hd Hr] & Hne & _).
  destruct Hd as [|b ds Hb Hd]; [done|]. specialize (Hr [] 0).
  rewrite app_nil_r in Hr. simpl read_digits in Hr at 2.
  assert (read_digits (b :: ds) 0 = Z.abs z) as Hv by (rewrite Hr; lia).
  unfold strto. destruct (z <? 0).
  - cbn [app skip_spaces]. change (space x2d) with false. cbn [read_sign].
    change (u8 x2d =? 45) with true. cbv iota. by rewrite Hb, Hv.
  - cbn [app skip_spaces]. rewrite digit_not_space by done. cbn [read_sign].
    destruct (digit_not_sign b Hb) as [-> ->]. by rewrite Hb, Hv.
Qed.

Lemma sto_signed_to_string fn w z :
  - 2 ^ (w - 1) ≤ z < 2 ^ (w - 1) → sto_signed fn w (str_bytes (to_string z)) = inl z.
Proof.
  intros Hz. unfold sto_signed. rewrite strto_to_string.
  replace (if z <? 0 then - Z.abs z else Z.abs z) with z by (destruct (Z.ltb_spec z 0); lia).
  destruct (Z.leb_spec (- 2 ^ (w - 1)) z); [|lia].
  by destruct (Z.ltb_spec z (2 ^ (w - 1))); [|lia].
Qed.

Lemma sto_unsigned_to_string fn z :
  0 ≤ z < 2 ^ 64 → sto_unsigned fn (str_bytes (to_string z)) = inl z.
Proof.
  intros Hz. unfold sto_unsigned. rewrite strto_to_string, Z.abs_eq by lia.
  destruct (Z.ltb_spec z (2 ^ 64)); [|lia]. by destruct (Z.ltb_spec z 0); [lia|].
Qed.
