(* ===== verification/Decimal.v ===== *)
(** * Floating point through its decimal text

    [std::to_string] prints six decimals; [std::stod] and [std::stof] round what
    they read to the nearest value.  The composition never overflows or
    underflows ([stod_to_string], [stof_to_string]), and is the identity on values that six
    decimals express ([printed_exact]). *)

From S2P Require Import Prelude Float Regex Numbers.
#[local] Open Scope Z_scope.

(** ** The binary logarithm of a quotient *)

Lemma pow2_pos k : 0 ≤ k → 0 < 2 ^ k.
Proof. intros. by apply Z.pow_pos_nonneg. Qed.
#[local] Hint Resolve pow2_pos : core.

(** Comparisons of [num / den] with a power of two, at any scale. *)
Lemma scale_lt a b s t d : 0 ≤ s → 0 ≤ t → 0 ≤ d →
  a * 2 ^ s < b * 2 ^ t ↔ a * 2 ^ (s + d) < b * 2 ^ (t + d).
Proof.
  intros. rewrite !Z.pow_add_r, !Z.mul_assoc by lia.
  apply Z.mul_lt_mono_pos_r. auto.
Qed.

Lemma floor_log2_spec num den s :
  0 < num → 0 < den → 0 ≤ s → 0 ≤ floor_log2 num den + s →
  den * 2 ^ (floor_log2 num den + s) ≤ num * 2 ^ s < den * 2 ^ (floor_log2 num den + s + 1).
Proof.
  intros Hn Hd Hs Hf.
  pose proof (Z.log2_spec num Hn) as [Hn1 Hn2]. pose proof (Z.log2_spec den Hd) as [Hd1 Hd2].
  pose proof (Z.log2_nonneg num). pose proof (Z.log2_nonneg den).
  set (ln := Z.log2 num) in *. set (ld := Z.log2 den) in *.
  rewrite Z.pow_succ_r in Hn2, Hd2 by lia. unfold floor_log2 in *. fold ln ld in Hf |- *.
  set (k := ln - ld) in *.
  assert (∀ t, 0 ≤ t → 0 ≤ k + t →
    2 ^ (k + t) * 2 ^ ld = 2 ^ ln * 2 ^ t) as Hk.
  { intros t ??. rewrite <-!Z.pow_add_r by lia. f_equal. lia. }
  destruct (Z.ltb_spec (num * 2 ^ Z.max 0 (- k)) (den * 2 ^ Z.max 0 k)) as [Hb|Hb].
  - apply (scale_lt _ _ _ _ (s - Z.max 0 (- k))) in Hb; [|lia..].
    replace (Z.max 0 (- k) + (s - Z.max 0 (- k))) with s in Hb by lia.
    replace (Z.max 0 k + (s - Z.max 0 (- k))) with (k - 1 + s + 1) in Hb by lia.
    split; [|done]. specialize (Hk s ltac:(lia) ltac:(lia)).
    replace (k + s) with (k - 1 + s + 1) in Hk by lia.
    rewrite (Z.pow_add_r 2 _ 1) in Hk by lia.
    pose proof (pow2_pos s Hs). pose proof (pow2_pos (k - 1 + s) ltac:(lia)). nia.
  - split.
    + apply Z.nlt_ge. intros Hc. apply Z.nlt_ge in Hb. apply Hb.
      apply (scale_lt _ _ _ _ (s - Z.max 0 (- k))); [lia..|].
      replace (Z.max 0 (- k) + (s - Z.max 0 (- k))) with s by lia.
      by replace (Z.max 0 k + (s - Z.max 0 (- k))) with (k + s) by lia.
    + specialize (Hk s ltac:(lia) ltac:(lia)). rewrite (Z.pow_add_r 2 _ 1) by lia.
      pose proof (pow2_pos s Hs). pose proof (pow2_pos (k + s) ltac:(lia)). nia.
Qed.

(** From a comparison with [2^K] to one of the logarithm. *)
Lemma floor_log2_lt num den K :
  0 < num → 0 < den → num * 2 ^ Z.max 0 (- K) < den * 2 ^ Z.max 0 K → floor_log2 num den < K.
Proof.
  intros Hn Hd HK. apply Z.nle_gt. intros Hc.
  set (s := Z.max 0 (- K)) in *.
  pose proof (floor_log2_spec num den s Hn Hd ltac:(lia) ltac:(lia)) as [Hl _].
  assert (2 ^ Z.max 0 K ≤ 2 ^ (floor_log2 num den + s)) by (apply Z.pow_le_mono_r; lia). nia.
Qed.

Lemma floor_log2_ge num den K :
  0 < num → 0 < den → den * 2 ^ Z.max 0 K ≤ num * 2 ^ Z.max 0 (- K) → K ≤ floor_log2 num den.
Proof.
  intros Hn Hd HK. apply Z.nlt_ge. intros Hc.
  set (s := Z.max 0 (- floor_log2 num den)).
  pose proof (floor_log2_spec num den s Hn Hd ltac:(lia) ltac:(lia)) as [_ Hl].
  set (d := s - Z.max 0 (- K)).
  assert (den * 2 ^ (Z.max 0 K + d) ≤ num * 2 ^ s) as HK'.
  { replace s with (Z.max 0 (- K) + d) by lia. rewrite !Z.pow_add_r by lia.
    pose proof (pow2_pos d ltac:(lia)). nia. }
  assert (2 ^ (floor_log2 num den + s + 1) ≤ 2 ^ (Z.max 0 K + d)) by (apply Z.pow_le_mono_r; lia).
  nia.
Qed.

(** ** Rounding *)

Lemma round_half_even_le n d B : 0 < d → 0 ≤ n ≤ d * B → round_half_even n d ≤ B.
Proof.
  intros Hd Hn. unfold round_half_even. cbv zeta.
  pose proof (Z.div_mod n d ltac:(lia)). pose proof (Z.mod_pos_bound n d Hd).
  assert (n / d ≤ B) by (apply Z.div_le_upper_bound; lia).
  destruct (Z.ltb_spec (2 * (n mod d)) d); simpl; [done|].
  case_match; [done|]. assert (n / d ≠ B) by (intros E; rewrite E in *; lia). lia.
Qed.

Lemma round_half_even_nonneg n d : 0 < d → 0 ≤ n → 0 ≤ round_half_even n d.
Proof.
  intros Hd Hn. unfold round_half_even. cbv zeta. pose proof (Z.div_pos n d Hn Hd).
  case_match; lia.
Qed.

Lemma round_half_even_exact q d : 0 < d → round_half_even (q * d) d = q.
Proof.
  intros Hd. unfold round_half_even. cbv zeta. rewrite Z.mod_mul, Z.div_mul by lia.
  destruct (Z.ltb_spec (2 * 0) d); [done|lia].
Qed.

(** Cancelling a common factor. *)
Lemma round_half_even_scale n d c : 0 < d → 0 < c →
  round_half_even (n * c) (d * c) = round_half_even n d.
Proof.
  intros Hd Hc. unfold round_half_even. cbv zeta.
  rewrite Z.div_mul_cancel_r, Z.mul_mod_distr_r by lia.
  replace (2 * (n mod d * c) <? d * c) with (2 * (n mod d) <? d).
  2:{ destruct (Z.ltb_spec (2 * (n mod d)) d), (Z.ltb_spec (2 * (n mod d * c)) (d * c)); nia. }
  replace (2 * (n mod d * c) =? d * c) with (2 * (n mod d) =? d); [done|].
  destruct (Z.eqb_spec (2 * (n mod d)) d), (Z.eqb_spec (2 * (n mod d * c)) (d * c)); nia.
Qed.

(** ** The nearest value of a format *)

Definition infinity (f : fmt) : Z := (2 ^ ebits f - 1) * 2 ^ mbits f.

Class ieee (f : fmt) : Prop := Ieee {
  ieee_ebits : 2 ≤ ebits f; ieee_mbits : 0 < mbits f; ieee_bias : mbits f < fbias f }.

#[export] Instance f32_ieee : ieee f32.
Proof. by split. Qed.
#[export] Instance f64_ieee : ieee f64.
Proof. by split. Qed.

Lemma exp_range f `{!ieee f} : 2 ^ ebits f = 2 * (fbias f + 1).
Proof.
  unfold fbias. pose proof ieee_ebits. replace (ebits f) with (Z.succ (ebits f - 1)) at 1 by lia.
  rewrite Z.pow_succ_r by lia. lia.
Qed.

Section Nearest.
Context (f : fmt) `{!ieee f}.

Let emin := 1 - fbias f - mbits f.

(** Values from [2^(1 - bias)] to below [2^bias] are rounded without an error. *)
Lemma nearest_in_range num den :
  0 ≤ num → 0 < den → num < den * 2 ^ fbias f →
  num = 0 ∨ den ≤ num * 2 ^ (fbias f - 1) →
  (nearest f num den).2 = false ∧ 0 ≤ (nearest f num den).1 < infinity f.
Proof.
  intros Hn Hd Hhi Hlo. pose proof ieee_mbits. pose proof ieee_bias.
  pose proof (exp_range f) as Hx. pose proof (pow2_pos (mbits f) ltac:(lia)) as Hm.
  unfold nearest, infinity. rewrite Hx. fold emin.
  destruct (Z.eqb_spec num 0) as [->|Hn0]; [simpl; nia|].
  set (fl := floor_log2 num den).
  assert (fl < fbias f) as Hfl.
  { apply floor_log2_lt; [lia..|]. rewrite (Z.max_l 0 (- _)), Z.max_r by lia. lia. }
  assert (1 - fbias f ≤ fl) as Hfl'.
  { apply floor_log2_ge; [lia..|]. rewrite (Z.max_l 0 (1 - _)), Z.max_r by lia.
    replace (- (1 - fbias f)) with (fbias f - 1) by lia. lia. }
  cbv zeta. set (e := Z.max emin (fl - mbits f)).
  set (q := round_half_even _ _).
  assert (0 ≤ q ≤ 2 ^ (mbits f + 1)) as [Hq0 Hq].
  { pose proof (pow2_pos (Z.max 0 (- e)) ltac:(lia)). pose proof (pow2_pos (Z.max 0 e) ltac:(lia)).
    split; [apply round_half_even_nonneg; nia|]. apply round_half_even_le; [nia|split; [nia|]].
    pose proof (floor_log2_spec num den (Z.max 0 (- fl) + Z.max 0 (- e) + mbits f) ltac:(lia) Hd
      ltac:(lia) ltac:(lia)) as [_ Hs]. fold fl in Hs.
    set (c := Z.max 0 (- fl) + mbits f) in *.
    replace (Z.max 0 (- fl) + Z.max 0 (- e) + mbits f) with (Z.max 0 (- e) + c) in Hs by lia.
    rewrite (Z.pow_add_r 2 (Z.max 0 (- e)) c), Z.mul_assoc in Hs by lia.
    assert (2 ^ (fl + (Z.max 0 (- e) + c) + 1) ≤ 2 ^ (Z.max 0 e) * 2 ^ (mbits f + 1) * 2 ^ c).
    { rewrite <-!Z.pow_add_r by lia. apply Z.pow_le_mono_r; lia. }
    pose proof (pow2_pos c ltac:(lia)). nia. }
  rewrite Z.pow_add_r in Hq by lia.
  assert (0 ≤ (e - emin) ∧ e - emin + 2 < 2 * (fbias f + 1) - 1) as [? ?] by lia.
  destruct (Z.leb_spec ((2 * (fbias f + 1) - 1) * 2 ^ mbits f) ((e - emin) * 2 ^ mbits f + q)).
  { nia. }
  cbn [fst snd]. split; [|nia]. by destruct (Z.ltb_spec fl (1 - fbias f)); [lia|].
Qed.

(** A value [m * 2^e] of the format is its own rounding. *)
Lemma nearest_exact num den m e :
  0 < m < 2 ^ (mbits f + 1) → 0 < den → emin ≤ e → e + mbits f ≤ fbias f →
  2 ^ mbits f ≤ m ∨ e = emin →
  num * 2 ^ Z.max 0 (- e) = m * den * 2 ^ Z.max 0 e →
  nearest f num den = ((e - emin) * 2 ^ mbits f + m, false).
Proof.
  intros Hm Hd He Hhi Hnorm E. pose proof ieee_mbits. pose proof ieee_bias.
  pose proof (exp_range f) as Hx. pose proof (pow2_pos (mbits f) ltac:(lia)) as Hmp.
  pose proof (pow2_pos (Z.max 0 (- e)) ltac:(lia)). pose proof (pow2_pos (Z.max 0 e) ltac:(lia)).
  assert (0 < num) as Hn by nia. rewrite Z.pow_add_r in Hm by lia.
  unfold nearest, infinity. fold emin. rewrite Hx.
  destruct (Z.eqb_spec num 0) as [?|_]; [lia|]. cbv zeta.
  assert (Z.max emin (floor_log2 num den - mbits f) = e) as ->.
  { assert (floor_log2 num den < e + mbits f + 1) as Hl.
    { apply floor_log2_lt; [done..|].
      set (c := Z.max 0 (- e) - Z.max 0 (- (e + mbits f + 1))).
      apply (Z.mul_lt_mono_pos_r (2 ^ c)); [auto with lia|].
      rewrite <-Z.mul_assoc, <-Z.pow_add_r by lia.
      replace (Z.max 0 (- (e + mbits f + 1)) + c) with (Z.max 0 (- e)) by lia. rewrite E.
      replace (den * 2 ^ Z.max 0 (e + mbits f + 1) * 2 ^ c)
        with (den * (2 ^ mbits f * 2 ^ 1) * 2 ^ Z.max 0 e); [nia|].
      rewrite <-Z.pow_add_r, <-!Z.mul_assoc, <-!Z.pow_add_r by lia. f_equal. f_equal. lia. }
    destruct Hnorm as [Hnorm| ->]; [|lia].
    assert (e + mbits f ≤ floor_log2 num den); [|lia].
    apply floor_log2_ge; [done..|].
    set (c := Z.max 0 (- e) - Z.max 0 (- (e + mbits f))).
    apply (Z.mul_le_mono_pos_r _ _ (2 ^ c)); [auto with lia|].
    rewrite <-(Z.mul_assoc num), <-Z.pow_add_r by lia.
    replace (Z.max 0 (- (e + mbits f)) + c) with (Z.max 0 (- e)) by lia. rewrite E.
    replace (den * 2 ^ Z.max 0 (e + mbits f) * 2 ^ c)
      with (den * 2 ^ mbits f * 2 ^ Z.max 0 e); [nia|].
    rewrite <-!Z.mul_assoc, <-!Z.pow_add_r by lia. f_equal. f_equal. lia. }
  rewrite E. replace (m * den * 2 ^ Z.max 0 e) with (m * (den * 2 ^ Z.max 0 e)) by ring.
  rewrite round_half_even_exact, Z.mod_mul by nia. rewrite andb_false_r.
  destruct (Z.leb_spec ((2 * (fbias f + 1) - 1) * 2 ^ mbits f) ((e - emin) * 2 ^ mbits f + m));
    [|done].
  assert (e - emin ≤ 2 * fbias f - 1) by lia. nia.
Qed.
End Nearest.

(** ** Reading what [to_string_f64] prints *)

Lemma digit_of_digit b : digit b = true → digit_of 10 b = Some (u8 b - 48).
Proof.
  unfold digit_of, digit. intros Hb. rewrite Hb.
  by destruct (Z.ltb_spec (u8 b - 48) 10); [|lia].
Qed.

Lemma read_base_digits ds rest acc n :
  Forall (λ b, digit b = true) ds →
  read_base 10 (ds ++ rest) acc n
  = read_base 10 rest (read_digits ds acc) (n + Z.of_nat (length ds)).
Proof.
  intros Hds. revert acc n. induction Hds as [|b ds Hb _ IH]; intros acc n.
  { simpl. by rewrite Z.add_0_r. }
  cbn [app read_base read_digits length]. rewrite digit_of_digit, Hb, IH by done.
  f_equal. lia.
Qed.

Lemma digits_read n ds : digits_of n ds → ∀ acc, read_digits ds acc = acc * 10 ^ Z.of_nat (length ds) + n.
Proof. intros [_ H] acc. specialize (H [] acc). by rewrite app_nil_r in H. Qed.

Lemma read_mantissa_decimal ds es m n :
  digits_of m ds → digits_of n es → ds ≠ [] →
  read_mantissa 10 (ds ++ [x2e] ++ es)
  = Some (m * 10 ^ Z.of_nat (length es) + n, Z.of_nat (length es), []).
Proof.
  intros Hm Hn Hne. unfold read_mantissa.
  rewrite read_base_digits by apply Hm. cbn [app read_base].
  change (digit_of 10 x2e) with (@None Z). cbv iota beta. change (u8 x2e =? 46) with true.
  cbv iota. rewrite <-(app_nil_r es) at 1. rewrite read_base_digits by apply Hn.
  cbn [read_base]. rewrite (digits_read _ _ Hm), (digits_read _ _ Hn).
  destruct (Z.eqb_spec (0 + Z.of_nat (length ds) + (0 + Z.of_nat (length es))) 0).
  { destruct ds; [done|simpl in *; lia]. }
  rewrite !Z.add_0_l. done.
Qed.

Lemma digits_zeros k : digits_of 0 (replicate k x30).
Proof.
  split; [apply Forall_replicate; by vm_compute|]. induction k as [|k IH]; intros rest acc.
  { cbn. f_equal. lia. }
  cbn [replicate app read_digits length]. change (digit x30) with true. cbv iota.
  rewrite IH, Nat2Z.inj_succ, Z.pow_succ_r by lia. f_equal. change (u8 x30 - 48) with 0. ring.
Qed.

Lemma str_bytes_length s : length (str_bytes s) = String.length s.
Proof. induction s as [|a s IH]; [done|]. rewrite str_bytes_String. simpl. by rewrite IH. Qed.

Lemma str_bytes_zeros k :
  str_bytes (String.concat "" (replicate k "0"%string)) = replicate k x30.
Proof.
  induction k as [|[|k] IH]; [done..|].
  change (String.concat "" (replicate (S (S k)) "0"%string))
    with (String (Ascii.Ascii false false false false true true false false) (String.concat "" (replicate (S k) "0"%string))).
  by rewrite str_bytes_String, IH.
Qed.

Lemma pad6_digits n :
  0 ≤ n < 10 ^ 6 → digits_of n (str_bytes (pad6 (to_string n))) ∧
                   length (str_bytes (pad6 (to_string n))) = 6%nat.
Proof.
  intros Hn. destruct (to_string_digits n) as (ds & E & Hds & _ & Hl).
  rewrite (proj2 (Z.ltb_ge n 0)), Z.abs_eq in * by lia. simpl app in E.
  specialize (Hl 5%nat ltac:(simpl; lia)).
  assert (str_bytes (pad6 (to_string n)) = replicate (6 - length ds) x30 ++ ds) as ->.
  { unfold pad6. by rewrite str_bytes_app, <-str_bytes_length, E, str_bytes_zeros. }
  split.
  - replace n with (0 * 10 ^ Z.of_nat (length ds) + n) by lia.
    by apply digits_of_app; [apply digits_zeros|].
  - rewrite length_app, length_replicate. lia.
Qed.

Lemma starts_digit w b s :
  digit b = true → (∀ c, head (to_lower <$> str_bytes w) = Some c → c < 48 ∨ 57 < c) → w ≠ ""%string →
  starts w (b :: s) = false.
Proof.
  intros Hb Hc Hw. unfold starts. apply bool_decide_eq_false_2. destruct w as [|a w]; [done|].
  rewrite str_bytes_String in *. simpl. intros E. injection E as E _.
  destruct (Hc _ eq_refl) as [Hl|Hl]; rewrite <-E in Hl; unfold to_lower, digit in *;
    destruct (Z.leb_spec 65 (u8 b)); simpl in Hl; try case_match; lia.
Qed.

Lemma decimal_not_hex b ds es :
  Forall (λ b, digit b = true) ds → starts "0x" (b :: ds ++ x2e :: es) = false.
Proof.
  intros Hd. unfold starts. apply bool_decide_eq_false_2. destruct Hd as [|c ds Hc _]; [done|].
  simpl. intros E. injection E as _ E. revert Hc E. clear. by destruct c; vm_compute.
Qed.

Lemma strtod_decimal f n :
  0 ≤ n →
  strtod_magnitude f (str_bytes (to_string (n / 10 ^ 6)) ++ [x2e] ++
                      str_bytes (pad6 (to_string (n mod 10 ^ 6))))
  = Some (nearest f n (10 ^ 6)).
Proof.
  intros Hn. pose proof (Z.mod_pos_bound n (10 ^ 6) ltac:(lia)) as Hr.
  destruct (to_string_digits (n / 10 ^ 6)) as (ds & -> & Hds & Hne & _).
  pose proof (Z.div_pos n (10 ^ 6) Hn ltac:(lia)).
  rewrite (proj2 (Z.ltb_ge _ 0)), Z.abs_eq in * by lia. cbn [app].
  destruct (pad6_digits _ Hr) as [Hes Hl].
  set (es := str_bytes (pad6 _)) in *.
  pose proof (read_mantissa_decimal _ _ _ _ Hds Hes Hne) as Hm.
  rewrite Hl in Hm. destruct Hds as [Hd _]. destruct Hd as [|b ds Hb Hd]; [done|].
  unfold strtod_magnitude. cbn [app] in *.
  rewrite !starts_digit by (done || (intros ? [= <-]; by right)).
  rewrite decimal_not_hex by done.
  rewrite Hm. cbn [read_exponent].
  change (Z.of_nat 6) with 6. change (0 - 6) with (-6). unfold scaled.
  change (0 <=? -6) with false. cbv iota. change (- -6) with 6.
  do 2 f_equal. pose proof (Z.div_mod n (10 ^ 6)). lia.
Qed.

(** ** What a value becomes when it is printed and read *)

(** [d] is the double that is printed. *)
Definition printed (f : fmt) (d : Z) : Z :=
  let mag :=
    if f_exp f64 d =? 2047 then
      (if f_man f64 d =? 0 then infinity f else infinity f + 2 ^ (mbits f - 1))
    else (nearest f (millionths d) (10 ^ 6)).1 in
  if f_sign f64 d =? 0 then mag else 2 ^ (ebits f + mbits f) + mag.

Lemma millionths_nonneg d : 0 ≤ millionths d.
Proof.
  unfold millionths. destruct (f_value f64 d) as [m e]. apply round_half_even_nonneg.
  - apply pow2_pos. lia.
  - pose proof (pow2_pos (Z.max 0 e)). lia.
Qed.

Lemma strtod_signed f neg s m r :
  starts_not (λ b, space b || (u8 b =? 45) || (u8 b =? 43)) s →
  strtod_magnitude f s = Some (m, r) →
  strtod f ((if neg : bool then [x2d] else []) ++ s)
  = Some ((if neg : bool then 2 ^ (ebits f + mbits f) + m else m), r).
Proof.
  intros Hs Hm. unfold strtod. destruct neg; cbn [app].
  - cbn [skip_spaces]. change (space x2d) with false. cbv iota. cbn [read_sign].
    change (u8 x2d =? 45) with true. cbv iota. by rewrite Hm.
  - destruct s as [|b s]; [cbn; cbn in Hm; by rewrite Hm|]. simpl in Hs.
    rewrite !orb_false_iff in Hs. destruct Hs as [[Hsp H45] H43].
    cbn [skip_spaces]. rewrite Hsp. cbn [read_sign]. by rewrite H45, H43, Hm.
Qed.

Lemma strtod_to_string f d :
  strtod f (str_bytes (to_string_f64 d))
  = Some (printed f d,
          if f_exp f64 d =? 2047 then false else (nearest f (millionths d) (10 ^ 6)).2).
Proof.
  unfold to_string_f64, printed.
  set (neg := negb (f_sign f64 d =? 0)).
  assert (∀ s, str_bytes (String.append (if f_sign f64 d =? 0 then ""%string else "-"%string) s)
    = (if neg then [x2d] else []) ++ str_bytes s) as ->.
  { intros s. rewrite str_bytes_app. unfold neg. by destruct (f_sign f64 d =? 0). }
  assert (∀ m : Z, (if f_sign f64 d =? 0 then m else 2 ^ (ebits f + mbits f) + m)
    = if neg then 2 ^ (ebits f + mbits f) + m else m) as ->.
  { intros m. unfold neg. by destruct (f_sign f64 d =? 0). }
  destruct (f_exp f64 d =? 2047).
  - by destruct (f_man f64 d =? 0); apply strtod_signed.
  - cbv zeta. rewrite !str_bytes_app. apply strtod_signed.
    + destruct (to_string_digits (millionths d / 10 ^ 6)) as (ds & -> & [Hds _] & Hne & _).
      pose proof (Z.div_pos _ (10 ^ 6) (millionths_nonneg d) ltac:(lia)).
      rewrite (proj2 (Z.ltb_ge _ 0)) by done. destruct Hds as [|b ds Hb _]; [done|]. simpl.
      destruct (digit_not_sign b Hb) as [-> ->]. by rewrite digit_not_space.
    + pose proof (strtod_decimal f _ (millionths_nonneg d)) as H.
      by destruct (nearest f (millionths d) (10 ^ 6)).
Qed.

(** Printing a double whose value is that of a value of [f] can be read back. *)
Lemma printable f `{!ieee f} d m e :
  (f_value f64 d).1 = m * 2 ^ (e - (f_value f64 d).2) → (f_value f64 d).2 ≤ e →
  Z.abs m < 2 ^ (mbits f + 1) → 1 - fbias f - mbits f ≤ e → e + mbits f ≤ fbias f →
  2 ^ mbits f ≤ Z.abs m ∨ e = 1 - fbias f - mbits f →
  2 ^ (mbits f + 1) < 2 ^ fbias f → 10 ^ 6 ≤ 2 ^ (fbias f - 1) →
  (nearest f (millionths d) (10 ^ 6)).2 = false.
Proof.
  intros Hv Hle Hm Hlo Hhi Hnorm Hf1 Hf2. unfold millionths.
  destruct (f_value f64 d) as [m' e']. cbn [fst snd] in *. subst m'.
  pose proof (ieee_mbits (f:=f)). pose proof (pow2_pos (e - e') ltac:(lia)).
  destruct (decide (0 ≤ e)) as [He|He].
  - assert (round_half_even (Z.abs (m * 2 ^ (e - e')) * 10 ^ 6 * 2 ^ Z.max 0 e')
      (2 ^ Z.max 0 (- e')) = Z.abs m * 10 ^ 6 * 2 ^ e) as ->.
    { rewrite Z.abs_mul, (Z.abs_eq (2 ^ _)) by lia.
      rewrite <-(round_half_even_exact (Z.abs m * 10 ^ 6 * 2 ^ e) (2 ^ Z.max 0 (- e')))
        by (apply pow2_pos; lia).
      f_equal. rewrite <-!Z.mul_assoc, <-Z.pow_add_r by lia. f_equal.
      rewrite (Z.mul_comm (10 ^ 6)), !Z.mul_assoc, <-Z.pow_add_r by lia.
      rewrite (Z.mul_comm (2 ^ _)). f_equal. f_equal. lia. }
    destruct (decide (m = 0)) as [->|]; [done|].
    by rewrite (nearest_exact f (Z.abs m * 10 ^ 6 * 2 ^ e) (10 ^ 6) (Z.abs m) e);
      [|lia|lia|lia|lia|lia|rewrite (Z.max_l 0), (Z.max_r 0) by lia; ring].
  - apply nearest_in_range; [done|apply round_half_even_nonneg|lia| |].
    + apply pow2_pos; lia.
    + pose proof (pow2_pos (Z.max 0 e')). nia.
    + eapply Z.le_lt_trans; [apply (round_half_even_le _ _ (2 ^ (mbits f + 1) * 10 ^ 6))|nia].
      * apply pow2_pos; lia.
      * pose proof (pow2_pos (Z.max 0 e')). split; [nia|].
        rewrite Z.abs_mul, (Z.abs_eq (2 ^ _)) by lia.
        assert (2 ^ (e - e') * 2 ^ Z.max 0 e' ≤ 2 ^ Z.max 0 (- e')).
        { rewrite <-Z.pow_add_r by lia. apply Z.pow_le_mono_r; lia. }
        assert (Z.abs m * (2 ^ (e - e') * 2 ^ Z.max 0 e') ≤ 2 ^ (mbits f + 1) * 2 ^ Z.max 0 (- e'))
          by (apply Z.mul_le_mono_nonneg; lia). lia.
    + set (n := round_half_even _ _). assert (0 ≤ n).
      { apply round_half_even_nonneg; [apply pow2_pos; lia|].
        pose proof (pow2_pos (Z.max 0 e')). nia. }
      destruct (decide (n = 0)); [by left|right]. nia.
Qed.

(** The pair [f_value] gives for a finite value is canonical. *)
Lemma f_value_canonical f `{!ieee f} b :
  0 ≤ b < 2 ^ fwidth f → f_exp f b ≠ 2 ^ ebits f - 1 →
  let (m, e) := f_value f b in
  Z.abs m < 2 ^ (mbits f + 1) ∧ 1 - fbias f - mbits f ≤ e ∧ e + mbits f ≤ fbias f ∧
  (2 ^ mbits f ≤ Z.abs m ∨ e = 1 - fbias f - mbits f) ∧
  f_mag f b = (if m =? 0 then 0 else (e - (1 - fbias f - mbits f)) * 2 ^ mbits f + Z.abs m).
Proof.
  intros Hb He. pose proof (ieee_mbits (f:=f)). pose proof (ieee_ebits (f:=f)).
  pose proof (ieee_bias (f:=f)). pose proof (exp_range f) as Hx.
  destruct (f_fields_range f b ltac:(lia) ltac:(lia) Hb) as (Hs & Hex & Hm).
  assert (f_mag f b = f_exp f b * 2 ^ mbits f + f_man f b) as Hmag.
  { unfold f_exp, f_man. pose proof (Z.div_mod (f_mag f b) (2 ^ mbits f) ltac:(lia)) as E.
    assert (f_mag f b mod 2 ^ mbits f = b mod 2 ^ mbits f) as Em; [|lia].
    unfold f_mag. rewrite Z.pow_add_r by lia.
    apply Z.mod_mod_divide. by exists (2 ^ ebits f). }
  unfold f_value. rewrite Z.pow_add_r by lia.
  destruct (Z.eqb_spec (f_exp f b) 0) as [E0|E0].
  - assert (Z.abs ((if f_sign f b =? 0 then 1 else -1) * f_man f b) = f_man f b) as ->
      by (case_match; lia).
    split_and!; [lia..|by right|]. rewrite Hmag, E0.
    destruct (Z.eqb_spec ((if f_sign f b =? 0 then 1 else -1) * f_man f b) 0) as [?|];
      [case_match; lia|lia].
  - assert (Z.abs ((if f_sign f b =? 0 then 1 else -1) * (2 ^ mbits f + f_man f b))
      = 2 ^ mbits f + f_man f b) as -> by (case_match; lia).
    split_and!; [lia..|left; lia|]. rewrite Hmag.
    destruct (Z.eqb_spec ((if f_sign f b =? 0 then 1 else -1) * (2 ^ mbits f + f_man f b)) 0)
      as [?|]; [case_match; lia|lia].
Qed.

Lemma f32_to_f64_exponent b :
  0 ≤ b < 2 ^ 32 → f_exp f32 b ≠ 255 → (f_value f64 (f32_to_f64 b)).2 ≤ (f_value f32 b).2.
Proof.
  intros Hb He.
  destruct (f_fields_range f32 b ltac:(simpl; lia) ltac:(simpl; lia) Hb) as (Hs & He' & Hm).
  unfold f32_to_f64. cbv zeta. simpl in He', Hm.
  destruct (Z.eqb_spec (f_exp f32 b) 255) as [?|_]; [done|].
  destruct (Z.eqb_spec (f_exp f32 b) 0) as [E0|E0];
    [destruct (Z.eqb_spec (f_man f32 b) 0) as [M0|M0]|].
  - unfold f_value at 2. rewrite E0, M0. unfold f_value.
    by destruct (f_make_fields f64 ltac:(done) (f_sign f32 b) 0 0) as (-> & -> & ->);
      [simpl; lia..|].
  - destruct (log2_split (f_man f32 b)) as (? & ? & Hk); [lia..|].
    rewrite f_value_make_normal by (simpl; lia). unfold f_value.
    rewrite E0. simpl Z.eqb. cbv iota. unfold fbias. cbn [snd mbits f32 f64 ebits].
    change (2 ^ (8 - 1) - 1) with 127. change (2 ^ (11 - 1) - 1) with 1023. lia.
  - rewrite f_value_make_normal by (simpl; lia). unfold f_value.
    destruct (Z.eqb_spec (f_exp f32 b) 0) as [?|_]; [done|]. cbn.
    change (fbias f64) with 1023. change (fbias f32) with 127. lia.
Qed.

Lemma stod_to_string d :
  0 ≤ d < 2 ^ 64 → stod (str_bytes (to_string_f64 d)) = inl (printed f64 d).
Proof.
  intros Hd. unfold stod, sto_float. rewrite strtod_to_string.
  destruct (Z.eqb_spec (f_exp f64 d) 2047) as [|He]; [done|].
  pose proof (f_value_canonical f64 d Hd He) as Hc.
  destruct (f_value f64 d) as [m e] eqn:Ev. destruct Hc as (? & ? & ? & ? & _).
  rewrite (printable f64 d m e); rewrite ?Ev; cbn [fst snd]; try done.
  by rewrite Z.sub_diag, Z.mul_1_r.
Qed.

Lemma stof_to_string b :
  0 ≤ b < 2 ^ 32 →
  stof (str_bytes (to_string_f64 (f32_to_f64 b))) = inl (printed f32 (f32_to_f64 b)).
Proof.
  intros Hb. unfold stof, sto_float. rewrite strtod_to_string.
  destruct (Z.eqb_spec (f_exp f64 (f32_to_f64 b)) 2047) as [|He]; [done|].
  destruct (decide (f_exp f32 b = 255)) as [E|E].
  { destruct He. unfold f32_to_f64. rewrite E. change (255 =? 255) with true. cbv iota zeta.
    destruct (f_fields_range f32 b ltac:(simpl; lia) ltac:(simpl; lia) Hb) as (Hs & _ & Hm).
    simpl in Hm.
    destruct (Z.eqb_spec (f_man f32 b) 0); apply f_make_fields; simpl; try done; try lia.
    split; [by apply Z.lor_nonneg; lia|]. apply Z.log2_lt_cancel.
    rewrite Z.log2_lor by lia. change (Z.log2 (2 ^ 51)) with 51.
    change (Z.log2 (2 ^ 52)) with 52.
    assert (Z.log2 (f_man f32 b * 2 ^ 29) < 52); [|lia]. apply Z.log2_lt_pow2; lia. }
  pose proof (f_value_canonical f32 b Hb E) as Hc.
  pose proof (f32_to_f64_exact b Hb E) as Hv. pose proof (f32_to_f64_exponent b Hb E) as Hle.
  destruct (f_value f32 b) as [m e] eqn:Ev. destruct Hc as (? & ? & ? & ? & _).
  by rewrite (printable f32 (f32_to_f64 b) m e).
Qed.

(** A double of which six decimals say everything is read back unchanged. *)
Lemma printed_exact d :
  0 ≤ d < 2 ^ 64 → f_is_nan f64 d = false →
  (let (m, e) := f_value f64 d in (2 ^ Z.max 0 (- e) | Z.abs m * 10 ^ 6)) →
  printed f64 d = d.
Proof.
  intros Hd Hnan Hex. unfold printed.
  assert (d = f_sign f64 d * 2 ^ 63 + f_mag f64 d) as Esign.
  { unfold f_sign, f_mag. change (ebits f64 + mbits f64) with 63.
    pose proof (Z.div_mod d (2 ^ 63)). lia. }
  destruct (f_fields_range f64 d ltac:(simpl; lia) ltac:(simpl; lia) Hd) as (Hs & _ & _).
  assert (∀ x, x = f_mag f64 d → (if f_sign f64 d =? 0 then x else 2 ^ (ebits f64 + mbits f64) + x) = d)
    as Hsum.
  { intros x ->. change (ebits f64 + mbits f64) with 63.
    destruct (Z.eqb_spec (f_sign f64 d) 0); lia. }
  apply Hsum. unfold f_is_nan in Hnan. change (2 ^ ebits f64 - 1) with 2047 in Hnan.
  destruct (Z.eqb_spec (f_exp f64 d) 2047) as [E|E].
  - rewrite andb_true_l, negb_false_iff in Hnan. rewrite Hnan.
    apply Z.eqb_eq in Hnan. unfold f_exp, f_man, f_mag in *.
    change (ebits f64 + mbits f64) with 63 in *. change (mbits f64) with 52 in *.
    pose proof (Z.div_mod (d mod 2 ^ 63) (2 ^ 52) ltac:(lia)) as Hdm.
    assert ((d mod 2 ^ 63) mod 2 ^ 52 = d mod 2 ^ 52) as Hmm.
    { apply Z.mod_mod_divide. by exists (2 ^ 11). }
    change (infinity f64) with (2047 * 2 ^ 52). lia.
  - pose proof (f_value_canonical f64 d Hd E) as Hc. unfold millionths.
    destruct (f_value f64 d) as [m e]. destruct Hc as (Hm & Hlo & Hhi & Hn & ->).
    destruct Hex as [q Hq].
    pose proof (pow2_pos (Z.max 0 (- e)) ltac:(lia)). pose proof (pow2_pos (Z.max 0 e) ltac:(lia)).
    replace (Z.abs m * 10 ^ 6 * 2 ^ Z.max 0 e) with (q * 2 ^ Z.max 0 e * 2 ^ Z.max 0 (- e))
      by (rewrite Hq; ring).
    rewrite round_half_even_exact by done.
    destruct (Z.eqb_spec m 0) as [->|Hm0].
    { assert (q = 0) as -> by nia. done. }
    by rewrite (nearest_exact f64 _ (10 ^ 6) (Z.abs m) e); [|lia..|nia].
Qed.
