(* ===== verification/FloatArith.v ===== *)
(** * Arithmetic on doubles

    The conversions and the two operations the program performs on [double]:
    [static_cast<double>] of an unsigned 64-bit integer, division and
    multiplication, and [static_cast<size_t>] of a result.  Rounding is to
    nearest, ties to even; rounding is monotone ([nearest_mono]). *)

From S2P Require Import Prelude Float Regex Numbers Decimal.
#[local] Hint Resolve pow2_pos : core.

Definition u64_to_f64 (z : Z) : Z := (nearest f64 z 1).1.

(** [mag] with the sign of the product or quotient. *)
Definition signed (a b mag : Z) : Z :=
  if f_sign f64 a =? f_sign f64 b then mag else 2 ^ 63 + mag.

Definition qnan : Z := infinity f64 + 2 ^ 51.
Definition is_inf (a : Z) : bool := f_mag f64 a =? infinity f64.
Definition is_zero (a : Z) : bool := f_mag f64 a =? 0.

(** [n * 2^e / d] rounded. *)
Definition rounded (n d e : Z) : Z := (nearest f64 (n * 2 ^ Z.max 0 e) (d * 2 ^ Z.max 0 (- e))).1.

Definition f64_mul (a b : Z) : Z :=
  if f_is_nan f64 a || f_is_nan f64 b then qnan
  else if is_inf a || is_inf b then
    (if is_zero a || is_zero b then qnan else signed a b (infinity f64))
  else
    let (m1, e1) := f_value f64 a in
    let (m2, e2) := f_value f64 b in
    signed a b (rounded (Z.abs (m1 * m2)) 1 (e1 + e2)).

Definition f64_div (a b : Z) : Z :=
  if f_is_nan f64 a || f_is_nan f64 b then qnan
  else if is_inf a then (if is_inf b then qnan else signed a b (infinity f64))
  else if is_inf b then signed a b 0
  else if is_zero b then (if is_zero a then qnan else signed a b (infinity f64))
  else
    let (m1, e1) := f_value f64 a in
    let (m2, e2) := f_value f64 b in
    signed a b (rounded (Z.abs m1) (Z.abs m2) (e1 - e2)).

(** Towards zero; undefined when the result does not fit. *)
Definition f64_to_u64 (a : Z) : res Z :=
  if f_exp f64 a =? 2047 then Undef
  else
    let (m, e) := f_value f64 a in
    let z := Z.quot (m * 2 ^ Z.max 0 e) (2 ^ Z.max 0 (- e)) in
    if (0 <=? z) && (z <? 2 ^ 64) then Val z else Undef.

Example f64_examples :
  u64_to_f64 3 = 0x4008000000000000 ∧
  f64_div (u64_to_f64 1) (u64_to_f64 3) = 0x3fd5555555555555 ∧
  f64_mul (f64_div (u64_to_f64 1) (u64_to_f64 3)) (u64_to_f64 100) = 0x4040aaaaaaaaaaaa ∧
  f64_div (u64_to_f64 1) 0 = infinity f64 ∧ f64_div 0 0 = qnan ∧
  f64_mul (2 ^ 63 + u64_to_f64 3) (u64_to_f64 5) = 2 ^ 63 + u64_to_f64 15 ∧
  u64_to_f64 (2 ^ 64 - 1) = u64_to_f64 (2 ^ 64) ∧
  f64_to_u64 0x4040aaaaaaaaaaab = Val 33 ∧ f64_to_u64 (2 ^ 63 + u64_to_f64 3) = Undef.
Proof. by vm_compute. Qed.

(** ** Rounding is monotone *)

Lemma round_half_even_mono n n' d : 0 < d → n ≤ n' → round_half_even n d ≤ round_half_even n' d.
Proof.
  intros Hd Hn. unfold round_half_even. cbv zeta.
  pose proof (Z.div_mod n d ltac:(lia)). pose proof (Z.div_mod n' d ltac:(lia)).
  pose proof (Z.mod_pos_bound n d Hd). pose proof (Z.mod_pos_bound n' d Hd).
  pose proof (Z.div_le_mono n n' d Hd Hn).
  destruct (decide (n / d = n' / d)) as [E|E].
  - rewrite E in *. assert (n mod d ≤ n' mod d) by lia.
    destruct (Z.ltb_spec (2 * (n mod d)) d), (Z.ltb_spec (2 * (n' mod d)) d),
      (Z.eqb_spec (2 * (n mod d)) d), (Z.eqb_spec (2 * (n' mod d)) d), (Z.even (n' / d));
      simpl; lia.
  - case_match; case_match; lia.
Qed.

(** Rounding of two quotients with different denominators. *)
Lemma round_half_even_quot n d n' d' :
  0 < d → 0 < d' → n * d' ≤ n' * d → round_half_even n d ≤ round_half_even n' d'.
Proof.
  intros Hd Hd' H. rewrite <-(round_half_even_scale n d d'), <-(round_half_even_scale n' d' d) by done.
  rewrite (Z.mul_comm d' d). apply round_half_even_mono; nia.
Qed.

Lemma floor_log2_mono n d n' d' :
  0 < n → 0 < d → 0 < n' → 0 < d' → n * d' ≤ n' * d → floor_log2 n d ≤ floor_log2 n' d'.
Proof.
  intros Hn Hd Hn' Hd' H. apply floor_log2_ge; [done..|].
  set (k := floor_log2 n d). set (s := Z.max 0 (- k)).
  pose proof (floor_log2_spec n d s Hn Hd ltac:(lia) ltac:(lia)) as [Hl _]. fold k in Hl.
  replace (k + s) with (Z.max 0 k) in Hl by lia.
  pose proof (pow2_pos s ltac:(lia)). pose proof (pow2_pos (Z.max 0 k) ltac:(lia)).
  apply (Z.mul_le_mono_pos_l _ _ d); [done|].
  transitivity (n * 2 ^ s * d'); nia.
Qed.

Section Mono.
Context (f : fmt) `{!ieee f}.
Let emin := 1 - fbias f - mbits f.

(** The exponent and the integer significand before normalization. *)
Definition exponent (n d : Z) : Z := Z.max emin (floor_log2 n d - mbits f).
Definition significand (n d : Z) : Z :=
  round_half_even (n * 2 ^ Z.max 0 (- exponent n d)) (d * 2 ^ Z.max 0 (exponent n d)).

Lemma nearest_bits n d :
  n ≠ 0 →
  (nearest f n d).1 = Z.min (infinity f) ((exponent n d - emin) * 2 ^ mbits f + significand n d).
Proof.
  intros Hn. unfold nearest. destruct (Z.eqb_spec n 0) as [|_]; [done|].
  cbv zeta. fold emin (exponent n d) (infinity f). fold (significand n d).
  destruct (Z.leb_spec (infinity f) ((exponent n d - emin) * 2 ^ mbits f + significand n d));
    cbn [fst]; lia.
Qed.

Lemma significand_nonneg n d : 0 ≤ n → 0 < d → 0 ≤ significand n d.
Proof.
  intros Hn Hd. pose proof (pow2_pos (Z.max 0 (- exponent n d)) ltac:(lia)).
  pose proof (pow2_pos (Z.max 0 (exponent n d)) ltac:(lia)).
  apply round_half_even_nonneg; nia.
Qed.

Lemma significand_le n d : 0 < n → 0 < d → significand n d ≤ 2 ^ (mbits f + 1).
Proof.
  intros Hn Hd. pose proof ieee_mbits. unfold significand. set (e := exponent n d).
  pose proof (pow2_pos (Z.max 0 (- e)) ltac:(lia)). pose proof (pow2_pos (Z.max 0 e) ltac:(lia)).
  set (fl := floor_log2 n d) in *. assert (fl - mbits f ≤ e) by (unfold e, exponent; lia).
  apply round_half_even_le; [nia|split; [nia|]].
  set (c := Z.max 0 (- fl) + mbits f).
  pose proof (floor_log2_spec n d (Z.max 0 (- e) + c) Hn Hd ltac:(lia) ltac:(lia)) as [_ Hs].
  fold fl in Hs. rewrite (Z.pow_add_r 2 (Z.max 0 (- e)) c), Z.mul_assoc in Hs by lia.
  assert (2 ^ (fl + (Z.max 0 (- e) + c) + 1) ≤ 2 ^ (Z.max 0 e) * 2 ^ (mbits f + 1) * 2 ^ c).
  { rewrite <-!Z.pow_add_r by lia. apply Z.pow_le_mono_r; lia. }
  pose proof (pow2_pos c ltac:(lia)). nia.
Qed.

Lemma significand_ge n d :
  0 < n → 0 < d → emin < exponent n d → 2 ^ mbits f ≤ significand n d.
Proof.
  intros Hn Hd He. pose proof ieee_mbits. unfold significand in *. set (e := exponent n d) in *.
  assert (e = floor_log2 n d - mbits f) as Ee by (unfold e, exponent in *; lia).
  pose proof (pow2_pos (Z.max 0 (- e)) ltac:(lia)). pose proof (pow2_pos (Z.max 0 e) ltac:(lia)).
  set (fl := floor_log2 n d) in *. set (c := Z.max 0 (- fl)).
  rewrite <-(round_half_even_exact (2 ^ mbits f) 1) by lia.
  apply round_half_even_quot; [lia|nia|]. rewrite !Z.mul_1_r.
  pose proof (floor_log2_spec n d (Z.max 0 (- e) + c) Hn Hd ltac:(lia) ltac:(lia)) as [Hs _].
  fold fl in Hs. rewrite (Z.pow_add_r 2 (Z.max 0 (- e)) c), Z.mul_assoc in Hs by lia.
  assert (2 ^ (fl + (Z.max 0 (- e) + c)) = 2 ^ mbits f * 2 ^ (Z.max 0 e) * 2 ^ c) as Ep.
  { rewrite <-!Z.pow_add_r by lia. f_equal. lia. }
  pose proof (pow2_pos c ltac:(lia)). nia.
Qed.

Lemma nearest_nonneg n d : 0 ≤ n → 0 < d → 0 ≤ (nearest f n d).1.
Proof.
  intros Hn Hd. destruct (decide (n = 0)) as [->|]; [done|]. rewrite nearest_bits by done.
  pose proof (significand_nonneg n d Hn Hd). pose proof ieee_mbits. pose proof ieee_ebits.
  pose proof (pow2_pos (mbits f) ltac:(lia)). pose proof (pow2_pos (ebits f) ltac:(lia)).
  assert (emin ≤ exponent n d) by (unfold exponent; lia). unfold infinity. nia.
Qed.

Lemma nearest_mono n d n' d' :
  0 ≤ n → 0 < d → 0 ≤ n' → 0 < d' → n * d' ≤ n' * d →
  (nearest f n d).1 ≤ (nearest f n' d').1.
Proof.
  intros Hn Hd Hn' Hd' H. destruct (decide (n = 0)) as [->|Hn0]; [by apply nearest_nonneg|].
  assert (0 < n') by nia. rewrite !nearest_bits by lia. apply Z.min_le_compat_l.
  pose proof (floor_log2_mono n d n' d' ltac:(lia) Hd ltac:(lia) Hd' H) as Hfl.
  assert (exponent n d ≤ exponent n' d') as He by (unfold exponent; lia).
  pose proof ieee_mbits. pose proof (pow2_pos (mbits f) ltac:(lia)).
  destruct (decide (exponent n d = exponent n' d')) as [E|E].
  - rewrite E. apply Z.add_le_mono_l. unfold significand. rewrite E.
    set (p := 2 ^ Z.max 0 (- exponent n' d')). set (q := 2 ^ Z.max 0 (exponent n' d')).
    assert (0 < p ∧ 0 < q) as [??] by (split; apply pow2_pos; lia).
    apply round_half_even_quot; nia.
  - pose proof (significand_le n d ltac:(lia) Hd) as Hs. rewrite Z.pow_add_r in Hs by lia.
    assert (emin ≤ exponent n d) by (unfold exponent; lia).
    pose proof (significand_ge n' d' ltac:(lia) Hd' ltac:(lia)). nia.
Qed.
End Mono.

(** ** Order of the values *)

Section Order.
Context (f : fmt) `{!ieee f}.
Let emin := 1 - fbias f - mbits f.

(** A finite non-negative value in units of the smallest one. *)
Definition units (a : Z) : Z :=
  if a / 2 ^ mbits f =? 0 then a mod 2 ^ mbits f
  else (2 ^ mbits f + a mod 2 ^ mbits f) * 2 ^ (a / 2 ^ mbits f - 1).

Lemma units_value a :
  0 ≤ a < infinity f →
  f_sign f a = 0 ∧ emin ≤ (f_value f a).2 ∧ 0 ≤ (f_value f a).1 ∧
  units a = (f_value f a).1 * 2 ^ ((f_value f a).2 - emin).
Proof.
  intros Ha. pose proof ieee_mbits. pose proof ieee_ebits. pose proof ieee_bias.
  pose proof (pow2_pos (mbits f) ltac:(lia)). pose proof (pow2_pos (ebits f) ltac:(lia)).
  unfold infinity in Ha.
  assert (a < 2 ^ (ebits f + mbits f)) as Hlt by (rewrite Z.pow_add_r by lia; nia).
  assert (f_mag f a = a) as Hmag by (unfold f_mag; apply Z.mod_small; lia).
  assert (f_sign f a = 0) as Hs by (unfold f_sign; apply Z.div_small; lia).
  assert (f_exp f a = a / 2 ^ mbits f) as He by (unfold f_exp; by rewrite Hmag).
  assert (f_man f a = a mod 2 ^ mbits f) as Hm by done.
  pose proof (Z.mod_pos_bound a (2 ^ mbits f) ltac:(lia)).
  pose proof (Z.div_pos a (2 ^ mbits f) ltac:(lia) ltac:(lia)).
  unfold f_value, units. rewrite Hs, He, Hm. rewrite Z.eqb_refl.
  destruct (Z.eqb_spec (a / 2 ^ mbits f) 0) as [E|E]; cbn [fst snd]; split_and!; try lia.
  - unfold emin. rewrite Z.sub_diag. lia.
  - rewrite !Z.mul_1_l. f_equal. f_equal. unfold emin. lia.
Qed.

Lemma units_mono a b : 0 ≤ a ≤ b → units a ≤ units b.
Proof.
  intros Hab. pose proof ieee_mbits. pose proof (pow2_pos (mbits f) ltac:(lia)) as HM.
  unfold units. set (M := 2 ^ mbits f) in *. clearbody M.
  pose proof (Z.div_mod a M ltac:(lia)). pose proof (Z.div_mod b M ltac:(lia)).
  pose proof (Z.mod_pos_bound a M HM). pose proof (Z.mod_pos_bound b M HM).
  pose proof (Z.div_le_mono a b M HM ltac:(lia)). pose proof (Z.div_pos a M ltac:(lia) HM).
  set (qa := a / M) in *. set (qb := b / M) in *. set (ra := a mod M) in *. set (rb := b mod M) in *.
  clearbody qa qb ra rb.
  destruct (Z.eqb_spec qa 0) as [Ea|Ea], (Z.eqb_spec qb 0) as [Eb|Eb].
  - nia.
  - pose proof (pow2_pos (qb - 1) ltac:(lia)). nia.
  - lia.
  - destruct (decide (qa = qb)) as [E|E].
    + rewrite <-E. pose proof (pow2_pos (qa - 1) ltac:(lia)). nia.
    + assert (2 ^ (qa - 1) * 2 ≤ 2 ^ (qb - 1)).
      { rewrite <-(Z.pow_1_r 2) at 2. rewrite <-Z.pow_add_r by lia.
        apply Z.pow_le_mono_r; lia. }
      pose proof (pow2_pos (qa - 1) ltac:(lia)). nia.
Qed.

Lemma units_strict a b : 0 ≤ a < b → units a < units b.
Proof.
  intros Hab. pose proof (units_mono (a + 1) b ltac:(lia)) as Hle.
  enough (units a < units (a + 1)) by lia. clear Hle.
  pose proof ieee_mbits. pose proof (pow2_pos (mbits f) ltac:(lia)) as HM. unfold units.
  set (M := 2 ^ mbits f) in *. clearbody M.
  pose proof (Z.div_mod a M ltac:(lia)) as Ea. pose proof (Z.mod_pos_bound a M HM) as Hr.
  pose proof (Z.div_pos a M ltac:(lia) HM) as Hq. set (q := a / M) in *. set (r := a mod M) in *. clearbody q r.
  destruct (decide (r + 1 = M)) as [E|E].
  - assert ((a + 1) / M = q + 1) as -> by (symmetry; apply (Z.div_unique _ _ _ 0); lia).
    assert ((a + 1) mod M = 0) as -> by (symmetry; apply (Z.mod_unique _ _ (q + 1)); lia).
    destruct (Z.eqb_spec (q + 1) 0); [lia|]. destruct (Z.eqb_spec q 0) as [->|Hn]; [cbn; lia|].
    replace (q + 1 - 1) with (Z.succ (q - 1)) by lia. rewrite Z.pow_succ_r by lia.
    pose proof (pow2_pos (q - 1) ltac:(lia)). nia.
  - assert ((a + 1) / M = q) as -> by (symmetry; apply (Z.div_unique _ _ _ (r + 1)); lia).
    assert ((a + 1) mod M = r + 1) as -> by (symmetry; apply (Z.mod_unique _ _ q); lia).
    destruct (Z.eqb_spec q 0) as [->|Hn]; [lia|]. pose proof (pow2_pos (q - 1) ltac:(lia)). nia.
Qed.
End Order.

Definition f64_hundred : Z := 0x4059000000000000.

Lemma finite_checks a :
  0 ≤ a < infinity f64 → f_is_nan f64 a = false ∧ is_inf a = false ∧ f_mag f64 a = a.
Proof.
  intros Ha. change (infinity f64) with (2047 * 2 ^ 52) in *.
  assert (f_mag f64 a = a) as E.
  { unfold f_mag. change (ebits f64 + mbits f64) with 63. apply Z.mod_small. lia. }
  unfold f_is_nan, is_inf, f_exp. rewrite E. change (mbits f64) with 52.
  change (2 ^ ebits f64 - 1) with 2047. change (infinity f64) with (2047 * 2 ^ 52).
  assert (a / 2 ^ 52 < 2047) by (apply Z.div_lt_upper_bound; lia).
  destruct (Z.eqb_spec (a / 2 ^ 52) 2047), (Z.eqb_spec a (2047 * 2 ^ 52)); lia || done.
Qed.

(** A quotient is at most [k] when the dividend is at most [k] times the divisor. *)
Lemma f64_div_le a b k :
  0 ≤ a < infinity f64 → 0 < b < infinity f64 → 0 < k → units f64 a ≤ k * units f64 b →
  0 ≤ f64_div a b ≤ u64_to_f64 k.
Proof.
  intros Ha Hb Hk Hu. unfold f64_div.
  destruct (finite_checks a Ha) as (-> & -> & _).
  destruct (finite_checks b ltac:(lia)) as (-> & -> & Emag).
  unfold is_zero. rewrite Emag, (proj2 (Z.eqb_neq b 0)) by lia. cbn [orb].
  destruct (units_value f64 a ltac:(lia)) as (Hsa & Hea & Hma & Hua).
  destruct (units_value f64 b ltac:(lia)) as (Hsb & Heb & Hmb & Hub).
  assert (0 < units f64 b) as Hpos.
  { pose proof (units_mono f64 1 b ltac:(lia)). assert (units f64 1 = 1) by done. lia. }
  rewrite Hub in Hpos. rewrite Hua, Hub in Hu.
  destruct (f_value f64 a) as [m1 e1], (f_value f64 b) as [m2 e2]. cbn [fst snd] in *.
  unfold signed. rewrite Hsa, Hsb. change (0 =? 0) with true. cbv iota. unfold rounded.
  rewrite (Z.abs_eq m1), (Z.abs_eq m2) by lia.
  set (z := 1 - fbias f64 - mbits f64) in *.
  pose proof (pow2_pos (e2 - z) ltac:(lia)). assert (0 < m2) by nia.
  pose proof (pow2_pos (Z.max 0 (e1 - e2)) ltac:(lia)).
  pose proof (pow2_pos (Z.max 0 (- (e1 - e2))) ltac:(lia)).
  split; [apply nearest_nonneg; [apply _|nia|nia]|].
  apply nearest_mono; [apply _|nia|nia|lia|lia|]. rewrite Z.mul_1_r.
  set (s := Z.min e1 e2 - z).
  apply (Z.mul_le_mono_pos_r _ _ (2 ^ s)); [auto with lia|].
  rewrite <-!Z.mul_assoc, <-!Z.pow_add_r by lia.
  replace (Z.max 0 (e1 - e2) + s) with (e1 - z) by lia.
  by replace (Z.max 0 (- (e1 - e2)) + s) with (e2 - z) by lia.
Qed.

Lemma f64_percent_le a k :
  0 ≤ a < infinity f64 → 0 < k → units f64 a ≤ k * 2 ^ 1074 →
  0 ≤ f64_mul a f64_hundred ≤ u64_to_f64 (100 * k).
Proof.
  intros Ha Hk Hu. unfold f64_mul.
  destruct (finite_checks a Ha) as (-> & -> & _).
  change (f_is_nan f64 f64_hundred) with false. change (is_inf f64_hundred) with false. cbn [orb].
  destruct (units_value f64 a Ha) as (Hsa & Hea & Hma & Hua). rewrite Hua in Hu.
  destruct (f_value f64 a) as [m e]. cbn [fst snd] in *.
  change (f_value f64 f64_hundred) with (7036874417766400, -46).
  unfold signed. rewrite Hsa. change (f_sign f64 f64_hundred) with 0.
  change (0 =? 0) with true. cbv iota. unfold rounded.
  rewrite Z.mul_1_l, Z.abs_eq by lia. change (e + -46) with (e - 46).
  change (1 - fbias f64 - mbits f64) with (-1074) in *.
  pose proof (pow2_pos (Z.max 0 (e - 46)) ltac:(lia)).
  pose proof (pow2_pos (Z.max 0 (- (e - 46))) ltac:(lia)).
  split; [apply nearest_nonneg; [apply _|nia|nia]|].
  apply nearest_mono; [apply _|nia|nia|lia|lia|].
  rewrite Z.mul_1_r. change 7036874417766400 with (100 * 2 ^ 46).
  set (s := Z.min e 46 + 1074).
  apply (Z.mul_le_mono_pos_r _ _ (2 ^ s)); [auto with lia|].
  rewrite <-!Z.mul_assoc, <-!Z.pow_add_r by lia.
  replace (46 + (Z.max 0 (e - 46) + s)) with ((e - -1074) + 46) by lia.
  replace (Z.max 0 (- (e - 46)) + s) with (1074 + 46) by lia.
  rewrite !Z.pow_add_r by lia. nia.
Qed.

Lemma u64_to_f64_mono a b : 0 ≤ a ≤ b → u64_to_f64 a ≤ u64_to_f64 b.
Proof. intros. apply nearest_mono; [apply _|lia..]. Qed.

Lemma u64_to_f64_range a : 0 < a < 2 ^ 64 → 0 < u64_to_f64 a < infinity f64.
Proof.
  intros Ha. pose proof (u64_to_f64_mono 1 a ltac:(lia)).
  pose proof (u64_to_f64_mono a (2 ^ 64) ltac:(lia)).
  assert (0 < u64_to_f64 1 ∧ u64_to_f64 (2 ^ 64) < infinity f64) by done. lia.
Qed.

(** Any quotient of two counters. *)
Lemma quotient_bounds a b :
  0 ≤ a < 2 ^ 64 → 0 < b < 2 ^ 64 →
  0 ≤ f64_div (u64_to_f64 a) (u64_to_f64 b) ≤ u64_to_f64 (2 ^ 64).
Proof.
  intros Ha Hb. pose proof (u64_to_f64_range b Hb).
  pose proof (u64_to_f64_mono 0 a ltac:(lia)). pose proof (u64_to_f64_mono a (2 ^ 64) ltac:(lia)).
  pose proof (u64_to_f64_mono 1 b ltac:(lia)).
  assert (u64_to_f64 0 = 0 ∧ 0 < u64_to_f64 1 ∧ u64_to_f64 (2 ^ 64) < infinity f64
    ∧ units f64 (u64_to_f64 1) = 2 ^ 1074 ∧ units f64 (u64_to_f64 (2 ^ 64)) = 2 ^ 64 * 2 ^ 1074)
    as (Z0 & Z1 & Zi & U1 & U64) by (split_and!; by vm_compute).
  apply f64_div_le; [lia|lia|lia|].
  pose proof (units_mono f64 (u64_to_f64 a) (u64_to_f64 (2 ^ 64)) ltac:(lia)).
  pose proof (units_mono f64 (u64_to_f64 1) (u64_to_f64 b) ltac:(lia)). lia.
Qed.

(** A share of a whole, in percent. *)
Lemma percentage_bounds a b :
  0 ≤ a ≤ b → 0 < b < 2 ^ 64 →
  0 ≤ f64_mul (f64_div (u64_to_f64 a) (u64_to_f64 b)) f64_hundred ≤ f64_hundred.
Proof.
  intros Ha Hb. pose proof (u64_to_f64_range b Hb).
  pose proof (u64_to_f64_mono 0 a ltac:(lia)). pose proof (u64_to_f64_mono a b ltac:(lia)).
  assert (u64_to_f64 0 = 0 ∧ u64_to_f64 1 < infinity f64 ∧ units f64 (u64_to_f64 1) = 2 ^ 1074)
    as (Z0 & Z1 & U1) by (split_and!; by vm_compute).
  destruct (f64_div_le (u64_to_f64 a) (u64_to_f64 b) 1) as [Hl Hu]; [lia|lia|lia| |].
  { pose proof (units_mono f64 (u64_to_f64 a) (u64_to_f64 b) ltac:(lia)). lia. }
  pose proof (units_mono f64 _ _ (conj Hl Hu)).
  pose proof (f64_percent_le (f64_div (u64_to_f64 a) (u64_to_f64 b)) 1 ltac:(lia) ltac:(lia)
    ltac:(lia)) as Hp. by change (u64_to_f64 (100 * 1)) with f64_hundred in Hp.
Qed.

(** Any percentage of two counters is finite. *)
Lemma percentage_finite a b :
  0 ≤ a < 2 ^ 64 → 0 < b < 2 ^ 64 →
  0 ≤ f64_mul (f64_div (u64_to_f64 a) (u64_to_f64 b)) f64_hundred < infinity f64.
Proof.
  intros Ha Hb. destruct (quotient_bounds a b Ha Hb) as [Hl Hu].
  assert (u64_to_f64 (2 ^ 64) < infinity f64 ∧ u64_to_f64 (100 * 2 ^ 64) < infinity f64
    ∧ units f64 (u64_to_f64 (2 ^ 64)) = 2 ^ 64 * 2 ^ 1074)
    as (Z1 & Z2 & U) by (split_and!; by vm_compute).
  pose proof (units_mono f64 _ _ (conj Hl Hu)).
  pose proof (f64_percent_le (f64_div (u64_to_f64 a) (u64_to_f64 b)) (2 ^ 64)
    ltac:(lia) ltac:(lia) ltac:(lia)). lia.
Qed.

(** ** Exact values *)

(** Rounding depends on the quotient only. *)
Lemma nearest_quot f `{!ieee f} n d n' d' :
  0 ≤ n → 0 < d → 0 ≤ n' → 0 < d' → n * d' = n' * d → (nearest f n d).1 = (nearest f n' d').1.
Proof. intros ???? E. apply Z.le_antisymm; apply nearest_mono; try done; lia. Qed.

(** Fractions with a denominator [2^k] and at most 53 bits are represented. *)
Lemma nearest_dyadic n k :
  0 < n < 2 ^ 53 → 0 ≤ k ≤ 900 →
  0 ≤ (nearest f64 n (2 ^ k)).1 < infinity f64 ∧
  units f64 (nearest f64 n (2 ^ k)).1 * 2 ^ k = n * 2 ^ 1074.
Proof.
  intros Hn Hk. pose proof (Z.log2_spec n ltac:(lia)) as [Hl1 Hl2].
  pose proof (Z.log2_nonneg n). set (l := Z.log2 n) in *.
  assert (l < 53) by (apply Z.log2_lt_pow2; lia).
  rewrite Z.pow_succ_r in Hl2 by lia.
  assert (0 < 2 ^ (52 - l)) by auto with lia.
  assert (2 ^ l * 2 ^ (52 - l) = 2 ^ 52) as El by (rewrite <-Z.pow_add_r by lia; f_equal; lia).
  set (m := n * 2 ^ (52 - l)). assert (2 ^ 52 ≤ m < 2 ^ 53) as Hm by (unfold m; nia).
  set (e := l - 52 - k).
  rewrite (nearest_exact f64 n (2 ^ k) m e); change (mbits f64) with 52 in *;
    change (fbias f64) with 1023; [|lia|auto with lia|lia|lia|left; lia|].
  - cbn [fst]. change (1 - 1023 - 52) with (-1074).
    assert (0 ≤ e - -1074 < 2045) as He by lia.
    change (infinity f64) with (2047 * 2 ^ 52). split; [nia|].
    assert (((e - -1074) * 2 ^ 52 + m) / 2 ^ 52 = e + 1075
      ∧ ((e - -1074) * 2 ^ 52 + m) mod 2 ^ 52 = m - 2 ^ 52) as [Eq Er].
    { split; [symmetry; apply (Z.div_unique_pos _ _ _ (m - 2 ^ 52)); lia|].
      symmetry. apply (Z.mod_unique_pos _ _ (e + 1075)); lia. }
    unfold units. change (mbits f64) with 52. rewrite Eq, Er.
    destruct (Z.eqb_spec (e + 1075) 0); [lia|].
    replace (2 ^ 52 + (m - 2 ^ 52)) with m by lia. unfold m.
    rewrite <-!Z.mul_assoc, <-!Z.pow_add_r by lia. do 2 f_equal. lia.
  - unfold m. rewrite <-!Z.mul_assoc, <-!Z.pow_add_r by lia. do 2 f_equal. lia.
Qed.

(** The integer part. *)
Lemma f64_to_u64_units a :
  0 ≤ a < infinity f64 → units f64 a / 2 ^ 1074 < 2 ^ 64 →
  f64_to_u64 a = Val (units f64 a / 2 ^ 1074).
Proof.
  intros Ha Hlt. destruct (units_value f64 a Ha) as (_ & He & Hm & Hu).
  destruct (finite_checks a Ha) as (_ & _ & Hmag). unfold f64_to_u64.
  assert (f_exp f64 a <> 2047) as Hexp.
  { unfold f_exp. rewrite Hmag. change (infinity f64) with (2047 * 2 ^ 52) in Ha.
    assert (a / 2 ^ mbits f64 < 2047); [|lia]. apply Z.div_lt_upper_bound; [done|]. simpl. lia. }
  destruct (Z.eqb_spec (f_exp f64 a) 2047) as [|_]; [done|].
  destruct (f_value f64 a) as [m e]. cbn [fst snd] in *.
  change (1 - fbias f64 - mbits f64) with (-1074) in *.
  assert (Z.quot (m * 2 ^ Z.max 0 e) (2 ^ Z.max 0 (- e)) = units f64 a / 2 ^ 1074) as ->.
  { pose proof (pow2_pos (Z.max 0 e) ltac:(lia)). pose proof (pow2_pos (Z.max 0 (- e)) ltac:(lia)).
    rewrite Z.quot_div_nonneg by nia. rewrite Hu.
    set (s := 1074 - Z.max 0 (- e)).
    rewrite <-(Z.div_mul_cancel_r _ _ (2 ^ s)) by (apply Z.pow_nonzero; lia).
    rewrite <-Z.mul_assoc, <-!Z.pow_add_r by lia. f_equal; f_equal; f_equal; lia. }
  assert (0 ≤ units f64 a / 2 ^ 1074).
  { apply Z.div_pos; [|by apply pow2_pos]. rewrite Hu. pose proof (pow2_pos (e - -1074)). nia. }
  destruct (Z.leb_spec 0 (units f64 a / 2 ^ 1074)); [|lia].
  by destruct (Z.ltb_spec (units f64 a / 2 ^ 1074) (2 ^ 64)); [|lia].
Qed.

(** A product with an integer of less than 53 bits. *)
Lemma f64_mul_u64 q mq eq m :
  0 ≤ q < infinity f64 → f_value f64 q = (mq, eq) → -900 ≤ eq ≤ 0 → 0 < m < 2 ^ 53 →
  f64_mul q (u64_to_f64 m) = (nearest f64 (mq * m) (2 ^ (- eq))).1.
Proof.
  intros Hq Ev Heq Hm. destruct (nearest_dyadic m 0 Hm ltac:(lia)) as [Hr Hu].
  change (2 ^ 0) with 1 in *. fold (u64_to_f64 m) in *. rewrite Z.mul_1_r in Hu.
  destruct (units_value f64 q Hq) as (Hsq & _ & Hmq & _).
  destruct (units_value f64 _ Hr) as (Hsm & He & Hmm & Hum). rewrite Hum in Hu.
  unfold f64_mul. destruct (finite_checks q Hq) as (-> & -> & _).
  destruct (finite_checks _ Hr) as (-> & -> & _). cbn [orb]. rewrite Ev in *.
  destruct (f_value f64 (u64_to_f64 m)) as [m' e']. cbn [fst snd] in *.
  change (1 - fbias f64 - mbits f64) with (-1074) in *.
  unfold signed. rewrite Hsq, Hsm. change (0 =? 0) with true. cbv iota.
  rewrite Z.abs_eq by nia. unfold rounded. rewrite Z.mul_1_l.
  pose proof (pow2_pos (Z.max 0 (eq + e')) ltac:(lia)).
  pose proof (pow2_pos (Z.max 0 (- (eq + e'))) ltac:(lia)).
  pose proof (pow2_pos (- eq) ltac:(lia)).
  apply nearest_quot; [apply _|nia|nia|nia|done|].
  apply (Z.mul_cancel_r _ _ (2 ^ 1074)); [by apply Z.pow_nonzero|].
  transitivity (mq * 2 ^ (Z.max 0 (- (eq + e'))) * (m * 2 ^ 1074)); [|ring]. rewrite <-Hu.
  rewrite <-!Z.mul_assoc. f_equal. rewrite (Z.mul_comm (2 ^ Z.max 0 (- (eq + e')))), <-!Z.mul_assoc.
  f_equal. rewrite <-!Z.pow_add_r by lia. f_equal. lia.
Qed.

(** ** The number a pattern stands for *)

Inductive real : Type :=
| R_nan
| R_inf (negative : bool)
| R_finite (m e : Z).

Definition real_of (f : fmt) (b : Z) : real :=
  if f_is_nan f b then R_nan
  else if f_exp f b =? 2 ^ ebits f - 1 then R_inf (negb (f_sign f b =? 0))
  else let (m, e) := f_value f b in R_finite m e.

(** The order of the numbers [m * 2^e]; a NaN is in no relation to anything. *)
Definition real_le (x y : real) : Prop :=
  match x, y with
  | R_nan, _ | _, R_nan => False
  | R_inf true, _ | _, R_inf false => True
  | R_inf false, _ | _, R_inf true => False
  | R_finite m1 e1, R_finite m2 e2 => m1 * 2 ^ (e1 - Z.min e1 e2) ≤ m2 * 2 ^ (e2 - Z.min e1 e2)
  end.

Lemma real_le_at e0 m1 e1 m2 e2 :
  e0 ≤ e1 → e0 ≤ e2 →
  real_le (R_finite m1 e1) (R_finite m2 e2) ↔ m1 * 2 ^ (e1 - e0) ≤ m2 * 2 ^ (e2 - e0).
Proof.
  intros H1 H2. cbn. set (e := Z.min e1 e2).
  replace (e1 - e0) with (e1 - e + (e - e0)) by lia. replace (e2 - e0) with (e2 - e + (e - e0)) by lia.
  rewrite !Z.pow_add_r by lia. pose proof (pow2_pos (e - e0) ltac:(lia)).
  rewrite !Z.mul_assoc. split; [intros; by apply Z.mul_le_mono_nonneg_r; lia|].
  intros Hle. by apply Z.mul_le_mono_pos_r in Hle.
Qed.

Section Real.
Context (f : fmt) `{!ieee f}.
Let emin := 1 - fbias f - mbits f.

Definition scaled (b : Z) : Z := (if f_sign f b =? 0 then 1 else -1) * units f (f_mag f b).

Lemma fields_of_mag b :
  f_exp f b = f_mag f b / 2 ^ mbits f ∧ f_man f b = f_mag f b mod 2 ^ mbits f ∧ 0 ≤ f_mag f b.
Proof.
  pose proof ieee_mbits. pose proof ieee_ebits. unfold f_exp, f_man, f_mag. split_and!; [done| |].
  - rewrite Z.pow_add_r by lia. symmetry. apply Z.mod_mod_divide. by exists (2 ^ ebits f).
  - apply Z.mod_pos_bound, pow2_pos. lia.
Qed.

Lemma scaled_value b : (f_value f b).1 * 2 ^ ((f_value f b).2 - emin) = scaled b ∧ emin ≤ (f_value f b).2.
Proof.
  destruct (fields_of_mag b) as (He & Hm & Hp). pose proof ieee_mbits.
  pose proof (Z.div_pos (f_mag f b) (2 ^ mbits f) Hp (pow2_pos (mbits f) ltac:(lia))).
  unfold f_value, scaled, units. rewrite He, Hm. set (sg := if f_sign f b =? 0 then 1 else -1).
  destruct (Z.eqb_spec (f_mag f b / 2 ^ mbits f) 0) as [E|E]; cbn [fst snd]; unfold emin.
  - rewrite Z.sub_diag. split; lia.
  - replace (f_mag f b / 2 ^ mbits f - fbias f - mbits f - (1 - fbias f - mbits f))
      with (f_mag f b / 2 ^ mbits f - 1) by lia. split; [ring|lia].
Qed.

Lemma units_nonneg a : 0 ≤ a → 0 ≤ units f a.
Proof. intros Ha. pose proof (units_mono f 0 a ltac:(lia)). enough (units f 0 = 0) by lia.
  unfold units. by rewrite Z.div_0_l, Z.mod_0_l by (pose proof (pow2_pos (mbits f)); pose proof ieee_mbits; lia).
Qed.

(** The keys are in the order of the numbers. *)
Lemma key_scaled a b : f_key f a < f_key f b ↔ scaled a < scaled b.
Proof.
  destruct (fields_of_mag a) as (_ & _ & Ha). destruct (fields_of_mag b) as (_ & _ & Hb).
  unfold f_key, scaled. pose proof (units_nonneg _ Ha). pose proof (units_nonneg _ Hb).
  assert (∀ x, 0 ≤ x → units f x = 0 ↔ x = 0) as Hz.
  { assert (units f 0 = 0) as E0.
    { unfold units. pose proof ieee_mbits. pose proof (pow2_pos (mbits f) ltac:(lia)).
      by rewrite Z.div_0_l, Z.mod_0_l by lia. }
    intros x Hx. split; [|by intros ->]. intros E. destruct (decide (x = 0)); [done|].
    pose proof (units_strict f 0 x ltac:(lia)). lia. }
  pose proof (Hz _ Ha). pose proof (Hz _ Hb).
  destruct (Z.lt_trichotomy (f_mag f a) (f_mag f b)) as [Hlt|[E|Hlt]];
    [pose proof (units_strict f _ _ (conj Ha Hlt))|rewrite E in *|pose proof (units_strict f _ _ (conj Hb Hlt))];
    destruct (f_sign f a =? 0), (f_sign f b =? 0); lia.
Qed.

(** Infinities are beyond every finite number. *)
Lemma scaled_infinite b :
  f_is_nan f b = false → f_exp f b = 2 ^ ebits f - 1 →
  scaled b = (if f_sign f b =? 0 then 1 else -1) * units f (infinity f).
Proof.
  destruct (fields_of_mag b) as (He & Hm & Hp). pose proof ieee_mbits. unfold f_is_nan.
  intros Hn E. rewrite E, Z.eqb_refl in Hn. destruct (Z.eqb_spec (f_man f b) 0) as [Em|]; [|done].
  unfold scaled, infinity. f_equal. f_equal. rewrite <-E, He.
  pose proof (Z.div_mod (f_mag f b) (2 ^ mbits f)) as Hd. pose proof (pow2_pos (mbits f) ltac:(lia)). lia.
Qed.

Lemma scaled_finite b :
  0 ≤ b < 2 ^ fwidth f → f_exp f b ≠ 2 ^ ebits f - 1 → Z.abs (scaled b) < units f (infinity f).
Proof.
  intros Hb E. destruct (fields_of_mag b) as (He & Hm & Hp). pose proof ieee_mbits. pose proof ieee_ebits.
  destruct (f_fields_range f b ltac:(lia) ltac:(lia) Hb) as (_ & Hx & Hy).
  pose proof (pow2_pos (mbits f) ltac:(lia)). pose proof (pow2_pos (ebits f) ltac:(lia)).
  assert (f_mag f b < infinity f) as Hlt.
  { unfold infinity. pose proof (Z.div_mod (f_mag f b) (2 ^ mbits f) ltac:(lia)). nia. }
  pose proof (units_strict f _ _ (conj Hp Hlt)). pose proof (units_nonneg _ Hp).
  unfold scaled. destruct (f_sign f b =? 0); lia.
Qed.

Lemma real_le_scaled a b :
  0 ≤ a < 2 ^ fwidth f → 0 ≤ b < 2 ^ fwidth f → f_is_nan f a = false → f_is_nan f b = false →
  real_le (real_of f a) (real_of f b) ↔ scaled a ≤ scaled b.
Proof.
  intros Ha Hb Na Nb. unfold real_of. rewrite Na, Nb.
  assert (0 < units f (infinity f)) as Hpos.
  { pose proof ieee_mbits. pose proof ieee_ebits. pose proof (pow2_pos (mbits f) ltac:(lia)).
    pose proof (Z.pow_le_mono_r 2 2 (ebits f) ltac:(lia) ltac:(lia)).
    pose proof (units_strict f 0 (infinity f) ltac:(unfold infinity; nia)).
    pose proof (units_nonneg 0 ltac:(lia)). lia. }
  destruct (Z.eqb_spec (f_exp f a) (2 ^ ebits f - 1)) as [Ea|Ea], (Z.eqb_spec (f_exp f b) (2 ^ ebits f - 1)) as [Eb|Eb].
  - rewrite !scaled_infinite by done. destruct (f_sign f a =? 0), (f_sign f b =? 0); cbn -[Z.mul]; split; try done; lia.
  - rewrite scaled_infinite by done. pose proof (scaled_finite b Hb Eb).
    destruct (f_value f b). destruct (f_sign f a =? 0); cbn -[Z.mul]; split; try done; lia.
  - rewrite (scaled_infinite b) by done. pose proof (scaled_finite a Ha Ea).
    destruct (f_value f a). destruct (f_sign f b =? 0); cbn -[Z.mul]; split; try done; lia.
  - pose proof (scaled_value a) as [<- H1]. pose proof (scaled_value b) as [<- H2].
    destruct (f_value f a), (f_value f b). by apply real_le_at.
Qed.
End Real.

(** What [<] of two doubles says of the numbers. *)
Lemma f_ltb_real a b :
  0 ≤ a < 2 ^ 64 → 0 ≤ b < 2 ^ 64 →
  f_ltb f64 a b = false ↔
  real_of f64 a = R_nan ∨ real_of f64 b = R_nan ∨ real_le (real_of f64 b) (real_of f64 a).
Proof.
  intros Ha Hb. assert (∀ x, real_of f64 x = R_nan ↔ f_is_nan f64 x = true) as Hn.
  { intros x. unfold real_of. destruct (f_is_nan f64 x); [done|].
    destruct (_ =? _), (f_value f64 x); done. }
  rewrite !Hn. unfold f_ltb. destruct (f_is_nan f64 a) eqn:Na; [by split; [left|]|].
  destruct (f_is_nan f64 b) eqn:Nb; [by split; [right; left|]|].
  rewrite real_le_scaled by done. cbn [negb andb]. rewrite Z.ltb_ge.
  pose proof (key_scaled f64 a b). split; [intros ?; right; right; lia|]. intros [?|[?|?]]; [done..|lia].
Qed.

(** The fields of a widened float. *)
Lemma widened_fields z :
  0 ≤ z < 2 ^ 32 →
  f_sign f64 (f32_to_f64 z) = f_sign f32 z ∧
  (f_exp f64 (f32_to_f64 z) = 2047 ↔ f_exp f32 z = 255) ∧
  (f_exp f32 z = 255 → (f_man f64 (f32_to_f64 z) = 0 ↔ f_man f32 z = 0)).
Proof.
  intros Hz. destruct (f_fields_range f32 z ltac:(cbn; lia) ltac:(cbn; lia) Hz) as (Hs & He & Hm).
  change (2 ^ ebits f32) with 256 in He. change (2 ^ mbits f32) with 8388608 in Hm.
  assert (∀ e m, 0 ≤ e < 2048 → 0 ≤ m < 2 ^ 52 →
    f_sign f64 (f_make f64 (f_sign f32 z) e m) = f_sign f32 z ∧
    f_exp f64 (f_make f64 (f_sign f32 z) e m) = e ∧ f_man f64 (f_make f64 (f_sign f32 z) e m) = m) as Hf.
  { intros e m ? ?. apply f_make_fields; cbn; lia. }
  unfold f32_to_f64. cbv zeta. destruct (Z.eqb_spec (f_exp f32 z) 255) as [E|E].
  - assert (0 ≤ (if f_man f32 z =? 0 then 0 else Z.lor (f_man f32 z * 2 ^ 29) (2 ^ 51)) < 2 ^ 52 ∧
      ((if f_man f32 z =? 0 then 0 else Z.lor (f_man f32 z * 2 ^ 29) (2 ^ 51)) = 0 ↔ f_man f32 z = 0)) as [Hr H0].
    { destruct (Z.eqb_spec (f_man f32 z) 0) as [|Hn]; [by split|].
      assert (Z.lor (f_man f32 z * 2 ^ 29) (2 ^ 51) ≠ 0) as Hne by (rewrite Z.lor_eq_0_iff; by intros [_ ?]).
      assert (0 ≤ Z.lor (f_man f32 z * 2 ^ 29) (2 ^ 51)) by (apply Z.lor_nonneg; lia).
      split; [|done]. split; [done|]. apply Z.log2_lt_cancel. rewrite Z.log2_lor by lia.
      change (Z.log2 (2 ^ 51)) with 51. change (Z.log2 (2 ^ 52)) with 52.
      enough (Z.log2 (f_man f32 z * 2 ^ 29) < 52) by lia. apply Z.log2_lt_pow2; lia. }
    destruct (Hf 2047 _ ltac:(lia) Hr) as (-> & -> & ->). by rewrite E.
  - destruct (Z.eqb_spec (f_exp f32 z) 0) as [E0|E0]; [destruct (Z.eqb_spec (f_man f32 z) 0) as [M0|M0]|].
    + destruct (Hf 0 0) as (-> & -> & _); [lia..|]. split_and!; [done|lia|done].
    + destruct (log2_split (f_man f32 z)) as (? & ? & _); [lia..|].
      destruct (Hf (Z.log2 (f_man f32 z) + 874) ((f_man f32 z - 2 ^ Z.log2 (f_man f32 z)) * 2 ^ (52 - Z.log2 (f_man f32 z))))
        as (-> & -> & _); [lia..|]. split_and!; [done|lia|done].
    + destruct (Hf (f_exp f32 z + 896) (f_man f32 z * 2 ^ 29)) as (-> & -> & _); [lia..|].
      split_and!; [done|lia|done].
Qed.

(** A float widened to double is the same number. *)
Lemma real_widened z y :
  0 ≤ z < 2 ^ 32 →
  (real_of f64 (f32_to_f64 z) = R_nan ↔ real_of f32 z = R_nan) ∧
  (real_le (real_of f64 (f32_to_f64 z)) y ↔ real_le (real_of f32 z) y) ∧
  (real_le y (real_of f64 (f32_to_f64 z)) ↔ real_le y (real_of f32 z)).
Proof.
  intros Hz. destruct (widened_fields z Hz) as (Hs & He & Hm).
  pose proof (f32_to_f64_exact z Hz) as Hx. pose proof (f32_to_f64_exponent z Hz) as Hle.
  unfold real_of, f_is_nan. change (2 ^ ebits f64 - 1) with 2047. change (2 ^ ebits f32 - 1) with 255.
  destruct (Z.eqb_spec (f_exp f32 z) 255) as [E|E].
  - specialize (Hm E). apply He in E as ->. rewrite Hs. cbn [andb].
    destruct (Z.eqb_spec (f_man f32 z) 0), (Z.eqb_spec (f_man f64 (f32_to_f64 z)) 0); try tauto; done.
  - destruct (Z.eqb_spec (f_exp f64 (f32_to_f64 z)) 2047) as [E'|_]; [by apply He in E'|]. cbn [andb].
    specialize (Hx E). specialize (Hle E). destruct (f_value f64 (f32_to_f64 z)) as [m' e'].
    destruct (f_value f32 z) as [m e]. cbn [fst snd] in *. subst m'. split; [done|].
    destruct y as [|[]|m1 e1]; [done..|]. pose proof (Z.le_min_l e' e1). pose proof (Z.le_min_r e' e1).
    rewrite !(real_le_at (Z.min e' e1)) by lia.
    replace (e - Z.min e' e1) with (e - e' + (e' - Z.min e' e1)) by lia.
    rewrite Z.pow_add_r by lia. by rewrite Z.mul_assoc.
Qed.
