(* ===== verification/Utilities.v ===== *)
(** * The helpers under utilities/

    [utilities/core/convert_string.h], its stub [utilities/convert_string_stub.cpp],
    [utilities/conversion/convert_string.h] and [utilities/core/formatter.h].
    The accumulators of base64 are [int]s that are shifted without a mask: in
    C++20 a left shift keeps the low 32 bits ([swrap 32]).  A loop that may not
    end has fuel. *)

From S2P Require Import Prelude Regex Numbers.

(** The index of the first occurrence. *)
Fixpoint find_text (pat s : text) : option nat :=
  if bool_decide (take (length pat) s = pat) then Some O
  else match s with [] => None | _ :: s' => S <$> find_text pat s' end.

(** [str.find(pat, pos)] *)
Definition find_from (pat s : text) (pos : nat) : option nat :=
  if (pos <=? length s)%nat then Nat.add pos <$> find_text pat (drop pos s) else None.

(** ** utility_module::convert_string *)

Module convert_string.

(** The second component is the message of an exception; there is none. *)
Definition to_array (str : text) : list byte * string := (str, ""%string).
Definition to_string (arr : list byte) : text * string := (arr, ""%string).
Definition to_string_id (str : text) : text * string := (str, ""%string).

Definition chars : text :=
  str_bytes "ABCDEFGHIJKLMNOPQRSTUVWXYZabcdefghijklmnopqrstuvwxyz0123456789+/".
Definition char_at (i : Z) : byte := nth (Z.to_nat i) chars x3d.

(** [while (valb >= 0) { push chars[(val >> valb) & 0x3F]; valb -= 6; }]; it is
    entered with at most 6. *)
Fixpoint emit (fuel : nat) (val valb : Z) (result : text) : Z * text :=
  match fuel with
  | O => (valb, result)
  | S fuel =>
      if 0 <=? valb
      then emit fuel val (valb - 6) (result ++ [char_at (Z.land (Z.shiftr val valb) 0x3F)])
      else (valb, result)
  end.

Fixpoint encode_loop (data : list byte) (val valb : Z) (result : text) : Z * Z * text :=
  match data with
  | [] => (val, valb, result)
  | c :: data =>
      let val := swrap 32 (swrap 32 (Z.shiftl val 8) + u8 c) in
      let '(valb, result) := emit 2 val (valb + 8) result in
      encode_loop data val valb result
  end.

(** [while (result.size() % 4) result.push_back('=');] *)
Definition pad (result : text) : text :=
  result ++ replicate (Z.to_nat ((- Z.of_nat (length result)) mod 4)) x3d.

Definition to_base64 (data : list byte) : text * string :=
  let '(val, valb, result) := encode_loop data 0 (-6) [] in
  let result :=
    if -6 <? valb
    then result ++ [char_at (Z.land (Z.shiftr (swrap 32 (Z.shiftl val 8)) (valb + 8)) 0x3F)]
    else result in
  (pad result, ""%string).

(** One character: the value is shifted in, and a byte leaves when there are eight bits. *)
Definition decode_char (pos val valb : Z) (result : list byte) : Z * Z * list byte :=
  let val := swrap 32 (swrap 32 (Z.shiftl val 6) + pos) in
  let valb := valb + 6 in
  if 0 <=? valb then (val, valb - 8, result ++ [to_u8 (Z.land (Z.shiftr val valb) 0xFF)])
  else (val, valb, result).

(** A character outside the alphabet is skipped. *)
Fixpoint decode_loop (str : text) (val valb : Z) (result : list byte) : list byte :=
  match str with
  | [] => result
  | c :: str =>
      if bool_decide (c = x3d) then result
      else match find_text [c] chars with
           | None => decode_loop str val valb result
           | Some pos =>
               let '(val, valb, result) := decode_char (Z.of_nat pos) val valb result in
               decode_loop str val valb result
           end
  end.

Definition from_base64 (str : text) : list byte * string := (decode_loop str 0 (-8) [], ""%string).

(** The loop of [replace]. *)
Fixpoint replace_loop (fuel : nat) (from to str : text) (start_pos : nat) : res text :=
  match fuel with
  | O => NoFuel
  | S fuel =>
      match find_from from str start_pos with
      | None => Val str
      | Some p =>
          replace_loop fuel from to (take p str ++ to ++ drop (p + length from) str)
            (p + length to)
      end
  end.

Definition replace (str from to : text) : res text :=
  if bool_decide (from = []) then Val str else replace_loop (S (length str)) from to str 0.

End convert_string.

(** ** The stub, which is built when the utilities are not *)

Module convert_string_stub.
Import convert_string.

Definition to_base64 (data : list byte) : option text * option string :=
  ((λ r, Some r) (convert_string.to_base64 data).1, None).

(** [T[c]] with a [char], which is signed: a byte of 128 and more is a negative index. *)
Fixpoint decode_loop (str : text) (val valb : Z) (result : list byte) : res (list byte) :=
  match str with
  | [] => Val result
  | c :: str =>
      if 128 <=? u8 c then Undef
      else match find_text [c] chars with
           | None => Val result
           | Some pos =>
               let '(val, valb, result) := decode_char (Z.of_nat pos) val valb result in
               decode_loop str val valb result
           end
  end.

Definition from_base64 (str : text) : res (list byte * option string) :=
  let? r := decode_loop str 0 (-8) [] in Val (r, None).

(** The same loop without the test for an empty [from]. *)
Definition replace (fuel : nat) (str from to : text) : res text := replace_loop fuel from to str 0.

Definition to_array (str : text) : option (list byte) * option string := (Some str, None).
Definition to_string (data : list byte) : option text * option string := (Some data, None).

End convert_string_stub.

(** ** utilities::conversion::convert_string *)

Module conversion_string.

(** [to_string<T>] of integers, of [bool] and of strings. *)
Definition to_string_int (value : Z) : text := str_bytes (Prelude.to_string value).
Definition to_string_bool (value : bool) : text := str_bytes (if value then "true" else "false").
Definition to_string_text (value : text) : text := value.

(** [from_string<T>]; for other types a stream is read. *)
Definition from_string_text (str : text) : text := str.
Definition from_string_int (str : text) : Z + std_exception := stoi str.
Definition from_string_long (str : text) : Z + std_exception := stol str.
Definition from_string_llong (str : text) : Z + std_exception := stoll str.
Definition from_string_float (str : text) : Z + std_exception := stof str.
Definition from_string_double (str : text) : Z + std_exception := stod str.
Definition from_string_bool (str : text) : bool :=
  bool_decide (str = str_bytes "true" ∨ str = str_bytes "1" ∨ str = str_bytes "yes").

(** [oss << std::hex << int]: no leading zero. *)
Definition byte_hex (b : byte) : text :=
  if u8 b <? 16 then [hex_digit (u8 b)] else [hex_digit (u8 b / 16); hex_digit (u8 b mod 16)].
Definition bytes_to_hex (bytes : list byte) : text := concat (byte_hex <$> bytes).

(** [std::stoul(str, nullptr, 16)]: blanks, a sign, [0x] in front of a digit. *)
Definition stoul_16 (s : text) : Z + std_exception :=
  let (neg, s) := read_sign (skip_spaces s) in
  let s := match s with
           | a :: b :: c :: _ =>
               if starts "0x" s && match digit_of 16 c with Some _ => true | None => false end
               then drop 2 s else s
           | _ => s
           end in
  let '(m, n, _) := read_base 16 s 0 0 in
  if n =? 0 then inr (invalid_argument "stoul")
  else if m <? 2 ^ 64 then inl (if neg : bool then wrap 64 (- m) else m)
  else inr (out_of_range "stoul").

(** The loop takes two characters at a time; the last may be alone. *)
Fixpoint hex_to_bytes (hex : text) : list byte + std_exception :=
  let read byte_str rest :=
    match stoul_16 byte_str with
    | inr e => inr e
    | inl n => match rest with inl bs => inl (to_u8 n :: bs) | inr e => inr e end
    end in
  match hex with
  | [] => inl []
  | [a] => read [a] (inl [])
  | a :: b :: hex => read [a; b] (hex_to_bytes hex)
  end.

Definition blank (b : byte) : bool :=
  bool_decide (b = x20 ∨ b = x09 ∨ b = x0d ∨ b = x0a).

Fixpoint drop_blanks (s : text) : text :=
  match s with b :: s' => if blank b then drop_blanks s' else s | [] => [] end.

(** From the first to the last character that is no blank. *)
Definition trim (str : text) : text := rev (drop_blanks (rev (drop_blanks str))).

(** [std::getline(iss, token, delimiter)]: nothing is read at the end of the text. *)
Fixpoint split_at (delimiter : byte) (token : text) (str : text) : list text :=
  match str with
  | [] => match token with [] => [] | _ => [rev token] end
  | b :: str =>
      if bool_decide (b = delimiter) then rev token :: split_at delimiter [] str
      else split_at delimiter (b :: token) str
  end.
Definition split (str : text) (delimiter : byte) : list text := split_at delimiter [] str.

Definition join (strings : list text) (delimiter : text) : text :=
  match strings with
  | [] => []
  | s :: strings => s ++ concat ((λ s, delimiter ++ s) <$> strings)
  end.

End conversion_string.

(** ** utility_module::formatter *)

Module formatter.

(** What [std::vformat] makes of a format string whose only replacement fields are
    the empty braces; a field with an index or a specification occurs nowhere. *)
Inductive formatted : Type := Formatted (s : text) | Format_error | Other_field.

Definition prepend (p : text) (r : formatted) : formatted :=
  match r with Formatted s => Formatted (p ++ s) | r => r end.

Fixpoint vformat (format_str : text) (args : list text) : formatted :=
  match format_str with
  | [] => Formatted []
  | x7b :: x7b :: s => prepend [x7b] (vformat s args)
  | x7b :: x7d :: s => match args with a :: args => prepend a (vformat s args) | [] => Format_error end
  | [x7b] => Format_error
  | x7b :: _ => Other_field
  | x7d :: x7d :: s => prepend [x7d] (vformat s args)
  | x7d :: _ => Format_error
  | b :: s => prepend [b] (vformat s args)
  end.

(** With [<format>]: the format string is the answer to an error. *)
Definition format (format_str : text) (args : list text) : option text :=
  match vformat format_str args with
  | Formatted s => Some s
  | Format_error => Some format_str
  | Other_field => None
  end.

(** The overload for a text alone, which leaves braces as they are. *)
Definition format_plain (format_str : text) : text := format_str.

(** Without it: every argument replaces the first empty braces. *)
Definition replace_next (str value : text) : text :=
  match find_text [x7b; x7d] str with
  | None => str
  | Some pos => take pos str ++ value ++ drop (pos + 2) str
  end.

Definition format_fallback (format_str : text) (args : list text) : text :=
  fold_left replace_next args format_str.

(** What was written before an error stays written, and how much that is the
    standard does not say: [None]. *)
Definition format_to (format_str : text) (args : list text) (out : text) : option text :=
  match vformat format_str args with Formatted s => Some (out ++ s) | _ => None end.

Definition format_to_fallback (format_str : text) (args : list text) (out : text) : text :=
  out ++ format_fallback format_str args.

End formatter.
