(* ===== verification/Json.v ===== *)
(** * Reading JSON

    A reader of RFC 8259 for the texts that the program prints, against which its
    JSON writers are stated.  A number is kept as it is written (without
    exponents, which [std::to_string] does not print); the characters of a string
    are decoded, an escaped code point to its UTF-8 bytes (surrogates are refused).

    [denotes s v] says that [s], in whatever text it stands, is read as [v]; there
    is one lemma for each way to build such a text ([denotes_array],
    [denotes_object], ...), which the theorems about writers compose. *)

From S2P Require Import Prelude Bytes Float Regex Numbers Decimal FloatArith.
#[local] Open Scope Z_scope.

Inductive json : Type :=
| J_null
| J_bool (b : bool)
| J_num (t : text)
| J_str (s : text)
| J_arr (vs : list json)
| J_obj (members : list (text * json)).

Section Induction.
Context (P : json → Prop) (Hnull : P J_null) (Hbool : ∀ b, P (J_bool b)).
Context (Hnum : ∀ t, P (J_num t)) (Hstr : ∀ s, P (J_str s)).
Context (Harr : ∀ vs, Forall P vs → P (J_arr vs)).
Context (Hobj : ∀ ms, Forall (λ kv, P kv.2) ms → P (J_obj ms)).

Fixpoint json_induction (v : json) : P v :=
  match v with
  | J_null => Hnull
  | J_bool b => Hbool b
  | J_num t => Hnum t
  | J_str s => Hstr s
  | J_arr vs =>
      Harr vs ((fix go vs : Forall P vs :=
        match vs with
        | [] => Forall_nil _
        | v :: vs => Forall_cons _ v vs (json_induction v) (go vs)
        end) vs)
  | J_obj ms =>
      Hobj ms ((fix go ms : Forall (λ kv : text * json, P kv.2) ms :=
        match ms with
        | [] => Forall_nil _
        | kv :: ms => Forall_cons _ kv ms (json_induction kv.2) (go ms)
        end) ms)
  end.
End Induction.

Definition blank (b : byte) : bool :=
  bool_decide (b = x20) || bool_decide (b = x09) || bool_decide (b = x0a) || bool_decide (b = x0d).

Fixpoint skip_blank (s : text) : text :=
  match s with
  | b :: s' => if blank b then skip_blank s' else s
  | [] => []
  end.

(** ** Strings *)

(** The code point in the bytes of UTF-8, up to 0xffff. *)
Definition utf8 (n : Z) : text :=
  if n <? 0x80 then [to_u8 n]
  else if n <? 0x800 then [to_u8 (0xc0 + n / 64); to_u8 (0x80 + n mod 64)]
  else [to_u8 (0xe0 + n / 4096); to_u8 (0x80 + n / 64 mod 64); to_u8 (0x80 + n mod 64)].

Definition hex_value (s : text) : option Z :=
  foldl (λ acc b, a ← acc; d ← digit_of 16 b; Some (16 * a + d)) (Some 0) s.

(** RFC 8259, section 7: one character, and what follows it. *)
Definition string_step (s : text) : option (text * text) :=
  match s with
  | [] => None
  | c :: r =>
      if bool_decide (c = x5c) then
        match r with
        | [] => None
        | e :: r =>
            if bool_decide (e = x75) then
              n ← hex_value (take 4 r);
              if (length r <? 4)%nat || ((0xd800 <=? n) && (n <? 0xe000)) then None
              else Some (utf8 n, drop 4 r)
            else
              b ← (match u8 e with
                   | 34 => Some x22 | 92 => Some x5c | 47 => Some x2f | 98 => Some x08
                   | 102 => Some x0c | 110 => Some x0a | 114 => Some x0d | 116 => Some x09
                   | _ => None
                   end);
              Some ([b], r)
        end
      else if bool_decide (c = x22) || (u8 c <? 32) then None else Some ([c], r)
  end.

(** The characters up to the closing quote, and what follows it. *)
Fixpoint read_string (fuel : nat) (s : text) : option (text * text) :=
  match fuel with
  | O => None
  | S fuel =>
      match s with
      | [] => None
      | b :: r =>
          if bool_decide (b = x22) then Some ([], r)
          else '(c, r) ← string_step s; '(t, r) ← read_string fuel r; Some (c ++ t, r)
      end
  end.

(** ** Numbers and literals *)

Fixpoint span_digits (s : text) : text * text :=
  match s with
  | b :: s' => if digit b then let (t, r) := span_digits s' in (b :: t, r) else ([], s)
  | [] => ([], [])
  end.

(** Section 6, without exponents: no leading zeros, digits behind a point. *)
Definition read_unsigned (s : text) : option (text * text) :=
  let (int, s) := span_digits s in
  if bool_decide (int = []) || (bool_decide (head int = Some x30) && (1 <? Z.of_nat (length int)))
  then None
  else
    match s with
    | x2e :: s' =>
        let (frac, s') := span_digits s' in
        match frac with [] => None | _ => Some (int ++ x2e :: frac, s') end
    | _ => Some (int, s)
    end.

Definition read_number (s : text) : option (text * text) :=
  match s with
  | x2d :: s' => '(t, r) ← read_unsigned s'; Some (x2d :: t, r)
  | _ => read_unsigned s
  end.

(** A text that starts with the word, and what follows. *)
Definition literal (word : string) (v : json) (s : text) : option (json * text) :=
  let w := str_bytes word in
  if bool_decide (take (length w) s = w) then Some (v, drop (length w) s) else None.

Definition read_scalar (s : text) : option (json * text) :=
  match literal "null" J_null s with
  | Some r => Some r
  | None =>
      match literal "true" (J_bool true) s with
      | Some r => Some r
      | None =>
          match literal "false" (J_bool false) s with
          | Some r => Some r
          | None => '(t, r) ← read_number s; Some (J_num t, r)
          end
      end
  end.

(** ** Values *)

(** The text behind the character [b], when it comes next. *)
Definition expect (b : byte) (s : text) : option text :=
  match skip_blank s with
  | c :: r => if bool_decide (c = b) then Some r else None
  | [] => None
  end.

Fixpoint read_json (fuel : nat) (s : text) : option (json * text) :=
  match fuel with
  | O => None
  | S fuel =>
      match skip_blank s with
      | x7b :: s =>
          match expect x7d s with
          | Some r => Some (J_obj [], r)
          | None => '(ms, r) ← read_members fuel s; Some (J_obj ms, r)
          end
      | x5b :: s =>
          match expect x5d s with
          | Some r => Some (J_arr [], r)
          | None => '(vs, r) ← read_elements fuel s; Some (J_arr vs, r)
          end
      | x22 :: s => '(t, r) ← read_string (length s) s; Some (J_str t, r)
      | s => read_scalar s
      end
  end
with read_elements (fuel : nat) (s : text) : option (list json * text) :=
  match fuel with
  | O => None
  | S fuel =>
      '(v, s) ← read_json fuel s;
      match skip_blank s with
      | x2c :: s => '(vs, r) ← read_elements fuel s; Some (v :: vs, r)
      | x5d :: r => Some ([v], r)
      | _ => None
      end
  end
with read_members (fuel : nat) (s : text) : option (list (text * json) * text) :=
  match fuel with
  | O => None
  | S fuel =>
      match skip_blank s with
      | x22 :: s =>
          '(k, s) ← read_string (length s) s;
          match skip_blank s with
          | x3a :: s =>
              '(v, s) ← read_json fuel s;
              match skip_blank s with
              | x2c :: s => '(ms, r) ← read_members fuel s; Some ((k, v) :: ms, r)
              | x7d :: r => Some ([(k, v)], r)
              | _ => None
              end
          | _ => None
          end
      | _ => None
      end
  end.

(** A whole text. *)
Definition parse_json (s : text) : option json :=
  '(v, r) ← read_json (length s) s;
  match skip_blank r with [] => Some v | _ => None end.

(** [{"a" : [1, -0.5,true,null], "\u00e9":{}}] *)
Example parse_json_example :
  parse_json ([x7b; x22] ++ str_bytes "a" ++ [x22] ++ str_bytes " : [1, -0.5,true,null], " ++
              [x22; x5c] ++ str_bytes "u00e9" ++ [x22] ++ str_bytes ":{}}")
  = Some (J_obj [(str_bytes "a", J_arr [J_num (str_bytes "1"); J_num (str_bytes "-0.5");
                                        J_bool true; J_null]);
                 ([xc3; xa9], J_obj [])]).
Proof. by vm_compute. Qed.

(** ** What a text denotes *)

(** What may follow a value. *)
Definition delimited (r : text) : bool :=
  match r with
  | [] => true
  | b :: _ => blank b || bool_decide (b = x2c) || bool_decide (b = x5d) || bool_decide (b = x7d)
  end.

Definition blanks (w : text) : Prop := Forall (λ b, blank b = true) w.

(** The first character of a value. *)
Definition opens (s : text) : Prop :=
  ∃ b s', s = b :: s' ∧ blank b = false ∧ b ≠ x5d ∧ b ≠ x7d.

Record denotes (s : text) (v : json) : Prop := Denotes {
  denotes_opens : opens s;
  denotes_read fuel r : (length s ≤ fuel)%nat → delimited r = true →
    read_json fuel (s ++ r) = Some (v, r) }.

Definition denotes_string (s t : text) : Prop :=
  ∀ fuel r, (length s < fuel)%nat → read_string fuel (s ++ x22 :: r) = Some (t, r).

Definition denotes_number (t : text) : Prop :=
  (∃ b t', t = b :: t' ∧ (digit b = true ∨ b = x2d)) ∧
  ∀ r, delimited r = true → read_number (t ++ r) = Some (t, r).

(** The members of an object up to the closing brace, the elements of an array up
    to the closing bracket. *)
Inductive denotes_members : text → list (text * json) → Prop :=
| DM_one w1 w2 w3 k s key v :
    blanks w1 → blanks w2 → blanks w3 → denotes_string k key → denotes s v →
    denotes_members (w1 ++ x22 :: k ++ x22 :: x3a :: w2 ++ s ++ w3 ++ [x7d]) [(key, v)]
| DM_cons w1 w2 w3 k s key v m ms :
    blanks w1 → blanks w2 → blanks w3 → denotes_string k key → denotes s v →
    denotes_members m ms →
    denotes_members (w1 ++ x22 :: k ++ x22 :: x3a :: w2 ++ s ++ w3 ++ x2c :: m) ((key, v) :: ms).

Inductive denotes_elements : text → list json → Prop :=
| DE_one w1 w2 s v :
    blanks w1 → blanks w2 → denotes s v → denotes_elements (w1 ++ s ++ w2 ++ [x5d]) [v]
| DE_cons w1 w2 s v e vs :
    blanks w1 → blanks w2 → denotes s v → denotes_elements e vs →
    denotes_elements (w1 ++ s ++ w2 ++ x2c :: e) (v :: vs).

(** ** Blanks *)

Lemma skip_blanks w s : blanks w → skip_blank (w ++ s) = skip_blank s.
Proof. induction 1 as [|b w Hb _ IH]; [done|]. cbn [app skip_blank]. by rewrite Hb. Qed.

Lemma skip_opens s r : opens s → skip_blank (s ++ r) = s ++ r.
Proof. intros (b & s' & -> & Hb & _). cbn [app skip_blank]. by rewrite Hb. Qed.

Lemma read_json_blanks fuel w s : blanks w → read_json fuel (w ++ s) = read_json fuel s.
Proof. intros Hw. destruct fuel; [done|]. cbn [read_json]. by rewrite skip_blanks. Qed.

Lemma delimited_blanks w r : blanks w → delimited r = true → delimited (w ++ r) = true.
Proof. intros [|b w' Hb _] Hr; [done|]. cbn [app delimited]. by rewrite Hb. Qed.

Lemma blanks_nil : blanks [].
Proof. constructor. Qed.
#[export] Hint Resolve blanks_nil delimited_blanks : json.

(** A value with blanks around it. *)
Lemma read_padded fuel w1 s w2 v b r :
  blanks w1 → blanks w2 → denotes s v → (length s ≤ fuel)%nat → delimited (b :: r) = true →
  read_json fuel (w1 ++ s ++ w2 ++ b :: r) = Some (v, w2 ++ b :: r).
Proof.
  intros H1 H2 Hv Hf Hr. rewrite read_json_blanks by done.
  apply (denotes_read s v Hv); auto with json.
Qed.

(** ** The reader on members and elements *)

Lemma expect_none b s r : opens s → (∀ s', s = b :: s' → False) → expect b (s ++ r) = None.
Proof.
  intros Hs Hb. unfold expect. rewrite skip_opens by done. destruct Hs as (c & s' & -> & _).
  cbn [app]. rewrite bool_decide_eq_false_2; [done|]. intros ->. by apply (Hb s').
Qed.

Lemma expect_blanks b w s : blanks w → expect b (w ++ s) = expect b s.
Proof. intros Hw. unfold expect. by rewrite skip_blanks. Qed.

Lemma read_members_denoted m ms fuel r :
  denotes_members m ms → (length m ≤ fuel)%nat → read_members fuel (m ++ r) = Some (ms, r).
Proof.
  intros Hm. revert fuel. induction Hm as [w1 w2 w3 k s key v H1 H2 H3 Hk Hv
    |w1 w2 w3 k s key v m ms H1 H2 H3 Hk Hv _ IH]; intros [|fuel];
    rewrite !length_app; cbn [length]; rewrite !length_app; cbn [length];
    rewrite !length_app; cbn [length]; intros Hf; [lia| |lia|];
    rewrite <-!app_assoc, <-!app_comm_cons, <-!app_assoc, <-!app_comm_cons, <-!app_assoc;
    cbn [read_members app]; rewrite skip_blanks by done;
    change (skip_blank (x22 :: ?s)) with (x22 :: s); cbv iota;
    rewrite Hk by (rewrite !length_app; simpl; lia);
    cbn [mbind option_bind]; change (skip_blank (x3a :: ?s)) with (x3a :: s); cbv iota.
  - rewrite (read_padded fuel w2 s w3 v) by (done || lia).
    cbn [mbind option_bind]. by rewrite skip_blanks.
  - rewrite (read_padded fuel w2 s w3 v) by (done || lia).
    cbn [mbind option_bind]. rewrite skip_blanks by done.
    change (skip_blank (x2c :: ?s)) with (x2c :: s). cbv iota. by rewrite IH by lia.
Qed.

Lemma read_elements_denoted e vs fuel r :
  denotes_elements e vs → (length e ≤ fuel)%nat → read_elements fuel (e ++ r) = Some (vs, r).
Proof.
  intros He. revert fuel. induction He as [w1 w2 s v H1 H2 Hv|w1 w2 s v e vs H1 H2 Hv _ IH];
    intros [|fuel]; rewrite !length_app; cbn [length]; rewrite ?length_app; intros Hf;
    [lia| |lia|]; rewrite <-!app_assoc, <-?app_comm_cons; cbn [read_elements app].
  - rewrite (read_padded fuel w1 s w2 v) by (done || lia).
    cbn [mbind option_bind]. by rewrite skip_blanks.
  - rewrite (read_padded fuel w1 s w2 v) by (done || lia).
    cbn [mbind option_bind]. rewrite skip_blanks by done.
    change (skip_blank (x2c :: ?s)) with (x2c :: s). cbv iota. by rewrite IH by lia.
Qed.

(** ** What denotes what *)

Lemma denotes_empty_object : denotes [x7b; x7d] (J_obj []).
Proof. split; [by exists x7b, [x7d]|]. by intros [|fuel] r Hf; [simpl in Hf; lia|]. Qed.

Lemma denotes_empty_array : denotes [x5b; x5d] (J_arr []).
Proof. split; [by exists x5b, [x5d]|]. by intros [|fuel] r Hf; [simpl in Hf; lia|]. Qed.

Lemma denotes_object m ms : denotes_members m ms → denotes (x7b :: m) (J_obj ms).
Proof.
  intros Hm. split; [by exists x7b, m|]. intros [|fuel] r Hf _; simpl in Hf; [lia|].
  assert (∃ w k t, blanks w ∧ m = w ++ x22 :: k ++ x22 :: x3a :: t) as (w & k & t & Hw & Em).
  { destruct Hm as [w1 w2 w3 k s|w1 w2 w3 k s key v m]; by eexists w1, k, _. }
  cbn [read_json app]. change (skip_blank (x7b :: ?s)) with (x7b :: s). cbv iota.
  assert (expect x7d (m ++ r) = None) as ->.
  { subst m. by rewrite <-app_assoc, expect_blanks. }
  by rewrite (read_members_denoted m ms) by (done || lia).
Qed.

Lemma denotes_array e vs : denotes_elements e vs → denotes (x5b :: e) (J_arr vs).
Proof.
  intros He. split; [by exists x5b, e|]. intros [|fuel] r Hf _; simpl in Hf; [lia|].
  assert (∃ w s t, blanks w ∧ opens s ∧ e = w ++ s ++ t) as (w & s & t & Hw & Hs & Ee).
  { destruct He as [w1 w2 s v ? ? [Hs _]|w1 w2 s v e vs ? ? [Hs _] _]; by eexists w1, s, _. }
  cbn [read_json app]. change (skip_blank (x5b :: ?s)) with (x5b :: s). cbv iota.
  assert (expect x5d (e ++ r) = None) as ->.
  { subst e. rewrite <-!app_assoc, expect_blanks by done.
    apply expect_none; [done|]. intros s' E. destruct Hs as (b & s2 & -> & _ & H5d & _). congruence. }
  by rewrite (read_elements_denoted e vs) by (done || lia).
Qed.

Lemma denotes_str s t : denotes_string s t → denotes (x22 :: s ++ [x22]) (J_str t).
Proof.
  intros Hs. split; [by eexists x22, _|]. intros [|fuel] r Hf _; simpl in Hf; [lia|].
  cbn [read_json app]. change (skip_blank (x22 :: ?s)) with (x22 :: s). cbv iota.
  rewrite <-!app_assoc. cbn [app]. rewrite Hs; [done|]. rewrite !length_app. simpl. lia.
Qed.

Lemma opens_scalar s :
  opens s → (∀ b s', s = b :: s' → b ≠ x7b ∧ b ≠ x5b ∧ b ≠ x22) →
  ∀ fuel r, read_json (S fuel) (s ++ r) = read_scalar (s ++ r).
Proof.
  intros Hs Hb fuel r. cbn [read_json]. rewrite skip_opens by done.
  destruct Hs as (b & s' & -> & _). destruct (Hb b s' eq_refl) as (H1 & H2 & H3).
  clear Hb. cbn [app]. by destruct b.
Qed.

Lemma denotes_null : denotes (str_bytes "null") J_null.
Proof. split; [by eexists _, _|]. by intros [|fuel] r Hf _; [simpl in Hf; lia|]. Qed.

Lemma denotes_bool b : denotes (str_bytes (if b : bool then "true" else "false")) (J_bool b).
Proof.
  split; [destruct b; by eexists _, _|].
  by intros [|fuel] r Hf _; [destruct b; simpl in Hf; lia|destruct b].
Qed.

Lemma literal_none word v b s :
  head (str_bytes word) ≠ Some b → str_bytes word ≠ [] → literal word v (b :: s) = None.
Proof.
  intros Hb Hne. unfold literal. destruct (str_bytes word) as [|c w]; [done|].
  cbn [length take]. rewrite bool_decide_eq_false_2; [done|]. intros [= ->]. by apply Hb.
Qed.

Lemma denotes_num t : denotes_number t → denotes t (J_num t).
Proof.
  intros ((b & t' & -> & Hb) & Hr).
  assert (opens (b :: t')) as Ho by (exists b, t'; by destruct b, Hb).
  split; [done|]. intros [|fuel] r Hf Hd; [simpl in Hf; lia|].
  rewrite opens_scalar; [|done|intros ? ? [= <- <-]; by destruct b, Hb].
  unfold read_scalar. rewrite <-app_comm_cons.
  rewrite !literal_none by (try done; destruct b, Hb; done).
  rewrite app_comm_cons. by rewrite Hr.
Qed.

(** Members and elements without blanks, as the writers print them. *)
Lemma member_one k s key v :
  denotes_string k key → denotes s v →
  denotes_members (x22 :: k ++ x22 :: x3a :: s ++ [x7d]) [(key, v)].
Proof. intros. apply (DM_one [] [] []); auto with json. Qed.

Lemma member_cons k s key v m ms :
  denotes_string k key → denotes s v → denotes_members m ms →
  denotes_members (x22 :: k ++ x22 :: x3a :: s ++ x2c :: m) ((key, v) :: ms).
Proof. intros. apply (DM_cons [] [] []); auto with json. Qed.

Lemma element_one s v : denotes s v → denotes_elements (s ++ [x5d]) [v].
Proof. intros. apply (DE_one [] []); auto with json. Qed.

Lemma element_cons s v e vs :
  denotes s v → denotes_elements e vs → denotes_elements (s ++ x2c :: e) (v :: vs).
Proof. intros. apply (DE_cons [] []); auto with json. Qed.
#[export] Hint Resolve member_one member_cons element_one element_cons : json.

(** ** Strings *)

(** Characters that are written by [code] and mean [mean]. *)
Lemma denotes_encoded (code mean : byte → text) s :
  (∀ b, b ∈ s → (∀ r, string_step (code b ++ r) = Some (mean b, r)) ∧
                head (code b) ≠ Some x22 ∧ code b ≠ []) →
  denotes_string (concat (code <$> s)) (concat (mean <$> s)).
Proof.
  induction s as [|b s IH]; intros Hs [|fuel] r Hf; try (simpl in Hf; lia); [done|].
  destruct (Hs b) as (Hb & Hq & Hne); [by left|]. revert Hf.
  cbn [fmap list_fmap concat]. rewrite length_app, <-app_assoc. intros Hf.
  destruct (code b) as [|c w] eqn:E; [done|]. cbn [length] in Hf. cbn [app read_string].
  rewrite bool_decide_eq_false_2 by (intros ->; by apply Hq).
  rewrite app_comm_cons, Hb. cbn [mbind option_bind]. rewrite IH; [done| |lia].
  intros b' Hb'. apply Hs. by right.
Qed.

(** A text that stands for itself. *)
Definition plain (s : text) : Prop :=
  Forall (λ b, bool_decide (b = x22) || bool_decide (b = x5c) || (u8 b <? 32) = false) s.

Lemma plain_step b r :
  bool_decide (b = x22) || bool_decide (b = x5c) || (u8 b <? 32) = false →
  string_step (b :: r) = Some ([b], r).
Proof. rewrite !orb_false_iff. intros [[Hq Hb] Hc]. cbn [string_step]. by rewrite Hq, Hb, Hc. Qed.

Lemma concat_singletons (s : text) : concat ((λ b, [b]) <$> s) = s.
Proof. induction s as [|b s IH]; [done|]. cbn [fmap list_fmap concat app]. by f_equal. Qed.

Lemma denotes_plain s : plain s → denotes_string s s.
Proof.
  intros Hs. rewrite <-(concat_singletons s) at 1. rewrite <-(concat_singletons s) at 2.
  apply denotes_encoded. intros b Hb. unfold plain in Hs. rewrite list.Forall_forall in Hs.
  specialize (Hs b Hb). split_and!; [intros r; by apply plain_step| |done].
  simpl. intros [= ->]. done.
Qed.

(** ** Printed numbers are JSON numbers *)

Lemma read_digits_bound ds acc :
  Forall (λ b, digit b = true) ds → 0 ≤ acc →
  read_digits ds acc < (acc + 1) * 10 ^ Z.of_nat (length ds).
Proof.
  intros Hds. revert acc; induction Hds as [|b ds Hb _ IH]; intros acc Ha; [simpl; lia|].
  cbn [read_digits length]. rewrite Hb. unfold digit in Hb.
  specialize (IH (10 * acc + (u8 b - 48)) ltac:(lia)).
  rewrite Nat2Z.inj_succ, Z.pow_succ_r by lia.
  assert (0 < 10 ^ Z.of_nat (length ds)) by (apply Z.pow_pos_nonneg; lia). nia.
Qed.

(** Digits without leading zeros. *)
Definition plain_int (ds : text) : Prop :=
  Forall (λ b, digit b = true) ds ∧ ds ≠ [] ∧
  (bool_decide (head ds = Some x30) && (1 <? Z.of_nat (length ds)) = false).

Lemma to_string_plain_int z : 0 ≤ z → plain_int (str_bytes (to_string z)).
Proof.
  intros Hz. destruct (to_string_digits z) as (ds & -> & Hds & Hne & Hlen).
  rewrite (proj2 (Z.ltb_ge z 0)), Z.abs_eq in * by lia. rewrite app_nil_l.
  pose proof (digits_read _ _ Hds 0) as Hv. rewrite Z.mul_0_l, Z.add_0_l in Hv.
  destruct Hds as [Hd _]. split_and!; [done|done|].
  apply andb_false_iff. destruct (bool_decide_reflect (head ds = Some x30)) as [E|]; [right|by left].
  destruct ds as [|b [|c ds]]; [done|done|]. injection E as ->. apply Z.ltb_ge.
  inversion_clear Hd as [|? ? _ Hd'].
  pose proof (read_digits_bound (c :: ds) 0 Hd' ltac:(lia)) as Hb.
  change (read_digits (x30 :: c :: ds) 0) with (read_digits (c :: ds) 0) in Hv.
  rewrite Hv in Hb. specialize (Hlen (length ds)). simpl length in *. lia.
Qed.

Lemma span_digits_all ds s :
  Forall (λ b, digit b = true) ds → (∀ b r, s = b :: r → digit b = false) →
  span_digits (ds ++ s) = (ds, s).
Proof.
  intros Hds Hs. induction Hds as [|b ds Hb _ IH].
  - destruct s as [|b s]; [done|]. cbn [app span_digits]. by rewrite (Hs b s).
  - cbn [app span_digits]. by rewrite Hb, IH.
Qed.

Lemma delimited_not_digit r b s : delimited r = true → r = b :: s → digit b = false.
Proof. intros Hd ->. by destruct b. Qed.

(** The text of a number without its sign. *)
Definition magnitude (t : text) : Prop :=
  (∃ b t', t = b :: t' ∧ digit b = true) ∧
  ∀ r, delimited r = true → read_unsigned (t ++ r) = Some (t, r).

Lemma plain_int_head ds t :
  plain_int ds → ∃ b t', ds ++ t = b :: t' ∧ digit b = true.
Proof. intros (Hd & Hne & _). destruct Hd as [|b ds Hb _]; [done|]. by exists b, (ds ++ t). Qed.

Lemma magnitude_int ds : plain_int ds → magnitude ds.
Proof.
  intros Hds. split; [by rewrite <-(app_nil_r ds); apply plain_int_head|]. intros r Hr.
  destruct Hds as (Hd & Hne & Hz). unfold read_unsigned.
  rewrite span_digits_all; [|done|intros; by eapply delimited_not_digit].
  rewrite Hz. destruct (bool_decide_reflect (ds = [])); [done|]. cbn [orb].
  destruct r as [|b r]; [done|]. by destruct b.
Qed.

Lemma magnitude_decimal ds es :
  plain_int ds → Forall (λ b, digit b = true) es → es ≠ [] → magnitude (ds ++ x2e :: es).
Proof.
  intros Hds He Hne'. split; [by apply plain_int_head|]. intros r Hr.
  destruct Hds as (Hd & Hne & Hz). rewrite <-app_assoc. unfold read_unsigned.
  rewrite span_digits_all; [|done|by intros ? ? [= <- <-]].
  rewrite Hz. destruct (bool_decide_reflect (ds = [])); [done|]. cbn [orb app].
  rewrite span_digits_all; [|done|intros; by eapply delimited_not_digit]. by destruct es.
Qed.

Lemma denotes_magnitude (neg : bool) t :
  magnitude t → denotes_number ((if neg then [x2d] else []) ++ t).
Proof.
  intros [(b & t' & -> & Hb) Hr]. split.
  - destruct neg; [by exists x2d, (b :: t'); auto|by exists b, t'; auto].
  - intros r Hd. specialize (Hr r Hd). destruct neg; cbn [app] in *; cbn [read_number].
    + by rewrite Hr.
    + by destruct b.
Qed.

Lemma denotes_int z : denotes_number (str_bytes (to_string z)).
Proof.
  destruct (Z.ltb_spec z 0) as [Hz|Hz].
  - destruct z as [|p|p]; try lia.
    change (to_string (Z.neg p)) with (String.append "-" (to_string (Z.pos p))).
    rewrite str_bytes_app. apply (denotes_magnitude true), magnitude_int, to_string_plain_int. done.
  - by apply (denotes_magnitude false), magnitude_int, to_string_plain_int.
Qed.

(** Neither an infinity nor a NaN. *)
Definition finite (d : Z) : bool := negb (f_exp f64 d =? 2047).

Lemma denotes_double d : finite d = true → denotes_number (str_bytes (to_string_f64 d)).
Proof.
  unfold finite, to_string_f64. rewrite negb_true_iff. intros ->. cbv zeta.
  pose proof (millionths_nonneg d) as Hn. rewrite !str_bytes_app.
  assert (∀ s, str_bytes (if f_sign f64 d =? 0 then ""%string else "-"%string) ++ s
    = (if negb (f_sign f64 d =? 0) then [x2d] else []) ++ s) as -> by by destruct (_ =? _).
  apply denotes_magnitude. change (str_bytes "." ++ ?s) with (x2e :: s).
  destruct (pad6_digits (millionths d mod 10 ^ 6)) as [[Hp _] Hl]; [by apply Z.mod_pos_bound|].
  apply magnitude_decimal; [apply to_string_plain_int, Z.div_pos; lia|done|].
  intros E. by rewrite E in Hl.
Qed.

(** The whole text. *)
Lemma denotes_parse s v : denotes s v → parse_json s = Some v.
Proof.
  intros Hs. unfold parse_json. rewrite <-(app_nil_r s) at 2.
  by rewrite (denotes_read s v Hs).
Qed.
