(* ===== verification/ValueText.v ===== *)
(** * Values, containers and stores as text

    [value::to_string] and [value::to_json] ([internal/value.cpp]),
    [thread_safe_container::to_json] and [value_store::serialize].

    The printers are written over any kind of container pointer.  [tree_to_json]
    is the printer of a container that owns what it holds; on a heap, where
    containers and array elements are shared or cyclic, there is no guard like
    the one of [serialize], so [heap_to_json] takes fuel and a cycle runs out of
    it; like [heap_serialize] it is told whether a thread may take a shared lock
    again. *)

From S2P Require Import Prelude Bytes Float Types UnorderedMap Value ValueFacts ValueHeap.
From S2P Require Import ThreadSafeContainer ValueStore Regex Numbers.

(** ** Pieces *)

(** The texts of the elements with commas between them. *)
Section Join.
Context {A : Type} (print : A → res text).

Fixpoint join (first : bool) (l : list A) : res text :=
  match l with
  | [] => Val []
  | x :: l =>
      let? s := print x in
      let? r := join false l in
      Val ((if first then [] else [x2c]) ++ s ++ r)
  end.
End Join.

(** Two digits per byte, as [std::hex] with [setw(2)] and [setfill('0')]. *)
Definition hex_byte (b : byte) : text := [hex_digit (u8 b / 16); hex_digit (u8 b mod 16)].
Definition hex_text (bs : list byte) : text := concat (hex_byte <$> bs).

(** One character of a string in [to_json]. *)
Definition json_value_char (c : byte) : text :=
  if bool_decide (c = x22) then [x5c; x22]
  else if bool_decide (c = x5c) then [x5c; x5c]
  else if bool_decide (c = x08) then [x5c; x62]
  else if bool_decide (c = x0c) then [x5c; x66]
  else if bool_decide (c = x0a) then [x5c; x6e]
  else if bool_decide (c = x0d) then [x5c; x72]
  else if bool_decide (c = x09) then [x5c; x74]
  else if (0x20 <=? u8 c) && (u8 c <=? 0x7e) then [c]
  else [x5c; x75; x30; x30] ++ hex_byte c.

(** One character of a key. *)
Definition json_key_char (c : byte) : text :=
  if bool_decide (c = x22) then [x5c; x22]
  else if bool_decide (c = x5c) then [x5c; x5c]
  else if bool_decide (c = x0a) then [x5c; x6e]
  else if bool_decide (c = x0d) then [x5c; x72]
  else if bool_decide (c = x09) then [x5c; x74]
  else [c].

(** ** Values *)

Section Data.
Context {C V : Type} (container_to_json : C → res text).

(** [value ? value->to_json() : "null"] *)
Definition pointer_to_json (c : option C) : res text :=
  match c with Some c => container_to_json c | None => Val (str_bytes "null") end.

(** The alternatives that both functions print alike. *)
Definition scalar_text (d : variant (option C) (list (option V))) : text :=
  match d with
  | V_null => str_bytes "null"
  | V_bool b => str_bytes (if b then "true" else "false")
  | V_short z | V_ushort z | V_int z | V_uint z | V_long z | V_ulong z | V_llong z | V_ullong z =>
      str_bytes (to_string z)
  | V_float z => str_bytes (to_string_f64 (f32_to_f64 z))
  | V_double z => str_bytes (to_string_f64 z)
  | _ => []
  end.

(** The text behind ["value":] *)
Definition payload_to_json (value_to_json : V → res text)
    (d : variant (option C) (list (option V))) : res text :=
  match d with
  | V_bytes bs => Val (x22 :: hex_text bs ++ [x22])
  | V_string s => Val (x22 :: concat (json_value_char <$> str_bytes s) ++ [x22])
  | V_container c => pointer_to_json c
  | V_array values =>
      let? s := join (λ elem, match elem with
                              | Some elem => value_to_json elem
                              | None => Val (str_bytes "null")
                              end) true values in
      Val (x5b :: s ++ [x5d])
  | d => Val (scalar_text d)
  end.

(** The name stands between the quotes as it is. *)
Definition json_head (name : string) (ty : value_types) : text :=
  [x7b; x22] ++ str_bytes "name" ++ [x22; x3a; x22] ++ str_bytes name ++
  [x22; x2c; x22] ++ str_bytes "type" ++ [x22; x3a] ++ str_bytes (to_string (type_index ty)) ++
  [x2c; x22] ++ str_bytes "value" ++ [x22; x3a].
End Data.

Section Values.
Context {C : Type} (container_to_json : C → res text).

(** [value::to_string] *)
Fixpoint value_to_string (v : value C) : res text :=
  match data_ v with
  | V_bytes bs => Val (hex_text bs)
  | V_string s => Val (str_bytes s)
  | V_container c => pointer_to_json container_to_json c
  | V_array values =>
      let? s := join (λ elem, match elem with
                              | Some elem => value_to_string elem
                              | None => Val (str_bytes "null")
                              end) true values in
      Val (x5b :: s ++ [x5d])
  | d => Val (scalar_text d)
  end.

(** [value::to_json] *)
Fixpoint value_to_json (v : value C) : res text :=
  let? payload := payload_to_json container_to_json value_to_json (data_ v) in
  Val (json_head (name_ v) (variant_type (data_ v)) ++ payload ++ [x7d]).
End Values.

(** ** Containers and stores *)

(** One element of the map: an escaped key and the value. *)
Definition entry_to_json {V} (to_json : V → res text) (kv : string * V) : res text :=
  let? v := to_json kv.2 in
  Val (x22 :: concat (json_key_char <$> str_bytes kv.1) ++ [x22; x3a] ++ v).

Definition entries_to_json {V} (to_json : V → res text) (values : list (string * V)) : res text :=
  let? s := join (entry_to_json to_json) true values in
  Val (x7b :: s ++ [x7d]).

Fixpoint tree_to_json (t : tree) : res text :=
  entries_to_json (value_to_json tree_to_json) (entries t).

(** [thread_safe_container::to_json], with the printer of nested containers. *)
Definition container_to_json {C} (nested : C → res text) (c : thread_safe_container.t C)
    : thread_safe_container.t C * res text :=
  (thread_safe_container.count_read c,
   entries_to_json (value_to_json nested) (thread_safe_container.values_ c)).

(** The same on a heap. *)
Definition cell_to_json (container_to_json value_to_json : loc → res text) (x : cell) : res text :=
  let? payload := payload_to_json container_to_json value_to_json (cell_data x) in
  Val (json_head (cell_name x) (variant_type (cell_data x)) ++ payload ++ [x7d]).

Fixpoint heap_to_json (reentrant : bool) (h : heap) (fuel : nat) (locked : list node) (n : node)
    : res text :=
  match fuel with
  | O => NoFuel
  | S fuel =>
      if relocking reentrant locked n then Undef else
      let to_json p := heap_to_json reentrant h fuel (n :: locked) p in
      let cell_json := cell_to_json (λ c, to_json (inl c)) (λ v, to_json (inr v)) in
      match n with
      | inl c =>
          match containers h !! c with Some m => entries_to_json cell_json m | None => Undef end
      | inr v => match values h !! v with Some x => cell_json x | None => Undef end
      end
  end.

(** [value_store::serialize] *)
Definition store_serialize (s : value_store.t) : value_store.t * res text :=
  (value_store.Store (value_store.values_ s) (value_store.incr (value_store.read_count_ s))
     (value_store.write_count_ s),
   entries_to_json (value_to_json tree_to_json) (value_store.values_ s)).
