(* ===== verification/ValueTextFacts.v ===== *)
(** * What the texts of values, containers and stores say

    - [store_json_reads_back]: the JSON of a store or a container is read, by the
      reader of Json.v, as the object of its entries, on the domain where the
      code writes JSON at all ([tree_json_ok]); the characters of a string come back as
      code points, so that text beyond ASCII does not survive ([latin1]);
    - [json_returns_iff_acyclic]: printing a container ends exactly when its
      pointers lead into no cycle, while serializing stops at a nested container;
    - what lies outside the domain: [unescaped_name], [nan_is_not_json]. *)

#[local] Set Warnings "-register-all".
From stdpp Require Import relations.
From S2P Require Import Prelude Bytes Float Types UnorderedMap Value ValueFacts ValueRoundtrip.
From S2P Require Import ValueHeap ThreadSafeContainer ValueStore.
From S2P Require Import Regex Numbers Decimal FloatArith Json ValueText.
#[local] Open Scope Z_scope.

(** ** The JSON value of a program value *)

(** The code points of the bytes, in UTF-8. *)
Definition latin1 (s : text) : text := concat ((λ b, utf8 (u8 b)) <$> s).

Definition scalar_json {C} (d : ValueVariant C) : json :=
  match d with
  | V_null => J_null
  | V_bool b => J_bool b
  | d => J_num (scalar_text d)
  end.

Section ValueJson.
Context {C : Type} (container_json : C → json) (container_ok : C → bool).

Definition payload_json (value_json : value C → json) (d : ValueVariant C) : json :=
  match d with
  | V_bytes bs => J_str (hex_text bs)
  | V_string s => J_str (latin1 (str_bytes s))
  | V_container (Some c) => container_json c
  | V_container None => J_null
  | V_array l => J_arr (map (λ o, match o with Some e => value_json e | None => J_null end) l)
  | d => scalar_json d
  end.

Fixpoint value_json (v : value C) : json :=
  J_obj [(str_bytes "name", J_str (str_bytes (name_ v)));
         (str_bytes "type", J_num (str_bytes (to_string (type_index (variant_type (data_ v))))));
         (str_bytes "value", payload_json value_json (data_ v))].

(** A name without quotes, backslashes and control characters; finite numbers. *)
Definition name_json_ok (name : string) : bool :=
  forallb (λ b, negb (bool_decide (b = x22) || bool_decide (b = x5c) || (u8 b <? 32)))
    (str_bytes name).

Fixpoint value_json_ok (v : value C) : bool :=
  name_json_ok (name_ v) &&
  match data_ v with
  | V_float z => finite (f32_to_f64 z)
  | V_double z => finite z
  | V_container (Some c) => container_ok c
  | V_array l => forallb (λ o, match o with Some e => value_json_ok e | None => true end) l
  | _ => true
  end.
End ValueJson.

(** Keys without the control characters that [to_json] does not escape. *)
Definition key_json_ok (key : string) : bool :=
  forallb (λ b, (32 <=? u8 b) || bool_decide (b = x0a) || bool_decide (b = x0d) || bool_decide (b = x09))
    (str_bytes key).

Definition entries_json {V} (f : V → json) (m : list (string * V)) : json :=
  J_obj (map (λ kv, (str_bytes kv.1, f kv.2)) m).
Definition entries_json_ok {V} (ok : V → bool) (m : list (string * V)) : bool :=
  forallb (λ kv, key_json_ok kv.1 && ok kv.2) m.

Fixpoint tree_json (t : tree) : json := entries_json (value_json tree_json) (entries t).
Fixpoint tree_json_ok (t : tree) : bool := entries_json_ok (value_json_ok tree_json_ok) (entries t).

(** ** Characters *)

Lemma key_char_step c r :
  (32 <=? u8 c) || bool_decide (c = x0a) || bool_decide (c = x0d) || bool_decide (c = x09) = true →
  string_step (json_key_char c ++ r) = Some ([c], r).
Proof. destruct c; vm_compute; congruence. Qed.

Lemma key_char_opens c : head (json_key_char c) ≠ Some x22 ∧ json_key_char c ≠ [].
Proof. by destruct c. Qed.

Lemma value_char_step c r :
  string_step (json_value_char c ++ r) = Some (utf8 (u8 c), r).
Proof. by destruct c. Qed.

Lemma value_char_opens c : head (json_value_char c) ≠ Some x22 ∧ json_value_char c ≠ [].
Proof. by destruct c. Qed.

Lemma denotes_key key :
  key_json_ok key = true → denotes_string (concat (json_key_char <$> str_bytes key)) (str_bytes key).
Proof.
  unfold key_json_ok. intros Hk. apply forallb_Forall in Hk. rewrite list.Forall_forall in Hk.
  rewrite <-(concat_singletons (str_bytes key)) at 2.
  apply denotes_encoded. intros b Hb.
  split; [intros r; by apply key_char_step, Hk|apply key_char_opens].
Qed.

Lemma denotes_text s : denotes_string (concat (json_value_char <$> s)) (latin1 s).
Proof.
  apply denotes_encoded. intros b _.
  split; [intros r; apply value_char_step|apply value_char_opens].
Qed.

Lemma denotes_hex bs : denotes_string (hex_text bs) (hex_text bs).
Proof.
  apply denotes_plain. unfold hex_text. induction bs as [|b bs IH]; [constructor|].
  cbn [fmap list_fmap concat]. apply list.Forall_app. split; [|exact IH].
  destruct b; repeat constructor.
Qed.

Lemma denotes_name name :
  name_json_ok name = true → denotes_string (str_bytes name) (str_bytes name).
Proof.
  unfold name_json_ok. intros H. apply forallb_Forall in H. apply denotes_plain.
  eapply list.Forall_impl; [exact H|]. intros b Hb. by apply negb_true_iff.
Qed.

(** Below 128 a code point is its byte. *)
Lemma latin1_ascii s : forallb (λ b, u8 b <? 128) s = true → latin1 s = s.
Proof.
  intros H. unfold latin1. induction s as [|b s IH]; [done|].
  cbn [forallb] in H. apply andb_true_iff in H as [Hb Hs]. cbn [fmap list_fmap concat].
  unfold utf8. rewrite Hb, to_u8_u8. cbn [app]. f_equal. by apply IH.
Qed.

(** ** Printing elements and members *)

Lemma join_elements {A} (print : A → res text) (mean : A → json) x l :
  (∀ y, y ∈ x :: l → ∃ s, print y = Val s ∧ denotes s (mean y)) →
  ∃ s, join print true (x :: l) = Val s ∧ denotes_elements (s ++ [x5d]) (map mean (x :: l)).
Proof.
  revert x. induction l as [|y l IH]; intros x H; destruct (H x) as (s & Es & Hs); [by left| |by left|].
  - exists (s ++ []). cbn [join]. rewrite Es. split; [done|]. rewrite app_nil_r.
    by apply element_one.
  - destruct (IH y) as (r & Er & Hr); [intros z Hz; apply H; by right|].
    exists (s ++ x2c :: r). split.
    + cbn [join] in *. rewrite Es. cbn [res_bind] in *.
      destruct (print y) as [sy| |]; try done. cbn [res_bind] in *.
      destruct (join print false l) as [r'| |]; try done. cbn [res_bind] in *.
      by injection Er as <-.
    + rewrite <-app_assoc. by apply element_cons.
Qed.

Lemma entry_member {V} (to_json : V → res text) (f : V → json) kv :
  key_json_ok kv.1 = true → (∃ s, to_json kv.2 = Val s ∧ denotes s (f kv.2)) →
  ∃ k s, entry_to_json to_json kv = Val (x22 :: k ++ x22 :: x3a :: s) ∧
         denotes_string k (str_bytes kv.1) ∧ denotes s (f kv.2).
Proof.
  intros Hk (s & Es & Hs). unfold entry_to_json. rewrite Es.
  eexists _, s. split; [reflexivity|]. split; [by apply denotes_key|done].
Qed.

Lemma join_members {V} (to_json : V → res text) (f : V → json) kv m :
  (∀ e, e ∈ kv :: m → key_json_ok e.1 = true ∧ ∃ s, to_json e.2 = Val s ∧ denotes s (f e.2)) →
  ∃ s, join (entry_to_json to_json) true (kv :: m) = Val s ∧
       denotes_members (s ++ [x7d]) (map (λ e, (str_bytes e.1, f e.2)) (kv :: m)).
Proof.
  revert kv. induction m as [|e m IH]; intros kv H;
    (destruct (H kv) as [Hk Hv]; [by left|]);
    destruct (entry_member to_json f kv Hk Hv) as (k & s & Es & Hks & Hs).
  - eexists. cbn [join]. rewrite Es. split; [reflexivity|]. rewrite !app_nil_r.
    cbn [app map]. rewrite <-app_assoc. by apply member_one.
  - destruct (IH e) as (r & Er & Hr); [intros z Hz; apply H; by right|].
    exists ((x22 :: k ++ x22 :: x3a :: s) ++ x2c :: r). split.
    + cbn [join] in *. rewrite Es. cbn [res_bind] in *.
      destruct (entry_to_json to_json e) as [sy| |]; try done. cbn [res_bind] in *.
      destruct (join _ false m) as [r'| |]; try done. cbn [res_bind] in *.
      by injection Er as <-.
    + cbn [app map]. rewrite <-!app_assoc. cbn [app]. rewrite <-?app_assoc.
      by apply member_cons.
Qed.

Lemma entries_denote {V} (to_json : V → res text) (f : V → json) m :
  (∀ e, e ∈ m → key_json_ok e.1 = true ∧ ∃ s, to_json e.2 = Val s ∧ denotes s (f e.2)) →
  ∃ s, entries_to_json to_json m = Val s ∧ denotes s (entries_json f m).
Proof.
  intros H. unfold entries_to_json. destruct m as [|kv m].
  - eexists. split; [reflexivity|]. apply denotes_empty_object.
  - destruct (join_members to_json f kv m H) as (s & -> & Hs). eexists. split; [reflexivity|].
    by apply denotes_object.
Qed.

(** ** Printing values *)

(** The three members around the payload. *)
Lemma denotes_value name ty payload v :
  name_json_ok name = true → denotes payload v →
  denotes (json_head name ty ++ payload ++ [x7d])
    (J_obj [(str_bytes "name", J_str (str_bytes name));
            (str_bytes "type", J_num (str_bytes (to_string (type_index ty))));
            (str_bytes "value", v)]).
Proof.
  intros Hn Hv. assert (∀ w, name_json_ok w = true → denotes_string (str_bytes w) (str_bytes w))
    as Hw by apply denotes_name.
  pose proof (member_one _ _ _ _ (Hw "value"%string eq_refl) Hv) as H3.
  pose proof (member_cons _ _ _ _ _ _ (Hw "type"%string eq_refl)
    (denotes_num _ (denotes_int (type_index ty))) H3) as H2.
  pose proof (member_cons _ _ _ _ _ _ (Hw "name"%string eq_refl)
    (denotes_str _ _ (denotes_name name Hn)) H2) as H1.
  apply denotes_object in H1. revert H1. unfold json_head.
  generalize (str_bytes name). intros s. cbn [app]. rewrite <-!app_assoc. cbn [app].
  repeat (rewrite <-app_assoc; cbn [app]). done.
Qed.

(** Everything but containers and arrays. *)
Lemma denotes_scalar {C} (d : ValueVariant C) :
  match d with
  | V_float z => finite (f32_to_f64 z) = true
  | V_double z => finite z = true
  | V_string _ | V_bytes _ | V_container _ | V_array _ => False
  | _ => True
  end → denotes (scalar_text d) (scalar_json d).
Proof.
  destruct d; intros H; try done; try (apply denotes_num, denotes_int);
    try (by apply denotes_num, denotes_double); [apply denotes_null|apply denotes_bool].
Qed.

(** Every value and every tree prints as a text that denotes it; the induction is
    on the size in the wire format. *)
Definition value_prints (v : value tree) : Prop :=
  ∃ s, value_to_json tree_to_json v = Val s ∧ denotes s (value_json tree_json v).
Definition tree_prints (t : tree) : Prop :=
  ∃ s, tree_to_json t = Val s ∧ denotes s (tree_json t).

Lemma tree_prints_entries t :
  tree_json_ok t = true →
  (∀ kv, kv ∈ entries t → value_json_ok tree_json_ok kv.2 = true → value_prints kv.2) →
  tree_prints t.
Proof.
  intros Hok H. destruct t as [m]. apply (entries_denote _ (value_json tree_json)).
  intros e He. cbn [tree_json_ok entries] in *. unfold entries_json_ok in Hok.
  apply forallb_Forall in Hok. rewrite list.Forall_forall in Hok.
  specialize (Hok e He). apply andb_true_iff in Hok as [Hk Hv].
  split; [done|]. by apply H.
Qed.

(** A value whose payload prints. *)
Lemma value_prints_payload name d s :
  name_json_ok name = true →
  payload_to_json tree_to_json (value_to_json tree_to_json) d = Val s →
  denotes s (payload_json tree_json (value_json tree_json) d) →
  value_prints (Value name d).
Proof.
  intros Hn Es Hs. eexists. cbn [value_to_json data_ name_]. rewrite Es.
  split; [reflexivity|]. by apply denotes_value.
Qed.

Lemma value_prints_parts v :
  value_json_ok tree_json_ok v = true →
  (∀ t, data_ v = V_container (Some t) → tree_json_ok t = true → tree_prints t) →
  (∀ l e, data_ v = V_array l → Some e ∈ l → value_json_ok tree_json_ok e = true → value_prints e) →
  value_prints v.
Proof.
  destruct v as [name d]. cbn [value_json_ok name_ data_]. rewrite andb_true_iff.
  intros [Hn Hd] Ht Hl.
  destruct d as [| | | | | | | | | | | |str|bs|[t|]|l];
    try (by eapply value_prints_payload; [done|reflexivity|apply denotes_scalar]).
  - eapply value_prints_payload; [done|reflexivity|apply denotes_str, denotes_text].
  - eapply value_prints_payload; [done|reflexivity|apply denotes_str, denotes_hex].
  - destruct (Ht t eq_refl Hd) as (s & Es & Hs). by eapply value_prints_payload.
  - eapply value_prints_payload; [done|reflexivity|apply denotes_null].
  - set (print := λ o, match o with Some e => value_to_json tree_to_json e
                                  | None => Val (str_bytes "null") end).
    assert (∀ o, o ∈ l → ∃ s, print o = Val s ∧ denotes s
      (match o with Some e => value_json tree_json e | None => J_null end)) as H.
    { intros [e|] Ho; [|eexists; split; [reflexivity|apply denotes_null]].
      apply (Hl l e eq_refl Ho). apply forallb_Forall in Hd. rewrite list.Forall_forall in Hd.
      by apply (Hd _ Ho). }
    destruct l as [|o l].
    + eapply value_prints_payload; [done|reflexivity|apply denotes_empty_array].
    + apply join_elements in H as (s & Es & Hs).
      apply (value_prints_payload _ _ (x5b :: s ++ [x5d])); [done| |by apply denotes_array].
      unfold payload_to_json. fold print. by rewrite Es.
Qed.

Lemma all_print n :
  (∀ v, size_of v < Z.of_nat n → value_json_ok tree_json_ok v = true → value_prints v) ∧
  (∀ t, tsize t < Z.of_nat n → tree_json_ok t = true → tree_prints t).
Proof.
  induction n as [|n [IHv IHt]]; [split; intros; lia|]. split.
  - intros v Hn Hv. apply value_prints_parts; [done| |].
    + intros t E. apply container_smaller in E. apply IHt. lia.
    + intros l e E He. apply (elem_smaller _ _ _ E) in He. cbn [elem_value] in He.
      apply IHv. lia.
  - intros t Hn Ht. apply tree_prints_entries; [done|].
    intros kv Hkv. apply entry_smaller in Hkv. apply IHv. lia.
Qed.

Lemma tree_prints_ok t : tree_json_ok t = true → tree_prints t.
Proof. apply (all_print (S (length (tree_serialize t)))). lia. Qed.

(** ** The properties *)

(** C22. The JSON of a container and of a store can be read: on entries whose keys
    and names need no escape that the code does not write and whose numbers are finite,
    the printer returns a text that RFC 8259 reads as the object of the entries
    in iteration order, each value with its name, its type and its contents;
    the bytes of a string come back as code points, ASCII text as it was. *)
Theorem store_json_reads_back (s : value_store.t) :
  entries_json_ok (value_json_ok tree_json_ok) (value_store.values_ s) = true →
  ∃ txt, (store_serialize s).2 = Val txt ∧
         parse_json txt = Some (entries_json (value_json tree_json) (value_store.values_ s)) ∧
         tree_to_json (Tree (value_store.values_ s)) = Val txt.
Proof.
  intros Hok. destruct (tree_prints_ok (Tree (value_store.values_ s)) Hok) as (txt & E & Htxt).
  exists txt. split_and!; [exact E|by apply denotes_parse|exact E].
Qed.

(** A store with a nested container, an array, a string with a quote and bytes. *)
Definition json_store : value_store.t :=
  value_store.Store
    [("list"%string, Value "v" (V_array [Some (Value "" (V_int (-3))); None]));
     ("tab	key"%string, Value "" (V_string (bytes_str [x61; x22; xe9])));
     ("in"%string, Value "" (V_container (Some (Tree [("b"%string, Value "" (V_bytes [x0f; xa0]))]))))]
    0 0.

Lemma store_json_reads_back_witness :
  ∃ txt, (store_serialize json_store).2 = Val txt ∧
         parse_json txt = Some (entries_json (value_json tree_json) (value_store.values_ json_store)) ∧
         tree_to_json (Tree (value_store.values_ json_store)) = Val txt.
Proof. apply (store_json_reads_back json_store). vm_compute. reflexivity. Defined.

(** A name with a quote is written as it is: the text is not JSON. *)
Theorem unescaped_name :
  ∃ txt, value_to_json tree_to_json (Value (bytes_str [x61; x22; x62]) V_null) = Val txt ∧
         parse_json txt = None.
Proof. eexists. split; [vm_compute; reflexivity|vm_compute; reflexivity]. Qed.

(** Nor is the text of a NaN or an infinity. *)
Theorem nan_is_not_json :
  Forall (λ d, ∃ txt, value_to_json tree_to_json (Value "x" (V_double d)) = Val txt ∧
                      parse_json txt = None)
    [0x7ff8000000000000; 0x7ff0000000000000; 0xfff0000000000000].
Proof.
  do 3 (apply list.Forall_cons; split; [eexists; split; [vm_compute; reflexivity|by vm_compute]|]).
  constructor.
Qed.

(** UTF-8 beyond ASCII does not survive: the two bytes of one character are
    escaped as two characters. *)
Theorem utf8_is_split :
  ∃ txt, value_to_json tree_to_json (Value "" (V_string (bytes_str [xc3; xa9]))) = Val txt ∧
         parse_json txt = Some (J_obj [(str_bytes "name", J_str []); (str_bytes "type", J_num (str_bytes "12"));
                                       (str_bytes "value", J_str [xc3; x83; xc2; xa9])]).
Proof. eexists. split; [vm_compute; reflexivity|vm_compute; reflexivity]. Qed.

(** ** Printing on a heap *)

Lemma join_kind {A} (print : A → res text) first l :
  kind (join print first l) = in_turn (map (λ x, kind (print x)) l).
Proof.
  revert first. induction l as [|x l IH]; intros first; [done|]. cbn [join map]. rewrite kind_bind.
  unfold in_turn in *. simpl. destruct (print x); [|done..]. simpl. rewrite <-(IH false), kind_bind.
  by destruct (join print false l).
Qed.

Lemma cell_json_kind (f g : loc → res text) x :
  kind (cell_to_json f g x) = in_turn (map (call_kind f g) (cell_targets x)).
Proof.
  unfold cell_to_json. rewrite kind_bind.
  transitivity (kind (payload_to_json f g (cell_data x))); [by destruct (payload_to_json _ _ _)|].
  unfold cell_targets. destruct (cell_data x) as [| | | | | | | | | | | | | |[c|]|l]; try done.
  - simpl. by destruct (f c).
  - cbn [payload_to_json]. rewrite <-(elements_kind f g l (Val (str_bytes "null"))) by done.
    rewrite <-(join_kind _ true), kind_bind. by destruct (join _ true l).
Qed.

Lemma entries_json_kind {V} (to_json : V → res text) m :
  kind (entries_to_json to_json m) = in_turn (map (λ kv, kind (to_json kv.2)) m).
Proof.
  unfold entries_to_json. rewrite kind_bind. transitivity (kind (join (entry_to_json to_json) true m));
    [by destruct (join _ true m)|].
  rewrite join_kind. f_equal. apply map_ext. intros kv. unfold entry_to_json. rewrite kind_bind.
  by destruct (to_json kv.2).
Qed.

(** The printer makes the calls of the walk without the guard. *)
Lemma json_kind reentrant h fuel locked n :
  kind (heap_to_json reentrant h fuel locked n) = walk false reentrant h fuel locked ∅ n.
Proof.
  revert locked n. induction fuel as [|fuel IH]; intros locked n; [done|].
  cbn [heap_to_json walk]. destruct (relocking reentrant locked n); [done|].
  assert (∀ p, call_kind (λ c, heap_to_json reentrant h fuel (n :: locked) (inl c))
      (λ v, heap_to_json reentrant h fuel (n :: locked) (inr v)) p =
    match enter false ∅ p with Some S' => walk false reentrant h fuel (n :: locked) S' p | None => Val tt end)
    as Hc by (intros []; apply IH).
  case_bool_decide as Ha.
  - destruct n as [c|v]; cbn [allocated targets] in *; destruct Ha as [x ->]; cbn [default from_option].
    + rewrite entries_json_kind. rewrite (entries_kind _ _ _ _ (cell_json_kind _ _)). f_equal. by apply map_ext.
    + rewrite cell_json_kind. f_equal. by apply map_ext.
  - destruct n as [c|v]; cbn [allocated] in Ha; apply eq_None_not_Some in Ha; by rewrite Ha.
Qed.

Lemma prints_walk reentrant h n :
  (∃ fuel s, heap_to_json reentrant h fuel [] n = Val s) ↔ ∃ fuel, walk false reentrant h fuel [] ∅ n = Val tt.
Proof. split; intros (f & H); exists f; [rewrite <-json_kind; by apply kind_val|rewrite <-json_kind in H; by apply kind_val]. Qed.

(** ** The text of an acyclic heap *)

Lemma join_map {A B} (f : B → A) (print : A → res text) (print' : B → res text) first l :
  (∀ x, x ∈ l → print' x = print (f x)) → join print' first l = join print first (map f l).
Proof.
  revert first. induction l as [|x l IH]; intros first H; [done|]. cbn [join map].
  rewrite H by (by left). rewrite (IH false); [done|]. intros y Hy. apply H. by right.
Qed.

Section Spanned.
Context (τ : loc → tree) (ν : loc → value tree).

Definition node_text (n : node) : res text :=
  match n with inl c => tree_to_json (τ c) | inr v => value_to_json tree_to_json (ν v) end.

Lemma cell_json_spans (f : node → res text) x :
  (∀ p, p ∈ cell_targets x → f p = node_text p) →
  cell_to_json (λ c, f (inl c)) (λ v, f (inr v)) x = value_to_json tree_to_json (cell_value τ ν x).
Proof.
  intros H. unfold cell_to_json.
  assert (payload_to_json (λ c, f (inl c)) (λ v, f (inr v)) (cell_data x) =
    payload_to_json tree_to_json (value_to_json tree_to_json) (data_ (cell_value τ ν x))) as ->.
  { unfold cell_targets, cell_value in *. cbn [data_].
    destruct (cell_data x) as [| | | | | | | | | | | | | |[c|]|l]; try done.
    - apply (H (inl c)). by left.
    - cbn [payload_to_json variant_map]. erewrite join_map; [done|].
      intros [v|] Ho; [|done]. apply (H (inr v)). apply list_elem_of_omap. by exists (Some v). }
  cbn [cell_value value_to_json data_ name_]. by destruct x as [name []].
Qed.

Lemma entries_json_spans (f : node → res text) c m :
  entries (τ c) = map (λ kv, (kv.1, cell_value τ ν kv.2)) m →
  (∀ p, p ∈ concat (map (λ kv, cell_targets kv.2) m) → f p = node_text p) →
  entries_to_json (cell_to_json (λ c, f (inl c)) (λ v, f (inr v))) m = tree_to_json (τ c).
Proof.
  intros E H. transitivity (entries_to_json (value_to_json tree_to_json) (entries (τ c))); [|by destruct (τ c)].
  rewrite E. unfold entries_to_json. erewrite join_map; [done|]. intros kv Hkv.
  unfold entry_to_json. cbn [fst snd]. rewrite cell_json_spans; [done|]. intros p Hp. apply H.
  apply list_elem_of_In, in_concat. exists (cell_targets kv.2).
  split; [apply in_map_iff; exists kv; split; [done|]|]; by apply list_elem_of_In.
Qed.

Lemma heap_json_spans reentrant h fuel locked n :
  closed h → spans τ ν h → allocated h n → (length (node_bytes τ ν n) < fuel)%nat →
  (∀ m, m ∈ locked → (length (node_bytes τ ν n) < length (node_bytes τ ν m))%nat) →
  heap_to_json reentrant h fuel locked n = node_text n.
Proof.
  intros Hh Hs. revert locked n. induction fuel as [|fuel IH]; intros locked n Ha Hf Hl; [lia|].
  cbn [heap_to_json].
  assert (relocking reentrant locked n = false) as ->.
  { unfold relocking. case_bool_decide as Hin; [|by rewrite andb_false_r]. specialize (Hl _ Hin). lia. }
  assert (∀ p, p ∈ targets h n → heap_to_json reentrant h fuel (n :: locked) p = node_text p) as Hcall.
  { intros p Hp. pose proof (target_smaller τ ν h p n Hs Hp) as Hlt.
    apply IH; [exact (Hh _ _ Hp)|lia|]. intros m [->|Hm]%elem_of_cons; [done|]. specialize (Hl m Hm). lia. }
  unfold targets in Hcall. destruct n as [c|v]; destruct Ha as [x Hx]; rewrite Hx in Hcall |- *.
  - apply (entries_json_spans (heap_to_json reentrant h fuel (inl c :: locked))); [by apply (proj1 Hs)|done].
  - cbn [node_text]. rewrite (proj2 Hs v x Hx).
    by apply (cell_json_spans (heap_to_json reentrant h fuel (inr v :: locked))).
Qed.

Lemma spanned_acc h k n : spans τ ν h → (length (node_bytes τ ν n) < k)%nat → Acc (points_to h) n.
Proof.
  intros Hs. revert n. induction k as [|k IH]; intros n Hn; [lia|].
  constructor. intros p Hp. apply (target_smaller τ ν h p n Hs) in Hp. apply IH. lia.
Qed.
End Spanned.

(** C23. A container prints, with enough stack, exactly when following its pointers,
    to containers and to array elements, always ends, whether or not a thread may
    take a shared lock again; [serialize] returns for containers that hold
    themselves, too.  Where following them ends, sharing is invisible: the text is
    that of the tree the pointers span. *)
Theorem json_returns_iff_acyclic reentrant h c :
  closed h → is_Some (containers h !! c) →
  ((∃ n s, heap_to_json reentrant h n [] (inl c) = Val s) ↔ Acc (points_to h) (inl c)) ∧
  (∀ τ ν, spans τ ν h → ∃ s n0, tree_to_json (τ c) = Val s ∧
     ∀ n, (n0 ≤ n)%nat → heap_to_json reentrant h n [] (inl c) = Val s).
Proof.
  intros Hh Hc. rewrite prints_walk. split; [by apply unguarded_returns|]. intros τ ν Hs.
  destruct (proj2 (unguarded_returns reentrant h Hh (inl c) Hc)) as (f & Hf);
    [by eapply (spanned_acc τ ν), Nat.lt_succ_diag_r|].
  assert (∀ n, (S (length (node_bytes τ ν (inl c))) ≤ n)%nat →
    heap_to_json reentrant h n [] (inl c) = tree_to_json (τ c)) as Heq.
  { intros n Hn. apply (heap_json_spans τ ν); try done. by intros m ?%not_elem_of_nil. }
  set (n0 := Nat.max f (S (length (node_bytes τ ν (inl c))))).
  assert (kind (heap_to_json reentrant h n0 [] (inl c)) = Val tt) as Hk.
  { rewrite json_kind. apply (walk_more _ _ _ f); [lia|done]. }
  apply kind_val in Hk as (s & Hk). rewrite Heq in Hk by lia.
  exists s, n0. split; [done|]. intros n Hn. rewrite Heq; [done|lia].
Qed.

Lemma self_heap_closed : closed self_heap.
Proof.
  intros [c|v] p; unfold targets, self_heap; cbn [containers values]; [|by intros ?%not_elem_of_nil].
  destruct (decide (c = 1%positive)) as [->|Hc]; [intros ->%list_elem_of_singleton; by eexists|].
  rewrite lookup_singleton_ne by done. by intros ?%not_elem_of_nil.
Qed.

Lemma json_returns_iff_acyclic_witness :
  ((∃ n s, heap_to_json true self_heap n [] (inl 1%positive) = Val s) ↔
     Acc (points_to self_heap) (inl 1%positive)) ∧
  (∀ τ ν, spans τ ν self_heap → ∃ s n0, tree_to_json (τ 1%positive) = Val s ∧
     ∀ n, (n0 ≤ n)%nat → heap_to_json true self_heap n [] (inl 1%positive) = Val s).
Proof. apply json_returns_iff_acyclic; [apply self_heap_closed|by eexists]. Defined.

(** The container that holds itself, which [serialize] writes where locks may be taken
    again, is never printed. *)
Theorem cyclic_container_never_prints reentrant n s :
  heap_to_json reentrant self_heap n [] (inl 1%positive) ≠ Val s.
Proof.
  intros H. apply (acc_no_cycle (points_to self_heap) (inl 1%positive)); [|by apply tc_once; left].
  apply (unguarded_returns reentrant self_heap self_heap_closed); [by eexists|]. apply prints_walk. eauto.
Qed.
