(* ===== verification/ValueObject.v ===== *)
(** * value objects: counters, order, and the factory

    The rest of [internal/value.h]: a [value] object with its two counters, the
    constructors and assignments, the visitors and [operator<]; and
    [internal/variant_value_factory.h], whose [clone_with_name] does not copy the
    contents ([clone_with_name_reads_name]).

    Every method holds the lock of the object for its whole body and is one
    function here (LockedValues.v has the locks).  A moved-from
    string or vector is empty and a moved-from pointer null, as the standard
    library does. *)

#[local] Set Warnings "-register-all".
From S2P Require Import Prelude Bytes Float Types UnorderedMap Value ValueFacts ValueRoundtrip.
From S2P Require Import ThreadSafeContainer ThreadSafeContainerFacts Regex ValueText.

(** ** Objects *)

Module value_object.

Record t (C : Type) : Type := Object {
  contents : value C; read_count_ : Z; write_count_ : Z }.
Arguments Object {C} _ _ _.
Arguments contents {C} _.
Arguments read_count_ {C} _.
Arguments write_count_ {C} _.

Section Operations.
Context {C : Type}.

Definition incr := thread_safe_container.incr.

(** [value(name, data)]; [value()] and [value(name)] hold null. *)
Definition create (name : string) (d : ValueVariant C) : t C := Object (Value name d) 0 0.
Definition default_value : t C := create "" V_null.
Definition named (name : string) : t C := create name V_null.

Definition count_read (v : t C) : t C :=
  Object (contents v) (incr (read_count_ v)) (write_count_ v).
Definition write (d : ValueVariant C) (v : t C) : t C :=
  Object (value.set d (contents v)) (read_count_ v) (incr (write_count_ v)).

(** [value(const value&)]: the counters start again. *)
Definition copy (other : t C) : t C := Object (value.copy (contents other)) 0 0.

Definition moved_data (d : ValueVariant C) : ValueVariant C :=
  match d with
  | V_string _ => V_string ""
  | V_bytes _ => V_bytes []
  | V_container _ => V_container None
  | V_array _ => V_array []
  | d => d
  end.

(** [value(value&&)]: the new object, with the counters, and what is left. *)
Definition move (other : t C) : t C * t C :=
  (other, create (name_ (contents other)) (moved_data (data_ (contents other)))).

(** [operator=] of another object and of the object itself. *)
Definition copy_assign (v other : t C) : t C := write (value.copy_data (data_ (contents other))) v.
Definition move_assign (v other : t C) : t C * t C :=
  (write (data_ (contents other)) v,
   Object (value.set (moved_data (data_ (contents other))) (contents other))
     (read_count_ other) (write_count_ other)).
Definition self_assign (v : t C) : t C := v.

Definition name (v : t C) : string := name_ (contents v).
Definition type (v : t C) : value_types := value.type (contents v).
Definition variant_index (v : t C) : Z := type_index (type v).
Definition is_null (v : t C) : bool := value.is_null (contents v).

(** [get] does not count as a read, [set] counts as a write. *)
Definition get (ty : value_types) (v : t C) : option (ValueVariant C) := value.get ty (contents v).
Definition set (d : ValueVariant C) (v : t C) : t C := write d v.

(** [visit] and [visit_mut]: the visitor is a function of the contents, and one
    that may change them. *)
Definition visit {R} (vis : ValueVariant C → R) (v : t C) : t C * R :=
  (count_read v, vis (data_ (contents v))).
Definition visit_mut {R} (vis : ValueVariant C → ValueVariant C * R) (v : t C) : t C * R :=
  let r := vis (data_ (contents v)) in
  (write r.1 v, r.2).

Definition read_count (v : t C) : Z := read_count_ v.
Definition write_count (v : t C) : Z := write_count_ v.

(** [to_string], [to_json] and [serialize] visit the value once. *)
Definition to_string (nested : C → res text) (v : t C) : t C * res text :=
  (count_read v, value_to_string nested (contents v)).
Definition to_json (nested : C → res text) (v : t C) : t C * res text :=
  (count_read v, value_to_json nested (contents v)).
Definition serialize (nested : C → option (list byte)) (v : t C) : t C * list byte :=
  (count_read v, value.serialize nested (contents v)).

(** ** The order *)

(** [std::string::operator<] compares bytes. *)
Fixpoint lex_ltb (a b : list byte) : bool :=
  match a, b with
  | _, [] => false
  | [], _ => true
  | x :: a, y :: b => (u8 x <? u8 y) || ((u8 x =? u8 y) && lex_ltb a b)
  end.

(** [<] of [shared_ptr]s compares addresses. *)
Context (ptr_ltb : option C → option C → bool).

(** [operator<] of the variant: the index, then the contents; arrays by their length. *)
Definition variant_ltb (d e : ValueVariant C) : bool :=
  let i := type_index (variant_type d) in
  let j := type_index (variant_type e) in
  if i <? j then true
  else
    match d, e with
    | V_bool a, V_bool b => negb a && b
    | V_short a, V_short b | V_ushort a, V_ushort b | V_int a, V_int b | V_uint a, V_uint b
    | V_long a, V_long b | V_ulong a, V_ulong b | V_llong a, V_llong b
    | V_ullong a, V_ullong b => a <? b
    | V_float a, V_float b => f_ltb f32 a b
    | V_double a, V_double b => f_ltb f64 a b
    | V_string a, V_string b => lex_ltb (str_bytes a) (str_bytes b)
    | V_bytes a, V_bytes b => lex_ltb a b
    | V_container a, V_container b => ptr_ltb a b
    | V_array a, V_array b => (length a <? length b)%nat
    | _, _ => false
    end.

(** [operator<] of values; [same] says that they are one object. *)
Definition ltb (same : bool) (v w : value C) : bool :=
  if same then false
  else if bool_decide (name_ v = name_ w) then variant_ltb (data_ v) (data_ w)
  else lex_ltb (str_bytes (name_ v)) (str_bytes (name_ w)).
End Operations.
End value_object.

(** ** The factory *)

Module factory.
Section Factory.
Context {C : Type}.

(** The constructors under other names; an initializer list is copied, a vector of
    pointers taken as it is. *)
Definition make (name : string) (d : ValueVariant C) : value C := Value name d.
Definition make_null (name : string) : value C := Value name V_null.
Definition make_array (name : string) (values : list (option (value C))) : value C :=
  Value name (V_array values).
Definition make_array_of (name : string) (values : list (value C)) : value C :=
  Value name (V_array (Some ∘ value.copy <$> values)).
Definition make_empty_array (name : string) : value C := Value name (V_array []).
Definition make_container (name : string) (container : option C) : value C :=
  Value name (V_container container).

(** [size] bytes from [data]: fewer are undefined. *)
Definition make_bytes (name : string) (data : list byte) (size : Z) : res (value C) :=
  let? bs := sub data 0 size in Val (Value name (V_bytes bs)).
Definition make_bytes_from_string (name : string) (data : text) : value C :=
  Value name (V_bytes data).
End Factory.
End factory.

Definition make_value_from_raw (name : string) (type : value_types) (raw_data : list byte)
    : res (value tree) := value_of_raw name type raw_data.

(** The exception is the right side. *)
Definition clone_failed : string := "Failed to clone value".

Definition clone_with_name (original : value tree) (new_name : string) : res (value tree + string) :=
  let serialized := serialize_value original in
  let? cloned := value_deserialize serialized in
  match cloned with
  | None => Val (inr clone_failed)
  | Some cloned => let? v := value_of_raw new_name (value.type cloned) serialized in Val (inl v)
  end.

Definition same_type {C} (a b : value C) : bool := bool_decide (value.type a = value.type b).

Definition type_name {C} (v : value C) : string :=
  match value.type v with
  | null_value => "null" | bool_value => "bool" | short_value => "short" | ushort_value => "ushort"
  | int_value => "int" | uint_value => "uint" | long_value => "long" | ulong_value => "ulong"
  | llong_value => "llong" | ullong_value => "ullong" | float_value => "float"
  | double_value => "double" | bytes_value => "bytes" | string_value => "string"
  | container_value => "container" | array_value => "array"
  end%string.

(** ** Copies *)

(** A copy has the name, the type and, but for the null elements of arrays, the
    contents; it serializes to what a copy of it serializes to. *)
Theorem copy_keeps {C} (v : value_object.t C) :
  value_object.name (value_object.copy v) = value_object.name v ∧
  value_object.type (value_object.copy v) = value_object.type v ∧
  value_object.copy (value_object.copy v) = value_object.copy v ∧
  (∀ ty, value_object.get ty (value_object.copy v) = value_object.get ty v).
Proof.
  split_and!.
  - by destruct v as [[]].
  - by destruct v as [[? []]].
  - unfold value_object.copy. cbn [value_object.contents]. by rewrite copy_idemp.
  - intros ty. apply get_copy.
Qed.

(** An array with a null element is not equal to its copy. *)
Theorem copy_drops_nulls :
  let v := Value "a" (V_array [None; Some (Value "" (V_int 1))]) in
  value.copy v = Value "a" (V_array [Some (Value "" (V_int 1))]) ∧
  value.eqb (λ _ _ : option unit, true) v (value.copy v) = false.
Proof. done. Qed.

(** ** The order *)

Section Order.
Import value_object.
Context {C : Type} (ptr_ltb : option C → option C → bool).
Context (Hirr : ∀ p, ptr_ltb p p = false).
Context (Htrans : ∀ p q r, ptr_ltb p q = true → ptr_ltb q r = true → ptr_ltb p r = true).

Lemma lex_irrefl a : lex_ltb a a = false.
Proof. induction a as [|x a IH]; [done|]. cbn. by rewrite IH, Z.ltb_irrefl, andb_false_r. Qed.

Lemma lex_trans a b c : lex_ltb a b = true → lex_ltb b c = true → lex_ltb a c = true.
Proof.
  revert b c. induction a as [|x a IH]; intros [|y b] [|z c]; try done. cbn.
  rewrite !orb_true_iff, !andb_true_iff, !Z.ltb_lt, !Z.eqb_eq.
  intros [H1|[E1 H1]] [H2|[E2 H2]]; [left; lia|left; lia|left; lia|].
  right. split; [lia|by apply (IH b)].
Qed.

Lemma f_ltb_irrefl f a : f_ltb f a a = false.
Proof. unfold f_ltb. by rewrite Z.ltb_irrefl, andb_false_r. Qed.

Lemma f_ltb_trans f a b c : f_ltb f a b = true → f_ltb f b c = true → f_ltb f a c = true.
Proof. unfold f_ltb. rewrite !andb_true_iff, !Z.ltb_lt. intros [[-> _] ?] [[_ ->] ?]. split; [done|lia]. Qed.

Lemma variant_irrefl (d : ValueVariant C) : variant_ltb ptr_ltb d d = false.
Proof.
  unfold variant_ltb. rewrite Z.ltb_irrefl.
  destruct d as [|[]| | | | | | | | | | | | | |]; rewrite ?Z.ltb_irrefl, ?f_ltb_irrefl, ?lex_irrefl;
    try done. by apply Nat.ltb_irrefl.
Qed.

Lemma variant_index_le (d e : ValueVariant C) :
  variant_ltb ptr_ltb d e = true → type_index (variant_type d) ≤ type_index (variant_type e).
Proof.
  unfold variant_ltb. destruct (Z.ltb_spec (type_index (variant_type d)) (type_index (variant_type e)));
    [lia|]. by destruct d, e.
Qed.

(** With equal types the contents are compared. *)
Lemma variant_trans (d e f : ValueVariant C) :
  variant_ltb ptr_ltb d e = true → variant_ltb ptr_ltb e f = true → variant_ltb ptr_ltb d f = true.
Proof.
  intros H1 H2. pose proof (variant_index_le d e H1) as L1. pose proof (variant_index_le e f H2) as L2.
  destruct (Z.ltb_spec (type_index (variant_type d)) (type_index (variant_type f))) as [Hlt|Hge].
  { unfold variant_ltb. by rewrite (proj2 (Z.ltb_lt _ _) Hlt). }
  assert (variant_type e = variant_type d ∧ variant_type f = variant_type d) as [Ee Ef].
  { split; apply (inj Some); rewrite <-!type_of_index_index; f_equal; lia. }
  revert H1 H2. unfold variant_ltb. rewrite Ee, Ef, Z.ltb_irrefl.
  destruct d, e; try discriminate Ee; destruct f; try discriminate Ef;
    rewrite ?Z.ltb_lt, ?Nat.ltb_lt; try lia; eauto using lex_trans, f_ltb_trans.
  by destruct b, b0.
Qed.

(** [operator<] is a strict order, whatever the values hold: nothing is below
    itself and it is transitive.  (Not a weak order: arrays of one length and
    values with a NaN are incomparable without being equal.) *)
Theorem value_order_strict (v w x : value C) :
  ltb ptr_ltb false v v = false ∧ ltb ptr_ltb true v w = false ∧
  (ltb ptr_ltb false v w = true → ltb ptr_ltb false w x = true → ltb ptr_ltb false v x = true).
Proof.
  split_and!; [|done|].
  - unfold ltb. by rewrite bool_decide_eq_true_2, variant_irrefl.
  - unfold ltb. repeat case_bool_decide; try congruence.
    + apply variant_trans.
    + intros L1 L2. pose proof (lex_trans _ _ _ L1 L2) as L.
      replace (name_ x) with (name_ v) in L by congruence. by rewrite lex_irrefl in L.
    + apply lex_trans.
Qed.
End Order.

(** ** clone_with_name *)

(** What the clone holds: the bytes of the serialized value are read as contents,
    and they begin with the length of the name and the name. *)
Definition clone_contents (v : value tree) : option (ValueVariant tree) :=
  let n := str_len (name_ v) in
  match data_ v with
  | V_null => Some V_null
  | V_bool _ => Some (V_bool (negb (wrap 8 n =? 0)))
  | V_short _ => Some (V_short (swrap 16 n))
  | V_ushort _ => Some (V_ushort (wrap 16 n))
  | V_int _ => Some (V_int (swrap 32 n))
  | V_uint _ => Some (V_uint n)
  | V_float _ => Some (V_float n)
  | V_string _ => Some (V_string (name_ v))
  | V_bytes _ => Some (V_bytes (str_bytes (name_ v)))
  | _ => None
  end.

Lemma u32_prefixes z :
  put_u32 z = le_bytes 1 z ++ le_bytes 3 (z / 256) ∧
  put_u32 z = le_bytes 2 z ++ le_bytes 2 (z / 256 / 256).
Proof. done. Qed.

Lemma deserialize_clone v d :
  small_str (name_ v) = true → clone_contents v = Some d →
  ∃ o, deserialize_data assign_entry value_deserialize (value.type v) (serialize_value v) 0 = Val (Some (d, o)).
Proof.
  unfold small_str. rewrite Z.ltb_lt. intros Hn Hd. pose proof (str_len_nonneg (name_ v)) as Hpos.
  pose proof (at_bytes_all (serialize_value v)) as H. rewrite serialize_value_eq in H at 2.
  destruct (u32_prefixes (str_len (name_ v))) as [E1 E2].
  assert (at_bytes (serialize_value v) 0 (le_bytes 1 (str_len (name_ v)))) as H1
    by (rewrite E1, <-app_assoc in H; by apply at_bytes_prefix in H).
  assert (at_bytes (serialize_value v) 0 (le_bytes 2 (str_len (name_ v)))) as H2
    by (rewrite E2, <-app_assoc in H; by apply at_bytes_prefix in H).
  assert (at_bytes (serialize_value v) 0 (le_bytes 4 (str_len (name_ v)))) as H4
    by by apply at_bytes_prefix in H.
  assert (at_bytes (serialize_value v) 0 (put_block (str_bytes (name_ v)))) as HS.
  { rewrite app_assoc in H. by apply at_bytes_prefix in H. }
  revert Hd. unfold clone_contents, value.type.
  destruct (data_ v); intros [= <-]; cbn [variant_type deserialize_data].
  - by eexists.
  - rewrite (need_at _ _ _ _ _ H1) by done.
    rewrite <-(app_nil_r (le_bytes 1 _)) in H1. rewrite (get_le_at _ _ 1 8 _ [] eq_refl) by done.
    by eexists.
  - rewrite (fixed_at _ _ 2 16 (str_len (name_ v))) by done. rewrite swrap_wrap by done. by eexists.
  - rewrite (fixed_at _ _ 2 16 (str_len (name_ v))) by done. by eexists.
  - rewrite (fixed_at _ _ 4 32 (str_len (name_ v))) by done. rewrite swrap_wrap by done. by eexists.
  - rewrite (fixed_at _ _ 4 32 (str_len (name_ v))), wrap_small by done. by eexists.
  - rewrite (fixed_at _ _ 4 32 (str_len (name_ v))), wrap_small by done. by eexists.
  - rewrite (sized_at _ _ _ (str_bytes (name_ v))) by (done || by apply Z.ltb_lt). rewrite bytes_str_bytes. by eexists.
  - rewrite (sized_at _ _ _ (str_bytes (name_ v))) by (done || by apply Z.ltb_lt). by eexists.
Qed.

(** [clone_with_name] does not clone: the whole serialized value, header
    included, is given to a constructor that expects the contents alone.  A
    string becomes the name of the original, bytes the bytes of that name, an
    integer, a [float] or a [bool] is computed from the length of the name; only null
    survives. *)
Theorem clone_with_name_reads_name v new_name d :
  value_ok v = true → clone_contents v = Some d →
  clone_with_name v new_name = Val (inl (Value new_name d)).
Proof.
  intros Hv Hd. unfold clone_with_name.
  assert (value_deserialize (serialize_value v) = Val (Some (value_norm v))) as ->.
  { rewrite <-(app_nil_r (serialize_value v)).
    apply (deserialize_depth_at _ _ false); [rewrite length_app; lia|done]. }
  cbn [res_bind]. destruct (value_ok_inv _ _ Hv) as [Hn _].
  assert (value.type (value_norm v) = value.type v) as ->.
  { unfold clone_contents in Hd. destruct v as [n []]; try done. }
  destruct (deserialize_clone v d Hn Hd) as (o & E). unfold value_of_raw. by rewrite E.
Qed.

Lemma clone_with_name_reads_name_witness :
  clone_with_name (Value "greeting" (V_string "hello")) "copy"
  = Val (inl (Value "copy" (V_string "greeting"))).
Proof. apply clone_with_name_reads_name; vm_compute; reflexivity. Defined.
