(* ===== verification/LockedValues.v ===== *)
(** * value and value_store: the methods as they lock

    Each method of [internal/value.h] and [value.cpp] as the actions of its body
    on the mutex, the contents and the two counters of the values it works on;
    value [o] has the counters [2 o] and [2 o + 1].  The comparisons lock both
    values with [scoped_lock]; the assignments lock the target and then the
    source.

    The methods are atomic in every interleaving ([values_atomic]).  The
    assignments are the exception to the order of the locks: two threads that
    assign two values to each other can wait for each other for ever
    ([assignments_deadlock]), and threads whose assignments all go one way can
    always finish ([values_finish]).

    Then the same for [core/value_store.cpp]: store [o] has the counters [2 o]
    and [2 o + 1]; [get] counts a read only when it has found the key, and [add]
    counts the write after it.  [reset_statistics] stores into the counters and
    is not one of the methods.  They never race, are atomic and can always be
    completed ([store_methods_atomic]). *)

#[local] Set Warnings "-register-all".
From S2P Require Import Prelude Bytes Float Types UnorderedMap Value ValueFacts ErrorCodes ThreadSafeContainer ThreadSafeContainerFacts ValueStore ValueObject Locking LockingFacts Atomicity.

Module locked_value.

Section Methods.
Context {C : Type} (same_ptr : option C → option C → bool) (ptr_ltb : option C → option C → bool).

Inductive reply : Type :=
| Nothing | Bool (b : bool) | Index (z : Z) | Type_ (ty : value_types)
| Data (d : option (ValueVariant C)).

(** The contents read from another value, and what is returned. *)
Record locals : Type := Locals { tmp : value C; ret : reply }.
Definition no_locals : locals := Locals (value.of_name "") Nothing.
Abbreviation action := (action (value C) locals).

Definition read_count (o : nat) : nat := 2 * o.
Definition write_count (o : nat) : nat := 2 * o + 1.
Definition count (k : nat) : action := FetchAdd k (λ _, true).
Definition returns (self : nat) (e : value C → reply) : action :=
  Read self (λ v l, Locals (tmp l) (e v)).
(** [data_ = other.data_] is a read of the source and a write of the target. *)
Definition reads (other : nat) (f : value C → value C) : action :=
  Read other (λ v l, Locals (f v) (ret l)).
Definition assigns (self : nat) : action :=
  Write self (λ v l, (value.assign v (tmp l), l)).

Definition shared (self : nat) (acts : list action) : list action :=
  Lock Shared self :: acts ++ [Unlock self].
Definition unique (self : nat) (acts : list action) : list action :=
  Lock Exclusive self :: acts ++ [Unlock self].

(** [value(const value& other)]: the contents of the new object. *)
Definition copy_construct (other : nat) : list action :=
  shared other [returns other (λ v, Data (Some (value.copy_data (data_ v))))].

Definition copy_assign (self other : nat) : list action :=
  if decide (self = other) then [] else
  Lock Exclusive self :: Lock Shared other ::
  [reads other value.copy; assigns self; count (write_count self)] ++ [Unlock other; Unlock self].

Definition move_assign (self other : nat) : list action :=
  if decide (self = other) then [] else
  Lock Exclusive self :: Lock Exclusive other ::
  [Write other (λ v l, (value.set (value_object.moved_data (data_ v)) v, Locals v (ret l)));
   assigns self; count (write_count self)] ++ [Unlock other; Unlock self].

Definition type (self : nat) : list action := shared self [returns self (λ v, Type_ (value.type v))].
Definition variant_index (self : nat) : list action :=
  shared self [returns self (λ v, Index (type_index (value.type v)))].
Definition is_null (self : nat) : list action :=
  shared self [returns self (λ v, Bool (value.is_null v))].
Definition get (ty : value_types) (self : nat) : list action :=
  shared self [returns self (λ v, Data (value.get ty v))].
Definition set (d : ValueVariant C) (self : nat) : list action :=
  unique self [Write self (λ v l, (value.set d v, l)); count (write_count self)].
Definition visit (vis : ValueVariant C → reply) (self : nat) : list action :=
  shared self [count (read_count self); returns self (λ v, vis (data_ v))].
Definition visit_mut (vis : ValueVariant C → ValueVariant C * reply) (self : nat) : list action :=
  unique self [count (write_count self);
    Write self (λ v l, (value.set (vis (data_ v)).1 v, Locals (tmp l) (vis (data_ v)).2))].

(** [operator==] and [operator<] of two different objects. *)
Definition compare (cmp : value C → value C → bool) (self other : nat) : list action :=
  ScopedLock self other ::
  [reads self id; Read other (λ w l, Locals (tmp l) (Bool (cmp (tmp l) w)))] ++
  [Unlock self; Unlock other].
Definition operator_eq (self other : nat) : list action :=
  if decide (self = other) then [] else compare (value.eqb same_ptr) self other.
Definition operator_lt (self other : nat) : list action :=
  if decide (self = other) then [] else compare (value_object.ltb ptr_ltb false) self other.

(** ** Calls *)

Inductive request : Type :=
| CopyConstruct (other : nat) | CopyAssign (self other : nat) | MoveAssign (self other : nat)
| Type_of (self : nat) | VariantIndex (self : nat) | IsNull (self : nat)
| Get (ty : value_types) (self : nat) | Set_ (d : ValueVariant C) (self : nat)
| Visit (vis : ValueVariant C → reply) (self : nat)
| VisitMut (vis : ValueVariant C → ValueVariant C * reply) (self : nat)
| Equal (self other : nat) | Less (self other : nat).

Definition method_body (r : request) : list action :=
  match r with
  | CopyConstruct other => copy_construct other
  | CopyAssign self other => copy_assign self other
  | MoveAssign self other => move_assign self other
  | Type_of self => type self | VariantIndex self => variant_index self
  | IsNull self => is_null self | Get ty self => get ty self | Set_ d self => set d self
  | Visit vis self => visit vis self | VisitMut vis self => visit_mut vis self
  | Equal self other => operator_eq self other | Less self other => operator_lt self other
  end.
(** An object is equal to itself and not less. *)
Definition call_of (r : request) : call (value C) locals :=
  Call (method_body r)
    match r with
    | Equal _ _ => Locals (value.of_name "") (Bool true)
    | Less _ _ => Locals (value.of_name "") (Bool false)
    | _ => no_locals
    end.

(** The meaning of a call, on the objects of ValueObject.v. *)
Definition respond (r : request) (σ : nat → value_object.t C) : (nat → value_object.t C) * reply :=
  match r with
  | CopyConstruct other =>
      (σ, Data (Some (data_ (value_object.contents (value_object.copy (σ other))))))
  | CopyAssign self other =>
      (upd self (if decide (self = other) then value_object.self_assign (σ self)
                 else value_object.copy_assign (σ self) (σ other)) σ, Nothing)
  | MoveAssign self other =>
      if decide (self = other) then (σ, Nothing)
      else let '(v, w) := value_object.move_assign (σ self) (σ other) in
           (upd self v (upd other w σ), Nothing)
  | Type_of self => (σ, Type_ (value_object.type (σ self)))
  | VariantIndex self => (σ, Index (value_object.variant_index (σ self)))
  | IsNull self => (σ, Bool (value_object.is_null (σ self)))
  | Get ty self => (σ, Data (value_object.get ty (σ self)))
  | Set_ d self => (upd self (value_object.set d (σ self)) σ, Nothing)
  | Visit vis self => let '(v, x) := value_object.visit vis (σ self) in (upd self v σ, x)
  | VisitMut vis self => let '(v, x) := value_object.visit_mut vis (σ self) in (upd self v σ, x)
  | Equal self other =>
      (σ, Bool (value.operator_eq same_ptr (bool_decide (self = other))
                 (value_object.contents (σ self)) (value_object.contents (σ other))))
  | Less self other =>
      (σ, Bool (value_object.ltb ptr_ltb (bool_decide (self = other))
                 (value_object.contents (σ self)) (value_object.contents (σ other))))
  end.

Definition object (v : value C) (c : nat → Z) (o : nat) : value_object.t C :=
  value_object.Object v (c (read_count o)) (c (write_count o)).
Definition objects (h : nat → value C) (c : nat → Z) (o : nat) : value_object.t C := object (h o) c o.

(** Assignments from a value to one of lower rank. *)
Definition assigns_down (rank : nat → nat) (r : request) : bool :=
  match r with
  | CopyAssign self other | MoveAssign self other => (self =? other)%nat || (rank self <? rank other)%nat
  | _ => true
  end.
End Methods.
End locked_value.

Section Facts.
Context {C : Type} (same_ptr : option C → option C → bool) (ptr_ltb : option C → option C → bool).
Import locked_value.
Implicit Types (r : request (C:=C)) (h : nat → value C) (c : nat → Z).
#[local] Arguments read_count : simpl never.
#[local] Arguments write_count : simpl never.
#[local] Arguments bump : simpl never.

(** ** Every method passes the check *)

Ltac one_lock :=
  apply one_lock; cbn; rewrite ?lookup_singleton_eq, ?bool_decide_true by eauto; reflexivity.
Ltac held_both :=
  cbn; rewrite ?lookup_insert_eq, ?lookup_insert_ne, ?lookup_singleton_eq, ?bool_decide_true by eauto;
  reflexivity.

Lemma values_two_phase r : two_phase (call_of same_ptr ptr_ltb r) = true.
Proof.
  destruct r as [other|self other|self other|self|self|self|ty self|d self|vis self|vis self|self other|self other];
    try (refine (proj1 (_ : _ ∧ ranked (λ _, 0%nat) _ = true)); one_lock);
    unfold call_of, method_body, copy_assign, move_assign, operator_eq, operator_lt;
    case_decide; try done.
  1-2: apply (nested_two_phase _ self other [_; _; _]); [done|held_both].
  all: refine (proj1 (two_locks (λ _, 0%nat) self other [_; _] _ _ _)); [done|held_both].
Qed.

Lemma values_ranked rank r : assigns_down rank r = true → ranked rank (call_of same_ptr ptr_ltb r) = true.
Proof.
  intros Hr.
  destruct r as [other|self other|self other|self|self|self|ty self|d self|vis self|vis self|self other|self other];
    try (refine (proj2 (_ : two_phase _ = true ∧ _)); one_lock);
    unfold call_of, method_body, copy_assign, move_assign, operator_eq, operator_lt;
    case_decide as E; try done.
  1-2: cbn in Hr; apply orb_true_iff in Hr as [Hr%Nat.eqb_eq|Hr%Nat.ltb_lt]; [done|];
    apply (nested_ranked _ _ self other [_; _; _]); [done|held_both].
  all: refine (proj2 (two_locks rank self other [_; _] _ _ _)); [done|held_both].
Qed.
(** ** What a method does when nothing interferes *)

Ltac counter_case o self :=
  unfold bump, fold_left, objects, object, read_count, write_count, upd;
  destruct (Nat.eqb_spec o self) as [->|Hne];
  repeat match goal with
  | |- context [(?x =? ?y)%nat] => destruct (Nat.eqb_spec x y); try (exfalso; lia)
  end; reflexivity.

Lemma objects_read self h c o :
  objects h (bump [read_count self] c) o =
  upd self (value_object.count_read (objects h c self)) (objects h c) o.
Proof. counter_case o self. Qed.
Lemma objects_written self v h c x o :
  x = value_object.Object v (c (read_count self)) (value_object.incr (c (write_count self))) →
  objects (upd self v h) (bump [write_count self] c) o = upd self x (objects h c) o.
Proof. intros ->. counter_case o self. Qed.
Lemma objects_heap self v h c o :
  objects (upd self v h) c o = upd self (object v c self) (objects h c) o.
Proof. counter_case o self. Qed.

Lemma data_copy (v : value C) : data_ (value.copy v) = value.copy_data (data_ v).
Proof. by destruct v as [n []]. Qed.

Lemma values_call_exec r h c :
  let '(h', l, ks) := exec (body (call_of same_ptr ptr_ltb r)) h c (start (call_of same_ptr ptr_ltb r)) in
  let '(σ, x) := respond same_ptr ptr_ltb r (objects h c) in
  ret l = x ∧ ∀ o, object (h' o) (bump ks c) o = σ o.
Proof.
  change (let '(h', l, ks) := exec (body (call_of same_ptr ptr_ltb r)) h c
            (start (call_of same_ptr ptr_ltb r)) in
          let '(σ, x) := respond same_ptr ptr_ltb r (objects h c) in
          ret l = x ∧ ∀ o, objects h' (bump ks c) o = σ o).
  destruct r as [other|self other|self other|self|self|self|ty self|d self|vis self|vis self|self other|self other];
    cbn -[value.copy value.copy_data value_object.ltb value.operator_eq value.eqb]; try done.
  - split; [|done]. by rewrite data_copy.
  - unfold copy_assign. case_decide as E; cbn; (split; [done|]); intros o.
    + unfold value_object.self_assign. by rewrite upd_same.
    + apply objects_written. unfold value_object.copy_assign, value_object.write, value.assign.
      by rewrite data_copy.
  - unfold move_assign. case_decide as E; cbn; [done|]. split; [done|]. intros o.
    rewrite (objects_written self _ (upd other _ h) c
      (value_object.write (data_ (h other)) (objects h c self))).
    + apply upd_ext. intros o'. apply objects_heap.
    + unfold value_object.write, objects, object, upd. by rewrite (proj2 (Nat.eqb_neq _ _) E).
  - split; [done|]. intros o. by apply objects_written.
  - split; [done|]. intros o. apply objects_read.
  - split; [done|]. intros o. by apply objects_written.
  - unfold operator_eq. case_decide as E;
      cbn -[value_object.ltb value.operator_eq value.eqb]; (split; [|done]);
      [by rewrite bool_decide_true|by rewrite bool_decide_false].
  - unfold operator_lt. case_decide as E;
      cbn -[value_object.ltb value.operator_eq value.eqb]; (split; [|done]);
      [by rewrite bool_decide_true|by rewrite bool_decide_false].
Qed.

Lemma values_respond_proper r σ σ' :
  (∀ o, σ o = σ' o) →
  (respond same_ptr ptr_ltb r σ).2 = (respond same_ptr ptr_ltb r σ').2 ∧
  ∀ o, (respond same_ptr ptr_ltb r σ).1 o = (respond same_ptr ptr_ltb r σ').1 o.
Proof.
  intros H.
  destruct r as [other|self other|self other|self|self|self|ty self|d self|vis self|vis self|self other|self other];
    cbn; try rewrite (H self); try rewrite (H other); try done;
    try (split; [done|by apply upd_ext]).
  case_decide; [done|]. split; [done|]. by apply upd_ext, upd_ext.
Qed.

Lemma object_proper (v : value C) c c' o : (∀ k, c k = c' k) → object v c o = object v c' o.
Proof. intros Hc. unfold object. by rewrite !Hc. Qed.

#[export] Instance value_class :
  LockedClass (value C) locals request (value_object.t C) reply := {
  method := call_of same_ptr ptr_ltb; Atomicity.object := object; Atomicity.reply := ret;
  Atomicity.respond := respond same_ptr ptr_ltb; is_atomic _ := true; object_ext := object_proper;
  method_two_phase r _ := values_two_phase r; respond_ext := values_respond_proper;
  method_exec r h c _ := values_call_exec r h c }.
End Facts.

(** ** The properties *)

Section Properties.
Import locked_value.
#[local] Open Scope nat_scope.
Context {C : Type} (same_ptr : option C → option C → bool) (ptr_ltb : option C → option C → bool).
#[local] Instance this_value_class : LockedClass _ _ _ _ _ := value_class same_ptr ptr_ltb.
Abbreviation requests := (list (request (C:=C))).

(** Any methods of any values called by any number of threads: no race, and
    calls that are atomic in an order that keeps the order of every thread. *)
Theorem values_atomic (programs : list requests) (h : nat → value C) (c : nat → Z) (schedule : list nat) :
  (∀ k, 0 ≤ c k < 2 ^ 64)%Z →
  let s := run schedule (threads_of h c programs) in
  (∀ i j ti tj, i ≠ j → threads s !! i = Some ti → threads s !! j = Some tj →
     races ti tj = false) ∧
  (finished s = true →
   ∃ order, (∀ i, proj i order = default [] (programs !! i)) ∧
     let '(σ, replies) := respond_all order (Atomicity.objects h c) in
     (∀ i t, threads s !! i = Some t → ret <$> log t = proj i replies) ∧
     ∀ o, Atomicity.objects (heap s) (counters s) o = σ o).
Proof.
  intros Hc s. pose proof (λ i (p : requests) r (_ : programs !! i = Some p) (_ : r ∈ p),
    eq_refl : is_atomic r = true) as Ha.
  split.
  - intros i j ti tj. exact (requests_race_free programs h c Ha Hc schedule i j ti tj).
  - exact (requests_atomic programs h c Ha Hc schedule).
Qed.

(** Threads whose assignments all go from values of higher rank to values of
    lower rank can always finish. *)
Theorem values_finish (rank : nat → nat) (programs : list requests) (h : nat → value C)
    (c : nat → Z) (schedule : list nat) :
  (∀ i p r, programs !! i = Some p → r ∈ p → assigns_down rank r = true) →
  (∀ k, 0 ≤ c k < 2 ^ 64)%Z →
  ∃ schedule', finished (run (schedule ++ schedule') (threads_of h c programs)) = true.
Proof.
  intros Hr Hc. pose proof (λ i (p : requests) r (_ : programs !! i = Some p) (_ : r ∈ p),
    eq_refl : is_atomic r = true) as Ha.
  apply (requests_finish programs h c Ha Hc rank).
  intros i p r Hp Hin. by apply values_ranked, (Hr i p).
Qed.

(** [a = b] in one thread and [b = a] in another, copies or moves: each holds
    its target and waits for its source, whatever the values are. *)
Theorem assignments_deadlock (h : nat → value C) (c : nat → Z) (a b : request (C:=C)) :
  a ∈ [CopyAssign 0 1; MoveAssign 0 1] → b ∈ [CopyAssign 1 0; MoveAssign 1 0] →
  deadlocked (run [0; 1; 0; 1] (threads_of h c [[a]; [b]])) = true.
Proof.
  intros Ha Hb. repeat (apply elem_of_cons in Ha as [->|Ha]; [|]); [..|by apply not_elem_of_nil in Ha];
    (repeat (apply elem_of_cons in Hb as [->|Hb]; [|]); [..|by apply not_elem_of_nil in Hb]);
    vm_compute; reflexivity.
Qed.
End Properties.

(** * The store *)

Module locked_store.
Import value_store.
Abbreviation value_map := (list (string * value tree)).

Inductive reply : Type :=
| Nothing | Bool (b : bool) | Size_ (z : Z) | Found (v : option (value tree)) | Bytes_ (bs : list byte).
(** Whether [find] found the key, and what is returned. *)
Record locals : Type := Locals { it : bool; ret : reply }.
Abbreviation action := (action value_map locals).

Definition read_count (o : nat) : nat := 2 * o.
Definition write_count (o : nat) : nat := 2 * o + 1.
Definition find (self : nat) (key : string) : action :=
  Read self (λ m l, Locals (um_contains key m) (ret l)).
Definition returns (self : nat) (e : bool → value_map → reply) : action :=
  Read self (λ m l, Locals (it l) (e (it l) m)).
Definition updates (self : nat) (f : bool → value_map → value_map) : action :=
  Write self (λ m l, (f (it l) m, l)).
Definition shared (self : nat) (acts : list action) : list action :=
  Lock Shared self :: acts ++ [Unlock self].
Definition unique (self : nat) (acts : list action) : list action :=
  Lock Exclusive self :: acts ++ [Unlock self].

Definition add (self : nat) (key : string) (val : value tree) : list action :=
  unique self [updates self (λ _, assign_at key val); FetchAdd (write_count self) (λ _, true)].
Definition get (self : nat) (key : string) : list action :=
  shared self [find self key; FetchAdd (read_count self) it;
    returns self (λ it m, Found (if it then value.copy <$> um_find key m else None))].
Definition contains (self : nat) (key : string) : list action :=
  shared self [returns self (λ _ m, Bool (um_contains key m))].
Definition remove (self : nat) (key : string) : list action :=
  unique self [find self key; updates self (λ it m, if it then um_erase key m else m);
    returns self (λ it _, Bool it)].
Definition clear (self : nat) : list action := unique self [updates self (λ _ _, [])].
Definition size (self : nat) : list action := shared self [returns self (λ _ m, Size_ (um_size m))].
(** [return size() == 0] *)
Definition empty (self : nat) : list action :=
  shared self [returns self (λ _ m, Bool (um_size m =? 0))].
Definition serialize_binary (self : nat) : list action :=
  shared self [FetchAdd (read_count self) (λ _, true);
    returns self (λ _ m, Bytes_ (to_u8 version :: serialize_entries serialize_value m))].

Inductive request : Type :=
| Add (self : nat) (key : string) (val : value tree) | Get (self : nat) (key : string)
| Contains (self : nat) (key : string) | Remove (self : nat) (key : string)
| Clear (self : nat) | Size (self : nat) | Empty (self : nat) | SerializeBinary (self : nat).

Definition method_body (r : request) : list action :=
  match r with
  | Add self key val => add self key val | Get self key => get self key
  | Contains self key => contains self key | Remove self key => remove self key
  | Clear self => clear self | Size self => size self | Empty self => empty self
  | SerializeBinary self => serialize_binary self
  end.
Definition call_of (r : request) : call value_map locals := Call (method_body r) (Locals false Nothing).

(** The meaning of a call, on the stores of ValueStore.v. *)
Definition respond (r : request) (σ : nat → t) : (nat → t) * reply :=
  match r with
  | Add self key val => (upd self (value_store.add key val (σ self)) σ, Nothing)
  | Get self key => let '(s, v) := value_store.get key (σ self) in (upd self s σ, Found v)
  | Contains self key => (σ, Bool (value_store.contains key (σ self)))
  | Remove self key => let '(s, b) := value_store.remove key (σ self) in (upd self s σ, Bool b)
  | Clear self => (upd self (value_store.clear (σ self)) σ, Nothing)
  | Size self => (σ, Size_ (value_store.size (σ self)))
  | Empty self => (σ, Bool (value_store.empty (σ self)))
  | SerializeBinary self =>
      let '(s, bs) := value_store.serialize_binary (σ self) in (upd self s σ, Bytes_ bs)
  end.

Definition store (m : value_map) (c : nat → Z) (o : nat) : t :=
  Store m (c (read_count o)) (c (write_count o)).
End locked_store.

Section Store.
Import locked_store.
#[local] Open Scope Z_scope.
#[local] Arguments read_count : simpl never.
#[local] Arguments write_count : simpl never.
#[local] Arguments bump : simpl never.

Lemma store_call_ok rank r : two_phase (call_of r) = true ∧ ranked rank (call_of r) = true.
Proof.
  destruct r; apply one_lock; cbn; rewrite ?lookup_singleton_eq, ?bool_decide_true by eauto; reflexivity.
Qed.

Lemma store_ext m c c' o : (∀ k, c k = c' k) → store m c o = store m c' o.
Proof. intros H. unfold store. by rewrite !H. Qed.

Lemma store_respond_proper r (σ σ' : nat → value_store.t) :
  (∀ o, σ o = σ' o) → (respond r σ).2 = (respond r σ').2 ∧ ∀ o, (respond r σ).1 o = (respond r σ').1 o.
Proof.
  intros H. destruct r as [self|self|self|self|self|self|self|self]; cbn; rewrite (H self); try done;
    try (destruct (value_store.get _ _)); try (destruct (value_store.remove _ _));
    (split; [done|by apply upd_ext]).
Qed.

Ltac counter_case o self :=
  unfold bump, fold_left, store, read_count, write_count, upd;
  destruct (Nat.eqb_spec o self) as [->|Hne];
  repeat match goal with
  | |- context [(?x =? ?y)%nat] => destruct (Nat.eqb_spec x y); try (exfalso; lia)
  end; reflexivity.

Lemma store_call_exec r h c :
  let '(h', l, ks) := exec (body (call_of r)) h c (start (call_of r)) in
  let '(σ, x) := respond r (λ o, store (h o) c o) in
  ret l = x ∧ ∀ o, store (h' o) (bump ks c) o = σ o.
Proof.
  destruct r as [self key val|self key|self key|self key|self|self|self|self];
    cbn -[um_find]; try done.
  - split; [done|]. intros o. counter_case o self.
  - unfold um_contains, value_store.get. cbn -[um_find]. destruct (um_find key (h self)); cbn.
    + split; [done|]. intros o. counter_case o self.
    + split; [done|]. intros o. counter_case o self.
  - unfold um_contains, value_store.remove. cbn -[um_find]. destruct (um_find key (h self)); cbn.
    + split; [done|]. intros o. counter_case o self.
    + split; [done|]. intros o. counter_case o self.
  - split; [done|]. intros o. counter_case o self.
  - split; [done|]. intros o. counter_case o self.
Qed.

#[export] Instance value_store_class : LockedClass value_map locals request value_store.t reply := {
  method := call_of; object := store; Atomicity.reply := ret; Atomicity.respond := respond;
  is_atomic _ := true; object_ext := store_ext;
  method_two_phase r _ := proj1 (store_call_ok (λ _, 0%nat) r); respond_ext := store_respond_proper;
  method_exec r h c _ := store_call_exec r h c }.

(** Any number of threads on any number of stores: no race, calls that are
    atomic in an order that keeps the order of every thread, and always a way
    to finish. *)
Theorem store_methods_atomic (programs : list (list request)) (h : nat → value_map) (c : nat → Z)
    (schedule : list nat) :
  (∀ k, 0 ≤ c k < 2 ^ 64) →
  let s := run schedule (threads_of h c programs) in
  (∀ i j ti tj, i ≠ j → threads s !! i = Some ti → threads s !! j = Some tj →
     races ti tj = false) ∧
  (finished s = true →
   ∃ order, (∀ i, proj i order = default [] (programs !! i)) ∧
     let '(σ, replies) := respond_all order (objects h c) in
     (∀ i t, threads s !! i = Some t → ret <$> log t = proj i replies) ∧
     ∀ o, objects (heap s) (counters s) o = σ o) ∧
  ∃ schedule', finished (run (schedule ++ schedule') (threads_of h c programs)) = true.
Proof.
  intros Hc s. pose proof (λ i (p : list request) r (_ : programs !! i = Some p) (_ : r ∈ p),
    eq_refl : is_atomic r = true) as Ha.
  split_and!.
  - intros i j ti tj. exact (requests_race_free programs h c Ha Hc schedule i j ti tj).
  - exact (requests_atomic programs h c Ha Hc schedule).
  - apply (requests_finish programs h c Ha Hc (λ _, 0%nat)). intros. by apply (store_call_ok (λ _, 0%nat)).
Qed.
End Store.
