(* ===== verification/FloatSum.v ===== *)
(** * Addition of floats

    IEEE addition of two values of a binary format, and when it is exact:
    values on a common grid [2^j] whose sum has at most [mbits + 1] bits there
    ([f_add_exact]). *)

From S2P Require Import Prelude Float Regex Numbers Decimal FloatArith.
#[local] Hint Resolve pow2_pos : core.

Section Add.
Context (f : fmt).

Definition quiet_nan : Z := infinity f + 2 ^ (mbits f - 1).
Definition f_inf (a : Z) : bool := f_mag f a =? infinity f.
Definition f_finite (a : Z) : bool := f_mag f a <? infinity f.
Definition f_neg (z : Z) : Z := 2 ^ (ebits f + mbits f) + z.

(** A finite value in units of the smallest positive one. *)
Definition f_units (a : Z) : Z :=
  (if f_sign f a =? 0 then 1 else -1) * units f (f_mag f a).

(** IEEE addition, to nearest with ties to even; every NaN result is one quiet NaN. *)
Definition f_add (a b : Z) : Z :=
  if f_is_nan f a || f_is_nan f b then quiet_nan
  else if f_inf a then
    (if f_inf b && negb (f_sign f a =? f_sign f b) then quiet_nan else a)
  else if f_inf b then b
  else
    let u := f_units a + f_units b in
    let mag := (nearest f (Z.abs u) (2 ^ (fbias f + mbits f - 1))).1 in
    if u =? 0 then (if (f_sign f a =? 1) && (f_sign f b =? 1) then f_neg 0 else 0)
    else if u <? 0 then f_neg mag else mag.
End Add.

Example f_add_examples :
  f_add f32 0x3f800000 0x40000000 = 0x40400000 ∧         (* 1 + 2 *)
  f_add f32 0x3f800000 0xbf800000 = 0 ∧                    (* 1 - 1 *)
  f_add f32 0x4b800000 0x3f800000 = 0x4b800000 ∧         (* 2^24 + 1 *)
  f_add f32 (infinity f32 - 1) (infinity f32 - 1) = infinity f32 ∧
  f_add f32 0x80000000 0x80000000 = 0x80000000 ∧         (* -0 + -0 *)
  f_add f32 (infinity f32) (f_neg f32 (infinity f32)) = quiet_nan f32 ∧
  f_add f64 (u64_to_f64 3) (2 ^ 63 + u64_to_f64 10) = 2 ^ 63 + u64_to_f64 7.
Proof. by vm_compute. Qed.

Section Facts.
Context (f : fmt) `{!ieee f}.
Let emin := 1 - fbias f - mbits f.

(** A number of at most [mbits + 1] bits on the grid [2^j] is a value of the format. *)
Lemma nearest_grid u j :
  0 < u ≤ 2 ^ (mbits f + 1 + j) → 0 ≤ j ≤ 2 ^ ebits f - 4 → (2 ^ j | u) →
  0 ≤ (nearest f u (2 ^ (- emin))).1 < infinity f ∧
  units f (nearest f u (2 ^ (- emin))).1 = u.
Proof.
  intros Hu Hj [n Hn]. pose proof ieee_mbits. pose proof ieee_bias. pose proof (exp_range f) as Hx.
  set (k := Z.max 0 (Z.log2 u - mbits f)). pose proof (Z.log2_nonneg u).
  pose proof (Z.log2_spec u ltac:(lia)) as [Hl1 Hl2].
  assert (Z.log2 u ≤ mbits f + 1 + j) as Hl.
  { rewrite <-(Z.log2_pow2 (mbits f + 1 + j)) by lia. apply Z.log2_le_mono. lia. }
  assert ((2 ^ k | u)) as [m Hm].
  { destruct (decide (k ≤ j)) as [Hk|Hk].
    - exists (n * 2 ^ (j - k)). rewrite <-Z.mul_assoc, <-Z.pow_add_r by lia. rewrite Hn.
      f_equal. f_equal. lia.
    - assert (Z.log2 u = mbits f + 1 + j) as E by lia. rewrite E in Hl1.
      exists (2 ^ (mbits f + 1 + j - k)). rewrite <-Z.pow_add_r by lia.
      replace (mbits f + 1 + j - k + k) with (mbits f + 1 + j) by lia. lia. }
  pose proof (pow2_pos k ltac:(lia)). pose proof (pow2_pos (mbits f) ltac:(lia)) as HM.
  assert (0 < m) by nia.
  assert (m < 2 ^ (mbits f + 1)) as Hm2.
  { apply (Z.mul_lt_mono_pos_r (2 ^ k)); [done|]. rewrite <-Z.pow_add_r, <-Hm by lia.
    eapply Z.lt_le_trans; [exact Hl2|]. apply Z.pow_le_mono_r; lia. }
  assert (2 ^ mbits f ≤ m ∨ k = 0) as Hnorm.
  { destruct (decide (k = 0)) as [|Hk]; [by right|left].
    apply (Z.mul_le_mono_pos_r _ _ (2 ^ k)); [done|]. rewrite <-Z.pow_add_r, <-Hm by lia.
    replace (mbits f + k) with (Z.log2 u) by lia. done. }
  rewrite (nearest_exact f u (2 ^ (- emin)) m (emin + k));
    [|lia|unfold emin; auto with lia|lia|unfold emin in *; lia|unfold emin in *; lia|].
  2:{ rewrite Hm, <-!Z.mul_assoc, <-!Z.pow_add_r by lia. f_equal. f_equal. unfold emin in *. lia. }
  cbn [fst]. fold emin. replace (emin + k - emin) with k by lia.
  rewrite Z.pow_add_r in Hm2 by lia. unfold infinity. rewrite Hx.
  assert (0 ≤ k ≤ 2 * fbias f - 1) as Hk by (unfold k; lia).
  split; [nia|]. unfold units. set (M := 2 ^ mbits f) in *. clearbody M.
  destruct (decide (M ≤ m)) as [HMm|HMm].
  - assert ((k * M + m) / M = k + 1 ∧ (k * M + m) mod M = m - M) as [-> ->].
    { split; [symmetry; apply (Z.div_unique_pos _ _ _ (m - M)); lia|].
      symmetry. apply (Z.mod_unique_pos _ _ (k + 1)); lia. }
    destruct (Z.eqb_spec (k + 1) 0); [lia|].
    replace (k + 1 - 1) with k by lia. rewrite Hm. f_equal. lia.
  - assert (k = 0) as Hk0 by lia. rewrite Hk0 in *. rewrite Z.mul_0_l, Z.add_0_l.
    rewrite Z.div_small, Z.mod_small by lia. simpl. lia.
Qed.
Lemma mag_bounds a : 0 ≤ f_mag f a.
Proof.
  pose proof ieee_mbits. pose proof ieee_ebits. apply Z.mod_pos_bound. auto with lia.
Qed.

Lemma not_nan_finite a : f_finite f a = true → f_is_nan f a = false ∧ f_inf f a = false.
Proof.
  unfold f_finite, f_inf, f_is_nan, f_exp, infinity. rewrite Z.ltb_lt. intros Ha.
  pose proof ieee_mbits. pose proof (pow2_pos (mbits f) ltac:(lia)).
  assert (f_mag f a / 2 ^ mbits f < 2 ^ ebits f - 1) by (apply Z.div_lt_upper_bound; lia).
  destruct (Z.eqb_spec (f_mag f a / 2 ^ mbits f) (2 ^ ebits f - 1)); [lia|].
  destruct (Z.eqb_spec (f_mag f a) ((2 ^ ebits f - 1) * 2 ^ mbits f)); [|done]. lia.
Qed.

(** The sign bit in front of a magnitude. *)
Lemma signed_fields a :
  0 ≤ a < infinity f →
  (f_sign f a = 0 ∧ f_mag f a = a) ∧ (f_sign f (f_neg f a) = 1 ∧ f_mag f (f_neg f a) = a).
Proof.
  intros Ha. pose proof ieee_mbits. pose proof ieee_ebits. unfold infinity in Ha.
  pose proof (pow2_pos (mbits f) ltac:(lia)).
  assert (a < 2 ^ (ebits f + mbits f)) by (rewrite Z.pow_add_r by lia; nia).
  unfold f_sign, f_mag, f_neg. set (W := 2 ^ (ebits f + mbits f)) in *. clearbody W.
  split; split; [apply Z.div_small; lia|apply Z.mod_small; lia| |].
  - symmetry. apply (Z.div_unique_pos _ _ _ a); lia.
  - symmetry. apply (Z.mod_unique_pos _ _ 1); lia.
Qed.

Lemma finite_units_signed a u :
  0 ≤ a < infinity f → units f a = Z.abs u →
  let r := if u <? 0 then f_neg f a else a in f_finite f r = true ∧ f_units f r = u.
Proof.
  intros Ha Hu r. destruct (signed_fields a Ha) as [[Hs Hm] [Hs' Hm']].
  unfold f_finite, f_units, r. rewrite Z.ltb_lt.
  destruct (Z.ltb_spec u 0); rewrite ?Hs, ?Hm, ?Hs', ?Hm', Hu;
    cbn [Z.eqb]; split; lia.
Qed.

(** A finite sum on a grid is exact when it has at most [mbits + 1] bits there. *)
Theorem f_add_exact a b j :
  f_finite f a = true → f_finite f b = true →
  0 ≤ j ≤ 2 ^ ebits f - 4 → (2 ^ j | f_units f a) → (2 ^ j | f_units f b) →
  Z.abs (f_units f a + f_units f b) ≤ 2 ^ (mbits f + 1 + j) →
  f_finite f (f_add f a b) = true ∧ f_units f (f_add f a b) = f_units f a + f_units f b.
Proof.
  intros Ha Hb Hj Hda Hdb Hu. destruct (not_nan_finite a Ha) as [Na Ia].
  destruct (not_nan_finite b Hb) as [Nb Ib].
  unfold f_add. rewrite Na, Nb, Ia, Ib. cbn [orb]. cbv zeta.
  set (u := f_units f a + f_units f b) in *.
  pose proof (exp_range f). pose proof ieee_mbits. pose proof ieee_bias.
  assert (0 < infinity f) as Hinf.
  { unfold infinity. pose proof (pow2_pos (mbits f) ltac:(lia)). nia. }
  destruct (Z.eqb_spec u 0) as [E|E].
  - rewrite E. assert (units f 0 = 0) as U0 by (unfold units; by rewrite Z.div_0_l, Z.mod_0_l by
      (apply Z.pow_nonzero; lia)).
    destruct (signed_fields 0 ltac:(lia)) as [[Hs Hm] [Hs' Hm']].
    unfold f_finite, f_units. destruct (_ && _); rewrite ?Hs, ?Hm, ?Hs', ?Hm', ?U0;
      (split; [by apply Z.ltb_lt|done]).
  - destruct (nearest_grid (Z.abs u) j) as [Hr Hv]; [lia|done| |].
    { apply Z.divide_abs_r. by apply Z.divide_add_r. }
    replace (2 ^ (fbias f + mbits f - 1)) with (2 ^ - emin) by (f_equal; unfold emin; lia).
    by apply finite_units_signed.
Qed.
End Facts.
