(* ===== verification/Metrics.v ===== *)
(** * Metrics: counters, latencies, percentiles

    [include/kcenon/container/container/metrics.h] and the calls of
    [core/container.cpp] that feed it.  Every member is an atomic that the
    functions of this file load, store or add to one after the other; how
    concurrent calls interleave is the subject of MetricsConcurrent.v.  Counters
    are [uint64_t]; rates are computed in [double] (FloatArith.v).

    A latency is what the clock says at the end of an operation minus what it
    said at its beginning; the clock is an argument. *)

From S2P Require Import Prelude Float Regex Numbers FloatArith.
From stdpp Require Import sorting.
#[local] Open Scope Z_scope.

(** [fetch_add] on a [uint64_t] *)
Definition fetch_add (n z : Z) : Z := wrap 64 (z + n).

(** ** operation_counts *)

Module operation_counts.
Record t : Type := Counts {
  reads : Z; writes : Z; serializations : Z; deserializations : Z; copies : Z; moves : Z }.
Definition new : t := Counts 0 0 0 0 0 0.
Definition copy (other : t) : t :=
  Counts (reads other) (writes other) (serializations other) (deserializations other)
    (copies other) (moves other).
Definition reset (_ : t) : t := Counts 0 0 0 0 0 0.
End operation_counts.

(** ** timing_metrics *)

Module timing_metrics.
Record t : Type := Timing {
  total_serialize_ns : Z; total_deserialize_ns : Z; total_read_ns : Z; total_write_ns : Z }.
Definition new : t := Timing 0 0 0 0.
Definition copy (other : t) : t :=
  Timing (total_serialize_ns other) (total_deserialize_ns other) (total_read_ns other)
    (total_write_ns other).
Definition reset (_ : t) : t := Timing 0 0 0 0.
End timing_metrics.

(** ** latency_histogram *)

Module latency_histogram.

Definition kReservoirSize : nat := 1024.
Definition UINT64_MAX : Z := 2 ^ 64 - 1.

Record t : Type := Histogram {
  sample_count : Z; max_ns : Z; min_ns : Z; sum_ns : Z;
  reservoir : list Z; reservoir_count : Z }.

Definition new : t := Histogram 0 0 UINT64_MAX 0 (replicate kReservoirSize 0) 0.

(** The copy has the first [reservoir_count] slots and zeros behind them. *)
Definition copy_slots (count : Z) (from to : list Z) : list Z :=
  let n := Nat.min (Z.to_nat count) kReservoirSize in take n from ++ drop n to.
Definition copy (other : t) : t :=
  Histogram (sample_count other) (max_ns other) (min_ns other) (sum_ns other)
    (copy_slots (reservoir_count other) (reservoir other) (replicate kReservoirSize 0))
    (reservoir_count other).
Definition assign (self other : t) : t :=
  Histogram (sample_count other) (max_ns other) (min_ns other) (sum_ns other)
    (copy_slots (reservoir_count other) (reservoir other) (reservoir self))
    (reservoir_count other).

(** The slot the [count]-th sample replaces, if any; [% count] divides by the
    counter, which is zero again after 2^64 samples. *)
Definition replace_slot (count : Z) : res (option nat) :=
  let hash := wrap 64 (count * 2654435769) in
  if count =? 0 then Undef
  else Val (if Z.shiftr hash 32 mod count <? Z.of_nat kReservoirSize
            then Some (Z.to_nat (hash mod Z.of_nat kReservoirSize)) else None).

Definition store_slot (slot : option nat) (latency_ns : Z) (slots : list Z) : list Z :=
  match slot with Some i => <[i := latency_ns]> slots | None => slots end.

(** [record], without interference. *)
Definition record (latency_ns : Z) (h : t) : res t :=
  let count := fetch_add 1 (sample_count h) in
  let max := if max_ns h <? latency_ns then latency_ns else max_ns h in
  let min := if latency_ns <? min_ns h then latency_ns else min_ns h in
  let sum := fetch_add latency_ns (sum_ns h) in
  let idx := reservoir_count h in
  if idx <? Z.of_nat kReservoirSize then
    Val (Histogram count max min sum (<[Z.to_nat idx := latency_ns]> (reservoir h))
           (fetch_add 1 idx))
  else
    let? slot := replace_slot count in
    Val (Histogram count max min sum (store_slot slot latency_ns (reservoir h)) idx).

(** The rank [percentile * (count - 1)], at most [count - 1]. *)
Definition percentile_index (percentile count : Z) : res Z :=
  let? idx := f64_to_u64 (f64_mul percentile (u64_to_f64 (count - 1))) in
  Val (if count <=? idx then count - 1 else idx).

(** [std::sort(begin, begin + count)] is undefined when [count] exceeds the array. *)
Definition get_percentile (percentile : Z) (h : t) : res Z :=
  let count := reservoir_count h in
  if count =? 0 then Val 0
  else if Z.of_nat kReservoirSize <? count then Undef
  else
    let values := merge_sort Z.le (take (Z.to_nat count) (reservoir h)) in
    let? idx := percentile_index percentile count in
    match values !! Z.to_nat idx with Some v => Val v | None => Undef end.

(** 0.5, 0.95, 0.99, 0.999 *)
Definition q50 : Z := 0x3fe0000000000000.
Definition q95 : Z := 0x3fee666666666666.
Definition q99 : Z := 0x3fefae147ae147ae.
Definition q999 : Z := 0x3feff7ced916872b.

Definition p50 : t → res Z := get_percentile q50.
Definition p95 : t → res Z := get_percentile q95.
Definition p99 : t → res Z := get_percentile q99.
Definition p999 : t → res Z := get_percentile q999.

Definition avg (h : t) : Z :=
  if sample_count h =? 0 then 0
  else f64_div (u64_to_f64 (sum_ns h)) (u64_to_f64 (sample_count h)).

Definition reset (h : t) : t :=
  Histogram 0 0 UINT64_MAX 0 ((λ _, 0) <$> reservoir h) 0.

(** The constants are the doubles nearest to the literals of the source. *)
Example quantiles :
  q50 = (nearest f64 1 2).1 ∧ q95 = (nearest f64 95 100).1 ∧ q99 = (nearest f64 99 100).1 ∧
  q999 = (nearest f64 999 1000).1.
Proof. by vm_compute. Qed.
End latency_histogram.

(** ** Rates *)

(** [part / (part + rest) * 100.0], 0.0 for nothing. *)
Definition rate (part rest : Z) : Z :=
  let total := wrap 64 (part + rest) in
  if total =? 0 then 0
  else f64_mul (f64_div (u64_to_f64 part) (u64_to_f64 total)) f64_hundred.

Module simd_metrics.
Record t : Type := Simd { simd_operations : Z; scalar_fallbacks : Z; bytes_processed_simd : Z }.
Definition new : t := Simd 0 0 0.
Definition copy (other : t) : t :=
  Simd (simd_operations other) (scalar_fallbacks other) (bytes_processed_simd other).
Definition utilization (s : t) : Z := rate (simd_operations s) (scalar_fallbacks s).
Definition reset (_ : t) : t := Simd 0 0 0.
End simd_metrics.

Module cache_metrics.
Record t : Type := Cache {
  key_index_hits : Z; key_index_misses : Z; value_cache_hits : Z; value_cache_misses : Z }.
Definition new : t := Cache 0 0 0 0.
Definition copy (other : t) : t :=
  Cache (key_index_hits other) (key_index_misses other) (value_cache_hits other)
    (value_cache_misses other).
Definition key_index_hit_rate (c : t) : Z := rate (key_index_hits c) (key_index_misses c).
Definition value_cache_hit_rate (c : t) : Z := rate (value_cache_hits c) (value_cache_misses c).
Definition reset (_ : t) : t := Cache 0 0 0 0.
End cache_metrics.

(** ** detailed_metrics *)

Module detailed_metrics.
Import latency_histogram.

Record t : Type := Metrics {
  heap_allocations : Z;
  stack_allocations : Z;
  operations : operation_counts.t;
  timing : timing_metrics.t;
  serialize_latency : latency_histogram.t;
  deserialize_latency : latency_histogram.t;
  read_latency : latency_histogram.t;
  write_latency : latency_histogram.t;
  simd : simd_metrics.t;
  cache : cache_metrics.t }.

Definition new : t :=
  Metrics 0 0 operation_counts.new timing_metrics.new latency_histogram.new latency_histogram.new
    latency_histogram.new latency_histogram.new simd_metrics.new cache_metrics.new.

Definition simd_utilization (m : t) : Z := simd_metrics.utilization (simd m).

Definition cache_hit_rate (m : t) : Z :=
  let c := cache m in
  rate (wrap 64 (cache_metrics.key_index_hits c + cache_metrics.value_cache_hits c))
    (wrap 64 (cache_metrics.key_index_misses c + cache_metrics.value_cache_misses c)).

Definition avg_serialize_latency_ns (m : t) : Z := avg (serialize_latency m).

Definition reset (m : t) : t :=
  Metrics 0 0 (operation_counts.reset (operations m)) (timing_metrics.reset (timing m))
    (latency_histogram.reset (serialize_latency m)) (latency_histogram.reset (deserialize_latency m))
    (latency_histogram.reset (read_latency m)) (latency_histogram.reset (write_latency m))
    (simd_metrics.reset (simd m)) (cache_metrics.reset (cache m)).
End detailed_metrics.

(** ** Instrumented operations *)

(** The operations that are timed: [value_container::get], [set_unit_impl],
    [serialize] and [serialize_string], [deserialize] and [from_msgpack_impl]. *)
Inductive timed : Type := a_read | a_write | a_serialize | a_deserialize.

Module metrics_manager.
Import operation_counts timing_metrics detailed_metrics.

(** [enabled_] and the singleton of [get]. *)
Record t : Type := Manager { enabled_ : bool; metrics : detailed_metrics.t }.

Definition new : t := Manager false detailed_metrics.new.
Definition is_enabled (g : t) : bool := enabled_ g.
Definition set_enabled (enabled : bool) (g : t) : t := Manager enabled (metrics g).
Definition reset (g : t) : t := Manager (enabled_ g) (detailed_metrics.reset (metrics g)).

(** A [scoped_timer]: what it will record to, and when it was made; disabled
    otherwise. *)
Definition scoped_timer : Type := option (timed * Z).

Definition make_timer (k : timed) (now : Z) (g : t) : scoped_timer :=
  if is_enabled g then Some (k, now) else None.

(** [operations.reads.fetch_add(1)] and its like, when metrics are enabled. *)
Definition count_operation (k : timed) (m : detailed_metrics.t) : detailed_metrics.t :=
  let o := operations m in
  let o' :=
    match k with
    | a_read => Counts (fetch_add 1 (reads o)) (writes o) (serializations o) (deserializations o)
                  (copies o) (moves o)
    | a_write => Counts (reads o) (fetch_add 1 (writes o)) (serializations o) (deserializations o)
                   (copies o) (moves o)
    | a_serialize => Counts (reads o) (writes o) (fetch_add 1 (serializations o))
                       (deserializations o) (copies o) (moves o)
    | a_deserialize => Counts (reads o) (writes o) (serializations o)
                         (fetch_add 1 (deserializations o)) (copies o) (moves o)
    end in
  Metrics (heap_allocations m) (stack_allocations m) o' (timing m) (serialize_latency m)
    (deserialize_latency m) (read_latency m) (write_latency m) (simd m) (cache m).

Definition histogram (k : timed) (m : detailed_metrics.t) : latency_histogram.t :=
  match k with
  | a_read => read_latency m | a_write => write_latency m
  | a_serialize => serialize_latency m | a_deserialize => deserialize_latency m
  end.

Definition add_timing (k : timed) (latency : Z) (x : timing_metrics.t) : timing_metrics.t :=
  match k with
  | a_read => Timing (total_serialize_ns x) (total_deserialize_ns x)
                (fetch_add latency (total_read_ns x)) (total_write_ns x)
  | a_write => Timing (total_serialize_ns x) (total_deserialize_ns x) (total_read_ns x)
                 (fetch_add latency (total_write_ns x))
  | a_serialize => Timing (fetch_add latency (total_serialize_ns x)) (total_deserialize_ns x)
                     (total_read_ns x) (total_write_ns x)
  | a_deserialize => Timing (total_serialize_ns x) (fetch_add latency (total_deserialize_ns x))
                       (total_read_ns x) (total_write_ns x)
  end.

Definition with_sample (k : timed) (latency : Z) (h : latency_histogram.t)
    (m : detailed_metrics.t) : detailed_metrics.t :=
  let pick k' (h' : latency_histogram.t) :=
    match k, k' with
    | a_read, a_read | a_write, a_write | a_serialize, a_serialize
    | a_deserialize, a_deserialize => h
    | _, _ => h'
    end in
  Metrics (heap_allocations m) (stack_allocations m) (operations m)
    (add_timing k latency (timing m))
    (pick a_serialize (serialize_latency m)) (pick a_deserialize (deserialize_latency m))
    (pick a_read (read_latency m)) (pick a_write (write_latency m)) (simd m) (cache m).

(** [~scoped_timer]: the latency goes to the histogram and to the total. *)
Definition finish (timer : scoped_timer) (now : Z) (g : t) : res t :=
  match timer with
  | None => Val g
  | Some (k, start) =>
      let latency := wrap 64 (now - start) in
      let? h := latency_histogram.record latency (histogram k (metrics g)) in
      Val (Manager (enabled_ g) (with_sample k latency h (metrics g)))
  end.

(** What an instrumented operation does around its body. *)
Definition instrumented (k : timed) (start now : Z) (g : t) : res t :=
  let timer := make_timer k start g in
  let g := if is_enabled g then Manager (enabled_ g) (count_operation k (metrics g)) else g in
  finish timer now g.

(** The copy and move constructors only count. *)
Definition count_copy (g : t) : t :=
  if is_enabled g then
    let m := metrics g in let o := operations m in
    Manager true (Metrics (heap_allocations m) (stack_allocations m)
      (Counts (reads o) (writes o) (serializations o) (deserializations o)
         (fetch_add 1 (copies o)) (moves o)) (timing m) (serialize_latency m)
      (deserialize_latency m) (read_latency m) (write_latency m) (simd m) (cache m))
  else g.

Definition count_move (g : t) : t :=
  if is_enabled g then
    let m := metrics g in let o := operations m in
    Manager true (Metrics (heap_allocations m) (stack_allocations m)
      (Counts (reads o) (writes o) (serializations o) (deserializations o)
         (copies o) (fetch_add 1 (moves o))) (timing m) (serialize_latency m)
      (deserialize_latency m) (read_latency m) (write_latency m) (simd m) (cache m))
  else g.
End metrics_manager.
