(* ===== verification/MetricsFacts.v ===== *)
(** * Facts about the metrics

    Without interference a histogram holds exact statistics of its samples, and
    its percentiles are samples, in order ([percentiles_of_samples]); rates are
    between 0 and 100 unless the counters overflow ([rates_bounded]).  What
    concurrent records do is in MetricsConcurrent.v, the exporters are in
    MetricsExport.v. *)

From S2P Require Import Prelude Float Numbers Decimal FloatArith Metrics.
From stdpp Require Import sorting.
#[local] Open Scope Z_scope.
Import latency_histogram.

(** ** What a histogram holds *)

Definition maximum (ls : list Z) : Z := fold_left Z.max ls 0.
Definition minimum (ls : list Z) : Z := fold_left Z.min ls UINT64_MAX.
Definition total (ls : list Z) : Z := fold_left Z.add ls 0.

Fixpoint record_all (ls : list Z) (h : t) : res t :=
  match ls with [] => Val h | l :: ls => let? h := record l h in record_all ls h end.

Record holds (ls : list Z) (h : t) : Prop := Holds {
  holds_count : sample_count h = Z.of_nat (length ls);
  holds_max : max_ns h = maximum ls;
  holds_min : min_ns h = minimum ls;
  holds_sum : sum_ns h = wrap 64 (total ls);
  holds_slots : length (reservoir h) = kReservoirSize;
  holds_filled : reservoir_count h = Z.of_nat (Nat.min (length ls) kReservoirSize);
  holds_samples : Forall (λ x, x ∈ ls) (take (Nat.min (length ls) kReservoirSize) (reservoir h));
  holds_all : (length ls ≤ kReservoirSize)%nat → take (length ls) (reservoir h) = ls }.

Lemma holds_new : holds [] new.
Proof. by split. Qed.

Lemma take_insert_end {A} (l : list A) i x :
  (i < length l)%nat → take (S i) (<[i := x]> l) = take i l ++ [x].
Proof.
  intros Hi. rewrite (take_S_r _ _ x) by by apply list_lookup_insert_eq.
  by rewrite take_insert_ge by lia.
Qed.

Lemma store_slot_length slot l slots : length (store_slot slot l slots) = length slots.
Proof. destruct slot; [apply length_insert|done]. Qed.

Lemma store_slot_Forall (P : Z → Prop) slot l slots :
  Forall P slots → P l → Forall P (store_slot slot l slots).
Proof. intros ??. destruct slot; [by apply Forall_insert|done]. Qed.

Lemma record_holds ls h l :
  holds ls h → Z.of_nat (length ls) + 1 < 2 ^ 64 →
  ∃ h', record l h = Val h' ∧ holds (ls ++ [l]) h'.
Proof.
  intros [Hc Hmax Hmin Hsum Hlen Hrc Hin Hall] Hlt. unfold record, fetch_add, kReservoirSize in *.
  assert (wrap 64 (sample_count h + 1) = Z.of_nat (length (ls ++ [l]))) as Hc'.
  { rewrite Hc, wrap_small, length_app by lia. cbn [length]. lia. }
  assert ((if max_ns h <? l then l else max_ns h) = maximum (ls ++ [l])) as Hmax'.
  { unfold maximum. rewrite fold_left_app. cbn [fold_left]. fold (maximum ls). rewrite <-Hmax.
    destruct (Z.ltb_spec (max_ns h) l); lia. }
  assert ((if l <? min_ns h then l else min_ns h) = minimum (ls ++ [l])) as Hmin'.
  { unfold minimum. rewrite fold_left_app. cbn [fold_left]. fold (minimum ls). rewrite <-Hmin.
    destruct (Z.ltb_spec l (min_ns h)); lia. }
  assert (wrap 64 (sum_ns h + l) = wrap 64 (total (ls ++ [l]))) as Hsum'.
  { unfold total. rewrite fold_left_app. cbn [fold_left]. fold (total ls). rewrite Hsum.
    unfold wrap. by rewrite Zplus_mod_idemp_l. }
  rewrite Hc', Hmax', Hmin', Hsum', Hrc.
  assert (length (ls ++ [l]) = S (length ls)) as Hl by (rewrite length_app; simpl; lia).
  destruct (Z.ltb_spec (Z.of_nat (Nat.min (length ls) 1024)) (Z.of_nat 1024)) as [Hlt'|Hge].
  - assert (length ls < 1024)%nat as Hl' by lia.
    eexists. split; [reflexivity|]. rewrite Nat.min_l in * by lia. specialize (Hall ltac:(lia)).
    assert (take (S (length ls)) (<[length ls:=l]> (reservoir h)) = ls ++ [l]) as Htake
      by (rewrite take_insert_end by lia; by rewrite Hall).
    split; cbn [sample_count max_ns min_ns sum_ns reservoir reservoir_count]; rewrite ?Hl;
      unfold kReservoirSize; rewrite ?Nat2Z.id; try done.
    + by rewrite length_insert.
    + rewrite Nat.min_l, wrap_small by lia. lia.
    + rewrite Nat.min_l, Htake by lia. by apply list.Forall_forall.
  - assert (1024 ≤ length ls)%nat as Hge' by lia.
    rewrite Nat.min_r in * by lia. unfold replace_slot.
    destruct (Z.eqb_spec (Z.of_nat (length (ls ++ [l]))) 0); [lia|]. cbn [res_bind].
    eexists. split; [reflexivity|]. rewrite take_ge in Hin by lia.
    split; cbn [sample_count max_ns min_ns sum_ns reservoir reservoir_count]; rewrite ?Hl;
      unfold kReservoirSize; try done; try lia.
    + by rewrite store_slot_length.
    + rewrite Nat.min_r by lia. rewrite take_ge by (rewrite store_slot_length; lia).
      apply store_slot_Forall; [|apply elem_of_app; right; left].
      eapply list.Forall_impl; [exact Hin|]. intros x Hx. apply elem_of_app. by left.
Qed.

Lemma record_all_holds ls ls' h :
  holds ls' h → Z.of_nat (length (ls' ++ ls)) < 2 ^ 64 →
  ∃ h', record_all ls h = Val h' ∧ holds (ls' ++ ls) h'.
Proof.
  revert ls' h; induction ls as [|l ls IH]; intros ls' h Hh Hlt; simpl.
  - rewrite app_nil_r in *. by exists h.
  - rewrite length_app in Hlt. simpl in Hlt.
    destruct (record_holds ls' h l Hh ltac:(lia)) as (h1 & -> & H1). simpl.
    replace (ls' ++ l :: ls) with ((ls' ++ [l]) ++ ls) by by rewrite <-app_assoc.
    apply IH; [done|]. rewrite !length_app. simpl. lia.
Qed.

Lemma maximum_ge ls x : x ∈ ls → x ≤ maximum ls.
Proof.
  unfold maximum. generalize 0. induction ls as [|l ls IH]; intros a Hx; [by apply not_elem_of_nil in Hx|].
  simpl. apply elem_of_cons in Hx as [->|Hx]; [|by apply IH].
  clear IH. assert (∀ ls0 a, a ≤ fold_left Z.max ls0 a) as H.
  { induction ls0 as [|y ls0 IH]; intros b; simpl; [lia|]. specialize (IH (Z.max b y)). lia. }
  specialize (H ls (Z.max a l)). lia.
Qed.

Lemma minimum_le ls x : x ∈ ls → minimum ls ≤ x.
Proof.
  unfold minimum. generalize UINT64_MAX. induction ls as [|l ls IH]; intros a Hx; [by apply not_elem_of_nil in Hx|].
  simpl. apply elem_of_cons in Hx as [->|Hx]; [|by apply IH].
  clear IH. assert (∀ ls0 a, fold_left Z.min ls0 a ≤ a) as H.
  { induction ls0 as [|y ls0 IH]; intros b; simpl; [lia|]. specialize (IH (Z.min b y)). lia. }
  specialize (H ls (Z.min a l)). lia.
Qed.

(** ** Percentiles *)

(** The quantiles of the program, in thousandths. *)
Definition quantiles_of_program : list (Z * Z) := [(q50, 500); (q95, 950); (q99, 990); (q999, 999)].

(** A double [mq * 2^-53] a little off [k / 1000], whose products with integers of
    ten bits are rounded to at least the integers they stand for. *)
Record quantile (q k mq : Z) : Prop := Quantile {
  quantile_value : f_value f64 q = (mq, -53);
  quantile_finite : 0 ≤ q < infinity f64;
  quantile_rank : 0 < k < 1000;
  quantile_near : k * 2 ^ 53 - 1000 ≤ 1000 * mq ≤ k * 2 ^ 53 + 1000;
  quantile_whole : forallb (λ m, (u64_to_f64 (k * m / 1000) <=? (nearest f64 (mq * m) (2 ^ 53)).1))
    (filter (λ m, k * m mod 1000 = 0) (Z.of_nat <$> seq 1 1023)) = true }.

Lemma product_rank q k mq m :
  quantile q k mq → 0 ≤ m ≤ 1023 → f64_to_u64 (f64_mul q (u64_to_f64 m)) = Val (k * m / 1000).
Proof.
  intros [Hv Hfin Hk Hnear Hwhole] Hm.
  pose proof (Z.div_mod (k * m) 1000 ltac:(lia)) as Hdm.
  pose proof (Z.mod_pos_bound (k * m) 1000 ltac:(lia)) as Hmod.
  set (r := k * m / 1000) in *. assert (0 ≤ r ≤ 1023) as Hr by nia.
  destruct (decide (m = 0)) as [->|Hm0].
  { destruct (finite_checks q Hfin) as (H1 & H2 & _). unfold f64_mul. rewrite H1, H2, Hv.
    replace r with 0 by lia. change (u64_to_f64 0) with 0.
    change (f_is_nan f64 0) with false. change (is_inf 0) with false. cbn [orb].
    change (f_value f64 0) with (0, -1074). cbv beta iota. rewrite Z.mul_0_r.
    destruct (units_value f64 q Hfin) as (Hs & _). unfold signed. by rewrite Hs. }
  rewrite (f64_mul_u64 q mq (-53)) by (done || lia). change (- -53) with 53.
  set (x := (nearest f64 (mq * m) (2 ^ 53)).1).
  assert (u64_to_f64 r ≤ x) as Hlow.
  { destruct (decide (k * m mod 1000 = 0)) as [E|E].
    - apply forallb_Forall in Hwhole. rewrite list.Forall_forall in Hwhole.
      apply Z.leb_le, (Hwhole m), list_elem_of_filter. split; [done|].
      apply list_elem_of_fmap. exists (Z.to_nat m). rewrite elem_of_seq. lia.
    - apply nearest_mono; [apply _|nia..]. }
  assert (x ≤ (nearest f64 ((r + 1) * 2 ^ 10 - 1) (2 ^ 10)).1) as Hhigh.
  { apply nearest_mono; [apply _|nia..]. }
  destruct (nearest_dyadic ((r + 1) * 2 ^ 10 - 1) 10 ltac:(lia) ltac:(lia)) as [Hrange Hu].
  assert (0 ≤ u64_to_f64 r) as Hr0 by (apply nearest_nonneg; [apply _|lia..]).
  assert (r * 2 ^ 1074 ≤ units f64 x) as Hux.
  { etransitivity; [|apply units_mono; [apply _|split; [exact Hr0|exact Hlow]]].
    destruct (decide (r = 0)) as [->|]; [done|].
    destruct (nearest_dyadic r 0 ltac:(lia) ltac:(lia)) as [_ E].
    change (2 ^ 0) with 1 in E. unfold u64_to_f64. lia. }
  assert (units f64 x ≤ units f64 (nearest f64 ((r + 1) * 2 ^ 10 - 1) (2 ^ 10)).1) as Hxu
    by (apply units_mono; [apply _|lia]).
  assert (units f64 x / 2 ^ 1074 = r) as Ex.
  { symmetry. apply (Z.div_unique_pos _ _ _ (units f64 x - 2 ^ 1074 * r)); lia. }
  rewrite f64_to_u64_units; rewrite ?Ex; [done|lia|lia].
Qed.

Lemma program_quantile q k : (q, k) ∈ quantiles_of_program → ∃ mq, quantile q k mq.
Proof.
  unfold quantiles_of_program. intros Hq.
  repeat (apply elem_of_cons in Hq as [[= -> ->]|Hq];
    [eexists; split; [vm_compute; reflexivity|done|done|done|vm_compute; reflexivity]|]).
  by apply not_elem_of_nil in Hq.
Qed.

(** The ranks are exact, whatever the rounding of the product. *)
Lemma ranks_exact q k count :
  (q, k) ∈ quantiles_of_program → 1 ≤ count ≤ 1024 →
  percentile_index q count = Val (k * (count - 1) / 1000).
Proof.
  intros Hq Hc. destruct (program_quantile q k Hq) as [mq H]. unfold percentile_index.
  rewrite (product_rank q k mq) by (done || lia). cbn [res_bind]. f_equal.
  pose proof (quantile_rank _ _ _ H).
  assert (k * (count - 1) / 1000 < count) by (apply Z.div_lt_upper_bound; nia).
  by destruct (Z.leb_spec count (k * (count - 1) / 1000)); [lia|].
Qed.

Lemma sorted_lookup (l : list Z) i j x y :
  StronglySorted Z.le l → l !! i = Some x → l !! j = Some y → (i ≤ j)%nat → x ≤ y.
Proof.
  intros Hs. revert i j; induction Hs as [|z l _ IH Hall]; intros i j Hi Hj Hij; [done|].
  destruct i as [|i], j as [|j]; simpl in *; [simplify_eq; lia| |lia|].
  - simplify_eq. rewrite list.Forall_forall in Hall. by eapply Hall, list_elem_of_lookup_2.
  - eapply IH; [done..|lia].
Qed.

(** A percentile of [n] samples in the reservoir is the one of its rank. *)
Lemma get_percentile_rank q k h n :
  (q, k) ∈ quantiles_of_program → reservoir_count h = Z.of_nat n →
  (0 < n ≤ kReservoirSize)%nat → length (reservoir h) = kReservoirSize →
  ∃ v, get_percentile q h = Val v ∧
       merge_sort Z.le (take n (reservoir h)) !! Z.to_nat (k * (Z.of_nat n - 1) / 1000) = Some v.
Proof.
  intros Hq Hrc Hn Hlen. unfold kReservoirSize in *. unfold get_percentile. rewrite Hrc.
  destruct (Z.eqb_spec (Z.of_nat n) 0); [lia|]. unfold kReservoirSize.
  destruct (Z.ltb_spec (Z.of_nat 1024) (Z.of_nat n)); [lia|]. cbv zeta.
  rewrite (ranks_exact q k) by (done || lia). cbn [res_bind]. rewrite Nat2Z.id.
  set (i := Z.to_nat _).
  assert (is_Some (merge_sort Z.le (take n (reservoir h)) !! i)) as [v ->]; [|by exists v].
  apply lookup_lt_is_Some. rewrite merge_sort_Permutation, length_take. unfold i.
  assert (0 ≤ k ≤ 999) as Hk.
  { unfold quantiles_of_program in Hq.
    repeat (apply elem_of_cons in Hq as [[= -> ->]|Hq]; [lia|]). by apply not_elem_of_nil in Hq. }
  assert (k * (Z.of_nat n - 1) / 1000 < Z.of_nat n) by (apply Z.div_lt_upper_bound; nia).
  assert (0 ≤ k * (Z.of_nat n - 1) / 1000) by (apply Z.div_pos; nia). lia.
Qed.

(** C33. Recording without interference: however many samples a histogram is given, it
    has their number, maximum, minimum and sum (modulo 2^64), and p50, p95, p99
    and p999 are defined, are samples, and lie in this order between minimum and
    maximum.  Up to 1024 samples they are exact: the samples of rank
    [q * (n - 1)], rounded down, in ascending order. *)
Theorem percentiles_of_samples ls :
  ls ≠ [] → Z.of_nat (length ls) < 2 ^ 64 →
  ∃ h a b c d, record_all ls new = Val h ∧
    sample_count h = Z.of_nat (length ls) ∧ max_ns h = maximum ls ∧ min_ns h = minimum ls ∧
    sum_ns h = wrap 64 (total ls) ∧
    p50 h = Val a ∧ p95 h = Val b ∧ p99 h = Val c ∧ p999 h = Val d ∧
    minimum ls ≤ a ∧ a ≤ b ∧ b ≤ c ∧ c ≤ d ∧ d ≤ maximum ls ∧ Forall (λ x, x ∈ ls) [a; b; c; d] ∧
    ((length ls ≤ kReservoirSize)%nat →
     let rank k := Z.to_nat (k * (Z.of_nat (length ls) - 1) / 1000) in
     Forall (λ vk : Z * Z, merge_sort Z.le ls !! rank vk.2 = Some vk.1)
       [(a, 500); (b, 950); (c, 990); (d, 999)]).
Proof.
  intros Hne Hlt. destruct (record_all_holds ls [] new holds_new Hlt) as (h & Hr & Hh).
  destruct Hh as [Hc Hmax Hmin Hsum Hlen Hrc Hin Hall]. simpl app in *.
  set (n := Nat.min (length ls) kReservoirSize) in *.
  assert (0 < n ≤ kReservoirSize)%nat as Hn.
  { unfold n, kReservoirSize. destruct ls; [done|]. simpl length. lia. }
  assert (∀ q k, (q, k) ∈ quantiles_of_program → ∃ v, get_percentile q h = Val v ∧
    merge_sort Z.le (take n (reservoir h)) !! Z.to_nat (k * (Z.of_nat n - 1) / 1000) = Some v) as Hp.
  { intros q k Hq. by apply get_percentile_rank. }
  destruct (Hp q50 500 ltac:(left)) as (a & Ha & Sa).
  destruct (Hp q95 950 ltac:(right; left)) as (b & Hb & Sb).
  destruct (Hp q99 990 ltac:(do 2 right; left)) as (c & Hc' & Sc).
  destruct (Hp q999 999 ltac:(do 3 right; left)) as (d & Hd & Sd).
  pose proof (StronglySorted_merge_sort Z.le (take n (reservoir h))) as Hs.
  assert (∀ i x, merge_sort Z.le (take n (reservoir h)) !! i = Some x → x ∈ ls) as Hsample.
  { intros i x Hx%list_elem_of_lookup_2. rewrite merge_sort_Permutation in Hx.
    rewrite list.Forall_forall in Hin. by apply Hin. }
  assert (∀ k k' : Z, 0 ≤ k ≤ k' → (Z.to_nat (k * (Z.of_nat n - 1) / 1000) ≤
    Z.to_nat (k' * (Z.of_nat n - 1) / 1000))%nat) as Hmono.
  { intros k k' ?. apply Z2Nat.inj_le; [apply Z.div_pos; nia..|]. apply Z.div_le_mono; nia. }
  exists h, a, b, c, d. split_and!; try done.
  - apply minimum_le. by eapply Hsample.
  - eapply sorted_lookup; [exact Hs|exact Sa|exact Sb|by apply Hmono].
  - eapply sorted_lookup; [exact Hs|exact Sb|exact Sc|by apply Hmono].
  - eapply sorted_lookup; [exact Hs|exact Sc|exact Sd|by apply Hmono].
  - apply maximum_ge. by eapply Hsample.
  - repeat constructor; by eapply Hsample.
  - intros Hle. specialize (Hall Hle).
    assert (n = length ls) as En by (unfold n; lia). rewrite En, Hall in *.
    cbv zeta. by repeat constructor.
Qed.

Lemma percentiles_of_samples_witness :
  ∃ h a b c d, record_all [30; 10; 20] new = Val h ∧
    p50 h = Val a ∧ p95 h = Val b ∧ p99 h = Val c ∧ p999 h = Val d ∧ a ≤ d ∧ d ≤ maximum [30; 10; 20].
Proof.
  destruct (percentiles_of_samples [30; 10; 20]) as (h & a & b & c & d & Hr & _ & _ & _ & _ & Ha & Hb
    & Hc & Hd & _ & H1 & H2 & H3 & H4 & _).
  - discriminate.
  - reflexivity.
  - exists h, a, b, c, d. split_and!; try assumption.
    etransitivity; [exact H1|]. etransitivity; [exact H2|exact H3].
Defined.

(** ** Rates *)

Lemma rate_bounds a b :
  0 ≤ a → 0 ≤ b → a + b < 2 ^ 64 → 0 ≤ rate a b ≤ f64_hundred.
Proof.
  intros Ha Hb Hab. unfold rate. rewrite wrap_small by lia.
  destruct (Z.eqb_spec (a + b) 0); [by split|]. apply percentage_bounds; lia.
Qed.

(** The counters a rate is computed from do not overflow together. *)
Definition counters_fit (m : detailed_metrics.t) : bool :=
  let s := detailed_metrics.simd m in let c := detailed_metrics.cache m in
  let ok z := 0 <=? z in
  ok (simd_metrics.simd_operations s) && ok (simd_metrics.scalar_fallbacks s) &&
  ok (cache_metrics.key_index_hits c) && ok (cache_metrics.key_index_misses c) &&
  ok (cache_metrics.value_cache_hits c) && ok (cache_metrics.value_cache_misses c) &&
  (simd_metrics.simd_operations s + simd_metrics.scalar_fallbacks s <? 2 ^ 64) &&
  (cache_metrics.key_index_hits c + cache_metrics.key_index_misses c +
   cache_metrics.value_cache_hits c + cache_metrics.value_cache_misses c <? 2 ^ 64).

(** The rates are percentages: the SIMD utilization and the three hit rates are
    doubles from 0.0 to 100.0, roundings included, as long as the counters they
    add up fit 64 bits; a total that overflows gives more than 100. *)
Theorem rates_bounded m :
  counters_fit m = true →
  Forall (λ r, 0 ≤ r ≤ f64_hundred)
    [detailed_metrics.simd_utilization m; detailed_metrics.cache_hit_rate m;
     cache_metrics.key_index_hit_rate (detailed_metrics.cache m);
     cache_metrics.value_cache_hit_rate (detailed_metrics.cache m)] ∧
  f64_hundred < rate (2 ^ 64 - 1) 2.
Proof.
  unfold counters_fit. intros H. cbv zeta in H. split; [|done].
  rewrite !Forall_cons_iff. split; [apply rate_bounds; lia|]. split.
  { unfold detailed_metrics.cache_hit_rate. cbv zeta.
    rewrite !(wrap_small 64 (_ + _)) by lia. apply rate_bounds; lia. }
  split; [apply rate_bounds; lia|]. split; [apply rate_bounds; lia|done].
Qed.

Lemma rates_bounded_witness :
  0 ≤ detailed_metrics.simd_utilization detailed_metrics.new ≤ f64_hundred.
Proof.
  assert (Forall (λ r, 0 ≤ r ≤ f64_hundred)
    [detailed_metrics.simd_utilization detailed_metrics.new;
     detailed_metrics.cache_hit_rate detailed_metrics.new;
     cache_metrics.key_index_hit_rate (detailed_metrics.cache detailed_metrics.new);
     cache_metrics.value_cache_hit_rate (detailed_metrics.cache detailed_metrics.new)]) as H.
  { apply rates_bounded. vm_compute. reflexivity. }
  inversion H. assumption.
Defined.
