(* ===== verification/MetricsConcurrent.v ===== *)
(** * Concurrent recording into a latency_histogram

    [latency_histogram::record] is a sequence of atomic operations: add to the
    number of samples, raise the maximum and lower the minimum by
    compare-and-swap loops, add to the sum, then load [reservoir_count] and
    either store the sample into that slot and add to the count, or replace a
    slot.  [step] interleaves these operations of any number of threads; a
    compare-and-swap may fail spuriously.

    When no call is in progress the four statistics are exact whatever the
    interleaving ([statistics_exact]).  The reservoir is not: load and add are
    two operations, so that threads can fill one slot together and count it
    twice ([reservoir_races]). *)

From S2P Require Import Prelude Float Numbers Metrics MetricsFacts.
Import latency_histogram.

(** ** The atomic operations of a call *)

Inductive record_call : Type :=
| Idle
| LoadMax (l count : Z)
| CasMax (l count current_max : Z)
| LoadMin (l count : Z)
| CasMin (l count current_min : Z)
| AddSum (l count : Z)
| LoadCount (l count : Z)
| StoreSlot (l : Z) (idx : nat)
| AddCount
| Replace (l : Z) (slot : option nat).

Definition with_count (n : Z) (h : t) : t :=
  Histogram n (max_ns h) (min_ns h) (sum_ns h) (reservoir h) (reservoir_count h).
Definition with_max (n : Z) (h : t) : t :=
  Histogram (sample_count h) n (min_ns h) (sum_ns h) (reservoir h) (reservoir_count h).
Definition with_min (n : Z) (h : t) : t :=
  Histogram (sample_count h) (max_ns h) n (sum_ns h) (reservoir h) (reservoir_count h).
Definition with_sum (n : Z) (h : t) : t :=
  Histogram (sample_count h) (max_ns h) (min_ns h) n (reservoir h) (reservoir_count h).
Definition with_reservoir (slots : list Z) (h : t) : t :=
  Histogram (sample_count h) (max_ns h) (min_ns h) (sum_ns h) slots (reservoir_count h).
Definition with_filled (n : Z) (h : t) : t :=
  Histogram (sample_count h) (max_ns h) (min_ns h) (sum_ns h) (reservoir h) n.

(** One operation; [spurious] is a failure of [compare_exchange_weak] without
    cause.  [None]: no call, or the division by a counter that is zero again. *)
Definition operation (spurious : bool) (c : record_call) (h : t) : option (record_call * t) :=
  match c with
  | Idle => None
  | LoadMax l n => Some (CasMax l n (max_ns h), h)
  | CasMax l n cur =>
      if cur <? l then
        if negb spurious && (max_ns h =? cur) then Some (LoadMin l n, with_max l h)
        else Some (CasMax l n (max_ns h), h)
      else Some (LoadMin l n, h)
  | LoadMin l n => Some (CasMin l n (min_ns h), h)
  | CasMin l n cur =>
      if l <? cur then
        if negb spurious && (min_ns h =? cur) then Some (AddSum l n, with_min l h)
        else Some (CasMin l n (min_ns h), h)
      else Some (AddSum l n, h)
  | AddSum l n => Some (LoadCount l n, with_sum (fetch_add l (sum_ns h)) h)
  | LoadCount l n =>
      let idx := reservoir_count h in
      if idx <? Z.of_nat kReservoirSize then Some (StoreSlot l (Z.to_nat idx), h)
      else match replace_slot n with Val slot => Some (Replace l slot, h) | _ => None end
  | StoreSlot l idx => Some (AddCount, with_reservoir (<[idx := l]> (reservoir h)) h)
  | AddCount => Some (Idle, with_filled (fetch_add 1 (reservoir_count h)) h)
  | Replace l slot => Some (Idle, with_reservoir (store_slot slot l (reservoir h)) h)
  end.

(** [started]: the latencies given to [record] so far. *)
Record system : Type := System { histogram : t; calls : list record_call; started : list Z }.

Definition start (threads : nat) : system := System new (replicate threads Idle) [].

Inductive step (i : nat) : system → system → Prop :=
| step_start h cs ls l :
    cs !! i = Some Idle → 0 ≤ l < 2 ^ 64 →
    step i (System h cs ls)
      (System (with_count (fetch_add 1 (sample_count h)) h)
         (<[i := LoadMax l (fetch_add 1 (sample_count h))]> cs) (ls ++ [l]))
| step_operation spurious h cs ls c c' h' :
    cs !! i = Some c → operation spurious c h = Some (c', h') →
    step i (System h cs ls) (System h' (<[i := c']> cs) ls).

Definition any_step (s s' : system) : Prop := ∃ i, step i s s'.
Definition reachable (threads : nat) : system → Prop := rtc any_step (start threads).

(** ** What calls still have to do *)

Definition max_todo (c : record_call) : Z := match c with LoadMax l _ | CasMax l _ _ => l | _ => 0 end.
Definition min_todo (c : record_call) : Z :=
  match c with
  | LoadMax l _ | CasMax l _ _ | LoadMin l _ | CasMin l _ _ => l
  | _ => UINT64_MAX
  end.
Definition sum_todo (c : record_call) : Z :=
  match c with
  | LoadMax l _ | CasMax l _ _ | LoadMin l _ | CasMin l _ _ | AddSum l _ => l
  | _ => 0
  end.
Definition filling (c : record_call) : Z := match c with StoreSlot _ _ | AddCount => 1 | _ => 0 end.

Definition gather (op : Z → Z → Z) (e : Z) (f : record_call → Z) (cs : list record_call) : Z :=
  foldr op e (f <$> cs).

Section Gather.
Context (op : Z → Z → Z) (e : Z) (f : record_call → Z).
Context (Hcomm : ∀ a b c, op a (op b c) = op b (op a c)).

Lemma gather_at cs i c :
  cs !! i = Some c → gather op e f cs = op (f c) (gather op e f (delete i cs)).
Proof.
  revert i; induction cs as [|c1 cs IH]; intros [|i] Hi; try done.
  - by injection Hi as ->.
  - change (op (f c1) (gather op e f cs) = op (f c) (op (f c1) (gather op e f (delete i cs)))).
    rewrite (IH i Hi). apply Hcomm.
Qed.

Lemma gather_insert cs i c c' :
  cs !! i = Some c →
  gather op e f (<[i := c']> cs) = op (f c') (gather op e f (delete i cs)).
Proof.
  revert i; induction cs as [|c1 cs IH]; intros [|i] Hi; try done.
  change (op (f c1) (gather op e f (<[i := c']> cs))
    = op (f c') (op (f c1) (gather op e f (delete i cs)))).
  rewrite (IH i Hi). apply Hcomm.
Qed.
End Gather.

Lemma gather_filling cs : 0 ≤ gather Z.add 0 filling cs ≤ Z.of_nat (length cs).
Proof.
  induction cs as [|c cs IH]; [done|].
  change (gather Z.add 0 filling (c :: cs)) with (filling c + gather Z.add 0 filling cs).
  assert (0 ≤ filling c ≤ 1) by by destruct c. cbn [length]. lia.
Qed.

#[local] Arguments kReservoirSize : simpl never.

(** ** The invariant *)

Definition call_ok (h : t) (c : record_call) : Prop :=
  match c with
  | CasMax l _ cur => 0 ≤ l < 2 ^ 64 ∧ cur ≤ max_ns h
  | CasMin l _ cur => 0 ≤ l < 2 ^ 64 ∧ min_ns h ≤ cur
  | LoadMax l _ | LoadMin l _ => 0 ≤ l < 2 ^ 64
  | StoreSlot _ idx => (idx < kReservoirSize)%nat
  | _ => True
  end.

Record consistent (s : system) : Prop := Consistent {
  cons_calls : Forall (call_ok (histogram s)) (calls s);
  cons_count : sample_count (histogram s) = wrap 64 (Z.of_nat (length (started s)));
  cons_max0 : 0 ≤ max_ns (histogram s);
  cons_max : maximum (started s)
             = Z.max (max_ns (histogram s)) (gather Z.max 0 max_todo (calls s));
  cons_min0 : min_ns (histogram s) ≤ UINT64_MAX;
  cons_min : minimum (started s)
             = Z.min (min_ns (histogram s)) (gather Z.min UINT64_MAX min_todo (calls s));
  cons_sum : wrap 64 (sum_ns (histogram s) + gather Z.add 0 sum_todo (calls s))
             = wrap 64 (total (started s));
  cons_sum0 : 0 ≤ sum_ns (histogram s) < 2 ^ 64;
  cons_slots : length (reservoir (histogram s)) = kReservoirSize;
  cons_filled0 : 0 ≤ reservoir_count (histogram s);
  cons_filled : reservoir_count (histogram s) + gather Z.add 0 filling (calls s)
                ≤ 1023 + Z.of_nat (length (calls s)) }.

Lemma gather_replicate op e f n : op e e = e → f Idle = e → gather op e f (replicate n Idle) = e.
Proof.
  intros He Hf. induction n as [|n IH]; [done|].
  change (op (f Idle) (gather op e f (replicate n Idle)) = e). by rewrite IH, Hf.
Qed.

Lemma consistent_start threads : consistent (start threads).
Proof.
  split; cbn [histogram calls started start]; try done.
  - by apply Forall_replicate.
  - by rewrite gather_replicate.
  - by rewrite gather_replicate.
  - by rewrite gather_replicate.
  - rewrite gather_replicate, length_replicate by done. cbn [reservoir_count new]. lia.
Qed.

Lemma calls_ok_mono h h' cs i c :
  max_ns h ≤ max_ns h' → min_ns h' ≤ min_ns h →
  Forall (call_ok h) cs → call_ok h' c → Forall (call_ok h') (<[i := c]> cs).
Proof.
  intros ?? Hcs Hc. apply Forall_insert; [|done].
  eapply list.Forall_impl; [exact Hcs|]. intros [] Hok; simpl in *; intuition lia.
Qed.

Lemma max_comm3 a b c : Z.max a (Z.max b c) = Z.max b (Z.max a c). Proof. lia. Qed.
Lemma min_comm3 a b c : Z.min a (Z.min b c) = Z.min b (Z.min a c). Proof. lia. Qed.
Lemma add_comm3 a b c : a + (b + c) = b + (a + c). Proof. lia. Qed.

(** Split what the call at [i] has to do from what the others have. *)
Ltac split_call Hi :=
  rewrite ?(gather_insert Z.max 0 max_todo max_comm3 _ _ _ _ Hi),
    ?(gather_insert Z.min UINT64_MAX min_todo min_comm3 _ _ _ _ Hi),
    ?(gather_insert Z.add 0 sum_todo add_comm3 _ _ _ _ Hi),
    ?(gather_insert Z.add 0 filling add_comm3 _ _ _ _ Hi) in *;
  rewrite ?(gather_at Z.max 0 max_todo max_comm3 _ _ _ Hi),
    ?(gather_at Z.min UINT64_MAX min_todo min_comm3 _ _ _ Hi),
    ?(gather_at Z.add 0 sum_todo add_comm3 _ _ _ Hi),
    ?(gather_at Z.add 0 filling add_comm3 _ _ _ Hi) in *.

Lemma consistent_operation spurious h cs ls i c c' h' :
  Z.of_nat (length cs) < 2 ^ 32 →
  consistent (System h cs ls) → cs !! i = Some c → operation spurious c h = Some (c', h') →
  consistent (System h' (<[i := c']> cs) ls).
Proof.
  intros HT [Hcs Hc Hm0 Hm Hn0 Hn Hs Hs0 Hl Hf0 Hf] Hi Hop. cbn [histogram calls started] in *.
  assert (call_ok h c) as Hok by (rewrite list.Forall_forall in Hcs; by eapply Hcs, list_elem_of_lookup_2).
  pose proof (gather_filling (delete i cs)) as Hfd.
  rewrite length_delete in Hfd by done.
  pose proof (lookup_lt_Some _ _ _ Hi) as Hilt.
  split_call Hi.
  assert (∀ h' c', max_ns h ≤ max_ns h' → min_ns h' ≤ min_ns h → call_ok h' c' →
    Forall (call_ok h') (<[i := c']> cs)) as Hcalls.
  { intros. by eapply calls_ok_mono. }
  assert (Z.of_nat kReservoirSize = 1024) as HK by done.
  destruct c as [|l n|l n cur|l n|l n cur|l n|l n|l idx| |l slot]; simpl in Hop; [done|..].
  all: repeat match type of Hop with context [if ?b then _ else _] =>
    let E := fresh "E" in destruct b eqn:E end.
  all: try match type of Hop with context [replace_slot ?k] =>
    destruct (replace_slot k) as [slot| |]; [|done..] end.
  all: injection Hop as <- <-.
  all: split; cbn [histogram calls started]; rewrite ?length_insert; split_call Hi; try done;
    try (apply Hcalls); simpl in *; try done; try lia.
  - rewrite <-Hs. unfold fetch_add, wrap. rewrite Zplus_mod_idemp_l. f_equal. lia.
  - by apply wrap_range.
  - by rewrite length_insert.
  - unfold fetch_add. rewrite wrap_small by lia. lia.
  - unfold fetch_add. rewrite wrap_small by lia. lia.
  - by rewrite store_slot_length.
Qed.

Lemma consistent_step i s s' :
  Z.of_nat (length (calls s)) < 2 ^ 32 → consistent s → step i s s' →
  consistent s' ∧ length (calls s') = length (calls s).
Proof.
  intros HT Hs Hstep. destruct Hstep as [h cs ls l Hi Hl|spurious h cs ls c c' h' Hi Hop].
  2:{ split; [by eapply consistent_operation|apply length_insert]. }
  split; [|apply length_insert].
  destruct Hs as [Hcs Hc Hm0 Hm Hn0 Hn Hsum Hs0 Hsl Hf0 Hf]. cbn [histogram calls started] in *.
  split_call Hi.
  split; cbn [histogram calls started]; rewrite ?length_insert; split_call Hi; try done.
  - by apply (calls_ok_mono h).
  - simpl. unfold fetch_add. rewrite Hc, length_app. unfold wrap.
    rewrite Zplus_mod_idemp_l. f_equal. cbn [length]. lia.
  - unfold maximum. rewrite fold_left_app. cbn [fold_left]. fold (maximum ls).
    simpl in *. lia.
  - unfold minimum. rewrite fold_left_app. cbn [fold_left]. fold (minimum ls).
    simpl in *. unfold UINT64_MAX in *. lia.
  - unfold total. rewrite fold_left_app. cbn [fold_left]. fold (total ls).
    simpl in *. unfold wrap in *.
    rewrite <-(Zplus_mod_idemp_l (total ls)), <-Hsum, Zplus_mod_idemp_l. f_equal. lia.
Qed.

Lemma consistent_reachable threads s :
  Z.of_nat threads < 2 ^ 32 → reachable threads s →
  consistent s ∧ length (calls s) = threads.
Proof.
  intros HT Hr. unfold reachable in Hr. revert Hr.
  apply (rtc_ind_r (λ s, consistent s ∧ length (calls s) = threads)).
  - split; [apply consistent_start|apply length_replicate].
  - intros s1 s2 _ [i Hstep] [Hc Hl]. rewrite <-Hl in HT |- *.
    by apply (consistent_step i s1 s2).
Qed.

Lemma gather_idle op e f cs :
  op e e = e → f Idle = e → Forall (λ c, c = Idle) cs → gather op e f cs = e.
Proof.
  intros He Hf Hcs. assert (cs = replicate (length cs) Idle) as ->; [|by apply gather_replicate].
  induction Hcs as [|c cs -> _ IH]; [done|]. simpl. by f_equal.
Qed.

(** C32. Recording is exact under concurrency: in every interleaving of any number of
    threads, spurious failures of compare-and-swap included, the histogram has
    the number, maximum, minimum and sum (modulo 2^64) of all recorded latencies
    as soon as no call is in progress, as if they had been recorded one after
    the other. *)
Theorem statistics_exact threads s :
  Z.of_nat threads < 2 ^ 32 → reachable threads s → Forall (λ c, c = Idle) (calls s) →
  let h := histogram s in let ls := started s in
  sample_count h = wrap 64 (Z.of_nat (length ls)) ∧ max_ns h = maximum ls ∧
  min_ns h = minimum ls ∧ sum_ns h = wrap 64 (total ls).
Proof.
  intros HT Hr Hidle. destruct (consistent_reachable _ _ HT Hr) as [[_ Hc Hm0 Hm Hn0 Hn Hs Hs0 _ _ _] _].
  cbv zeta. rewrite gather_idle in Hm, Hn, Hs by done. split_and!; [done|lia|lia|].
  rewrite Z.add_0_r, wrap_small in Hs by done. done.
Qed.

(** ** The reservoir *)

Lemma filled_bound threads s :
  Z.of_nat threads < 2 ^ 32 → reachable threads s →
  0 ≤ reservoir_count (histogram s) ≤ 1023 + Z.of_nat threads ∧
  length (reservoir (histogram s)) = kReservoirSize.
Proof.
  intros HT Hr. destruct (consistent_reachable _ _ HT Hr) as [[_ _ _ _ _ _ _ _ Hl Hf0 Hf] Hlen].
  rewrite Hlen in Hf. pose proof (gather_filling (calls s)). split; [lia|done].
Qed.

(** A thread performs a list of operations of its call. *)
Fixpoint perform (k : nat) (c : record_call) (h : t) : option (record_call * t) :=
  match k with
  | O => Some (c, h)
  | S k => '(c, h) ← operation false c h; perform k c h
  end.

Lemma perform_steps k c c' h h' cs ls i :
  cs !! i = Some c → perform k c h = Some (c', h') →
  rtc any_step (System h cs ls) (System h' (<[i := c']> cs) ls).
Proof.
  revert c h cs; induction k as [|k IH]; intros c h cs Hi; simpl.
  - intros [= -> ->]. by rewrite list_insert_id.
  - destruct (operation false c h) as [[c1 h1]|] eqn:E; [|done]. simpl. intros Hp.
    eapply rtc_l; [exists i; by eapply step_operation|].
    rewrite <-(list_insert_insert_eq cs i c' c1).
    apply (IH c1 h1); [|done]. apply list_lookup_insert_eq, (lookup_lt_Some _ _ _ Hi).
Qed.

(** From the start of a call to the slot it will fill. *)
Definition begun (l : Z) (h : t) : t :=
  let h := with_count (fetch_add 1 (sample_count h)) h in
  let h := if max_ns h <? l then with_max l h else h in
  let h := if l <? min_ns h then with_min l h else h in
  with_sum (fetch_add l (sum_ns h)) h.

Lemma begin_steps l h cs ls i :
  cs !! i = Some Idle → 0 ≤ l < 2 ^ 64 → reservoir_count h < 1024 →
  rtc any_step (System h cs ls)
    (System (begun l h) (<[i := StoreSlot l (Z.to_nat (reservoir_count h))]> cs) (ls ++ [l])).
Proof.
  intros Hi Hl Hrc. pose proof (lookup_lt_Some _ _ _ Hi) as Hlt.
  eapply rtc_l; [exists i; by eapply step_start|].
  set (n := fetch_add 1 (sample_count h)).
  set (idx := Z.to_nat (reservoir_count h)).
  rewrite <-(list_insert_insert_eq cs i (StoreSlot l idx) (LoadMax l n)).
  apply (perform_steps 6 (LoadMax l n)); [by apply list_lookup_insert_eq|].
  unfold begun. fold n. cbv zeta.
  assert (reservoir_count h <? Z.of_nat kReservoirSize = true) as Hf
    by (apply Z.ltb_lt; change (Z.of_nat kReservoirSize) with 1024; done).
  destruct h as [c0 mx mn sm rs rc]. cbn [reservoir_count] in *.
  cbn [perform operation mbind option_bind with_count max_ns min_ns].
  unfold with_count, with_max, with_min, with_sum. cbn [max_ns min_ns].
  destruct (mx <? l); cbn [mbind option_bind operation negb andb perform max_ns min_ns];
    rewrite ?Z.eqb_refl; cbn [mbind option_bind operation negb andb perform max_ns min_ns];
    destruct (l <? mn); cbn [mbind option_bind operation negb andb perform max_ns min_ns];
    rewrite ?Z.eqb_refl; cbn [mbind option_bind operation negb andb perform max_ns min_ns
      sum_ns reservoir_count sample_count reservoir with_sum with_min with_max];
    by rewrite Hf.
Qed.

Lemma end_steps l idx h cs ls i :
  cs !! i = Some (StoreSlot l idx) →
  rtc any_step (System h cs ls)
    (System (with_filled (fetch_add 1 (reservoir_count h))
       (with_reservoir (<[idx := l]> (reservoir h)) h)) (<[i := Idle]> cs) ls).
Proof. intros Hi. by apply (perform_steps 2 (StoreSlot l idx)). Qed.

Lemma begun_reservoir l h :
  reservoir_count (begun l h) = reservoir_count h ∧ reservoir (begun l h) = reservoir h.
Proof. unfold begun. cbv zeta. by repeat case_match. Qed.

(** A record without interference adds one to the count. *)
Lemma alone l h ls :
  0 ≤ l < 2 ^ 64 → 0 ≤ reservoir_count h < 1024 →
  ∃ h', rtc any_step (System h [Idle; Idle] ls) (System h' [Idle; Idle] (ls ++ [l])) ∧
    reservoir_count h' = reservoir_count h + 1.
Proof.
  intros Hl Hrc. destruct (begun_reservoir l h) as [Ec _].
  set (idx := Z.to_nat (reservoir_count h)).
  eexists. split.
  - etransitivity; [by apply (begin_steps l h [Idle; Idle] ls 0); [|lia..]|].
    exact (end_steps l idx (begun l h) [StoreSlot l idx; Idle] (ls ++ [l]) 0 eq_refl).
  - cbn [reservoir_count with_filled]. rewrite Ec. apply wrap_small. lia.
Qed.

Lemma alone_many n h ls :
  reservoir_count h = 0 → (n ≤ 1024)%nat →
  ∃ h' ls', rtc any_step (System h [Idle; Idle] ls) (System h' [Idle; Idle] ls') ∧
    reservoir_count h' = Z.of_nat n.
Proof.
  intros H0. induction n as [|n IH]; intros Hn; [by exists h, ls|].
  destruct (IH ltac:(lia)) as (h1 & ls1 & Hr & H1).
  destruct (alone 1 h1 ls1 ltac:(lia) ltac:(lia)) as (h2 & Hr2 & H2).
  exists h2, (ls1 ++ [1]). split; [by etransitivity|lia].
Qed.

(** Two threads load the same [reservoir_count]: one slot is filled, two are counted. *)
Lemma race l1 l2 h ls :
  0 ≤ l1 < 2 ^ 64 → 0 ≤ l2 < 2 ^ 64 → 0 ≤ reservoir_count h < 1024 →
  ∃ h', rtc any_step (System h [Idle; Idle] ls) (System h' [Idle; Idle] ((ls ++ [l1]) ++ [l2])) ∧
    reservoir_count h' = reservoir_count h + 2 ∧
    reservoir h' = <[Z.to_nat (reservoir_count h) := l2]>
      (<[Z.to_nat (reservoir_count h) := l1]> (reservoir h)).
Proof.
  intros H1 H2 Hrc. destruct (begun_reservoir l1 h) as [Ec1 Er1].
  destruct (begun_reservoir l2 (begun l1 h)) as [Ec2 Er2]. rewrite Ec1 in Ec2. rewrite Er1 in Er2.
  set (idx := Z.to_nat (reservoir_count h)).
  eexists. split; [|].
  - etransitivity; [by apply (begin_steps l1 h [Idle; Idle] ls 0); [|lia..]|].
    etransitivity; [by apply (begin_steps l2 (begun l1 h) _ _ 1); [|lia..]|].
    etransitivity; [exact (end_steps l1 idx _ [StoreSlot l1 idx; StoreSlot l2 _] _ 0 eq_refl)|].
    exact (end_steps l2 _ _ [Idle; StoreSlot l2 _] _ 1 eq_refl).
  - cbn [reservoir_count reservoir with_filled with_reservoir]. rewrite Ec1, Ec2, Er2.
    split; [|done]. unfold fetch_add. rewrite (wrap_small _ (reservoir_count h + 1)) by lia.
    rewrite wrap_small by lia. lia.
Qed.

(** The reservoir is not safe to share.  A single recording thread keeps its count
    within its 1024 slots, so that the percentiles are defined, and [n] threads
    keep it below [1024 + n].  But two threads can store into one slot and count
    two, so that a percentile is 0 although every latency is 5; and at the last
    slot they make the count 1025, when every percentile sorts beyond the array. *)
Theorem reservoir_races :
  (∀ threads s, Z.of_nat threads < 2 ^ 32 → reachable threads s →
     reservoir_count (histogram s) < 1024 + Z.of_nat threads) ∧
  (∀ s q k, reachable 1 s → (q, k) ∈ quantiles_of_program →
     ∃ v, get_percentile q (histogram s) = Val v) ∧
  (∃ h, reachable 2 (System h [Idle; Idle] [5; 5]) ∧ p50 h = Val 0 ∧ p999 h = Val 0) ∧
  (∃ h ls, reachable 2 (System h [Idle; Idle] ls) ∧ ∀ q, get_percentile q h = Undef).
Proof.
  split_and!.
  - intros threads s HT Hr. destruct (filled_bound _ _ HT Hr). lia.
  - intros s q k Hr Hq. destruct (filled_bound 1 s ltac:(lia) Hr) as [Hc Hl].
    destruct (decide (reservoir_count (histogram s) = 0)) as [E|E].
    { exists 0. unfold get_percentile. by rewrite E. }
    destruct (get_percentile_rank q k (histogram s) (Z.to_nat (reservoir_count (histogram s))) Hq)
      as (v & Hv & _); [lia| |done|by exists v]. unfold kReservoirSize. lia.
  - destruct (race 5 5 new [] ltac:(lia) ltac:(lia) ltac:(done)) as (h & Hr & Hc & Hs).
    exists h. split; [exact Hr|]. cbn [reservoir_count new] in Hc, Hs.
    unfold p50, p999, get_percentile. rewrite Hc, Hs. by split; vm_compute.
  - destruct (alone_many 1023 new [] eq_refl ltac:(lia)) as (h1 & ls1 & Hr1 & H1).
    destruct (race 1 1 h1 ls1 ltac:(lia) ltac:(lia) ltac:(lia)) as (h2 & Hr2 & H2 & _).
    exists h2, ((ls1 ++ [1]) ++ [1]). split; [unfold reachable; by etransitivity|].
    intros q. unfold get_percentile. rewrite H2, H1. done.
Qed.

(** ** A concrete run *)

Lemma statistics_exact_witness :
  ∃ s, reachable 2 s ∧ sample_count (histogram s) = 2 ∧ max_ns (histogram s) = 9.
Proof.
  destruct (race 9 4 new []) as (h & Hr & _); [split; [discriminate|reflexivity]..|].
  exists (System h [Idle; Idle] [9; 4]). split; [exact Hr|].
  destruct (statistics_exact 2 (System h [Idle; Idle] [9; 4])) as (Hc & Hm & _).
  - reflexivity.
  - exact Hr.
  - repeat constructor.
  - split; [rewrite Hc|rewrite Hm]; reflexivity.
Defined.
