(* ===== verification/Text.v ===== *)
(** * The text format of value_container

    [core/serializers/binary_serializer.cpp] and [value_container::datas]
    (writing), [value_container::deserialize] and [deserialize_values] (reading),
    [build_index] and [get(key, as_view)] (reading in place), the constructors
    that parse, and the operations that parse what a constructor left unparsed.

    [std::format] is the one of GCC 13; its braces are doubled in the source, so
    ["@data={{{{"] prints two.  An exception is a value of [std_exception], and
    the object keeps the fields set before it.  A container inside the text is
    put behind a pointer by [make_shared]; the recursion into it has a bound,
    which TextFacts.v shows to be no restriction.  [what] gives the texts of the
    exceptions.  The lock is held for the whole body of a method. *)

From S2P Require Import Prelude Float Types ErrorCodes Validation Container.
From S2P Require Import Regex Numbers.
Import value_container.

(** ** Writing *)

Module variant_helpers.

(** [to_string(var, type)]; [None] is [std::bad_variant_access]. *)
Definition to_string {C} (var : value_variant C) (ty : value_types) : option text :=
  match ty, vv var with
  | null_value, _ => Some []
  | bool_value, V_bool b => Some (str_bytes (if b then "true" else "false"))
  | short_value, V_short z | ushort_value, V_ushort z | int_value, V_int z
  | uint_value, V_uint z | long_value, V_long z | ulong_value, V_ulong z
  | llong_value, V_llong z | ullong_value, V_ullong z =>
      Some (str_bytes (Prelude.to_string z))
  | float_value, V_float z => Some (str_bytes (to_string_f64 (f32_to_f64 z)))
  | double_value, V_double z => Some (str_bytes (to_string_f64 z))
  | string_value, V_string s => Some (str_bytes s)
  | (bytes_value | container_value | array_value), _ => Some []
  | _, _ => None
  end.

End variant_helpers.

Module binary_serializer.

(** One ["[{},{},{}];"] of [datas]. *)
Definition unit_text {C} (u : optimized_value C) : option text :=
  value_str ← variant_helpers.to_string (data u) (type u);
  Some (str_bytes "[" ++ str_bytes (name u) ++ str_bytes "," ++
        str_bytes (get_string_from_type (type u)) ++ str_bytes "," ++ value_str ++
        str_bytes "];").

(** [value_container::datas] *)
Definition datas {C} (c : t C) : option text :=
  if negb (parsed_data_ c) then Some (str_bytes (data_string_ c))
  else
    items ← mapM unit_text (optimized_units_ c);
    Some (str_bytes "@data={{" ++ concat items ++ str_bytes "}};").

Definition TARGET_ID : Z := 1.
Definition TARGET_SUB_ID : Z := 2.
Definition SOURCE_ID : Z := 3.
Definition SOURCE_SUB_ID : Z := 4.
Definition MESSAGE_TYPE : Z := 5.
Definition MESSAGE_VERSION : Z := 6.

(** ["[{},{}];"] *)
Definition pair_text (id : Z) (field : string) : text :=
  str_bytes "[" ++ str_bytes (Prelude.to_string id) ++ str_bytes "," ++ str_bytes field ++
  str_bytes "];".

Definition header_text (h : header) : text :=
  str_bytes "@header={{" ++
  (if bool_decide (message_type_ h = "data_container"%string) then []
   else pair_text TARGET_ID (target_id_ h) ++ pair_text TARGET_SUB_ID (target_sub_id_ h) ++
        pair_text SOURCE_ID (source_id_ h) ++ pair_text SOURCE_SUB_ID (source_sub_id_ h)) ++
  pair_text MESSAGE_TYPE (message_type_ h) ++ pair_text MESSAGE_VERSION (version_ h) ++
  str_bytes "}};".

Definition serialize_to_string {C} (c : t C) : option text :=
  data_section ← datas c; Some (header_text (header_ c) ++ data_section).

(** [what] is the text of [std::bad_variant_access]. *)
Definition serialize {C} (what : string) (c : t C) : list byte + error_info :=
  match serialize_to_string c with
  | Some arr => inl arr
  | None => inr (ErrorInfo (-1) ("Binary serialization failed: " ++ what) "binary_serializer")
  end.

End binary_serializer.

(** ** Reading *)

Module text_reader.

(** ["\\r\\n?|\\n"], the alternatives in order. *)
Definition newlineRe : list regex := [[Lit [x0d]; Opt x0a]; [Lit [x0a]]].

(** ["@data=\\s*\\{\\{?\\s*(.*?)\\s*\\}\\}?;"], group 1 the item 5; the same for the header. *)
Definition section_re (word : string) : regex :=
  [Lit (str_bytes word); Star space; Lit [x7b]; Opt x7b; Star space; Lazy dot; Star space;
   Lit [x7d]; Opt x7d; Lit [x3b]].
Definition reData : regex := section_re "@data=".
Definition fullRe : regex := section_re "@header=".

(** ["\\[(\\w+),(.*?)\\];"], groups 1 and 2 the items 1 and 3. *)
Definition pairRe : regex := [Lit [x5b]; Plus word; Lit [x2c]; Lazy dot; Lit [x5d; x3b]].

(** ["\\[(\\w+),\\s*(\\w+),\\s*(.*?)\\];"], groups 1, 2 and 3 the items 1, 4 and 7. *)
Definition reItems : regex :=
  [Lit [x5b]; Plus word; Lit [x2c]; Star space; Plus word; Lit [x2c]; Star space; Lazy dot;
   Lit [x5d; x3b]].

(** [std::regex_replace(s, re, "")] for alternatives, the first that matches winning. *)
Fixpoint first_match (rs : list regex) (s : text) : option matched :=
  match rs with
  | [] => None
  | r :: rs => match run r s with Some m => Some m | None => first_match rs s end
  end.

Fixpoint erase (fuel : nat) (rs : list regex) (s : text) : text :=
  match fuel with
  | O => s
  | S fuel =>
      match first_match rs s with
      | Some (_, t) => erase fuel rs t
      | None => match s with b :: s' => b :: erase fuel rs s' | [] => [] end
      end
  end.

Definition remove_newlines (s : text) : text := erase (length s) newlineRe s.

(** *** Header *)

Definition skip_blanks (s : text) : text :=
  (fix go s := match s with
               | b :: s' => if bool_decide (b = x20) then go s' else s
               | [] => []
               end) s.

(** [find_first_not_of(' ')] to [find_last_not_of(' ')] *)
Definition trim (s : text) : text := rev (skip_blanks (rev (skip_blanks s))).

Definition parsing (source_name : text) (target : Z) (target_value : text)
    (target_variable : string) : string :=
  if bool_decide (source_name = str_bytes (Prelude.to_string target))
  then bytes_str (trim target_value) else target_variable.

Import binary_serializer.

Definition parse_pair (pair : text * list text) (h : header) : header :=
  let id := group pair.2 1 in
  let value := group pair.2 3 in
  Header (parsing id SOURCE_ID value (source_id_ h))
    (parsing id SOURCE_SUB_ID value (source_sub_id_ h))
    (parsing id TARGET_ID value (target_id_ h))
    (parsing id TARGET_SUB_ID value (target_sub_id_ h))
    (parsing id MESSAGE_TYPE value (message_type_ h))
    (parsing id MESSAGE_VERSION value (version_ h)).

Definition parse_header (headerInside : text) (h : header) : header :=
  fold_left (λ h pair, parse_pair pair h) (regex_matches pairRe headerInside) h.

(** *** Values *)

Section Reader.
Context {C : Type} (make_shared : t C → C).
Abbreviation t := (t C).

(** A call: the object afterwards, and what was returned or thrown. *)
Abbreviation outcome A := (t * (A + std_exception))%type.

(** [static_cast<T>(std::sto...(dataStr))] into the variant *)
Definition number (f : Z → variant (option C) (option (list (value_variant C))))
    (r : Z + std_exception) : value_variant C + std_exception :=
  match r with inl z => inl (Vv (f z)) | inr e => inr e end.

(** The [switch] on the type; [nested] deserializes into a new container. *)
Definition parse_value (nested : text → res (outcome bool)) (vt : value_types) (dataStr : text)
    : res (value_variant C + std_exception) :=
  match vt with
  | null_value => Val (inl (Vv V_null))
  | bool_value =>
      Val (inl (Vv (V_bool (bool_decide (dataStr = str_bytes "true")
                            || bool_decide (dataStr = str_bytes "1")))))
  | short_value => Val (number (λ z, V_short (swrap 16 z)) (stoi dataStr))
  | ushort_value => Val (number (λ z, V_ushort (wrap 16 z)) (stoul dataStr))
  | int_value => Val (number V_int (stoi dataStr))
  | uint_value => Val (number (λ z, V_uint (wrap 32 z)) (stoul dataStr))
  | long_value => Val (number V_long (stol dataStr))
  | ulong_value => Val (number V_ulong (stoul dataStr))
  | llong_value => Val (number V_llong (stoll dataStr))
  | ullong_value => Val (number V_ullong (stoull dataStr))
  | float_value => Val (number V_float (stof dataStr))
  | double_value => Val (number V_double (stod dataStr))
  | string_value => Val (inl (Vv (V_string (bytes_str dataStr))))
  | bytes_value => Val (inl (Vv (V_bytes dataStr)))
  | container_value =>
      match dataStr with
      | [] => Val (inl (Vv V_null))
      | _ =>
          let? (c, r) := nested dataStr in
          Val (match r with
               | inl true => inl (Vv (V_container (Some (make_shared c))))
               | inl false => inl (Vv V_null)
               | inr e => inr e
               end)
      end
  | array_value => Val (inl (Vv V_null))
  end.

(** The loop over the items; an exception leaves the values pushed so far. *)
Fixpoint parse_items (nested : text → res (outcome bool)) (items : list (text * list text)) (c : t)
    : res (outcome unit) :=
  match items with
  | [] => Val (c, inl tt)
  | (_, ps) :: items =>
      let vt := get_type_from_string (bytes_str (group ps 4)) in
      let? r := parse_value nested vt (group ps 7) in
      match r with
      | inl d =>
          let ov := Optimized (bytes_str (group ps 1)) vt d in
          parse_items nested items (with_units (optimized_units_ c ++ [ov]) c)
      | inr e => Val (c, inr e)
      end
  end.

Definition deserialize_values_step (nested : text → res (outcome bool)) (data : text)
    (parse_only_header : bool) (c : t) : res (outcome bool) :=
  let c := with_data (parsed_data_ c) false (data_string_ c) (with_units [] c) in
  match regex_search reData data with
  | None => Val (with_data true false "@data={{}}" c, inl false)
  | Some (_, ps, _) =>
      let data_string := whole ps in
      if parse_only_header then Val (with_data false false (bytes_str data_string) c, inl true)
      else
        let c := with_data true false (bytes_str data_string) c in
        let? (c, r) := parse_items nested (regex_matches reItems data_string) c in
        Val (c, match r with inl _ => inl true | inr e => inr e end)
  end.

(** [deserialize], with [nested] for the containers inside it. *)
Definition deserialize_step (nested : text → res (outcome bool)) (data_str : text)
    (parse_only_header : bool) (c : t) : res (outcome bool) :=
  let c := initialize c in
  match data_str with
  | [] => Val (c, inl false)
  | _ =>
      let clean := remove_newlines data_str in
      let c :=
        match regex_search fullRe clean with
        | Some (_, ps, _) => with_header (parse_header (group ps 5) (header_ c)) c
        | None => c
        end in
      deserialize_values_step nested clean parse_only_header c
  end.

Fixpoint deserialize_fuel (fuel : nat) (data_str : text) (parse_only_header : bool) (c : t)
    : res (outcome bool) :=
  match fuel with
  | O => NoFuel
  | S fuel => deserialize_step (λ dataStr, deserialize_fuel fuel dataStr false new)
                data_str parse_only_header c
  end.

Definition deserialize (data_str : text) (parse_only_header : bool) (c : t)
    : res (outcome bool) :=
  deserialize_fuel (S (length data_str)) data_str parse_only_header c.

Definition deserialize_values (data : text) (parse_only_header : bool) (c : t)
    : res (outcome bool) :=
  deserialize_values_step (λ dataStr, deserialize dataStr false new) data parse_only_header c.

End Reader.
End text_reader.

(** ** Constructors that parse *)

Module text_container.
Import text_reader.
Section TextContainer.
Context {C : Type} (make_shared : t C → C).
Abbreviation t := (t C).
Implicit Types (c other : t).

Definition with_raw (raw : text) c : t :=
  Container (parsed_data_ c) (changed_data_ c) (data_string_ c) (Some (bytes_str raw))
    (value_index_ c) (index_built_ c) true (header_ c) (optimized_units_ c) (use_soo_ c)
    (heap_allocations_ c) (stack_allocations_ c) (validation_errors_ c).

(** The exception of a constructor is the constructor's; there is no object then. *)
Definition constructed (r : res (t * (bool + std_exception))) : res (t + std_exception) :=
  let? (c, o) := r in Val (match o with inl _ => inl c | inr e => inr e end).

(** [value_container(data_str, parse_only_header)]; from bytes it is the same. *)
Definition of_text (data_str : text) (parse_only_header : bool) : res (t + std_exception) :=
  let c := if parse_only_header then with_raw data_str new else new in
  constructed (deserialize make_shared data_str parse_only_header c).

(** [value_container(other, parse_only_header)] *)
Definition copy other (parse_only_header : bool) : res (t + std_exception) :=
  match binary_serializer.serialize_to_string other with
  | Some s => constructed (deserialize make_shared s parse_only_header new)
  | None => Val (inr bad_variant_access)
  end.

(** From a [shared_ptr]. *)
Definition copy_ptr (other : option t) (parse_only_header : bool) : res (t + std_exception) :=
  match other with
  | Some other => copy other parse_only_header
  | None => Val (inl new)
  end.

(** ** Operations that parse what was left unparsed *)

(** [if (!parsed_data_) deserialize_values(data_string_, false);] *)
Definition ensure_parsed c : res (t * (unit + std_exception)) :=
  if parsed_data_ c then Val (c, inl tt)
  else
    let? (c, r) := deserialize_values make_shared (str_bytes (data_string_ c)) false c in
    Val (c, match r with inl _ => inl tt | inr e => inr e end).

Definition remove_units (keys : list string) c : t :=
  with_units (filter (λ ov, name ov ∉ keys) (optimized_units_ c)) c.

Definition remove_batch (keys : list string) c : res (t * (Z + std_exception)) :=
  if bool_decide (keys = []) then Val (c, inl 0)
  else
    let? (c, r) := ensure_parsed c in
    match r with
    | inr e => Val (c, inr e)
    | inl _ =>
        let original_size := Z.of_nat (length (optimized_units_ c)) in
        let c := remove_units keys c in
        let removed := original_size - Z.of_nat (length (optimized_units_ c)) in
        Val (if 0 <? removed then with_changed c else c, inl removed)
    end.

Section Results.
Context (what : std_exception → string).

Definition remove_batch_result (keys : list string) c : res (t * (Z + error_info)) :=
  let? (c, r) := remove_batch keys c in
  Val (c, match r with
          | inl n => inl n
          | inr e => inr (error error_codes.invalid_value
                            (String.append "Batch remove failed: " (what e)))
          end).

Definition remove_result (target_name : string) c : res (t * (unit + error_info)) :=
  let? (c, r) := ensure_parsed c in
  match r with
  | inr e =>
      Val (c, inr (error error_codes.invalid_value
                     (String.append "Failed to remove value: " (what e))))
  | inl _ =>
      match find_unit target_name (optimized_units_ c) with
      | None => Val (c, inr (error error_codes.key_not_found
                               (error_codes.make_message error_codes.key_not_found target_name)))
      | Some _ => Val (with_changed (remove_units [target_name] c), inl tt)
      end
  end.
End Results.

(** ** The Result-based reader *)

(** A [noexcept] function that an exception would leave calls [std::terminate]. *)
Inductive noexcept (A : Type) : Type := Returned (a : A) | Terminated.
Arguments Returned {A} _.
Arguments Terminated {A}.

(** [kind] is ["string data"] or ["byte array data"]. *)
Definition deserialize_result (kind : string) (data_str : text) (parse_only_header : bool) c
    : res (noexcept (t * (unit + error_info))) :=
  let? (c, r) := deserialize make_shared data_str parse_only_header c in
  Val (match r with
       | inl true => Returned (c, inl tt)
       | inl false =>
           Returned (c, inr (error error_codes.deserialization_failed
                         (error_codes.make_message error_codes.deserialization_failed kind)))
       | inr _ => Terminated
       end).

End TextContainer.

Arguments Returned {A} _.
Arguments Terminated {A}.

(** ** Reading in place *)

Section Views.
Context {C : Type}.
Abbreviation t := (t C).
Implicit Type c : t.

(** One item of the index; [dataStart] is where the section's inside starts and
    [pos] where the item starts in it. *)
Definition index_item (dataStart pos : Z) (ps : list text) : value_index_entry :=
  let len i := Z.of_nat (length (group ps i)) in
  IndexEntry (bytes_str (group ps 1))
    (dataStart + pos + 1 + len 1%nat + 1 + len 4%nat + 1)
    (len 7%nat) (get_type_from_string (bytes_str (group ps 4))).

(** The items with their positions: what is between two matches counts. *)
Fixpoint index_items (dataStart pos : Z) (items : list (text * list text))
    : list value_index_entry :=
  match items with
  | [] => []
  | (pre, ps) :: items =>
      let at_ := pos + Z.of_nat (length pre) in
      index_item dataStart at_ ps
        :: index_items dataStart (at_ + Z.of_nat (length (whole ps))) items
  end.

Definition with_index (index : list value_index_entry) c : t :=
  Container (parsed_data_ c) (changed_data_ c) (data_string_ c) (raw_data_ptr_ c)
    (Some index) true (zero_copy_mode_ c) (header_ c) (optimized_units_ c) (use_soo_ c)
    (heap_allocations_ c) (stack_allocations_ c) (validation_errors_ c).

(** The name of an entry points into the raw data; it is kept as its characters. *)
Definition build_index c : t :=
  if index_built_ c then c
  else
    match raw_data_ptr_ c with
    | None => c
    | Some raw =>
        match regex_search reData (str_bytes raw) with
        | None => with_index [] c
        | Some (pre, ps, _) =>
            let dataStart := Z.of_nat (length pre + length (whole (take 5 ps))) in
            with_index (index_items dataStart 0 (regex_matches reItems (group ps 5))) c
        end
    end.

Definition ensure_index_built c : t := if index_built_ c then c else build_index c.

(** A [value_view]: characters of the name, characters of the value, type.  The
    range is not checked, so one outside the raw data is undefined. *)
Record value_view : Type := View { view_name : string; view_data : text; view_type : value_types }.

Fixpoint find_entry (key : string) (index : list value_index_entry) : option value_index_entry :=
  match index with
  | [] => None
  | entry :: index =>
      if bool_decide (entry_name entry = key) then Some entry else find_entry key index
  end.

Definition view_range (raw : text) (offset len : Z) : res text :=
  if (0 <=? offset) && (0 <=? len) && (offset + len <=? Z.of_nat (length raw))
  then Val (take (Z.to_nat len) (drop (Z.to_nat offset) raw)) else Undef.

(** [get(key, as_view)] *)
Definition get_view (key : string) c : res (t * option value_view) :=
  match zero_copy_mode_ c, raw_data_ptr_ c with
  | true, Some raw =>
      let c := if index_built_ c then c else build_index c in
      match value_index_ c ≫= find_entry key with
      | None => Val (c, None)
      | Some entry =>
          let? d := view_range (str_bytes raw) (value_offset entry) (value_length entry) in
          Val (c, Some (View (entry_name entry) d (entry_type entry)))
      end
  | _, _ => Val (c, None)
  end.
End Views.
End text_container.
