(* ===== verification/LockedHeader.v ===== *)
(** * value_container: which methods lock, and which do not

    The methods of [core/container.cpp] on the header and the values, as the
    actions of their bodies on the fields of the object.  Most hold [mutex_] for
    the whole body.  These do not: [swap_header], [clear_value] and [initialize]
    write without it; [datas] reads the values without it; [get(key, as_view)]
    and [ensure_index_built] write the index under the shared lock; [set_all]
    takes the lock once for every value; and a serializer reads every field of
    the header under a lock of its own and the values under none.

    The methods that hold the lock are atomic, together, in every interleaving
    ([locked_methods_atomic]).  The others are not, although
    docs/API_QUICK_REFERENCE.md calls all of them thread-safe:
    [swap_header_torn], [serializer_header_torn], [unlocked_methods_race]. *)

From S2P Require Import Prelude Types UnorderedMap Validation Container Text Locking LockingFacts Atomicity.

Module locked_message.
Import value_container.

Section Methods.
Context {C : Type}.

(** What a call has read: fields of the header, and values. *)
Record locals : Type := Locals {
  strings : list string; units : list (optimized_value C); found : option (optimized_value C);
  answer : bool }.
Definition no_locals : locals := Locals [] [] None false.
Abbreviation action := (action (t C) locals).

Definition shared (self : nat) (acts : list action) : list action :=
  Lock Shared self :: acts ++ [Unlock self].
Definition unique (self : nat) (acts : list action) : list action :=
  Lock Exclusive self :: acts ++ [Unlock self].

(** An assignment to a field. *)
Definition assigns (self : nat) (f : t C → t C) : action := Write self (λ c l, (f c, l)).
Definition returns_string (self : nat) (f : t C → string) : action :=
  Read self (λ c l, Locals (strings l ++ [f c]) (units l) (found l) (answer l)).

(** ** The header *)

Definition on_header (f : header → header) (c : t C) : t C := with_header (f (header_ c)) c.
Definition put_source_id (s : string) (h : header) : header :=
  Header s (source_sub_id_ h) (target_id_ h) (target_sub_id_ h) (message_type_ h) (version_ h).
Definition put_source_sub_id (s : string) (h : header) : header :=
  Header (source_id_ h) s (target_id_ h) (target_sub_id_ h) (message_type_ h) (version_ h).
Definition put_target_id (s : string) (h : header) : header :=
  Header (source_id_ h) (source_sub_id_ h) s (target_sub_id_ h) (message_type_ h) (version_ h).
Definition put_target_sub_id (s : string) (h : header) : header :=
  Header (source_id_ h) (source_sub_id_ h) (target_id_ h) s (message_type_ h) (version_ h).
Definition put_message_type (s : string) (h : header) : header :=
  Header (source_id_ h) (source_sub_id_ h) (target_id_ h) (target_sub_id_ h) s (version_ h).
Definition put_version (s : string) (h : header) : header :=
  Header (source_id_ h) (source_sub_id_ h) (target_id_ h) (target_sub_id_ h) (message_type_ h) s.

Definition set_source (self : nat) (sid ssubid : string) : list action :=
  unique self [assigns self (on_header (put_source_id sid));
    assigns self (on_header (put_source_sub_id ssubid))].
Definition set_target (self : nat) (tid tsubid : string) : list action :=
  unique self [assigns self (on_header (put_target_id tid));
    assigns self (on_header (put_target_sub_id tsubid))].
Definition set_message_type (self : nat) (msg_type : string) : list action :=
  unique self [assigns self (on_header (put_message_type msg_type))].

(** [std::swap] of two strings exchanges their contents. *)
Definition swap_header (self : nat) : list action :=
  [assigns self (on_header (λ h, put_target_id (source_id_ h) (put_source_id (target_id_ h) h)));
   assigns self (on_header (λ h, put_target_sub_id (source_sub_id_ h)
     (put_source_sub_id (target_sub_id_ h) h)))].

Definition clear_value (self : nat) : list action :=
  [assigns self (λ c, with_data true (changed_data_ c) (data_string_ c) c);
   assigns self (λ c, with_data (parsed_data_ c) false (data_string_ c) c);
   assigns self (λ c, with_data (parsed_data_ c) (changed_data_ c) empty_data c);
   assigns self (with_units [])].

Definition initialize (self : nat) : list action :=
  [assigns self (on_header (put_source_id "")); assigns self (on_header (put_source_sub_id ""));
   assigns self (on_header (put_target_id "")); assigns self (on_header (put_target_sub_id ""));
   assigns self (on_header (put_message_type "data_container"));
   assigns self (on_header (put_version "1.0"))] ++ clear_value self.

Definition source_id (self : nat) : list action := shared self [returns_string self source_id].
Definition source_sub_id (self : nat) : list action := shared self [returns_string self source_sub_id].
Definition target_id (self : nat) : list action := shared self [returns_string self target_id].
Definition target_sub_id (self : nat) : list action := shared self [returns_string self target_sub_id].
Definition message_type (self : nat) : list action := shared self [returns_string self message_type].
Definition version (self : nat) : list action := shared self [returns_string self version].

(** ** The values *)

Definition get (self : nat) (key : string) : list action :=
  shared self [Read self (λ c l, Locals (strings l) (units l) (value_container.get key c) (answer l))].
Definition contains (self : nat) (key : string) : list action :=
  shared self [Read self (λ c l, Locals (strings l) (units l) (found l) (value_container.contains key c))].
Definition get_variant_values (self : nat) : list action :=
  shared self [Read self (λ c l, Locals (strings l) (optimized_units_ c) (found l) (answer l))].
Definition set_unit_impl (self : nat) (val : optimized_value C) : list action :=
  unique self [assigns self (value_container.set_unit_impl val)].
Definition set_all (self : nat) (vals : list (optimized_value C)) : list action :=
  concat (set_unit_impl self <$> vals).
Definition bulk_insert (self : nat) (vals : list (optimized_value C)) : list action :=
  unique self [assigns self (value_container.bulk_insert vals)].

(** [datas] without the text it makes of the values. *)
Definition datas (self : nat) : list action :=
  [Read self (λ c l, Locals (strings l) (optimized_units_ c) (found l) (answer l))].

(** What [binary_serializer::serialize] reads. *)
Definition serializer_reads (self : nat) : list action :=
  message_type self ++ target_id self ++ target_sub_id self ++ source_id self ++
  source_sub_id self ++ version self ++ datas self.

(** [build_index] under the lock of a reader: a write, when there is an index to build. *)
Definition ensure_index_built (self : nat) : list action :=
  shared self [assigns self text_container.ensure_index_built].

(** ** Calls *)

Inductive request : Type :=
| SetSource (self : nat) (sid ssubid : string) | SetTarget (self : nat) (tid tsubid : string)
| SetMessageType (self : nat) (msg_type : string)
| SourceId (self : nat) | SourceSubId (self : nat) | TargetId (self : nat) | TargetSubId (self : nat)
| MessageType (self : nat) | Version (self : nat)
| Get (self : nat) (key : string) | Contains (self : nat) (key : string)
| GetVariantValues (self : nat) | SetValue (self : nat) (val : optimized_value C)
| BulkInsert (self : nat) (vals : list (optimized_value C))
| SetAll (self : nat) (vals : list (optimized_value C))
| SwapHeader (self : nat) | ClearValue (self : nat) | Initialize (self : nat)
| SerializerReads (self : nat) | EnsureIndexBuilt (self : nat).

Definition method_body (r : request) : list action :=
  match r with
  | SetSource self a b => set_source self a b | SetTarget self a b => set_target self a b
  | SetMessageType self a => set_message_type self a
  | SourceId self => source_id self | SourceSubId self => source_sub_id self
  | TargetId self => target_id self | TargetSubId self => target_sub_id self
  | MessageType self => message_type self | Version self => version self
  | Get self key => get self key | Contains self key => contains self key
  | GetVariantValues self => get_variant_values self
  | SetValue self val => set_unit_impl self val | BulkInsert self vals => bulk_insert self vals
  | SetAll self vals => set_all self vals
  | SwapHeader self => swap_header self | ClearValue self => clear_value self
  | Initialize self => initialize self
  | SerializerReads self => serializer_reads self | EnsureIndexBuilt self => ensure_index_built self
  end.
Definition call_of (r : request) : call (t C) locals := Call (method_body r) no_locals.

(** The methods that hold the lock from the first access to the last. *)
Definition holds_lock (r : request) : bool :=
  match r with
  | SetAll _ _ | SwapHeader _ | ClearValue _ | Initialize _ | SerializerReads _
  | EnsureIndexBuilt _ => false
  | _ => true
  end.

(** What a call means on the containers of Container.v. *)
Definition respond (r : request) (σ : nat → t C) : (nat → t C) * locals :=
  let returns s := (σ, Locals [s] [] None false) in
  match r with
  | SetSource self a b => (upd self (value_container.set_source a b (σ self)) σ, no_locals)
  | SetTarget self a b => (upd self (value_container.set_target a b (σ self)) σ, no_locals)
  | SetMessageType self a => (upd self (value_container.set_message_type a (σ self)) σ, no_locals)
  | SourceId self => returns (value_container.source_id (σ self))
  | SourceSubId self => returns (value_container.source_sub_id (σ self))
  | TargetId self => returns (value_container.target_id (σ self))
  | TargetSubId self => returns (value_container.target_sub_id (σ self))
  | MessageType self => returns (value_container.message_type (σ self))
  | Version self => returns (value_container.version (σ self))
  | Get self key => (σ, Locals [] [] (value_container.get key (σ self)) false)
  | Contains self key => (σ, Locals [] [] None (value_container.contains key (σ self)))
  | GetVariantValues self => (σ, Locals [] (optimized_units_ (σ self)) None false)
  | SetValue self val => (upd self (value_container.set_unit_impl val (σ self)) σ, no_locals)
  | BulkInsert self vals => (upd self (value_container.bulk_insert vals (σ self)) σ, no_locals)
  | SetAll self vals => (upd self (value_container.set_all vals (σ self)) σ, no_locals)
  | SwapHeader self => (upd self (value_container.swap_header (σ self)) σ, no_locals)
  | ClearValue self => (upd self (value_container.clear_value (σ self)) σ, no_locals)
  | Initialize self => (upd self (value_container.initialize (σ self)) σ, no_locals)
  | SerializerReads self =>
      let h := header_ (σ self) in
      (σ, Locals [message_type_ h; target_id_ h; target_sub_id_ h; source_id_ h; source_sub_id_ h;
                  version_ h] (optimized_units_ (σ self)) None false)
  | EnsureIndexBuilt self => (upd self (text_container.ensure_index_built (σ self)) σ, no_locals)
  end.
End Methods.
End locked_message.

Section Facts.
Context {C : Type}.
Import locked_message.
Implicit Types (r : request (C:=C)) (h : nat → value_container.t C) (c : nat → Z).

Ltac one_lock :=
  apply one_lock; cbn; rewrite ?lookup_singleton_eq, ?bool_decide_true by eauto; reflexivity.

Lemma message_call_ok rank r :
  holds_lock r = true → two_phase (call_of r) = true ∧ ranked rank (call_of r) = true.
Proof. destruct r; intros Hr; try done; one_lock. Qed.

(** ** Alone, every method does what Container.v says *)

Lemma exec_set_all self vals h c :
  ∃ h', exec (set_all self vals) h c no_locals = (h', no_locals, []) ∧
    ∀ o, h' o = upd self (value_container.set_all vals (h self)) h o.
Proof.
  revert h; induction vals as [|val vals IH]; intros h.
  - exists h. split; [done|]. intros o. symmetry. apply (upd_same h).
  - destruct (IH (upd self (value_container.set_unit_impl val (h self)) h)) as (h' & E & Hh').
    exists h'. split.
    + change (set_all self (val :: vals)) with (set_unit_impl self val ++ set_all self vals).
      by apply (exec_app _ _ _ _ _ (upd self (value_container.set_unit_impl val (h self)) h) no_locals []).
    + intros o. by rewrite Hh', upd_eq, upd_upd.
Qed.

Lemma message_call_exec r h c :
  let '(h', l, ks) := exec (body (call_of r)) h c (start (call_of r)) in
  let '(σ, x) := respond r h in
  l = x ∧ ks = [] ∧ ∀ o, h' o = σ o.
Proof.
  destruct r as [| | | | | | | | | | | | | |self vals| | | | |];
    cbn -[value_container.set_all set_all text_container.ensure_index_built]; try done;
    try (split_and!; [done..|]; intros o; rewrite ?upd_upd, ?upd_eq; reflexivity).
  destruct (exec_set_all self vals h c) as (h' & -> & Hh). done.
Qed.
Lemma message_respond_proper r (σ σ' : nat → value_container.t C) :
  (∀ o, σ o = σ' o) →
  (respond r σ).2 = (respond r σ').2 ∧ ∀ o, (respond r σ).1 o = (respond r σ').1 o.
Proof.
  intros H. destruct r as [self|self|self|self|self|self|self|self|self|self|self|self|self|self|self|self|self|self|self|self];
    cbn -[value_container.set_all text_container.ensure_index_built]; rewrite (H self); try done;
    (split; [done|by apply upd_ext]).
Qed.

Lemma method_does r h c :
  holds_lock r = true →
  let '(h', l, ks) := exec (body (call_of r)) h c (start (call_of r)) in
  let '(σ, x) := respond r (λ o, h o) in l = x ∧ ∀ o, h' o = σ o.
Proof.
  intros _. pose proof (message_call_exec r h c) as H. change (λ o, h o) with h.
  destruct (exec _ _ _ _) as [[h' l] ks]. destruct (respond r h). by destruct H as (? & _ & ?).
Qed.

#[export] Instance value_container_class :
  LockedClass (value_container.t C) locals request (value_container.t C) locals := {
  method := call_of; object v _ _ := v; reply := id; Atomicity.respond := respond;
  is_atomic := holds_lock; object_ext _ _ _ _ _ := eq_refl;
  method_two_phase r Hr := proj1 (message_call_ok (λ _, 0%nat) r Hr); respond_ext := message_respond_proper;
  method_exec := method_does }.
End Facts.

(** ** The properties *)

Section Properties.
Import locked_message.
#[local] Open Scope nat_scope.
Context {C : Type}.
Abbreviation message := (value_container.t C).
Abbreviation requests := (list (request (C:=C))).

(** The methods that hold the lock do not race, are atomic in every
    interleaving, and can always be completed. *)
Theorem locked_methods_atomic (programs : list requests) (h : nat → message) (schedule : list nat) :
  (∀ i p r, programs !! i = Some p → r ∈ p → holds_lock r = true) →
  let s := run schedule (threads_of h (λ _, 0%Z) programs) in
  (∀ i j ti tj, i ≠ j → threads s !! i = Some ti → threads s !! j = Some tj →
     races ti tj = false) ∧
  (finished s = true →
   ∃ order, (∀ i, proj i order = default [] (programs !! i)) ∧
     let '(σ, replies) := respond_all order h in
     (∀ i t, threads s !! i = Some t → log t = proj i replies) ∧ ∀ o, heap s o = σ o) ∧
  ∃ schedule', finished (run (schedule ++ schedule') (threads_of h (λ _, 0%Z) programs)) = true.
Proof.
  intros Ha s.
  assert (∀ k : nat, (0 ≤ (λ _ : nat, 0%Z) k < 2 ^ 64)%Z) as Hc by (intros; split; [done|reflexivity]).
  split_and!.
  - intros i j ti tj. exact (requests_race_free programs h _ Ha Hc schedule i j ti tj).
  - intros Hf. destruct (requests_atomic (LockedClass0:=value_container_class) programs h _ Ha Hc schedule Hf) as (order & Hproj & H).
    exists order. split; [done|]. change (objects h (λ _, 0%Z)) with h in H.
    destruct (respond_all order h) as [σ replies]. destruct H as [Hlog Hheap].
    split; [|exact Hheap]. intros i t Ht. rewrite <-(Hlog i t Ht). symmetry. apply list_fmap_id.
  - apply (requests_finish (LockedClass0:=value_container_class) programs h _ Ha Hc (λ _, 0)).
    intros i p r Hp Hr. by apply (message_call_ok (λ _, 0) r), (Ha i p).
Qed.

Definition lettered : message :=
  value_container.set_target "t" "ts" (value_container.set_source "s" "ss" value_container.new).
Definition headers (order : list (nat * request (C:=C))) : value_container.header :=
  value_container.header_ ((respond_all order (λ _, lettered)).1 0).

(** [swap_header] between the two assignments of a header leaves the id of one
    sender with the sub-id of the other, which no order of the two calls does. *)
Theorem swap_header_torn :
  let s := run [0; 0; 1; 1; 1; 1; 1; 1; 0; 0]
    (threads_of (λ _, lettered) (λ _, 0%Z) [[SwapHeader 0]; [SetSource 0 "n" "ns"]]) in
  let torn := value_container.Header "n" "ts" "s" "ns" "data_container" "1.0.0.0" in
  finished s = true ∧ value_container.header_ (heap s 0) = torn ∧
  Forall (λ order, headers order ≠ torn)
    [[(0, SwapHeader 0); (1, SetSource 0 "n" "ns")]; [(1, SetSource 0 "n" "ns"); (0, SwapHeader 0)]].
Proof.
  cbv zeta. split_and!; [vm_compute; reflexivity..|].
  repeat constructor; vm_compute; congruence.
Qed.

(** A serializer that runs beside [set_source] writes the old id and the new
    sub-id, although every call on the way holds the lock. *)
Theorem serializer_header_torn :
  let s := run (replicate 13 0 ++ replicate 6 1 ++ replicate 20 0)
    (threads_of (λ _, lettered) (λ _, 0%Z) [[SerializerReads 0]; [SetSource 0 "n" "ns"]]) in
  finished s = true ∧
  ∀ t, threads s !! 0 = Some t →
    strings <$> log t = [["data_container"; "t"; "ts"; "s"; "ns"; "1.0.0.0"]%string].
Proof.
  cbv zeta. split; [vm_compute; reflexivity|].
  intros t Ht. vm_compute in Ht. injection Ht as <-. reflexivity.
Qed.

Definition race_between (i j : nat) (s : system message (locals (C:=C))) : bool :=
  match threads s !! i, threads s !! j with Some ti, Some tj => races ti tj | _, _ => false end.

(** A container that was read lazily, its index not built yet. *)
Definition lazy : message :=
  value_container.Container false false "" (Some "@data={{[a,int_value,1];}};"%string) None false true
    (value_container.header_ lettered) [] true 0 0 [].

(** A getter races with [swap_header], writing in the text format with
    [set], and two readers that build the index with each other. *)
Theorem unlocked_methods_race (val : optimized_value C) :
  race_between 0 1 (run [0; 1; 1]
    (threads_of (λ _, lettered) (λ _, 0%Z) [[SwapHeader 0]; [SourceId 0]])) = true ∧
  race_between 1 0 (run (replicate 19 0 ++ [1; 1])
    (threads_of (λ _, lettered) (λ _, 0%Z) [[SerializerReads 0]; [SetValue 0 val]])) = true ∧
  race_between 0 1 (run [0; 0; 1; 1]
    (threads_of (λ _, lazy) (λ _, 0%Z) [[EnsureIndexBuilt 0]; [EnsureIndexBuilt 0]])) = true ∧
  value_container.index_built_ lazy = false ∧
  value_container.index_built_ (text_container.ensure_index_built lazy) = true.
Proof. split_and!; vm_compute; reflexivity. Qed.
End Properties.
