(* ===== verification/TextFacts.v ===== *)
(** * Facts about reading the text format

    [deserialize] always returns or throws, and what it can do is spelled out
    ([deserialize_typed], [deserialize_equation]).  The reason the bound on its recursion does not
    matter is a fact about the format: a data section ends at the first ["};"],
    so no container inside a section can be read back
    ([nested_refused], [deserialize_refuses]). *)

From S2P Require Import Prelude Float Types ErrorCodes Validation Container.
From S2P Require Import Regex Numbers Text.
Import value_container text_reader.

(** ** Sections *)

(** The two characters that end a section. *)
Definition closing : text := [x7d; x3b].

(** One hypothesis per piece of a match. *)
Ltac pieces H :=
  repeat (let Hi := fresh "Hi" in
          apply Forall2_cons_inv_l in H as (? & ? & Hi & H & ->); cbn in Hi);
  apply Forall2_nil_inv_l in H as ->.

Definition section_tail : regex := [Star space; Lit [x7d]; Opt x7d; Lit [x3b]].

Lemma section_tail_closing t : is_Some (run section_tail (closing ++ t)).
Proof. by eexists. Qed.

Lemma section_tail_pieces ps :
  Forall2 item_ok section_tail ps →
  ∃ sp o, Forall (λ b, space b = true) sp ∧ (o = [] ∨ o = [x7d]) ∧
    concat ps = sp ++ o ++ closing.
Proof.
  intros H. pieces H. subst.
  match goal with H : _ ∨ _ |- _ => destruct H as [->| ->] end.
  - eexists _, []. split_and!; [eassumption|by left|done].
  - eexists _, [x7d]. split_and!; [eassumption|by right|done].
Qed.

(** A list of characters that are not [}] in front of an occurrence of [};]. *)
Lemma closing_behind p u v s :
  x7d ∉ p → p ++ s = u ++ closing ++ v → ∃ u', u = p ++ u' ∧ s = u' ++ closing ++ v.
Proof.
  intros Hp E. apply app_eq_inv in E as [(m & -> & E)|(m & -> & E)].
  - destruct m as [|x m]; simpl in E; [by exists []; rewrite !app_nil_r|].
    injection E as <- E. destruct Hp. apply elem_of_app. right. left.
  - by exists m.
Qed.

Lemma space_not_close sp : Forall (λ b, space b = true) sp → x7d ∉ sp.
Proof. rewrite list.Forall_forall. intros H Hin. by apply H in Hin. Qed.

(** What ends a section contains [};] once, at its end. *)
Lemma tail_closing_once sp o u v :
  Forall (λ b, space b = true) sp → o = [] ∨ o = [x7d] →
  sp ++ o ++ closing = u ++ closing ++ v → v = [].
Proof.
  intros Hsp Ho (u' & -> & E)%closing_behind; [|by apply space_not_close].
  unfold closing in E. destruct Ho as [->| ->]; destruct u' as [|a [|b [|c [|d u']]]];
    cbn in E; try discriminate E; injection E; by intros; subst.
Qed.

Lemma section_re_closing w s ps t :
  x7d ∉ str_bytes w → run (section_re w) s = Some (ps, t) →
  (∃ u, whole ps = u ++ closing) ∧ ∀ u v, whole ps = u ++ closing ++ v → v = [].
Proof.
  intros Hw E.
  change (section_re w) with
    ([Lit (str_bytes w); Star space; Lit [x7b]; Opt x7b; Star space] ++ Lazy dot :: section_tail)
    in E.
  apply run_app in E as (p1 & p2 & s1 & -> & -> & Hp & E).
  assert (x7d ∉ concat p1) as Hp1.
  { pieces Hp. subst. simpl. rewrite !not_elem_of_app, not_elem_of_cons, !not_elem_of_app.
    split_and!; auto using space_not_close, not_elem_of_nil.
    match goal with H : _ ∨ _ |- _ => destruct H as [->| ->] end;
      [apply not_elem_of_nil|by intros ?%list_elem_of_singleton]. }
  pose proof (run_cons _ _ _ _ _ E) as (q & ps' & _ & -> & _ & _ & _).
  apply run_lazy_minimal in E as (s2 & -> & E & Hmin).
  apply run_sound in E as [-> Hps]. apply section_tail_pieces in Hps as (sp & o & Hsp & Ho & Et).
  unfold whole. rewrite concat_app. simpl. rewrite Et. split.
  { exists (concat p1 ++ q ++ sp ++ o). by rewrite <-!app_assoc. }
  intros u v (u1 & -> & Ev)%closing_behind; [|done].
  apply app_eq_inv in Ev as [(m & -> & Ev)|(m & -> & Ev)].
  - destruct (decide (m = [])) as [->|Hm]; [by eapply (tail_closing_once _ _ [])|].
    specialize (Hmin _ _ eq_refl Hm). rewrite Et, app_assoc, <-Ev, <-app_assoc in Hmin.
    by destruct (section_tail_closing (v ++ t)) as [? ?]; simplify_eq.
  - by eapply tail_closing_once.
Qed.

(** ** Items *)

Lemma reItems_pieces ps :
  Forall2 item_ok reItems ps →
  length ps = 9%nat ∧ Forall (λ b, dot b = true) (group ps 7) ∧ whole (drop 8 ps) = [x5d; x3b].
Proof. unfold reItems. intros H. pieces H. by subst. Qed.

(** An item of a data section holds no ["};"] and no line break in its data. *)
Lemma item_data_plain s0 ps0 t0 pre ps :
  run reData s0 = Some (ps0, t0) → (pre, ps) ∈ regex_matches reItems (whole ps0) →
  Forall (λ b, dot b = true) (group ps 7) ∧ occurs closing (group ps 7) = false.
Proof.
  intros Hd Hin. apply section_re_closing in Hd as [_ Hend].
  2:{ apply (bool_decide_unpack _). by vm_compute. }
  pose proof (regex_matches_in reItems (whole ps0)) as Hall.
  rewrite list.Forall_forall in Hall. destruct (Hall _ Hin) as [Hok (a & b & E)]. clear Hall Hin.
  cbn [snd] in Hok, E. apply reItems_pieces in Hok as (Hl & Hdot & H8).
  split; [done|]. apply occurs_false. intros u v Eg.
  rewrite (whole_split ps 7), H8, Eg in E by lia.
  specialize (Hend (a ++ whole (take 7 ps) ++ u) (v ++ [x5d; x3b] ++ b)).
  rewrite E, <-!app_assoc in Hend. specialize (Hend eq_refl). by destruct v.
Qed.

Lemma remove_newlines_plain s : Forall (λ b, dot b = true) s → remove_newlines s = s.
Proof.
  intros H. unfold remove_newlines. induction H as [|b s Hb H IH]; [done|]. cbn [erase length].
  assert (first_match newlineRe (b :: s) = None) as ->; [|by rewrite IH].
  cbn [first_match newlineRe]. by rewrite !run_lit_head by (by intros <-).
Qed.

Lemma first_match_suffix rs s ps t : first_match rs s = Some (ps, t) → ∃ p, s = p ++ t.
Proof.
  induction rs as [|r rs IH]; [done|]. cbn [first_match].
  destruct (run r s) as [[ps' t']|] eqn:E; [|done].
  intros [= -> ->]. apply run_sound in E as [-> _]. by eexists.
Qed.

Lemma remove_newlines_in x s : x ∈ remove_newlines s → x ∈ s.
Proof.
  unfold remove_newlines. generalize (length s) as fuel. intros fuel.
  revert s; induction fuel as [|fuel IH]; intros s; [done|]. cbn [erase].
  destruct (first_match newlineRe s) as [[ps t]|] eqn:E.
  - intros Hx%IH. assert (∃ p, s = p ++ t) as (p & ->); [|apply elem_of_app; by right].
    by eapply first_match_suffix.
  - destruct s as [|b s]; [done|].
    intros [->|Hx%IH]%elem_of_cons; [left|by right].
Qed.

(** ** Nested containers *)

(** No section can be found in the data of an item. *)
Lemma section_not_found w s :
  x7d ∉ str_bytes w → occurs closing s = false → regex_search (section_re w) s = None.
Proof.
  intros Hw Hs. destruct (regex_search (section_re w) s) as [[[pre ps] t]|] eqn:E; [|done].
  apply regex_search_sound in E as (-> & E & _).
  apply section_re_closing in E as [(u & Eu) _]; [|done]. unfold whole in Eu.
  rewrite occurs_false in Hs. destruct (Hs (pre ++ u) t). by rewrite Eu, <-!app_assoc.
Qed.

Lemma data_word : x7d ∉ str_bytes "@data=".
Proof. apply (bool_decide_unpack _). by vm_compute. Qed.

Lemma header_word : x7d ∉ str_bytes "@header=".
Proof. apply (bool_decide_unpack _). by vm_compute. Qed.

#[export] Hint Resolve data_word header_word : core.

Section Reading.
Context {C : Type} (make_shared : t C → C).
Abbreviation t := (t C).
Implicit Type c : t.

(** What the text of an item says, whatever reads nested containers. *)
Definition flat_value (vt : value_types) (dataStr : text) : value_variant C + std_exception :=
  match vt with
  | container_value => inl (Vv V_null)
  | _ => match parse_value make_shared (λ _, NoFuel) vt dataStr with
         | Val r => r
         | _ => inl (Vv V_null)
         end
  end.

Lemma nested_refused fuel s c :
  Forall (λ b, dot b = true) s → occurs closing s = false →
  ∃ c', deserialize_fuel make_shared (S fuel) s false c = Val (c', inl false).
Proof.
  intros Hd Ho. cbn [deserialize_fuel]. unfold deserialize_step.
  destruct s as [|b s]; [by eexists|]. rewrite remove_newlines_plain by done.
  unfold fullRe. rewrite section_not_found by done. unfold deserialize_values_step.
  unfold reData. rewrite section_not_found by done. by eexists.
Qed.

(** A reader of nested containers that refuses such texts. *)
Definition refuses (nested : text → res (t * (bool + std_exception))) : Prop :=
  ∀ s, Forall (λ b, dot b = true) s → occurs closing s = false →
  ∃ c', nested s = Val (c', inl false).

Lemma fuel_refuses fuel : refuses (λ s, deserialize_fuel make_shared (S fuel) s false new).
Proof. intros s. apply nested_refused. Qed.

Lemma parse_value_flat nested vt s :
  refuses nested → Forall (λ b, dot b = true) s → occurs closing s = false →
  parse_value make_shared nested vt s = Val (flat_value vt s).
Proof.
  intros Hn Hd Ho. destruct vt; try done. simpl. destruct s as [|b s]; [done|].
  by destruct (Hn _ Hd Ho) as [c' ->].
Qed.

(** The values read from the items, up to the first exception. *)
Fixpoint flat_units (items : list (text * list text))
    : list (optimized_value C) * option std_exception :=
  match items with
  | [] => ([], None)
  | (_, ps) :: items =>
      let vt := get_type_from_string (bytes_str (group ps 4)) in
      match flat_value vt (group ps 7) with
      | inl d =>
          let (us, e) := flat_units items in
          (Optimized (bytes_str (group ps 1)) vt d :: us, e)
      | inr e => ([], Some e)
      end
  end.

Lemma with_units_same us us' (c : t) : with_units us (with_units us' c) = with_units us c.
Proof. done. Qed.

Lemma with_units_id (c : t) : with_units (optimized_units_ c) c = c.
Proof. by destruct c. Qed.

Lemma parse_items_flat nested items c :
  refuses nested →
  Forall (λ m, Forall (λ b, dot b = true) (group m.2 7) ∧ occurs closing (group m.2 7) = false)
    items →
  parse_items make_shared nested items c =
    let (us, e) := flat_units items in
    Val (with_units (optimized_units_ c ++ us) c, match e with None => inl tt | Some e => inr e end).
Proof.
  intros Hn Hi. revert c. induction Hi as [|[pre ps] items [Hd Ho] _ IH]; intros c; simpl.
  { by rewrite app_nil_r, with_units_id. }
  rewrite parse_value_flat by done. simpl. destruct (flat_value _ _) as [d|e].
  - rewrite IH. destruct (flat_units items) as [us e]. simpl.
    by rewrite with_units_same, <-app_assoc.
  - by rewrite app_nil_r, with_units_id.
Qed.

(** What reading a data section does: the closed form of [deserialize_values]. *)
Definition read_values (data : text) (parse_only_header : bool) (c : t)
    : t * (bool + std_exception) :=
  match regex_search reData data with
  | None => (with_data true false "@data={{}}" (with_units [] c), inl false)
  | Some (_, ps, _) =>
      let d := whole ps in
      if parse_only_header then (with_data false false (bytes_str d) (with_units [] c), inl true)
      else
        let (us, e) := flat_units (regex_matches reItems d) in
        (with_data true false (bytes_str d) (with_units us c),
         match e with None => inl true | Some e => inr e end)
  end.

Lemma deserialize_values_flat nested data h c :
  refuses nested →
  deserialize_values_step make_shared nested data h c = Val (read_values data h c).
Proof.
  intros Hn. unfold deserialize_values_step, read_values.
  destruct (regex_search reData data) as [[[pre ps] t]|] eqn:E; [|done].
  destruct h; [done|]. rewrite parse_items_flat; [|done|].
  - by destruct (flat_units _) as [us [e|]].
  - apply list.Forall_forall. intros [pre' ps'] Hin.
    apply regex_search_sound in E as (_ & E & _). by eapply item_data_plain.
Qed.

(** The closed form of [deserialize]. *)
Definition read_text (data_str : text) (parse_only_header : bool) (c : t)
    : t * (bool + std_exception) :=
  match data_str with
  | [] => (initialize c, inl false)
  | _ =>
      let clean := remove_newlines data_str in
      let h := match regex_search fullRe clean with
               | Some (_, ps, _) => parse_header (group ps 5) (header_ (initialize c))
               | None => header_ (initialize c)
               end in
      read_values clean parse_only_header (with_header h (initialize c))
  end.

Lemma deserialize_step_flat nested data_str h c :
  refuses nested → deserialize_step make_shared nested data_str h c = Val (read_text data_str h c).
Proof.
  intros Hn. unfold deserialize_step, read_text. destruct data_str; [done|].
  rewrite deserialize_values_flat by done. by destruct (regex_search fullRe _) as [[[? ?] ?]|].
Qed.

Lemma deserialize_flat data_str h c :
  deserialize make_shared data_str h c = Val (read_text data_str h c).
Proof.
  unfold deserialize. destruct data_str as [|b s]; [done|].
  cbn [deserialize_fuel length]. apply deserialize_step_flat, fuel_refuses.
Qed.

Lemma deserialize_refuses : refuses (λ s, deserialize make_shared s false new).
Proof. intros s. apply nested_refused. Qed.

Lemma deserialize_values_eq data h c :
  deserialize_values make_shared data h c = Val (read_values data h c).
Proof. apply deserialize_values_flat, deserialize_refuses. Qed.

(** ** What a reader can do *)

(** The alternative is the one of the type tag, and an integer fits its type. *)
Definition unit_typed (u : optimized_value C) : Prop :=
  match type u, vv (data u) with
  | (container_value | array_value), v => v = V_null
  | short_value, V_short z => s_ok 16 z = true
  | ushort_value, V_ushort z => u_ok 16 z = true
  | int_value, V_int z => s_ok 32 z = true
  | uint_value, V_uint z => u_ok 32 z = true
  | long_value, V_long z | llong_value, V_llong z => s_ok 64 z = true
  | ulong_value, V_ulong z | ullong_value, V_ullong z => u_ok 64 z = true
  | ty, v => variant_type v = ty
  end.

Lemma sto_signed_range fn w s z :
  sto_signed fn w s = inl z → - 2 ^ (w - 1) ≤ z < 2 ^ (w - 1).
Proof.
  unfold sto_signed. destruct (strto s) as [[neg m]|]; [|done].
  case_match eqn:E; [|done]. intros [= <-]. rewrite andb_true_iff in E. lia.
Qed.

Lemma read_digits_nonneg s acc : 0 ≤ acc → 0 ≤ read_digits s acc.
Proof.
  revert acc; induction s as [|b s IH]; intros acc Ha; [done|]. simpl.
  destruct (digit b) eqn:Hb; [|done]. apply IH. unfold digit in Hb. lia.
Qed.

Lemma sto_unsigned_range fn s z : sto_unsigned fn s = inl z → 0 ≤ z < 2 ^ 64.
Proof.
  unfold sto_unsigned, strto. destruct (read_sign _) as [neg s'].
  destruct s' as [|b s']; [done|]. destruct (digit b); [|done].
  pose proof (read_digits_nonneg (b :: s') 0 ltac:(lia)) as Hr. revert Hr.
  generalize (read_digits (b :: s') 0). intros m Hm.
  destruct (Z.ltb_spec m (2 ^ 64)); [|done].
  intros [= <-]. destruct neg; [apply wrap_range; lia|lia].
Qed.

Lemma flat_value_typed n vt s d : flat_value vt s = inl d → unit_typed (Optimized n vt d).
Proof.
  unfold flat_value, unit_typed. destruct vt; simpl; try by intros [= <-].
  all: unfold stoi, stol, stoll, stoul, stoull, number.
  all: destruct (sto_signed _ _ _) as [z|] eqn:E || destruct (sto_unsigned _ _) as [z|] eqn:E
       || destruct (stof _) || destruct (stod _); try done; intros [= <-]; simpl; try done.
  all: unfold s_ok, u_ok; rewrite andb_true_iff.
  all: first [apply sto_signed_range in E | apply sto_unsigned_range in E].
  all: pose proof (swrap_range 16 z ltac:(lia)); pose proof (wrap_range 16 z ltac:(lia));
    pose proof (wrap_range 32 z ltac:(lia)).
  all: lia.
Qed.

Lemma flat_value_exn vt s e :
  flat_value vt s = inr e → ∃ fn, e = invalid_argument fn ∨ e = out_of_range fn.
Proof.
  unfold flat_value. destruct vt; simpl; try done.
  all: unfold stoi, stol, stoll, stoul, stoull, stof, stod, number,
         sto_signed, sto_unsigned, sto_float.
  all: destruct (strto _) as [[? ?]|] || destruct (strtod _ _) as [[? ?]|];
    repeat case_match; intros [= <-]; simplify_eq; eauto.
Qed.

Lemma flat_units_spec items us e :
  flat_units items = (us, e) →
  Forall unit_typed us ∧ ∀ x, e = Some x → ∃ fn, x = invalid_argument fn ∨ x = out_of_range fn.
Proof.
  revert us e; induction items as [|[pre ps] items IH]; intros us e; simpl.
  { by intros [= <- <-]. }
  destruct (flat_value _ _) as [d|x] eqn:Ev.
  - destruct (flat_units items) as [us' e']. intros [= <- <-].
    destruct (IH _ _ eq_refl) as [? ?]. split; [|done]. constructor; [|done].
    by eapply flat_value_typed.
  - intros [= <- <-]. split; [done|]. intros ? [= <-]. by eapply flat_value_exn.
Qed.

(** C20. [deserialize] is total: on every text it returns or throws what a number
    conversion throws.  What it has stored by then is well typed: the alternative
    of every value is that of its type tag, integers fit, containers and arrays
    are null.  Reading the header only, it stores no value and never throws. *)
Theorem deserialize_typed data_str parse_only_header c :
  ∃ c' r, deserialize make_shared data_str parse_only_header c = Val (c', r) ∧
    Forall unit_typed (optimized_units_ c') ∧
    (parse_only_header = true → optimized_units_ c' = [] ∧ ∃ b, r = inl b) ∧
    (r = inl false → optimized_units_ c' = []) ∧
    (∀ e, r = inr e → ∃ fn, e = invalid_argument fn ∨ e = out_of_range fn).
Proof.
  rewrite deserialize_flat. destruct (read_text data_str parse_only_header c) as [c' r] eqn:E.
  exists c', r. split; [done|]. unfold read_text in E.
  destruct data_str as [|b s]; [injection E as <- <-; by split_and!; [constructor|eauto| |]|].
  unfold read_values in E. destruct (regex_search reData _) as [[[pre ps] t]|];
    [|injection E as <- <-; by split_and!; [constructor|eauto| |]].
  destruct parse_only_header; [injection E as <- <-; by split_and!; [constructor|eauto| |]|].
  destruct (flat_units _) as [us e] eqn:Eu. injection E as <- <-. simpl.
  apply flat_units_spec in Eu as [Ht He]. split_and!; [done|done|by destruct e|].
  intros x. destruct e; [intros [= <-]; auto|done].
Qed.

(** The equation of the source: the bound on the recursion into nested
    containers is no restriction, [deserialize] calls itself. *)
Theorem deserialize_equation data_str parse_only_header c :
  deserialize make_shared data_str parse_only_header c
  = deserialize_step make_shared (λ dataStr, deserialize make_shared dataStr false new)
      data_str parse_only_header c.
Proof. by rewrite deserialize_flat, deserialize_step_flat by apply deserialize_refuses. Qed.

End Reading.
