(* ===== verification/TextScan.v ===== *)
(** * What the readers find in a text written by the program

    The regular expressions, run on sections and items of the shape the writer
    gives them: a section is found as a whole ([section_found]), its items are
    found one by one ([matches_found], [item_run]), and a header pair likewise
    ([pair_run]). *)

From S2P Require Import Prelude Float Types Container Regex Numbers Text TextFacts.
Import text_reader.

(** ** Sections *)

(** A section's inside: one line, ending in [;] unless empty, without [};]. *)
Record inside_ok (content : text) : Prop := InsideOk {
  inside_dot : Forall (λ b, dot b = true) content;
  inside_open : starts_not (λ b, space b || bool_decide (b = x7b)) content;
  inside_end : content = [] ∨ ∃ q, content = q ++ [x3b];
  inside_once : occurs closing content = false }.

Definition section_text (w : string) (content : text) : text :=
  str_bytes w ++ [x7b; x7b] ++ content ++ [x7d; x7d; x3b].

Definition section_pieces (w : string) (content : text) : list text :=
  [str_bytes w; []; [x7b]; [x7b]; []; content; []; [x7d]; [x7d]; [x3b]].

Lemma semicolon_last sp o q k :
  Forall (λ b, space b = true) sp → o = [] ∨ o = [x7d] →
  sp ++ o ++ closing = (q ++ [x3b]) ++ k → k = [].
Proof.
  intros Hsp Ho E.
  assert (x3b ∉ sp ++ o ++ [x7d]) as Hn.
  { rewrite !not_elem_of_app. split_and!.
    - rewrite list.Forall_forall in Hsp. intros Hin. by apply Hsp in Hin.
    - destruct Ho as [->| ->]; [apply not_elem_of_nil|by intros ?%list_elem_of_singleton].
    - by intros ?%list_elem_of_singleton. }
  replace (sp ++ o ++ closing) with ((sp ++ o ++ [x7d]) ++ [x3b]) in E by by rewrite <-!app_assoc.
  rewrite <-(app_assoc q) in E. apply app_eq_inv in E as [(m & E1 & E)|(m & -> & E)].
  - destruct m as [|x m]; simpl in E; [by injection E as <-|]. injection E as <- E.
    destruct Hn. rewrite E1. apply elem_of_app. right. left.
  - destruct m as [|x [|y m]]; simpl in E; [by injection E as <-|done..].
Qed.

(** The end of a section is not found inside it. *)
Lemma section_tail_later q2 rest :
  q2 ≠ [] → (∃ q, q2 = q ++ [x3b]) → occurs closing q2 = false →
  run section_tail (q2 ++ rest) = None.
Proof.
  intros Hne (q & ->) Hocc. destruct (run section_tail _) as [[ps t]|] eqn:E; [|done].
  apply run_sound in E as [E Hps]. apply section_tail_pieces in Hps as (sp & o & Hsp & Ho & Et).
  rewrite Et in E. rewrite occurs_false in Hocc.
  apply app_eq_inv in E as [(m & E & _)|(m & E & ->)].
  - rewrite E in Hocc. destruct (Hocc (sp ++ o) m). by rewrite <-!app_assoc.
  - pose proof (semicolon_last _ _ _ _ Hsp Ho E) as ->. rewrite app_nil_r in E.
    rewrite <-E in Hocc. destruct (Hocc (sp ++ o) []). by rewrite app_nil_r, <-!app_assoc.
Qed.

Lemma run_star_nil p r s ps t :
  starts_not p s → run r s = Some (ps, t) → run (Star p :: r) s = Some ([] :: ps, t).
Proof. intros ??. by apply (greedy_all p (run r) []). Qed.

Lemma run_lit l r s ps t : run r s = Some (ps, t) → run (Lit l :: r) (l ++ s) = Some (l :: ps, t).
Proof. intros E. cbn [run]. rewrite strip_self. simpl. by rewrite E. Qed.

Lemma run_opt b r s ps t :
  run r s = Some (ps, t) → run (Opt b :: r) (b :: s) = Some ([b] :: ps, t).
Proof. intros E. cbn [run]. by rewrite bool_decide_eq_true_2, E. Qed.

Lemma run_lazy p r q s ps t :
  Forall (λ b, p b = true) q → run r s = Some (ps, t) →
  (∀ a b, q = a ++ b → b ≠ [] → run r (b ++ s) = None) →
  run (Lazy p :: r) (q ++ s) = Some (q :: ps, t).
Proof. apply lazy_first. Qed.

Lemma run_plus p r q s ps t :
  q ≠ [] → Forall (λ b, p b = true) q → starts_not p s → run r s = Some (ps, t) →
  run (Plus p :: r) (q ++ s) = Some (q :: ps, t).
Proof.
  intros Hne Hq Hs E. destruct Hq as [|b q Hb Hq]; [done|]. simpl. rewrite Hb.
  by rewrite (greedy_all p (run r) q s ps t).
Qed.

Lemma section_run w content rest :
  inside_ok content →
  run (section_re w) (section_text w content ++ rest) = Some (section_pieces w content, rest).
Proof.
  intros [Hdot Hopen Hend Honce]. unfold section_re, section_text. rewrite <-!app_assoc.
  apply run_lit. apply run_star_nil; [done|].
  change ([x7b; x7b] ++ ?s) with ([x7b] ++ [x7b] ++ s). apply run_lit.
  assert (run (Star space :: Lazy dot :: section_tail) (content ++ [x7d; x7d; x3b] ++ rest)
    = Some (drop 4 (section_pieces w content), rest)) as E.
  { apply run_star_nil.
    { destruct content as [|b content]; [done|]. simpl in *. by destruct (space b). }
    apply run_lazy; [done|by simpl|]. intros a b -> Hb. apply section_tail_later; [done|..].
    - destruct Hend as [|(q & E)]; [by destruct a, b|].
      destruct (exists_last Hb) as (b' & x & ->). rewrite app_assoc in E.
      apply app_inj_tail in E as [_ ->]. by exists b'.
    - rewrite occurs_false in *. intros u v ->. apply (Honce (a ++ u) v).
      by rewrite <-!app_assoc. }
  by apply run_opt.
Qed.

(** A section behind a text without its first character. *)
Lemma section_found (w : string) x l pre content rest :
  str_bytes w = x :: l → x ∉ pre → inside_ok content →
  regex_search (section_re w) (pre ++ section_text w content ++ rest)
  = Some (pre, section_pieces w content, rest).
Proof.
  intros Hw Hpre Hin. pose proof (section_run w content rest Hin) as E.
  unfold section_re in *. rewrite Hw in *. by apply search_lit_skip.
Qed.

(** ** Iterating *)

(** A sequence of texts the pattern matches whatever follows. *)
Definition matched_texts (r : regex) (ts : list (text * list text)) : Prop :=
  Forall (λ tp, tp.1 ≠ [] ∧ ∀ rest, run r (tp.1 ++ rest) = Some (tp.2, rest)) ts.

Definition found (pre : text) (ts : list (text * list text)) : list (text * list text) :=
  match ts with
  | [] => []
  | tp :: ts => (pre, tp.2) :: ((λ tp, ([], tp.2)) <$> ts)
  end.

Lemma iterate_found x l r ts fuel pre post :
  matched_texts (Lit (x :: l) :: r) ts → x ∉ pre → x ∉ post → (length ts ≤ fuel)%nat →
  regex_iterate fuel (Lit (x :: l) :: r) (pre ++ concat ts.*1 ++ post) = found pre ts.
Proof.
  intros Hts Hpre Hpost. revert fuel pre Hpre.
  induction Hts as [|[t ps] ts [_ Ht] _ IH]; intros fuel pre Hpre Hf.
  - destruct fuel as [|fuel]; [done|]. cbn [regex_iterate].
    rewrite search_lit_none; [done|]. simpl. rewrite not_elem_of_app. by split.
  - destruct fuel as [|fuel]; [simpl in Hf; lia|]. cbn [regex_iterate fmap list_fmap concat fst].
    rewrite <-app_assoc. rewrite (search_lit_skip _ _ _ _ _ _ _ Hpre (Ht _)).
    cbn [found snd]. f_equal.
    rewrite <-(app_nil_l (concat _ ++ post)), IH; [|apply not_elem_of_nil|simpl in Hf; lia].
    by destruct ts.
Qed.

Lemma matches_found x l r ts pre post :
  matched_texts (Lit (x :: l) :: r) ts → x ∉ pre → x ∉ post →
  regex_matches (Lit (x :: l) :: r) (pre ++ concat ts.*1 ++ post) = found pre ts.
Proof.
  intros Hts Hpre Hpost. apply iterate_found; [done..|].
  rewrite !length_app. assert (length ts ≤ length (concat ts.*1))%nat; [|lia].
  clear -Hts. induction Hts as [|[t ps] ts [Ht _] _ IH]; [done|].
  cbn [fst fmap list_fmap concat length] in *. rewrite length_app.
  destruct t; [done|]. cbn [length]. lia.
Qed.

(** ** Items and header pairs *)

(** The end of an item, two characters that its data must not hold. *)
Definition item_end : text := [x5d; x3b].

Record data_ok (v : text) : Prop := DataOk {
  data_dot : Forall (λ b, dot b = true) v;
  data_once : occurs item_end v = false }.

Lemma data_run v rest :
  data_ok v → run [Lazy dot; Lit item_end] (v ++ item_end ++ rest) = Some ([v; item_end], rest).
Proof.
  intros [Hdot Hocc]. apply run_lazy; [done|by apply (run_lit item_end [])|].
  intros a b -> Hb. rewrite occurs_false in Hocc. cbn [run].
  destruct (strip item_end _) as [t|] eqn:E; [|done]. apply strip_app in E. unfold item_end in *.
  destruct b as [|y [|z b]]; [done|by simplify_eq/=|]. injection E as -> -> _.
  by destruct (Hocc a b).
Qed.

Definition word_ok (n : text) : Prop := n ≠ [] ∧ Forall (λ b, word b = true) n.

Lemma word_not_space b : word b = true → space b = false.
Proof. destruct b; vm_compute; congruence. Qed.

Definition item_text (n ty v : text) : text := [x5b] ++ n ++ [x2c] ++ ty ++ [x2c] ++ v ++ item_end.
Definition item_pieces (n ty v : text) : list text :=
  [[x5b]; n; [x2c]; []; ty; [x2c]; []; v; item_end].

Lemma item_run n ty v rest :
  word_ok n → word_ok ty → data_ok v → starts_not space v →
  run reItems (item_text n ty v ++ rest) = Some (item_pieces n ty v, rest).
Proof.
  intros [??] [Hty Hw] Hv Hs. unfold item_text. rewrite <-!app_assoc.
  apply run_lit, run_plus; [done..|]. apply run_lit, run_star_nil.
  { destruct Hw as [|b ty' Hb _]; [done|]. by apply word_not_space. }
  apply run_plus; [done..|]. apply run_lit, run_star_nil; [by destruct v|].
  by apply data_run.
Qed.

Definition pair_pieces (n v : text) : list text := [[x5b]; n; [x2c]; v; item_end].

Lemma pair_run n v rest :
  word_ok n → data_ok v →
  run pairRe (([x5b] ++ n ++ [x2c] ++ v ++ item_end) ++ rest) = Some (pair_pieces n v, rest).
Proof.
  intros [??] Hv. rewrite <-!app_assoc.
  apply run_lit, run_plus; [done..|]. apply run_lit. by apply data_run.
Qed.
