(* ===== verification/TextRoundtrip.v ===== *)
(** * Round trip of the text format

    [header_ok] and [unit_ok] are the containers the text format can express;
    [unit_norm] and [header_norm] are what it makes of them: floating point is
    rounded to the six printed decimals, the contents of bytes, containers and
    arrays are not written, and a header without a message type of its own
    loses its ids. *)

From S2P Require Import Prelude Float Types Container Regex Numbers Decimal.
From S2P Require Import ContainerMsgpack Text TextFacts TextScan.
Import value_container text_reader binary_serializer.

(** ** What survives *)

Section Norm.
Context {C : Type}.

Definition variant_norm (v : variant (option C) (option (list (value_variant C))))
    : variant (option C) (option (list (value_variant C))) :=
  match v with
  | V_float b => V_float (printed f32 (f32_to_f64 b))
  | V_double d => V_double (printed f64 d)
  | V_bytes _ => V_bytes []
  | V_container _ | V_array _ => V_null
  | v => v
  end.

Definition unit_norm (u : optimized_value C) : optimized_value C :=
  Optimized (name u) (type u) (Vv (variant_norm (vv (data u)))).

(** A text on one line in which no item and no section ends. *)
Definition line_ok (v : text) : bool :=
  bool_decide (Forall (λ b, dot b = true) v) && negb (occurs item_end v) &&
  negb (occurs closing v).

Definition string_ok (v : text) : bool :=
  line_ok v && match v with b :: _ => negb (space b) | [] => true end.

(** A name of letters, digits and underscores, the tag of the alternative, and a
    value of its type; a string must be recognizable. *)
Definition unit_ok (u : optimized_value C) : bool :=
  bool_decide (word_ok (str_bytes (name u))) &&
  bool_decide (type u = index_type (data u)) &&
  match vv (data u) with
  | V_short z => s_ok 16 z | V_ushort z => u_ok 16 z
  | V_int z => s_ok 32 z | V_uint z => u_ok 32 z
  | V_long z | V_llong z => s_ok 64 z
  | V_ulong z | V_ullong z => u_ok 64 z
  | V_float z => u_ok 32 z | V_double z => u_ok 64 z
  | V_string s => string_ok (str_bytes s)
  | _ => true
  end.

(** A header field: no blank at either end, and not the word that opens the data. *)
Definition field_ok (f : string) : bool :=
  line_ok (str_bytes f) && negb (occurs (str_bytes "@data=") (str_bytes f)) &&
  bool_decide (trim (str_bytes f) = str_bytes f).

Definition typed (h : header) : bool := negb (bool_decide (message_type_ h = "data_container"%string)).

Definition header_ok (h : header) : bool :=
  field_ok (message_type_ h) && field_ok (version_ h) &&
  (negb (typed h) ||
   field_ok (target_id_ h) && field_ok (target_sub_id_ h) &&
   field_ok (source_id_ h) && field_ok (source_sub_id_ h)).

Definition header_norm (h : header) : header :=
  if typed h then h else Header "" "" "" "" (message_type_ h) (version_ h).

Definition text_ok (c : t C) : bool :=
  parsed_data_ c && header_ok (header_ c) && forallb unit_ok (optimized_units_ c).
End Norm.

(** ** Texts of values *)

(** Characters of printed numbers and booleans. *)
Definition plain (b : byte) : bool := word b || bool_decide (b = x2d) || bool_decide (b = x2e).

Lemma plain_dot b : plain b = true → dot b = true.
Proof. by destruct b. Qed.

Lemma plain_string_ok v : Forall (λ b, plain b = true) v → string_ok v = true.
Proof.
  intros Hv. assert (∀ x pat, plain x = false → occurs (x :: pat) v = false) as Hocc.
  { intros x pat Hx. apply occurs_false. intros a b ->.
    rewrite list.Forall_forall in Hv. rewrite Hv in Hx; [done|].
    apply elem_of_app. right. left. }
  unfold string_ok, line_ok, item_end, closing. rewrite !Hocc by done. rewrite bool_decide_eq_true_2.
  - destruct Hv as [|b v Hb _]; [done|]. simpl. by destruct b.
  - eapply list.Forall_impl; [exact Hv|]. apply plain_dot.
Qed.

Lemma digit_plain b : digit b = true → plain b = true.
Proof. by destruct b. Qed.

Lemma digits_plain n ds : digits_of n ds → Forall (λ b, plain b = true) ds.
Proof. intros [H _]. eapply list.Forall_impl; [exact H|]. apply digit_plain. Qed.

Lemma to_string_plain z : Forall (λ b, plain b = true) (str_bytes (to_string z)).
Proof.
  destruct (to_string_digits z) as (ds & -> & Hds & _). apply Forall_app. split.
  - case_match; by repeat constructor.
  - by eapply digits_plain.
Qed.

Lemma to_string_f64_plain d : Forall (λ b, plain b = true) (str_bytes (to_string_f64 d)).
Proof.
  unfold to_string_f64. rewrite str_bytes_app. apply Forall_app. split.
  { case_match; by repeat constructor. }
  case_match; [case_match; by repeat constructor|].
  rewrite !str_bytes_app. apply Forall_app. split; [apply to_string_plain|].
  constructor; [done|].
  apply (digits_plain (millionths d mod 10 ^ 6)), pad6_digits. by apply Z.mod_pos_bound.
Qed.

Lemma string_ok_data v :
  string_ok v = true → data_ok v ∧ starts_not space v ∧ occurs closing v = false.
Proof.
  unfold string_ok, line_ok. rewrite !andb_true_iff, !negb_true_iff, bool_decide_eq_true.
  intros [[[? ?] ?] ?]. split_and!; [done| |done]. destruct v as [|b v]; [done|].
  by apply negb_true_iff.
Qed.

(** [dataStr] of a representable value, and what it is read as. *)
Lemma unit_value {C} (u : optimized_value C) :
  unit_ok u = true →
  ∃ v, variant_helpers.to_string (data u) (type u) = Some v ∧ string_ok v = true.
Proof.
  unfold unit_ok. rewrite !andb_true_iff, !bool_decide_eq_true. intros [[_ ->] Hv].
  destruct u as [n ty [v]]. unfold index_type. simpl in *.
  destruct v; simpl in *; (eexists; split; [reflexivity|]);
    try done; apply plain_string_ok; auto using to_string_plain, to_string_f64_plain.
  by destruct b; repeat constructor.
Qed.

Lemma unit_value_read {C} (make_shared : t C → C) u v :
  unit_ok u = true → variant_helpers.to_string (data u) (type u) = Some v →
  flat_value make_shared (type u) v = inl (data (unit_norm u)).
Proof.
  unfold unit_ok. rewrite !andb_true_iff, !bool_decide_eq_true. intros [[_ ->] Hv].
  destruct u as [n ty [w]]. unfold index_type, unit_norm. simpl in *.
  destruct w; simpl in *; unfold s_ok, u_ok in Hv;
    rewrite ?andb_true_iff, ?Z.leb_le, ?Z.ltb_lt in Hv; intros [= <-];
    unfold flat_value; simpl;
    rewrite ?stod_to_string, ?stof_to_string by done; try done.
  all: unfold stoi, stol, stoll, stoul, stoull.
  all: rewrite ?sto_signed_to_string, ?sto_unsigned_to_string by lia.
  all: simpl; rewrite ?bytes_str_bytes, ?swrap_small, ?wrap_small by lia; try done.
  all: by destruct b.
Qed.

(** ** The data section *)

Lemma line_ok_spec v :
  line_ok v = true ↔
  Forall (λ b, dot b = true) v ∧ occurs item_end v = false ∧ occurs closing v = false.
Proof. unfold line_ok. rewrite !andb_true_iff, !negb_true_iff, bool_decide_eq_true. tauto. Qed.

Lemma word_dot b : word b = true → dot b = true.
Proof. by destruct b. Qed.

Lemma word_no_closing w : Forall (λ b, word b = true) w → occurs closing w = false.
Proof.
  intros Hw. apply occurs_false. intros a b ->. rewrite list.Forall_forall in Hw.
  discriminate (Hw x7d ltac:(apply elem_of_app; right; left)).
Qed.

Lemma not_in_closing c : bool_decide (c ∉ closing) = true → c ∉ closing.
Proof. intros H. by apply bool_decide_eq_true in H. Qed.

(** Pieces between brackets and commas: an item, a header pair. *)
Fixpoint bracketed (fields : list text) : text :=
  match fields with
  | [] => item_end
  | [f] => f ++ item_end
  | f :: fields => f ++ x2c :: bracketed fields
  end.

Lemma bracketed_no_closing pre fields rest :
  occurs closing pre = false → Forall (λ f, occurs closing f = false) fields →
  occurs closing rest = false → (∃ r, rest = x5b :: r) ∨ rest = [] →
  occurs closing (pre ++ x5b :: bracketed fields ++ rest) = false.
Proof.
  intros Hpre Hf Hrest Hr.
  apply occurs_sep; [by apply not_in_closing|done|].
  assert (occurs closing (x3b :: rest) = false) as Hend.
  { destruct Hr as [(r & ->)| ->]; [|done].
    change (x3b :: x5b :: r) with ([x3b] ++ x5b :: r).
    apply occurs_sep; [by apply not_in_closing|done|].
    rewrite occurs_false in *. intros a b ->. by apply (Hrest (x5b :: a) b). }
  clear Hr Hrest Hpre pre.
  assert (∀ f, occurs closing f = false → occurs closing ((f ++ item_end) ++ rest) = false) as Hlast.
  { intros f Hf'. rewrite <-app_assoc. by apply occurs_sep; [apply not_in_closing|..]. }
  induction Hf as [|f fields Hf' Hfs IH]; [by apply (Hlast [])|].
  destruct fields as [|g fields]; [by apply Hlast|].
  cbn [bracketed]. rewrite <-app_assoc. by apply occurs_sep; [apply not_in_closing|..].
Qed.

Lemma bracketed_dot fields :
  Forall (Forall (λ b, dot b = true)) fields → Forall (λ b, dot b = true) (x5b :: bracketed fields).
Proof.
  intros H. constructor; [done|]. induction H as [|f fields Hf Hfs IH]; [by repeat constructor|].
  destruct fields as [|g fields]; cbn [bracketed].
  - apply Forall_app. split; [done|by repeat constructor].
  - apply Forall_app. split; [done|by constructor].
Qed.

(** A sequence of bracketed items is the inside of a section. *)
Lemma bracketed_inside (items : list (list text)) :
  Forall (λ fields, Forall (λ f, Forall (λ b, dot b = true) f ∧ occurs closing f = false) fields)
    items →
  inside_ok (concat ((λ fields, x5b :: bracketed fields) <$> items)).
Proof.
  intros Hitems.
  set (body := λ items : list (list text), concat ((λ fields, x5b :: bracketed fields) <$> items)).
  change (inside_ok (body items)).
  assert ((∃ r, body items = x5b :: r) ∨ body items = []) as Hhead.
  { destruct items; [by right|left]. by eexists. }
  split.
  - clear Hhead. induction Hitems as [|fields items Hf _ IH]; [done|]. unfold body. simpl.
    apply (Forall_app _ (x5b :: bracketed fields)). split; [|exact IH]. apply bracketed_dot.
    eapply list.Forall_impl; [exact Hf|]. by intros ? [? _].
  - by destruct Hhead as [(r & ->)| ->].
  - clear Hhead. induction Hitems as [|fields items Hf _ IH]; [by left|right].
    unfold body in *. cbn [fmap list_fmap concat].
    destruct IH as [->|(q & ->)]; [rewrite app_nil_r|eexists; by rewrite app_assoc].
    assert (∃ q, bracketed fields = q ++ [x3b]) as (q & ->); [|by exists (x5b :: q)].
    clear. induction fields as [|f fields (q & IH)]; [by exists [x5d]|].
    destruct fields as [|g fields]; cbn [bracketed] in *.
    + exists (f ++ [x5d]). by rewrite <-app_assoc.
    + rewrite IH. exists (f ++ x2c :: q). by rewrite <-app_assoc.
  - clear Hhead. induction Hitems as [|fields items Hf _ IH]; [done|].
    unfold body in *. cbn [fmap list_fmap concat].
    apply (bracketed_no_closing []); [done| |exact IH|].
    + eapply list.Forall_impl; [exact Hf|]. by intros ? [_ ?].
    + destruct items; [by right|left]. by eexists.
Qed.

(** ** The values of a container *)

Section Values.
Context {C : Type}.
Implicit Types (u : optimized_value C) (us : list (optimized_value C)).

Definition unit_fields u : list text :=
  [str_bytes (name u); str_bytes (get_string_from_type (type u));
   default [] (variant_helpers.to_string (data u) (type u))].

Definition unit_item u : text := x5b :: bracketed (unit_fields u).

Definition unit_pieces u : list text :=
  item_pieces (str_bytes (name u)) (str_bytes (get_string_from_type (type u)))
    (default [] (variant_helpers.to_string (data u) (type u))).

Definition data_text us : text := section_text "@data=" (concat (unit_item <$> us)).

Lemma type_word ty : word_ok (str_bytes (get_string_from_type ty)).
Proof. destruct ty; by apply (bool_decide_unpack _); vm_compute. Qed.

Lemma unit_name u : unit_ok u = true → word_ok (str_bytes (name u)).
Proof. unfold unit_ok. rewrite !andb_true_iff, !bool_decide_eq_true. tauto. Qed.

Lemma unit_text_item u : unit_ok u = true → unit_text u = Some (unit_item u).
Proof.
  intros Hu. destruct (unit_value u Hu) as (v & Ev & _).
  unfold unit_text, unit_item, unit_fields. by rewrite Ev.
Qed.

Lemma unit_run u rest :
  unit_ok u = true → run reItems (unit_item u ++ rest) = Some (unit_pieces u, rest).
Proof.
  intros Hu. destruct (unit_value u Hu) as (v & Ev & Hv).
  destruct (string_ok_data v Hv) as (? & ? & _).
  unfold unit_item, unit_fields, unit_pieces. rewrite Ev.
  apply item_run; auto using unit_name, type_word.
Qed.

Lemma units_inside us : forallb unit_ok us = true → inside_ok (concat (unit_item <$> us)).
Proof.
  intros Hus.
  replace (unit_item <$> us) with ((λ f, x5b :: bracketed f) <$> (unit_fields <$> us))
    by by rewrite <-list_fmap_compose.
  apply bracketed_inside. apply Forall_fmap. apply forallb_Forall in Hus.
  eapply list.Forall_impl; [exact Hus|]. intros u Hu.
  destruct (unit_value u Hu) as (v & Ev & Hv).
  unfold compose, unit_fields. rewrite Ev.
  destruct (string_ok_data v Hv) as ([? _] & _ & ?).
  pose proof (unit_name u Hu) as [_ Hn]. pose proof (type_word (type u)) as [_ Ht].
  assert (∀ w, Forall (λ b, word b = true) w →
    Forall (λ b, dot b = true) w ∧ occurs closing w = false) as Hw.
  { intros w Hww. split; [|by apply word_no_closing]. eapply list.Forall_impl; [exact Hww|].
    apply word_dot. }
  constructor; [by apply Hw|]. constructor; [by apply Hw|]. by constructor.
Qed.

Lemma datas_text (c : t C) :
  parsed_data_ c = true → forallb unit_ok (optimized_units_ c) = true →
  datas c = Some (data_text (optimized_units_ c)).
Proof.
  intros Hp Hus. unfold datas. rewrite Hp. cbn [negb].
  assert (mapM unit_text (optimized_units_ c) = Some (unit_item <$> optimized_units_ c)) as ->; [|done].
  apply mapM_Some. revert Hus. generalize (optimized_units_ c). intros us.
  induction us as [|u us IH]; simpl; [constructor|]. intros [Hu Hus]%andb_true_iff.
  constructor; [by apply unit_text_item|auto].
Qed.

(** The items are found again, and read as the normalized values. *)
Definition unit_texts us : list (text * list text) := (λ u, (unit_item u, unit_pieces u)) <$> us.

Lemma units_found us pre post :
  forallb unit_ok us = true → x5b ∉ pre → x5b ∉ post →
  regex_matches reItems (pre ++ concat (unit_item <$> us) ++ post) = found pre (unit_texts us).
Proof.
  intros Hus Hpre Hpost.
  replace (unit_item <$> us) with (unit_texts us).*1
    by (unfold unit_texts; by rewrite <-list_fmap_compose).
  apply matches_found; [|done..]. apply Forall_fmap. apply forallb_Forall in Hus.
  eapply list.Forall_impl; [exact Hus|]. intros u Hu. split; [done|].
  intros rest. by apply unit_run.
Qed.

Lemma items_read (make_shared : t C → C) us :
  forallb unit_ok us = true →
  flat_units make_shared (regex_matches reItems (data_text us)) = (unit_norm <$> us, None).
Proof.
  intros Hus.
  replace (data_text us) with (str_bytes "@data={{" ++ concat (unit_item <$> us) ++ [x7d; x7d; x3b])
    by done.
  rewrite units_found by (done || by apply (bool_decide_unpack _); vm_compute).
  generalize (str_bytes "@data={{"). induction us as [|u us IH]; intros pre; [done|].
  apply andb_true_iff in Hus as [Hu Hus]. specialize (IH Hus).
  cbn [unit_texts fmap list_fmap found snd flat_units unit_pieces item_pieces group nth].
  destruct (unit_value u Hu) as (v & Ev & _). pose proof (unit_value_read make_shared u v Hu Ev) as Hf.
  rewrite Ev. change (default [] (Some v)) with v.
  rewrite !bytes_str_bytes, (proj1 type_names_roundtrip), Hf.
  replace ((λ tp : text * list text, ([] : text, tp.2)) <$>
    ((λ u, (unit_item u, unit_pieces u)) <$> us)) with (found [] (unit_texts us)) by by destruct us.
  rewrite IH. by destruct u.
Qed.
End Values.

(** ** The header *)

Definition header_fields (h : header) : list (Z * string) :=
  (if typed h then
     [(TARGET_ID, target_id_ h); (TARGET_SUB_ID, target_sub_id_ h);
      (SOURCE_ID, source_id_ h); (SOURCE_SUB_ID, source_sub_id_ h)] else []) ++
  [(MESSAGE_TYPE, message_type_ h); (MESSAGE_VERSION, version_ h)].

Definition pair_item (p : Z * string) : text :=
  x5b :: bracketed [str_bytes (to_string p.1); str_bytes p.2].

Lemma header_text_section h :
  header_text h = section_text "@header=" (concat (pair_item <$> header_fields h)).
Proof.
  assert (∀ id f, pair_text id f = pair_item (id, f)) as Hp by done.
  unfold header_text, header_fields, typed, section_text. rewrite !Hp.
  change (str_bytes "@header={{") with (str_bytes "@header=" ++ [x7b; x7b]).
  change (str_bytes "}};") with [x7d; x7d; x3b].
  destruct (bool_decide (message_type_ h = "data_container"%string));
    cbn [negb app fmap list_fmap concat]; by rewrite ?app_nil_r, <-!app_assoc.
Qed.

Definition id_ok (id : Z) : Prop := word_ok (str_bytes (to_string id)).

Lemma header_fields_ok h :
  header_ok h = true → Forall (λ p, id_ok p.1 ∧ field_ok p.2 = true) (header_fields h).
Proof.
  unfold header_ok. intros H. apply andb_prop in H as [[Ht Hv]%andb_prop Hr].
  unfold header_fields.
  assert (∀ id : Z, bool_decide (id ∈ [1; 2; 3; 4; 5; 6]) = true → id_ok id) as Hid.
  { intros id Hin%bool_decide_eq_true. unfold id_ok.
    repeat (apply elem_of_cons in Hin as [->|Hin]; [by apply (bool_decide_unpack _); vm_compute|]).
    by apply not_elem_of_nil in Hin. }
  destruct (typed h); simpl in Hr; [|by repeat constructor; try apply Hid].
  apply andb_prop in Hr as [[[? ?]%andb_prop ?]%andb_prop ?].
  by repeat constructor; try apply Hid.
Qed.

Lemma field_ok_spec f :
  field_ok f = true ↔
  line_ok (str_bytes f) = true ∧ occurs (str_bytes "@data=") (str_bytes f) = false ∧
  trim (str_bytes f) = str_bytes f.
Proof. unfold field_ok. rewrite !andb_true_iff, negb_true_iff, bool_decide_eq_true. tauto. Qed.

Lemma header_inside h : header_ok h = true → inside_ok (concat (pair_item <$> header_fields h)).
Proof.
  intros Hh. apply header_fields_ok in Hh. unfold pair_item.
  replace ((λ p : Z * string, x5b :: bracketed [str_bytes (to_string p.1); str_bytes p.2])
           <$> header_fields h)
    with ((λ f, x5b :: bracketed f) <$>
          ((λ p : Z * string, [str_bytes (to_string p.1); str_bytes p.2]) <$> header_fields h))
    by by rewrite <-list_fmap_compose.
  apply bracketed_inside, Forall_fmap. eapply list.Forall_impl; [exact Hh|].
  intros [id f] [[_ Hid] [Hf _]%field_ok_spec]. apply line_ok_spec in Hf as (? & _ & ?).
  simpl in *. constructor; [|by repeat constructor]. split; [|by apply word_no_closing].
  eapply list.Forall_impl; [exact Hid|]. apply word_dot.
Qed.

Lemma not_in_word c : bool_decide (c ∉ str_bytes "@data=") = true → c ∉ str_bytes "@data=".
Proof. intros H. by apply bool_decide_eq_true in H. Qed.

(** The header does not hold the word that opens the data. *)
Lemma header_no_data h :
  header_ok h = true →
  occurs (str_bytes "@data=") (str_bytes "@header={{" ++ concat (pair_item <$> header_fields h) ++ str_bytes "}};")
  = false.
Proof.
  intros Hh. apply header_fields_ok in Hh.
  assert (∀ pre, occurs (str_bytes "@data=") pre = false →
    occurs (str_bytes "@data=") (pre ++ x7b :: concat (pair_item <$> header_fields h)
                                 ++ str_bytes "}};") = false) as H; [|by apply (H (str_bytes "@header={"))].
  intros pre Hpre. apply occurs_sep; [by apply not_in_word|done|]. clear Hpre pre.
  induction Hh as [|[id f] ps [[_ Hid] [_ [Hf _]]%field_ok_spec] _ IH]; [done|].
  simpl in Hid, Hf.
  assert (concat (pair_item <$> (id, f) :: ps) ++ str_bytes "}};" =
    [] ++ x5b :: (str_bytes (to_string id) ++ x2c :: (str_bytes f ++ x5d :: ([] ++ x3b ::
      (concat (pair_item <$> ps) ++ str_bytes "}};"))))) as ->.
  { cbn [fmap list_fmap concat]. unfold pair_item at 1. cbn [bracketed fst snd].
    unfold item_end. by repeat first [rewrite <-app_assoc | progress cbn [app]]. }
  apply occurs_sep; [by apply not_in_word|done|].
  apply occurs_sep; [by apply not_in_word| |].
  - apply occurs_false. intros a b E. rewrite E in Hid. rewrite list.Forall_forall in Hid.
    discriminate (Hid x40 ltac:(apply elem_of_app; right; left)).
  - by repeat (apply occurs_sep; [by apply not_in_word|done|]).
Qed.

(** Folding the pairs of the header over a fresh one. *)
Lemma header_read h h0 :
  header_ok h = true → source_id_ h0 = ""%string → source_sub_id_ h0 = ""%string →
  target_id_ h0 = ""%string → target_sub_id_ h0 = ""%string →
  parse_header (concat (pair_item <$> header_fields h)) h0 = header_norm h.
Proof.
  intros Hh. pose proof (header_fields_ok h Hh) as Hf. unfold parse_header.
  set (ts := (λ p : Z * string,
    (pair_item p, pair_pieces (str_bytes (to_string p.1)) (str_bytes p.2))) <$> header_fields h).
  assert (concat (pair_item <$> header_fields h) = [] ++ concat ts.*1 ++ []) as ->.
  { unfold ts. by rewrite app_nil_r, <-list_fmap_compose. }
  unfold pairRe. rewrite matches_found; [| |apply not_elem_of_nil..].
  2:{ unfold ts. apply Forall_fmap. eapply list.Forall_impl; [exact Hf|].
      intros [id f] [Hid [Hl _]%field_ok_spec]. apply line_ok_spec in Hl as (? & ? & _).
      split; [done|]. intros rest. by apply pair_run. }
  destruct h0 as [a b c d e v]. simpl. intros -> -> -> ->.
  unfold header_norm, ts, header_fields in *. clear ts Hh.
  destruct h as [sid ssub tid tsub ty ve]. cbn [typed message_type_ source_id_ source_sub_id_
    target_id_ target_sub_id_ version_] in *.
  assert (∀ f, field_ok f = true → bytes_str (trim (str_bytes f)) = f) as Ht.
  { intros f (_ & _ & ->)%field_ok_spec. apply bytes_str_bytes. }
  unfold typed in *. cbn [message_type_] in *.
  destruct (bool_decide (ty = "data_container"%string)); cbn [negb app fmap list_fmap] in *.
  - apply list.Forall_cons in Hf as [[_ Hty] Hf]. apply list.Forall_cons in Hf as [[_ Hve] _].
    cbn [found fold_left fmap list_fmap snd fst]. unfold parse_pair, parsing.
    cbn [group nth snd pair_pieces source_id_ source_sub_id_ target_id_ target_sub_id_
      message_type_ version_].
    repeat (rewrite bool_decide_eq_false_2 by (by vm_compute) ||
            rewrite bool_decide_eq_true_2 by (by vm_compute)).
    simpl in Hty, Hve. by rewrite !Ht.
  - repeat (apply list.Forall_cons in Hf as [[_ ?] Hf]). simpl in *.
    unfold parse_pair, parsing.
    cbn [group nth snd pair_pieces source_id_ source_sub_id_ target_id_ target_sub_id_
      message_type_ version_].
    repeat (rewrite bool_decide_eq_false_2 by (by vm_compute) ||
            rewrite bool_decide_eq_true_2 by (by vm_compute)).
    by rewrite !Ht.
Qed.

(** ** The whole text *)

Section Whole.
Context {C : Type}.
Implicit Types (c : t C).

Lemma inside_section_dot w content :
  inside_ok content → Forall (λ b, dot b = true) (str_bytes w) →
  Forall (λ b, dot b = true) (section_text w content).
Proof.
  intros [Hdot _ _ _] Hw. unfold section_text.
  repeat (apply Forall_app; split); try done; by repeat constructor.
Qed.

Definition text_of c : text := header_text (header_ c) ++ data_text (optimized_units_ c).

Lemma text_ok_spec c :
  text_ok c = true ↔
  parsed_data_ c = true ∧ header_ok (header_ c) = true ∧
  forallb unit_ok (optimized_units_ c) = true.
Proof. unfold text_ok. rewrite !andb_true_iff. tauto. Qed.

Lemma text_written c : text_ok c = true → serialize_to_string c = Some (text_of c).
Proof.
  intros (Hp & _ & Hus)%text_ok_spec. unfold serialize_to_string.
  by rewrite datas_text.
Qed.

Lemma text_plain c : text_ok c = true → Forall (λ b, dot b = true) (text_of c).
Proof.
  intros (_ & Hh & Hus)%text_ok_spec. unfold text_of. apply Forall_app. split.
  - rewrite header_text_section. apply inside_section_dot; [by apply header_inside|].
    by repeat constructor.
  - apply inside_section_dot; [by apply units_inside|by repeat constructor].
Qed.

Lemma text_header_found c :
  text_ok c = true →
  ∃ rest, regex_search fullRe (text_of c) =
    Some ([], section_pieces "@header=" (concat (pair_item <$> header_fields (header_ c))), rest).
Proof.
  intros (_ & Hh & _)%text_ok_spec. unfold text_of. rewrite header_text_section. eexists.
  by apply (section_found "@header=" x40 (str_bytes "header=") []);
    [|apply not_elem_of_nil|apply header_inside].
Qed.

Lemma text_data_found c :
  text_ok c = true →
  regex_search reData (text_of c) =
    Some (header_text (header_ c),
          section_pieces "@data=" (concat (unit_item <$> optimized_units_ c)), []).
Proof.
  intros (_ & Hh & Hus)%text_ok_spec. unfold text_of.
  rewrite <-(app_nil_r (data_text _)).
  pose proof (header_no_data _ Hh) as Hocc. rewrite header_text_section.
  assert (∀ s, section_text "@header=" s = (str_bytes "@header={{" ++ s ++ [x7d; x7d]) ++ [x3b]) as E.
  { intros s. unfold section_text. by rewrite <-!app_assoc. }
  rewrite E. unfold reData, section_re. apply search_word_skip.
  - by apply not_in_word.
  - by rewrite <-!app_assoc.
  - apply (section_run "@data="). by apply units_inside.
Qed.

Context (make_shared : t C → C).

(** What the reader makes of it, eagerly and lazily. *)
Definition restored (parse_only_header : bool) c c0 : t C :=
  let data := bytes_str (data_text (optimized_units_ c)) in
  with_data (negb parse_only_header) false data
    (with_units (if parse_only_header then [] else unit_norm <$> optimized_units_ c)
       (with_header (header_norm (header_ c)) (initialize c0))).

Lemma text_read parse_only_header c c0 :
  text_ok c = true →
  read_text make_shared (text_of c) parse_only_header c0
  = (restored parse_only_header c c0, inl true).
Proof.
  intros Hok. unfold read_text.
  destruct (text_of c) as [|b s] eqn:Et.
  { unfold text_of, header_text in Et. by destruct (str_bytes "@header={{") eqn:?. }
  rewrite <-Et. clear b s Et. rewrite remove_newlines_plain by by apply text_plain.
  destruct (text_header_found c Hok) as [rest ->]. unfold read_values.
  rewrite text_data_found by done. apply text_ok_spec in Hok as (_ & Hh & Hus).
  assert (whole (section_pieces "@data=" (concat (unit_item <$> optimized_units_ c)))
    = data_text (optimized_units_ c)) as -> by done.
  rewrite (items_read make_shared) by done.
  assert (parse_header (group (section_pieces "@header="
      (concat (pair_item <$> header_fields (header_ c)))) 5) (header_ (initialize c0))
    = header_norm (header_ c)) as -> by by apply header_read.
  by destruct parse_only_header.
Qed.

Lemma header_text_norm h : header_text (header_norm h) = header_text h.
Proof.
  unfold header_norm, typed. destruct (bool_decide (message_type_ h = "data_container"%string)) eqn:E;
    [|done]. simpl. unfold header_text. simpl. by rewrite E.
Qed.

(** A copy made with the default arguments is not parsed: it has no value of
    its own and answers no key, yet serializes like the original; a value set on
    it does not reach its text, and the first removal forgets that value. *)
Theorem copy_is_unparsed c :
  text_ok c = true →
  ∃ c', text_container.copy make_shared c true = Val (inl c') ∧
    (∀ key, get key c' = None) ∧
    serialize_to_string c' = serialize_to_string c ∧
    ∀ val, get (name val) (set_value val c') = Some val ∧
      serialize_to_string (set_value val c') = serialize_to_string c ∧
      ∀ key, ∃ c2 n, text_container.remove_batch make_shared [key] (set_value val c')
        = Val (c2, inl n) ∧
        optimized_units_ c2 = filter (λ u, name u ∉ [key]) (unit_norm <$> optimized_units_ c).
Proof.
  intros Hok. exists (restored true c new). split_and!; [|done|..].
  - unfold text_container.copy. rewrite text_written by done.
    by rewrite deserialize_flat, text_read.
  - rewrite (text_written c) by done.
    transitivity (Some (header_text (header_norm (header_ c)) ++
      str_bytes (bytes_str (data_text (optimized_units_ c))))); [done|].
    by rewrite str_bytes_str, header_text_norm.
  - intros val. assert (set_value val (restored true c new)
      = count_allocation val (with_changed (with_units [val] (restored true c new)))) as E by done.
    rewrite E. unfold count_allocation.
    set (c1 := if use_soo_ _ && _ then _ else _).
    assert (optimized_units_ c1 = [val] ∧ parsed_data_ c1 = false ∧
      data_string_ c1 = bytes_str (data_text (optimized_units_ c)) ∧
      header_ c1 = header_norm (header_ c)) as (Hu & Hp & Hd & Hh).
    { unfold c1. by destruct (use_soo_ _ && _). }
    clearbody c1. clear E. split_and!.
    + unfold get. rewrite Hu. simpl. by rewrite bool_decide_eq_true_2.
    + rewrite (text_written c) by done. unfold serialize_to_string, datas, text_of.
      rewrite Hp, Hd, Hh. cbn [negb]. by rewrite str_bytes_str, header_text_norm.
    + intros key. unfold text_container.remove_batch, text_container.ensure_parsed.
      rewrite bool_decide_eq_false_2, Hp, Hd, str_bytes_str, deserialize_values_eq by done.
      apply text_ok_spec in Hok as (_ & _ & Hus).
      unfold read_values. pose proof (section_found "@data=" x40 (str_bytes "data=") []
        (concat (unit_item <$> optimized_units_ c)) [] eq_refl (not_elem_of_nil _)
        (units_inside _ Hus)) as Hs.
      rewrite app_nil_r, app_nil_l in Hs. unfold reData, data_text. rewrite Hs.
      assert (whole (section_pieces "@data=" (concat (unit_item <$> optimized_units_ c)))
        = data_text (optimized_units_ c)) as -> by done.
      rewrite (items_read make_shared) by done. simpl.
      eexists _, _. split; [reflexivity|]. by case_match.
Qed.
End Whole.

(** A container with a header of its own, a number, a text and a fraction. *)
Definition written_sample : t ctree :=
  set "n" (Vv (V_int (-5))) (set "s" (Vv (V_string "a, b")) (set "d" (Vv (V_double 4607182418800017408))
    (set_message_type "order" (set_target "t1" "t2" new)))).

Lemma copy_is_unparsed_witness :
  text_ok written_sample = true ∧
  ∃ c', text_container.copy Node written_sample true = Val (inl c') ∧ ∀ key, get key c' = None.
Proof.
  split; [vm_compute; reflexivity|].
  destruct (copy_is_unparsed Node written_sample) as (c' & E & Hget & _).
  - vm_compute. reflexivity.
  - exists c'. split; assumption.
Defined.
