(* ===== verification/TextViews.v ===== *)
(** * Lazy containers: views, termination on bad numbers, what is not reset

    [get(key, as_view)] on a container constructed from a text stays inside the
    text, which [deserialize] does not renew ([views_frozen]), and shows what the
    writer wrote ([written_view]).  An exception of [deserialize] that leaves
    [deserialize_result] ends the program ([bad_number_terminates]). *)

From S2P Require Import Prelude Float Types ErrorCodes Container Regex Numbers.
From S2P Require Import ContainerMsgpack Text TextFacts TextScan TextRoundtrip.
Import value_container text_reader text_container binary_serializer.

(** ** Views stay in the text *)

Section Bounds.

(** The value of an entry lies below [n]. *)
Definition entry_in (n : Z) (e : value_index_entry) : Prop :=
  0 ≤ value_offset e ∧ 0 ≤ value_length e ∧ value_offset e + value_length e ≤ n.

Lemma group_length ps i : Z.of_nat (length (group ps i)) = Z.of_nat (length (nth i ps [])).
Proof. done. Qed.

Lemma item_lengths ps :
  Forall2 item_ok reItems ps →
  let len i := Z.of_nat (length (group ps i)) in
  1 + len 1%nat + 1 + len 4%nat + 1 + len 7%nat + 2 ≤ Z.of_nat (length (whole ps)).
Proof.
  unfold reItems. intros H. pieces H. subst. unfold group, whole. cbn [nth concat].
  rewrite !length_app. cbn [length]. lia.
Qed.

Lemma index_items_in dataStart pos s fuel :
  0 ≤ dataStart → 0 ≤ pos →
  Forall (entry_in (dataStart + pos + Z.of_nat (length s)))
    (index_items dataStart pos (regex_iterate fuel reItems s)).
Proof.
  intros Hd. revert pos s; induction fuel as [|fuel IH]; intros pos s Hp; [constructor|].
  cbn [regex_iterate]. destruct (regex_search reItems s) as [[[pre ps] t]|] eqn:E; [|constructor].
  apply regex_search_sound in E as (Es & Er & _). apply run_sound in Er as [_ Hok].
  pose proof (item_lengths _ Hok) as Hl. cbv zeta in Hl.
  assert (length s = (length pre + (length (whole ps) + length t))%nat) as El.
  { rewrite Es. unfold whole. by rewrite !length_app. }
  cbn [index_items]. constructor.
  - unfold entry_in, index_item. cbn [value_offset value_length]. lia.
  - specialize (IH (pos + Z.of_nat (length pre) + Z.of_nat (length (whole ps))) t ltac:(lia)).
    eapply list.Forall_impl; [exact IH|]. intros e (? & ? & ?). split_and!; lia.
Qed.

Lemma find_entry_in key index e n :
  Forall (entry_in n) index → find_entry key index = Some e → entry_in n e ∧ entry_name e = key.
Proof.
  induction 1 as [|e' index He _ IH]; simpl; [done|].
  case_bool_decide; [by intros [= <-]|done].
Qed.

Lemma view_range_in raw e :
  entry_in (Z.of_nat (length raw)) e →
  ∃ d, view_range raw (value_offset e) (value_length e) = Val d.
Proof.
  intros (? & ? & ?). unfold view_range.
  rewrite (proj2 (Z.leb_le 0 _)), (proj2 (Z.leb_le 0 (value_length e))) by done.
  rewrite (proj2 (Z.leb_le _ (Z.of_nat (length raw)))) by done. by eexists.
Qed.

(** The index a container may have: none, or one of its raw data. *)
Definition index_ok {C} (c : t C) : Prop :=
  match raw_data_ptr_ c with
  | Some raw =>
      match value_index_ c with
      | Some index => Forall (entry_in (Z.of_nat (length (str_bytes raw)))) index
      | None => True
      end
  | None => True
  end.

Lemma build_index_ok {C} (c : t C) : index_ok c → index_ok (build_index c).
Proof.
  unfold build_index. destruct (index_built_ c); [done|]. unfold index_ok.
  destruct (raw_data_ptr_ c) as [raw|] eqn:Er; [|by rewrite Er]. intros _.
  destruct (regex_search reData (str_bytes raw)) as [[[pre ps] t]|] eqn:E.
  2:{ cbn. rewrite Er. constructor. }
  cbn [raw_data_ptr_ with_index value_index_]. rewrite Er.
  apply regex_search_sound in E as (E & Er' & _). apply run_sound in Er' as [_ Hok].
  assert (5 < length ps)%nat as Hl.
  { apply Forall2_length in Hok. rewrite <-Hok. simpl. lia. }
  pose proof (index_items_in (Z.of_nat (length pre + length (whole (take 5 ps)))) 0
    (group ps 5) (length (group ps 5)) ltac:(lia) ltac:(lia)) as H.
  eapply list.Forall_impl; [exact H|]. intros e (? & ? & ?). split_and!; [done..|].
  rewrite E. pose proof (whole_split ps 5 Hl) as Hw. unfold whole in *. rewrite Hw.
  rewrite !length_app in *. lia.
Qed.
End Bounds.

Section Views.
Context {C : Type} (make_shared : t C → C).
Implicit Types (c : t C).

Lemma get_view_total key c : index_ok c → ∃ c' v, get_view key c = Val (c', v) ∧ index_ok c'.
Proof.
  intros Hc. unfold get_view. destruct (zero_copy_mode_ c); [|by eauto].
  destruct (raw_data_ptr_ c) as [raw|] eqn:Er; [|by eauto]. cbv zeta.
  set (c1 := if index_built_ c then c else build_index c).
  assert (index_ok c1) as H1 by (unfold c1; case_match; auto using build_index_ok).
  assert (raw_data_ptr_ c1 = Some raw) as Er1.
  { unfold c1, build_index. destruct (index_built_ c) eqn:Eb; [done|]. rewrite Er, ?Eb.
    by destruct (regex_search reData _) as [[[? ?] ?]|]. }
  destruct (value_index_ c1 ≫= find_entry key) as [e|] eqn:E; [|by eauto].
  destruct (value_index_ c1) as [index|] eqn:Ei; [|done]. simpl in E.
  unfold index_ok in H1. rewrite Er1, Ei in H1.
  destruct (find_entry_in _ _ _ _ H1 E) as [Hin _].
  destruct (view_range_in _ _ Hin) as [d ->]. simpl. eexists _, _. split; [done|].
  unfold index_ok. by rewrite Er1, Ei.
Qed.

(** [deserialize] leaves alone what the views read. *)
Definition same_views c c' : Prop :=
  zero_copy_mode_ c' = zero_copy_mode_ c ∧ raw_data_ptr_ c' = raw_data_ptr_ c ∧
  index_built_ c' = index_built_ c ∧ value_index_ c' = value_index_ c.

Lemma read_text_same_views s h c : same_views c (read_text make_shared s h c).1.
Proof.
  unfold read_text. destruct s; [done|]. unfold read_values.
  destruct (regex_search reData _) as [[[pre ps] t]|]; [|done].
  destruct h; [done|]. by destruct (flat_units _ _).
Qed.

Lemma same_views_get key c c' :
  same_views c c' → fmap (M:=option) snd (match get_view key c' with Val r => Some r | _ => None end)
  = fmap (M:=option) snd (match get_view key c with Val r => Some r | _ => None end).
Proof.
  intros (Hz & Hr & Hb & Hi). unfold get_view. rewrite Hz, Hr.
  destruct (zero_copy_mode_ c); [|done]. destruct (raw_data_ptr_ c) as [raw|] eqn:Er; [|done].
  cbv zeta.
  assert (value_index_ (if index_built_ c' then c' else build_index c')
    = value_index_ (if index_built_ c then c else build_index c)) as ->.
  { rewrite Hb. destruct (index_built_ c) eqn:Eb; [done|]. unfold build_index.
    rewrite Hb, Eb, Hr, Er. by destruct (regex_search reData _) as [[[? ?] ?]|]. }
  destruct (_ ≫= find_entry key) as [e|]; [|done]. by destruct (view_range _ _ _).
Qed.

Lemma of_text_index_ok s h c : of_text make_shared s h = Val (inl c) → index_ok c.
Proof.
  unfold of_text, constructed. rewrite deserialize_flat. simpl.
  pose proof (read_text_same_views s h (if h then with_raw s new else new)) as (_ & Hr & _ & Hi).
  destruct (read_text _ s h _) as [c0 [b|e]]; [|done]. intros [= <-]. simpl in *.
  unfold index_ok. rewrite Hr, Hi. by destruct h.
Qed.

(** Views read inside the text a container was constructed from, whatever the
    text is, and they show nothing else: after any text has been deserialized into
    the container, [get(key, as_view)] answers as before, although the header and
    the values have been replaced. *)
Theorem views_frozen s h c :
  of_text make_shared s h = Val (inl c) →
  ∀ s2 h2 c2 r, deserialize make_shared s2 h2 c = Val (c2, r) →
  ∀ key, ∃ c' c2' v, get_view key c = Val (c', v) ∧ get_view key c2 = Val (c2', v).
Proof.
  intros Hc%of_text_index_ok s2 h2 c2 r. rewrite deserialize_flat. intros [= Hd] key.
  pose proof (read_text_same_views s2 h2 c) as Hs. rewrite Hd in Hs. simpl in Hs.
  assert (index_ok c2) as H2.
  { destruct Hs as (_ & Hr & _ & Hi). unfold index_ok in *. by rewrite Hr, Hi. }
  destruct (get_view_total key c Hc) as (c' & v & E & _).
  destruct (get_view_total key c2 H2) as (c2' & v2 & E2 & _).
  apply (same_views_get key) in Hs. rewrite E, E2 in Hs. injection Hs as ->. by eauto.
Qed.

(** ** Views of a text the program wrote *)

Definition unit_str (u : optimized_value C) : text :=
  default [] (variant_helpers.to_string (data u) (type u)).

Lemma find_index raw key us A B dataStart pos :
  raw = A ++ concat (unit_item <$> us) ++ B → Z.of_nat (length A) = dataStart + pos →
  match find_entry key (index_items dataStart pos ((λ u, ([], unit_pieces u)) <$> us)) with
  | Some e => ∃ u, find_unit key us = Some u ∧ entry_name e = key ∧ entry_type e = type u ∧
                   view_range raw (value_offset e) (value_length e) = Val (unit_str u)
  | None => find_unit key us = None
  end.
Proof.
  intros Hraw HA. revert A pos Hraw HA; induction us as [|u us IH]; intros A pos Hraw HA; [done|].
  cbn [fmap list_fmap index_items find_entry find_unit index_item entry_name].
  assert (bytes_str (group (unit_pieces u) 1) = name u) as Hname by apply bytes_str_bytes.
  rewrite (bool_decide_ext _ (name u = key)) by by rewrite Hname.
  case_bool_decide as Hn.
  - exists u. unfold index_item. cbn [entry_name entry_type value_offset value_length length].
    split_and!; [done|by rewrite Hname| |].
    { unfold unit_pieces, item_pieces, group. cbn [nth].
      by rewrite bytes_str_bytes, (proj1 type_names_roundtrip). }
    unfold unit_pieces, item_pieces, group. cbn [nth].
    fold (unit_str u).
    assert (raw = (A ++ [x5b] ++ str_bytes (name u) ++ [x2c] ++
      str_bytes (get_string_from_type (type u)) ++ [x2c]) ++ unit_str u ++
      (item_end ++ concat (unit_item <$> us) ++ B)) as ->.
    { rewrite Hraw. cbn [fmap list_fmap concat]. unfold unit_item at 1, unit_fields, unit_str.
      cbn [bracketed app]. by repeat first [rewrite <-app_assoc | progress cbn [app]]. }
    unfold view_range. rewrite Nat2Z.id.
    match goal with |- context [drop (Z.to_nat ?n) _] =>
      assert (Z.to_nat n = length (A ++ [x5b] ++ str_bytes (name u) ++ [x2c] ++
      str_bytes (get_string_from_type (type u)) ++ [x2c])) as En;
      [rewrite !length_app; cbn [length]; lia|];
      assert ((0 <=? n) = true) as -> by (apply Z.leb_le; lia);
      assert ((n + Z.of_nat (length (unit_str u)) <=? Z.of_nat (length ((A ++ [x5b] ++
        str_bytes (name u) ++ [x2c] ++ str_bytes (get_string_from_type (type u)) ++ [x2c]) ++
        unit_str u ++ item_end ++ concat (unit_item <$> us) ++ B))) = true) as ->
        by (apply Z.leb_le; rewrite !length_app; cbn [length]; lia)
    end.
    rewrite (proj2 (Z.leb_le 0 (Z.of_nat _))) by lia. cbn [andb].
    by rewrite En, drop_app_length, take_app_length.
  - specialize (IH (A ++ unit_item u) (pos + Z.of_nat (length (unit_item u)))).
    rewrite Z.add_0_r.
    replace (Z.of_nat (length (whole (unit_pieces u)))) with (Z.of_nat (length (unit_item u))).
    2: done.
    apply IH.
    + rewrite Hraw. cbn [fmap list_fmap concat]. by rewrite <-!app_assoc.
    + rewrite length_app. lia.
Qed.

(** A lazily constructed container shows every value the writer wrote: for
    each key the view has the name, the type and the text of the first value of
    that name. *)
Lemma written_view c :
  text_ok c = true →
  ∃ z, of_text make_shared (text_of c) true = Val (inl z) ∧
  ∀ key, ∃ z', get_view key z =
    Val (z', (λ u, View key (unit_str u) (type u)) <$> find_unit key (optimized_units_ c)).
Proof.
  intros Hok. exists (restored true c (with_raw (text_of c) new)).
  split.
  { unfold of_text, constructed. by rewrite deserialize_flat, text_read. }
  intros key. unfold get_view. cbv zeta. cbn [zero_copy_mode_ raw_data_ptr_ index_built_ restored
    with_data with_units with_header initialize with_raw clear_value new].
  unfold build_index. cbn [index_built_ raw_data_ptr_ restored
    with_data with_units with_header initialize with_raw clear_value new].
  rewrite !str_bytes_str, text_data_found by done. cbn [with_index value_index_ mbind option_bind].
  set (dataStart := Z.of_nat _).
  assert (regex_matches reItems (group (section_pieces "@data="
    (concat (unit_item <$> optimized_units_ c))) 5)
    = (λ u, ([], unit_pieces u)) <$> optimized_units_ c) as ->.
  { pose proof Hok as (_ & _ & Hus)%text_ok_spec. cbn [section_pieces group nth].
    rewrite <-(app_nil_r (concat _)), <-(app_nil_l (concat _ ++ [])).
    rewrite units_found by (done || apply not_elem_of_nil).
    unfold unit_texts. by destruct (optimized_units_ c); [|cbn; rewrite <-list_fmap_compose]. }
  pose proof (find_index (text_of c) key (optimized_units_ c)
    (header_text (header_ c) ++ str_bytes "@data={{") [x7d; x7d; x3b] dataStart 0) as H.
  lapply H; [clear H; intros H|by unfold text_of, data_text, section_text; rewrite <-!app_assoc].
  lapply H; [clear H; intros H|unfold dataStart; rewrite length_app; cbn; lia].
  destruct (find_entry key _) as [e|].
  - destruct H as (u & -> & Hn & Ht & E). rewrite E. cbn. rewrite Hn, Ht. by eexists.
  - rewrite H. by eexists.
Qed.

(** ** Exceptions *)

Definition integer_type (ty : value_types) : bool :=
  match ty with
  | short_value | ushort_value | int_value | uint_value | long_value | ulong_value
  | llong_value | ullong_value => true
  | _ => false
  end.

(** A section with one item. *)
Definition one_item (n : text) (ty : value_types) (v : text) : text :=
  section_text "@data=" (x5b :: bracketed [n; str_bytes (get_string_from_type ty); v]).

Lemma not_a_number ty v :
  integer_type ty = true → strto v = None →
  ∃ fn, flat_value make_shared ty v = inr (invalid_argument fn).
Proof.
  intros Hty Hv. destruct ty; try done; eexists; unfold flat_value; simpl;
    unfold stoi, stol, stoll, stoul, stoull, sto_signed, sto_unsigned; by rewrite Hv.
Qed.

(** One bad number ends the program: a text whose only item has an integer type
    and data that does not start with a number makes [std::stoi] (or its like)
    throw out of [deserialize_result], which is [noexcept]. *)
Theorem bad_number_terminates kind n ty v c :
  word_ok n → integer_type ty = true → string_ok v = true → strto v = None →
  deserialize_result make_shared kind (one_item n ty v) false c = Val Terminated.
Proof.
  intros Hn Hty Hv Hs. unfold deserialize_result. rewrite deserialize_flat.
  destruct (not_a_number ty v Hty Hs) as [fn Hflat].
  destruct (string_ok_data v Hv) as ([Hdot Hend] & Hsp & Hcl).
  pose proof (type_word ty) as Ht. set (t := str_bytes (get_string_from_type ty)) in *.
  assert (inside_ok (concat [x5b :: bracketed [n; t; v]])) as Hin.
  { apply (bracketed_inside [[n; t; v]]). repeat constructor; try done;
      try (apply word_no_closing; by apply Hn || apply Ht);
      (eapply list.Forall_impl; [by apply Hn || apply Ht|apply word_dot]). }
  unfold read_text, one_item. fold t.
  destruct (section_text _ _) as [|b s] eqn:Et; [done|]. rewrite <-Et. clear b s Et.
  rewrite remove_newlines_plain.
  2:{ apply inside_section_dot; [|by repeat constructor]. by rewrite <-(app_nil_r (_ :: _)). }
  unfold read_values.
  pose proof (section_found "@data=" x40 (str_bytes "data=") [] _ [] eq_refl
    (not_elem_of_nil _) Hin) as Hf. rewrite app_nil_r, app_nil_l in Hf.
  cbn [concat] in Hf. rewrite app_nil_r in Hf. unfold reData. rewrite Hf.
  assert (regex_matches reItems (whole (section_pieces "@data=" (x5b :: bracketed [n; t; v])))
    = found (str_bytes "@data={{") [(item_text n t v, item_pieces n t v)]) as ->.
  { replace (whole (section_pieces "@data=" (x5b :: bracketed [n; t; v])))
      with (str_bytes "@data={{" ++ concat [(item_text n t v, item_pieces n t v)].*1
            ++ [x7d; x7d; x3b]) by (cbn [fmap list_fmap concat fst]; by rewrite app_nil_r).
    apply (matches_found x5b [] (tail reItems) [(item_text n t v, item_pieces n t v)]
      (str_bytes "@data={{") [x7d; x7d; x3b]);
      [|by apply (bool_decide_unpack _); vm_compute..].
    repeat constructor; [done|]. intros rest. by apply item_run. }
  cbn [found flat_units snd item_pieces group nth].
  assert (get_type_from_string (bytes_str t) = ty) as ->.
  { unfold t. rewrite bytes_str_bytes. apply type_names_roundtrip. }
  by rewrite Hflat.
Qed.
End Views.

(** The sample read lazily from its text. *)
Definition lazy_sample : t ctree := restored true written_sample (with_raw (text_of written_sample) new).

Lemma lazy_sample_built : of_text Node (text_of written_sample) true = Val (inl lazy_sample).
Proof. vm_compute. reflexivity. Qed.

Lemma views_frozen_witness :
  ∃ c' c2' v, get_view "s" lazy_sample = Val (c', v) ∧
    get_view "s" (read_text Node (str_bytes "@data={};") false lazy_sample).1 = Val (c2', v).
Proof.
  apply (views_frozen Node _ _ _ lazy_sample_built (str_bytes "@data={};") false _
    (read_text Node (str_bytes "@data={};") false lazy_sample).2).
  rewrite deserialize_flat. apply f_equal, surjective_pairing.
Defined.

Lemma bad_number_terminates_witness :
  deserialize_result Node "string data" (str_bytes "@data={{[n,4,x];}};") false new = Val Terminated.
Proof.
  apply (bad_number_terminates Node "string data" (str_bytes "n") int_value (str_bytes "x") new);
    try (vm_compute; reflexivity).
  apply (bool_decide_unpack _). vm_compute. exact I.
Defined.
