(* ===== verification/UtilitiesFacts.v ===== *)
(** * What the helpers do

    - [base64_is_rfc4648], [base64_roundtrip]: the unmasked accumulators never
      disturb a character; both decoders invert the encoder;
    - [replace_is_substitution], [stub_replace_never_ends];
    - [hex_roundtrip]: exactly the bytes of 16 and more survive;
    - [split_join]; [format_writes_text], [fallback_doubles_braces]. *)

From S2P Require Import Prelude Regex Numbers Container Text Utilities.
Import convert_string.

(** ** Bits of a wrapped accumulator *)

Lemma swrap_mod w j x : 0 ≤ j ≤ w → 0 < w → swrap w x mod 2 ^ j = x mod 2 ^ j.
Proof.
  intros Hj Hw. assert (∃ q, swrap w x = x + q * 2 ^ w) as (q & ->).
  { unfold swrap, wrap. pose proof (Z.div_mod x (2 ^ w) ltac:(lia)).
    case_match; [exists (- (x / 2 ^ w))|exists (- (x / 2 ^ w) - 1)]; lia. }
  replace (2 ^ w) with (2 ^ (w - j) * 2 ^ j) by (rewrite <-Z.pow_add_r by lia; f_equal; lia).
  by rewrite Z.mul_assoc, Z_mod_plus_full.
Qed.

(** [(val >> k) & (2^j - 1)] only depends on the low [k + j] bits. *)
Lemma field_of_swrap x k j :
  0 ≤ k → 0 ≤ j → k + j ≤ 32 →
  Z.land (Z.shiftr (swrap 32 x) k) (Z.ones j) = (x / 2 ^ k) mod 2 ^ j.
Proof.
  intros Hk Hj Hkj. rewrite Z.land_ones, Z.shiftr_div_pow2 by lia.
  assert (∀ y, (y / 2 ^ k) mod 2 ^ j = (y mod 2 ^ (k + j)) / 2 ^ k) as E.
  { intros y. rewrite Z.pow_add_r by lia. symmetry.
    rewrite Z.rem_mul_r by lia. rewrite (Z.mul_comm (2 ^ k)), Z.div_add by lia.
    rewrite (Z.div_small (y mod 2 ^ k)) by (apply Z.mod_pos_bound; lia). lia. }
  rewrite !E. f_equal. apply swrap_mod; lia.
Qed.

(** ** base64 *)

(** The encoding of RFC 4648, three bytes at a time. *)
Fixpoint rfc4648 (data : list byte) : text :=
  match data with
  | [] => []
  | [a] => [char_at (u8 a / 4); char_at (u8 a mod 4 * 16); x3d; x3d]
  | [a; b] => [char_at (u8 a / 4); char_at (u8 a mod 4 * 16 + u8 b / 16);
               char_at (u8 b mod 16 * 4); x3d]
  | a :: b :: c :: data =>
      char_at (u8 a / 4) :: char_at (u8 a mod 4 * 16 + u8 b / 16) ::
      char_at (u8 b mod 16 * 4 + u8 c / 64) :: char_at (u8 c mod 64) :: rfc4648 data
  end.

(** An accumulator whose last byte is [b]. *)
Definition holds (val : Z) (b : byte) : Prop := val mod 2 ^ 8 = u8 b.

Lemma shift_in val c :
  swrap 32 (swrap 32 (Z.shiftl val 8) + u8 c) = swrap 32 (val * 256 + u8 c).
Proof. by rewrite swrap_add, Z.shiftl_mul_pow2 by lia. Qed.

Lemma shift_holds val c : holds (swrap 32 (val * 256 + u8 c)) c.
Proof.
  unfold holds. rewrite swrap_mod by lia. change 256 with (2 ^ 8).
  rewrite Z.add_comm, Z_mod_plus_full. apply Z.mod_small. pose proof (u8_range c). lia.
Qed.

(** The characters that leave at the three positions. *)
Lemma sextet_2 val c : Z.land (Z.shiftr (swrap 32 (val * 256 + u8 c)) 2) 0x3F = u8 c / 4.
Proof.
  pose proof (u8_range c). change 63 with (Z.ones 6). rewrite field_of_swrap by lia.
  change (2 ^ 2) with 4. change (2 ^ 6) with 64. Z.div_mod_to_equations. lia.
Qed.

Lemma sextet_4 val b c :
  holds val b → Z.land (Z.shiftr (swrap 32 (val * 256 + u8 c)) 4) 0x3F = u8 b mod 4 * 16 + u8 c / 16.
Proof.
  unfold holds. intros <-. pose proof (u8_range c). change 63 with (Z.ones 6).
  rewrite field_of_swrap by lia. change (2 ^ 4) with 16. change (2 ^ 6) with 64. change (2 ^ 8) with 256.
  Z.div_mod_to_equations. lia.
Qed.

Lemma sextet_6 val b c :
  holds val b → Z.land (Z.shiftr (swrap 32 (val * 256 + u8 c)) 6) 0x3F = u8 b mod 16 * 4 + u8 c / 64.
Proof.
  unfold holds. intros <-. pose proof (u8_range c). change 63 with (Z.ones 6).
  rewrite field_of_swrap by lia. change (2 ^ 6) with 64. change (2 ^ 8) with 256.
  Z.div_mod_to_equations. lia.
Qed.

Lemma sextet_0 val c : Z.land (Z.shiftr (swrap 32 (val * 256 + u8 c)) 0) 0x3F = u8 c mod 64.
Proof.
  pose proof (u8_range c). change 63 with (Z.ones 6). rewrite field_of_swrap by lia.
  change (2 ^ 0) with 1. change (2 ^ 6) with 64. Z.div_mod_to_equations. lia.
Qed.

(** The last character, of a byte or of two: the value shifted by a whole byte. *)
Lemma last_4 val b : holds val b →
  Z.land (Z.shiftr (swrap 32 (Z.shiftl val 8)) 4) 0x3F = u8 b mod 4 * 16.
Proof.
  intros H. rewrite Z.shiftl_mul_pow2 by lia. change (2 ^ 8) with 256.
  pose proof (sextet_4 val b x00 H) as E. change (u8 x00) with 0 in E.
  rewrite Z.add_0_r in E. rewrite E. change (0 / 16) with 0. lia.
Qed.

Lemma last_6 val b : holds val b →
  Z.land (Z.shiftr (swrap 32 (Z.shiftl val 8)) 6) 0x3F = u8 b mod 16 * 4.
Proof.
  intros H. rewrite Z.shiftl_mul_pow2 by lia. change (2 ^ 8) with 256.
  pose proof (sextet_6 val b x00 H) as E. change (u8 x00) with 0 in E.
  rewrite Z.add_0_r in E. rewrite E. change (0 / 64) with 0. lia.
Qed.

(** What is done after the loop. *)
Definition finish (r : Z * Z * text) : text :=
  let '(val, valb, result) := r in
  pad (if -6 <? valb
       then result ++ [char_at (Z.land (Z.shiftr (swrap 32 (Z.shiftl val 8)) (valb + 8)) 0x3F)]
       else result).

(** The loop at its three positions. *)
Lemma encode_first c data val r :
  encode_loop (c :: data) val (-6) r
  = encode_loop data (swrap 32 (val * 256 + u8 c)) (-4) (r ++ [char_at (u8 c / 4)]).
Proof. cbn [encode_loop]. rewrite shift_in. cbn. by rewrite sextet_2. Qed.

Lemma encode_second b c data val r :
  holds val b →
  encode_loop (c :: data) val (-4) r
  = encode_loop data (swrap 32 (val * 256 + u8 c)) (-2) (r ++ [char_at (u8 b mod 4 * 16 + u8 c / 16)]).
Proof. intros H. cbn [encode_loop]. rewrite shift_in. cbn. by rewrite (sextet_4 _ b). Qed.

Lemma encode_third b c data val r :
  holds val b →
  encode_loop (c :: data) val (-2) r
  = encode_loop data (swrap 32 (val * 256 + u8 c)) (-6)
      (r ++ [char_at (u8 b mod 16 * 4 + u8 c / 64); char_at (u8 c mod 64)]).
Proof.
  intros H. cbn [encode_loop]. rewrite shift_in. cbn. rewrite (sextet_6 _ b) by done.
  by rewrite sextet_0, <-app_assoc.
Qed.

Lemma pad_to r s k :
  Z.of_nat (length r) mod 4 = 0 → (length s + k = 4)%nat → (k < 4)%nat →
  pad (r ++ s) = r ++ s ++ replicate k x3d.
Proof.
  intros Hr Hs Hk. unfold pad. rewrite <-app_assoc. do 2 f_equal. f_equal. rewrite length_app.
  replace (- Z.of_nat (length r + length s)) with (Z.of_nat k + (- (Z.of_nat (length r) / 4) - 1) * 4)
    by (Z.div_mod_to_equations; lia).
  rewrite Z_mod_plus_full, Z.mod_small by lia. lia.
Qed.

Lemma encode_rfc n data val r :
  (length data ≤ n)%nat → Z.of_nat (length r) mod 4 = 0 →
  finish (encode_loop data val (-6) r) = r ++ rfc4648 data.
Proof.
  revert data val r. induction n as [|n IH]; intros data val r Hn Hr.
  { destruct data; [|cbn in Hn; lia]. cbn. rewrite app_nil_r. unfold pad.
    rewrite Z_mod_zero_opp_full by done. apply app_nil_r. }
  destruct data as [|a [|b [|c data]]].
  - cbn. rewrite app_nil_r. unfold pad. rewrite Z_mod_zero_opp_full by done. apply app_nil_r.
  - rewrite encode_first. cbn [encode_loop finish]. cbn [Z.ltb]. change (-6 <? -4) with true.
    cbv iota. change (-4 + 8) with 4. rewrite (last_4 _ a) by apply shift_holds.
    rewrite <-app_assoc. by rewrite (pad_to _ _ 2) by (done || (cbn; lia)).
  - rewrite encode_first, (encode_second a) by apply shift_holds. cbn [encode_loop finish].
    change (-6 <? -2) with true. cbv iota. change (-2 + 8) with 6.
    rewrite (last_6 _ b) by apply shift_holds. rewrite <-!app_assoc. by rewrite (pad_to _ _ 1) by (done || (cbn; lia)).
  - rewrite encode_first, (encode_second a), (encode_third b) by apply shift_holds.
    rewrite IH; [by rewrite <-!app_assoc|cbn in Hn; lia|].
    rewrite !length_app. cbn [length]. rewrite !Nat2Z.inj_add.
    replace (_ + _ + _ + _) with (Z.of_nat (length r) + 1 * 4) by lia. by rewrite Z_mod_plus_full.
Qed.

Lemma base64_rfc data : (to_base64 data).1 = rfc4648 data.
Proof.
  transitivity (finish (encode_loop data 0 (-6) [])).
  - unfold to_base64, finish. by destruct (encode_loop data 0 (-6) []) as [[val valb] r].
  - by apply (encode_rfc (length data)).
Qed.

(** The encoder is the one of RFC 4648, whatever the length of the data, although
    its accumulator is shifted without a mask and wraps after four bytes; the
    stub's is the same. *)
Theorem base64_is_rfc4648 data :
  (to_base64 data).1 = rfc4648 data ∧ (convert_string_stub.to_base64 data).1 = Some (rfc4648 data).
Proof. unfold convert_string_stub.to_base64. cbn [fst]. by rewrite base64_rfc. Qed.

(** ** Decoding *)

Lemma char_found i : 0 ≤ i < 64 →
  find_text [char_at i] chars = Some (Z.to_nat i) ∧ bool_decide (char_at i = x3d) = false ∧
  (128 <=? u8 (char_at i)) = false.
Proof.
  intros Hi. assert (forallb (λ n,
    bool_decide (find_text [char_at (Z.of_nat n)] chars = Some n) &&
    negb (bool_decide (char_at (Z.of_nat n) = x3d)) && negb (128 <=? u8 (char_at (Z.of_nat n))))
    (seq 0 64) = true) as H by (vm_compute; reflexivity).
  rewrite forallb_forall in H. specialize (H (Z.to_nat i)). rewrite Z2Nat.id in H by lia.
  rewrite !andb_true_iff, !negb_true_iff, bool_decide_eq_true in H.
  destruct H as [[H1 H2] H3]; [apply in_seq; lia|]. by split_and!.
Qed.

(** An accumulator whose last character is [i]. *)
Definition keeps (val i : Z) : Prop := val mod 2 ^ 6 = i.

Lemma decode_in val i :
  swrap 32 (swrap 32 (Z.shiftl val 6) + i) = swrap 32 (val * 64 + i).
Proof. by rewrite swrap_add, Z.shiftl_mul_pow2 by lia. Qed.

Lemma decode_keeps val i : 0 ≤ i < 64 → keeps (swrap 32 (val * 64 + i)) i.
Proof.
  intros Hi. unfold keeps. rewrite swrap_mod by lia. change 64 with (2 ^ 6).
  rewrite Z.add_comm, Z_mod_plus_full. apply Z.mod_small. lia.
Qed.

(** The byte that leaves with [k] bits to spare. *)
Lemma octet val i j k :
  keeps val i → 0 ≤ j < 64 → k = 4 ∨ k = 2 ∨ k = 0 →
  Z.land (Z.shiftr (swrap 32 (val * 64 + j)) k) 0xFF = (i * 64 + j) / 2 ^ k mod 256.
Proof.
  unfold keeps. intros <- Hj Hk. change 255 with (Z.ones 8). rewrite field_of_swrap by lia.
  change (2 ^ 8) with 256. change (2 ^ 6) with 64.
  destruct Hk as [->|[->| ->]]; [change (2 ^ 4) with 16|change (2 ^ 2) with 4|change (2 ^ 0) with 1];
    Z.div_mod_to_equations; lia.
Qed.

(** The four characters of three bytes. *)
Lemma decode_first val i r : 0 ≤ i < 64 →
  decode_char i val (-8) r = (swrap 32 (val * 64 + i), -2, r).
Proof. intros Hi. unfold decode_char. by rewrite decode_in. Qed.

Lemma decode_next val i j valb k r : keeps val i → 0 ≤ j < 64 →
  valb + 6 = k → k = 4 ∨ k = 2 ∨ k = 0 →
  decode_char j val valb r = (swrap 32 (val * 64 + j), k - 8, r ++ [to_u8 ((i * 64 + j) / 2 ^ k mod 256)]).
Proof.
  intros Hk Hj <- H. unfold decode_char. rewrite decode_in, (octet val i) by done.
  destruct (Z.leb_spec 0 (valb + 6)); [done|lia].
Qed.

(** The bytes of four characters; [y] is the next byte, or 0 behind the last. *)
Lemma first_byte a y : 0 ≤ y < 256 →
  to_u8 ((u8 a / 4 * 64 + (u8 a mod 4 * 16 + y / 16)) / 2 ^ 4 mod 256) = a.
Proof.
  intros Hy. pose proof (u8_range a). rewrite <-(to_u8_u8 a). f_equal. change (2 ^ 4) with 16.
  rewrite to_u8_u8. Z.div_mod_to_equations. lia.
Qed.

Lemma second_byte x b y : 0 ≤ y < 256 →
  to_u8 (((x * 16 + u8 b / 16) * 64 + (u8 b mod 16 * 4 + y / 64)) / 2 ^ 2 mod 256) = b.
Proof.
  intros Hy. pose proof (u8_range b). rewrite <-(to_u8_u8 b). f_equal. change (2 ^ 2) with 4.
  rewrite to_u8_u8. Z.div_mod_to_equations. lia.
Qed.

Lemma third_byte x c : to_u8 (((x * 4 + u8 c / 64) * 64 + u8 c mod 64) / 2 ^ 0 mod 256) = c.
Proof.
  pose proof (u8_range c). rewrite <-(to_u8_u8 c). f_equal. change (2 ^ 0) with 1.
  rewrite to_u8_u8. Z.div_mod_to_equations. lia.
Qed.

Section Decoder.
(** A decoder: what it does with a character of the alphabet, at padding and at the end. *)
Context {R : Type} (decode : text → Z → Z → list byte → R) (ret : list byte → R).
Hypothesis decode_alphabet : ∀ i s val valb r, 0 ≤ i < 64 →
  decode (char_at i :: s) val valb r =
  let '(val, valb, r) := decode_char i val valb r in decode s val valb r.
Hypothesis decode_padding : ∀ s val valb r, decode (x3d :: s) val valb r = ret r.
Hypothesis decode_end : ∀ val valb r, decode [] val valb r = ret r.

Lemma decode_two a y s val r : 0 ≤ y < 256 →
  ∃ v, keeps v (u8 a mod 4 * 16 + y / 16) ∧
  decode (char_at (u8 a / 4) :: char_at (u8 a mod 4 * 16 + y / 16) :: s) val (-8) r
  = decode s v (-4) (r ++ [a]).
Proof.
  intros Hy. pose proof (u8_range a).
  assert (0 ≤ u8 a / 4 < 64) by (Z.div_mod_to_equations; lia).
  assert (0 ≤ u8 a mod 4 * 16 + y / 16 < 64) by (Z.div_mod_to_equations; lia).
  eexists. split; [apply (decode_keeps (swrap 32 (val * 64 + u8 a / 4))); lia|].
  rewrite decode_alphabet, decode_first, decode_alphabet by lia.
  rewrite (decode_next _ (u8 a / 4) _ _ 4) by (first [apply decode_keeps; lia|lia]).
  by rewrite first_byte.
Qed.

Lemma decode_three x b y s val r : 0 ≤ x < 4 → 0 ≤ y < 256 → keeps val (x * 16 + u8 b / 16) →
  ∃ v, keeps v (u8 b mod 16 * 4 + y / 64) ∧
  decode (char_at (u8 b mod 16 * 4 + y / 64) :: s) val (-4) r = decode s v (-6) (r ++ [b]).
Proof.
  intros Hx Hy Hk. pose proof (u8_range b).
  assert (0 ≤ u8 b mod 16 * 4 + y / 64 < 64) by (Z.div_mod_to_equations; lia).
  eexists. split; [apply (decode_keeps val); lia|].
  rewrite decode_alphabet by lia. rewrite (decode_next _ _ _ _ 2 _ Hk) by lia.
  by rewrite second_byte.
Qed.

Lemma decode_four x c s val r : 0 ≤ x < 16 → keeps val (x * 4 + u8 c / 64) →
  ∃ v, decode (char_at (u8 c mod 64) :: s) val (-6) r = decode s v (-8) (r ++ [c]).
Proof.
  intros Hx Hk. pose proof (u8_range c). eexists.
  rewrite decode_alphabet by (Z.div_mod_to_equations; lia).
  rewrite (decode_next _ _ _ _ 0 _ Hk) by (Z.div_mod_to_equations; lia).
  by rewrite third_byte.
Qed.

Lemma decode_rfc n data val r : (length data ≤ n)%nat →
  decode (rfc4648 data) val (-8) r = ret (r ++ data).
Proof.
  revert data val r. induction n as [|n IH]; intros data val r Hn.
  { destruct data; [|cbn in Hn; lia]. cbn. by rewrite decode_end, app_nil_r. }
  destruct data as [|a [|b [|c data]]]; cbn [rfc4648].
  - by rewrite decode_end, app_nil_r.
  - destruct (decode_two a 0 [x3d; x3d] val r) as (v & _ & E); [lia|].
    change (0 / 16) with 0 in E. rewrite Z.add_0_r in E. by rewrite E, decode_padding.
  - pose proof (u8_range b).
    destruct (decode_two a (u8 b) [char_at (u8 b mod 16 * 4); x3d] val r) as (v & Hv & ->); [lia|].
    destruct (decode_three (u8 a mod 4) b 0 [x3d] v (r ++ [a])) as (w & _ & E);
      [Z.div_mod_to_equations; lia|lia|done|].
    change (0 / 64) with 0 in E. rewrite Z.add_0_r in E. by rewrite E, decode_padding, <-app_assoc.
  - pose proof (u8_range b). pose proof (u8_range c).
    edestruct (decode_two a (u8 b)) as (v & Hv & ->); [lia|].
    edestruct (decode_three (u8 a mod 4) b (u8 c)) as (w & Hw & ->);
      [Z.div_mod_to_equations; lia|lia|done|].
    edestruct (decode_four (u8 b mod 16) c) as (z & ->); [Z.div_mod_to_equations; lia|done|].
    rewrite IH by (cbn in Hn; lia). by rewrite <-!app_assoc.
Qed.
End Decoder.

(** C30. What is encoded is decoded, by the decoder that skips foreign characters and by the
    stub that stops at them; no byte of an encoding indexes its table
    outside. *)
Theorem base64_roundtrip data :
  from_base64 (to_base64 data).1 = (data, ""%string) ∧
  convert_string_stub.from_base64 (to_base64 data).1 = Val (data, None).
Proof.
  rewrite base64_rfc. unfold from_base64, convert_string_stub.from_base64. split.
  - f_equal. apply (decode_rfc decode_loop id) with (n := length data); [|done..].
    intros i s val valb r Hi. cbn [decode_loop].
    destruct (char_found i Hi) as (-> & -> & _). by rewrite Z2Nat.id by lia.
  - rewrite (decode_rfc convert_string_stub.decode_loop Val) with (n := length data); [done| |done..].
    intros i s val valb r Hi. cbn [convert_string_stub.decode_loop].
    destruct (char_found i Hi) as (-> & _ & ->). by rewrite Z2Nat.id by lia.
Qed.

(** ** replace *)

(** Left to right, occurrences that do not overlap; [skip] characters are those of the
    one that was just replaced. *)
Fixpoint substitute (from to : text) (skip : nat) (s : text) : text :=
  match s with
  | [] => []
  | b :: s' =>
      match skip with
      | S k => substitute from to k s'
      | O => if bool_decide (take (length from) s = from)
             then to ++ substitute from to (pred (length from)) s'
             else b :: substitute from to 0 s'
      end
  end.

Lemma substitute_skip from to k s : substitute from to k s = substitute from to 0 (drop k s).
Proof. revert s. induction k as [|k IH]; intros [|b s]; [done..|]. cbn. apply IH. Qed.

Lemma find_text_fits from s p : find_text from s = Some p → (p + length from ≤ length s)%nat.
Proof.
  revert p. induction s as [|b s IH]; intros p H; cbn [find_text] in H.
  - case_bool_decide as E; [|done]. injection H as <-. rewrite <-E, length_take. lia.
  - case_bool_decide as E; [injection H as <-; rewrite <-E, length_take; cbn; lia|].
    destruct (find_text from s) as [q|]; [|done]. injection H as <-. specialize (IH q eq_refl). cbn. lia.
Qed.

Lemma substitute_find from to s :
  from ≠ [] →
  substitute from to 0 s =
  match find_text from s with
  | None => s
  | Some p => take p s ++ to ++ substitute from to 0 (drop (p + length from) s)
  end.
Proof.
  intros Hf. induction s as [|b s IH].
  { by destruct from. }
  cbn [substitute find_text]. case_bool_decide as E.
  - cbn [take app Nat.add]. rewrite substitute_skip. by destruct from.
  - rewrite IH. by destruct (find_text from s).
Qed.

Lemma replace_loop_substitutes fuel from to before s :
  from ≠ [] → (length s < fuel)%nat →
  replace_loop fuel from to (before ++ s) (length before) = Val (before ++ substitute from to 0 s).
Proof.
  intros Hf. revert before s. induction fuel as [|fuel IH]; intros before s Hs; [lia|].
  cbn [replace_loop]. unfold find_from. rewrite length_app.
  destruct (Nat.leb_spec (length before) (length before + length s)) as [_|]; [|lia].
  rewrite drop_app_length, (substitute_find from to s) by done.
  destruct (find_text from s) as [p|] eqn:E; [|done]. cbn [fmap option_fmap option_map].
  pose proof (find_text_fits _ _ _ E) as Hp. assert (length from ≠ O) as Hlen by by destruct from.
  rewrite take_app_ge by lia. replace (length before + p - length before)%nat with p by lia.
  rewrite (drop_app_ge before) by lia.
  replace (length before + p + length from - length before)%nat with (p + length from)%nat by lia.
  rewrite <-app_assoc, !(app_assoc before). rewrite (app_assoc (before ++ take p s)).
  replace (length before + p + length to)%nat with (length ((before ++ take p s) ++ to))
    by (rewrite !length_app, length_take; lia).
  rewrite IH by (rewrite length_drop; lia). by rewrite <-!app_assoc.
Qed.

(** [replace] ends and is the substitution of every occurrence from left to right;
    what was put in is not searched again. *)
Theorem replace_is_substitution str from to :
  replace str from to = Val (if bool_decide (from = []) then str else substitute from to 0 str).
Proof.
  unfold replace. case_bool_decide; [done|].
  by apply (replace_loop_substitutes (S (length str)) from to []); [|lia].
Qed.

(** The stub has no test for the empty text and never ends on it. *)
Theorem stub_replace_never_ends fuel str to : convert_string_stub.replace fuel str [] to = NoFuel.
Proof.
  unfold convert_string_stub.replace.
  cut (∀ fuel str pos, (pos ≤ length str)%nat → replace_loop fuel [] to str pos = NoFuel);
    [intros H; apply H; lia|].
  clear. induction fuel as [|fuel IH]; intros str pos Hp; [done|]. cbn [replace_loop].
  unfold find_from. destruct (Nat.leb_spec pos (length str)); [|lia].
  assert (find_text [] (drop pos str) = Some O) as -> by by destruct (drop pos str).
  cbn [fmap option_fmap option_map]. apply IH. rewrite !length_app, length_take, length_drop. cbn. lia.
Qed.

(** ** Hexadecimal *)

Import conversion_string.

Lemma two_digits a b : 0 ≤ a < 16 → 0 ≤ b < 16 →
  stoul_16 [hex_digit a; hex_digit b] = inl (16 * a + b) ∧ stoul_16 [hex_digit a] = inl a.
Proof.
  intros Ha Hb. set (eqs r n := match r : Z + std_exception with inl m => m =? n | inr _ => false end).
  assert (∀ r n, eqs r n = true → r = inl n) as His by (intros [m|] n; cbn; [intros ?; f_equal; lia|done]).
  assert (forallb (λ a, forallb (λ b,
    eqs (stoul_16 [hex_digit (Z.of_nat a); hex_digit (Z.of_nat b)]) (16 * Z.of_nat a + Z.of_nat b) &&
    eqs (stoul_16 [hex_digit (Z.of_nat a)]) (Z.of_nat a)) (seq 0 16)) (seq 0 16) = true)
    as H by (vm_compute; reflexivity).
  rewrite forallb_forall in H. specialize (H (Z.to_nat a) ltac:(apply in_seq; lia)).
  rewrite forallb_forall in H. specialize (H (Z.to_nat b) ltac:(apply in_seq; lia)).
  rewrite !Z2Nat.id, andb_true_iff in H by lia. destruct H. by split; apply His.
Qed.

Lemma byte_parts b : 0 ≤ u8 b / 16 < 16 ∧ 0 ≤ u8 b mod 16 < 16 ∧ to_u8 (16 * (u8 b / 16) + u8 b mod 16) = b.
Proof.
  pose proof (u8_range b). split_and!; try (Z.div_mod_to_equations; lia).
  rewrite <-(to_u8_u8 b) at 3. f_equal. Z.div_mod_to_equations. lia.
Qed.

Lemma hex_big b bs :
  16 ≤ u8 b →
  hex_to_bytes (byte_hex b ++ bs) = match hex_to_bytes bs with inl r => inl (b :: r) | inr e => inr e end.
Proof.
  intros Hb. destruct (byte_parts b) as (H1 & H2 & E). unfold byte_hex.
  destruct (Z.ltb_spec (u8 b) 16); [lia|]. cbn [app hex_to_bytes].
  destruct (two_digits _ _ H1 H2) as [-> _]. by rewrite E.
Qed.

(** The pairs of digits give at most as many bytes as there were. *)
Lemma hex_count n s r : (length s ≤ n)%nat → hex_to_bytes s = inl r → (2 * length r ≤ S (length s))%nat.
Proof.
  revert s r. induction n as [|n IH]; intros s r Hn H.
  { destruct s; [|cbn in Hn; lia]. injection H as <-. cbn. lia. }
  destruct s as [|a [|b s]].
  - injection H as <-. cbn. lia.
  - cbn [hex_to_bytes] in H. destruct (stoul_16 [a]); [|done]. injection H as <-. cbn. lia.
  - cbn [hex_to_bytes] in H. destruct (stoul_16 [a; b]); [|done].
    destruct (hex_to_bytes s) as [r'|] eqn:E; [|done]. injection H as <-.
    apply IH in E; cbn in *; lia.
Qed.

Lemma hex_length bs : (length (bytes_to_hex bs) ≤ 2 * length bs)%nat.
Proof.
  unfold bytes_to_hex. induction bs as [|b bs IH]; [done|]. cbn [fmap list_fmap concat length].
  rewrite length_app. cut (length (byte_hex b) <= 2)%nat; [lia|].
  unfold byte_hex. case_match; cbn [length]; lia.
Qed.

(** A byte below 16 in front of another one is lost. *)
Lemma hex_small a b bs : u8 a < 16 → hex_to_bytes (bytes_to_hex (a :: b :: bs)) ≠ inl (a :: b :: bs).
Proof.
  intros Ha H. pose proof (u8_range a). unfold bytes_to_hex in H. cbn [fmap list_fmap concat] in H.
  fold (bytes_to_hex bs) in H. unfold byte_hex at 1 in H. destruct (Z.ltb_spec (u8 a) 16) as [_|]; [|lia].
  pose proof (u8_range b). set (h := if u8 b <? 16 then u8 b else u8 b / 16).
  assert (∃ t, byte_hex b = hex_digit h :: t ∧ (length t ≤ 1)%nat ∧ 0 ≤ h < 16) as (t & Et & Ht & Hh).
  { unfold byte_hex, h. destruct (Z.ltb_spec (u8 b) 16); eexists; (split; [reflexivity|]);
      (split; [cbn; lia|]); Z.div_mod_to_equations; lia. }
  rewrite Et in H. cbn [app hex_to_bytes] in H.
  destruct (two_digits (u8 a) h ltac:(lia) Hh) as [E _]. rewrite E in H.
  destruct (hex_to_bytes (t ++ bytes_to_hex bs)) as [r|] eqn:Er; [|done]. injection H as Hab Hr. subst r.
  assert (u8 (to_u8 (16 * u8 a + h)) = u8 a) as Hv by by rewrite Hab.
  rewrite u8_to_u8 in Hv. rewrite wrap_small in Hv by lia.
  assert (u8 b = 0) as Hb.
  { unfold h in *. destruct (Z.ltb_spec (u8 b) 16); [lia|]. Z.div_mod_to_equations. lia. }
  assert (t = []) as ->.
  { unfold byte_hex in Et. rewrite Hb in Et. by injection Et as _ <-. }
  apply (hex_count (length (bytes_to_hex bs))) in Er; [|done]. pose proof (hex_length bs).
  cbn [length app] in *. lia.
Qed.

(** Reading hexadecimal text back gives the bytes it was made of exactly when
    every byte but the last is 16 or more: smaller ones are written with one digit. *)
Theorem hex_roundtrip bs :
  hex_to_bytes (bytes_to_hex bs) = inl bs ↔ Forall (λ b, 16 ≤ u8 b) (removelast bs).
Proof.
  induction bs as [|a bs IH]; [by split; [constructor|]|]. destruct bs as [|b bs].
  - split; [constructor|]. intros _. unfold bytes_to_hex. cbn [fmap list_fmap concat].
    destruct (Z.le_gt_cases 16 (u8 a)) as [Ha|Ha]; [by rewrite (hex_big a [])|].
    pose proof (u8_range a). unfold byte_hex. destruct (Z.ltb_spec (u8 a) 16); [|lia].
    cbn [app hex_to_bytes]. destruct (two_digits (u8 a) 0 ltac:(lia) ltac:(lia)) as [_ ->].
    by rewrite to_u8_u8.
  - cbn [removelast]. rewrite list.Forall_cons, <-IH.
    destruct (Z.le_gt_cases 16 (u8 a)) as [Ha|Ha].
    + unfold bytes_to_hex at 1. rewrite fmap_cons, concat_cons, hex_big by done.
      fold (bytes_to_hex (b :: bs)). destruct (hex_to_bytes (bytes_to_hex (b :: bs))) as [r|].
      * split; [intros [= ->]; by split|by intros [_ [= ->]]].
      * split; [done|by intros [_ ?]].
    + split; [intros H; by apply hex_small in H|lia].
Qed.

(** ** Splitting and joining *)

Lemma split_at_token d acc x s :
  d ∉ x → split_at d acc (x ++ d :: s) = (rev acc ++ x) :: split_at d [] s.
Proof.
  revert acc. induction x as [|b x IH]; intros acc Hx; cbn [app split_at].
  - by rewrite bool_decide_true, app_nil_r by done.
  - rewrite bool_decide_false by (intros ->; apply Hx; left).
    rewrite IH by (intros ?; apply Hx; by right). cbn [rev]. by rewrite <-app_assoc.
Qed.

Lemma split_at_last d acc x :
  d ∉ x → split_at d acc x = match rev acc ++ x with [] => [] | t => [t] end.
Proof.
  revert acc. induction x as [|b x IH]; intros acc Hx; cbn [split_at].
  - rewrite app_nil_r. destruct acc as [|c acc]; [done|]. by destruct (rev (c :: acc)) eqn:E;
      [apply (f_equal (@length _)) in E; rewrite length_rev in E|].
  - rewrite bool_decide_false by (intros ->; apply Hx; left).
    rewrite IH by (intros ?; apply Hx; by right). cbn [rev]. by rewrite <-app_assoc.
Qed.

(** Splitting what was joined gives the tokens back, but for an empty last one:
    the line reader sees no token at the end of the text. *)
Theorem split_join d l :
  Forall (λ x, d ∉ x) l →
  split (join l [d]) d = if bool_decide (list.last l = Some []) then removelast l else l.
Proof.
  unfold split. induction 1 as [|x l Hx Hl IH]; [done|]. destruct l as [|y l].
  - unfold join. cbn [fmap list_fmap concat]. rewrite app_nil_r, split_at_last by done. cbn.
    by destruct x.
  - assert (join (x :: y :: l) [d] = x ++ d :: join (y :: l) [d]) as -> by done.
    rewrite split_at_token, IH by done. cbn [rev app]. change (list.last (x :: y :: l)) with (list.last (y :: l)).
    by case_bool_decide.
Qed.

Lemma split_join_witness :
  let l := [str_bytes "a"; []; str_bytes "bc"] in
  Forall (λ x, x2c ∉ x) l ∧ split (join l [x2c]) x2c = l.
Proof.
  cbv zeta. split.
  - apply (bool_decide_unpack _). vm_compute. exact I.
  - apply (split_join x2c [str_bytes "a"; []; str_bytes "bc"]).
    apply (bool_decide_unpack _). vm_compute. exact I.
Defined.

(** ** Format strings *)

Import formatter value_container.

(** The calls [formatter::format_to(std::back_inserter(result), ...)] of
    [binary_serializer::serialize] up to the end of the header. *)
Definition pair_call (id : Z) (field : string) : text * list text :=
  (str_bytes "[{},{}];", [str_bytes (Prelude.to_string id); str_bytes field]).

Definition header_calls (h : value_container.header) : list (text * list text) :=
  let open := (str_bytes "@header={{{{", []) in
  let close := (str_bytes "}}}};", []) in
  let ids :=
    if bool_decide (message_type_ h = "data_container"%string) then []
    else [pair_call binary_serializer.TARGET_ID (target_id_ h);
          pair_call binary_serializer.TARGET_SUB_ID (target_sub_id_ h);
          pair_call binary_serializer.SOURCE_ID (source_id_ h);
          pair_call binary_serializer.SOURCE_SUB_ID (source_sub_id_ h)] in
  open :: ids ++
  [pair_call binary_serializer.MESSAGE_TYPE (message_type_ h);
   pair_call binary_serializer.MESSAGE_VERSION (version_ h); close].

Definition run_calls (step : text → list text → text → option text)
    (calls : list (text * list text)) : option text :=
  fold_left (λ out call, out ≫= step call.1 call.2) calls (Some []).

Lemma pair_call_writes id field out :
  format_to (pair_call id field).1 (pair_call id field).2 out =
    Some (out ++ binary_serializer.pair_text id field).
Proof. unfold pair_call, format_to. cbn. by rewrite <-?app_assoc. Qed.


Lemma run_calls_writes (step : text → list text → text → option text) calls ws out :
  Forall2 (λ call w, ∀ out, step call.1 call.2 out = Some (out ++ w)) calls ws →
  fold_left (λ out (call : text * list text), out ≫= step call.1 call.2) calls (Some out) = Some (out ++ concat ws).
Proof.
  intros H. revert out. induction H as [|call w calls ws Hc _ IH]; intros out.
  - by rewrite app_nil_r.
  - cbn [fold_left mbind option_bind concat]. by rewrite Hc, IH, app_assoc.
Qed.

(** With [<format>], the calls assemble the header text, braces escaped. *)
Theorem format_writes_text h :
  run_calls format_to (header_calls h) = Some (binary_serializer.header_text h).
Proof.
  unfold run_calls, header_calls, binary_serializer.header_text. case_bool_decide; cbn [app];
    (erewrite run_calls_writes;
     [|repeat first [apply Forall2_nil_2 | apply Forall2_cons_2];
       first [intros out; apply pair_call_writes | intros out; reflexivity]]);
    cbn [concat app]; rewrite <-?app_assoc; reflexivity.
Qed.

(** Without it, the doubled braces stay doubled: the text starts with four, which
    the reader does not take for a header; and empty braces inside an argument are
    replaced by the argument after it. *)
Theorem fallback_doubles_braces h :
  (∃ s, run_calls (λ f args out, Some (format_to_fallback f args out)) (header_calls h) =
          Some (str_bytes "@header={{{{" ++ s)) ∧
  format_fallback (str_bytes "[{},{}];") [str_bytes "{}"; str_bytes "x"] = str_bytes "[x,{}];".
Proof.
  split; [|by vm_compute]. unfold run_calls, header_calls.
  case_bool_decide; cbn [app fold_left mbind option_bind fst snd]; unfold format_to_fallback;
    eexists; rewrite <-?app_assoc; reflexivity.
Qed.
