(* ===== verification/ValueView.v ===== *)
(** * value_view: reading a value out of the raw text

    [internal/value_view.h].  A view is the name, the characters and the type of
    a value ([text_container.value_view]); [as<T>] converts the characters with
    [strtoll], [strtoull], [strtof] or [strtod], which report where they stopped:
    a view is refused when that is not its end.  They do not throw: out of range,
    the result is the nearest the type has.  The theorem says that a lazily
    constructed container answers with the values an eager one would hold. *)

From S2P Require Import Prelude Float Types Container ContainerMsgpack Regex.
From S2P Require Import Numbers Decimal Text TextFacts TextScan TextRoundtrip TextViews.
Import value_container text_container binary_serializer.

(** ** The C conversions, when they take the whole text *)

(** Sign and magnitude in base 10; [None]: [end] is not the end of the text. *)
Definition strto_whole (s : text) : option (bool * Z) :=
  let (neg, d) := read_sign (skip_spaces s) in
  match d with
  | [] => None
  | _ => if forallb digit d then Some (neg, read_digits d 0) else None
  end.

(** What [strtoll] and [strtoull] make of them. *)
Definition strtoll_value (neg : bool) (m : Z) : Z :=
  Z.max (- 2 ^ 63) (Z.min (2 ^ 63 - 1) (if neg then - m else m)).
Definition strtoull_value (neg : bool) (m : Z) : Z :=
  if 2 ^ 64 <=? m then 2 ^ 64 - 1 else if neg then wrap 64 (- m) else m.

Fixpoint drop_digits (s : text) : text :=
  match s with
  | b :: s' => if digit b then drop_digits s' else s
  | [] => []
  end.

(** Behind the exponent, when there is one with digits. *)
Definition exponent_end (lower upper : Z) (s : text) : text :=
  match s with
  | b :: s' =>
      if (u8 b =? lower) || (u8 b =? upper) then
        let (_, e) := read_sign s' in
        match e with c :: _ => if digit c then drop_digits e else s | [] => s end
      else s
  | [] => []
  end.

Fixpoint drop_words (s : text) : text :=
  match s with
  | b :: s' => if word b then drop_words s' else s
  | [] => []
  end.

(** Behind [nan], with its characters in parentheses when they are closed. *)
Definition nan_end (s : text) : text :=
  match s with
  | x28 :: s' => match drop_words s' with x29 :: s'' => s'' | _ => s end
  | _ => s
  end.

(** Where [strtof] and [strtod] stop. *)
Definition strtod_end (s : text) : option text :=
  let (_, s) := read_sign (skip_spaces s) in
  if starts "infinity" s then Some (drop 8 s)
  else if starts "inf" s then Some (drop 3 s)
  else if starts "nan" s then Some (nan_end (drop 3 s))
  else
    match (if starts "0x" s then read_mantissa 16 (drop 2 s) else None) with
    | Some (_, _, s) => Some (exponent_end 112 80 s)
    | None =>
        match read_mantissa 10 s with
        | Some (_, _, s) => Some (exponent_end 101 69 s)
        | None => None
        end
    end.

(** ** The class *)

Module value_view.

Definition name (v : value_view) : string := view_name v.
Definition type (v : value_view) : value_types := view_type v.
Definition as_string (v : value_view) : text := view_data v.
Definition size (v : value_view) : Z := Z.of_nat (length (view_data v)).
Definition is_null (v : value_view) : bool := bool_decide (view_type v = null_value).

Definition is_integral_type (ty : value_types) : bool :=
  match ty with
  | short_value | ushort_value | int_value | uint_value | long_value | ulong_value
  | llong_value | ullong_value => true
  | _ => false
  end.

(** [parse_integral<T>] for the signed and the unsigned type of [w] bits. *)
Definition parse_signed (w : Z) (v : value_view) : option Z :=
  if negb (is_integral_type (view_type v)) then None
  else if size v =? 0 then None
  else '(neg, m) ← strto_whole (view_data v); Some (swrap w (strtoll_value neg m)).

Definition parse_unsigned (w : Z) (v : value_view) : option Z :=
  if negb (is_integral_type (view_type v)) then None
  else if size v =? 0 then None
  else '(neg, m) ← strto_whole (view_data v); Some (wrap w (strtoull_value neg m)).

(** [parse_floating<T>] for [float] and [double]. *)
Definition parse_floating (f : fmt) (v : value_view) : option Z :=
  if negb (bool_decide (view_type v = float_value) || bool_decide (view_type v = double_value))
  then None
  else if size v =? 0 then None
  else
    match strtod f (view_data v), strtod_end (view_data v) with
    | Some (bits, _), Some [] => Some bits
    | _, _ => None
    end.

(** [as<std::string_view>], [as<std::string>] *)
Definition as_text (v : value_view) : option text :=
  if bool_decide (view_type v = string_value) || bool_decide (view_type v = bytes_value)
  then Some (as_string v) else None.

(** [as<bool>] looks at the first character only. *)
Definition as_bool (v : value_view) : option bool :=
  match view_type v, view_data v with
  | bool_value, b :: _ =>
      Some (bool_decide (b = x74) || bool_decide (b = x54) || bool_decide (b = x31))
  | _, _ => None
  end.

Example view_examples :
  parse_signed 32 (View "n" (str_bytes "4294967297") llong_value) = Some 1 ∧
  parse_unsigned 64 (View "n" (str_bytes "-1") int_value) = Some (2 ^ 64 - 1) ∧
  parse_signed 64 (View "n" (str_bytes "99999999999999999999") ullong_value) = Some (2 ^ 63 - 1) ∧
  parse_signed 32 (View "n" (str_bytes "5 ") int_value) = None ∧
  parse_floating f64 (View "d" (str_bytes "1.5e1") double_value) = Some 0x402e000000000000 ∧
  parse_floating f64 (View "d" (str_bytes "1.5e") double_value) = None ∧
  as_bool (View "b" (str_bytes "1") bool_value) = Some true.
Proof. by vm_compute. Qed.

End value_view.

(** ** Printed numbers are taken whole *)

Lemma strto_whole_to_string z :
  strto_whole (str_bytes (to_string z)) = Some (z <? 0, Z.abs z).
Proof.
  destruct (to_string_digits z) as (ds & -> & Hds & Hne & _).
  pose proof (digits_read _ _ Hds 0) as Hv. rewrite Z.mul_0_l, Z.add_0_l in Hv.
  destruct Hds as [Hd _]. apply forallb_Forall in Hd as Hb.
  unfold strto_whole. destruct Hd as [|b ds Hdig Hd]; [done|]. destruct (z <? 0).
  - cbn [app skip_spaces]. change (space x2d) with false. cbn [read_sign].
    change (u8 x2d =? 45) with true. cbv iota. by rewrite Hb, Hv.
  - cbn [app skip_spaces]. rewrite digit_not_space by done. cbn [read_sign].
    destruct (digit_not_sign b Hdig) as [-> ->]. by rewrite Hb, Hv.
Qed.

Lemma strtod_end_decimal (neg : bool) n :
  0 ≤ n →
  strtod_end ((if neg then [x2d] else []) ++ str_bytes (to_string (n / 10 ^ 6)) ++ [x2e] ++
              str_bytes (pad6 (to_string (n mod 10 ^ 6)))) = Some [].
Proof.
  intros Hn. pose proof (Z.mod_pos_bound n (10 ^ 6) ltac:(lia)) as Hr.
  destruct (to_string_digits (n / 10 ^ 6)) as (ds & -> & Hds & Hne & _).
  pose proof (Z.div_pos n (10 ^ 6) Hn ltac:(lia)).
  rewrite (proj2 (Z.ltb_ge _ 0)), Z.abs_eq in * by lia. rewrite app_nil_l.
  destruct (pad6_digits _ Hr) as [Hes _]. set (es := str_bytes (pad6 _)) in *.
  pose proof (read_mantissa_decimal _ _ _ _ Hds Hes Hne) as Hm.
  destruct Hds as [Hd _]. destruct Hd as [|b ds Hb Hd]; [done|]. cbn [app] in *.
  assert (read_sign (skip_spaces ((if neg then [x2d] else []) ++ b :: ds ++ x2e :: es))
    = (neg, b :: ds ++ x2e :: es)) as Hs.
  { destruct neg; cbn [app skip_spaces].
    - done.
    - rewrite digit_not_space by done. cbn [read_sign].
      by destruct (digit_not_sign b Hb) as [-> ->]. }
  unfold strtod_end. rewrite Hs.
  rewrite !starts_digit by (done || (intros ? [= <-]; by right)).
  assert (starts "0x" (b :: ds ++ x2e :: es) = false) as -> by by apply decimal_not_hex.
  by rewrite Hm.
Qed.

Lemma strtod_end_to_string d : strtod_end (str_bytes (to_string_f64 d)) = Some [].
Proof.
  unfold to_string_f64. destruct (f_exp f64 d =? 2047).
  { by destruct (f_sign f64 d =? 0), (f_man f64 d =? 0). }
  cbv zeta. rewrite !str_bytes_app.
  pose proof (strtod_end_decimal (negb (f_sign f64 d =? 0)) _ (millionths_nonneg d)) as H.
  by destruct (f_sign f64 d =? 0).
Qed.

(** ** Lazy and eager reading *)

Section Agreement.
Context {C : Type} (make_shared : t C → C).

(** [v] yields [d] when it is asked for the type of [d]. *)
Definition extracted (v : value_view)
    (d : variant (option C) (option (list (value_variant C)))) : Prop :=
  match d with
  | V_null => value_view.size v = 0
  | V_bool b => value_view.as_bool v = Some b
  | V_short z => value_view.parse_signed 16 v = Some z
  | V_ushort z => value_view.parse_unsigned 16 v = Some z
  | V_int z => value_view.parse_signed 32 v = Some z
  | V_uint z => value_view.parse_unsigned 32 v = Some z
  | V_long z | V_llong z => value_view.parse_signed 64 v = Some z
  | V_ulong z | V_ullong z => value_view.parse_unsigned 64 v = Some z
  | V_float z => value_view.parse_floating f32 v = Some z
  | V_double z => value_view.parse_floating f64 v = Some z
  | V_string s => value_view.as_text v = Some (str_bytes s)
  | V_bytes bs => value_view.as_text v = Some bs
  | V_container _ | V_array _ => False
  end.

Lemma parse_signed_printed w n ty z :
  value_view.is_integral_type ty = true → - 2 ^ 63 ≤ z < 2 ^ 63 →
  value_view.parse_signed w (View n (str_bytes (to_string z)) ty) = Some (swrap w z).
Proof.
  intros Hty Hz. pose proof (strto_whole_to_string z) as Hs.
  unfold value_view.parse_signed, value_view.size. cbn [view_type view_data]. rewrite Hty.
  destruct (str_bytes (to_string z)) as [|b s]; [done|]. cbn [negb length]. rewrite Hs.
  destruct (Z.eqb_spec (Z.of_nat (S (length s))) 0); [lia|]. cbn [mbind option_bind].
  unfold strtoll_value. do 2 f_equal. destruct (Z.ltb_spec z 0); lia.
Qed.

Lemma parse_unsigned_printed w n ty z :
  value_view.is_integral_type ty = true → 0 ≤ z < 2 ^ 64 →
  value_view.parse_unsigned w (View n (str_bytes (to_string z)) ty) = Some (wrap w z).
Proof.
  intros Hty Hz. pose proof (strto_whole_to_string z) as Hs.
  unfold value_view.parse_unsigned, value_view.size. cbn [view_type view_data]. rewrite Hty.
  destruct (str_bytes (to_string z)) as [|b s]; [done|]. cbn [negb length]. rewrite Hs.
  destruct (Z.eqb_spec (Z.of_nat (S (length s))) 0); [lia|]. cbn [mbind option_bind].
  unfold strtoull_value. rewrite (proj2 (Z.ltb_ge z 0)), Z.abs_eq by lia.
  by rewrite (proj2 (Z.leb_gt (2 ^ 64) z)) by lia.
Qed.

Lemma parse_floating_printed f n ty d :
  ty = float_value ∨ ty = double_value →
  value_view.parse_floating f (View n (str_bytes (to_string_f64 d)) ty) = Some (printed f d).
Proof.
  intros Hty. pose proof (strtod_end_to_string d) as He.
  pose proof (strtod_to_string f d) as Hs.
  unfold value_view.parse_floating, value_view.size. cbn [view_type view_data].
  destruct (str_bytes (to_string_f64 d)) as [|b s]; [done|]. cbn [length]. rewrite Hs, He.
  destruct (Z.eqb_spec (Z.of_nat (S (length s))) 0); [lia|]. by destruct Hty as [-> | ->].
Qed.

Lemma extracted_unit (u : optimized_value C) :
  unit_ok u = true →
  extracted (View (name u) (unit_str u) (type u)) (vv (data (unit_norm u))).
Proof.
  unfold unit_ok, unit_str. rewrite !andb_true_iff, !bool_decide_eq_true. intros [[_ ->] Hv].
  destruct u as [n ty [w]]. unfold index_type, unit_norm in *. simpl in *.
  destruct w; simpl in *; unfold s_ok, u_ok in Hv;
    rewrite ?andb_true_iff, ?Z.leb_le, ?Z.ltb_lt in Hv; try done.
  all: rewrite ?parse_floating_printed by auto; try done.
  all: rewrite ?parse_signed_printed, ?parse_unsigned_printed by (done || lia).
  all: rewrite ?swrap_small, ?wrap_small by lia; try done.
  by destruct b.
Qed.

(** C21. Reading lazily agrees with reading eagerly: of a text the program wrote, the
    view of every key yields the value that [deserialize] would have stored under
    it ([unit_norm]), when it is asked for the type of that value; there is no
    view of any other key. *)
Theorem lazy_reading_agrees (c : t C) key :
  text_ok c = true →
  ∃ s lazy eager z v,
    serialize_to_string c = Some s ∧
    of_text make_shared s true = Val (inl lazy) ∧ of_text make_shared s false = Val (inl eager) ∧
    get_view key lazy = Val (z, v) ∧
    match v, get key eager with
    | Some v, Some u => value_view.name v = key ∧ value_view.type v = type u ∧
                        extracted v (vv (data u))
    | None, None => True
    | _, _ => False
    end.
Proof.
  intros Hok. destruct (written_view make_shared c Hok) as (lazy & Hl & Hv).
  destruct (Hv key) as [z Hz].
  exists (text_of c), lazy, (restored false c new), z. eexists. split_and!.
  - by apply text_written.
  - done.
  - unfold of_text, constructed. by rewrite deserialize_flat, text_read.
  - exact Hz.
  - unfold get. cbn [optimized_units_ restored with_data with_units].
    apply text_ok_spec in Hok as (_ & _ & Hus). apply forallb_Forall in Hus.
    assert (∀ us : list (optimized_value C), find_unit key (unit_norm <$> us) = unit_norm <$> find_unit key us) as ->.
    { induction us as [|u us IH]; [done|]. simpl. by case_bool_decide. }
    destruct (find_unit key (optimized_units_ c)) as [u|] eqn:E; [|done]. simpl.
    assert (name u = key ∧ unit_ok u = true) as [<- Hu].
    { clear Hz Hv Hl. induction Hus as [|u' us Hu' _ IH]; [done|]. simpl in E.
      case_bool_decide; [by injection E as <-|by apply IH]. }
    split_and!; [done..|]. by apply extracted_unit.
Qed.
End Agreement.

Lemma lazy_reading_agrees_witness :
  text_ok written_sample = true ∧
  ∃ s lazy eager z v,
    serialize_to_string written_sample = Some s ∧ of_text Node s true = Val (inl lazy) ∧
    of_text Node s false = Val (inl eager) ∧ get_view "n" lazy = Val (z, v).
Proof.
  split; [vm_compute; reflexivity|].
  destruct (lazy_reading_agrees Node written_sample "n") as (s & l & e & z & v & Hs & Hl & He & Hz & _).
  - vm_compute. reflexivity.
  - exists s, l, e, z, v. split; [assumption|split; [assumption|split; assumption]].
Defined.
