(* ===== verification/ContainerFacts.v ===== *)
(** * Facts about the values of a value_container

    What a container holds is the map from a name to the first value of that
    name ([view]).  [set] keeps names distinct and is an insertion into that
    map; [bulk_insert] appends without looking, so an earlier value of the same
    name stays the visible one. *)

From S2P Require Import Prelude Types ErrorCodes UnorderedMap Validation Container ContainerMsgpack.
Import value_container.

Section View.
Context {C : Type}.
Implicit Types (c : t C) (val : optimized_value C) (us : list (optimized_value C)).

Definition named us : list (string * optimized_value C) := (λ v, (name v, v)) <$> us.

Definition view c : gmap string (optimized_value C) := list_to_map (named (optimized_units_ c)).

Definition distinct c : Prop := NoDup (name <$> optimized_units_ c).

Lemma find_unit_view key us :
  find_unit key us = (list_to_map (named us) : gmap string (optimized_value C)) !! key.
Proof.
  induction us as [|v us IH]; simpl; [done|]. case_bool_decide as E.
  - by rewrite E, lookup_insert_eq.
  - by rewrite lookup_insert_ne.
Qed.

Lemma find_unit_elem key us : is_Some (find_unit key us) ↔ key ∈ name <$> us.
Proof.
  induction us as [|v us IH]; simpl.
  - split; [by intros [? ?]|by intros ?%not_elem_of_nil].
  - rewrite elem_of_cons. case_bool_decide as E; [split; eauto|].
    rewrite IH. split; [by right|]. intros [?|?]; [congruence|done].
Qed.

Lemma map_app (us vs : list (optimized_value C)) :
  list_to_map (named (us ++ vs)) =@{gmap string (optimized_value C)}
  list_to_map (named us) ∪ list_to_map (named vs).
Proof. unfold named. by rewrite fmap_app, list_to_map_app. Qed.

(** [replace_unit] finds what [find_unit] finds. *)
Lemma replace_unit_spec val us :
  match replace_unit val us with
  | Some us' => is_Some (find_unit (name val) us) ∧ name <$> us' = name <$> us ∧
      list_to_map (named us') =@{gmap string (optimized_value C)}
        <[name val := val]> (list_to_map (named us))
  | None => find_unit (name val) us = None
  end.
Proof.
  induction us as [|v us IH]; simpl; [done|]. case_bool_decide as E.
  - simpl. rewrite E, insert_insert_eq. by split_and!.
  - destruct (replace_unit val us) as [us'|]; [|done]. destruct IH as (H1 & H2 & H3).
    split_and!; [done|by apply (f_equal (cons (name v)))|].
    unfold named in *. cbn. rewrite H3. by rewrite insert_insert_ne by done.
Qed.

Lemma set_unit_units val c :
  optimized_units_ (set_unit_impl val c) =
  match replace_unit val (optimized_units_ c) with
  | Some us => us
  | None => optimized_units_ c ++ [val]
  end.
Proof.
  unfold set_unit_impl. destruct (replace_unit val _); [done|].
  unfold count_allocation. by case_match.
Qed.

(** Setting a value leaves only that value and values that were there. *)
Lemma set_unit_forall (Q : optimized_value C → Prop) val c :
  Q val → Forall Q (optimized_units_ c) → Forall Q (optimized_units_ (set_unit_impl val c)).
Proof.
  intros Hv. rewrite set_unit_units. generalize (optimized_units_ c). intros us Hus.
  destruct (replace_unit val us) as [us'|] eqn:E; [|by apply Forall_app_2; [|constructor]].
  revert us' E. induction Hus as [|u us Hu Hus IH]; intros us' E; [done|]. cbn in E.
  case_bool_decide; [injection E as <-; by constructor|].
  destruct (replace_unit val us) as [us2|]; [|done]. injection E as <-. constructor; [done|by apply IH].
Qed.

Lemma set_view val c : view (set_unit_impl val c) = <[name val := val]> (view c).
Proof.
  unfold view. rewrite set_unit_units. pose proof (replace_unit_spec val (optimized_units_ c)) as H.
  destruct (replace_unit val _) as [us|]; [apply H|].
  rewrite map_app. simpl. rewrite <-insert_union_r by (by rewrite <-find_unit_view).
  by rewrite map_union_empty.
Qed.

Lemma set_names val c :
  name <$> optimized_units_ (set_unit_impl val c) =
  if bool_decide (is_Some (view c !! name val)) then name <$> optimized_units_ c
  else (name <$> optimized_units_ c) ++ [name val].
Proof.
  unfold view. rewrite set_unit_units, <-find_unit_view.
  pose proof (replace_unit_spec val (optimized_units_ c)) as H.
  destruct (replace_unit val _) as [us|].
  - destruct H as (H1 & -> & _). by rewrite bool_decide_eq_true_2.
  - rewrite H, bool_decide_eq_false_2 by (by intros []). by rewrite fmap_app.
Qed.

Lemma set_distinct val c : distinct c → distinct (set_unit_impl val c).
Proof.
  unfold distinct. rewrite set_names. case_bool_decide as E; [done|]. intros Hd.
  unfold view in E. rewrite <-find_unit_view, find_unit_elem in E.
  apply list.NoDup_app. split_and!; [done| |apply NoDup_singleton].
  by intros x Hx ->%list_elem_of_singleton.
Qed.

Lemma set_frame val c :
  header_ (set_unit_impl val c) = header_ c ∧ changed_data_ (set_unit_impl val c) = true ∧
  parsed_data_ (set_unit_impl val c) = parsed_data_ c ∧
  data_string_ (set_unit_impl val c) = data_string_ c.
Proof.
  unfold set_unit_impl, count_allocation. repeat case_match; by split_and!.
Qed.

(** Values under new and distinct names are appended in order. *)
Lemma set_all_units vals c :
  NoDup (name <$> optimized_units_ c ++ vals) →
  optimized_units_ (set_all vals c) = optimized_units_ c ++ vals.
Proof.
  unfold set_all. revert c. induction vals as [|v vals IH]; intros c H; [by rewrite app_nil_r|].
  cbn [fold_left]. assert (optimized_units_ (set_unit_impl v c) = optimized_units_ c ++ [v]) as E.
  { rewrite set_unit_units. pose proof (replace_unit_spec v (optimized_units_ c)) as Hr.
    destruct (replace_unit v _) as [us|]; [|done]. destruct Hr as (Hin%find_unit_elem & _).
    rewrite fmap_app in H. apply list.NoDup_app in H as (_ & H & _).
    destruct (H _ Hin). cbn. by left. }
  rewrite IH; rewrite E, <-app_assoc; done.
Qed.

Lemma set_all_view vals c :
  view (set_all vals c) = list_to_map (named (rev vals)) ∪ view c.
Proof.
  revert c. unfold set_all. induction vals as [|v vals IH]; intros c; simpl.
  - by rewrite map_empty_union.
  - rewrite IH, map_app, set_view. simpl. rewrite insert_empty, <-map_union_assoc. f_equal.
    by rewrite insert_union_singleton_l.
Qed.

Lemma bulk_loop_units vals c :
  optimized_units_ (fold_left (λ c val,
    with_units (optimized_units_ c ++ [val]) (count_allocation val c)) vals c)
  = optimized_units_ c ++ vals.
Proof.
  revert c. induction vals as [|v vals IH]; intros c; simpl; [by rewrite app_nil_r|].
  rewrite IH. simpl. by rewrite <-app_assoc.
Qed.

Lemma bulk_insert_units vals c :
  optimized_units_ (bulk_insert vals c) = optimized_units_ c ++ vals.
Proof.
  unfold bulk_insert. case_bool_decide as E; [by rewrite E, app_nil_r|]. apply bulk_loop_units.
Qed.
End View.

Section Updates.
Context {C : Type}.
Context (same_container : option C → option C → bool).
Context (same_array : option (list (value_variant C)) → option (list (value_variant C)) → bool).
Implicit Types (us : list (optimized_value C)).

Lemma update_unit_spec key e n us :
  match update_unit same_container same_array key e n us with
  | Some us' => (∃ v, find_unit key us = Some v ∧
                  data_eqb same_container same_array (data v) e = true) ∧
      name <$> us' = name <$> us ∧
      list_to_map (named us') =@{gmap string (optimized_value C)}
        <[key := Optimized key (index_type n) n]> (list_to_map (named us))
  | None => ∀ v, find_unit key us = Some v →
              data_eqb same_container same_array (data v) e = false
  end.
Proof.
  induction us as [|v us IH]; cbn [update_unit find_unit]; [done|]. case_bool_decide as E.
  - destruct (data_eqb _ _ (data v) e) eqn:Ed; [|by intros ? [= <-]].
    split_and!; [by exists v|done|]. unfold named. cbn. by rewrite E, insert_insert_eq.
  - destruct (update_unit _ _ _ _ _ us) as [us'|]; [|done]. destruct IH as (H1 & H2 & H3).
    split_and!; [done|by apply (f_equal (cons (name v)))|].
    unfold named in *. cbn. rewrite H3. by rewrite insert_insert_ne by done.
Qed.
End Updates.

Section Batch.
Context {C : Type}.
Implicit Types (c : t C).

Lemma get_as_map_loop keys c m k :
  um_map (fold_left (λ results key,
    match find_unit key (optimized_units_ c) with
    | Some val => um_index default_optimized (λ _, val) key results
    | None => results
    end) keys m) !! k =
  if bool_decide (k ∈ keys ∧ is_Some (view c !! k)) then view c !! k else um_map m !! k.
Proof.
  revert m. induction keys as [|key keys IH]; intros m; cbn [fold_left].
  - rewrite bool_decide_eq_false_2; [done|]. by intros [?%not_elem_of_nil _].
  - rewrite IH. unfold view. rewrite find_unit_view. destruct (list_to_map _ !! key) as [v|] eqn:E.
    + rewrite um_index_map. destruct (decide (k = key)) as [->|Hk].
      * rewrite lookup_insert_eq, E, (bool_decide_eq_true_2 (key ∈ key :: keys ∧ _)) by
          (split; [apply list_elem_of_here|eauto]). by repeat case_bool_decide.
      * rewrite lookup_insert_ne by done.
        apply (f_equal (λ b : bool, if b then _ else _)), bool_decide_ext. rewrite elem_of_cons. naive_solver.
    + apply (f_equal (λ b : bool, if b then _ else _)), bool_decide_ext. rewrite elem_of_cons.
      split; [naive_solver|]. intros [[->|?] Hs]; [|done]. rewrite E in Hs. by destruct Hs.
Qed.
End Batch.

(** ** Properties *)

(** [set] is insertion into the map of the container: afterwards the name
    maps to the new value and every other name to what it was, distinct names
    stay distinct, the header is untouched and the container is marked changed. *)
Theorem set_inserts {C} (val : optimized_value C) c :
  view (set_value val c) = <[name val := val]> (view c) ∧
  (∀ key, get key (set_value val c) = if bool_decide (key = name val) then Some val else get key c) ∧
  (distinct c → distinct (set_value val c)) ∧
  header_ (set_value val c) = header_ c ∧ changed_data_ (set_value val c) = true.
Proof.
  unfold set_value. destruct (set_frame val c) as (Hh & Hc & _).
  split_and!; [apply set_view| |apply set_distinct|done|done].
  intros key. unfold get. rewrite !find_unit_view. fold (view (set_unit_impl val c)) (view c).
  rewrite set_view. case_bool_decide; [subst; apply lookup_insert_eq|by apply lookup_insert_ne].
Qed.

Lemma set_inserts_witness :
  distinct (set_value (Optimized "k" null_value (Vv V_null)) (node sample)).
Proof.
  apply (set_inserts (Optimized "k" null_value (Vv V_null)) (node sample)).
  apply (bool_decide_eq_true_1 (NoDup _)). vm_compute. reflexivity.
Defined.

(** The two ways to store many values differ on names that occur twice:
    [set_all] lets the last value win over earlier ones and over what was
    stored, [bulk_insert] appends them all, so that the stored value and then
    the first new one stays visible. *)
Theorem set_all_vs_bulk_insert {C} (vals : list (optimized_value C)) c :
  view (set_all vals c) = list_to_map (named (rev vals)) ∪ view c ∧
  (distinct c → distinct (set_all vals c)) ∧
  view (bulk_insert vals c) = view c ∪ list_to_map (named vals) ∧
  optimized_units_ (bulk_insert vals c) = optimized_units_ c ++ vals.
Proof.
  split_and!; [apply set_all_view| | |apply bulk_insert_units].
  - unfold set_all. revert c. induction vals as [|v vals IH]; intros c Hd; [done|].
    by apply IH, set_distinct.
  - unfold view. by rewrite bulk_insert_units, map_app.
Qed.

Lemma set_all_vs_bulk_insert_witness :
  distinct (set_all [Optimized "n" null_value (Vv V_null)] (node sample)).
Proof.
  apply (set_all_vs_bulk_insert [Optimized "n" null_value (Vv V_null)] (node sample)).
  apply (bool_decide_eq_true_1 (NoDup _)). vm_compute. reflexivity.
Defined.

(** [update_if] is a compare-and-swap on the visible value of the key: it
    succeeds exactly when the key is there and its data equals [expected]; then
    the key maps to the new data with the type of that data; otherwise the
    container is unchanged.  It never changes the names. *)
Theorem update_if_compare_and_swap {C} same_container same_array key e n (c : t C) :
  let (c', ok) := update_if same_container same_array key e n c in
  ok = match get key c with
       | Some v => data_eqb same_container same_array (data v) e
       | None => false
       end ∧
  (if ok then view c' = <[key := Optimized key (index_type n) n]> (view c) else c' = c) ∧
  name <$> optimized_units_ c' = name <$> optimized_units_ c.
Proof.
  unfold update_if, get, view.
  pose proof (update_unit_spec same_container same_array key e n (optimized_units_ c)) as H.
  destruct (update_unit _ _ _ _ _ _) as [us|].
  - destruct H as ((v & -> & ->) & Hn & Hv). simpl. by rewrite Hv.
  - split_and!; [|done|done]. destruct (find_unit _ _) as [v|]; [|done]. by rewrite H.
Qed.

(** [set_all_result] stores the values up to the first empty name and
    reports [empty_key] exactly when there is one: the earlier values stay
    stored, so a failure is not all-or-nothing. *)
Theorem set_all_result_prefix {C} (vals : list (optimized_value C)) c :
  ∃ pre post, vals = pre ++ post ∧ Forall (λ v, name v ≠ ""%string) pre ∧
  (set_all_result vals c).1 = set_all pre c ∧
  match (set_all_result vals c).2 with
  | inl _ => post = []
  | inr e => code e = error_codes.empty_key ∧ ∃ v rest, post = v :: rest ∧ name v = ""%string
  end.
Proof.
  revert c. induction vals as [|v vals IH]; intros c; simpl.
  - exists [], []. by split_and!.
  - case_bool_decide as E.
    + exists [], (v :: vals). split_and!; [done..|]. simpl. split; [done|]. by exists v, vals.
    + destruct (IH (set_unit_impl v c)) as (pre & post & -> & Hp & Hs & Hr).
      exists (v :: pre), post. split_and!; [done|by constructor|done|done].
Qed.

(** The batch readers agree with [get]: [get(keys)] and [contains_batch]
    answer key by key in order, and [get_as_map] holds exactly the requested
    keys that are present, with their visible values. *)
Theorem batch_reads_agree {C} (keys : list string) (c : t C) :
  get_batch keys c = (λ key, get key c) <$> keys ∧
  contains_batch keys c = (λ key, bool_decide (is_Some (get key c))) <$> keys ∧
  ∀ k, um_find k (get_as_map keys c) = if bool_decide (k ∈ keys) then get k c else None.
Proof.
  split_and!; [done|done|]. intros k. rewrite um_find_map. unfold get_as_map.
  rewrite get_as_map_loop, um_map_nil, lookup_empty. unfold get. rewrite find_unit_view.
  fold (view c). destruct (view c !! k) as [v|] eqn:E; repeat case_bool_decide; naive_solver.
Qed.

(** The move constructor does not move the values: the new container has the
    header and the text of the source and no values, which stay in the
    moved-from object; move assignment transfers them. *)
Theorem move_construct_keeps_no_values {C} (other c : t C) :
  optimized_units_ (move_construct other).1 = [] ∧
  optimized_units_ (move_construct other).2 = optimized_units_ other ∧
  header_ (move_construct other).1 = header_ other ∧
  optimized_units_ (move_assign c other).1 = optimized_units_ other ∧
  optimized_units_ (move_assign c other).2 = [].
Proof. done. Qed.
