(* ===== verification/ContainerMsgpackFacts.v ===== *)
(** * Facts about the MessagePack form of value_container

    The reader returns on every input and within its bound on the recursion;
    what the writer writes is read back up to [norm], which says what the
    format does not keep (the exact integer type, the ids of an untyped
    message, null array pointers). *)

From S2P Require Import Prelude Bytes Float Msgpack MsgpackFacts Types ErrorCodes.
From S2P Require Import UnorderedMap Validation Container ContainerMsgpack.
Import value_container.

(** ** What the format keeps *)

(** An array element: integers come back as [long long], a nested container as
    its encoding. *)
Definition norm_item (v : value_variant ctree) : value_variant ctree :=
  match vv v with
  | V_short z | V_ushort z | V_int z | V_uint z | V_long z | V_ulong z | V_llong z
  | V_ullong z => Vv (V_llong z)
  | V_container (Some n) =>
      match msgpack_serializer.serialize_container_to_msgpack n with
      | Some bs => Vv (V_bytes bs)
      | None => Vv V_null
      end
  | V_container None => Vv V_null
  | _ => v
  end.

Definition norm_data (norm : ctree → ctree) (v : value_variant ctree) : value_variant ctree :=
  match vv v with
  | V_short z | V_ushort z | V_int z | V_uint z | V_long z | V_ulong z | V_llong z
  | V_ullong z => from_msgpack.int_variant z
  | V_container (Some n) => Vv (V_container (Some (norm n)))
  | V_container None => Vv V_null
  | V_array l => Vv (V_array (Some (norm_item <$> default [] l)))
  | _ => v
  end.

Definition norm_unit (norm : ctree → ctree) (u : optimized_value ctree) : optimized_value ctree :=
  let v := norm_data norm (data u) in Optimized (name u) (index_type v) v.

Definition norm_header (h : header) : header :=
  if bool_decide (message_type_ h = "data_container"%string)
  then Header "" "" "" "" "data_container" (version_ h) else h.

(** The container that [c] becomes when it reads the encoding of the argument. *)
Definition restored (norm : ctree → ctree) (from c : value_container.t ctree)
    : value_container.t ctree :=
  with_data true false empty_data
    (with_units (norm_unit norm <$> optimized_units_ from)
       (with_header (norm_header (header_ from)) c)).

Fixpoint norm (n : ctree) : ctree := let 'Node c := n in Node (restored norm c new).

(** ** What the format can carry *)

Definition string_ok (s : string) : bool := str_len s <? 2 ^ 32.

Definition encoding_ok (n : ctree) : bool :=
  match msgpack_serializer.serialize_container_to_msgpack n with
  | Some bs => Z.of_nat (length bs) <? 2 ^ 32
  | None => false
  end.

(** The reader has no unsigned integers: they must fit the signed type. *)
Definition signed_fits (v : value_variant ctree) : bool :=
  match vv v with V_ulong z | V_ullong z => z <=? INT64_MAX | _ => true end.

(** Bytes that the reader does not take for a nested container. *)
Definition plain_bytes (bs : list byte) : bool :=
  (Z.of_nat (length bs) <? 2) ||
  match from_msgpack.from_msgpack_impl (from_msgpack.fuel_for bs) bs new with
  | Val (true, _) => false
  | _ => true
  end.

(** Elements of arrays: anything but an array. *)
Definition item_ok (v : value_variant ctree) : bool :=
  variant_ok (λ c, match c with Some n => encoding_ok n | None => true end) (λ _, false) (vv v)
  && signed_fits v.

Definition data_ok (nested : ctree → bool) (v : value_variant ctree) : bool :=
  variant_ok (λ c, match c with Some n => nested n && encoding_ok n | None => true end)
    (λ a, forallb item_ok (default [] a) && (Z.of_nat (length (default [] a)) <? 2 ^ 32)) (vv v)
  && signed_fits v && match vv v with V_bytes bs => plain_bytes bs | _ => true end.

Definition unit_ok (nested : ctree → bool) (u : optimized_value ctree) : bool :=
  string_ok (name u) && bool_decide (type u = index_type (data u)) && data_ok nested (data u).

Definition header_ok (h : header) : bool :=
  string_ok (source_id_ h) && string_ok (source_sub_id_ h) && string_ok (target_id_ h) &&
  string_ok (target_sub_id_ h) && string_ok (message_type_ h) && string_ok (version_ h).

Definition container_ok (nested : ctree → bool) (c : value_container.t ctree) : bool :=
  header_ok (header_ c) && forallb (unit_ok nested) (optimized_units_ c) &&
  (Z.of_nat (length (optimized_units_ c)) <? 2 ^ 32).

Fixpoint tree_ok (n : ctree) : bool := let 'Node c := n in container_ok tree_ok c.

(** ** The reader returns *)

Section Total.
Import msgpack_decoder from_msgpack.
Implicit Types d : t.

(** Two results that are the same, and stay inside the range. *)
Definition agree {A} d (r1 r2 : res (A * t)) : Prop := r1 = r2 ∧ moves_within d r1.

Lemma agree_refl {A} d (r : res (A * t)) : moves_within d r → agree d r r.
Proof. done. Qed.

Lemma agree_bind {A B} d (r1 r2 : res (A * t)) (k1 k2 : A * t → res (B * t)) :
  decoder_wf d → agree d r1 r2 →
  (∀ o d', r1 = Val (o, d') → decoder_wf d' → data_ d' = data_ d →
     agree d' (k1 (o, d')) (k2 (o, d'))) →
  agree d (res_bind k1 r1) (res_bind k2 r2).
Proof.
  intros Hd [<- (o & d' & E & Hdata & Ho)] Hk. rewrite E. simpl.
  assert (decoder_wf d') as Hwf by (unfold decoder_wf, size_ in *; rewrite Hdata; lia).
  destruct (Hk o d' E Hwf Hdata) as [Heq Hm]. split; [done|].
  apply (moves_step d d'); [done|lia|done].
Qed.

Lemma agree_val {A} d (o : A) : decoder_wf d → agree d (Val (o, d)) (Val (o, d)).
Proof. intros. by apply agree_refl, moves_here. Qed.

Lemma peek_bind {A} d (k1 k2 : msgpack_type → res (A * t)) :
  decoder_wf d → (∀ ty, peek_type d = Val ty → agree d (k1 ty) (k2 ty)) →
  agree d (res_bind k1 (peek_type d)) (res_bind k2 (peek_type d)).
Proof. intros Hd Hk. destruct (peek_type_in d Hd) as [ty E]. rewrite E. simpl. auto. Qed.

Lemma read_payload_fits len d bs d' :
  read_payload len d = Val (Some bs, d') → offset_ d + Z.of_nat (length bs) ≤ size_ d ∨ bs = [].
Proof.
  unfold read_payload, guard, range. case_match; [done|]. case_match; [|done].
  intros [= <- _]. destruct (Z.le_gt_cases len 0) as [Hl|Hl].
  - right. by replace (Z.to_nat len) with O by lia.
  - left. rewrite length_take, length_drop. unfold size_ in *. lia.
Qed.

(** The payload of a binary is shorter than the data it was read from. *)
Lemma read_binary_shorter d bs d' :
  decoder_wf d → read_binary d = Val (Some bs, d') → (length bs < length (data_ d))%nat.
Proof.
  intros [Hd _] H. unfold read_binary in H.
  destruct (Z.leb_spec (size_ d) (offset_ d)) as [|Hlt]; [done|].
  apply res_bind_Val_inv in H as (b & _ & H).
  assert (∃ n len, 1 ≤ n ∧ read_payload len (advance n d) = Val (Some bs, d')) as (n & len & Hn & Hp).
  { unfold guard in H.
    repeat case_match; try done;
      apply res_bind_Val_inv in H as ([len d1] & Hf & Hp);
      [unfold read_byte in Hf|unfold read_be16 in Hf|unfold read_be32 in Hf];
      repeat (apply res_bind_Val_inv in Hf as (? & _ & Hf)); injection Hf as _ <-;
      rewrite advance_advance in Hp; eexists _, len; (split; [|exact Hp]); lia. }
  apply read_payload_fits in Hp as [Hp | ->]; unfold size_ in *; simpl in *; lia.
Qed.

Lemma read_header_in n h d : decoder_wf d → agree d (read_header n h d) (read_header n h d).
Proof.
  revert h d. induction n as [|n IH]; intros h d Hd; cbn [read_header]; [by apply agree_val|].
  apply agree_bind; [done|by apply agree_refl, read_string_in|]. intros k d1 _ Hd1 _.
  apply agree_bind; [done|by apply agree_refl, read_string_in|]. intros v d2 _ Hd2 _.
  destruct k, v; try by apply agree_val. by apply IH.
Qed.

(** A reader followed by a pure continuation. *)
Lemma agree_map {A B} d (r : res (A * t)) (f : A → B) :
  decoder_wf d → moves_within d r →
  agree d (let? (x, d') := r in Val (f x, d')) (let? (x, d') := r in Val (f x, d')).
Proof.
  intros Hd Hr. apply agree_bind; [done|by apply agree_refl|]. intros ? d' _ ? _. by apply agree_val.
Qed.

Lemma read_item_in d : decoder_wf d → agree d (read_item d) (read_item d).
Proof.
  intros Hd. apply peek_bind; [done|]. intros [] _; try by apply agree_val;
  try (apply agree_map; eauto using read_nil_in, read_bool_in, read_int_in, read_float_in,
    read_double_in, read_string_in, read_binary_in).
  all: apply agree_map; eauto using read_nil_in, read_bool_in, read_int_in, read_float_in,
    read_double_in, read_string_in, read_binary_in.
Qed.

Lemma read_items_in n d : decoder_wf d → agree d (read_items n d) (read_items n d).
Proof.
  revert d. induction n as [|n IH]; intros d Hd; cbn [read_items]; [by apply agree_val|].
  apply agree_bind; [done|by apply read_item_in|]. intros x d1 _ Hd1 _.
  apply agree_bind; [done|by apply IH|]. intros xs d2 _ Hd2 _. by apply agree_val.
Qed.

Section Nested.
Context (nested1 nested2 : list byte → res (option ctree)) (len : nat).
Context (Hnested : ∀ b, (length b < len)%nat →
  nested1 b = nested2 b ∧ ∃ r, nested1 b = Val r).

Lemma typed_in {A} d (f : A → value_variant ctree) (r : res (option A * t)) :
  decoder_wf d → moves_within d r → agree d (typed f r) (typed f r).
Proof.
  intros Hd Hr. unfold typed, value. apply agree_bind; [done|by apply agree_map|].
  intros x d' _ ? _. by apply agree_val.
Qed.

Lemma read_value_in d :
  decoder_wf d → (length (data_ d) ≤ len)%nat → agree d (read_value nested1 d) (read_value nested2 d).
Proof.
  intros Hd Hl. apply peek_bind; [done|]. intros [] _;
    first [by apply agree_val | by apply typed_in; eauto using read_bool_in, read_int_in,
      read_float_in, read_double_in, read_string_in | idtac].
  - apply agree_bind; [done|by apply agree_refl, read_nil_in|]. intros ? d1 _ ? _. by apply agree_val.
  - apply agree_bind; [done|by apply agree_refl, read_binary_in|]. intros [b|] d1 Hb Hd1 _;
      [|by apply agree_val].
    apply read_binary_shorter in Hb; [|done]. destruct (Hnested b) as [<- [r Hr]]; [lia|].
    case_match; [rewrite Hr|]; simpl; [case_match|]; by apply agree_val.
  - apply agree_bind; [done|by apply agree_refl, read_array_header_in|]. intros [n|] d1 _ Hd1 _;
      [|by apply agree_val].
    apply agree_bind; [done|by apply read_items_in|]. intros ? d2 _ ? _. by apply agree_val.
Qed.

Lemma read_values_in n c d :
  decoder_wf d → (length (data_ d) ≤ len)%nat →
  agree d (read_values nested1 n c d) (read_values nested2 n c d).
Proof.
  revert c d. induction n as [|n IH]; intros c d Hd Hl; cbn [read_values]; [by apply agree_val|].
  apply agree_bind; [done|by apply agree_refl, read_string_in|].
  intros [k|] d1 _ Hd1 E1; [|by apply agree_val]. rewrite <-E1 in Hl.
  apply agree_bind; [done|by apply read_value_in|].
  intros [[ty v]|] d2 _ Hd2 E2; [|by apply agree_val]. rewrite <-E2 in Hl. by apply IH.
Qed.

Lemma read_outer_in n c d :
  decoder_wf d → (length (data_ d) ≤ len)%nat →
  agree d (read_outer nested1 n c d) (read_outer nested2 n c d).
Proof.
  revert c d. induction n as [|n IH]; intros c d Hd Hl; cbn [read_outer]; [by apply agree_val|].
  apply agree_bind; [done|by apply agree_refl, read_string_in|].
  intros [k|] d1 _ Hd1 E1; [|by apply agree_val]. rewrite <-E1 in Hl.
  case_match; [|case_match; [|by apply IH]];
    (apply agree_bind; [done|by apply agree_refl, read_map_header_in|];
     intros [m|] d2 _ Hd2 E2; [|by apply agree_val]; rewrite <-E2 in Hl).
  - apply agree_bind; [done|by apply read_header_in|]. intros [[] h] d3 _ Hd3 E3;
      [|by apply agree_val]. rewrite <-E3 in Hl. by apply IH.
  - apply agree_bind; [done|by apply read_values_in|]. intros [[] c'] d3 _ Hd3 E3;
      [|by apply agree_val]. rewrite <-E3 in Hl. by apply IH.
Qed.
End Nested.

(** The recursion is over payloads that get shorter, so any larger bound gives
    the same result. *)
Lemma from_msgpack_bound f1 f2 data c :
  (length data < f1)%nat → (length data < f2)%nat →
  from_msgpack_impl f1 data c = from_msgpack_impl f2 data c ∧
  ∃ r, from_msgpack_impl f1 data c = Val r.
Proof.
  revert f2 data c. induction f1 as [|f1 IH]; intros [|f2] data c H1 H2; [lia..|].
  cbn [from_msgpack_impl]. case_bool_decide; [eauto|].
  assert (decoder_wf (of_bytes data)) as Hd by (unfold decoder_wf, size_; simpl; lia).
  destruct (read_map_header_in _ Hd) as (o & d & -> & Hdata & Ho). simpl res_bind.
  destruct o as [n|]; [|eauto].
  assert (decoder_wf d) as Hwf by (unfold decoder_wf, size_ in *; rewrite Hdata in *; simpl in *; lia).
  edestruct (read_outer_in
    (λ b, let? (ok, c) := from_msgpack_impl f1 b new in Val (if ok : bool then Some (Node c) else None))
    (λ b, let? (ok, c) := from_msgpack_impl f2 b new in Val (if ok : bool then Some (Node c) else None))
    (length data)) as [<- ([ok c'] & d' & -> & _)]; [| |by rewrite Hdata|].
  - intros b Hb. destruct (IH f2 b new) as [<- [[ok c'] ->]]; [lia..|]. simpl. eauto.
  - done.
  - simpl. destruct ok; eauto.
Qed.
End Total.

(** ** What the writer writes *)

Section Emits.
Import msgpack_encoder.

(** A writer that appends [bs]. *)
Definition emits (w : msgpack_encoder.t → option msgpack_encoder.t) (bs : list byte) : Prop :=
  ∀ e, w e = Some (Encoder (buffer_ e ++ bs)).

Lemma write_token_eq tok e : write_token tok e = Encoder (buffer_ e ++ tok_bytes tok).
Proof. rewrite <-write_token_app. by destruct (write_token tok e). Qed.

Lemma emits_token tok : emits (λ e, Some (write_token tok e)) (tok_bytes tok).
Proof. intros e. by rewrite write_token_eq. Qed.

Lemma emits_each {A} (f : A → msgpack_encoder.t → option msgpack_encoder.t) (g : A → list byte) l :
  (∀ x, x ∈ l → emits (f x) (g x)) → emits (msgpack_serializer.write_each f l) (concat (g <$> l)).
Proof.
  intros Hf. induction l as [|x l IH]; intros e; simpl.
  - rewrite app_nil_r. by destruct e.
  - rewrite (Hf x (list_elem_of_here _ _) e). rewrite IH by auto using list_elem_of_further.
    simpl. by rewrite app_assoc.
Qed.
End Emits.

(** ** What the reader sees *)

Section Peek.
Import msgpack_decoder.
Implicit Types d : t.

Lemma tok_bytes_cons tok : ∃ b bs, tok_bytes tok = b :: bs.
Proof.
  unfold tok_bytes. destruct tok; simpl; unfold_writes; simpl; repeat case_match; simpl; eauto.
Qed.

Lemma peek_first d b bs :
  at_bytes (data_ d) (offset_ d) (b :: bs) → peek_type d = Val (type_of_byte (u8 b)).
Proof. intros H. unfold peek_type. by rewrite (read_first _ _ _ _ _ H). Qed.

(** In front of a token, [peek_type] announces a type its reader accepts. *)
Lemma peek_token tok d :
  token_ok tok = true → at_bytes (data_ d) (offset_ d) (tok_bytes tok) →
  ∃ ty, peek_type d = Val ty ∧ ty ∈ announced tok.
Proof.
  intros Hok Hat. pose proof (read_token_back tok d Hok Hat) as Hr.
  destruct (tok_bytes_cons tok) as (b & bs & E). rewrite E in Hat.
  pose proof (at_bytes_fits _ _ _ Hat) as [? Hf]. simpl in Hf.
  exists (type_of_byte (u8 b)). split; [by eapply peek_first|]. apply accepts_announced.
  destruct (accepts tok (u8 b)) eqn:Ha; [done|].
  rewrite (reader_refuses tok d b) in Hr; [done| |eauto using at_index_bytes|done].
  unfold size_. lia.
Qed.

Lemma peek_double z d :
  at_bytes (data_ d) (offset_ d) (tok_bytes (Tdouble z)) → peek_type d = Val mt_float64.
Proof.
  unfold tok_bytes, write_token. unfold_writes. simpl app. intros H. by rewrite (peek_first _ _ _ H).
Qed.
End Peek.

Section ValuesBack.
Import msgpack_decoder from_msgpack.
Implicit Types d : t.

(** [r], run where [bs] stands, returns [x] and moves behind [bs]. *)
Definition yields {A} (r : t → res (A * t)) (bs : list byte) (x : A) : Prop :=
  ∀ d, at_bytes (data_ d) (offset_ d) bs → r d = Val (x, advance (Z.of_nat (length bs)) d).

Lemma yields_bind {A B} (r : t → res (A * t)) (k : A → t → res (B * t)) bs1 bs2 x y :
  yields r bs1 x → yields (k x) bs2 y →
  yields (λ d, let? (x, d) := r d in k x d) (bs1 ++ bs2) y.
Proof.
  intros Hr Hk d [H1 H2]%at_bytes_app. rewrite (Hr d H1). simpl.
  rewrite (Hk (advance _ d) H2).
  rewrite advance_advance, length_app. do 3 f_equal. lia.
Qed.

(** The same for a continuation given as a function of the pair. *)
Lemma yields_step {A B} (r : t → res (A * t)) (k : A * t → res (B * t)) bs1 bs2 x y :
  yields r bs1 x → yields (λ d, k (x, d)) bs2 y →
  yields (λ d, res_bind k (r d)) (bs1 ++ bs2) y.
Proof.
  intros Hr Hk d [H1 H2]%at_bytes_app. rewrite (Hr d H1). simpl.
  rewrite (Hk (advance _ d) H2), advance_advance, length_app. do 3 f_equal. lia.
Qed.

Lemma yields_ret {A} (x : A) : yields (λ d, Val (x, d)) [] x.
Proof. intros d _. unfold advance. rewrite Z.add_0_r. by destruct d. Qed.

Lemma yields_then {A B} (r : t → res (A * t)) (f : A → B) bs x :
  yields r bs x → yields (λ d, let? (x, d) := r d in Val (f x, d)) bs (f x).
Proof. intros Hr d H. by rewrite (Hr d H). Qed.

Lemma yields_back {A} (r : reader A) bs x : reads_back r bs x → yields r bs (Some x).
Proof. done. Qed.

Lemma yields_int_of_uint v :
  0 ≤ v ≤ INT64_MAX → yields read_int (tok_bytes (Tuint v)) (Some v).
Proof.
  intros Hv d H. rewrite (read_int_of_uint v) by (try done; unfold u_ok, INT64_MAX in *; lia).
  by destruct (Z.ltb_spec INT64_MAX v); [lia|].
Qed.

Lemma yields_typed {A} (r : reader A) (f : A → value_variant ctree) bs x :
  yields r bs (Some x) →
  yields (λ d, typed f (r d)) bs (Some (index_type (f x), f x)).
Proof. intros Hr d H. unfold typed, value. by rewrite (Hr d H). Qed.

Lemma yields_elem {A} (r : reader A) (f : A → value_variant ctree) bs x :
  yields r bs (Some x) → yields (λ d, elem f (r d)) bs (f x).
Proof. intros Hr d H. unfold elem. by rewrite (Hr d H). Qed.

(** Reading behind [peek_type], where a token's bytes come first. *)
Lemma yields_peek {A} (k : msgpack_type → t → res (A * t)) tok bs x :
  token_ok tok = true → tok_bytes tok `prefix_of` bs →
  (∀ ty, ty ∈ announced tok → yields (k ty) bs x) →
  yields (λ d, let? ty := peek_type d in k ty d) bs x.
Proof.
  intros Hok [rest ->] Hk d Hat.
  destruct (peek_token tok d Hok (at_bytes_prefix _ _ _ _ Hat)) as (ty & -> & Hty).
  simpl. by apply Hk.
Qed.
End ValuesBack.

(** ** One value *)

Section Items.
Import msgpack_serializer from_msgpack.

(** The token of a value that is not an array. *)
Definition token_of (v : value_variant ctree) : token :=
  match vv v with
  | V_null | V_container None | V_array _ => Tnil
  | V_bool b => Tbool b
  | V_short z | V_int z | V_long z | V_llong z => Tint z
  | V_ushort z | V_uint z | V_ulong z | V_ullong z => Tuint z
  | V_float z => Tfloat z
  | V_double z => Tdouble z
  | V_string s => Tstr s
  | V_bytes bs => Tbin bs
  | V_container (Some n) => Tbin (default [] (serialize_container_to_msgpack n))
  end.

Definition items_of (v : value_variant ctree) : option (list (value_variant ctree)) :=
  match vv v with V_array a => Some (default [] a) | _ => None end.

Definition data_bytes (v : value_variant ctree) : list byte :=
  match items_of v with
  | Some l => tok_bytes (Tarray (Z.of_nat (length l))) ++ concat ((tok_bytes ∘ token_of) <$> l)
  | None => tok_bytes (token_of v)
  end.

(** The invariant of the variant in terms of its token. *)
Definition simple_ok (v : value_variant ctree) : Prop :=
  items_of v = None ∧ token_ok (token_of v) = true ∧ signed_fits v = true ∧
  match vv v with
  | V_container (Some n) => ∃ bs, serialize_container_to_msgpack n = Some bs
  | V_short z | V_int z | V_long z | V_llong z => s_ok 64 z = true
  | V_ushort z | V_uint z | V_ulong z | V_ullong z => 0 ≤ z ≤ INT64_MAX
  | _ => True
  end.

Lemma variant_simple okC (v : value_variant ctree) :
  variant_ok okC (λ _, false) (vv v) = true → signed_fits v = true →
  (∀ n, okC (Some n) = true → encoding_ok n = true) → simple_ok v.
Proof.
  intros Hok Hs HC. unfold simple_ok, items_of, token_of, signed_fits in *.
  destruct v as [[]]; simpl in *; unfold s_ok, u_ok, INT64_MAX in *;
    try (split_and!; done || lia).
  destruct c as [n|]; [|done]. apply HC in Hok. unfold encoding_ok in Hok.
  destruct (serialize_container_to_msgpack n) as [bs|]; [|done]. simpl. eauto.
Qed.

Lemma simple_emits v :
  simple_ok v → emits (write_value_to_encoder (index_type v) v) (tok_bytes (token_of v)).
Proof.
  intros (Ha & _ & _ & Hv) e. rewrite <-write_token_eq.
  destruct v as [[]]; try done.
  destruct c as [n|]; [|done]. destruct Hv as [bs Hbs]. cbn. by rewrite Hbs.
Qed.

Lemma array_emits l :
  Forall simple_ok l → Z.of_nat (length l) < 2 ^ 32 →
  emits (write_value_to_encoder array_value (Vv (V_array (Some l))))
    (tok_bytes (Tarray (Z.of_nat (length l))) ++ concat ((tok_bytes ∘ token_of) <$> l)).
Proof.
  intros Hl Hlen e.
  transitivity (write_each (λ item, write_value_to_encoder (index_type item) item) l
                  (write_token (Tarray (Z.of_nat (length l))) e)).
  - destruct l as [|x l]; [done|].
    change (write_each (λ item, write_value_to_encoder (index_type item) item) (x :: l)
              (msgpack_encoder.write_array_header (wrap 32 (Z.of_nat (length (x :: l)))) e) =
            write_each (λ item, write_value_to_encoder (index_type item) item) (x :: l)
              (msgpack_encoder.write_array_header (Z.of_nat (length (x :: l))) e)).
    by rewrite wrap_small by lia.
  - rewrite (emits_each _ (tok_bytes ∘ token_of)).
    + by rewrite write_token_eq, app_assoc.
    + intros x Hx. apply simple_emits. rewrite list.Forall_forall in Hl. by apply Hl.
Qed.

Lemma item_simple v : item_ok v = true → simple_ok v.
Proof. unfold item_ok. intros [??]%andb_prop. by eapply variant_simple. Qed.

(** The two shapes of a value: one token, or an array of such. *)
Lemma data_ok_inv nested v :
  data_ok nested v = true →
  simple_ok v ∨ ∃ a, v = Vv (V_array a) ∧ Forall simple_ok (default [] a) ∧
    Z.of_nat (length (default [] a)) < 2 ^ 32.
Proof.
  unfold data_ok. intros [[Hok Hs]%andb_prop _]%andb_prop.
  destruct (items_of v) as [l|] eqn:Hl.
  - right. destruct v as [[]]; try done. simpl in Hok. exists a. split; [done|].
    apply andb_prop in Hok as [Hi Hlen]. split; [|lia].
    apply forallb_Forall in Hi. eapply list.Forall_impl; [exact Hi|]. apply item_simple.
  - left. apply (variant_simple (λ c, match c with Some n => nested n && encoding_ok n | None => true end));
      [by destruct v as [[]]|done|]. by intros n [_ ?]%andb_prop.
Qed.

Lemma data_emits nested v :
  data_ok nested v = true → emits (write_value_to_encoder (index_type v) v) (data_bytes v).
Proof.
  intros [Hv|([l|] & -> & Hl & Hlen)]%data_ok_inv.
  - unfold data_bytes. rewrite (proj1 Hv). by apply simple_emits.
  - by apply array_emits.
  - intros e. change (data_bytes (Vv (V_array None))) with (tok_bytes (Tarray 0) ++ []).
    rewrite app_nil_r. by rewrite <-write_token_eq.
Qed.

(** *** Reading it back *)

#[local] Opaque tok_bytes.

(** The reader of each kind of token. *)
Lemma yields_nil : yields msgpack_decoder.read_nil (tok_bytes Tnil) true.
Proof. intros d H. by rewrite read_nil_back. Qed.

Lemma yields_int z : s_ok 64 z = true → yields msgpack_decoder.read_int (tok_bytes (Tint z)) (Some z).
Proof. intros. by apply read_int_back. Qed.

(** Behind [peek_type], where the bytes of a double come first. *)
Lemma yields_peek_double {A} (k : msgpack_type → msgpack_decoder.t → res (A * msgpack_decoder.t)) z x :
  yields (k mt_float64) (tok_bytes (Tdouble z)) x →
  yields (λ d, let? ty := msgpack_decoder.peek_type d in k ty d) (tok_bytes (Tdouble z)) x.
Proof. intros Hk d Hat. rewrite (peek_double _ _ Hat). by apply Hk. Qed.

Ltac announced_cases H :=
  repeat (apply elem_of_cons in H as [->|H]); [..|by apply not_elem_of_nil in H].

Ltac yields_scalar :=
  first [ apply yields_int; done
        | apply yields_int_of_uint; done
        | apply yields_back; first [apply read_bool_back | apply read_float_back
            | apply read_double_back | apply read_string_back | apply read_binary_back];
          try apply Z.ltb_lt; done ].

Lemma item_yields v :
  simple_ok v → yields read_item (tok_bytes (token_of v)) (norm_item v).
Proof.
  intros (Ha & Hok & Hs & Hv). unfold read_item.
  destruct v as [w]. destruct w as [|b|z|z|z|z|z|z|z|z|z|z|str|bs|c|a]; try done.
  12: { apply (yields_peek_double _ z).
        by apply (yields_elem msgpack_decoder.read_double (λ f, Vv (V_double f)) _ z), read_double_back. }
  all: eapply yields_peek; [exact Hok|done|]; intros ty Hty.
  - announced_cases Hty. apply (yields_then _ (λ _, Vv V_null) _ true), yields_nil.
  - announced_cases Hty. apply (yields_elem msgpack_decoder.read_bool (λ b, Vv (V_bool b)) _ b), read_bool_back.
  - announced_cases Hty; by apply (yields_elem msgpack_decoder.read_int (λ n, Vv (V_llong n)) _ z), yields_int.
  - announced_cases Hty; by apply (yields_elem msgpack_decoder.read_int (λ n, Vv (V_llong n)) _ z), yields_int_of_uint.
  - announced_cases Hty; by apply (yields_elem msgpack_decoder.read_int (λ n, Vv (V_llong n)) _ z), yields_int.
  - announced_cases Hty; by apply (yields_elem msgpack_decoder.read_int (λ n, Vv (V_llong n)) _ z), yields_int_of_uint.
  - announced_cases Hty; by apply (yields_elem msgpack_decoder.read_int (λ n, Vv (V_llong n)) _ z), yields_int.
  - announced_cases Hty; by apply (yields_elem msgpack_decoder.read_int (λ n, Vv (V_llong n)) _ z), yields_int_of_uint.
  - announced_cases Hty; by apply (yields_elem msgpack_decoder.read_int (λ n, Vv (V_llong n)) _ z), yields_int.
  - announced_cases Hty; by apply (yields_elem msgpack_decoder.read_int (λ n, Vv (V_llong n)) _ z), yields_int_of_uint.
  - announced_cases Hty. by apply (yields_elem msgpack_decoder.read_float (λ f, Vv (V_float f)) _ z), read_float_back.
  - announced_cases Hty. by apply (yields_elem msgpack_decoder.read_string (λ s, Vv (V_string s)) _ str), read_string_back, Z.ltb_lt.
  - announced_cases Hty. by apply (yields_elem msgpack_decoder.read_binary (λ b, Vv (V_bytes b)) _ bs), read_binary_back, Z.ltb_lt.
  - destruct c as [n|].
    + destruct Hv as [bs Hbs]. unfold norm_item, token_of in *. cbn in *. rewrite Hbs in *. cbn in *.
      announced_cases Hty. by apply (yields_elem msgpack_decoder.read_binary (λ b, Vv (V_bytes b)) _ bs), read_binary_back, Z.ltb_lt.
    + announced_cases Hty. apply (yields_then _ (λ _, Vv V_null) _ true), yields_nil.
Qed.

Lemma items_yield l :
  Forall simple_ok l →
  yields (read_items (length l)) (concat ((tok_bytes ∘ token_of) <$> l)) (norm_item <$> l).
Proof.
  induction 1 as [|v l Hv _ IH]; [apply yields_ret|]. cbn [length read_items fmap list_fmap concat].
  apply (yields_bind read_item (λ x d, let? (xs, d) := read_items (length l) d in Val (x :: xs, d))
           _ _ (norm_item v)); [by apply item_yields|].
  by apply (yields_then _ (cons (norm_item v)) _ (norm_item <$> l)).
Qed.

(** What a value needs from the reader of nested containers. *)
Definition nested_reads (nested : list byte → res (option ctree)) (v : value_variant ctree) : Prop :=
  match vv v with
  | V_container (Some n) => ∀ bs, serialize_container_to_msgpack n = Some bs →
      2 ≤ Z.of_nat (length bs) ∧ nested bs = Val (Some (norm n))
  | V_bytes bs => 2 ≤ Z.of_nat (length bs) → nested bs = Val None
  | _ => True
  end.

Lemma simple_yields nested v :
  simple_ok v → nested_reads nested v →
  yields (read_value nested) (tok_bytes (token_of v))
    (Some (index_type (norm_data norm v), norm_data norm v)).
Proof.
  intros (Ha & Hok & Hs & Hv) Hn. unfold read_value.
  destruct v as [w]. destruct w as [|b|z|z|z|z|z|z|z|z|z|z|str|bs|c|a]; try done.
  12: { apply (yields_peek_double _ z).
        by apply (yields_typed msgpack_decoder.read_double (λ f, Vv (V_double f)) _ z), read_double_back. }
  all: eapply yields_peek; [exact Hok|done|]; intros ty Hty.
  - announced_cases Hty. by apply (yields_then _ (λ _, Some (null_value, Vv V_null)) _ true), yields_nil.
  - announced_cases Hty. apply (yields_typed msgpack_decoder.read_bool (λ b, Vv (V_bool b)) _ b), read_bool_back.
  - announced_cases Hty; by apply (yields_typed msgpack_decoder.read_int int_variant _ z), yields_int.
  - announced_cases Hty; by apply (yields_typed msgpack_decoder.read_int int_variant _ z), yields_int_of_uint.
  - announced_cases Hty; by apply (yields_typed msgpack_decoder.read_int int_variant _ z), yields_int.
  - announced_cases Hty; by apply (yields_typed msgpack_decoder.read_int int_variant _ z), yields_int_of_uint.
  - announced_cases Hty; by apply (yields_typed msgpack_decoder.read_int int_variant _ z), yields_int.
  - announced_cases Hty; by apply (yields_typed msgpack_decoder.read_int int_variant _ z), yields_int_of_uint.
  - announced_cases Hty; by apply (yields_typed msgpack_decoder.read_int int_variant _ z), yields_int.
  - announced_cases Hty; by apply (yields_typed msgpack_decoder.read_int int_variant _ z), yields_int_of_uint.
  - announced_cases Hty. by apply (yields_typed msgpack_decoder.read_float (λ f, Vv (V_float f)) _ z), read_float_back.
  - announced_cases Hty. by apply (yields_typed msgpack_decoder.read_string (λ s, Vv (V_string s)) _ str), read_string_back, Z.ltb_lt.
  - announced_cases Hty. intros d Hat.
    rewrite (read_binary_back bs) by (done || by apply Z.ltb_lt). cbn [res_bind].
    destruct (Z.leb_spec 2 (Z.of_nat (length bs))) as [Hl|]; [rewrite (Hn Hl)|]; done.
  - destruct c as [n|].
    + destruct Hv as [bs Hbs]. unfold token_of in *. cbn in Hok, Hty, Hn |- *.
      rewrite Hbs in *. cbn in Hok, Hty |- *. announced_cases Hty. intros d Hat.
      rewrite (read_binary_back bs) by (done || by apply Z.ltb_lt). cbn [res_bind].
      destruct (Hn bs eq_refl) as [Hl Hnb].
      destruct (Z.leb_spec 2 (Z.of_nat (length bs))) as [_|]; [rewrite Hnb|lia]; done.
    + announced_cases Hty. by apply (yields_then _ (λ _, Some (null_value, Vv V_null)) _ true), yields_nil.
Qed.

Lemma array_yields nested l :
  Forall simple_ok l → Z.of_nat (length l) < 2 ^ 32 →
  yields (read_value nested)
    (tok_bytes (Tarray (Z.of_nat (length l))) ++ concat ((tok_bytes ∘ token_of) <$> l))
    (Some (array_value, Vv (V_array (Some (norm_item <$> l))))).
Proof.
  intros Hl Hlen. assert (token_ok (Tarray (Z.of_nat (length l))) = true) as Hok.
  { apply u_ok_spec. lia. }
  eapply yields_peek; [exact Hok|by eexists|]. intros ty Hty. announced_cases Hty.
  intros d [H1 H2]%at_bytes_app. rewrite (read_array_header_back (Z.of_nat (length l))) by done.
  cbn [res_bind]. rewrite Nat2Z.id. rewrite (items_yield l Hl (msgpack_decoder.advance _ d) H2). cbn [res_bind].
  unfold value. cbn [res_bind]. rewrite advance_advance, length_app. simpl. do 3 f_equal. lia.
Qed.

Lemma data_yields nested okn v :
  data_ok okn v = true → nested_reads nested v →
  yields (read_value nested) (data_bytes v)
    (Some (index_type (norm_data norm v), norm_data norm v)).
Proof.
  intros [Hv|(a & -> & Hl & Hlen)]%data_ok_inv Hn.
  - unfold data_bytes. rewrite (proj1 Hv). by apply simple_yields.
  - by apply array_yields.
Qed.
End Items.

(** ** A whole container *)

Section Containers.
Import msgpack_serializer from_msgpack.

Definition unit_bytes (u : optimized_value ctree) : list byte :=
  tok_bytes (Tstr (name u)) ++ data_bytes (data u).

(** The key-value pairs of the header map, in the writer's order. *)
Definition header_pairs (h : header) : list (string * string) :=
  (if bool_decide (message_type_ h = "data_container"%string) then []
   else [("target_id", target_id_ h); ("target_sub_id", target_sub_id_ h);
         ("source_id", source_id_ h); ("source_sub_id", source_sub_id_ h)])%string ++
  [("message_type", message_type_ h); ("version", version_ h)]%string.

Definition pair_tokens (kv : string * string) : list token := [Tstr kv.1; Tstr kv.2].

Definition header_tokens (h : header) : list token :=
  [Tmap 2; Tstr "header"; Tmap (Z.of_nat (length (header_pairs h)))] ++
  concat (pair_tokens <$> header_pairs h) ++ [Tstr "values"].

Definition tokens_bytes (ts : list token) : list byte := concat (tok_bytes <$> ts).

Definition container_bytes (c : value_container.t ctree) : list byte :=
  tokens_bytes (header_tokens (header_ c) ++ [Tmap (Z.of_nat (length (optimized_units_ c)))]) ++
  concat (unit_bytes <$> optimized_units_ c).

Lemma write_header_tokens h e :
  write_header h e = msgpack_encoder.Encoder
    (msgpack_encoder.buffer_ e ++ tokens_bytes (header_tokens h)).
Proof.
  transitivity (fold_left (λ e t, write_token t e) (header_tokens h) e).
  - unfold write_header, header_tokens, header_pairs.
    case_bool_decide; cbn [negb app concat fmap list_fmap pair_tokens fst snd fold_left length];
      cbn [write_token]; reflexivity.
  - unfold tokens_bytes. rewrite <-write_tokens_app. by destruct (fold_left _ _ _).
Qed.

(** The writer unfolds to its loop over the values. *)
Lemma serialize_container_eq c :
  serialize_container_to_msgpack (Node c) =
  (λ e, msgpack_encoder.buffer_ e) <$>
    write_each (λ u e, write_value_to_encoder (type u) (data u)
                         (msgpack_encoder.write_string (name u) e)) (optimized_units_ c)
      (msgpack_encoder.write_map_header (Z.of_nat (length (optimized_units_ c)))
         (write_header (header_ c) msgpack_encoder.empty)).
Proof. reflexivity. Qed.

Lemma unit_emits nested u :
  unit_ok nested u = true →
  emits (λ e, write_value_to_encoder (type u) (data u) (msgpack_encoder.write_string (name u) e))
    (unit_bytes u).
Proof.
  unfold unit_ok. intros [[_ Ht%bool_decide_eq_true]%andb_prop Hd]%andb_prop e.
  change (msgpack_encoder.write_string (name u) e) with (write_token (Tstr (name u)) e).
  rewrite write_token_eq, Ht, (data_emits nested) by done.
  cbn [msgpack_encoder.buffer_]. by rewrite <-app_assoc.
Qed.

Lemma serialize_bytes nested c :
  container_ok nested c = true →
  serialize_container_to_msgpack (Node c) = Some (container_bytes c).
Proof.
  unfold container_ok. intros [[_ Hu]%andb_prop _]%andb_prop. rewrite serialize_container_eq.
  change (msgpack_encoder.write_map_header ?n ?e) with (write_token (Tmap n) e).
  rewrite (emits_each _ unit_bytes).
  - rewrite write_header_tokens, write_token_eq. unfold container_bytes, tokens_bytes.
    rewrite fmap_app, concat_app, <-app_assoc. set (hb := concat (tok_bytes <$> header_tokens _)).
    cbn -[Z.of_nat]. by rewrite app_nil_r, <-app_assoc.
  - intros u Hin. apply forallb_Forall in Hu. rewrite list.Forall_forall in Hu.
    by apply (unit_emits nested), Hu.
Qed.

(** *** Reading it back *)

Lemma yields_string str : string_ok str = true →
  yields msgpack_decoder.read_string (tok_bytes (Tstr str)) (Some str).
Proof. intros H%Z.ltb_lt. by apply read_string_back. Qed.

(** Read steps on a decoder [d] at whose position [Hat] puts the bytes. *)
Ltac step_app Hat :=
  let H1 := fresh "H" in apply at_bytes_app in Hat as [H1 Hat]; revert H1.

Lemma header_yields kvs h :
  forallb (λ kv, string_ok kv.1 && string_ok kv.2) kvs = true →
  yields (read_header (length kvs) h) (tokens_bytes (concat (pair_tokens <$> kvs)))
    (true, fold_left (λ h kv, set_header_field kv.1 kv.2 h) kvs h).
Proof.
  revert h. induction kvs as [|[k v] kvs IH]; intros h Hok; [apply yields_ret|].
  cbn [forallb] in Hok. apply andb_prop in Hok as [[Hk Hv]%andb_prop Hok].
  change (tokens_bytes (concat (pair_tokens <$> (k, v) :: kvs)))
    with (tok_bytes (Tstr k) ++ tok_bytes (Tstr v) ++ tokens_bytes (concat (pair_tokens <$> kvs))).
  apply (yields_bind msgpack_decoder.read_string _ _ _ (Some k)); [by apply yields_string|].
  apply (yields_bind msgpack_decoder.read_string _ _ _ (Some v)); [by apply yields_string|].
  by apply IH.
Qed.

Lemma header_pairs_ok h : header_ok h = true →
  forallb (λ kv, string_ok kv.1 && string_ok kv.2) (header_pairs h) = true.
Proof.
  unfold header_ok, header_pairs. intros H. repeat (apply andb_prop in H as [H ?]).
  case_bool_decide; cbn [forallb app fst snd];
    repeat (apply andb_true_intro; split); try done.
Qed.

(** From the header [initialize] leaves, the pairs restore what the format keeps. *)
Lemma header_restored h :
  fold_left (λ h kv, set_header_field kv.1 kv.2 h) (header_pairs h)
    (Header "" "" "" "" "data_container" "1.0") = norm_header h.
Proof.
  unfold header_pairs, norm_header. destruct h as [sid ssub tid tsub ty v]. cbn [message_type_].
  case_bool_decide as E; [subst ty|]; reflexivity.
Qed.

Lemma values_yield nested okn us c :
  Forall (λ u, unit_ok okn u = true ∧ nested_reads nested (data u)) us →
  yields (read_values nested (length us) c) (concat (unit_bytes <$> us))
    (true, with_units (optimized_units_ c ++ (norm_unit norm <$> us)) c).
Proof.
  intros Hus. revert c. induction Hus as [|u us [Hu Hn] _ IH]; intros c.
  - simpl. rewrite app_nil_r. destruct c. apply yields_ret.
  - unfold unit_ok in Hu. apply andb_prop in Hu as [[Hname _]%andb_prop Hd].
    cbn [length read_values fmap list_fmap concat]. unfold unit_bytes at 1. rewrite <-app_assoc.
    apply (yields_bind msgpack_decoder.read_string _ _ _ (Some (name u))); [by apply yields_string|].
    apply (yields_bind (read_value nested) _ _ _
             (Some (index_type (norm_data norm (data u)), norm_data norm (data u))));
      [by apply (data_yields nested okn)|].
    eapply (eq_rect _ (λ x, yields _ _ (true, x))); [apply IH|].
    destruct c. unfold with_units. simpl. by rewrite <-app_assoc.
Qed.

Lemma container_bytes_split c :
  container_bytes c =
  tok_bytes (Tmap 2) ++ tok_bytes (Tstr "header") ++
  tok_bytes (Tmap (Z.of_nat (length (header_pairs (header_ c))))) ++
  tokens_bytes (concat (pair_tokens <$> header_pairs (header_ c))) ++ tok_bytes (Tstr "values") ++
  tok_bytes (Tmap (Z.of_nat (length (optimized_units_ c)))) ++
  concat (unit_bytes <$> optimized_units_ c).
Proof.
  unfold container_bytes, header_tokens, tokens_bytes.
  rewrite !fmap_app, !concat_app. cbn [fmap list_fmap concat app].
  by rewrite !app_nil_r, <-!app_assoc.
Qed.

Lemma header_pairs_length h : 0 ≤ Z.of_nat (length (header_pairs h)) < 2 ^ 32.
Proof. unfold header_pairs. case_bool_decide; simpl; lia. Qed.

Lemma yields_map_header n : 0 ≤ n < 2 ^ 32 →
  yields msgpack_decoder.read_map_header (tok_bytes (Tmap n)) (Some n).
Proof. intros Hn. apply read_map_header_back. by apply u_ok_spec. Qed.

Lemma outer_yields nested okn c c0 :
  container_ok okn c = true →
  Forall (λ u, nested_reads nested (data u)) (optimized_units_ c) →
  header_ c0 = Header "" "" "" "" "data_container" "1.0" → optimized_units_ c0 = [] →
  yields (λ d, let? (outer_count, d) := msgpack_decoder.read_map_header d in
               read_outer nested (Z.to_nat (default 0 outer_count)) c0 d) (container_bytes c)
    (true, with_units (norm_unit norm <$> optimized_units_ c)
             (with_header (norm_header (header_ c)) c0)).
Proof.
  unfold container_ok. intros [[Hh Hu]%andb_prop Hl%Z.ltb_lt]%andb_prop Hn Hh0 Hu0.
  rewrite container_bytes_split.
  apply (yields_bind msgpack_decoder.read_map_header
           (λ o, read_outer nested (Z.to_nat (default 0 o)) c0) _ _ (Some 2));
    [by apply yields_map_header|].
  change (Z.to_nat (default 0 (Some 2))) with 2%nat.
  apply (yields_bind msgpack_decoder.read_string _ _ _ (Some "header"%string)); [by apply yields_string|].
  change (bool_decide ("header"%string = "header"%string)) with true.
  apply (yields_step _ _ _ _ (Some (Z.of_nat (length (header_pairs (header_ c))))));
    [by apply yields_map_header, header_pairs_length|]. cbv beta iota. rewrite Nat2Z.id.
  eapply yields_step; [by apply header_yields, header_pairs_ok|]. cbv beta iota.
  rewrite Hh0, header_restored.
  apply (yields_step _ _ _ _ (Some "values"%string)); [by apply yields_string|]. cbv beta iota.
  change (bool_decide ("values"%string = "header"%string)) with false.
  change (bool_decide ("values"%string = "values"%string)) with true. cbv iota.
  apply (yields_step _ _ _ _ (Some (Z.of_nat (length (optimized_units_ c)))));
    [by apply yields_map_header; lia|]. cbv beta iota. rewrite Nat2Z.id.
  rewrite <-(app_nil_r (concat _)). eapply yields_step.
  - apply (values_yield nested okn). apply forallb_Forall in Hu. by apply list.Forall_and.
  - cbv beta iota. simpl. rewrite Hu0. apply yields_ret.
Qed.

(** *** Nested containers *)

Lemma length_bin bs : (length bs < length (tok_bytes (Tbin bs)))%nat.
Proof.
  #[local] Transparent tok_bytes. unfold tok_bytes, write_token. unfold_writes.
  repeat case_match; simpl; rewrite ?length_app; simpl; lia.
Qed.

Lemma length_concat_elem {A} (l : list (list A)) x :
  x ∈ l → (length x ≤ length (concat l))%nat.
Proof.
  induction l as [|y l IH]; [by intros ?%not_elem_of_nil|]. simpl. rewrite length_app.
  intros [->|H]%elem_of_cons; [lia|]. apply IH in H. lia.
Qed.

Lemma nested_shorter c u n bs :
  u ∈ optimized_units_ c → vv (data u) = V_container (Some n) →
  serialize_container_to_msgpack n = Some bs → (length bs < length (container_bytes c))%nat.
Proof.
  intros Hu Hd Hs. unfold container_bytes. rewrite length_app.
  assert (length (unit_bytes u) ≤ length (concat (unit_bytes <$> optimized_units_ c)))%nat
    by (apply length_concat_elem, list_elem_of_fmap; eauto).
  enough (length bs < length (unit_bytes u))%nat by lia.
  unfold unit_bytes, data_bytes, items_of, token_of. rewrite Hd, Hs, length_app. simpl default.
  pose proof (length_bin bs). lia.
Qed.

Lemma container_bytes_two c : 2 ≤ Z.of_nat (length (container_bytes c)).
Proof.
  rewrite container_bytes_split, !length_app.
  destruct (tok_bytes_cons (Tmap 2)) as (? & ? & ->).
  destruct (tok_bytes_cons (Tstr "header")) as (? & ? & ->). simpl length. lia.
Qed.

(** Induction on a container and the containers among its values. *)
Lemma ctree_nested_ind (P : ctree → Prop) :
  (∀ c, Forall (λ u, match vv (data u) with V_container (Some n) => P n | _ => True end)
          (optimized_units_ c) → P (Node c)) →
  ∀ n, P n.
Proof.
  intros H. fix IH 1. intros [[? ? ? ? ? ? ? ? us ? ? ? ?]]. apply H. simpl.
  induction us as [|[nm ty [d]] us IHus]; constructor; [|done].
  simpl. destruct d as [| | | | | | | | | | | | | |[n|]|]; try exact I. apply IH.
Qed.

Definition reads_itself (n : ctree) : Prop :=
  tree_ok n = true → ∀ f c, (length (container_bytes (node n)) < f)%nat →
  from_msgpack_impl f (container_bytes (node n)) c = Val (true, restored norm (node n) c).

(** What the values of [c] need from the recursive call, from the induction. *)
Lemma units_nested f c :
  container_ok tree_ok c = true → (length (container_bytes c) ≤ f)%nat →
  Forall (λ u, match vv (data u) with V_container (Some n) => reads_itself n | _ => True end)
    (optimized_units_ c) →
  Forall (λ u, nested_reads (λ b, let? (ok, c) := from_msgpack_impl f b new in
                 Val (if ok : bool then Some (Node c) else None)) (data u)) (optimized_units_ c).
Proof.
  intros Hok Hf IH. apply list.Forall_forall. intros u Hu.
  rewrite list.Forall_forall in IH. specialize (IH u Hu).
  assert (length (unit_bytes u) ≤ length (concat (unit_bytes <$> optimized_units_ c)))%nat as Hlu
    by (apply length_concat_elem, list_elem_of_fmap; eauto).
  unfold container_ok in Hok. apply andb_prop in Hok as [[_ Hus]%andb_prop _].
  apply forallb_Forall in Hus. rewrite list.Forall_forall in Hus.
  pose proof (Hus u Hu) as Hd. unfold unit_ok in Hd. apply andb_prop in Hd as [_ Hd].
  unfold nested_reads. destruct (vv (data u)) as [| | | | | | | | | | | | |bs|[n|]|] eqn:E; try exact I.
  - intros H2. unfold data_ok in Hd. rewrite E in Hd. apply andb_prop in Hd as [_ Hd].
    assert (length bs < length (unit_bytes u))%nat.
    { unfold unit_bytes, data_bytes, items_of, token_of. rewrite E, length_app.
      pose proof (length_bin bs). lia. }
    unfold container_bytes in Hf. rewrite length_app in Hf.
    unfold plain_bytes, fuel_for in Hd.
    destruct (from_msgpack_bound f (S (length bs)) bs new) as [-> [[ok c'] Hr]]; [lia..|].
    rewrite Hr in *. destruct ok; [|done]. simpl in Hd. lia.
  - intros bs Hbs. destruct n as [cn]. unfold data_ok in Hd. rewrite E in Hd.
    apply andb_prop in Hd as [[Hd _]%andb_prop _]. simpl in Hd. apply andb_prop in Hd as [Hd _].
    rewrite (serialize_bytes tree_ok) in Hbs by done. injection Hbs as <-.
    split; [apply container_bytes_two|]. rewrite (IH Hd); [done|]. cbn [node].
    assert (length (container_bytes cn) < length (container_bytes c))%nat; [|lia].
    eapply nested_shorter; [done..|]. by apply (serialize_bytes tree_ok).
Qed.

Lemma tree_reads_itself n : reads_itself n.
Proof.
  induction n as [c IH] using ctree_nested_ind. intros Hok [|f] c0 Hf; [lia|].
  cbn [node tree_ok] in *. cbn [from_msgpack_impl].
  rewrite bool_decide_eq_false_2 by
    (intros E; pose proof (container_bytes_two c) as H2; rewrite E in H2; simpl in H2; lia).
  pose proof (units_nested f c Hok ltac:(lia) IH) as Hn.
  pose proof (outer_yields _ tree_ok c (initialize c0) Hok Hn eq_refl eq_refl
    (msgpack_decoder.of_bytes (container_bytes c)) (at_bytes_all _)) as Hy.
  assert (msgpack_decoder.read_map_header (msgpack_decoder.of_bytes (container_bytes c)) =
    Val (Some 2, msgpack_decoder.advance (Z.of_nat (length (tok_bytes (Tmap 2))))
                   (msgpack_decoder.of_bytes (container_bytes c)))) as E2.
  { apply yields_map_header; [lia|]. simpl. rewrite container_bytes_split. apply at_bytes_start. }
  cbv beta in Hy. rewrite E2 in Hy |- *. cbn [res_bind default id from_option] in Hy |- *. by rewrite Hy.
Qed.

(** [fuel_for] is enough for the encoding. *)
Lemma ctree_roundtrip n c :
  tree_ok n = true → ∃ bs, serialize_container_to_msgpack n = Some bs ∧
  from_msgpack_impl (fuel_for bs) bs c = Val (true, restored norm (node n) c).
Proof.
  intros Hok. exists (container_bytes (node n)). destruct n as [c']. cbn [tree_ok node] in *.
  split; [by apply (serialize_bytes tree_ok)|].
  apply (tree_reads_itself (Node c')); [done|]. unfold fuel_for. simpl. lia.
Qed.
End Containers.

(** ** Properties *)

Lemma detect_container_bytes c : detect.detect_format (container_bytes c) = fmt_msgpack.
Proof.
  rewrite container_bytes_split.
  change (tok_bytes (Tmap 2)) with [x82]. reflexivity.
Qed.

(** C1. A container survives MessagePack: for every container the format can
    carry (strings and counts within its sizes, no unsigned value above
    [INT64_MAX], no arrays in arrays, no byte vector that is itself a
    container's encoding, nested containers likewise), [serialize] succeeds, its
    bytes are detected as MessagePack, and reading them into any container
    restores the header and the values, in order and with their names, up to
    [norm]: integers come back as [int] or [long long] with the same value,
    nested containers recursively; the rest of the state is that of a freshly
    cleared container. *)
Theorem container_msgpack_roundtrip what n c :
  tree_ok n = true →
  ∃ bs, msgpack_serializer.serialize what n = inl bs ∧
    detect.detect_format bs = fmt_msgpack ∧
    from_msgpack.deserialize bs c = Val (restored norm (node n) c, inl tt).
Proof.
  intros Hok. destruct (ctree_roundtrip n c Hok) as (bs & Hs & Hr). exists bs.
  unfold msgpack_serializer.serialize, from_msgpack.deserialize. rewrite Hs, Hr.
  split_and!; [done| |done]. destruct n as [c'].
  rewrite (serialize_bytes tree_ok) in Hs by done. injection Hs as <-.
  apply detect_container_bytes.
Qed.

Definition sample_nested : ctree :=
  Node (set "c" (Vv (V_container (Some sample)))
    (set "a" (Vv (V_array (Some [Vv (V_uint 7); Vv (V_string "x")])))
      (set "b" (Vv (V_bytes [x01; x02])) new))).

Lemma container_msgpack_roundtrip_witness :
  ∃ bs, msgpack_serializer.serialize "bad" sample_nested = inl bs ∧
    detect.detect_format bs = fmt_msgpack ∧
    from_msgpack.deserialize bs new = Val (restored norm (node sample_nested) new, inl tt).
Proof. apply container_msgpack_roundtrip. vm_compute. reflexivity. Defined.

(** C3. The MessagePack reader returns on every input: it never reads outside
    the data, and the nesting of binaries is bounded by the length of the data,
    so that [fuel_for] and every larger bound give the same answer.  On
    non-empty data nothing of the container's previous values or header is
    left, whether the reader succeeds or fails. *)
Theorem from_msgpack_total data c :
  (∃ r, ∀ fuel, (from_msgpack.fuel_for data ≤ fuel)%nat →
     from_msgpack.from_msgpack_impl fuel data c = Val r) ∧
  (data ≠ [] → from_msgpack.deserialize data c =
     from_msgpack.deserialize data (initialize c)).
Proof.
  unfold from_msgpack.fuel_for. split.
  - destruct (from_msgpack_bound (S (length data)) (S (length data)) data c) as [_ [r Hr]]; [lia..|].
    exists r. intros fuel Hf. rewrite <-Hr. apply from_msgpack_bound; lia.
  - intros Hd. unfold from_msgpack.deserialize, from_msgpack.fuel_for.
    cbn [from_msgpack.from_msgpack_impl]. rewrite !bool_decide_eq_false_2 by done. done.
Qed.

Lemma from_msgpack_total_witness :
  from_msgpack.deserialize [xdf] (node sample) =
    from_msgpack.deserialize [xdf] (initialize (node sample)).
Proof. apply (from_msgpack_total [xdf] (node sample)). discriminate. Defined.

(** Two values that the format carries and the reader misreads.  A byte
    vector that starts with an empty map (0x80) comes back as a container: the
    probe of [from_msgpack_impl] accepts any map.  An array inside an array is
    written but not skipped when it is read: what follows it is read from the
    wrong position, here up to a failure that loses the rest. *)
Theorem msgpack_misreads :
  match msgpack_serializer.serialize_container_to_msgpack
          (Node (set "b" (Vv (V_bytes [x80; x07; x07])) new)) with
  | Some bs => let? (c, r) := from_msgpack.deserialize bs new in Val (type <$> get "b" c, r)
  | None => Undef
  end = Val (Some container_value, inl tt) ∧
  match msgpack_serializer.serialize_container_to_msgpack
          (Node (set "z" (Vv (V_int 2))
             (set "a" (Vv (V_array (Some [Vv (V_array (Some [Vv (V_int 1)]))]))) new))) with
  | Some bs => let? (ok, c) := from_msgpack.from_msgpack_impl (from_msgpack.fuel_for bs) bs new in
               Val (ok, optimized_units_ c)
  | None => Undef
  end = Val (false, [Optimized "a" array_value (Vv (V_array (Some [Vv V_null])))]).
Proof. by vm_compute. Qed.
