(* ===== verification/Schema.v ===== *)
(** * container_schema

    [include/kcenon/container/container/schema.h] and
    [core/container_schema.cpp]: field definitions with constraints, and the
    validation of a value_container against them.

    The validators the client passes are functions whose result [None] is a
    thrown exception.  The patterns are the client's, in the language of
    [std::regex]: [compile] and [regex_match] stand for its constructor and for
    [std::regex_match], [None] for a thrown [std::regex_error]; nothing is
    assumed about them.  [deref] is the container behind a container pointer. *)

#[local] Set Warnings "-register-all".
From S2P Require Import Prelude Float Types ErrorCodes Validation Container.

Module container_schema.

(** [field_def]; [S] is the type of nested schemas. *)
Record field_def (C R S : Type) : Type := FieldDef {
  name : string;
  type : value_types;
  required : bool;
  min_int : option Z;
  max_int : option Z;
  min_double : option Z;
  max_double : option Z;
  min_length : option Z;
  max_length : option Z;
  pattern_str : option string;
  compiled_pattern : option R;
  allowed_values : option (list string);
  nested_schema : option S;
  custom_validators : list (optimized_value C → option (option string)) }.
Arguments FieldDef {C R S}.
Arguments name {C R S} _.
Arguments type {C R S} _.
Arguments required {C R S} _.
Arguments min_int {C R S} _.
Arguments max_int {C R S} _.
Arguments min_double {C R S} _.
Arguments max_double {C R S} _.
Arguments min_length {C R S} _.
Arguments max_length {C R S} _.
Arguments pattern_str {C R S} _.
Arguments compiled_pattern {C R S} _.
Arguments allowed_values {C R S} _.
Arguments nested_schema {C R S} _.
Arguments custom_validators {C R S} _.

Inductive t (C R : Type) : Type := Schema { fields_ : list (field_def C R (t C R)) }.
Arguments Schema {C R} _.
Arguments fields_ {C R} _.

Section Schema.
Context {C R : Type}.
Abbreviation schema := (t C R).
Abbreviation field := (field_def C R (t C R)).
Abbreviation error := validation_error.t.
Implicit Types (f : field) (s : schema) (value : optimized_value C) (errors : list error).

(** ** Building a schema *)

Definition empty : schema := Schema [].

(** [field_def()] and [field_def(n, t, req)] *)
Definition new_field (n : string) (ty : value_types) (req : bool) : field :=
  FieldDef n ty req None None None None None None None None None None [].
Definition default_field : field := new_field "" null_value false.

Definition with_nested (nested : schema) f : field :=
  FieldDef (name f) (type f) (required f) (min_int f) (max_int f) (min_double f) (max_double f)
    (min_length f) (max_length f) (pattern_str f) (compiled_pattern f) (allowed_values f)
    (Some nested) (custom_validators f).

Definition push f s : schema := Schema (fields_ s ++ [f]).

Definition require (key : string) (ty : value_types) s : schema :=
  push (new_field key ty true) s.
Definition optional (key : string) (ty : value_types) s : schema :=
  push (new_field key ty false) s.
Definition require_nested (key : string) (ty : value_types) (nested : schema) s : schema :=
  push (with_nested nested (new_field key ty true)) s.
Definition optional_nested (key : string) (ty : value_types) (nested : schema) s : schema :=
  push (with_nested nested (new_field key ty false)) s.

(** [find_field]: the first field of that name. *)
Fixpoint find_in (key : string) (fs : list field) : option field :=
  match fs with
  | [] => None
  | f :: fs => if bool_decide (name f = key) then Some f else find_in key fs
  end.
Definition find_field (key : string) s : option field := find_in key (fields_ s).

(** [if (auto* field = find_field(key)) <update *field>] *)
Fixpoint update_in (key : string) (upd : field → field) (fs : list field) : list field :=
  match fs with
  | [] => []
  | f :: fs => if bool_decide (name f = key) then upd f :: fs else f :: update_in key upd fs
  end.
Definition update_field (key : string) (upd : field → field) s : schema :=
  Schema (update_in key upd (fields_ s)).

Definition range_int64 (key : string) (min max : Z) s : schema :=
  update_field key (λ f,
    FieldDef (name f) (type f) (required f) (Some min) (Some max) (min_double f) (max_double f)
      (min_length f) (max_length f) (pattern_str f) (compiled_pattern f) (allowed_values f)
      (nested_schema f) (custom_validators f)) s.

Definition range_double (key : string) (min max : Z) s : schema :=
  update_field key (λ f,
    FieldDef (name f) (type f) (required f) (min_int f) (max_int f) (Some min) (Some max)
      (min_length f) (max_length f) (pattern_str f) (compiled_pattern f) (allowed_values f)
      (nested_schema f) (custom_validators f)) s.

(** [range] of an integral type (a conversion to [int64_t]), of [float] and of [double]. *)
Definition range (key : string) (min max : Z) s : schema :=
  range_int64 key (swrap 64 min) (swrap 64 max) s.
Definition range_f32 (key : string) (min max : Z) s : schema :=
  range_double key (f32_to_f64 min) (f32_to_f64 max) s.
Definition range_f64 (key : string) (min max : Z) s : schema := range_double key min max s.

Definition length (key : string) (min max : Z) s : schema :=
  update_field key (λ f,
    FieldDef (name f) (type f) (required f) (min_int f) (max_int f) (min_double f) (max_double f)
      (Some min) (Some max) (pattern_str f) (compiled_pattern f) (allowed_values f)
      (nested_schema f) (custom_validators f)) s.

Definition one_of (key : string) (allowed : list string) s : schema :=
  update_field key (λ f,
    FieldDef (name f) (type f) (required f) (min_int f) (max_int f) (min_double f) (max_double f)
      (min_length f) (max_length f) (pattern_str f) (compiled_pattern f) (Some allowed)
      (nested_schema f) (custom_validators f)) s.

Definition custom (key : string) (validator : optimized_value C → option (option string)) s
    : schema :=
  update_field key (λ f,
    FieldDef (name f) (type f) (required f) (min_int f) (max_int f) (min_double f) (max_double f)
      (min_length f) (max_length f) (pattern_str f) (compiled_pattern f) (allowed_values f)
      (nested_schema f) (custom_validators f ++ [validator])) s.

Definition field_count s : Z := Z.of_nat (List.length (fields_ s)).
Definition has_field (key : string) s : bool := bool_decide (is_Some (find_field key s)).
Definition is_required (key : string) s : bool :=
  match find_field key s with Some f => required f | None => false end.

(** ** Validation of one value

    Each check appends to [errors] and returns whether the value passed. *)

Definition push_back (e : error) errors : list error := errors ++ [e].

Definition validate_type f value errors : list error * bool :=
  if negb (bool_decide (Types.type value = type f))
  then (push_back (validation_error.type_mismatch (name f) (type f) (Types.type value)) errors, false)
  else (errors, true).

(** The [switch] over the integer types: [val] when [has_value]. *)
Definition int_value_of value : option Z :=
  match Types.type value, vv (data value) with
  | short_value, V_short z | ushort_value, V_ushort z | int_value, V_int z
  | uint_value, V_uint z | long_value, V_long z | llong_value, V_llong z => Some z
  | ulong_value, V_ulong z | ullong_value, V_ullong z => Some (swrap 64 z)
  | _, _ => None
  end.

Definition double_value_of value : option Z :=
  match Types.type value, vv (data value) with
  | float_value, V_float z => Some (f32_to_f64 z)
  | double_value, V_double z => Some z
  | _, _ => None
  end.

(** One range check: [None] when it passes. *)
Definition range_error (ltb : Z → Z → bool) (show : Z → string) f (val min max : option Z)
    : option error :=
  match min, max, val with
  | Some min, Some max, Some val =>
      if ltb val min || ltb max val
      then Some (validation_error.out_of_range show (name f) val min max) else None
  | _, _, _ => None
  end.

Definition validate_range f value errors : list error * bool :=
  match range_error Z.ltb to_string f (int_value_of value) (min_int f) (max_int f) with
  | Some e => (push_back e errors, false)
  | None =>
      match range_error (f_ltb f64) to_string_f64 f (double_value_of value)
              (min_double f) (max_double f) with
      | Some e => (push_back e errors, false)
      | None => (errors, true)
      end
  end.

Definition length_of value : option Z :=
  match Types.type value, vv (data value) with
  | string_value, V_string str => Some (str_len str)
  | bytes_value, V_bytes bs => Some (Z.of_nat (List.length bs))
  | _, _ => None
  end.

Definition validate_length f value errors : list error * bool :=
  match min_length f, max_length f, length_of value with
  | Some min, Some max, Some len =>
      if (len <? min) || (max <? len)
      then (push_back (validation_error.invalid_length (name f) len min max) errors, false)
      else (errors, true)
  | _, _, _ => (errors, true)
  end.

(** [std::get_if<std::string>] behind [value.type == string_value] *)
Definition string_of value : option string :=
  match Types.type value, vv (data value) with
  | string_value, V_string str => Some str
  | _, _ => None
  end.

Definition validate_allowed f value errors : list error * bool :=
  match allowed_values f, string_of value with
  | Some allowed, Some str =>
      if bool_decide (str ∈ allowed) then (errors, true)
      else (push_back (validation_error.not_allowed (name f) str) errors, false)
  | _, _ => (errors, true)
  end.

(** The first validator that reports a reason or throws ends the loop. *)
Fixpoint run_validators (field_name : string)
    (validators : list (optimized_value C → option (option string))) value errors
    : list error * bool :=
  match validators with
  | [] => (errors, true)
  | validator :: validators =>
      match validator value with
      | None => (push_back (validation_error.custom_failed field_name
                              "Validator threw an exception") errors, false)
      | Some (Some reason) => (push_back (validation_error.custom_failed field_name reason) errors, false)
      | Some None => run_validators field_name validators value errors
      end
  end.

Definition validate_custom f value errors : list error * bool :=
  run_validators (name f) (custom_validators f) value errors.

Section Validate.
Context (compile : string → option R).
Context (regex_match : R → string → option bool).
Context (deref : C → value_container.t C).

(** [pattern]: an invalid pattern leaves no compiled one. *)
Definition pattern (key regex_pattern : string) s : schema :=
  update_field key (λ f,
    FieldDef (name f) (type f) (required f) (min_int f) (max_int f) (min_double f) (max_double f)
      (min_length f) (max_length f) (Some regex_pattern) (compile regex_pattern)
      (allowed_values f) (nested_schema f) (custom_validators f)) s.

Definition validate_pattern f value errors : list error * bool :=
  match compiled_pattern f, string_of value with
  | Some re, Some str =>
      match regex_match re str with
      | Some true => (errors, true)
      | Some false | None =>
          (push_back (validation_error.pattern_mismatch (name f)
                        (default ""%string (pattern_str f))) errors, false)
      end
  | _, _ => (errors, true)
  end.

(** [rec] is [validate_all] of the nested schema. *)
Definition validate_nested (rec : schema → value_container.t C → list error) f value errors
    : list error * bool :=
  match nested_schema f with
  | None => (errors, true)
  | Some nested =>
      match Types.type value, vv (data value) with
      | container_value, V_container (Some c) =>
          match rec nested (deref c) with
          | [] => (errors, true)
          | nested_errors =>
              (push_back (validation_error.nested_failed (name f) nested_errors) errors ++
               (validation_error.prefixed (name f) <$> nested_errors), false)
          end
      | container_value, _ =>
          (push_back (validation_error.nested_failed (name f) []) errors, false)
      | _, _ => (errors, true)
      end
  end.

(** All seven checks run, whatever the earlier ones found. *)
Definition validate_field (rec : schema → value_container.t C → list error) f value errors
    : list error * bool :=
  let (errors, v1) := validate_type f value errors in
  let (errors, v2) := validate_range f value errors in
  let (errors, v3) := validate_length f value errors in
  let (errors, v4) := validate_pattern f value errors in
  let (errors, v5) := validate_allowed f value errors in
  let (errors, v6) := validate_custom f value errors in
  let (errors, v7) := validate_nested rec f value errors in
  (errors, v1 && v2 && v3 && v4 && v5 && v6 && v7).

(** One turn of the loop of [validate_all]. *)
Definition check_field (rec : schema → value_container.t C → list error)
    (container : value_container.t C) f errors : list error :=
  match value_container.get (name f) container with
  | None =>
      if required f then push_back (validation_error.missing_required (name f)) errors
      else errors
  | Some value => (validate_field rec f value errors).1
  end.

Fixpoint validate_all s (container : value_container.t C) : list error :=
  (fix loop (fs : list field) errors : list error :=
     match fs with
     | [] => errors
     | f :: fs => loop fs (check_field validate_all container f errors)
     end) (fields_ s) [].

Definition validate s (container : value_container.t C) : option error :=
  match validate_all s container with
  | [] => None
  | e :: _ => Some e
  end.

Definition validate_result s (container : value_container.t C) : unit + error_info :=
  match validate s container with
  | None => inl tt
  | Some err => inr (ErrorInfo (validation_error.code err) (validation_error.message err)
                       "container_schema")
  end.
End Validate.
End Schema.
End container_schema.
