(* ===== verification/Serializers.v ===== *)
(** * JSON and XML writers, the choice of a format

    [core/serializers/json_serializer.cpp], [xml_serializer.cpp],
    [serializer_factory.cpp], the escapes of
    [include/kcenon/container/container/variant_helpers.h], and the functions of
    [core/container.cpp] that take a format: [serialize], [serialize_string] and
    [deserialize].  There are no readers of JSON and XML in the program; text of
    either format goes to the reader of Text.v. *)

#[local] Set Warnings "-register-all".
From S2P Require Import Prelude Float Msgpack Types ErrorCodes UnorderedMap Validation Container.
From S2P Require Import ContainerMsgpack Regex Numbers Text Schema.
Import value_container.

(** ** Escapes *)

Module escape.

(** One character of [json_escape]; below 0x20 [\u%04x]. *)
Definition json_char (c : byte) : text :=
  if bool_decide (c = x22) then [x5c; x22]
  else if bool_decide (c = x5c) then [x5c; x5c]
  else if bool_decide (c = x08) then [x5c; x62]
  else if bool_decide (c = x0c) then [x5c; x66]
  else if bool_decide (c = x0a) then [x5c; x6e]
  else if bool_decide (c = x0d) then [x5c; x72]
  else if bool_decide (c = x09) then [x5c; x74]
  else if u8 c <? 32 then [x5c; x75; x30; x30; hex_digit (u8 c / 16); hex_digit (u8 c mod 16)]
  else [c].

Definition json_escape (input : text) : text := concat (json_char <$> input).

(** One character of [xml_encode]; control characters but tab and line breaks
    as [&#x%02x;]. *)
Definition xml_char (c : byte) : text :=
  if bool_decide (c = x26) then str_bytes "&amp;"
  else if bool_decide (c = x3c) then str_bytes "&lt;"
  else if bool_decide (c = x3e) then str_bytes "&gt;"
  else if bool_decide (c = x22) then str_bytes "&quot;"
  else if bool_decide (c = x27) then str_bytes "&apos;"
  else if (u8 c <? 32) && negb (bool_decide (c = x09)) && negb (bool_decide (c = x0a))
          && negb (bool_decide (c = x0d))
  then str_bytes "&#x" ++ [hex_digit (u8 c / 16); hex_digit (u8 c mod 16); x3b]
  else [c].

Definition xml_encode (input : text) : text := concat (xml_char <$> input).

(** [data_size(var, type)], LP64; [None] is [std::bad_variant_access]. *)
Definition data_size {C} (var : value_variant C) (ty : value_types) : option Z :=
  match ty, vv var with
  | null_value, _ => Some 0
  | bool_value, _ => Some 1
  | short_value, _ | ushort_value, _ => Some 2
  | int_value, _ | uint_value, _ | float_value, _ => Some 4
  | long_value, _ | ulong_value, _ | llong_value, _ | ullong_value, _ | double_value, _ => Some 8
  | string_value, V_string s => Some (str_len s)
  | bytes_value, V_bytes bs => Some (Z.of_nat (length bs))
  | (string_value | bytes_value), _ => None
  | (container_value | array_value), _ => Some 0
  end.
End escape.

Import escape.

(** ["..."] *)
Definition quoted (s : text) : text := x22 :: s ++ [x22].

(** ** JSON *)

Module json_serializer.

(** ["name":"value"] *)
Definition member (key : string) (v : string) : text :=
  quoted (str_bytes key) ++ [x3a] ++ quoted (json_escape (str_bytes v)).

Definition header_json (h : header) : text :=
  quoted (str_bytes "header") ++ str_bytes ":{" ++
  (if bool_decide (message_type_ h = "data_container"%string) then []
   else member "target_id" (target_id_ h) ++ [x2c] ++
        member "target_sub_id" (target_sub_id_ h) ++ [x2c] ++
        member "source_id" (source_id_ h) ++ [x2c] ++
        member "source_sub_id" (source_sub_id_ h) ++ [x2c]) ++
  member "message_type" (message_type_ h) ++ [x2c] ++ member "version" (version_ h) ++
  str_bytes "},".

(** Strings and bytes are quoted, everything else is written as it prints. *)
Definition value_json {C} (u : optimized_value C) : option text :=
  value_str ← variant_helpers.to_string (data u) (type u);
  let escaped_name := json_escape (str_bytes (name u)) in
  Some (quoted escaped_name ++ [x3a] ++
        (if bool_decide (type u = string_value) || bool_decide (type u = bytes_value)
         then quoted (json_escape value_str) else value_str)).

(** The loop, with its flag [first]. *)
Fixpoint values_json {C} (first : bool) (us : list (optimized_value C)) : option text :=
  match us with
  | [] => Some []
  | u :: us =>
      v ← value_json u;
      rest ← values_json false us;
      Some ((if first then [] else [x2c]) ++ v ++ rest)
  end.

Definition serialize_to_string {C} (c : t C) : option text :=
  values ← values_json true (get_variant_values c);
  Some (str_bytes "{" ++ header_json (header_ c) ++ quoted (str_bytes "values") ++
        str_bytes ":{" ++ values ++ str_bytes "}" ++ str_bytes "}").

Definition serialize {C} (what : string) (c : t C) : list byte + error_info :=
  match serialize_to_string c with
  | Some str => inl str
  | None => inr (ErrorInfo (-1) ("JSON serialization failed: " ++ what) "json_serializer")
  end.
End json_serializer.

(** ** XML *)

Module xml_serializer.

Definition element (tag : text) (content : text) : text :=
  str_bytes "<" ++ tag ++ str_bytes ">" ++ content ++ str_bytes "</" ++ tag ++ str_bytes ">".

Definition field (tag v : string) : text := element (str_bytes tag) (xml_encode (str_bytes v)).

Definition header_xml (h : header) : text :=
  str_bytes "<header>" ++
  (if bool_decide (message_type_ h = "data_container"%string) then []
   else field "target_id" (target_id_ h) ++ field "target_sub_id" (target_sub_id_ h) ++
        field "source_id" (source_id_ h) ++ field "source_sub_id" (source_sub_id_ h)) ++
  field "message_type" (message_type_ h) ++ field "version" (version_ h) ++
  str_bytes "</header>".

(** The name of a value is the tag, not encoded. *)
Definition value_xml {C} (u : optimized_value C) : option text :=
  value_str ← variant_helpers.to_string (data u) (type u);
  Some (element (str_bytes (name u)) (xml_encode value_str)).

Definition serialize_to_string {C} (c : t C) : option text :=
  values ← mapM value_xml (get_variant_values c);
  Some (str_bytes "<container>" ++ header_xml (header_ c) ++ str_bytes "<values>" ++
        concat values ++ str_bytes "</values>" ++ str_bytes "</container>").

Definition serialize {C} (what : string) (c : t C) : list byte + error_info :=
  match serialize_to_string c with
  | Some str => inl str
  | None => inr (ErrorInfo (-1) ("XML serialization failed: " ++ what) "xml_serializer")
  end.
End xml_serializer.

(** ** The factory *)

Inductive serializer_strategy : Type :=
| a_binary_serializer | a_json_serializer | a_xml_serializer | a_msgpack_serializer.

Module serializer_factory.
Definition create (fmt : serialization_format) : option serializer_strategy :=
  match fmt with
  | fmt_binary => Some a_binary_serializer
  | fmt_json => Some a_json_serializer
  | fmt_xml => Some a_xml_serializer
  | fmt_msgpack => Some a_msgpack_serializer
  | fmt_auto_detect | fmt_unknown => None
  end.

Definition is_supported (fmt : serialization_format) : bool :=
  match fmt with
  | fmt_binary | fmt_json | fmt_xml | fmt_msgpack => true
  | fmt_auto_detect | fmt_unknown => false
  end.
End serializer_factory.

(** ** The functions that take a format *)

Module unified.
Section Unified.
Context (what : std_exception → string).
Abbreviation t := (t ctree).
Implicit Type c : t.

Definition access_error : string := what bad_variant_access.

(** The virtual call [serializer->serialize]. *)
Definition run_serializer (s : serializer_strategy) c : list byte + error_info :=
  match s with
  | a_binary_serializer => binary_serializer.serialize access_error c
  | a_json_serializer => json_serializer.serialize access_error c
  | a_xml_serializer => xml_serializer.serialize access_error c
  | a_msgpack_serializer => msgpack_serializer.serialize access_error (Node c)
  end.

Definition bad_format : error_info :=
  error error_codes.invalid_format "Cannot serialize with auto_detect or unknown format".

Definition serialize (fmt : serialization_format) c : list byte + error_info :=
  match serializer_factory.create fmt with
  | None => inr bad_format
  | Some s => run_serializer s c
  end.

(** The [try] of [serialize_string]. *)
Definition caught (r : option text) : text + error_info :=
  match r with
  | Some s => inl s
  | None => inr (error error_codes.serialization_failed
                   (String.append "Serialization failed: " access_error))
  end.

Definition serialize_string (fmt : serialization_format) c : text + error_info :=
  match fmt with
  | fmt_binary => caught (binary_serializer.serialize_to_string c)
  | fmt_json => caught (json_serializer.serialize_to_string c)
  | fmt_xml => caught (xml_serializer.serialize_to_string c)
  | fmt_msgpack => msgpack_serializer.serialize access_error (Node c)
  | fmt_auto_detect | fmt_unknown => inr bad_format
  end.

Import text_container.

(** [deserialize(data, fmt)]; [detect] is [detect_format] of the argument's type. *)
Definition deserialize_with (detect : list byte → serialization_format) (data : list byte)
    (fmt : serialization_format) c : res (noexcept (t * (unit + error_info))) :=
  let fmt := if bool_decide (fmt = fmt_auto_detect) then detect data else fmt in
  match fmt with
  | fmt_binary | fmt_json | fmt_xml => deserialize_result Node "string data" data false c
  | fmt_msgpack => let? r := from_msgpack.deserialize data c in Val (Returned r)
  | fmt_unknown | fmt_auto_detect =>
      Val (Returned (c, inr (error error_codes.invalid_format
                               "Unknown or unsupported serialization format")))
  end.

(** Of a span of bytes, of a string. *)
Definition deserialize (data : list byte) (fmt : serialization_format) c :=
  deserialize_with detect.detect_format data fmt c.
Definition deserialize_text (data : text) (fmt : serialization_format) c :=
  deserialize_with detect.detect_format_text data fmt c.

(** [deserialize(data)] *)
Definition deserialize_auto (data : list byte) c :=
  deserialize data (detect.detect_format data) c.
Definition deserialize_text_auto (data : text) c :=
  deserialize_text data (detect.detect_format_text data) c.

(** [deserialize_result(data, schema, parse_only_header)]; [validate_all] is
    [schema.validate_all]. *)
Definition deserialize_validated (validate_all : t → list validation_error.t) (kind : string)
    (data : text) (parse_only_header : bool) c : res (noexcept (t * (unit + error_info))) :=
  let c := with_validation_errors [] c in
  let? r := deserialize_result Node kind data parse_only_header c in
  Val match r with
      | Returned (c, inl _) =>
          let errors := validate_all c in
          let c := with_validation_errors errors c in
          match errors with
          | [] => Returned (c, inl tt)
          | first_error :: _ =>
              Returned (c, inr (ErrorInfo (validation_error.code first_error)
                                  (validation_error.message first_error) "container_schema"))
          end
      | r => r
      end.
End Unified.
End unified.

Section Examples.
#[local] Open Scope string_scope.

(** In the expected text ['] stands for the double quote. *)
Example json_example :
  json_serializer.serialize_to_string (set "a" (Vv (V_int 5%Z)) (@new ctree))
  = Some ((λ b, if bool_decide (b = x27) then x22 else b) <$>
          str_bytes "{'header':{'message_type':'data_container','version':'1.0.0.0'},'values':{'a':5}}").
Proof. by vm_compute. Qed.

Example xml_example :
  option_map (λ s, bytes_str s)
    (xml_serializer.serialize_to_string (set "a" (Vv (V_string "x<y")) (@new ctree)))
  = Some ("<container><header><message_type>data_container</message_type>" ++
          "<version>1.0.0.0</version></header><values><a>x&lt;y</a></values></container>").
Proof. by vm_compute. Qed.
End Examples.
