(* ===== verification/SerializersFacts.v ===== *)
(** * Facts about the formats of value_container

    The escapes are decoded by the rules of RFC 8259 and XML 1.0
    ([escapes_decode]); a container written in the
    text format is recognized and restored ([binary_roundtrip]); JSON and XML are
    recognized and refused ([json_xml_not_readable]); a text that cannot be read
    costs the container its values ([deserialize_error_clears]); the two
    serializing functions agree ([serialize_string_agrees]). *)

#[local] Set Warnings "-register-all".
From S2P Require Import Prelude Types ErrorCodes Validation Container ContainerMsgpack.
From S2P Require Import Regex Numbers Json Text TextFacts TextScan TextRoundtrip Schema Serializers.
Import value_container escape unified text_container.

(** ** Decoding *)

(** Decoding a text step by step; a step takes one character. *)
Section Decode.
Context (step : text → option (text * text)).

Fixpoint decode (fuel : nat) (s : text) : option text :=
  match s, fuel with
  | [], _ => Some []
  | _, O => None
  | _, S fuel => r ← step s; app r.1 <$> decode fuel r.2
  end.

Lemma decode_encoded (code : byte → text) s :
  (∀ b r, step (code b ++ r) = Some ([b], r)) → (∀ b, code b ≠ []) →
  decode (length s) (concat (code <$> s)) = Some s.
Proof.
  intros Hstep Hne. induction s as [|b s IH]; [done|].
  cbn [fmap list_fmap concat length decode].
  destruct (code b ++ concat (code <$> s)) as [|x y] eqn:E.
  { apply app_eq_nil in E as [E _]. by destruct (Hne b). }
  rewrite <-E, Hstep. cbn [mbind option_bind fst snd]. by rewrite IH.
Qed.
End Decode.

Fixpoint to_semicolon (s : text) : option (text * text) :=
  match s with
  | [] => None
  | c :: s' => if bool_decide (c = x3b) then Some ([], s')
               else r ← to_semicolon s'; Some (c :: r.1, r.2)
  end.

(** XML 1.0, sections 4.1 and 4.6: a character or a reference; in content and in
    attribute values [<] and [&] cannot stand for themselves. *)
Definition xml_step (s : text) : option (text * text) :=
  match s with
  | [] => None
  | c :: r =>
      if bool_decide (c = x26) then
        e ← to_semicolon r;
        b ← (if bool_decide (e.1 = str_bytes "amp") then Some x26
             else if bool_decide (e.1 = str_bytes "lt") then Some x3c
             else if bool_decide (e.1 = str_bytes "gt") then Some x3e
             else if bool_decide (e.1 = str_bytes "quot") then Some x22
             else if bool_decide (e.1 = str_bytes "apos") then Some x27
             else if bool_decide (take 2 e.1 = str_bytes "#x")
                  then n ← hex_value (drop 2 e.1); Byte.of_N (Z.to_N n)
             else None);
        Some ([b], e.2)
      else if bool_decide (c = x3c) then None else Some ([c], r)
  end.

Lemma json_step_char b r : string_step (json_char b ++ r) = Some ([b], r).
Proof. by destruct b. Qed.

Lemma xml_step_char b r : xml_step (xml_char b ++ r) = Some ([b], r).
Proof. by destruct b. Qed.

(** Escaping loses nothing: read by the rules of RFC 8259, which refuse a bare
    quote or control character, an escaped string is the original; read by the
    rules of XML, so is an encoded one, in which no markup character is left. *)
Theorem escapes_decode s :
  decode string_step (length s) (json_escape s) = Some s ∧
  decode xml_step (length s) (xml_encode s) = Some s ∧
  Forall (λ b, b ∉ [x3c; x3e; x22; x27]) (xml_encode s).
Proof.
  split_and!.
  - apply decode_encoded; [apply json_step_char|by intros []].
  - apply decode_encoded; [apply xml_step_char|by intros []].
  - unfold xml_encode. induction s as [|b s IH]; [constructor|].
    cbn [fmap list_fmap concat]. apply Forall_app. split; [|exact IH].
    assert (forallb (λ x, bool_decide (x ∉ [x3c; x3e; x22; x27])) (xml_char b) = true) as H
      by by destruct b.
    apply forallb_Forall in H. eapply list.Forall_impl; [exact H|].
    intros x Hx. by apply bool_decide_eq_true in Hx.
Qed.

(** ** Round trip and refusal *)

(** C19. A container written in the text format is recognized as such and read back,
    under the explicit format and under auto-detection, from bytes and from a
    string: its values in order up to [unit_norm], its header up to
    [header_norm]. *)
Theorem binary_roundtrip what c c0 :
  text_ok c = true →
  ∃ s, serialize what fmt_binary c = inl s ∧ detect.detect_format s = fmt_binary ∧
    let r := Val (Returned (restored false c c0, inl tt)) in
    deserialize s fmt_binary c0 = r ∧ deserialize_auto s c0 = r ∧
    deserialize_text s fmt_binary c0 = r ∧ deserialize_text_auto s c0 = r.
Proof.
  intros Hok. exists (text_of c).
  assert (detect.detect_format (text_of c) = fmt_binary ∧
          detect.detect_format_text (text_of c) = fmt_binary) as [Hd Hdt].
  { unfold text_of, binary_serializer.header_text. by split. }
  assert (deserialize_result Node "string data" (text_of c) false c0
    = Val (Returned (restored false c c0, inl tt))) as E.
  { unfold deserialize_result. by rewrite deserialize_flat, text_read. }
  unfold deserialize_auto, deserialize_text_auto, deserialize, deserialize_text, deserialize_with.
  rewrite Hd, Hdt. split_and!; try done.
  unfold serialize, binary_serializer.serialize.
  cbn [serializer_factory.create run_serializer].
  unfold binary_serializer.serialize.
  by rewrite (text_written c Hok).
Qed.

Definition text_format (fmt : serialization_format) : bool :=
  match fmt with fmt_binary | fmt_json | fmt_xml => true | _ => false end.

Lemma read_text_failed (s : text) h (c c' : t ctree) :
  read_text Node s h c = (c', inl false) → optimized_units_ c' = [].
Proof.
  unfold read_text. destruct s; [by intros [= <-]|]. unfold read_values.
  destruct (regex_search text_reader.reData _) as [[[? ?] ?]|]; [|by intros [= <-]].
  destruct h; [done|]. by destruct (flat_units _ _) as [? [|]].
Qed.

(** There is no strong guarantee: when a text in any of the three text formats
    cannot be read, the error is [deserialization_failed] and the values the
    container held are gone, whatever they were. *)
Theorem deserialize_error_clears data fmt c c' e :
  text_format fmt = true → deserialize data fmt c = Val (Returned (c', inr e)) →
  optimized_units_ c' = [] ∧ code e = error_codes.deserialization_failed.
Proof.
  intros Hf. unfold deserialize, deserialize_with.
  assert (∀ r, deserialize_result Node "string data" data false c = Val (Returned (c', inr r)) →
    optimized_units_ c' = [] ∧ code r = error_codes.deserialization_failed) as H.
  { intros r. unfold deserialize_result. rewrite deserialize_flat.
    destruct (read_text Node data false c) as [c1 r1] eqn:E. simpl.
    destruct r1 as [[]|]; [done| |done]. intros [= <- <-].
    split; [by eapply read_text_failed|done]. }
  destruct fmt; try done; rewrite bool_decide_eq_false_2 by done; apply H.
Qed.

Lemma text_without_at (s : text) c :
  x40 ∉ s → ∃ c', deserialize_result Node "string data" s false c =
    Val (Returned (c', inr (error error_codes.deserialization_failed
      (error_codes.make_message error_codes.deserialization_failed "string data")))).
Proof.
  intros Hs. unfold deserialize_result. rewrite deserialize_flat. unfold read_text.
  destruct s as [|b s]; [by eexists|]. unfold read_values, text_reader.reData, text_reader.section_re.
  change (str_bytes "@data=") with (x40 :: str_bytes "data=").
  rewrite search_lit_none; [by eexists|]. by intros ?%remove_newlines_in.
Qed.

Lemma written_detected what fmt c s :
  fmt = fmt_json ∨ fmt = fmt_xml → serialize what fmt c = inl s → detect.detect_format s = fmt.
Proof.
  intros [-> | ->]; cbn [serialize serializer_factory.create run_serializer].
  - unfold json_serializer.serialize, json_serializer.serialize_to_string.
    destruct (json_serializer.values_json true (get_variant_values c)); [|done].
    by intros [= <-].
  - unfold xml_serializer.serialize, xml_serializer.serialize_to_string.
    destruct (mapM xml_serializer.value_xml (get_variant_values c)); [|done].
    by intros [= <-].
Qed.

(** JSON and XML can be written and not read: whatever a container holds, the
    text is recognized as JSON or XML, and refused, unless it contains the
    character that starts a section of the text format. *)
Theorem json_xml_not_readable what fmt c s c0 :
  fmt = fmt_json ∨ fmt = fmt_xml → serialize what fmt c = inl s → x40 ∉ s →
  detect.detect_format s = fmt ∧
  ∃ c' e, deserialize_auto s c0 = Val (Returned (c', inr e)) ∧
    code e = error_codes.deserialization_failed.
Proof.
  intros Hf Hs Hat.
  pose proof (written_detected what fmt c s Hf Hs) as Hd.
  split; [done|]. unfold deserialize_auto, deserialize, deserialize_with. rewrite Hd.
  destruct (text_without_at s c0 Hat) as (c' & E). exists c'.
  destruct Hf as [-> | ->]; rewrite bool_decide_eq_false_2 by done; rewrite E; by eexists.
Qed.

(** ** The two serializing functions *)

(** [serialize] and [serialize_string] agree: in every format one produces the
    same bytes as the other or both report an error, and the formats that
    produce something for some container are those [is_supported] names. *)
Theorem serialize_string_agrees what fmt c :
  (∀ s, serialize what fmt c = inl s ↔ serialize_string what fmt c = inl s) ∧
  (serializer_factory.is_supported fmt = true ↔ ∃ c' s, serialize what fmt c' = inl s).
Proof.
  split.
  - intros s. unfold serialize. destruct fmt; try done;
      cbn [serializer_factory.create run_serializer serialize_string];
      unfold binary_serializer.serialize, json_serializer.serialize, xml_serializer.serialize;
      match goal with |- context [caught what ?r] => by destruct r end.
  - split.
    + intros Hs. exists new. destruct fmt; try done; by eexists.
    + intros (c' & s & E). by destruct fmt.
Qed.

(** ** Concrete inputs *)

Definition no_text : std_exception → string := λ _, ""%string.

Lemma binary_roundtrip_witness :
  ∃ s, serialize no_text fmt_binary written_sample = inl s ∧
    deserialize_auto s new = Val (Returned (restored false written_sample new, inl tt)).
Proof.
  destruct (binary_roundtrip no_text written_sample new) as (s & Hs & _ & _ & Ha & _).
  - vm_compute. reflexivity.
  - exists s. split; assumption.
Defined.

Lemma deserialize_error_clears_witness :
  ∃ c', deserialize (str_bytes "{}") fmt_json written_sample
    = Val (Returned (c', inr (error error_codes.deserialization_failed
        (error_codes.make_message error_codes.deserialization_failed "string data")))) ∧
    optimized_units_ c' = [].
Proof.
  eexists. split; [vm_compute; reflexivity|].
  refine (proj1 (deserialize_error_clears (str_bytes "{}") fmt_json written_sample _ _ _ _)).
  - reflexivity.
  - vm_compute. reflexivity.
Defined.

Lemma json_xml_not_readable_witness :
  ∃ s, serialize no_text fmt_json written_sample = inl s ∧
    ∃ c' e, deserialize_auto s written_sample = Val (Returned (c', inr e)) ∧
      code e = error_codes.deserialization_failed.
Proof.
  eexists. split; [vm_compute; reflexivity|].
  refine (proj2 (json_xml_not_readable no_text fmt_json written_sample _ written_sample _ _ _)).
  - left. reflexivity.
  - vm_compute. reflexivity.
  - apply (bool_decide_unpack _). vm_compute. exact I.
Defined.
