(* ===== verification/ContainerCopies.v ===== *)
(** * value_container: byte arrays, copies and streams

    The operations of [core/container.cpp] that reduce to the text format: the
    constructor, [deserialize] and [deserialize_result] from bytes, [copy],
    [operator<<], and [bulk_insert] of a span; and [memory_footprint].

    [copies_differ]: a copy with values has them all; a copy without values
    writes none, but its views still show them, because clearing the values
    leaves the raw text of the constructor. *)

From S2P Require Import Prelude Types Container Validation ErrorCodes Regex Numbers Text TextFacts TextRoundtrip.
From S2P Require Import ContainerMsgpack TextViews Utilities Serializers.
Import value_container binary_serializer text_reader text_container.

Section Copies.
Context {C : Type} (make_shared : t C → C).
Abbreviation t := (t C).
Implicit Types (c other : t).

(** [deserialize(data_array, parse_only_header)] *)
Definition deserialize_bytes (data_array : list byte) (parse_only_header : bool) c : res (t * (bool + std_exception)) :=
  let (strVal, err) := convert_string.to_string data_array in
  if bool_decide (err = ""%string) then deserialize make_shared strVal parse_only_header c
  else Val (c, inl false).

(** [value_container(data_array, parse_only_header)] *)
Definition of_bytes (data_array : list byte) (parse_only_header : bool) : res (t + std_exception) :=
  let c := if parse_only_header then with_raw data_array new else new in
  constructed (deserialize_bytes data_array parse_only_header c).

(** [deserialize_result(data_array, parse_only_header)] *)
Definition deserialize_result_bytes (data_array : list byte) (parse_only_header : bool) c
    : res (noexcept (t * (unit + error_info))) :=
  let? (c, r) := deserialize_bytes data_array parse_only_header c in
  Val (match r with
       | inl true => Returned (c, inl tt)
       | inl false =>
           Returned (c, inr (error error_codes.deserialization_failed
                         (error_codes.make_message error_codes.deserialization_failed "byte array data")))
       | inr _ => Terminated
       end).

(** [copy(containing_values)]; it throws what writing or reading throws. *)
Definition copy_values (containing_values : bool) c : res (t + std_exception) :=
  match serialize_to_string c with
  | None => Val (inr bad_variant_access)
  | Some s =>
      let? r := of_text make_shared s (negb containing_values) in
      Val (match r with
           | inl newC => inl (if containing_values then newC else clear_value newC)
           | inr e => inr e
           end)
  end.

(** [bulk_insert(values, reserve_hint)] *)
Definition bulk_insert_span (values : list (optimized_value C)) (reserve_hint : Z) c : t :=
  if bool_decide (values = []) then c
  else with_changed (fold_left (λ c val,
         let c := if use_soo_ c && is_stack_allocated val
                  then with_allocations (heap_allocations_ c) (wrap 64 (stack_allocations_ c + 1)) c
                  else with_allocations (wrap 64 (heap_allocations_ c + 1)) (stack_allocations_ c) c in
         with_units (optimized_units_ c ++ [val]) c) values c).

(** [out << other] for a stream, which keeps what it has, and for a string, which
    is replaced; [None] is [std::bad_variant_access]. *)
Definition stream (out : text) (other : t) : option text := app out <$> serialize_to_string other.
Definition stream_ptr (out : text) (other : option t) : option text :=
  match other with Some other => stream out other | None => Some out end.
Definition stream_string (out : text) (other : t) : option text := serialize_to_string other.
Definition stream_string_ptr (out : text) (other : option t) : option text :=
  match other with Some other => stream_string out other | None => Some [] end.

(** ** Bytes are read as text *)

Theorem bytes_read_as_text data parse_only_header c :
  deserialize_bytes data parse_only_header c = deserialize make_shared data parse_only_header c ∧
  of_bytes data parse_only_header = of_text make_shared data parse_only_header ∧
  deserialize_result_bytes data parse_only_header c =
    deserialize_result make_shared "byte array data" data parse_only_header c.
Proof. done. Qed.

(** Inserting a span and inserting a vector are the same, whatever is reserved. *)
Lemma bulk_inserts_agree values hint c : bulk_insert_span values hint c = bulk_insert values c.
Proof.
  unfold bulk_insert_span, bulk_insert. case_bool_decide; [done|]. f_equal.
  clear H. revert c. induction values as [|val values IH]; intros c; [done|]. cbn [fold_left].
  rewrite <-IH. f_equal. unfold count_allocation. by case_match.
Qed.

(** ** Copies *)

Lemma find_norm key (us : list (optimized_value C)) :
  find_unit key (unit_norm <$> us) = unit_norm <$> find_unit key us.
Proof. induction us as [|u us IH]; [done|]. simpl. by case_bool_decide. Qed.

(** Of a container the format can carry, a copy with values has them all, up to the
    normal form of the format.  A copy without values has the header and writes no
    value, but asked for a view it shows every value of the original: clearing the
    values does not clear the raw text. *)
Theorem copies_differ c :
  text_ok c = true →
  ∃ full bare, copy_values true c = Val (inl full) ∧ copy_values false c = Val (inl bare) ∧
    header_ full = header_norm (header_ c) ∧ header_ bare = header_norm (header_ c) ∧
    (∀ key, get key full = unit_norm <$> get key c) ∧ (∀ key, get key bare = None) ∧
    serialize_to_string bare = Some (header_text (header_ c) ++ str_bytes "@data={{}};") ∧
    ∀ key, ∃ z, get_view key bare =
      Val (z, (λ u, View key (unit_str u) (type u)) <$> get key c).
Proof.
  intros Hok. destruct (written_view make_shared c Hok) as (lazy & Hl & Hv).
  assert (lazy = restored true c (with_raw (text_of c) new)) as Elazy.
  { unfold of_text, constructed in Hl. rewrite deserialize_flat, text_read in Hl by done. cbn in Hl. by injection Hl as <-. }
  exists (restored false c new), (clear_value lazy). unfold copy_values. rewrite text_written by done. split_and!.
  - unfold of_text, constructed. cbn [negb]. by rewrite deserialize_flat, text_read.
  - cbn [negb]. by rewrite Hl.
  - done.
  - by rewrite Elazy.
  - intros key. unfold get. cbn [optimized_units_ restored with_data with_units].
    apply find_norm.
  - done.
  - transitivity (Some (header_text (header_norm (header_ c)) ++ str_bytes empty_data));
      [by rewrite Elazy|by rewrite header_text_norm].
  - intros key. destruct (Hv key) as [z Hz]. assert (same_views lazy (clear_value lazy)) as Hs by done.
    assert (index_ok (clear_value lazy)) as Hi by (apply of_text_index_ok in Hl; exact Hl).
    destruct (get_view_total key _ Hi) as (z' & v & E & _). exists z'.
    apply (same_views_get key) in Hs. rewrite E, Hz in Hs. injection Hs as ->. exact E.
Qed.
End Copies.

(** ** Memory footprint

    How much room a string or vector has reserved depends on its history and not
    on its contents, so the capacities of an object are an argument. *)

Module footprint.

(** What [capacity()] answers for each string and vector of a container; the
    stored values are numbered as they lie in [optimized_units_]. *)
Record capacities : Type := Capacities {
  source_cap : Z; source_sub_cap : Z; target_cap : Z; target_sub_cap : Z;
  type_cap : Z; version_cap : Z; data_string_cap : Z; units_cap : Z;
  name_cap : nat → Z; data_cap : nat → Z }.

Section Footprint.
Context {C : Type} (sizeof_value sizeof_container : Z).

(** [optimized_value::memory_footprint()] of a value whose name and contents
    have the given capacities. *)
Definition value_footprint (n d : Z) (v : optimized_value C) : Z :=
  let base := sizeof_value in
  let base := wrap 64 (base + n) in
  match vv (data v) with
  | V_string _ => wrap 64 (base + d)
  | V_bytes _ => wrap 64 (base + d)
  | _ => base
  end.

(** The loop of [memory_footprint()], from the value numbered [i]. *)
Fixpoint footprint_loop (cap : capacities) (i : nat) (units : list (optimized_value C))
    (total : Z) : Z :=
  match units with
  | [] => total
  | ov :: units' =>
      footprint_loop cap (S i) units'
        (wrap 64 (total + value_footprint (name_cap cap i) (data_cap cap i) ov))
  end.

(** [value_container::memory_footprint()] *)
Definition memory_footprint (cap : capacities) (c : t C) : Z :=
  let total := sizeof_container in
  let total := wrap 64 (total + source_cap cap) in
  let total := wrap 64 (total + source_sub_cap cap) in
  let total := wrap 64 (total + target_cap cap) in
  let total := wrap 64 (total + target_sub_cap cap) in
  let total := wrap 64 (total + type_cap cap) in
  let total := wrap 64 (total + version_cap cap) in
  let total := wrap 64 (total + data_string_cap cap) in
  let total := wrap 64 (total + wrap 64 (units_cap cap * sizeof_value)) in
  footprint_loop cap 0 (optimized_units_ c) total.

(** The bytes a value has reserved outside itself, and those it needs there. *)
Definition reserved (n d : Z) (v : optimized_value C) : Z :=
  match vv (data v) with V_string _ | V_bytes _ => n + d | _ => n end.
Definition contents (v : optimized_value C) : Z :=
  str_len (name v) +
  match vv (data v) with
  | V_string s => str_len s
  | V_bytes bs => Z.of_nat (length bs)
  | _ => 0
  end.

Definition units_reserved (cap : capacities) (i : nat) (units : list (optimized_value C)) : Z :=
  foldr Z.add 0 (imap (λ j, reserved (name_cap cap (i + j)) (data_cap cap (i + j))) units).

Lemma value_footprint_eq n d v : value_footprint n d v = wrap 64 (sizeof_value + reserved n d v).
Proof.
  unfold value_footprint, reserved. destruct (vv (data v)); try done;
    by rewrite wrap_add, <-Z.add_assoc by lia.
Qed.

Lemma units_reserved_cons cap i v units :
  units_reserved cap i (v :: units) =
    reserved (name_cap cap i) (data_cap cap i) v + units_reserved cap (S i) units.
Proof.
  unfold units_reserved. rewrite imap_cons. cbn [foldr]. rewrite Nat.add_0_r. do 2 f_equal.
  apply imap_ext. intros j u _. cbn. by rewrite Nat.add_succ_r.
Qed.

Lemma footprint_loop_eq cap units : ∀ i total,
  wrap 64 (footprint_loop cap i units total) =
    wrap 64 (total + Z.of_nat (length units) * sizeof_value + units_reserved cap i units).
Proof.
  induction units as [|v units IH]; intros i total; [cbn; f_equal; lia|].
  cbn [footprint_loop]. rewrite IH, value_footprint_eq, units_reserved_cons. cbn [length].
  rewrite <-Z.add_assoc, wrap_add, (Z.add_comm total), <-Z.add_assoc, wrap_add by lia.
  f_equal. lia.
Qed.

Definition strings_reserved (cap : capacities) : Z :=
  source_cap cap + source_sub_cap cap + target_cap cap + target_sub_cap cap + type_cap cap +
  version_cap cap + data_string_cap cap.

Lemma footprint_loop_wrapped cap units : ∀ i total,
  wrap 64 total = total →
  wrap 64 (footprint_loop cap i units total) = footprint_loop cap i units total.
Proof.
  induction units as [|v units IH]; intros i total H; [done|]. cbn [footprint_loop].
  apply IH. by rewrite wrap_wrap by lia.
Qed.

(** What is reported is the sum modulo [2 ^ 64] in which every stored value counts
    twice with its size: in the capacity of the vector and on its own. *)
Lemma memory_footprint_eq cap c :
  memory_footprint cap c =
    wrap 64 (sizeof_container + strings_reserved cap +
             (units_cap cap + Z.of_nat (length (optimized_units_ c))) * sizeof_value +
             units_reserved cap 0 (optimized_units_ c)).
Proof.
  unfold memory_footprint. rewrite <-footprint_loop_wrapped by (by rewrite wrap_wrap by lia).
  rewrite footprint_loop_eq, <-Z.add_assoc, wrap_add by lia.
  unfold wrap, strings_reserved. rewrite (Z.add_comm _ (_ * _ mod _)), <-(Z.add_assoc (_ mod _)).
  rewrite Zplus_mod_idemp_l, Z.add_assoc, Z.add_comm, Z.add_assoc.
  rewrite Zplus_mod_idemp_r, Z.add_comm. repeat (rewrite Zplus_mod_idemp_l, <-Z.add_assoc).
  f_equal. lia.
Qed.

Definition units_contents (units : list (optimized_value C)) : Z :=
  foldr Z.add 0 (contents <$> units).

(** The capacities hold what the container holds. *)
Definition capacious (cap : capacities) (c : t C) : Prop :=
  0 ≤ strings_reserved cap ∧ Z.of_nat (length (optimized_units_ c)) ≤ units_cap cap ∧
  ∀ i v, optimized_units_ c !! i = Some v → contents v ≤ reserved (name_cap cap i) (data_cap cap i) v.

Lemma units_contents_nonneg units : 0 ≤ units_contents units.
Proof.
  unfold units_contents. induction units as [|v us IH]; [done|]. cbn.
  apply Z.add_nonneg_nonneg; [|done]. unfold contents, str_len. case_match; lia.
Qed.

Lemma units_contents_le cap units : ∀ i,
  (∀ j v, units !! j = Some v → contents v ≤ reserved (name_cap cap (i + j)) (data_cap cap (i + j)) v) →
  units_contents units ≤ units_reserved cap i units.
Proof.
  induction units as [|v units IH]; intros i H; [done|]. rewrite units_reserved_cons.
  apply Z.add_le_mono.
  - specialize (H 0%nat v eq_refl). by rewrite Nat.add_0_r in H.
  - apply IH. intros j u Hu. rewrite Nat.add_succ_comm. by apply (H (S j)).
Qed.

(** Without overflow, the report covers the container, every name, string and byte
    array, and each stored value at least twice. *)
Theorem footprint_counts_twice cap c :
  0 ≤ sizeof_value → 0 ≤ sizeof_container → capacious cap c →
  sizeof_container + strings_reserved cap + (units_cap cap + Z.of_nat (length (optimized_units_ c))) * sizeof_value +
    units_reserved cap 0 (optimized_units_ c) < 2 ^ 64 →
  sizeof_container + 2 * Z.of_nat (length (optimized_units_ c)) * sizeof_value +
    units_contents (optimized_units_ c) ≤ memory_footprint cap c.
Proof.
  intros Hv Hc (Hs & Hu & Hcap) Hlt. rewrite memory_footprint_eq.
  pose proof (units_contents_le cap (optimized_units_ c) 0 Hcap) as Hle.
  pose proof (units_contents_nonneg (optimized_units_ c)) as Hp.
  rewrite wrap_small; nia.
Qed.
End Footprint.
End footprint.

(** One value [n = true] with the capacities of libstdc++ (15 characters inside a
    string) and sizes of 64 bytes a value and 400 the container: the value is
    counted as 64 + 64 + 15 + 15. *)
Example footprint_of_one :
  footprint.memory_footprint 64 400
    (footprint.Capacities 15 15 15 15 15 15 15 1 (λ _, 15) (λ _, 15))
    (with_units [Optimized "n" bool_value (Vv (V_bool true));
                 Optimized "s" string_value (Vv (V_string "x"))] (new (C:=unit))) =
  400 + 7 * 15 + 64 + (64 + 15) + (64 + 15 + 15).
Proof. reflexivity. Qed.

(** [deserialize_result(data_array, schema, parse_only_header)] *)
Definition deserialize_validated_bytes (validate_all : t ctree → list validation_error.t)
    (data_array : list byte) (parse_only_header : bool) (c : t ctree)
    : res (noexcept (t ctree * (unit + error_info))) :=
  let c := with_validation_errors [] c in
  let? r := deserialize_result_bytes Node data_array parse_only_header c in
  Val match r with
      | Returned (c, inl _) =>
          let errors := validate_all c in
          let c := with_validation_errors errors c in
          match errors with
          | [] => Returned (c, inl tt)
          | first_error :: _ =>
              Returned (c, inr (ErrorInfo (validation_error.code first_error)
                                  (validation_error.message first_error) "container_schema"))
          end
      | r => r
      end.

Lemma validated_bytes_as_text validate_all data h c :
  deserialize_validated_bytes validate_all data h c =
    unified.deserialize_validated validate_all "byte array data" data h c.
Proof. done. Qed.

Lemma copies_differ_witness :
  ∃ bare z, copy_values Node false written_sample = Val (inl bare) ∧ get "n" bare = None ∧
    get_view "n" bare = Val (z, Some (View "n" (str_bytes "-5") int_value)).
Proof.
  destruct (copies_differ Node written_sample) as (full & bare & _ & Hb & _ & _ & _ & Hn & _ & Hv);
    [vm_compute; reflexivity|].
  destruct (Hv "n"%string) as [z Hz]. exists bare, z. split; [exact Hb|]. split; [apply Hn|exact Hz].
Defined.
