(* ===== verification/ModuleInterface.v ===== *)
(** * The C++20 module interface

    [src/modules/container.cppm] exports the library under the name
    [kcenon.container].  It does not include the headers: it declares the types
    again, with inline definitions of its own, which this file models.  Its
    variant has no array alternative.  Members it declares and does not define
    are parameters.

    [interface_agrees]: texts, sizes, escapes and type names are those of the
    headers; [module_get_agrees]: [get] finds the same values but reports its
    errors with other codes. *)

From S2P Require Import Prelude Float Types ErrorCodes Container Regex Numbers Text Serializers FloatArith ContainerCopies.

Module module_interface.

(** [type_map] and its functions. *)
Definition type_map : list (string * value_types) :=
  [("0", null_value); ("1", bool_value); ("2", short_value); ("3", ushort_value);
   ("4", int_value); ("5", uint_value); ("6", long_value); ("7", ulong_value);
   ("8", llong_value); ("9", ullong_value); ("10", float_value); ("11", double_value);
   ("12", string_value); ("13", bytes_value); ("14", container_value);
   ("15", array_value)]%string.

Definition get_type_from_string (str : string) : value_types :=
  match find (λ e, bool_decide (e.1 = str)) type_map with Some e => e.2 | None => null_value end.
Definition get_string_from_type (ty : value_types) : string :=
  match find (λ e, bool_decide (e.2 = ty)) type_map with Some e => e.1 | None => "0"%string end.
(** Both overloads of [convert_value_type]. *)
Definition convert_value_type (target : string) : value_types :=
  match find (λ e, bool_decide (e.1 = target)) type_map with Some e => e.2 | None => null_value end.
Definition convert_value_type_back (target : value_types) : string := get_string_from_type target.

Section Interface.
Context {C : Type}.

Definition value_variant : Type := variant (option C) Empty_set.

Record optimized_value : Type := Optimized { name : string; type : value_types; data : value_variant }.
Definition default_optimized : optimized_value := Optimized "" null_value V_null.
Definition new_optimized (n : string) (t : value_types) : optimized_value := Optimized n t V_null.

Definition is_stack_allocated (v : optimized_value) : bool :=
  negb (bool_decide (type v = string_value)) && negb (bool_decide (type v = bytes_value)) &&
  negb (bool_decide (type v = container_value)).

(** [optimized_value::memory_footprint()], with the capacities of the name and of
    the contents as in the footprint of the headers. *)
Definition unit_footprint (sizeof_value n d : Z) (v : optimized_value) : Z :=
  let base := sizeof_value in
  let base := wrap 64 (base + n) in
  match data v with
  | V_string _ => wrap 64 (base + d)
  | V_bytes _ => wrap 64 (base + d)
  | _ => base
  end.

(** [pool_stats], whose rate is computed once. *)
Record pool_stats : Type := PoolStats { hits : Z; misses : Z; available : Z; hit_rate : Z }.
Definition no_pool_stats : pool_stats := PoolStats 0 0 0 0.
Definition new_pool_stats (h m a : Z) : pool_stats :=
  let total := wrap 64 (h + m) in
  PoolStats h m a (if 0 <? total then f64_div (u64_to_f64 h) (u64_to_f64 total) else 0).

(** The loops of the two escapes. *)
Definition json_escape (input : text) : text :=
  fold_left (λ result c, result ++
    match c with
    | x22 => str_bytes "\" ++ [x22]
    | x5c => str_bytes "\\"
    | x08 => str_bytes "\b"
    | x0c => str_bytes "\f"
    | x0a => str_bytes "\n"
    | x0d => str_bytes "\r"
    | x09 => str_bytes "\t"
    | _ => if u8 c <? 0x20
           then str_bytes "\u00" ++ [hex_digit (u8 c / 16); hex_digit (u8 c mod 16)] else [c]
    end) input [].

Definition xml_encode (input : text) : text :=
  fold_left (λ result c, result ++
    match c with
    | x26 => str_bytes "&amp;"
    | x3c => str_bytes "&lt;"
    | x3e => str_bytes "&gt;"
    | x22 => str_bytes "&quot;"
    | x27 => str_bytes "&apos;"
    | _ => if (u8 c <? 0x20) && negb (u8 c =? 9) && negb (u8 c =? 10) && negb (u8 c =? 13)
           then str_bytes "&#x" ++ [hex_digit (u8 c / 16); hex_digit (u8 c mod 16)] ++ str_bytes ";"
           else [c]
    end) input [].

(** [None] is [std::bad_variant_access]. *)
Definition to_string (var : value_variant) (ty : value_types) : option text :=
  match ty, var with
  | null_value, _ => Some []
  | bool_value, V_bool b => Some (str_bytes (if b then "true" else "false"))
  | short_value, V_short z | ushort_value, V_ushort z | int_value, V_int z
  | uint_value, V_uint z | long_value, V_long z | ulong_value, V_ulong z
  | llong_value, V_llong z | ullong_value, V_ullong z => Some (str_bytes (Prelude.to_string z))
  | float_value, V_float z => Some (str_bytes (to_string_f64 (f32_to_f64 z)))
  | double_value, V_double z => Some (str_bytes (to_string_f64 z))
  | string_value, V_string s => Some (str_bytes s)
  | (bytes_value | container_value | array_value), _ => Some []
  | _, _ => None
  end.

Definition data_size (var : value_variant) (ty : value_types) : option Z :=
  match ty, var with
  | (null_value | container_value | array_value), _ => Some 0
  | bool_value, _ => Some 1
  | (short_value | ushort_value), _ => Some 2
  | (int_value | uint_value | float_value), _ => Some 4
  | (long_value | ulong_value | llong_value | ullong_value | double_value), _ => Some 8
  | string_value, V_string s => Some (str_len s)
  | bytes_value, V_bytes bs => Some (Z.of_nat (length bs))
  | (string_value | bytes_value), _ => None
  end.

(** What the inline members use of the state. *)
Record t : Type := Container {
  optimized_units_ : list optimized_value;
  use_soo_ : bool;
  heap_allocations_ : Z;
  stack_allocations_ : Z }.

(** [get<T>(key)]; [get_if] is [std::get_if<T>]. *)
Fixpoint find_unit (key : string) (us : list optimized_value) : option optimized_value :=
  match us with
  | [] => None
  | val :: us => if bool_decide (name val = key) then Some val else find_unit key us
  end.

Definition get {T} (get_if : value_variant → option T) (key : string) (c : t) : T + error_info :=
  match find_unit key (optimized_units_ c) with
  | Some val =>
      match get_if (data val) with
      | Some x => inl x
      | None => inr (ErrorInfo (-2) (String.append "Type mismatch for key: " key) "container_system")
      end
  | None => inr (ErrorInfo (-1) (String.append "Key not found: " key) "container_system")
  end.

(** [set(key, data_val)]; [set_unit_impl] is declared only. *)
Definition set (set_unit_impl : optimized_value → t → t) (key : string) (data_val : value_variant) (c : t) : t :=
  set_unit_impl (Optimized key (variant_type data_val) data_val) c.

Definition memory_stats (c : t) : Z * Z := (heap_allocations_ c, stack_allocations_ c).
Definition set_soo_enabled (enable : bool) (c : t) : t :=
  Container (optimized_units_ c) enable (heap_allocations_ c) (stack_allocations_ c).
Definition is_soo_enabled (c : t) : bool := use_soo_ c.
Definition size (c : t) : Z := Z.of_nat (length (optimized_units_ c)).
Definition empty (c : t) : bool := match optimized_units_ c with [] => true | _ => false end.

(** ** The same values in the header's types *)

Definition in_header (v : value_variant) : Types.value_variant C :=
  Vv (variant_map id (λ e : Empty_set, match e with end) v).
Definition unit_in_header (u : optimized_value) : Types.optimized_value C :=
  Types.Optimized (name u) (type u) (in_header (data u)).
End Interface.

Lemma fold_concat (f : byte → text) s r :
  fold_left (λ result c, result ++ f c) s r = r ++ concat (f <$> s).
Proof.
  revert r. induction s as [|c s IH]; intros r; simpl; [by rewrite app_nil_r|].
  by rewrite IH, app_assoc.
Qed.

Lemma escapes_agree s : json_escape s = escape.json_escape s ∧ xml_encode s = escape.xml_encode s.
Proof.
  unfold json_escape, xml_encode, escape.json_escape, escape.xml_encode. rewrite !fold_concat, !app_nil_l.
  split; f_equal; apply list_fmap_ext; intros _ c _; by destruct c.
Qed.

(** What the module defines again is what the headers define: type names, texts and
    sizes of values, escapes, and the values that count as stored inline. *)
Theorem interface_agrees {C} (v : value_variant (C:=C)) ty str s :
  get_type_from_string str = Types.get_type_from_string str ∧
  get_string_from_type ty = Types.get_string_from_type ty ∧
  convert_value_type (convert_value_type_back ty) = ty ∧
  to_string v ty = variant_helpers.to_string (in_header v) ty ∧
  data_size v ty = escape.data_size (in_header v) ty ∧
  json_escape s = escape.json_escape s ∧ xml_encode s = escape.xml_encode s ∧
  ∀ u : optimized_value (C:=C), is_stack_allocated u = Types.is_stack_allocated (unit_in_header u).
Proof.
  split_and!; [| | | | |apply escapes_agree..|done].
  - unfold get_type_from_string, Types.get_type_from_string, type_map, Types.type_map.
    cbn [find Types.find_key fst]. by repeat case_bool_decide.
  - by destruct ty.
  - by destruct ty.
  - by destruct ty, v.
  - by destruct ty, v.
Qed.

Lemma footprints_agree {C} sizeof_value n d (v : optimized_value (C:=C)) :
  unit_footprint sizeof_value n d v =
    footprint.value_footprint sizeof_value n d (unit_in_header v).
Proof. by destruct v as [? ? []]. Qed.

(** [get] finds what the header's finds; its errors have the codes -1 and -2 where
    the header has the library's codes. *)
Theorem module_get_agrees {C T} (get_if : Types.value_variant C → option T) key (c : t (C:=C)) hc :
  value_container.optimized_units_ hc = unit_in_header <$> optimized_units_ c →
  match get (λ v, get_if (in_header v)) key c, value_container.get_typed get_if key hc with
  | inl x, inl y => x = y
  | inr e, inr e' => (code e = -1 ∧ code e' = error_codes.key_not_found) ∨
                     (code e = -2 ∧ code e' = error_codes.type_mismatch)
  | _, _ => False
  end.
Proof.
  intros E. unfold get, value_container.get_typed. rewrite E.
  assert (value_container.find_unit key (unit_in_header <$> optimized_units_ c) =
    unit_in_header <$> find_unit key (optimized_units_ c)) as ->.
  { clear E. induction (optimized_units_ c) as [|u us IH]; [done|]. simpl. by case_bool_decide. }
  destruct (find_unit key (optimized_units_ c)) as [u|]; simpl; [|by left].
  destruct (get_if _); [done|by right].
Qed.
End module_interface.
