(* ===== verification/Concepts.v ===== *)
(** * Concepts

    [include/kcenon/container/concepts.h] and the compile-time part of
    [internal/value.h]: predicates on C++ types, for the types the program uses
    them with.  [data_model] says which of the two 64-bit integer types
    [int64_t] names.  Concepts that ask whether a callable accepts arguments are
    not predicates on these types and are left out.

    [admitted_alternatives]: the concept of the typed getters admits all
    alternatives of the variant but the two integer types that [int64_t] and
    [uint64_t] do not name. *)

From S2P Require Import Prelude Float Types.

Inductive data_model : Type := Int64_is_long | Int64_is_long_long.

(** What the concepts ask of a class. *)
Record class_info : Type := ClassInfo {
  to_string_view : bool; trivially_copyable : bool; has_serialize : bool; has_to_json : bool }.

Inductive cpp_type : Type :=
| T_monostate | T_bool | T_char | T_schar | T_uchar | T_short | T_ushort | T_int | T_uint
| T_long | T_ulong | T_llong | T_ullong | T_float | T_double | T_ldouble
| T_string | T_string_view | T_c_str | T_literal | T_bytes | T_container_ptr | T_array_variant
| T_class (c : class_info) | T_const (t : cpp_type) | T_ref (t : cpp_type).

#[export] Instance class_info_eq_dec : EqDecision class_info.
Proof. solve_decision. Defined.
#[export] Instance cpp_type_eq_dec : EqDecision cpp_type.
Proof. solve_decision. Defined.

Fixpoint remove_const (t : cpp_type) : cpp_type :=
  match t with T_const t => remove_const t | t => t end.
Definition remove_reference (t : cpp_type) : cpp_type :=
  match t with T_ref t => t | t => t end.
(** [std::decay_t]; a string literal is an array and decays to a pointer. *)
Definition decay (t : cpp_type) : cpp_type :=
  match remove_const (remove_reference t) with T_literal => T_c_str | t => t end.

Definition int64_t (m : data_model) : cpp_type :=
  match m with Int64_is_long => T_long | Int64_is_long_long => T_llong end.
Definition uint64_t (m : data_model) : cpp_type :=
  match m with Int64_is_long => T_ulong | Int64_is_long_long => T_ullong end.

Module concepts.

Definition integral (t : cpp_type) : bool :=
  match remove_const t with
  | T_bool | T_char | T_schar | T_uchar | T_short | T_ushort | T_int | T_uint
  | T_long | T_ulong | T_llong | T_ullong => true
  | _ => false
  end.
Definition IntegralType : cpp_type → bool := integral.
Definition FloatingPointType (t : cpp_type) : bool :=
  match remove_const t with T_float | T_double | T_ldouble => true | _ => false end.
Definition Arithmetic (t : cpp_type) : bool := integral t || FloatingPointType t.
(** [char] is signed here. *)
Definition SignedIntegral (t : cpp_type) : bool :=
  match remove_const t with
  | T_char | T_schar | T_short | T_int | T_long | T_llong => true
  | _ => false
  end.
Definition UnsignedIntegral (t : cpp_type) : bool := integral t && negb (SignedIntegral t).

Definition TriviallyCopyable (t : cpp_type) : bool :=
  match remove_const t with
  | T_string | T_bytes | T_container_ptr | T_array_variant | T_ref _ => false
  | T_class c => trivially_copyable c
  | _ => true
  end.

Definition same_decayed (u t : cpp_type) : bool := bool_decide (decay t = u).

Definition ValueVariantType (m : data_model) (t : cpp_type) : bool :=
  same_decayed T_monostate t || same_decayed T_bool t || same_decayed T_short t ||
  same_decayed T_ushort t || same_decayed T_int t || same_decayed T_uint t ||
  same_decayed (int64_t m) t || same_decayed (uint64_t m) t ||
  same_decayed T_float t || same_decayed T_double t || same_decayed T_string t ||
  same_decayed T_bytes t || same_decayed T_container_ptr t || same_decayed T_array_variant t.

Definition NumericValueType (t : cpp_type) : bool := Arithmetic t && negb (same_decayed T_bool t).

(** [std::convertible_to<T, std::string_view>] *)
Definition to_view (t : cpp_type) : bool :=
  match remove_const (remove_reference t) with
  | T_string | T_string_view | T_c_str | T_literal => true
  | T_class c => to_string_view c
  | _ => false
  end.
Definition StringLike (t : cpp_type) : bool :=
  same_decayed T_string t || same_decayed T_string_view t || same_decayed T_c_str t || to_view t.

Definition ByteContainer (t : cpp_type) : bool := same_decayed T_bytes t.
Definition ContainerValue (t : cpp_type) : bool := same_decayed T_container_ptr t.

(** [requires(const T& t) { t.serialize() ... }] *)
Definition Serializable (t : cpp_type) : bool :=
  match remove_const (remove_reference t) with T_class c => has_serialize c | _ => false end.
Definition JsonSerializable (t : cpp_type) : bool :=
  match remove_const (remove_reference t) with T_class c => has_to_json c | _ => false end.

End concepts.

(** ** The variant *)

(** The alternatives of [ValueVariant], in order. *)
Definition ValueVariant_types : list cpp_type :=
  [T_monostate; T_bool; T_short; T_ushort; T_int; T_uint; T_long; T_ulong; T_llong; T_ullong;
   T_float; T_double; T_string; T_bytes; T_container_ptr; T_array_variant].

(** The specializations of [is_variant_type_v2]. *)
Definition is_variant_type_v2 (m : data_model) (t : cpp_type) : bool :=
  bool_decide (t ∈ [T_monostate; T_bool; T_short; T_ushort; T_int; T_uint; int64_t m; uint64_t m;
    T_float; T_double; T_bytes; T_string; T_container_ptr; T_array_variant]).

(** The [static_assert]s on the variant. *)
Definition alignment_asserts : bool :=
  bool_decide (length ValueVariant_types = 16%nat) &&
  bool_decide (ValueVariant_types !! 0%nat = Some T_monostate) &&
  bool_decide (ValueVariant_types !! 1%nat = Some T_bool) &&
  bool_decide (ValueVariant_types !! 12%nat = Some T_string) &&
  bool_decide (ValueVariant_types !! 13%nat = Some T_bytes) &&
  bool_decide (ValueVariant_types !! 15%nat = Some T_array_variant).

(** The type of a value of the model's variant. *)
Definition alternative {C A} (v : variant C A) : cpp_type :=
  match v with
  | V_null => T_monostate | V_bool _ => T_bool | V_short _ => T_short | V_ushort _ => T_ushort
  | V_int _ => T_int | V_uint _ => T_uint | V_long _ => T_long | V_ulong _ => T_ulong
  | V_llong _ => T_llong | V_ullong _ => T_ullong | V_float _ => T_float | V_double _ => T_double
  | V_string _ => T_string | V_bytes _ => T_bytes | V_container _ => T_container_ptr
  | V_array _ => T_array_variant
  end.

Import concepts.

(** The assertions hold, and more than they ask: the alternative at the number of a
    type tag is the type of the values with that tag, for all sixteen. *)
Theorem variant_aligned {C A} (v : variant C A) :
  alignment_asserts = true ∧
  ValueVariant_types !! Z.to_nat (type_index (variant_type v)) = Some (alternative v).
Proof. split; [by vm_compute|by destruct v]. Qed.

(** The integer types that [int64_t] and [uint64_t] do not name. *)
Definition unnamed (m : data_model) : list cpp_type :=
  match m with Int64_is_long => [T_llong; T_ullong] | Int64_is_long_long => [T_long; T_ulong] end.

Lemma admitted_types m u :
  bool_decide (u ∈ [T_monostate; T_bool; T_short; T_ushort; T_int; T_uint; int64_t m; uint64_t m;
    T_float; T_double; T_bytes; T_string; T_container_ptr; T_array_variant])
  = bool_decide (u ∈ ValueVariant_types) && negb (bool_decide (u ∈ unnamed m)).
Proof. by destruct m, u. Qed.

Lemma concept_is_trait m t : ValueVariantType m t = is_variant_type_v2 m (decay t).
Proof.
  unfold ValueVariantType, same_decayed, is_variant_type_v2. generalize (decay t). intros u.
  by destruct m, u.
Qed.

Lemma variant_types_decayed u : u ∈ ValueVariant_types → decay u = u.
Proof.
  unfold ValueVariant_types. intros Hu. repeat (apply elem_of_cons in Hu as [->|Hu]; [done|]).
  by apply elem_of_nil in Hu.
Qed.

(** The typed getters and setters accept exactly the alternatives, up to references
    and [const], without the two integer types that [int64_t] and [uint64_t] do not
    name: a [long long] in a value cannot be read by type where [int64_t] is [long].
    The trait of [value.h] is the concept on types without reference and [const]. *)
Theorem admitted_alternatives m t :
  (ValueVariantType m t = true ↔ decay t ∈ ValueVariant_types ∧ decay t ∉ unnamed m) ∧
  (is_variant_type_v2 m t = true ↔ ValueVariantType m t = true ∧ decay t = t) ∧
  (∀ u, u ∈ unnamed m → u ∈ ValueVariant_types ∧ ValueVariantType m u = false).
Proof.
  assert (∀ u, is_variant_type_v2 m u = true ↔ u ∈ ValueVariant_types ∧ u ∉ unnamed m) as H.
  { intros u. unfold is_variant_type_v2.
    by rewrite admitted_types, andb_true_iff, negb_true_iff, bool_decide_eq_true, bool_decide_eq_false. }
  rewrite !concept_is_trait, !H. split_and!; [done| |].
  - split; [|by intros [? <-]]. intros [Ht Hn].
    pose proof (variant_types_decayed t Ht) as Hd. by rewrite Hd.
  - intros u Hu. rewrite concept_is_trait.
    assert (u ∈ ValueVariant_types ∧ decay u = u) as [Hv Hd].
    { destruct m; simpl in Hu; repeat (apply elem_of_cons in Hu as [->|Hu];
        [split; [apply (bool_decide_unpack _); by vm_compute|done]|]); by apply elem_of_nil in Hu. }
    split; [done|]. rewrite Hd. apply not_true_iff_false. rewrite H. tauto.
Qed.
