(* ===== verification/MetricsExport.v ===== *)
(** * Exporting the metrics: metrics_to_json and metrics_to_prometheus

    [core/container.cpp].  The texts are built line by line as the code builds
    them; a percentile of an overrun reservoir is undefined, and so is the text
    then.  The JSON text is read back by the reader of Json.v: it is the object of the metrics
    ([metrics_json_reads_back]). *)

#[local] Set Warnings "-register-all".
From S2P Require Import Prelude Float Regex Numbers Decimal FloatArith.
From S2P Require Import Json Metrics MetricsFacts Serializers.
From stdpp Require sorting.
Import latency_histogram detailed_metrics operation_counts timing_metrics simd_metrics cache_metrics.

(** ["..."] and the texts of numbers *)
Definition int_text (z : Z) : text := str_bytes (to_string z).
Definition double_text (d : Z) : text := str_bytes (to_string_f64 d).
Definition nl : text := [x0a].
Definition key (name : string) : text := quoted (str_bytes name) ++ str_bytes ": ".

(** One line of an object, with or without a comma. *)
Definition entry (indent name : string) (v : text) : text :=
  str_bytes indent ++ key name ++ v ++ str_bytes "," ++ nl.
Definition last_entry (indent name : string) (v : text) : text :=
  str_bytes indent ++ key name ++ v ++ nl.
Definition open_object (indent name : string) : text :=
  str_bytes indent ++ key name ++ str_bytes "{" ++ nl.

(** ** JSON *)

Definition latency_json (name : string) (last : bool) (h : latency_histogram.t) : res text :=
  let? a := p50 h in
  let? b := p95 h in
  let? c := p99 h in
  let? d := p999 h in
  Val (open_object "    " name ++
       entry "      " "p50_ns" (int_text a) ++ entry "      " "p95_ns" (int_text b) ++
       entry "      " "p99_ns" (int_text c) ++ entry "      " "p999_ns" (int_text d) ++
       entry "      " "max_ns" (int_text (max_ns h)) ++
       last_entry "      " "avg_ns" (double_text (avg h)) ++
       str_bytes (if last then "    }" else "    },") ++ nl).

Definition operations_json (o : operation_counts.t) : text :=
  open_object "  " "operations" ++
  entry "    " "reads" (int_text (reads o)) ++ entry "    " "writes" (int_text (writes o)) ++
  entry "    " "serializations" (int_text (serializations o)) ++
  entry "    " "deserializations" (int_text (deserializations o)) ++
  entry "    " "copies" (int_text (copies o)) ++ last_entry "    " "moves" (int_text (moves o)) ++
  str_bytes "  }," ++ nl.

Definition timing_json (x : timing_metrics.t) : text :=
  open_object "  " "timing" ++
  entry "    " "total_serialize_ns" (int_text (total_serialize_ns x)) ++
  entry "    " "total_deserialize_ns" (int_text (total_deserialize_ns x)) ++
  entry "    " "total_read_ns" (int_text (total_read_ns x)) ++
  last_entry "    " "total_write_ns" (int_text (total_write_ns x)) ++
  str_bytes "  }," ++ nl.

Definition simd_json (s : simd_metrics.t) : text :=
  open_object "  " "simd" ++
  entry "    " "simd_operations" (int_text (simd_operations s)) ++
  entry "    " "scalar_fallbacks" (int_text (scalar_fallbacks s)) ++
  entry "    " "bytes_processed_simd" (int_text (bytes_processed_simd s)) ++
  last_entry "    " "utilization_percent" (double_text (utilization s)) ++
  str_bytes "  }," ++ nl.

Definition cache_json (c : cache_metrics.t) : text :=
  open_object "  " "cache" ++
  entry "    " "key_index_hits" (int_text (key_index_hits c)) ++
  entry "    " "key_index_misses" (int_text (key_index_misses c)) ++
  entry "    " "value_cache_hits" (int_text (value_cache_hits c)) ++
  entry "    " "value_cache_misses" (int_text (value_cache_misses c)) ++
  entry "    " "key_index_hit_rate_percent" (double_text (key_index_hit_rate c)) ++
  last_entry "    " "value_cache_hit_rate_percent" (double_text (value_cache_hit_rate c)) ++
  str_bytes "  }" ++ nl.

Definition metrics_to_json (m : detailed_metrics.t) : res text :=
  let? s := latency_json "serialize" false (serialize_latency m) in
  let? d := latency_json "deserialize" false (deserialize_latency m) in
  let? r := latency_json "read" false (read_latency m) in
  let? w := latency_json "write" true (write_latency m) in
  Val (str_bytes "{" ++ nl ++ operations_json (operations m) ++ timing_json (timing m) ++
       open_object "  " "latency" ++ s ++ d ++ r ++ w ++ str_bytes "  }," ++ nl ++
       simd_json (simd m) ++ cache_json (cache m) ++ str_bytes "}").

(** ** Prometheus *)

Definition help (metric explanation kind : string) : text :=
  str_bytes "# HELP " ++ str_bytes metric ++ str_bytes " " ++ str_bytes explanation ++ nl ++
  str_bytes "# TYPE " ++ str_bytes metric ++ str_bytes " " ++ str_bytes kind ++ nl.

(** [metric{label="value"} v] and [metric v] *)
Definition labelled (metric label value : string) (v : text) : text :=
  str_bytes metric ++ str_bytes "{" ++ str_bytes label ++ str_bytes "=" ++
  quoted (str_bytes value) ++ str_bytes "} " ++ v ++ nl.
Definition sample (metric : string) (v : text) : text :=
  str_bytes metric ++ str_bytes " " ++ v ++ nl.

Definition latency_prometheus (metric explanation : string) (h : latency_histogram.t) : res text :=
  let? a := p50 h in
  let? b := p95 h in
  let? c := p99 h in
  let? d := p999 h in
  Val (help metric explanation "summary" ++
       labelled metric "quantile" "0.5" (int_text a) ++
       labelled metric "quantile" "0.95" (int_text b) ++
       labelled metric "quantile" "0.99" (int_text c) ++
       labelled metric "quantile" "0.999" (int_text d) ++
       sample (String.append metric "_max") (int_text (max_ns h)) ++
       sample (String.append metric "_count") (int_text (sample_count h))).

(** [x / 100.0] *)
Definition ratio_text (percent : Z) : text := double_text (f64_div percent f64_hundred).

Definition operations_prometheus (o : operation_counts.t) (x : timing_metrics.t) : text :=
  let ops := "container_operations_total"%string in
  let dur := "container_operation_duration_nanoseconds_total"%string in
  help ops "Total number of container operations" "counter" ++
  labelled ops "operation" "read" (int_text (reads o)) ++
  labelled ops "operation" "write" (int_text (writes o)) ++
  labelled ops "operation" "serialize" (int_text (serializations o)) ++
  labelled ops "operation" "deserialize" (int_text (deserializations o)) ++
  labelled ops "operation" "copy" (int_text (copies o)) ++
  labelled ops "operation" "move" (int_text (moves o)) ++
  help dur "Total time spent in operations" "counter" ++
  labelled dur "operation" "serialize" (int_text (total_serialize_ns x)) ++
  labelled dur "operation" "deserialize" (int_text (total_deserialize_ns x)) ++
  labelled dur "operation" "read" (int_text (total_read_ns x)) ++
  labelled dur "operation" "write" (int_text (total_write_ns x)).

Definition simd_prometheus (s : simd_metrics.t) : text :=
  help "container_simd_operations_total" "Total SIMD operations performed" "counter" ++
  sample "container_simd_operations_total" (int_text (simd_operations s)) ++
  help "container_scalar_fallbacks_total" "Total scalar fallback operations" "counter" ++
  sample "container_scalar_fallbacks_total" (int_text (scalar_fallbacks s)) ++
  help "container_simd_bytes_processed_total" "Total bytes processed via SIMD" "counter" ++
  sample "container_simd_bytes_processed_total" (int_text (bytes_processed_simd s)) ++
  help "container_simd_utilization_ratio" "SIMD utilization ratio" "gauge" ++
  sample "container_simd_utilization_ratio" (ratio_text (utilization s)).

Definition cache_prometheus (c : cache_metrics.t) : text :=
  help "container_cache_hits_total" "Total cache hits" "counter" ++
  labelled "container_cache_hits_total" "cache" "key_index" (int_text (key_index_hits c)) ++
  labelled "container_cache_hits_total" "cache" "value" (int_text (value_cache_hits c)) ++
  help "container_cache_misses_total" "Total cache misses" "counter" ++
  labelled "container_cache_misses_total" "cache" "key_index" (int_text (key_index_misses c)) ++
  labelled "container_cache_misses_total" "cache" "value" (int_text (value_cache_misses c)) ++
  help "container_cache_hit_ratio" "Cache hit ratio" "gauge" ++
  labelled "container_cache_hit_ratio" "cache" "key_index" (ratio_text (key_index_hit_rate c)) ++
  labelled "container_cache_hit_ratio" "cache" "value" (ratio_text (value_cache_hit_rate c)).

Definition metrics_to_prometheus (m : detailed_metrics.t) : res text :=
  let? s := latency_prometheus "container_serialize_latency_nanoseconds"
              "Serialize operation latency percentiles" (serialize_latency m) in
  let? d := latency_prometheus "container_deserialize_latency_nanoseconds"
              "Deserialize operation latency percentiles" (deserialize_latency m) in
  let? r := latency_prometheus "container_read_latency_nanoseconds"
              "Read operation latency percentiles" (read_latency m) in
  let? w := latency_prometheus "container_write_latency_nanoseconds"
              "Write operation latency percentiles" (write_latency m) in
  Val (operations_prometheus (operations m) (timing m) ++ s ++ d ++ r ++ w ++
       simd_prometheus (simd m) ++ cache_prometheus (cache m)).

(** ** Printing JSON the way the exporter does *)

Definition spaces (n : nat) : text := replicate n x20.

(** Numbers and objects, which are all it prints. *)
Fixpoint print (n : nat) (v : json) : text :=
  match v with
  | J_num t => t
  | J_obj ms =>
      str_bytes "{" ++ nl ++
      (fix go ms :=
         match ms with
         | [] => []
         | (k, v) :: ms =>
             spaces (2 + n) ++ quoted k ++ str_bytes ": " ++ print (2 + n) v ++
             (match ms with [] => [] | _ => str_bytes "," end) ++ nl ++ go ms
         end) ms ++
      spaces n ++ str_bytes "}"
  | _ => []
  end.

Fixpoint print_members (n : nat) (ms : list (text * json)) : text :=
  match ms with
  | [] => []
  | (k, v) :: ms =>
      spaces (2 + n) ++ quoted k ++ str_bytes ": " ++ print (2 + n) v ++
      (match ms with [] => [] | _ => str_bytes "," end) ++ nl ++ print_members n ms
  end.

Lemma print_obj n ms :
  print n (J_obj ms) = str_bytes "{" ++ nl ++ print_members n ms ++ spaces n ++ str_bytes "}".
Proof.
  cbn [print]. do 3 f_equal. induction ms as [|[k v] ms IH]; [done|].
  cbn [print_members]. by rewrite <-IH.
Qed.

(** Names without escapes, numbers of JSON; no object is empty. *)
Inductive json_ok : json → Prop :=
| num_ok t : denotes_number t → json_ok (J_num t)
| obj_ok ms : ms ≠ [] → Forall (λ kv, plain kv.1 ∧ json_ok kv.2) ms → json_ok (J_obj ms).

Lemma blanks_spaces n : blanks (spaces n).
Proof. by apply Forall_replicate. Qed.

Lemma blanks_nl w : blanks w → blanks (nl ++ w).
Proof. by constructor. Qed.
#[local] Hint Resolve blanks_spaces blanks_nl : json.

Lemma denotes_print_members n ms :
  ms ≠ [] → Forall (λ kv, plain kv.1 ∧ ∀ n, denotes (print n kv.2) kv.2) ms →
  denotes_members (nl ++ print_members n ms ++ spaces n ++ [x7d]) ms.
Proof.
  intros Hne Hms. induction Hms as [|[k v] ms [Hk Hv] Hms IH]; [done|].
  cbn [fst snd print_members] in *. unfold quoted.
  change (str_bytes ": ") with [x3a; x20]. change (str_bytes ",") with [x2c].
  apply denotes_plain in Hk. destruct ms as [|kv ms].
  - pose proof (DM_one (nl ++ spaces (2 + n)) [x20] (nl ++ spaces n) k (print (2 + n) v) k v) as H.
    rewrite <-!app_assoc in *. cbn [app] in *. rewrite <-!app_assoc in *.
    apply H; auto with json. by constructor.
  - pose proof (DM_cons (nl ++ spaces (2 + n)) [x20] [] k (print (2 + n) v) k v
      (nl ++ print_members n (kv :: ms) ++ spaces n ++ [x7d]) (kv :: ms)) as H.
    rewrite <-!app_assoc in *. cbn [app] in *. rewrite <-!app_assoc in *.
    apply H; auto with json. by constructor.
Qed.

(** What is printed is read back. *)
Lemma denotes_print v : json_ok v → ∀ n, denotes (print n v) v.
Proof.
  induction v as [| |t| | |ms IH] using json_induction; intros Hv n;
    inversion_clear Hv as [? Ht|? Hne Hms]; [by apply denotes_num|].
  rewrite print_obj. apply denotes_object, denotes_print_members; [done|].
  clear Hne. induction IH as [|kv ms Hkv _ IHms]; [constructor|].
  inversion_clear Hms as [|? ? [Hk Hv] Hms']. constructor; auto.
Qed.

(** ** The object of the metrics *)

Definition ints (fields : list (string * Z)) : list (text * json) :=
  (λ kz : string * Z, (str_bytes kz.1, J_num (int_text kz.2))) <$> fields.
Definition double (name : string) (d : Z) : text * json := (str_bytes name, J_num (double_text d)).

Definition operations_object (o : operation_counts.t) : json :=
  J_obj (ints [("reads", reads o); ("writes", writes o); ("serializations", serializations o);
             ("deserializations", deserializations o); ("copies", copies o);
             ("moves", moves o)]%string).
Definition timing_object (x : timing_metrics.t) : json :=
  J_obj (ints [("total_serialize_ns", total_serialize_ns x);
             ("total_deserialize_ns", total_deserialize_ns x); ("total_read_ns", total_read_ns x);
             ("total_write_ns", total_write_ns x)]%string).
Definition simd_object (s : simd_metrics.t) : json :=
  J_obj (ints [("simd_operations", simd_operations s); ("scalar_fallbacks", scalar_fallbacks s);
             ("bytes_processed_simd", bytes_processed_simd s)]%string
       ++ [double "utilization_percent" (utilization s)]).
Definition cache_object (c : cache_metrics.t) : json :=
  J_obj (ints [("key_index_hits", key_index_hits c); ("key_index_misses", key_index_misses c);
             ("value_cache_hits", value_cache_hits c);
             ("value_cache_misses", value_cache_misses c)]%string
       ++ [double "key_index_hit_rate_percent" (key_index_hit_rate c);
           double "value_cache_hit_rate_percent" (value_cache_hit_rate c)]).

Definition latency_object (h : latency_histogram.t) : res json :=
  let? a := p50 h in
  let? b := p95 h in
  let? c := p99 h in
  let? d := p999 h in
  Val (J_obj (ints [("p50_ns", a); ("p95_ns", b); ("p99_ns", c); ("p999_ns", d);
                  ("max_ns", max_ns h)]%string ++ [double "avg_ns" (avg h)])).

Definition named (name : string) (v : json) : text * json := (str_bytes name, v).

Definition metrics_object (m : detailed_metrics.t) : res json :=
  let? s := latency_object (serialize_latency m) in
  let? d := latency_object (deserialize_latency m) in
  let? r := latency_object (read_latency m) in
  let? w := latency_object (write_latency m) in
  Val (J_obj [named "operations" (operations_object (operations m));
            named "timing" (timing_object (timing m));
            named "latency" (J_obj [named "serialize" s; named "deserialize" d; named "read" r;
                                  named "write" w]);
            named "simd" (simd_object (simd m)); named "cache" (cache_object (cache m))]).

(** What the members of [uint64_t] can hold, and a reservoir that is not overrun. *)
Definition histogram_ok (h : latency_histogram.t) : bool :=
  forallb (u_ok 64) [sample_count h; max_ns h; sum_ns h] && forallb (u_ok 64) (reservoir h) &&
  (Z.of_nat (length (reservoir h)) =? 1024) && (0 <=? reservoir_count h) &&
  (reservoir_count h <=? 1024).

Definition metrics_ok (m : detailed_metrics.t) : bool :=
  let o := operations m in let x := timing m in let s := simd m in let c := cache m in
  forallb (u_ok 64)
    [reads o; writes o; serializations o; deserializations o; copies o; moves o;
     total_serialize_ns x; total_deserialize_ns x; total_read_ns x; total_write_ns x;
     simd_operations s; scalar_fallbacks s; bytes_processed_simd s;
     key_index_hits c; key_index_misses c; value_cache_hits c; value_cache_misses c] &&
  forallb histogram_ok
    [serialize_latency m; deserialize_latency m; read_latency m; write_latency m].

Ltac printed_section :=
  rewrite print_obj; cbn [print_members ints fmap list_fmap app fst snd double print];
  rewrite <-!app_assoc; reflexivity.

Lemma operations_printed o s :
  operations_json o ++ s = spaces 2 ++ quoted (str_bytes "operations") ++ str_bytes ": " ++
    print 2 (operations_object o) ++ str_bytes "," ++ nl ++ s.
Proof.
  unfold operations_object, operations_json, entry, last_entry, open_object, key. printed_section.
Qed.

Lemma timing_printed x s :
  timing_json x ++ s = spaces 2 ++ quoted (str_bytes "timing") ++ str_bytes ": " ++
    print 2 (timing_object x) ++ str_bytes "," ++ nl ++ s.
Proof. unfold timing_object, timing_json, entry, last_entry, open_object, key. printed_section. Qed.

Lemma simd_printed x s :
  simd_json x ++ s = spaces 2 ++ quoted (str_bytes "simd") ++ str_bytes ": " ++
    print 2 (simd_object x) ++ str_bytes "," ++ nl ++ s.
Proof. unfold simd_object, simd_json, entry, last_entry, open_object, key. printed_section. Qed.

Lemma cache_printed x s :
  cache_json x ++ s = spaces 2 ++ quoted (str_bytes "cache") ++ str_bytes ": " ++
    print 2 (cache_object x) ++ nl ++ s.
Proof. unfold cache_object, cache_json, entry, last_entry, open_object, key. printed_section. Qed.

Lemma latency_printed name (last : bool) h v :
  latency_object h = Val v →
  ∃ t, latency_json name last h = Val t ∧ ∀ s,
    t ++ s = spaces 4 ++ quoted (str_bytes name) ++ str_bytes ": " ++ print 4 v ++
      (if last then [] else str_bytes ",") ++ nl ++ s.
Proof.
  unfold latency_object, latency_json.
  destruct (p50 h) as [a| |], (p95 h) as [b| |], (p99 h) as [c| |], (p999 h) as [d| |];
    cbn [res_bind]; try done.
  intros [= <-]. eexists. split; [reflexivity|]. intros s.
  unfold entry, last_entry, open_object, key. by destruct last; printed_section.
Qed.

(** The exporter prints the object. *)
Lemma metrics_printed m v :
  metrics_object m = Val v → metrics_to_json m = Val (print 0 v).
Proof.
  unfold metrics_object, metrics_to_json.
  destruct (latency_object (serialize_latency m)) as [vs| |] eqn:Es; cbn [res_bind]; try done.
  destruct (latency_object (deserialize_latency m)) as [vd| |] eqn:Ed; cbn [res_bind]; try done.
  destruct (latency_object (read_latency m)) as [vr| |] eqn:Er; cbn [res_bind]; try done.
  destruct (latency_object (write_latency m)) as [vw| |] eqn:Ew; cbn [res_bind]; try done.
  intros [= <-].
  destruct (latency_printed "serialize" false _ _ Es) as (ts & -> & Ps).
  destruct (latency_printed "deserialize" false _ _ Ed) as (td & -> & Pd).
  destruct (latency_printed "read" false _ _ Er) as (tr & -> & Pr).
  destruct (latency_printed "write" true _ _ Ew) as (tw & -> & Pw).
  cbn [res_bind]. f_equal.
  rewrite operations_printed, timing_printed, simd_printed, cache_printed, Ps, Pd, Pr, Pw.
  unfold open_object, key. rewrite print_obj. cbn [print_members named fst snd Nat.add].
  repeat match goal with
  | |- context [print ?n (operations_object ?o)] => generalize (print n (operations_object o)); intros
  | |- context [print ?n (timing_object ?o)] => generalize (print n (timing_object o)); intros
  | |- context [print ?n (simd_object ?o)] => generalize (print n (simd_object o)); intros
  | |- context [print ?n (cache_object ?o)] => generalize (print n (cache_object o)); intros
  end.
  rewrite !print_obj. cbn [print_members named fst snd Nat.add].
  rewrite <-!app_assoc. reflexivity.
Qed.

(** ** The metrics can be exported and read *)

Lemma u_ok_all ls : forallb (u_ok 64) ls = true → Forall (λ z, 0 ≤ z < 2 ^ 64) ls.
Proof.
  intros H. apply forallb_Forall in H. eapply list.Forall_impl; [exact H|].
  intros z Hz. by apply u_ok_spec.
Qed.

Lemma double_text_ok d : 0 ≤ d < infinity f64 → denotes_number (double_text d).
Proof.
  intros Hd. apply denotes_double. unfold finite. apply negb_true_iff, Z.eqb_neq.
  destruct (finite_checks d Hd) as (_ & _ & Hm). unfold f_exp. rewrite Hm.
  change (infinity f64) with (2047 * 2 ^ 52) in Hd.
  assert (d / 2 ^ mbits f64 < 2047); [|lia]. apply Z.div_lt_upper_bound; [done|]. simpl. lia.
Qed.

Lemma double_zero_ok : denotes_number (double_text 0).
Proof. by apply double_text_ok. Qed.

Lemma rate_ok a b : 0 ≤ a < 2 ^ 64 → denotes_number (double_text (rate a b)).
Proof.
  intros Ha. unfold rate. pose proof (wrap_range 64 (a + b) ltac:(lia)).
  destruct (Z.eqb_spec (wrap 64 (a + b)) 0); [apply double_zero_ok|].
  apply double_text_ok, percentage_finite; lia.
Qed.

Lemma avg_ok h : histogram_ok h = true → denotes_number (double_text (avg h)).
Proof.
  unfold histogram_ok. rewrite !andb_true_iff. intros [[[[Hu _] _] _] _].
  apply u_ok_all in Hu. rewrite !Forall_cons_iff in Hu. destruct Hu as (Hc & _ & Hs & _).
  unfold avg. destruct (Z.eqb_spec (sample_count h) 0); [apply double_zero_ok|].
  pose proof (quotient_bounds (sum_ns h) (sample_count h) Hs ltac:(lia)) as Hq.
  assert (u64_to_f64 (2 ^ 64) < infinity f64) by by vm_compute. apply double_text_ok. lia.
Qed.

Lemma percentile_ok q k h :
  histogram_ok h = true → (q, k) ∈ quantiles_of_program →
  ∃ v, get_percentile q h = Val v ∧ 0 ≤ v.
Proof.
  unfold histogram_ok. rewrite !andb_true_iff, Z.eqb_eq, !Z.leb_le.
  intros [[[[_ Hr] Hl] H0] H1] Hq.
  destruct (decide (reservoir_count h = 0)) as [E|E].
  { exists 0. unfold get_percentile. by rewrite E. }
  destruct (get_percentile_rank q k h (Z.to_nat (reservoir_count h)) Hq) as (v & Hv & Hin);
    [lia|unfold kReservoirSize; lia|unfold kReservoirSize; lia|].
  exists v. split; [done|]. apply list_elem_of_lookup_2 in Hin.
  rewrite sorting.merge_sort_Permutation in Hin. apply elem_of_take in Hin as (i & Hi & _).
  apply u_ok_all in Hr. rewrite list.Forall_forall in Hr.
  apply list_elem_of_lookup_2 in Hi. by apply (Hr v).
Qed.

Lemma ints_ok fields :
  forallb (λ kz : string * Z, forallb (λ b,
    negb (bool_decide (b = x22) || bool_decide (b = x5c) || (u8 b <? 32))) (str_bytes kz.1)) fields
    = true →
  Forall (λ kv, plain kv.1 ∧ json_ok kv.2) (ints fields).
Proof.
  intros Hn. unfold ints. apply Forall_fmap. apply forallb_Forall in Hn.
  rewrite list.Forall_forall in *. intros kz Hin. simpl. split.
  - specialize (Hn _ Hin). apply forallb_Forall in Hn. eapply list.Forall_impl; [exact Hn|].
    intros b Hb. by apply negb_true_iff.
  - constructor. apply denotes_int.
Qed.

Lemma double_field name d :
  forallb (λ b, negb (bool_decide (b = x22) || bool_decide (b = x5c) || (u8 b <? 32)))
    (str_bytes name) = true →
  denotes_number (double_text d) → plain (double name d).1 ∧ json_ok (double name d).2.
Proof.
  intros Hn Hd. split; [|by constructor]. apply forallb_Forall in Hn. simpl.
  eapply list.Forall_impl; [exact Hn|]. intros b Hb. by apply negb_true_iff.
Qed.

Lemma latency_object_ok h :
  histogram_ok h = true → ∃ v, latency_object h = Val v ∧ json_ok v.
Proof.
  intros Hh. unfold latency_object, p50, p95, p99, p999.
  destruct (percentile_ok q50 500 h Hh ltac:(left)) as (a & -> & Ha).
  destruct (percentile_ok q95 950 h Hh ltac:(right; left)) as (b & -> & Hb).
  destruct (percentile_ok q99 990 h Hh ltac:(do 2 right; left)) as (c & -> & Hc).
  destruct (percentile_ok q999 999 h Hh ltac:(do 3 right; left)) as (d & -> & Hd).
  cbn [res_bind]. eexists. split; [reflexivity|]. constructor; [done|].
  pose proof (avg_ok h Hh) as Havg. unfold histogram_ok in Hh. rewrite !andb_true_iff in Hh.
  destruct Hh as [[[[Hu _] _] _] _]. apply u_ok_all in Hu. rewrite !Forall_cons_iff in Hu.
  apply Forall_app. split.
  - by apply ints_ok.
  - constructor; [by apply double_field|constructor].
Qed.

Lemma named_ok name v :
  forallb (λ b, negb (bool_decide (b = x22) || bool_decide (b = x5c) || (u8 b <? 32)))
    (str_bytes name) = true →
  json_ok v → plain (named name v).1 ∧ json_ok (named name v).2.
Proof.
  intros Hn Hv. split; [|done]. apply forallb_Forall in Hn. simpl.
  eapply list.Forall_impl; [exact Hn|]. intros b Hb. by apply negb_true_iff.
Qed.

(** The integer fields of an object. *)
Ltac int_fields :=
  by apply ints_ok.

Lemma metrics_object_ok m :
  metrics_ok m = true → ∃ ms, metrics_object m = Val (J_obj ms) ∧ json_ok (J_obj ms).
Proof.
  unfold metrics_ok. cbv zeta. rewrite andb_true_iff. intros [Hu Hh].
  apply u_ok_all in Hu. cbn [forallb] in Hh. rewrite !andb_true_iff in Hh.
  destruct Hh as (Hs & Hd & Hr & Hw & _). rewrite !Forall_cons_iff in Hu.
  destruct (latency_object_ok _ Hs) as (vs & Es & Os).
  destruct (latency_object_ok _ Hd) as (vd & Ed & Od).
  destruct (latency_object_ok _ Hr) as (vr & Er & Or).
  destruct (latency_object_ok _ Hw) as (vw & Ew & Ow).
  assert (json_ok (operations_object (operations m))) as O1 by (constructor; [done|int_fields]).
  assert (json_ok (timing_object (timing m))) as O2 by (constructor; [done|int_fields]).
  assert (json_ok (simd_object (simd m))) as O3.
  { constructor; [done|]. apply Forall_app. split; [int_fields|].
    constructor; [apply double_field, rate_ok; [done|lia]|constructor]. }
  assert (json_ok (cache_object (cache m))) as O4.
  { constructor; [done|]. apply Forall_app. split; [int_fields|].
    do 2 (constructor; [apply double_field, rate_ok; [done|lia]|]). constructor. }
  assert (json_ok (J_obj [named "serialize" vs; named "deserialize" vd; named "read" vr;
                        named "write" vw])) as O5.
  { constructor; [done|]. do 4 (constructor; [by apply named_ok|]). constructor. }
  unfold metrics_object. rewrite Es, Ed, Er, Ew. cbn [res_bind]. eexists.
  split; [reflexivity|]. constructor; [done|].
  do 5 (constructor; [by apply named_ok|]). constructor.
Qed.

(** C34. The JSON export can be read: whatever the counters are, as long as no
    reservoir is overrun, [metrics_to_json] is defined and a parser of RFC 8259
    reads it as the object of the metrics, every counter, percentile, average and
    rate under its name with the text it prints as. *)
Theorem metrics_json_reads_back m :
  metrics_ok m = true →
  ∃ s v, metrics_to_json m = Val s ∧ metrics_object m = Val v ∧ parse_json s = Some v.
Proof.
  intros Hm. destruct (metrics_object_ok m Hm) as (ms & E & Hok).
  exists (print 0 (J_obj ms)), (J_obj ms).
  split_and!; [by apply metrics_printed|done|by apply denotes_parse, denotes_print].
Qed.

Lemma metrics_json_reads_back_witness :
  ∃ s v, metrics_to_json detailed_metrics.new = Val s ∧
         metrics_object detailed_metrics.new = Val v ∧ parse_json s = Some v.
Proof. apply (metrics_json_reads_back detailed_metrics.new). vm_compute. reflexivity. Defined.
