(* ===== verification/Messaging.v ===== *)
(** * Messaging: message_container, the integration layer and its builder

    [messaging/message_container.{h,cpp}]: a header beside a [value_store].
    [integration/messaging_integration.{h,cpp}]: containers for messaging, their
    text form, counters and callbacks, and [messaging_container_builder].

    The JSON library that [message_container] uses when it is installed is
    third-party code: its parser is a parameter ([json_parser]) with the result
    of parsing as a [json] of Json.v; what it throws is a text.  A null pointer
    that is dereferenced and an iterator outside its range are [Undef]. *)

#[local] Set Warnings "-register-all".
From S2P Require Import Prelude Bytes Float Types ErrorCodes Validation UnorderedMap Value ValueStore.
From S2P Require Import Container ContainerMsgpack Regex Numbers FloatArith Json Metrics ValueText.
From S2P Require Import Text Schema Serializers.

(** ** message_container *)

Module message_container.

Record t : Type := Message {
  source_id_ : string; source_sub_id_ : string; target_id_ : string; target_sub_id_ : string;
  message_type_ : string; version_ : string; payload_ : value_store.t }.

(** The four constructors. *)
Definition default_message : t := Message "" "" "" "" "" "1.0.0.0" value_store.empty_store.
Definition of_type (message_type : string) : t :=
  Message "" "" "" "" message_type "1.0.0.0" value_store.empty_store.
Definition to_target (target_id target_sub_id message_type : string) : t :=
  Message "" "" target_id target_sub_id message_type "1.0.0.0" value_store.empty_store.
Definition from_source (source_id source_sub_id target_id target_sub_id message_type : string) : t :=
  Message source_id source_sub_id target_id target_sub_id message_type "1.0.0.0"
    value_store.empty_store.

Definition set_source (sid ssub : string) (m : t) : t :=
  Message sid ssub (target_id_ m) (target_sub_id_ m) (message_type_ m) (version_ m) (payload_ m).
Definition set_target (tid tsub : string) (m : t) : t :=
  Message (source_id_ m) (source_sub_id_ m) tid tsub (message_type_ m) (version_ m) (payload_ m).
Definition set_message_type (ty : string) (m : t) : t :=
  Message (source_id_ m) (source_sub_id_ m) (target_id_ m) (target_sub_id_ m) ty (version_ m)
    (payload_ m).
Definition set_version (v : string) (m : t) : t :=
  Message (source_id_ m) (source_sub_id_ m) (target_id_ m) (target_sub_id_ m) (message_type_ m) v
    (payload_ m).
Definition swap_header (m : t) : t :=
  Message (target_id_ m) (target_sub_id_ m) (source_id_ m) (source_sub_id_ m) (message_type_ m)
    (version_ m) (payload_ m).

(** [payload()] by reference. *)
Definition update_payload (f : value_store.t → value_store.t) (m : t) : t :=
  Message (source_id_ m) (source_sub_id_ m) (target_id_ m) (target_sub_id_ m) (message_type_ m)
    (version_ m) (f (payload_ m)).

(** The fields are written between quotes as they are. *)
Definition header_member (key value : string) : text :=
  x22 :: str_bytes key ++ x22 :: x3a :: x22 :: str_bytes value ++ [x22].
Definition header_members (m : t) : text :=
  header_member "source_id" (source_id_ m) ++ x2c ::
  header_member "source_sub_id" (source_sub_id_ m) ++ x2c ::
  header_member "target_id" (target_id_ m) ++ x2c ::
  header_member "target_sub_id" (target_sub_id_ m) ++ x2c ::
  header_member "message_type" (message_type_ m) ++ x2c ::
  header_member "version" (version_ m).
Definition header_json (m : t) : text := x7b :: header_members m ++ [x7d].

(** [serialize] without the library; the payload counts a read. *)
Definition serialize (m : t) : t * res text :=
  let '(payload, s) := store_serialize (payload_ m) in
  (update_payload (λ _, payload) m,
   let? s := s in
   Val (x7b :: x22 :: str_bytes "header" ++ x22 :: x3a :: header_json m ++
        x2c :: x22 :: str_bytes "payload" ++ x22 :: x3a :: s ++ [x7d])).

Definition serialize_binary (m : t) : t * list byte :=
  let h := header_json m in
  let '(payload, data) := value_store.serialize_binary (payload_ m) in
  (update_payload (λ _, payload) m, put_u32 (Z.of_nat (length h)) ++ h ++ data).

(** *** With and without the JSON library *)

(** [nlohmann::json::parse]; the right side is what the exception says. *)
Class json_parser : Type := parse : text → json + string.

Definition no_library : string := "JSON library not available for deserialization".
Definition too_small_size : string := "Binary data too small to contain header size".
Definition too_small_header : string := "Binary data too small to contain header".

Section Library.
Context {P : json_parser} (type_error : string).

(** [if (header.contains(key)) field = header[key];] a value of another kind throws. *)
Definition field (ms : list (text * json)) (key : string) (set : string → t → t) (m : t)
    : t + string :=
  match snd <$> list_find (λ kv : text * json, kv.1 = str_bytes key) ms with
  | None => inl m
  | Some (_, J_str s) => inl (set (bytes_str s) m)
  | Some _ => inr type_error
  end.

Definition and_then {A B E} (r : A + E) (k : A → B + E) : B + E :=
  match r with inl a => k a | inr e => inr e end.

Definition read_header (ms : list (text * json)) (m : t) : t + string :=
  and_then (field ms "source_id" (λ s m, set_source s (source_sub_id_ m) m) m) (λ m,
  and_then (field ms "source_sub_id" (λ s m, set_source (source_id_ m) s m) m) (λ m,
  and_then (field ms "target_id" (λ s m, set_target s (target_sub_id_ m) m) m) (λ m,
  and_then (field ms "target_sub_id" (λ s m, set_target (target_id_ m) s m) m) (λ m,
  and_then (field ms "message_type" set_message_type m) (λ m,
  field ms "version" set_version m))))).

(** [contains] of something that is no object is false. *)
Definition members (v : json) : list (text * json) :=
  match v with J_obj ms => ms | _ => [] end.

(** The payload is not read in either format. *)
Definition deserialize (json_data : text) : t + string :=
  and_then (parse json_data) (λ j,
  match snd <$> list_find (λ kv : text * json, kv.1 = str_bytes "header") (members j) with
  | Some (_, h) => read_header (members h) default_message
  | None => inl default_message
  end).

(** [4 + header_size] is an [uint32_t]. *)
Definition deserialize_binary_with (header : text → t + string) (data : list byte)
    : res (t + string) :=
  let n := Z.of_nat (length data) in
  if n <? 4 then Val (inr too_small_size)
  else
    let? header_size := get_le data 0 4 in
    if n <? wrap 32 (4 + header_size) then Val (inr too_small_header)
    else
      let? h := sub data 4 (4 + header_size) in
      Val (header h).

Definition deserialize_binary : list byte → res (t + string) :=
  deserialize_binary_with (λ h, and_then (parse h) (λ j, read_header (members j) default_message)).
End Library.

(** Without the library the text is refused, and the header is skipped. *)
Definition deserialize_plain (json_data : text) : t + string := inr no_library.
Definition deserialize_binary_plain : list byte → res (t + string) :=
  deserialize_binary_with (λ _, inl default_message).

End message_container.

(** ** messaging_integration *)

Module messaging_integration.
Import value_container unified.
Section Integration.
Context (what : std_exception → string).
Abbreviation t := (t ctree).

(** [create_optimized_container] without metrics and callbacks. *)
Definition create_optimized_container (message_type : string) : t := set_message_type message_type new.

(** [None] is the null pointer; compression is not implemented. *)
Definition serialize_for_messaging (c : option t) (compress : bool) : text :=
  match c with
  | None => []
  | Some c => match serialize_string what fmt_binary c with inl s => s | inr _ => [] end
  end.

(** The constructor may throw. *)
Definition deserialize_from_messaging (data : text) (decompress : bool)
    : res (option t + std_exception) :=
  match data with
  | [] => Val (inl None)
  | _ => let? r := text_container.of_text Node data false in
         Val (match r with inl c => inl (Some c) | inr e => inr e end)
  end.

(** *** Metrics and callbacks, where they are compiled in *)

(** A callback gets the pointer and may change the container; an empty
    [std::function] is skipped. *)
Definition callback : Type := option (t → t).

Record state : Type := State {
  containers_created : Z; serializations_performed : Z; deserializations_performed : Z;
  total_serialize_time_us : Z; total_deserialize_time_us : Z;
  creation_callbacks : list callback; serialization_callbacks : list callback }.

Definition start : state := State 0 0 0 0 0 [] [].

Definition fetch_add (n x : Z) : Z := wrap 64 (x + n).

Definition call_all (cs : list callback) (c : t) : t :=
  fold_left (λ c f, match f with Some f => f c | None => c end) cs c.

Definition create_monitored (message_type : string) (s : state) : state * t :=
  (State (fetch_add 1 (containers_created s)) (serializations_performed s)
     (deserializations_performed s) (total_serialize_time_us s) (total_deserialize_time_us s)
     (creation_callbacks s) (serialization_callbacks s),
   call_all (creation_callbacks s) (set_message_type message_type new)).

(** [us] is the time that passed; the text is made before the callbacks run. *)
Definition serialize_monitored (us : Z) (c : option t) (s : state) : state * option t * text :=
  match c with
  | None => (s, None, [])
  | Some c =>
      (State (containers_created s) (fetch_add 1 (serializations_performed s))
         (deserializations_performed s) (fetch_add us (total_serialize_time_us s))
         (total_deserialize_time_us s) (creation_callbacks s) (serialization_callbacks s),
       Some (call_all (serialization_callbacks s) c), serialize_for_messaging (Some c) false)
  end.

(** An exception of the constructor leaves the counters alone. *)
Definition deserialize_monitored (us : Z) (data : text) (s : state)
    : res (state * (option t + std_exception)) :=
  let? r := deserialize_from_messaging data false in
  Val match r with
      | inl (Some c) =>
          (State (containers_created s) (serializations_performed s)
             (fetch_add 1 (deserializations_performed s)) (total_serialize_time_us s)
             (fetch_add us (total_deserialize_time_us s)) (creation_callbacks s)
             (serialization_callbacks s), inl (Some c))
      | r => (s, r)
      end.

Definition reset_metrics (s : state) : state :=
  State 0 0 0 0 0 (creation_callbacks s) (serialization_callbacks s).

Definition register_creation_callback (f : callback) (s : state) : state :=
  State (containers_created s) (serializations_performed s) (deserializations_performed s)
    (total_serialize_time_us s) (total_deserialize_time_us s) (creation_callbacks s ++ [f])
    (serialization_callbacks s).
Definition register_serialization_callback (f : callback) (s : state) : state :=
  State (containers_created s) (serializations_performed s) (deserializations_performed s)
    (total_serialize_time_us s) (total_deserialize_time_us s) (creation_callbacks s)
    (serialization_callbacks s ++ [f]).
Definition unregister_callbacks (s : state) : state :=
  State (containers_created s) (serializations_performed s) (deserializations_performed s)
    (total_serialize_time_us s) (total_deserialize_time_us s) [] [].

(** [oss << std::fixed << std::setprecision(2) << d] for a finite [d] that is not
    negative: the exact value rounded to hundredths, ties to even. *)
Definition fixed_2 (d : Z) : text :=
  let (m, e) := f_value f64 d in
  let n := round_half_even (m * 100 * 2 ^ Z.max 0 e) (2 ^ Z.max 0 (- e)) in
  str_bytes (Prelude.to_string (n / 100)) ++ x2e ::
  (if n mod 100 <? 10 then [x30] else []) ++ str_bytes (Prelude.to_string (n mod 100)).

(** An average is printed when there is something to average; the letter mu is
    two bytes. *)
Definition average_line (label : string) (total count : Z) : text :=
  if 0 <? count
  then str_bytes label ++ fixed_2 (f64_div (u64_to_f64 total) (u64_to_f64 count)) ++
       [x20; xce; xbc; x73; x0a]
  else [].

Definition count_line (label : string) (count : Z) : text :=
  str_bytes label ++ str_bytes (Prelude.to_string count) ++ [x0a].

Definition get_metrics_summary (s : state) : text :=
  str_bytes "Container System Metrics:" ++ [x0a] ++
  count_line "  Containers created: " (containers_created s) ++
  count_line "  Serializations: " (serializations_performed s) ++
  count_line "  Deserializations: " (deserializations_performed s) ++
  average_line "  Avg serialize time: " (total_serialize_time_us s) (serializations_performed s) ++
  average_line "  Avg deserialize time: " (total_deserialize_time_us s) (deserializations_performed s).
End Integration.

Example summary_example :
  average_line "" 1000 8 = str_bytes "125.00 " ++ [xce; xbc; x73; x0a] ∧
  average_line "" 1 3 = str_bytes "0.33 " ++ [xce; xbc; x73; x0a] ∧
  average_line "" 1 8 = str_bytes "0.12 " ++ [xce; xbc; x73; x0a] ∧ average_line "" 5 0 = [].
Proof. by vm_compute. Qed.
End messaging_integration.

(** ** messaging_container_builder *)

Module messaging_container_builder.
Import value_container unified.
Section Builder.
Context (what : std_exception → string).
Abbreviation container := (value_container.t ctree).

Record t : Type := Builder {
  container_ : container; size_optimized_ : bool; speed_optimized_ : bool }.

Definition create : t := Builder new false false.
Definition on_container (f : container → container) (b : t) : t :=
  Builder (f (container_ b)) (size_optimized_ b) (speed_optimized_ b).

Definition source (id sub_id : string) : t → t := on_container (set_source id sub_id).
Definition target (id sub_id : string) : t → t := on_container (set_target id sub_id).
Definition message_type (ty : string) : t → t := on_container (set_message_type ty).

(** What the template argument of [set] can be: an integral type has a width in
    bytes; [A_other] is every type that no branch takes, byte vectors included. *)
Inductive argument : Type :=
| A_container (c : option container)
| A_bool (b : bool)
| A_integral (size : Z) (z : Z)
| A_float (bits : Z) | A_double (bits : Z)
| A_string (s : string)
| A_other.

Definition set (key : string) (value : argument) (b : t) : res t :=
  let put d := Val (on_container (value_container.set key (Vv d)) b) in
  match value with
  | A_container None => Undef
  | A_container (Some c) =>
      match serialize_string what fmt_binary c with
      | inl serialized_data => put (V_bytes serialized_data)
      | inr _ => Val b
      end
  | A_bool v => put (V_bool v)
  | A_integral size z => put (if size <=? 4 then V_int (swrap 32 z) else V_long (swrap 64 z))
  | A_float z => put (V_float z)
  | A_double z => put (V_double z)
  | A_string s => put (V_string s)
  | A_other => Val b
  end.

Definition optimize_for_size (b : t) : t := Builder (container_ b) true false.
Definition optimize_for_speed (b : t) : t := Builder (container_ b) false true.

(** The container that was built, and the builder with a new one. *)
Definition build (b : t) : t * container :=
  (Builder new (size_optimized_ b) (speed_optimized_ b), container_ b).
End Builder.
End messaging_container_builder.

(** ** container_performance_monitor, whose destructor drops what it measured *)

Module container_performance_monitor.

Record t : Type := Monitor {
  operation_name_ : string; start_time_ : Z; container_size_ : Z; result_size_ : Z }.

Definition create (operation_name : string) (now : Z) : t := Monitor operation_name now 0 0.
Definition set_container_size (size : Z) (m : t) : t :=
  Monitor (operation_name_ m) (start_time_ m) size (result_size_ m).
Definition set_result_size (size : Z) (m : t) : t :=
  Monitor (operation_name_ m) (start_time_ m) (container_size_ m) size.
End container_performance_monitor.
