(* ===== verification/MessagingFacts.v ===== *)
(** * What survives a message

    - [message_binary_roundtrip], [message_json_roundtrip]: a message keeps its
      header and loses its payload;
    - [message_binary_undefined]: which bytes make the reader leave the buffer;
    - [messaging_roundtrip]: a container sent as text arrives normalized;
    - [builder_to_receiver]: what the receiver finds of what was given to the
      builder; a nested container arrives empty. *)

#[local] Set Warnings "-register-all".
From S2P Require Import Prelude Bytes Float Types ErrorCodes Validation UnorderedMap Value ValueStore.
From S2P Require Import Container ContainerMsgpack Regex Numbers Decimal FloatArith Json ValueText ValueTextFacts.
From S2P Require Import ContainerFacts Text TextFacts TextScan TextRoundtrip Schema Serializers Messaging.

(** ** message_container *)

Module message_facts.
Import message_container.

Definition ascii (v : string) : bool := forallb (λ b, u8 b <? 128) (str_bytes v).

Definition header_ok (m : t) : bool :=
  forallb (λ v, name_json_ok v && ascii v) [source_id_ m; source_sub_id_ m; target_id_ m; target_sub_id_ m;
                        message_type_ m; version_ m].

Definition header_value (m : t) : list (text * json) :=
  (λ kv : string * string, (str_bytes kv.1, J_str (str_bytes kv.2))) <$>
  [("source_id", source_id_ m); ("source_sub_id", source_sub_id_ m);
   ("target_id", target_id_ m); ("target_sub_id", target_sub_id_ m);
   ("message_type", message_type_ m); ("version", version_ m)]%string.

(** A message with the header of [m] and nothing in it. *)
Definition without_payload (m : t) : t := update_payload (λ _, value_store.empty_store) m.

(** An object of ASCII strings under distinct ASCII keys: what every parser of JSON
    reads in the same way. *)
Definition flat_object (v : json) : bool :=
  match v with
  | J_obj ms =>
      bool_decide (NoDup ms.*1) &&
      forallb (λ kv, forallb (λ b, u8 b <? 128) kv.1 &&
                     match kv.2 with J_str s => forallb (λ b, u8 b <? 128) s | _ => false end) ms
  | _ => false
  end.

Lemma header_flat m : header_ok m = true → flat_object (J_obj (header_value m)) = true.
Proof.
  unfold header_ok. cbn [forallb]. rewrite !andb_true_iff.
  intros ((_ & H1) & (_ & H2) & (_ & H3) & (_ & H4) & (_ & H5) & (_ & H6) & _).
  unfold flat_object, header_value. apply andb_true_iff. split.
  - apply bool_decide_eq_true_2. cbn [fmap list_fmap fst snd].
    apply (bool_decide_eq_true_1 (NoDup _)). vm_compute. reflexivity.
  - unfold ascii in *. cbn [forallb fmap list_fmap fst snd].
    by rewrite H1, H2, H3, H4, H5, H6.
Qed.

Lemma header_denotes m : header_ok m = true → denotes (header_json m) (J_obj (header_value m)).
Proof.
  unfold header_ok. cbn [forallb]. rewrite !andb_true_iff.
  intros ((H1 & _) & (H2 & _) & (H3 & _) & (H4 & _) & (H5 & _) & (H6 & _) & _). unfold header_json. apply denotes_object.
  assert (∀ v, name_json_ok v = true → denotes (x22 :: str_bytes v ++ [x22]) (J_str (str_bytes v))) as Hv.
  { intros v Hv. by apply denotes_str, denotes_name. }
  assert (∀ k v ms t, name_json_ok k = true → name_json_ok v = true → denotes_members t ms →
    denotes_members (header_member k v ++ x2c :: t) ((str_bytes k, J_str (str_bytes v)) :: ms)) as Hc.
  { intros k v ms t Hk Hw Ht. pose proof (member_cons _ _ _ _ _ _ (denotes_name k Hk) (Hv v Hw) Ht) as H.
    unfold header_member. revert H. cbn [app]. rewrite <-!app_assoc. cbn [app].
    by rewrite <-!app_assoc. }
  unfold header_members. rewrite <-!app_assoc. cbn [app]. rewrite <-!app_assoc. cbn [app].
  rewrite <-!app_assoc. cbn [app]. rewrite <-!app_assoc. cbn [app]. rewrite <-!app_assoc. cbn [app].
  unfold header_value. cbn [fmap list_fmap fst snd].
  do 5 (apply Hc; [reflexivity|done|]).
  pose proof (member_one _ _ _ _ (denotes_name "version" eq_refl) (Hv _ H6)) as H.
  unfold header_member. revert H. cbn [app]. rewrite <-!app_assoc. cbn [app]. by rewrite <-!app_assoc.
Qed.

Section Parser.
Context {P : json_parser} (type_error : string).
(** The library reads such objects as RFC 8259 defines. *)
Hypothesis parse_sound : ∀ s v, parse_json s = Some v → flat_object v = true → parse s = inl v.

Lemma field_found ms i key v set m :
  list_find (λ kv : text * json, kv.1 = str_bytes key) ms = Some (i, (str_bytes key, J_str (str_bytes v))) →
  field type_error ms key set m = inl (set v m).
Proof. intros E. unfold field. rewrite E. cbn [fmap option_fmap option_map snd]. by rewrite bytes_str_bytes. Qed.

Lemma read_header_value m :
  read_header type_error (header_value m) default_message = inl (without_payload m).
Proof.
  destruct m. unfold read_header.
  do 6 (erewrite field_found by (vm_compute; reflexivity); cbn [and_then]). done.
Qed.

(** The binary form of a message is read back as its header: the payload that was
    written after it is skipped, so the restored message has an empty one; the
    header fields must need no escape, and fewer bytes than [2^32 - 4]. *)
Theorem message_binary_roundtrip m :
  header_ok m = true → Z.of_nat (length (header_json m)) < 2 ^ 32 - 4 →
  deserialize_binary type_error (serialize_binary m).2 = Val (inl (without_payload m)) ∧
  deserialize_binary_plain (serialize_binary m).2 = Val (inl default_message).
Proof.
  intros Hok Hl. unfold serialize_binary.
  destruct (value_store.serialize_binary (payload_ m)) as [p data]. cbn [snd].
  set (bs := put_u32 _ ++ header_json m ++ data).
  assert (∀ header, deserialize_binary_with header bs = Val (header (header_json m))) as E.
  { assert (length bs = (4 + (length (header_json m) + length data))%nat) as Hbs
      by (unfold bs; by rewrite !length_app, length_put_u32).
    intros header. unfold deserialize_binary_with. rewrite Hbs.
    destruct (Z.ltb_spec (Z.of_nat (4 + (length (header_json m) + length data))) 4) as [|_]; [lia|].
    rewrite (get_u32_at bs 0 (Z.of_nat (length (header_json m))) (header_json m ++ data));
      [|lia|apply at_bytes_all]. cbn [res_bind].
    pose proof (at_bytes_u32 _ _ _ _ (at_bytes_all bs)) as Hat.
    rewrite wrap_small by lia.
    destruct (Z.ltb_spec (Z.of_nat (4 + (length (header_json m) + length data)))
      (4 + Z.of_nat (length (header_json m)))) as [|_]; [lia|].
    change 4 with (0 + 4) at 1 2. by rewrite (sub_at _ _ _ (at_bytes_prefix _ _ _ _ Hat)). }
  unfold deserialize_binary, deserialize_binary_plain. rewrite !E. split; [|done].
  rewrite (parse_sound _ _ (denotes_parse _ _ (header_denotes m Hok)) (header_flat m Hok)). cbn [and_then members].
  by rewrite read_header_value.
Qed.

(** The text that is written without the library is an object with the header and
    the payload; a peer whose library reads it so gets the header only. *)
Theorem message_json_roundtrip m :
  header_ok m = true →
  entries_json_ok (value_json_ok tree_json_ok) (value_store.values_ (payload_ m)) = true →
  let v := J_obj [(str_bytes "header", J_obj (header_value m));
                  (str_bytes "payload", tree_json (Tree (value_store.values_ (payload_ m))))] in
  ∃ s, (serialize m).2 = Val s ∧ parse_json s = Some v ∧ deserialize_plain s = inr no_library ∧
       (parse s = inl v → deserialize type_error s = inl (without_payload m)).
Proof.
  intros Hok Hp v. unfold serialize, store_serialize.
  destruct (tree_prints_ok (Tree (value_store.values_ (payload_ m))) Hp) as (p & Ep & Hd).
  cbn [tree_to_json entries] in Ep. cbn [snd]. rewrite Ep. eexists. split; [reflexivity|].
  pose proof (member_one _ _ _ _ (denotes_name "payload" eq_refl) Hd) as H1.
  pose proof (member_cons _ _ _ _ _ _ (denotes_name "header" eq_refl) (header_denotes m Hok) H1) as H2.
  apply denotes_object, denotes_parse in H2. split_and!; [exact H2|done|].
  intros E. unfold deserialize. rewrite E. cbn [and_then members v]. by rewrite <-read_header_value.
Qed.
End Parser.

(** C25. Without a bound on the size field the check before the header fails: [4 + size]
    is a 32-bit sum, so a size within four of [2^32] passes it, and the iterators
    leave a buffer that is shorter.  Every other input is answered: the range of
    the header, or an error. *)
Theorem message_binary_undefined header data :
  let n := Z.of_nat (length data) in
  (deserialize_binary_with header data = Undef ↔
   ∃ size, get_le data 0 4 = Val size ∧ 2 ^ 32 ≤ 4 + size ∧ n < 4 + size) ∧
  (n < 4 → deserialize_binary_with header data = Val (inr too_small_size)) ∧
  (∀ size, get_le data 0 4 = Val size → 4 + size < 2 ^ 32 →
   if n <? 4 + size then deserialize_binary_with header data = Val (inr too_small_header)
   else ∃ h, sub data 4 (4 + size) = Val h ∧ Z.of_nat (length h) = size ∧
             deserialize_binary_with header data = Val (header h)).
Proof.
  intros n. unfold deserialize_binary_with. fold n.
  destruct (Z.ltb_spec n 4) as [Hn|Hn].
  { assert (∀ size, get_le data 0 4 ≠ Val size) as Hno.
    { intros size H. unfold get_le, sub in H. fold n in H.
      by destruct (Z.leb_spec (0 + 4) n); [lia|]. }
    split_and!; [|done|intros size H; by destruct (Hno size)].
    split; [done|]. intros (size & H & _). by destruct (Hno size). }
  destruct (get_le_in data 0 4) as (size & E & Hs); [lia..|]. rewrite E. cbn [res_bind].
  assert (4 + size < 2 ^ 32 → if n <? 4 + size then True else
    ∃ h, sub data 4 (4 + size) = Val h ∧ Z.of_nat (length h) = size) as Hin.
  { intros Hb. destruct (Z.ltb_spec n (4 + size)); [done|].
    destruct (sub_in data 4 (4 + size)) as (h & Eh & Hh); [lia..|]. exists h. split; [done|lia]. }
  split_and!; [|lia|].
  - destruct (Z.ltb_spec (4 + size) (2 ^ 32)) as [Hb|Hb].
    + rewrite wrap_small by lia. specialize (Hin Hb). destruct (n <? 4 + size).
      * split; [done|]. intros (x & [= <-] & ? & _). lia.
      * destruct Hin as (h & -> & _). split; [done|]. intros (x & [= <-] & ? & _). lia.
    + assert (wrap 32 (4 + size) < 4) as Hw.
      { unfold wrap. rewrite <-(Z_mod_plus_full _ (-1)), Z.mod_small; lia. }
      destruct (Z.ltb_spec n (wrap 32 (4 + size))); [lia|].
      unfold sub. fold n. replace (0 <=? 4) with true by done.
      replace (4 <=? 4 + size) with true by lia. destruct (Z.leb_spec (4 + size) n) as [Hf|Hf]; cbn.
      * split; [done|]. intros (x & [= <-] & _ & ?). lia.
      * split; [|done]. intros _. exists size. by split_and!.
  - intros x [= <-] Hb. rewrite wrap_small by lia. specialize (Hin Hb). destruct (n <? 4 + size); [done|].
    destruct Hin as (h & Eh & Hh). exists h. rewrite Eh. by split_and!.
Qed.

(** A size field of [2^32 - 4] in front of four more bytes. *)
Lemma message_binary_undefined_witness :
  deserialize_binary_plain [xfc; xff; xff; xff; x00; x00; x00; x00] = Undef ∧
  deserialize_binary_plain [x01; x00] = Val (inr too_small_size) ∧
  deserialize_binary_plain [x05; x00; x00; x00; x00] = Val (inr too_small_header).
Proof.
  split_and!.
  - apply (message_binary_undefined (λ _, inl default_message)). exists 4294967292.
    split; [vm_compute; reflexivity|]. split; vm_compute; [discriminate|reflexivity].
  - apply (message_binary_undefined (λ _, inl default_message)). vm_compute. reflexivity.
  - exact (proj2 (proj2 (message_binary_undefined (λ _, inl default_message)
      [x05; x00; x00; x00; x00])) 5 eq_refl eq_refl).
Defined.

(** A parser that reads RFC 8259, and nothing else. *)
Definition rfc_parser : json_parser :=
  λ s, match parse_json s with Some v => inl v | None => inr "parse error"%string end.

Definition sample_message : t :=
  update_payload (λ _, json_store) (from_source "client_1" "s" "server" "" "order").

Lemma message_binary_roundtrip_witness :
  deserialize_binary (P:=rfc_parser) "type_error" (serialize_binary sample_message).2
  = Val (inl (from_source "client_1" "s" "server" "" "order")).
Proof.
  apply (message_binary_roundtrip (P:=rfc_parser) "type_error"); [|vm_compute; reflexivity..].
  intros s v H _. unfold parse, rfc_parser. by rewrite H.
Defined.

Lemma message_json_roundtrip_witness :
  ∃ s, (serialize sample_message).2 = Val s ∧
       deserialize (P:=rfc_parser) "type_error" s
       = inl (from_source "client_1" "s" "server" "" "order").
Proof.
  destruct (message_json_roundtrip (P:=rfc_parser) "type_error" sample_message)
    as (s & Hs & Hp & _ & Hd); [vm_compute; reflexivity..|].
  exists s. split; [exact Hs|]. apply Hd. unfold parse, rfc_parser. by rewrite Hp.
Defined.
End message_facts.

(** ** Containers as messages *)

Module messaging_facts.
Import value_container unified messaging_integration messaging_container_builder.

Section Facts.
Context (what : std_exception → string).
Abbreviation container := (value_container.t ctree).

Lemma text_sent c : text_ok c = true → serialize_string what fmt_binary c = inl (text_of c).
Proof. intros Hok. unfold serialize_string. by rewrite text_written. Qed.

Lemma text_not_empty (c : container) : ∃ b s, text_of c = b :: s.
Proof. unfold text_of, binary_serializer.header_text. by eexists _, _. Qed.

Lemma received c compress decompress :
  text_ok c = true →
  deserialize_from_messaging (serialize_for_messaging what (Some c) compress) decompress
  = Val (inl (Some (restored false c new))).
Proof.
  intros Hok. unfold serialize_for_messaging, deserialize_from_messaging. rewrite (text_sent c Hok).
  destruct (text_not_empty c) as (b & s & E). rewrite E, <-E.
  unfold text_container.of_text, text_container.constructed.
  by rewrite deserialize_flat, text_read.
Qed.

(** A container that the text format can express arrives normalized, with and
    without monitoring; one that cannot be written, and the null pointer, arrive as
    the null pointer. *)
Theorem messaging_roundtrip (c : container) compress decompress :
  (text_ok c = true →
   deserialize_from_messaging (serialize_for_messaging what (Some c) compress) decompress
   = Val (inl (Some (restored false c new)))) ∧
  (∀ e, serialize_string what fmt_binary c = inr e →
   deserialize_from_messaging (serialize_for_messaging what (Some c) compress) decompress
   = Val (inl None)) ∧
  deserialize_from_messaging (serialize_for_messaging what None compress) decompress = Val (inl None).
Proof.
  split_and!; [apply received|by intros e; unfold serialize_for_messaging; intros ->|done].
Qed.

(** ** The builder *)

(** What a receiver sees of an argument: a nested container arrives as no bytes
    at all, an unsigned integer as a signed one. *)
Definition arrives (a : argument) : option (variant (option ctree) (option (list (value_variant ctree)))) :=
  match a with
  | A_container None | A_other => None
  | A_container (Some _) => Some (V_bytes [])
  | A_bool b => Some (V_bool b)
  | A_integral size z => Some (if size <=? 4 then V_int (swrap 32 z) else V_long (swrap 64 z))
  | A_float z => Some (V_float (printed f32 (f32_to_f64 z)))
  | A_double z => Some (V_double (printed f64 z))
  | A_string s => Some (V_string s)
  end.

Definition sent (key : string) (a : argument) : option (optimized_value ctree) :=
  (λ d, Optimized key (index_type (Vv d)) (Vv d)) <$>
  match a with
  | A_container (Some c) => Some (V_bytes (text_of c))
  | A_float z => Some (V_float z)
  | A_double z => Some (V_double z)
  | a => arrives a
  end.

Definition argument_ok (a : argument) : bool :=
  match a with
  | A_container c => match c with Some c => text_ok c | None => false end
  | A_float z => u_ok 32 z
  | A_double z => u_ok 64 z
  | A_string s => string_ok (str_bytes s)
  | _ => true
  end.

Definition argument_ok' (ka : string * argument) : bool :=
  bool_decide (word_ok (str_bytes ka.1)) && argument_ok ka.2.

(** [builder.set(k1, v1).set(k2, v2)...] *)
Definition sets (args : list (string * argument)) (b : t) : res t :=
  fold_left (λ r ka, let? b := r in set what ka.1 ka.2 b) args (Val b).

Lemma sent_norm key a :
  unit_norm <$> sent key a = (λ d, Optimized key (index_type (Vv d)) (Vv d)) <$> arrives a.
Proof. by destruct a as [[c|]|b|size z|z|z|s|]; cbn; try done; destruct (size <=? 4). Qed.

Lemma sent_ok key a u : argument_ok' (key, a) = true → sent key a = Some u → unit_ok u = true.
Proof.
  unfold argument_ok'. intros [Hk Ha]%andb_true_iff Hu. cbn [fst snd] in *.
  assert (∀ d : variant (option ctree) (option (list (value_variant ctree))), unit_ok (Optimized key (index_type (Vv d)) (Vv d)) =
    match d with
    | V_short z => s_ok 16 z | V_ushort z => u_ok 16 z
    | V_int z => s_ok 32 z | V_uint z => u_ok 32 z
    | V_long z | V_llong z => s_ok 64 z
    | V_ulong z | V_ullong z => u_ok 64 z
    | V_float z => u_ok 32 z | V_double z => u_ok 64 z
    | V_string s => string_ok (str_bytes s)
    | _ => true
    end) as E.
  { intros d. unfold unit_ok. cbn [name type data vv]. rewrite Hk. by rewrite bool_decide_eq_true_2. }
  destruct a as [[c|]|b|size z|z|z|s|]; try done; injection Hu as <-; try by rewrite E.
  pose proof (swrap_range 32 z). pose proof (swrap_range 64 z).
  destruct (size <=? 4); rewrite E; unfold s_ok; lia.
Qed.

Lemma set_sent key a b :
  argument_ok a = true →
  set what key a b = Val (on_container (λ c, match sent key a with
                                             | Some u => set_unit_impl u c
                                             | None => c
                                             end) b).
Proof.
  destruct a as [[c|]|v|size z|z|z|s|]; cbn [argument_ok]; intros Ha; try done; unfold set; cbn.
  - by rewrite (text_written c Ha).
  - by destruct b.
Qed.

Lemma set_unit_ok (u : optimized_value ctree) (c : container) :
  unit_ok u = true → text_ok c = true → text_ok (set_unit_impl u c) = true.
Proof.
  intros Hu (Hp & Hh & Hus)%text_ok_spec. apply text_ok_spec.
  destruct (set_frame u c) as (-> & _ & -> & _). split_and!; [done..|].
  apply forallb_Forall. apply (set_unit_forall (λ u, unit_ok u = true)); [done|].
  by apply forallb_Forall.
Qed.

(** What the last argument given for a key contributes. *)
Fixpoint latest {A} (f : string → argument → option A) (key : string)
    (args : list (string * argument)) : option A :=
  match args with
  | [] => None
  | (k, a) :: args =>
      match latest f key args with
      | Some d => Some d
      | None => if bool_decide (k = key) then f k a else None
      end
  end.

Lemma latest_norm key args :
  unit_norm <$> latest sent key args
  = (λ d, Optimized key (index_type (Vv d)) (Vv d)) <$> latest (λ _, arrives) key args.
Proof.
  induction args as [|[k a] args IH]; [done|]. cbn [latest].
  destruct (latest sent key args), (latest (λ _, arrives) key args); try done.
  case_bool_decide as E; [|done]. subst k. apply sent_norm.
Qed.

Lemma sets_sent args b :
  forallb argument_ok' args = true →
  ∃ b', sets args b = Val b' ∧
    (text_ok (container_ b) = true → text_ok (container_ b') = true) ∧
    ∀ key, get key (container_ b') =
      match latest sent key args with Some u => Some u | None => get key (container_ b) end.
Proof.
  unfold sets. revert b. induction args as [|[k a] args IH]; intros b H; [by exists b|].
  cbn [forallb] in H. apply andb_true_iff in H as [Ha H].
  pose proof Ha as [_ Ha2]%andb_true_iff. cbn [fold_left fst snd res_bind].
  rewrite set_sent by done.
  set (b1 := on_container _ b). destruct (IH b1 H) as (b' & E & Hok & Hv).
  exists b'. split; [exact E|]. unfold b1 in *. cbn [on_container container_] in Hok, Hv. split.
  - intros Hb. apply Hok. destruct (sent k a) as [u|] eqn:Eu; [|done].
    apply set_unit_ok; [|done]. by apply (sent_ok k a u).
  - intros key. rewrite Hv. cbn [latest]. destruct (latest sent key args) as [u|]; [done|].
    destruct (sent k a) as [u|] eqn:Eu; [|by case_bool_decide].
    assert (name u = k) as Hn by (unfold sent in Eu; by destruct a as [[]| | | | | |]; try done; injection Eu as <-).
    unfold get. rewrite !find_unit_view. fold (view (set_unit_impl u (container_ b))).
    rewrite set_view, Hn. case_bool_decide as Ek; [subst; by rewrite lookup_insert_eq|].
    by rewrite lookup_insert_ne.
Qed.

Lemma find_unit_norm key (us : list (optimized_value ctree)) :
  find_unit key (unit_norm <$> us) = unit_norm <$> find_unit key us.
Proof. induction us as [|u us IH]; [done|]. cbn. by case_bool_decide. Qed.

(** C24. The whole way of a message: arguments put into a builder in any order,
    sent and received.  Under each key the receiver finds the last argument that was
    given for it, a fraction rounded to six decimals, an unsigned integer as a
    signed one of four or eight bytes, and of a nested container nothing but an
    empty byte vector; an argument of any other type is not there.  Building leaves the
    builder with a new container. *)
Theorem builder_to_receiver args ty :
  forallb argument_ok' args = true → text_ok (set_message_type ty (new : container)) = true →
  ∃ b, sets args (message_type ty create) = Val b ∧
    (build b).1 = Builder new (size_optimized_ b) (speed_optimized_ b) ∧
    ∃ c, deserialize_from_messaging (serialize_for_messaging what (Some (build b).2) false) false
         = Val (inl (Some c)) ∧
      ∀ key, get key c =
        (λ d, Optimized key (index_type (Vv d)) (Vv d)) <$> latest (λ _, arrives) key args.
Proof.
  intros Ha Ht. destruct (sets_sent args (message_type ty create) Ha) as (b & E & Hok & Hv).
  specialize (Hok Ht). exists b. split; [exact E|]. split; [done|].
  exists (restored false (container_ b) new). split; [by apply received|].
  intros key. unfold get. cbn. rewrite find_unit_norm. fold (get key (container_ b)).
  rewrite Hv, <-latest_norm. by destruct (latest sent key args).
Qed.

End Facts.

(** An order with a nested container, an unsigned number and a byte vector. *)
Definition order_arguments : list (string * argument) :=
  [("id"%string, A_integral 4 4000000000); ("note"%string, A_string "a, b");
   ("lines"%string, A_container (Some written_sample)); ("raw"%string, A_other);
   ("note"%string, A_string "c")].

Definition said : std_exception → string := λ _, "exception"%string.

Lemma builder_to_receiver_witness :
  ∃ b c, sets said order_arguments (message_type "order" create) = Val b ∧
    deserialize_from_messaging (serialize_for_messaging said (Some (build b).2) false) false
    = Val (inl (Some c)) ∧
    get "id" c = Some (Optimized "id" int_value (Vv (V_int (-294967296)))) ∧
    get "lines" c = Some (Optimized "lines" bytes_value (Vv (V_bytes []))) ∧
    get "raw" c = None ∧
    get "note" c = Some (Optimized "note" string_value (Vv (V_string "c"))).
Proof.
  destruct (builder_to_receiver said order_arguments "order") as (b & Hb & _ & c & Hc & Hget);
    [vm_compute; reflexivity..|].
  exists b, c. split; [assumption|]. split; [assumption|]. rewrite !Hget.
  vm_compute. repeat split.
Defined.

Lemma messaging_roundtrip_witness :
  deserialize_from_messaging (serialize_for_messaging said (Some written_sample) true) false
  = Val (inl (Some (restored false written_sample new))).
Proof. apply (messaging_roundtrip said written_sample true false). vm_compute. reflexivity. Defined.
End messaging_facts.
