(* ===== verification/GrpcAdapter.v ===== *)
(** * Containers as protocol buffers

    [grpc/adapters/container_adapter.{h,cpp}] and [grpc/adapters/value_mapper.h].
    The C++ classes of the messages are generated from
    [grpc/proto/container_service.proto] and are no code of the repository: they are
    the parameter [protobuf], a message being used by its accessors only; what the
    guide of the generator says about these is [ProtobufLaws].

    A function of the adapter returns or throws ([O_throw] with the text of the
    exception).  The type of a value in a message is an open enumeration, and the
    adapter casts any number of it to [value_types], whose values are those of
    [int]: a container read from a message may have values of a type that is
    none of the sixteen enumerators.  [gtree] is a container with the numbers of
    these. *)

#[local] Set Warnings "-register-all".
From S2P Require Import Prelude Float Types Container.
Import value_container.

(** ** The generated classes *)

(** The members of the oneof that are no messages, with the type of each. *)
Inductive scalar_field : Type :=
| null_flag | bool_val | short_val | ushort_val | int_val | uint_val | long_val | ulong_val
| llong_val | ullong_val | float_val | double_val | string_val | bytes_val.

Definition payload (f : scalar_field) : Type :=
  match f with
  | null_flag | bool_val => bool
  | string_val => string
  | bytes_val => list byte
  | _ => Z
  end.

(** [int32], [uint32], [int64], [uint64], and the bits of [float] and [double]. *)
Definition payload_ok (f : scalar_field) : payload f → bool :=
  match f with
  | short_val | int_val => s_ok 32
  | ushort_val | uint_val | float_val => u_ok 32
  | long_val | llong_val => s_ok 64
  | ulong_val | ullong_val | double_val => u_ok 64
  | _ => λ _, true
  end.

Inductive header_field : Type :=
| F_source_id | F_source_sub_id | F_target_id | F_target_sub_id | F_message_type | F_version.

#[export] Instance header_field_eq_dec : EqDecision header_field.
Proof. solve_decision. Defined.

Class protobuf : Type := Protobuf {
  GrpcValue : Type;
  GrpcContainer : Type;
  new_value : GrpcValue;
  get_name : GrpcValue → string;
  put_name : string → GrpcValue → GrpcValue;
  get_type : GrpcValue → Z;
  put_type : Z → GrpcValue → GrpcValue;
  get_val (f : scalar_field) : GrpcValue → payload f;
  put_val (f : scalar_field) : payload f → GrpcValue → GrpcValue;
  has_container_val : GrpcValue → bool;
  get_container_val : GrpcValue → GrpcContainer;
  put_container_val : GrpcContainer → GrpcValue → GrpcValue;
  new_container : GrpcContainer;
  get_header (f : header_field) : GrpcContainer → string;
  put_header (f : header_field) : string → GrpcContainer → GrpcContainer;
  get_values : GrpcContainer → list GrpcValue;
  add_values : GrpcValue → GrpcContainer → GrpcContainer }.

(** Reading a field gives what was last stored; the members of the oneof leave the
    other fields alone; a getter gives a value of the type of its field; a message is a
    finite tree ([nesting] counts its levels). *)
Class ProtobufLaws (P : protobuf) : Type := {
  name_put_name s v : get_name (put_name s v) = s;
  name_put_type t v : get_name (put_type t v) = get_name v;
  name_put_val f x v : get_name (put_val f x v) = get_name v;
  name_put_container c v : get_name (put_container_val c v) = get_name v;
  type_put_type t v : s_ok 32 t = true → get_type (put_type t v) = t;
  type_put_val f x v : get_type (put_val f x v) = get_type v;
  type_put_container c v : get_type (put_container_val c v) = get_type v;
  val_put_val f x v : payload_ok f x = true → get_val f (put_val f x v) = x;
  type_ok v : s_ok 32 (get_type v) = true;
  val_ok f v : payload_ok f (get_val f v) = true;
  has_container_new : has_container_val new_value = false;
  has_container_put_name s v : has_container_val (put_name s v) = has_container_val v;
  has_container_put_type t v : has_container_val (put_type t v) = has_container_val v;
  has_container_put c v : has_container_val (put_container_val c v) = true;
  container_put c v : get_container_val (put_container_val c v) = c;
  header_put f s c : get_header f (put_header f s c) = s;
  header_put_other f g s c : f ≠ g → get_header f (put_header g s c) = get_header f c;
  header_add f v c : get_header f (add_values v c) = get_header f c;
  values_new : get_values new_container = [];
  values_put_header f s c : get_values (put_header f s c) = get_values c;
  values_add v c : get_values (add_values v c) = get_values c ++ [v];
  nesting : GrpcContainer → nat;
  nesting_smaller v c : v ∈ get_values c → has_container_val v = true →
    (nesting (get_container_val v) < nesting c)%nat }.

(** ** Containers *)

(** A container and the ones it owns.  The type of the values named [key] is the number
    [foreign !! key], if there is one; [null_value] stands for it in the value. *)
Inductive gtree : Type := Node { node : value_container.t gtree; foreign : gmap string Z }.

(** What a [value_types] is: an enumerator, or another number. *)
Abbreviation tag := (value_types + Z)%type.

Definition tag_of (n : gtree) (u : optimized_value gtree) : tag :=
  match foreign n !! name u with Some z => inr z | None => inl (type u) end.

(** ** Outcomes *)

Inductive conversion (A : Type) : Type :=
| O_ok (a : A)
| O_throw (what : string).
Arguments O_ok {A} _.
Arguments O_throw {A} _.

Definition o_bind {A B} (f : A → conversion B) (r : conversion A) : conversion B :=
  match r with O_ok a => f a | O_throw w => O_throw w end.

Notation "'let!' x ':=' r 'in' k" := (o_bind (λ x, k) r)
  (at level 10, x pattern, r at level 100, k at level 200) : cs_scope.

(** A loop over a vector that may throw. *)
Fixpoint o_fold {A S} (f : A → S → conversion S) (l : list A) (s : S) : conversion S :=
  match l with
  | [] => O_ok s
  | a :: l => let! s := f a s in o_fold f l s
  end.

(** ** value_mapper *)

Module value_mapper.

Definition is_supported (type : tag) : bool :=
  match type with
  | inl (null_value | bool_value | short_value | ushort_value | int_value | uint_value
  | long_value | ulong_value | llong_value | ullong_value | float_value | double_value
  | string_value | bytes_value | container_value | array_value) => true
  | inr _ => false
  end.

Definition type_name (type : tag) : string :=
  match type with
  | inl null_value => "null" | inl bool_value => "bool" | inl short_value => "short"
  | inl ushort_value => "ushort" | inl int_value => "int" | inl uint_value => "uint"
  | inl long_value => "long" | inl ulong_value => "ulong" | inl llong_value => "llong"
  | inl ullong_value => "ullong" | inl float_value => "float" | inl double_value => "double"
  | inl string_value => "string" | inl bytes_value => "bytes" | inl container_value => "container"
  | inl array_value => "array"
  | inr _ => "unknown"
  end.

Definition proto_type_name (type : Z) : string :=
  default "UNKNOWN"%string
    (list_find (λ p : Z * string, p.1 = type)
      [(0, "NULL_VALUE"); (1, "BOOL_VALUE"); (2, "SHORT_VALUE"); (3, "USHORT_VALUE");
       (4, "INT_VALUE"); (5, "UINT_VALUE"); (6, "LONG_VALUE"); (7, "ULONG_VALUE");
       (8, "LLONG_VALUE"); (9, "ULLONG_VALUE"); (10, "FLOAT_VALUE"); (11, "DOUBLE_VALUE");
       (12, "STRING_VALUE"); (13, "BYTES_VALUE"); (14, "CONTAINER_VALUE");
       (15, "ARRAY_VALUE")]%string ≫= λ r, Some r.2.2).

End value_mapper.

Module type_mapping.

Definition to_proto_enum (type : value_types) : Z := type_index type.
Definition from_proto_enum (proto_type : Z) : value_types :=
  if (proto_type <? 0) || (15 <? proto_type) then null_value
  else default null_value (type_of_index proto_type).
Definition get_proto_field_number (type : value_types) : Z := type_index type + 3.

End type_mapping.

Module size_calculator.

Definition base_overhead : Z := 3.
Definition header_overhead : Z := 100.

Definition estimate_proto_size (type : tag) (data_size : Z) : Z :=
  match type with
  | inl (null_value | bool_value) => base_overhead + 1
  | inl (short_value | ushort_value | int_value | uint_value) => base_overhead + 5
  | inl (long_value | ulong_value | llong_value | ullong_value) => base_overhead + 10
  | inl float_value => base_overhead + 4
  | inl double_value => base_overhead + 8
  | inl (string_value | bytes_value) => wrap 64 (base_overhead + data_size + 2)
  | _ => wrap 64 (base_overhead + data_size)
  end.

Definition estimate_container_size (value_count avg_name_length avg_data_size : Z) : Z :=
  let per_value := wrap 64 (avg_name_length + avg_data_size + 10) in
  wrap 64 (header_overhead + value_count * per_value).

End size_calculator.

(** ** container_adapter *)

Module container_adapter.
Section Adapter.
Context {P : protobuf} (access_error : string).
Abbreviation container := gtree.
Abbreviation optimized := (optimized_value gtree).

Definition MAX_NESTING_DEPTH : nat := 32.
Definition too_deep_to : string := "Maximum nesting depth exceeded during conversion to gRPC".
Definition too_deep_from : string := "Maximum nesting depth exceeded during conversion from gRPC".

Definition to_grpc_type (type : tag) : Z :=
  match type with inl type => type_index type | inr z => z end.
Definition from_grpc_type (type : Z) : tag :=
  match type_of_index type with Some type => inl type | None => inr type end.

(** [set_grpc_value_data] but for containers; [std::get] of another alternative throws. *)
Definition set_plain_data (v : GrpcValue) (data : value_variant gtree) (type : value_types)
    : conversion GrpcValue :=
  match type, vv data with
  | null_value, _ => O_ok (put_val null_flag true v)
  | bool_value, V_bool b => O_ok (put_val bool_val b v)
  | short_value, V_short z => O_ok (put_val short_val z v)
  | ushort_value, V_ushort z => O_ok (put_val ushort_val z v)
  | int_value, V_int z => O_ok (put_val int_val z v)
  | uint_value, V_uint z => O_ok (put_val uint_val z v)
  | long_value, V_long z => O_ok (put_val long_val z v)
  | ulong_value, V_ulong z => O_ok (put_val ulong_val z v)
  | llong_value, V_llong z => O_ok (put_val llong_val z v)
  | ullong_value, V_ullong z => O_ok (put_val ullong_val z v)
  | float_value, V_float z => O_ok (put_val float_val z v)
  | double_value, V_double z => O_ok (put_val double_val z v)
  | string_value, V_string s => O_ok (put_val string_val s v)
  | bytes_value, V_bytes bs => O_ok (put_val bytes_val bs v)
  | container_value, _ => O_ok v
  | array_value, _ => O_ok v
  | _, _ => O_throw access_error
  end.

(** The case of a container, [convert] being what converts the nested one. *)
Definition set_container_data (convert : gtree → conversion GrpcContainer) (v : GrpcValue)
    (data : value_variant gtree) : conversion GrpcValue :=
  match vv data with
  | V_container (Some nested) => let! g := convert nested in O_ok (put_container_val g v)
  | V_container None => O_ok v
  | _ => O_throw access_error
  end.

Definition named_value (name : string) (type : tag) : GrpcValue :=
  put_type (to_grpc_type type) (put_name name new_value).

(** What the loop writes for one value of [n]; a foreign type is no case of the
    [switch]. *)
Definition write_value (convert : gtree → conversion GrpcContainer) (n : gtree) (val : optimized)
    : conversion GrpcValue :=
  match tag_of n val with
  | inl container_value => set_container_data convert (named_value (name val) (inl container_value)) (data val)
  | inl type => set_plain_data (named_value (name val) (inl type)) (data val) type
  | inr z => O_ok (named_value (name val) (inr z))
  end.

(** [budget] is [MAX_NESTING_DEPTH + 1 - depth]. *)
Fixpoint to_grpc_recursive (budget : nat) (n : gtree) : conversion GrpcContainer :=
  match budget with
  | O => O_throw too_deep_to
  | S budget =>
      let c := node n in
      let g := put_header F_source_id (source_id_ (header_ c)) new_container in
      let g := put_header F_source_sub_id (source_sub_id_ (header_ c)) g in
      let g := put_header F_target_id (target_id_ (header_ c)) g in
      let g := put_header F_target_sub_id (target_sub_id_ (header_ c)) g in
      let g := put_header F_message_type (message_type_ (header_ c)) g in
      let g := put_header F_version "1.0.0.0" g in
      o_fold (λ val g,
        let! v := write_value (to_grpc_recursive budget) n val in
        O_ok (add_values v g)) (optimized_units_ c) g
  end.

Definition to_grpc (n : gtree) : conversion GrpcContainer :=
  to_grpc_recursive (S MAX_NESTING_DEPTH) n.

(** Of a value by itself, the type of which is [type]. *)
Definition set_grpc_value_data (v : GrpcValue) (data : value_variant gtree) (type : tag)
    : conversion GrpcValue :=
  match type with
  | inl container_value => set_container_data to_grpc v data
  | inl type => set_plain_data v data type
  | inr _ => O_ok v
  end.

Definition to_grpc_value (name : string) (type : tag) (data : value_variant gtree) : conversion GrpcValue :=
  set_grpc_value_data (named_value name type) data type.

(** [get_variant_from_grpc] but for containers. *)
Definition get_plain_variant (v : GrpcValue) (type : value_types) : value_variant gtree :=
  Vv match type with
     | null_value => V_null
     | bool_value => V_bool (get_val bool_val v)
     | short_value => V_short (swrap 16 (get_val short_val v))
     | ushort_value => V_ushort (wrap 16 (get_val ushort_val v))
     | int_value => V_int (get_val int_val v)
     | uint_value => V_uint (get_val uint_val v)
     | long_value => V_long (get_val long_val v)
     | ulong_value => V_ulong (get_val ulong_val v)
     | llong_value => V_llong (get_val llong_val v)
     | ullong_value => V_ullong (get_val ullong_val v)
     | float_value => V_float (get_val float_val v)
     | double_value => V_double (get_val double_val v)
     | string_value => V_string (get_val string_val v)
     | bytes_value => V_bytes (get_val bytes_val v)
     | container_value => V_null
     | array_value => V_null
     end.

(** [container->set(val)] with a value of the type [type]. *)
Definition set_tagged (val : optimized) (type : tag) (n : container) : container :=
  Node (set_value val (node n))
    (match type with inl _ => delete (name val) (foreign n) | inr z => <[name val := z]> (foreign n) end).

(** What the loop does with one value; [convert] reads a nested message. *)
Definition read_value (convert : GrpcContainer → conversion container) (v : GrpcValue) (n : container)
    : conversion container :=
  match from_grpc_type (get_type v) with
  | inl container_value =>
      if has_container_val v then
        let! nested := convert (get_container_val v) in
        O_ok (set_tagged (Optimized (get_name v) container_value (Vv (V_container (Some nested))))
                (inl container_value) n)
      else O_ok n
  | inl type =>
      O_ok (set_tagged (Optimized (get_name v) type (get_plain_variant v type)) (inl type) n)
  | inr z => O_ok (set_tagged (Optimized (get_name v) null_value (Vv V_null)) (inr z) n)
  end.

Fixpoint from_grpc_recursive (budget : nat) (g : GrpcContainer) : conversion container :=
  match budget with
  | O => O_throw too_deep_from
  | S budget =>
      let c := set_source (get_header F_source_id g) (get_header F_source_sub_id g) new in
      let c := set_target (get_header F_target_id g) (get_header F_target_sub_id g) c in
      let c := set_message_type (get_header F_message_type g) c in
      o_fold (read_value (from_grpc_recursive budget)) (get_values g) (Node c ∅)
  end.

Definition from_grpc (g : GrpcContainer) : conversion container :=
  from_grpc_recursive (S MAX_NESTING_DEPTH) g.

Definition get_variant_from_grpc (v : GrpcValue) (type : tag) : conversion (value_variant gtree) :=
  match type with
  | inl container_value =>
      if has_container_val v then
        let! c := from_grpc (get_container_val v) in O_ok (Vv (V_container (Some c)))
      else O_ok (Vv (V_container None))
  | inl type => O_ok (get_plain_variant v type)
  | inr _ => O_ok (Vv V_null)
  end.

(** The name, the type and the data. *)
Definition from_grpc_value (v : GrpcValue) : conversion (string * tag * value_variant gtree) :=
  let type := from_grpc_type (get_type v) in
  let! d := get_variant_from_grpc v type in O_ok (get_name v, type, d).

(** [can_convert] of a container, and of a message with fuel for its levels. *)
Fixpoint can_convert (n : gtree) : bool :=
  let 'Node c f := n in
  forallb (λ val,
    match f !! name val with
    | Some z => value_mapper.is_supported (inr z)
    | None =>
        value_mapper.is_supported (inl (type val)) &&
        (negb (bool_decide (type val = container_value)) ||
         match vv (data val) with
         | V_container (Some nested) => can_convert nested
         | _ => true
         end)
    end) (optimized_units_ c).

Fixpoint can_convert_grpc (fuel : nat) (g : GrpcContainer) : option bool :=
  match fuel with
  | O => None
  | S fuel =>
      (fix loop (vs : list GrpcValue) : option bool :=
        match vs with
        | [] => Some true
        | v :: vs =>
            if negb (value_mapper.is_supported (from_grpc_type (get_type v))) then Some false
            else if has_container_val v then
              match can_convert_grpc fuel (get_container_val v) with
              | Some true => loop vs
              | r => r
              end
            else loop vs
        end) (get_values g)
  end.
End Adapter.
End container_adapter.
