(* ===== verification/GrpcAdapterFacts.v ===== *)
(** * What survives a conversion to a message and back

    - [grpc_roundtrip]: a container whose values have the type they are tagged
      with is converted exactly when it has at most 33 levels, and comes back as
      [arrives] says; deeper ones make the conversion throw;
    - [received_is_sendable]: whatever a message contains, the container read from it
      can be sent again, type numbers that no enumerator has included;
    - [can_convert_unless_foreign]: what the validation accepts. *)

#[local] Set Warnings "-register-all".
From S2P Require Import Prelude Float Types UnorderedMap Container ContainerFacts GrpcAdapter.
Import value_container container_adapter.

(** ** Containers that can be sent *)

(** The alternative is that of the type.  Of a foreign type, which is an [int] that is
    no enumerator, the data is not looked at. *)
Definition data_ok (n : gtree) (u : optimized_value gtree) : bool :=
  match tag_of n u, vv (data u) with
  | inr z, _ => s_ok 32 z && bool_decide (type_of_index z = None)
  | inl (null_value | array_value), _ => true
  | inl bool_value, V_bool _ | inl string_value, V_string _ | inl bytes_value, V_bytes _ => true
  | inl short_value, V_short z => s_ok 16 z
  | inl ushort_value, V_ushort z => u_ok 16 z
  | inl int_value, V_int z => s_ok 32 z
  | inl uint_value, V_uint z => u_ok 32 z
  | inl long_value, V_long z | inl llong_value, V_llong z => s_ok 64 z
  | inl ulong_value, V_ulong z | inl ullong_value, V_ullong z => u_ok 64 z
  | inl float_value, V_float z => u_ok 32 z
  | inl double_value, V_double z => u_ok 64 z
  | inl container_value, V_container _ => true
  | _, _ => false
  end.

(** The container a value is tagged to hold. *)
Definition nested_of (n : gtree) (u : optimized_value gtree) : option gtree :=
  match tag_of n u, vv (data u) with inl container_value, V_container n => n | _, _ => None end.

Fixpoint sendable (n : gtree) : bool :=
  let 'Node c f := n in
  forallb (λ u, data_ok n u &&
    match f !! name u, type u with
    | None, container_value => match vv (data u) with V_container (Some n) => sendable n | _ => true end
    | _, _ => true
    end) (optimized_units_ c).

(** Levels of containers. *)
Fixpoint levels (n : gtree) : nat :=
  let 'Node c f := n in
  S (foldr (λ u m, Nat.max
      match f !! name u, type u with
      | None, container_value => match vv (data u) with V_container (Some n) => levels n | _ => O end
      | _, _ => O
      end m) O (optimized_units_ c)).

(** What a value comes back as: arrays and values tagged as null are empty, null
    pointers are not there, values of foreign types are empty. *)
Definition arrive_unit (arrives : gtree → gtree) (n : gtree) (u : optimized_value gtree)
    : option (optimized_value gtree) :=
  match tag_of n u with
  | inl container_value =>
      match vv (data u) with
      | V_container (Some n) =>
          Some (Optimized (name u) container_value (Vv (V_container (Some (arrives n)))))
      | _ => None
      end
  | inl null_value | inr _ => Some (Optimized (name u) null_value (Vv V_null))
  | inl array_value => Some (Optimized (name u) array_value (Vv V_null))
  | _ => Some u
  end.

(** A container of its own with the ids and the message type. *)
Definition addressed (h : header) : value_container.t gtree :=
  set_message_type (message_type_ h)
    (set_target (target_id_ h) (target_sub_id_ h)
      (set_source (source_id_ h) (source_sub_id_ h) new)).

(** The foreign types [f] says the values [us] have, merged one after the other. *)
Definition carry (f : gmap string Z) (us : list (optimized_value gtree)) (into : gmap string Z) : gmap string Z :=
  fold_left (λ into u, partial_alter (λ _, f !! name u) (name u) into) us into.

Fixpoint arrives (n : gtree) : gtree :=
  let 'Node c f := n in
  let us := omap (arrive_unit arrives n) (optimized_units_ c) in
  Node (set_all us (addressed (header_ c))) (carry f us ∅).

Lemma carry_lookup f us into key :
  carry f us into !! key = if decide (key ∈ name <$> us) then f !! key else into !! key.
Proof.
  revert into. induction us as [|u us IH]; intros into; [done|].
  unfold carry in *. cbn [fold_left fmap list_fmap]. rewrite IH.
  destruct (decide (key ∈ name <$> us)) as [Hin|Hout].
  - rewrite decide_True; [done|by right].
  - destruct (decide (key = name u)) as [->|Hne].
    + rewrite lookup_partial_alter_eq, decide_True; [done|by left].
    + rewrite lookup_partial_alter_ne by done. rewrite decide_False; [done|].
      by intros [?|?]%elem_of_cons.
Qed.

(** ** One level *)

Definition unit_levels (n : gtree) (u : optimized_value gtree) : nat :=
  match nested_of n u with Some n => levels n | None => O end.
Definition unit_sendable (n : gtree) (u : optimized_value gtree) : bool :=
  data_ok n u && match nested_of n u with Some n => sendable n | None => true end.

Lemma levels_node n :
  levels n = S (foldr (λ u m, Nat.max (unit_levels n u) m) O (optimized_units_ (node n))).
Proof.
  destruct n as [c f]. cbn [levels node]. f_equal. induction (optimized_units_ c) as [|u us IH]; [done|].
  cbn [foldr]. rewrite IH. f_equal. unfold unit_levels, nested_of, tag_of. cbn [foreign].
  destruct (f !! name u); [done|].
  destruct (type u); try done. by destruct (vv (data u)) as [| | | | | | | | | | | | | |[]|].
Qed.

Lemma sendable_node n : sendable n = forallb (unit_sendable n) (optimized_units_ (node n)).
Proof.
  destruct n as [c f]. cbn [sendable node]. set (n := Node c f).
  induction (optimized_units_ c) as [|u us IH]; [done|].
  cbn [forallb]. rewrite IH. f_equal. unfold unit_sendable, nested_of, tag_of. f_equal.
  cbn [foreign n]. destruct (f !! name u); [done|].
  destruct (type u); try done. by destruct (vv (data u)) as [| | | | | | | | | | | | | |[]|].
Qed.

Section Facts.
Context {P : protobuf} {L : ProtobufLaws P} (access_error : string).

Abbreviation write_unit b := (write_value access_error (to_grpc_recursive access_error b)).
Abbreviation read_unit b := (read_value (from_grpc_recursive b)).

(** What the reader does with the value that arrives for [u]. *)
Definition arrived (n : gtree) (u : optimized_value gtree) (into : gtree) : gtree :=
  match arrive_unit arrives n u with
  | Some u' => Node (set_unit_impl u' (node into))
                 (partial_alter (λ _, foreign n !! name u) (name u) (foreign into))
  | None => into
  end.

Lemma type_index_fits t : s_ok 32 (type_index t) = true.
Proof. by destruct t. Qed.

Lemma named_fields name ty :
  s_ok 32 (to_grpc_type ty) = true →
  get_name (named_value name ty) = name ∧ get_type (named_value name ty) = to_grpc_type ty ∧
  has_container_val (named_value name ty) = false.
Proof.
  intros Hty. unfold named_value. split_and!.
  - by rewrite name_put_type, name_put_name.
  - by apply type_put_type.
  - by rewrite has_container_put_type, has_container_put_name, has_container_new.
Qed.

Lemma read_plain convert v c ty :
  get_type v = type_index ty → ty ≠ container_value →
  read_value convert v c = O_ok (set_tagged (Optimized (get_name v) ty (get_plain_variant v ty)) (inl ty) c).
Proof.
  intros E Hne. unfold read_value, from_grpc_type. rewrite E, type_of_index_index.
  by destruct ty.
Qed.

Lemma arrive_plain n u :
  foreign n !! name u = None → type u ≠ container_value → type u ≠ null_value → type u ≠ array_value →
  arrive_unit arrives n u = Some u.
Proof. intros Hf. unfold arrive_unit, tag_of. rewrite Hf. by destruct (type u). Qed.

Lemma read_plain_arrived b v n u into d :
  foreign n !! name u = None → get_name v = name u → get_type v = type_index (type u) →
  type u ≠ container_value → get_plain_variant v (type u) = d →
  arrive_unit arrives n u = Some (Optimized (name u) (type u) d) →
  read_unit b v into = O_ok (arrived n u into).
Proof.
  intros Hf Hn Ht Hc Hd Ha. rewrite (read_plain _ _ _ (type u)) by done.
  unfold arrived. rewrite Ha, Hn, Hf, Hd. done.
Qed.

(** A value that is tagged as no container. *)
Lemma plain_unit b n u :
  data_ok n u = true → foreign n !! name u = None → type u ≠ container_value →
  ∃ v, write_unit b n u = O_ok v ∧ ∀ c, read_unit b v c = O_ok (arrived n u c).
Proof.
  intros Hd Hf Hne. destruct (named_fields (name u) (inl (type u)) (type_index_fits _)) as (Hn & Ht & _).
  assert (∀ f x, payload_ok f x = true →
    get_name (put_val f x (named_value (name u) (inl (type u)))) = name u ∧
    get_type (put_val f x (named_value (name u) (inl (type u)))) = type_index (type u) ∧
    get_val f (put_val f x (named_value (name u) (inl (type u)))) = x) as Hput.
  { intros f x Hx. rewrite name_put_val, type_put_val, val_put_val by done. by split_and!. }
  assert (tag_of n u = inl (type u)) as Htag by (unfold tag_of; by rewrite Hf).
  assert (∀ d, arrive_unit arrives n u = Some (Optimized (name u) (type u) d) → ∀ v,
    get_name v = name u → get_type v = type_index (type u) → get_plain_variant v (type u) = d →
    ∀ c, read_unit b v c = O_ok (arrived n u c)) as Hread.
  { intros d Ha v ? ? ? c. by eapply read_plain_arrived. }
  unfold write_value, data_ok in *. rewrite Htag in *.
  assert (match type u with null_value | array_value => True | _ => arrive_unit arrives n u = Some u end) as Hk
    by (destruct (type u) eqn:E; try done; by apply arrive_plain; rewrite ?E).
  unfold arrive_unit in Hread, Hk. rewrite Htag in Hread, Hk.
  destruct u as [k ty [d]]. cbn [type data vv name] in *.
  destruct ty; try done; destruct d; try discriminate Hd; cbn [set_plain_data vv];
    (eexists; split; [reflexivity|]); (eapply Hread; [reflexivity|..]);
    try (rewrite ?name_put_val, ?type_put_val; by try apply Hn); try reflexivity;
    unfold get_plain_variant; rewrite val_put_val
      by (done || (unfold payload_ok, s_ok, u_ok in *; lia));
    rewrite ?swrap_small, ?wrap_small by (unfold s_ok, u_ok in *; lia); done.
Qed.

(** A value of a type that is no enumerator. *)
Lemma foreign_unit b n u z :
  data_ok n u = true → foreign n !! name u = Some z →
  ∃ v, write_unit b n u = O_ok v ∧ ∀ c, read_unit b v c = O_ok (arrived n u c).
Proof.
  unfold data_ok, write_value, arrived, arrive_unit, tag_of. intros Hd Hf. rewrite Hf in *.
  apply andb_true_iff in Hd as [Hz Hi%bool_decide_eq_true].
  destruct (named_fields (name u) (inr z) Hz) as (Hn & Ht & _).
  eexists. split; [reflexivity|]. intros into. unfold read_value. rewrite Ht. unfold from_grpc_type.
  cbn [to_grpc_type]. by rewrite Hi, Hn.
Qed.

(** A value that holds a container. *)
Lemma nested_unit b n u m g :
  nested_of n u = Some m → to_grpc_recursive access_error b m = O_ok g →
  from_grpc_recursive b g = O_ok (arrives m) →
  ∃ v, write_unit b n u = O_ok v ∧ ∀ c, read_unit b v c = O_ok (arrived n u c).
Proof.
  intros Hn Hto Hfrom. unfold nested_of, tag_of, write_value, arrived, arrive_unit, tag_of in *.
  destruct (foreign n !! name u) as [z|] eqn:Hf; [by destruct (vv (data u))|].
  destruct (named_fields (name u) (inl (type u)) (type_index_fits _)) as (Ek & Et & _).
  destruct u as [k ty [d]]. cbn [type data vv name] in *.
  destruct ty; try done. destruct d as [| | | | | | | | | | | | | |x|]; try done. subst x.
  unfold set_container_data. cbn [vv]. rewrite Hto. eexists. split; [reflexivity|].
  intros into. unfold read_value, from_grpc_type.
  rewrite type_put_container, Et. cbn [to_grpc_type].
  rewrite type_of_index_index, has_container_put, container_put, Hfrom.
  cbn [o_bind]. by rewrite name_put_container, Ek.
Qed.

Lemma null_unit b n u :
  data_ok n u = true → foreign n !! name u = None → type u = container_value → nested_of n u = None →
  ∃ v, write_unit b n u = O_ok v ∧ ∀ c, read_unit b v c = O_ok (arrived n u c).
Proof.
  intros Hd Hf Hty Hn. unfold data_ok, nested_of, write_value, arrived, arrive_unit, tag_of in *.
  rewrite Hf in *.
  destruct (named_fields (name u) (inl container_value) (type_index_fits _)) as (_ & Et & Eh).
  destruct u as [k ty [d]]. cbn [type data vv name] in *.
  subst ty. destruct d as [| | | | | | | | | | | | | |x|]; try done. subst x.
  eexists. split; [reflexivity|]. intros into. unfold read_value, from_grpc_type.
  by rewrite Et, Eh.
Qed.

(** One value, for a bound that its container fits or not. *)
Definition converts (b : nat) (n : gtree) : Prop :=
  if decide (levels n ≤ b)%nat
  then ∃ g, to_grpc_recursive access_error b n = O_ok g ∧
            from_grpc_recursive b g = O_ok (arrives n)
  else to_grpc_recursive access_error b n = O_throw too_deep_to.

Lemma unit_converts b n u :
  (∀ m, nested_of n u = Some m → sendable m = true → converts b m) →
  unit_sendable n u = true →
  if decide (unit_levels n u ≤ b)%nat
  then ∃ v, write_unit b n u = O_ok v ∧ ∀ c, read_unit b v c = O_ok (arrived n u c)
  else write_unit b n u = O_throw too_deep_to.
Proof.
  intros IH Hu. unfold unit_sendable in Hu. apply andb_true_iff in Hu as [Hd Hn].
  unfold unit_levels. destruct (nested_of n u) as [m|] eqn:En.
  - specialize (IH m eq_refl Hn). unfold converts in IH. destruct (decide (levels m ≤ b)%nat).
    + destruct IH as (g & Hto & Hfrom). by apply (nested_unit b n u m g).
    + unfold write_value. unfold nested_of in En.
      destruct (tag_of n u) as [ty|z]; [|by destruct (vv (data u))].
      destruct u as [k ty' [d]]. cbn [data vv name] in *.
      destruct ty; try done. destruct d as [| | | | | | | | | | | | | |x|]; try done. subst x.
      unfold set_container_data. cbn [vv]. by rewrite IH.
  - destruct (decide (0 ≤ b)%nat); [|lia]. destruct (foreign n !! name u) as [z|] eqn:Hf; [by eapply foreign_unit|].
    destruct (decide (type u = container_value)); [by apply null_unit|by apply plain_unit].
Qed.

(** ** The loop over the values *)

Definition write_loop (b : nat) (n : gtree)
    : list (optimized_value gtree) → GrpcContainer → conversion GrpcContainer :=
  o_fold (λ u g, let! v := write_unit b n u in O_ok (add_values v g)).

Lemma loop_converts b n us g :
  (∀ u m, u ∈ us → nested_of n u = Some m → sendable m = true → converts b m) →
  forallb (unit_sendable n) us = true →
  if decide (foldr (λ u m, Nat.max (unit_levels n u) m) O us ≤ b)%nat
  then ∃ vs g', write_loop b n us g = O_ok g' ∧ get_values g' = get_values g ++ vs ∧
         (∀ f, get_header f g' = get_header f g) ∧
         ∀ c, o_fold (read_unit b) vs c
              = O_ok (Node (set_all (omap (arrive_unit arrives n) us) (node c))
                        (carry (foreign n) (omap (arrive_unit arrives n) us) (foreign c)))
  else write_loop b n us g = O_throw too_deep_to.
Proof.
  revert g. induction us as [|u us IH]; intros g Hn Hus.
  - destruct (decide _); [|cbn in *; lia]. exists [], g. rewrite app_nil_r. split_and!; try done.
    by intros [].
  - cbn [forallb] in Hus. apply andb_true_iff in Hus as [Hu Hus].
    pose proof (unit_converts b n u (λ m, Hn u m (list_elem_of_here _ _)) Hu) as Hone.
    assert (∀ u' m, u' ∈ us → nested_of n u' = Some m → sendable m = true → converts b m) as Hn'.
    { intros u' m Hu'. apply Hn. by right. }
    unfold write_loop. cbn [o_fold foldr]. destruct (decide (unit_levels n u ≤ b)%nat).
    + destruct Hone as (v & -> & Hread). cbn [o_bind].
      specialize (IH (add_values v g) Hn' Hus). fold (write_loop b n us).
      destruct (decide (foldr _ _ us ≤ b)%nat) as [Hle|Hle], (decide (Nat.max _ _ ≤ b)%nat); try lia;
        [|done].
      destruct IH as (vs & g' & -> & Hvs & Hh & Hr). exists (v :: vs), g'. split_and!; [done|..].
      * by rewrite Hvs, values_add, <-app_assoc.
      * intros f. by rewrite Hh, header_add.
      * intros c. cbn [o_fold omap list_omap]. rewrite Hread. cbn [o_bind]. rewrite Hr.
        unfold arrived. destruct (arrive_unit arrives n u) as [u'|] eqn:Ea; [|done].
        assert (name u' = name u) as <-; [|done]. revert Ea. unfold arrive_unit.
        destruct (tag_of n u) as [[]|]; try (by intros [= <-]). by destruct (vv (data u)) as [| | | | | | | | | | | | | |[]|]; try done; intros [= <-].
    + rewrite Hone. destruct (decide (Nat.max _ _ ≤ b)%nat); [lia|done].
Qed.

Lemma header_written h f g0 :
  let g := put_header F_source_id (source_id_ h) g0 in
  let g := put_header F_source_sub_id (source_sub_id_ h) g in
  let g := put_header F_target_id (target_id_ h) g in
  let g := put_header F_target_sub_id (target_sub_id_ h) g in
  let g := put_header F_message_type (message_type_ h) g in
  let g := put_header F_version "1.0.0.0" g in
  get_header f g = match f with
                   | F_source_id => source_id_ h | F_source_sub_id => source_sub_id_ h
                   | F_target_id => target_id_ h | F_target_sub_id => target_sub_id_ h
                   | F_message_type => message_type_ h | F_version => "1.0.0.0"
                   end.
Proof.
  cbv zeta. destruct f; rewrite ?header_put; try done;
    repeat (rewrite header_put_other by done; rewrite ?header_put); done.
Qed.

Lemma all_convert b n : sendable n = true → converts b n.
Proof.
  revert n. induction b as [|b IH]; intros n Hs; unfold converts.
  { rewrite levels_node. by destruct (decide _); [lia|]. }
  rewrite sendable_node in Hs. rewrite levels_node. cbn [to_grpc_recursive].
  set (g0 := put_header F_version _ _).
  pose proof (loop_converts b n (optimized_units_ (node n)) g0 (λ _ m _ _, IH m) Hs) as H.
  unfold write_loop in H.
  destruct (decide (foldr _ _ _ ≤ b)%nat), (decide (S _ ≤ S b)%nat); try lia; [|exact H].
  destruct H as (vs & g & E & Hvs & Hh & Hr). exists g. split; [exact E|].
  assert (get_values g0 = []) as E0 by (unfold g0; by rewrite !values_put_header, values_new).
  cbn [from_grpc_recursive]. rewrite !Hh, Hvs, E0. cbn [app].
  unfold g0. rewrite !(header_written (header_ (node n))).
  rewrite (Hr (Node (addressed (header_ (node n))) ∅)). by destruct n.
Qed.

(** C26. A container whose values have the alternative of their type tag is converted
    exactly when it has at most 33 levels of containers, and what is read from the
    message has its ids and its message type, the version 1.0.0.0, and as values what
    [arrive_unit] says, in order, those of one name merged to the last; when the
    names differ nothing is merged.  Type numbers of no enumerator arrive with the
    values that have them.  Deeper containers make the conversion throw. *)
Theorem grpc_roundtrip n :
  sendable n = true →
  if decide (levels n ≤ 33)%nat
  then ∃ g c, to_grpc access_error n = O_ok g ∧ from_grpc g = O_ok c ∧
    header_ (node c) = Header (source_id_ (header_ (node n))) (source_sub_id_ (header_ (node n)))
                  (target_id_ (header_ (node n))) (target_sub_id_ (header_ (node n)))
                  (message_type_ (header_ (node n))) "1.0.0.0" ∧
    let vals := omap (arrive_unit arrives n) (optimized_units_ (node n)) in
    view (node c) = list_to_map (named (rev vals)) ∧
    (NoDup (name <$> vals) → optimized_units_ (node c) = vals) ∧
    ∀ key, foreign c !! key = if decide (key ∈ name <$> vals) then foreign n !! key else None
  else to_grpc access_error n = O_throw too_deep_to.
Proof.
  intros Hs. pose proof (all_convert 33 n Hs) as H. unfold converts in H.
  unfold to_grpc, from_grpc. change (S MAX_NESTING_DEPTH) with 33%nat.
  destruct (decide _); [|done]. destruct H as (g & Hto & Hfrom).
  exists g, (arrives n). split; [done|]. split; [done|].
  destruct n as [c f]. cbn [arrives node foreign].
  assert (∀ vals (c0 : value_container.t gtree), header_ (set_all vals c0) = header_ c0) as Hh.
  { unfold set_all. intros vals. induction vals as [|v vals IH]; intros c0; [done|]. cbn [fold_left].
    rewrite IH. apply set_frame. }
  split; [by rewrite Hh|]. cbv zeta. split_and!.
  - rewrite set_all_view. change (view (addressed (header_ c))) with (∅ : gmap string (optimized_value gtree)).
    apply map_union_empty.
  - intros Hd. by rewrite set_all_units.
  - intros key. by rewrite carry_lookup, lookup_empty.
Qed.

(** ** What is read can be sent *)

(** A value of a container that was read from the values [vs] of a message. *)
Record fits (b : nat) (vs : list GrpcValue) (n : gtree) (u : optimized_value gtree) : Prop := Fits {
  fits_sendable : unit_sendable n u = true;
  fits_levels : (unit_levels n u ≤ b)%nat;
  fits_sent : ∃ v, v ∈ vs ∧ get_name v = name u ∧ get_type v = to_grpc_type (tag_of n u) }.

Definition received (b : nat) (vs : list GrpcValue) (n : gtree) : Prop :=
  distinct (node n) ∧ Forall (fits b vs n) (optimized_units_ (node n)).

Lemma fits_foreign b vs n n' u :
  foreign n' !! name u = foreign n !! name u → fits b vs n u → fits b vs n' u.
Proof.
  intros E. assert (tag_of n' u = tag_of n u) as Ht by (unfold tag_of; by rewrite E).
  intros [H1 H2 H3]. unfold unit_sendable, unit_levels, data_ok, nested_of in *.
  split; unfold unit_sendable, unit_levels, data_ok, nested_of; by rewrite Ht.
Qed.

Lemma fits_tree b vs n : received b vs n → sendable n = true ∧ (levels n ≤ S b)%nat.
Proof.
  intros [_ H]. rewrite sendable_node, levels_node.
  induction H as [|u us [H1 H2 _] _ IH]; [split; [done|cbn; lia]|].
  cbn [forallb foldr]. rewrite H1. destruct IH as [-> IH]. split; [done|lia].
Qed.

Lemma set_unit_elem (c : value_container.t gtree) val u :
  distinct c → u ∈ optimized_units_ (set_unit_impl val c) →
  u = val ∨ u ∈ optimized_units_ c ∧ name u ≠ name val.
Proof.
  intros Hd Hu. pose proof (set_distinct val c Hd) as Hd'. pose proof (set_view val c) as Hv.
  unfold view, distinct in *.
  assert (∀ us : list (optimized_value gtree), (named us).*1 = name <$> us) as Hn.
  { intros us. unfold named. rewrite <-list_fmap_compose. done. }
  assert ((list_to_map (named (optimized_units_ (set_unit_impl val c))) : gmap string _) !! name u = Some u) as E.
  { apply elem_of_list_to_map_1; [by rewrite Hn|]. by apply (list_elem_of_fmap_2 (λ u, (name u, u))). }
  rewrite Hv in E. apply lookup_insert_Some in E as [[_ ->]|[Hne E]]; [by left|]. right. split; [|done].
  apply elem_of_list_to_map_2 in E. unfold named in E. by apply list_elem_of_fmap in E as (w & [= _ ->] & ?).
Qed.

Lemma set_received b vs n val ty :
  received b vs n → fits b vs (set_tagged val ty n) val → received b vs (set_tagged val ty n).
Proof.
  intros [Hd Hf] Hv. split; [by apply set_distinct|]. apply list.Forall_forall.
  intros u [->|[Hu Hne]]%set_unit_elem; [done| |done]. rewrite list.Forall_forall in Hf.
  apply (fits_foreign _ _ n); [|by apply Hf]. unfold set_tagged. cbn [foreign].
  destruct ty; [by rewrite lookup_delete_ne|by rewrite lookup_insert_ne].
Qed.

Lemma tag_set val ty n :
  (∀ t, ty = inl t → type val = t) → tag_of (set_tagged val ty n) val = ty.
Proof.
  unfold tag_of, set_tagged. cbn [foreign]. intros H.
  destruct ty; [rewrite lookup_delete_eq; by rewrite (H _ eq_refl)|by rewrite lookup_insert_eq].
Qed.

Lemma plain_fits b vs v ty n :
  v ∈ vs → get_type v = type_index ty → ty ≠ container_value →
  let u := Optimized (get_name v) ty (get_plain_variant v ty) in fits b vs (set_tagged u (inl ty) n) u.
Proof.
  intros Hv Hty Hne u. assert (tag_of (set_tagged u (inl ty) n) u = inl ty) as Ht
    by (apply tag_set; by intros t [= <-]).
  assert (nested_of (set_tagged u (inl ty) n) u = None) as Hn.
  { unfold nested_of. rewrite Ht. by destruct ty. }
  split; [|unfold unit_levels; rewrite Hn; lia|exists v; by rewrite Ht].
  unfold unit_sendable, data_ok. rewrite Hn, Ht, andb_true_r. unfold u, get_plain_variant. cbn [data vv].
  pose proof (swrap_range 16 (get_val short_val v)). pose proof (wrap_range 16 (get_val ushort_val v)).
  destruct ty; try done;
    first [match goal with |- context [get_val ?f v] => exact (val_ok f v) end
          |unfold s_ok, u_ok; lia].
Qed.

Lemma foreign_fits b vs v z n :
  v ∈ vs → get_type v = z → type_of_index z = None →
  let u := Optimized (get_name v) null_value (Vv V_null) in fits b vs (set_tagged u (inr z) n) u.
Proof.
  intros Hv Hty Hz u. assert (tag_of (set_tagged u (inr z) n) u = inr z) as Ht by (by apply tag_set).
  assert (nested_of (set_tagged u (inr z) n) u = None) as Hn by (unfold nested_of; by rewrite Ht).
  split; [|unfold unit_levels; rewrite Hn; lia|exists v; by rewrite Ht].
  unfold unit_sendable, data_ok. rewrite Hn, Ht, andb_true_r. apply andb_true_iff.
  split; [rewrite <-Hty; apply type_ok|by apply bool_decide_eq_true].
Qed.

Lemma nested_fits b vs v m n :
  v ∈ vs → get_type v = type_index container_value → sendable m = true → (levels m ≤ b)%nat →
  let u := Optimized (get_name v) container_value (Vv (V_container (Some m))) in
  fits b vs (set_tagged u (inl container_value) n) u.
Proof.
  intros Hv Hty Hs Hl u. assert (tag_of (set_tagged u (inl container_value) n) u = inl container_value) as Ht
    by (apply tag_set; by intros t [= <-]).
  assert (nested_of (set_tagged u (inl container_value) n) u = Some m) as Hn by (unfold nested_of; by rewrite Ht).
  split; [|unfold unit_levels; by rewrite Hn|exists v; by rewrite Ht].
  unfold unit_sendable, data_ok. by rewrite Hn, Ht, Hs.
Qed.

(** What the reader of nested messages does: a container that fits, or it throws. *)
Definition reads (b : nat) (r : conversion gtree) : Prop :=
  match r with
  | O_ok n => sendable n = true ∧ (levels n ≤ b)%nat
  | O_throw e => e = too_deep_from
  end.

Lemma read_value_fits b vs v n :
  (∀ g, reads b (from_grpc_recursive b g)) → v ∈ vs → received b vs n →
  match read_unit b v n with O_ok n' => received b vs n' | O_throw e => e = too_deep_from end.
Proof.
  intros Hb Hv Hn. unfold read_value, from_grpc_type.
  destruct (type_of_index (get_type v)) as [ty|] eqn:Et.
  - apply type_of_index_range in Et as [Et%symmetry _]. destruct (decide (ty = container_value)) as [->|Hne].
    + destruct (has_container_val v); [|done]. specialize (Hb (get_container_val v)).
      destruct (from_grpc_recursive b (get_container_val v)) as [m|e]; [|done].
      destruct Hb as [Hs Hl]. apply set_received; [done|]. by apply nested_fits.
    + enough (received b vs (set_tagged (Optimized (get_name v) ty (get_plain_variant v ty)) (inl ty) n))
        by (by destruct ty).
      apply set_received; [done|]. by apply plain_fits.
  - apply set_received; [done|]. by apply foreign_fits.
Qed.

Lemma read_loop_fits b vs0 vs n :
  (∀ g, reads b (from_grpc_recursive b g)) → (∀ v, v ∈ vs → v ∈ vs0) → received b vs0 n →
  match o_fold (read_unit b) vs n with O_ok n' => received b vs0 n' | O_throw e => e = too_deep_from end.
Proof.
  intros Hb. revert n. induction vs as [|v vs IH]; intros n Hvs Hn; [done|]. cbn [o_fold].
  pose proof (read_value_fits b vs0 v n Hb (Hvs v (list_elem_of_here _ _)) Hn) as H.
  destruct (read_unit b v n) as [n'|e]; [|done]. apply IH; [|done]. intros w Hw. apply Hvs. by right.
Qed.

Lemma start_received b vs c : optimized_units_ c = [] → received b vs (Node c ∅).
Proof. intros E. unfold received, distinct. cbn [node]. rewrite E. split; constructor. Qed.

Lemma read_received b g :
  (∀ g, reads b (from_grpc_recursive b g)) →
  match from_grpc_recursive (S b) g with
  | O_ok n => received b (get_values g) n
  | O_throw e => e = too_deep_from
  end.
Proof. intros Hb. cbn [from_grpc_recursive]. apply read_loop_fits; [done|done|by apply start_received]. Qed.

Lemma read_fits b g : reads b (from_grpc_recursive b g).
Proof.
  revert g. induction b as [|b IH]; intros g; [done|]. pose proof (read_received b g IH) as H.
  unfold reads. destruct (from_grpc_recursive (S b) g) as [n|e]; [by apply fits_tree in H|done].
Qed.

(** The name and the type number of what is written. *)
Lemma write_named b n u v :
  unit_sendable n u = true → write_unit b n u = O_ok v →
  get_name v = name u ∧ get_type v = to_grpc_type (tag_of n u).
Proof.
  intros Hu. assert (s_ok 32 (to_grpc_type (tag_of n u)) = true) as Hfit.
  { apply andb_true_iff in Hu as [Hd _]. unfold data_ok in Hd.
    destruct (tag_of n u) as [ty|z]; [apply type_index_fits|]. by apply andb_true_iff in Hd as [? _]. }
  destruct (named_fields (name u) _ Hfit) as (Hn & Ht & _). unfold write_value.
  destruct (tag_of n u) as [ty|z]; [|by intros [= <-]].
  assert (∀ f x, get_name (put_val f x (named_value (name u) (inl ty))) = name u ∧
    get_type (put_val f x (named_value (name u) (inl ty))) = to_grpc_type (inl ty)) as Hput
    by (intros f x; by rewrite name_put_val, type_put_val).
  unfold set_container_data, set_plain_data.
  destruct ty, (vv (data u)) as [| | | | | | | | | | | | | |[m|]|]; try discriminate; try (intros [= <-]; auto; fail).
  destruct (to_grpc_recursive access_error b m) as [g|]; [|done]. cbn [o_bind]. intros [= <-].
  by rewrite name_put_container, type_put_container.
Qed.

Lemma write_loop_named b n us g g' :
  forallb (unit_sendable n) us = true → write_loop b n us g = O_ok g' →
  (λ v, (get_name v, get_type v)) <$> get_values g' =
  ((λ v, (get_name v, get_type v)) <$> get_values g) ++ ((λ u, (name u, to_grpc_type (tag_of n u))) <$> us).
Proof.
  revert g. induction us as [|u us IH]; intros g Hus H.
  - injection H as <-. by rewrite app_nil_r.
  - cbn [forallb] in Hus. apply andb_true_iff in Hus as [Hu Hus]. unfold write_loop in H. cbn [o_fold] in H.
    destruct (write_unit b n u) as [v|] eqn:E; [|done]. cbn [o_bind] in H. fold (write_loop b n us) in H.
    apply IH in H; [|done]. apply write_named in E as [En Et]; [|done].
    rewrite H, values_add, fmap_app, <-app_assoc. cbn. by rewrite En, Et.
Qed.

Lemma to_grpc_loop b n :
  ∃ g0, get_values g0 = [] ∧
    to_grpc_recursive access_error (S b) n = write_loop b n (optimized_units_ (node n)) g0.
Proof. eexists. split; [|reflexivity]. by rewrite !values_put_header, values_new. Qed.

(** C27. Whatever a message holds, reading it throws because it is too deep or gives
    a container with values of their types and at most 33 levels.  That is converted
    back, to a message whose values have names and type numbers the message had, those
    that are no enumerator included. *)
Theorem received_is_sendable g :
  match from_grpc g with
  | O_throw e => e = too_deep_from
  | O_ok c =>
      sendable c = true ∧ (levels c ≤ 33)%nat ∧
      ∃ g', to_grpc access_error c = O_ok g' ∧
        ((λ v, (get_name v, get_type v)) <$> get_values g') =
        ((λ u, (name u, to_grpc_type (tag_of c u))) <$> optimized_units_ (node c)) ∧
        ∀ v', v' ∈ get_values g' →
          ∃ v, v ∈ get_values g ∧ get_name v = get_name v' ∧ get_type v = get_type v'
  end.
Proof.
  pose proof (read_received 32 g (read_fits 32)) as H. unfold from_grpc.
  change (S MAX_NESTING_DEPTH) with 33%nat. destruct (from_grpc_recursive 33 g) as [c|e]; [|done].
  destruct (fits_tree 32 _ c H) as [Hs Hl]. split; [done|]. split; [lia|].
  pose proof (all_convert 33 c Hs) as Hc. unfold converts in Hc.
  destruct (decide _); [|lia]. destruct Hc as (g' & Hto & _). exists g'. split; [exact Hto|].
  assert ((λ v, (get_name v, get_type v)) <$> get_values g' =
    ((λ u, (name u, to_grpc_type (tag_of c u))) <$> optimized_units_ (node c))) as Hg.
  { destruct (to_grpc_loop 32 c) as (g0 & H0 & E). rewrite E in Hto. rewrite sendable_node in Hs.
    apply write_loop_named in Hto; [|done]. by rewrite Hto, H0. }
  split; [exact Hg|]. intros v' Hv'.
  apply (list_elem_of_fmap_2 (λ v, (get_name v, get_type v))) in Hv'. rewrite Hg in Hv'.
  apply list_elem_of_fmap in Hv' as (u & [= -> ->] & Hu). destruct H as [_ Hf].
  rewrite list.Forall_forall in Hf. by destruct (Hf u Hu) as [_ _ ?].
Qed.

(** Containers in which every type is an enumerator. *)
Fixpoint enumerated (n : gtree) : bool :=
  let 'Node c f := n in
  bool_decide (f = ∅) &&
  forallb (λ u, match vv (data u) with V_container (Some n) => enumerated n | _ => true end)
    (optimized_units_ c).

(** The validation of containers accepts all of them, those that [to_grpc] refuses
    too. *)
Theorem can_convert_unless_foreign n : enumerated n = true → can_convert n = true.
Proof.
  cut (∀ b n, (levels n ≤ b)%nat → enumerated n = true → can_convert n = true); [intros H; by apply (H (levels n))|].
  clear n. intros b. induction b as [|b IH]; intros n Hl He; rewrite levels_node in Hl; [lia|].
  destruct n as [c f]. cbn [can_convert enumerated node] in *.
  apply andb_true_iff in He as [->%bool_decide_eq_true He].
  apply forallb_forall. intros u Hu. rewrite forallb_forall in He. specialize (He u Hu).
  apply list_elem_of_In in Hu. rewrite lookup_empty.
  assert (unit_levels (Node c ∅) u ≤ b)%nat as Hb.
  { clear -Hl Hu. induction (optimized_units_ c) as [|v us IH]; [by apply not_elem_of_nil in Hu|].
    cbn [foldr] in Hl. apply elem_of_cons in Hu as [->|Hu]; [lia|]. apply IH; [lia|done]. }
  unfold unit_levels, nested_of, tag_of in Hb. cbn [foreign] in Hb. rewrite lookup_empty in Hb.
  destruct (type u); try done. cbn. destruct (vv (data u)) as [| | | | | | | | | | | | | |[n|]|]; try done.
  by apply IH.
Qed.
End Facts.

(** ** The hypotheses about the messages can hold *)

#[export] Instance scalar_field_eq_dec : EqDecision scalar_field.
Proof. solve_decision. Defined.

(** Messages as trees: what is set of the oneof, if anything. *)
Inductive oneof (C : Type) : Type :=
| One_none
| One_scalar (f : scalar_field) (x : payload f)
| One_container (c : C).
Arguments One_none {C}.
Arguments One_scalar {C} _ _.
Arguments One_container {C} _.

Record pvalue (C : Type) : Type := PValue { pv_name : string; pv_type : Z; pv_one : oneof C }.
Arguments PValue {C} _ _ _.
Arguments pv_name {C} _.
Arguments pv_type {C} _.
Arguments pv_one {C} _.

Inductive pcontainer : Type := PContainer (header : header_field → string) (vs : list (pvalue pcontainer)).

Definition default_payload (f : scalar_field) : payload f :=
  match f with
  | null_flag | bool_val => false
  | string_val => EmptyString
  | bytes_val => []
  | _ => 0
  end.

Definition read_payload (f : scalar_field) (o : oneof pcontainer) : payload f :=
  match o with
  | One_scalar f' x =>
      match decide (f' = f) with
      | left e => let y := eq_rect f' payload x f e in
                  if payload_ok f y then y else default_payload f
      | right _ => default_payload f
      end
  | _ => default_payload f
  end.

Fixpoint pnesting (c : pcontainer) : nat :=
  let 'PContainer _ vs := c in
  S (foldr (λ v m, Nat.max (match pv_one v with One_container c => pnesting c | _ => O end) m) O vs).

Definition tree_protobuf : protobuf := {|
  GrpcValue := pvalue pcontainer;
  GrpcContainer := pcontainer;
  new_value := PValue "" 0 One_none;
  get_name := pv_name;
  put_name s v := PValue s (pv_type v) (pv_one v);
  get_type v := if s_ok 32 (pv_type v) then pv_type v else 0;
  put_type t v := PValue (pv_name v) t (pv_one v);
  get_val f v := read_payload f (pv_one v);
  put_val f x v := PValue (pv_name v) (pv_type v) (One_scalar f x);
  has_container_val v := match pv_one v with One_container _ => true | _ => false end;
  get_container_val v := match pv_one v with One_container c => c | _ => PContainer (λ _, EmptyString) [] end;
  put_container_val c v := PValue (pv_name v) (pv_type v) (One_container c);
  new_container := PContainer (λ _, EmptyString) [];
  get_header f '(PContainer h _) := h f;
  put_header f s '(PContainer h vs) := PContainer (λ g, if decide (f = g) then s else h g) vs;
  get_values '(PContainer _ vs) := vs;
  add_values v '(PContainer h vs) := PContainer h (vs ++ [v]) |}.

Lemma read_payload_ok f o : payload_ok f (read_payload f o) = true.
Proof.
  unfold read_payload.
  assert (payload_ok f (default_payload f) = true) as Hd by (destruct f; vm_compute; reflexivity).
  destruct o as [|f' x|c]; try done. destruct (decide (f' = f)) as [e|]; [|done]. cbv zeta.
  destruct (payload_ok f (eq_rect f' payload x f e)) eqn:E; [exact E|exact Hd].
Qed.

Definition tree_laws : ProtobufLaws tree_protobuf.
Proof.
  refine {| nesting := pnesting : @GrpcContainer tree_protobuf → nat |}; try done.
  - intros t v Ht. cbn. by rewrite Ht.
  - intros f x v Hx. cbn. destruct (decide (f = f)) as [e|]; [|done].
    rewrite (proof_irrel e eq_refl). cbn [eq_rect]. by rewrite Hx.
  - intros v. cbn. by destruct (s_ok 32 (pv_type v)) eqn:E.
  - intros f v. apply read_payload_ok.
  - intros f s [h vs]. cbn. by rewrite decide_True.
  - intros f g s [h vs] Hne. cbn. by rewrite decide_False by congruence.
  - by intros f v [h vs].
  - by intros f s [h vs].
  - by intros v [h vs].
  - intros v [h vs] Hv Hc. cbn in *. destruct v as [k ty [| |c]]; try done. cbn in *. clear Hc.
    induction vs as [|w vs IH]; [by apply not_elem_of_nil in Hv|].
    apply elem_of_cons in Hv as [<-|Hv]; cbn; [lia|]. specialize (IH Hv). lia.
Qed.

(** A container with a nested one, an array, a null pointer, two values of one name and
    a value of a type that is no enumerator. *)
Definition boxed : gtree := Node (set "x" (Vv (V_bool true)) new) ∅.
Definition sent_sample : gtree :=
  Node (with_units
    [Optimized "n" short_value (Vv (V_short (-2)));
     Optimized "in" container_value (Vv (V_container (Some boxed)));
     Optimized "list" array_value (Vv (V_array (Some [Vv (V_int 1)])));
     Optimized "gone" container_value (Vv (V_container None));
     Optimized "odd" null_value (Vv V_null);
     Optimized "n" string_value (Vv (V_string "last"))]
    (set_message_type "order" (set_target "t" "1" new))) {["odd"%string := 77]}.

Lemma grpc_roundtrip_witness :
  ∃ g c, @to_grpc tree_protobuf "" sent_sample = O_ok g ∧ @from_grpc tree_protobuf g = O_ok c ∧
    header_ (node c) = Header "" "" "t" "1" "order" "1.0.0.0" ∧
    get "n" (node c) = Some (Optimized "n" string_value (Vv (V_string "last"))) ∧
    get "list" (node c) = Some (Optimized "list" array_value (Vv V_null)) ∧ get "gone" (node c) = None ∧
    get "in" (node c) = Some (Optimized "in" container_value (Vv (V_container (Some (arrives boxed))))) ∧
    foreign c !! "odd"%string = Some 77.
Proof.
  pose proof (@grpc_roundtrip tree_protobuf tree_laws "" sent_sample eq_refl) as H.
  destruct (decide (levels sent_sample ≤ 33)%nat) as [_|Hn]; [|destruct Hn; vm_compute; lia].
  destruct H as (g & c & Hto & Hfrom & Hh & Hv & _ & Hf). exists g, c.
  split; [exact Hto|]. split; [exact Hfrom|]. split; [exact Hh|].
  assert (∀ key, get key (node c) = (view (node c) : gmap string (optimized_value gtree)) !! key) as E
    by (intros key; apply find_unit_view).
  rewrite !E, Hv, Hf. vm_compute. repeat split.
Defined.

(** A number under the tag of a string, two levels, and a type that is no enumerator. *)
Definition odd_message : @GrpcContainer tree_protobuf :=
  PContainer (λ _, "h"%string)
    [PValue "a" 12 (One_scalar int_val 5);
     PValue "z" (-7) (One_scalar int_val 5);
     PValue "b" 14 (One_container (PContainer (λ _, EmptyString) [PValue "c" 2 (One_scalar short_val 70000)]))].

Lemma received_is_sendable_witness :
  ∃ c g', @from_grpc tree_protobuf odd_message = O_ok c ∧ sendable c = true ∧
          @to_grpc tree_protobuf "" c = O_ok g' ∧
          get "a" (node c) = Some (Optimized "a" string_value (Vv (V_string ""))) ∧
          ((λ v, (@get_name tree_protobuf v, @get_type tree_protobuf v)) <$> @get_values tree_protobuf g')
          = [("a"%string, 12); ("z"%string, -7); ("b"%string, 14)].
Proof.
  pose proof (@received_is_sendable tree_protobuf tree_laws "" odd_message) as H.
  destruct (@from_grpc tree_protobuf odd_message) as [c|] eqn:E;
    [|exfalso; revert E; vm_compute; discriminate].
  destruct H as (Hs & _ & g' & Hg' & Hn & _).
  exists c, g'. split; [reflexivity|]. split; [exact Hs|]. split; [exact Hg'|].
  rewrite Hn. revert E. vm_compute. intros [= <-]. split; reflexivity.
Defined.
