(* ===== verification/GrpcService.v ===== *)
(** * The gRPC service, its server and its client

    [grpc/server/service_impl.{h,cpp}], [grpc/server/grpc_server.{h,cpp}] and
    [grpc/client/grpc_client.{h,cpp}] over the adapter of GrpcAdapter.v.

    A call of the service is one function; the mutex around the processor and the atomic
    counters make concurrent calls equivalent to some order of them as far as the
    counters go.  [W] is the state the processor, a client callback or the network
    have.  The processor's exceptions are texts; what it returns is a
    pointer, and a null pointer is dereferenced ([R_undef]).  The network is a
    parameter ([transport]): a stub with one function per procedure. *)

#[local] Set Warnings "-register-all".
From S2P Require Import Prelude Types Container GrpcAdapter.
Import value_container container_adapter.

Inductive run (A : Type) : Type :=
| R_done (a : A)
| R_undef.
Arguments R_done {A} _.
Arguments R_undef {A}.

Definition run_bind {A B} (f : A → run B) (r : run A) : run B :=
  match r with R_done a => f a | R_undef => R_undef end.

Notation "'let*' x ':=' r 'in' k" := (run_bind (λ x, k) r)
  (at level 10, x pattern, r at level 100, k at level 200) : cs_scope.

(** ** The messages around containers *)

Inductive status : Type := OK | INTERNAL (error_message : string).

Record SendContainerResponse (G : Type) : Type := SendResponse {
  send_success : bool; send_error_message : string; send_result : option G }.
Arguments SendResponse {G} _ _ _.
Arguments send_success {G} _.
Arguments send_error_message {G} _.
Arguments send_result {G} _.

Record BatchContainerResponse (G : Type) : Type := BatchResponse {
  batch_success : bool; batch_error_message : string; batch_results : list G;
  batch_processed_count : Z; batch_failed_count : Z }.
Arguments BatchResponse {G} _ _ _ _ _.
Arguments batch_success {G} _.
Arguments batch_error_message {G} _.
Arguments batch_results {G} _.
Arguments batch_processed_count {G} _.
Arguments batch_failed_count {G} _.

Record StreamStatus : Type := Status {
  connected : bool; messages_sent : Z; messages_received : Z; status_client_id : string }.

Definition metadata : Type := list (string * string).

(** ** container_service_impl *)

Module service.
Section Service.
Context {P : protobuf} (access_error : string) {W : Type}.
Abbreviation container := gtree.

Definition container_processor : Type := W → container → W * (option container + string).

Record t : Type := Service {
  processor_ : option container_processor;
  request_count_ : Z; error_count_ : Z; messages_sent_ : Z; messages_received_ : Z }.

Definition create : t := Service None 0 0 0 0.

Definition set_processor (processor : option container_processor) (s : t) : t :=
  Service processor (request_count_ s) (error_count_ s) (messages_sent_ s) (messages_received_ s).
Definition request_count (s : t) : Z := request_count_ s.
Definition error_count (s : t) : Z := error_count_ s.

(** The atomic increments. *)
Definition add_request (s : t) : t :=
  Service (processor_ s) (wrap 64 (request_count_ s + 1)) (error_count_ s) (messages_sent_ s)
    (messages_received_ s).
Definition add_errors (n : Z) (s : t) : t :=
  Service (processor_ s) (request_count_ s) (wrap 64 (error_count_ s + n)) (messages_sent_ s)
    (messages_received_ s).
Definition add_sent (s : t) : t :=
  Service (processor_ s) (request_count_ s) (error_count_ s) (swrap 64 (messages_sent_ s + 1))
    (messages_received_ s).
Definition add_received (s : t) : t :=
  Service (processor_ s) (request_count_ s) (error_count_ s) (messages_sent_ s)
    (swrap 64 (messages_received_ s + 1)).

(** Conversion, the processor if there is one, conversion back; an exception of
    any of the three is a text. *)
Definition exchange (s : t) (w : W) (g : GrpcContainer) : run (W * (GrpcContainer + string)) :=
  match from_grpc g with
  | O_throw e => R_done (w, inr e)
  | O_ok native_container =>
      let '(w, r) := match processor_ s with
                     | Some processor => processor w native_container
                     | None => (w, inl (Some native_container))
                     end in
      match r with
      | inr e => R_done (w, inr e)
      | inl None => R_undef
      | inl (Some native_container) =>
          match to_grpc access_error native_container with
          | O_throw e => R_done (w, inr e)
          | O_ok g => R_done (w, inl g)
          end
      end
  end.

Definition missing_container : string := "Request missing container".

Definition SendContainer (request : option GrpcContainer) (s : t) (w : W)
    : run (t * W * status * SendContainerResponse GrpcContainer) :=
  let s := add_received (add_request s) in
  match request with
  | None => R_done (add_errors 1 s, w, OK, SendResponse false missing_container None)
  | Some container =>
      let* (w, r) := exchange s w container in
      R_done match r with
             | inl g => (add_sent s, w, OK, SendResponse true "" (Some g))
             | inr e => (add_errors 1 s, w, OK, SendResponse false e None)
             end
  end.

(** The response of a call that failed is not used. *)
Definition ProcessContainer (request : GrpcContainer) (s : t) (w : W)
    : run (t * W * status * GrpcContainer) :=
  let s := add_received (add_request s) in
  let* (w, r) := exchange s w request in
  R_done match r with
         | inl g => (add_sent s, w, OK, g)
         | inr e => (add_errors 1 s, w, INTERNAL e, new_container)
         end.

(** What is written to the stream; the result of [Write] is not looked at. *)
Definition StreamContainers (request : option GrpcContainer) (s : t) (w : W)
    : run (t * W * status * list GrpcContainer) :=
  let s := add_received (add_request s) in
  match request with
  | None => R_done (s, w, OK, [])
  | Some container =>
      let* (w, r) := exchange s w container in
      R_done match r with
             | inl g => (add_sent s, w, OK, [g])
             | inr e => (add_errors 1 s, w, INTERNAL e, [])
             end
  end.

Fixpoint collect_loop (input : list GrpcContainer) (results : list GrpcContainer)
    (processed_count failed_count : Z) (s : t) (w : W)
    : run (t * W * (list GrpcContainer * Z * Z)) :=
  match input with
  | [] => R_done (s, w, (results, processed_count, failed_count))
  | g :: input =>
      let s := add_received s in
      let* (w, r) := exchange s w g in
      match r with
      | inl g => collect_loop input (results ++ [g]) (processed_count + 1) failed_count s w
      | inr _ => collect_loop input results processed_count (failed_count + 1) s w
      end
  end.

Definition failed_message (failed_count : Z) : string :=
  String.append "Failed to process " (String.append (to_string failed_count) " containers").

Definition CollectContainers (input : list GrpcContainer) (s : t) (w : W)
    : run (t * W * status * BatchContainerResponse GrpcContainer) :=
  let* (s, w, (results, processed_count, failed_count)) :=
    collect_loop input [] 0 0 (add_request s) w in
  R_done (if 0 <? failed_count then
            (add_errors failed_count s, w, OK,
             BatchResponse false (failed_message failed_count) results processed_count failed_count)
          else (s, w, OK, BatchResponse true "" results processed_count failed_count)).

(** A message that fails is counted and skipped. *)
Fixpoint process_loop (input output : list GrpcContainer) (s : t) (w : W)
    : run (t * W * list GrpcContainer) :=
  match input with
  | [] => R_done (s, w, output)
  | g :: input =>
      let s := add_received s in
      let* (w, r) := exchange s w g in
      match r with
      | inl g => process_loop input (output ++ [g]) (add_sent s) w
      | inr _ => process_loop input output (add_errors 1 s) w
      end
  end.

Definition ProcessStream (input : list GrpcContainer) (s : t) (w : W)
    : run (t * W * status * list GrpcContainer) :=
  let* (s, w, output) := process_loop input [] (add_request s) w in
  R_done (s, w, OK, output).

(** The metadata of a call may hold a key several times; the first is taken. *)
Definition GetStreamStatus (client_metadata : metadata) (s : t) : t * status * StreamStatus :=
  let s := add_request s in
  (s, OK, Status true (messages_sent_ s) (messages_received_ s)
    (default ""%string
      (list_find (λ kv : string * string, kv.1 = "client-id"%string) client_metadata
        ≫= λ r, Some r.2.2))).
End Service.
Arguments t {_}.
End service.

(** ** grpc_server *)

Module grpc_server.
Section Server.
Context {W : Type}.

Record server_config : Type := Config {
  address_ : string; max_receive_message_size : Z; max_send_message_size : Z;
  num_completion_queues : Z; enable_reflection : bool }.

Definition of_address (address : string) : server_config :=
  Config address (64 * 1024 * 1024) (64 * 1024 * 1024) 1 false.

(** [has_server] is whether [server_] is not null. *)
Record t : Type := Server {
  config_ : server_config; service_ : service.t (W:=W); has_server : bool; running_ : bool }.

Definition create (config : server_config) : t := Server config service.create false false.

(** [built] is whether [BuildAndStart] gave a server. *)
Definition start (built : bool) (s : t) : t * bool :=
  if running_ s then (s, false)
  else if built then (Server (config_ s) (service_ s) true true, true)
  else (Server (config_ s) (service_ s) false (running_ s), false).

(** What is asked of the library: a shutdown, with a deadline or at once. *)
Inductive shutdown : Type := Shutdown (deadline_ms : option Z).

Definition stop (deadline_ms : Z) (s : t) : t * list shutdown :=
  if negb (running_ s) then (s, [])
  else (Server (config_ s) (service_ s) false false,
        if has_server s then [Shutdown (if 0 <? deadline_ms then Some deadline_ms else None)] else []).

Definition destroy (s : t) : t * list shutdown := stop 0 s.

(** Whether [wait] blocks until the server is shut down. *)
Definition wait (s : t) : bool := has_server s.
Definition is_running (s : t) : bool := running_ s.
Definition address (s : t) : string := address_ (config_ s).
Definition set_processor (p : option service.container_processor) (s : t) : t :=
  Server (config_ s) (service.set_processor p (service_ s)) (has_server s) (running_ s).
Definition request_count (s : t) : Z := service.request_count (service_ s).
Definition error_count (s : t) : Z := service.error_count (service_ s).
End Server.
Arguments t _ : clear implicits.
End grpc_server.

(** ** grpc_client *)

(** The stub: what a call with a deadline and metadata does to the network and
    answers.  A status that is not OK comes with its message. *)
Class transport {P : protobuf} (W : Type) : Type := Transport {
  call_send : Z → metadata → GrpcContainer → W → run (W * (SendContainerResponse GrpcContainer + string));
  call_process : Z → metadata → GrpcContainer → W → run (W * (GrpcContainer + string));
  call_stream : Z → metadata → GrpcContainer → W → run (W * (list GrpcContainer * option string));
  batch_write : GrpcContainer → W → W * bool;
  batch_finish : Z → metadata → W → run (W * (BatchContainerResponse GrpcContainer + string));
  call_status : Z → metadata → W → run (W * (StreamStatus + string)) }.

Module grpc_client.
Section Client.
Context {P : protobuf} (access_error : string) {W : Type} {T : transport W}.
Abbreviation container := gtree.

Record client_config : Type := Config {
  target_address : string; config_timeout : Z; max_retries : Z; use_ssl : bool; client_id : string }.

Definition of_target (target : string) : client_config := Config target 30000 3 false "".

Record t : Type := Client { config_ : client_config; timeout_ : Z }.

Definition create (config : client_config) : t := Client config (config_timeout config).

(** The state of the channel; the first two count as connected. *)
Inductive channel_state : Type :=
| CHANNEL_READY | CHANNEL_IDLE | CHANNEL_CONNECTING | CHANNEL_TRANSIENT_FAILURE | CHANNEL_SHUTDOWN.
Definition is_connected (channel : option channel_state) : bool :=
  match channel with Some (CHANNEL_READY | CHANNEL_IDLE) => true | _ => false end.

Definition target (c : t) : string := target_address (config_ c).
Definition set_timeout (timeout : Z) (c : t) : t := Client (config_ c) timeout.
Definition timeout (c : t) : Z := timeout_ c.

(** [set_context_options] at time [now]. *)
Definition set_context_options (c : t) (now : Z) : Z * metadata :=
  (now + timeout_ c,
   if bool_decide (client_id (config_ c) = ""%string) then []
   else [("client-id"%string, client_id (config_ c))]).

Record client_result (A : Type) : Type := Result {
  success : bool; error_message : string; result_value : A }.
Arguments Result {A} _ _ _.
Arguments success {A} _.
Arguments error_message {A} _.
Arguments result_value {A} _.

Definition null_container : string := "Container is null".

Definition failed {A} (e : string) (nothing : A) : client_result A := Result false e nothing.

(** The pointer of the result; a failed call leaves it null. *)
Definition convert_answer (g : GrpcContainer) : run (client_result (option container)) :=
  match from_grpc g with
  | O_ok c => R_done (Result true "" (Some c))
  | O_throw e => R_done (failed e None)
  end.

Definition send (ptr : option container) (now : Z) (c : t) (w : W)
    : run (W * client_result (option container)) :=
  match ptr with
  | None => R_done (w, failed null_container None)
  | Some n =>
      match to_grpc access_error n with
      | O_throw e => R_done (w, failed e None)
      | O_ok request =>
          let '(deadline, md) := set_context_options c now in
          let* (w, r) := call_send deadline md request w in
          match r with
          | inr e => R_done (w, failed e None)
          | inl response =>
              if negb (send_success response) then
                R_done (w, failed (send_error_message response) None)
              else
                let* r := convert_answer (default new_container (send_result response)) in
                R_done (w, r)
          end
      end
  end.

Definition process (ptr : option container) (now : Z) (c : t) (w : W)
    : run (W * client_result (option container)) :=
  match ptr with
  | None => R_done (w, failed null_container None)
  | Some n =>
      match to_grpc access_error n with
      | O_throw e => R_done (w, failed e None)
      | O_ok request =>
          let '(deadline, md) := set_context_options c now in
          let* (w, r) := call_process deadline md request w in
          match r with
          | inr e => R_done (w, failed e None)
          | inl response => let* r := convert_answer response in R_done (w, r)
          end
      end
  end.

(** The messages of a stream go to the callback until one cannot be converted. *)
Fixpoint stream_loop (callback : container → W → W) (input : list GrpcContainer) (w : W)
    : run (W * bool) :=
  match input with
  | [] => R_done (w, true)
  | g :: input =>
      match from_grpc g with
      | O_ok c => stream_loop callback input (callback c w)
      | O_throw _ => R_done (w, false)
      end
  end.

Definition stream (request : option container) (callback : option (container → W → W)) (now : Z)
    (c : t) (w : W) : run (W * bool) :=
  match request, callback with
  | Some n, Some callback =>
      match to_grpc access_error n with
      | O_throw _ => R_done (w, false)
      | O_ok g =>
          let '(deadline, md) := set_context_options c now in
          let* (w, (input, error)) := call_stream deadline md g w in
          let* (w, finished) := stream_loop callback input w in
          R_done (w, finished && match error with None => true | Some _ => false end)
      end
  | _, _ => R_done (w, false)
  end.

(** Null pointers are left out, and a failed write ends the loop; [None] on the right
    is an exception. *)
Fixpoint write_loop (containers : list (option container)) (w : W) : run (W * option string) :=
  match containers with
  | [] => R_done (w, None)
  | None :: containers => write_loop containers w
  | Some n :: containers =>
      match to_grpc access_error n with
      | O_throw e => R_done (w, Some e)
      | O_ok g =>
          let '(w, written) := batch_write g w in
          if written : bool then write_loop containers w else R_done (w, None)
      end
  end.

Fixpoint convert_results (results : list GrpcContainer) (value : list container)
    : run (client_result (list container)) :=
  match results with
  | [] => R_done (Result true "" value)
  | g :: results =>
      match from_grpc g with
      | O_ok c => convert_results results (value ++ [c])
      | O_throw e => R_done (failed e value)
      end
  end.

Definition send_batch (containers : list (option container)) (now : Z) (c : t) (w : W)
    : run (W * client_result (list container)) :=
  let '(deadline, md) := set_context_options c now in
  let* (w, thrown) := write_loop containers w in
  match thrown with
  | Some e => R_done (w, failed e [])
  | None =>
      let* (w, r) := batch_finish deadline md w in
      match r with
      | inr e => R_done (w, failed e [])
      | inl response =>
          if negb (batch_success response) then R_done (w, failed (batch_error_message response) [])
          else let* r := convert_results (batch_results response) [] in R_done (w, r)
      end
  end.

(** The id of the client is added a second time. *)
Definition get_status (now : Z) (c : t) (w : W) : run (W * option (Z * Z)) :=
  let '(deadline, md) := set_context_options c now in
  let md := if bool_decide (client_id (config_ c) = ""%string) then md
            else md ++ [("client-id"%string, client_id (config_ c))] in
  let* (w, r) := call_status deadline md w in
  R_done (w, match r with
             | inl response => Some (messages_sent response, messages_received response)
             | inr _ => None
             end).

Definition ping (now : Z) (c : t) (w : W) : run (W * bool) :=
  let* (w, r) := get_status now c w in
  R_done (w, match r with Some _ => true | None => false end).
End Client.
Arguments Result {A} _ _ _.
Arguments success {A} _.
Arguments error_message {A} _.
Arguments result_value {A} _.
End grpc_client.
