(* ===== verification/GrpcServiceFacts.v ===== *)
(** * The service and its client

    - [service_accounting]: what the four counters say after any sequence of calls;
    - [client_echo]: a client and a service without a processor, joined by a network
      that loses nothing;
    - [batch_counts], [null_processor_undefined], [server_lifecycle]. *)

#[local] Set Warnings "-register-all".
From S2P Require Import Prelude Types Container ContainerFacts.
From S2P Require Import GrpcAdapter GrpcAdapterFacts GrpcService.
Import value_container container_adapter service.
#[local] Arguments from_grpc : simpl never.
#[local] Arguments to_grpc : simpl never.

Section Facts.
Context {P : protobuf} (access_error : string) {W : Type}.
Abbreviation service := (service.t (W:=W)).

(** ** Sequences of calls *)




Definition size {A} (l : list A) : Z := Z.of_nat (length l).



(** ** Counters *)

(** The four counters stand for these numbers. *)
Definition counts (s : service) (r e o i : Z) : Prop :=
  request_count_ s = wrap 64 r ∧ error_count_ s = wrap 64 e ∧
  messages_sent_ s = swrap 64 o ∧ messages_received_ s = swrap 64 i.

Lemma counts_request s r e o i : counts s r e o i → counts (add_request s) (r + 1) e o i.
Proof. intros (Hr & He & Ho & Hi). split_and!; cbn; try done. by rewrite Hr, wrap_add. Qed.
Lemma counts_errors n s r e o i : counts s r e o i → counts (add_errors n s) r (e + n) o i.
Proof. intros (Hr & He & Ho & Hi). split_and!; cbn; try done. by rewrite He, wrap_add. Qed.
Lemma counts_sent s r e o i : counts s r e o i → counts (add_sent s) r e (o + 1) i.
Proof. intros (Hr & He & Ho & Hi). split_and!; cbn; try done. by rewrite Ho, swrap_add. Qed.
Lemma counts_received s r e o i : counts s r e o i → counts (add_received s) r e o (i + 1).
Proof. intros (Hr & He & Ho & Hi). split_and!; cbn; try done. by rewrite Hi, swrap_add. Qed.

Create HintDb counts.
Hint Resolve counts_request counts_errors counts_sent counts_received : counts.


Lemma run_done {A B} (f : A → run B) r b : run_bind f r = R_done b → ∃ a, r = R_done a ∧ f a = R_done b.
Proof. destruct r as [a|]; try done. by exists a. Qed.


Lemma collect_lengths input results p f (s s' : service) (w w' : W) results' p' f' :
  collect_loop access_error input results p f s w = R_done (s', w', (results', p', f')) →
  size results' - size results = p' - p ∧ p' - p + (f' - f) = size input ∧ f ≤ f'.
Proof.
  revert results p f s w. induction input as [|g input IH]; intros results p f s w H.
  - injection H as <- <- <- <- <-. unfold size. cbn. lia.
  - cbn [collect_loop] in H. apply run_done in H as ([w1 [g'|er]] & _ & H);
      apply IH in H as (H1 & H2 & H3); unfold size in *; rewrite ?length_app in *; cbn [length] in *; lia.
Qed.




(** Every message of a batch is either answered, in order, or counted as failed. *)
Theorem batch_counts input (s s' : service) (w w' : W) st r :
  CollectContainers access_error input s w = R_done (s', w', st, r) →
  st = OK ∧ size (batch_results r) = batch_processed_count r ∧
  batch_processed_count r + batch_failed_count r = size input ∧
  (batch_success r = true ↔ batch_failed_count r = 0).
Proof.
  unfold CollectContainers. intros H. apply run_done in H as ([[s2 w2] [[rs p] f]] & Hl & H).
  apply collect_lengths in Hl as (H1 & H2 & H3). unfold size in *. cbn [length] in *.
  destruct (Z.ltb_spec 0 f); injection H as <- <- <- <-; cbn; (split_and!; [done|lia|lia|]);
    (split; [try done|]); lia.
Qed.

(** A processor that returns the null pointer makes every procedure that is
    given a readable container undefined. *)
Theorem null_processor_undefined f g c s (w : W) :
  from_grpc g = O_ok c → processor_ s = Some f → (f w c).2 = inl None →
  SendContainer access_error (Some g) s w = R_undef ∧
  ProcessContainer access_error g s w = R_undef ∧
  StreamContainers access_error (Some g) s w = R_undef ∧
  CollectContainers access_error [g] s w = R_undef ∧
  ProcessStream access_error [g] s w = R_undef.
Proof.
  intros Hg Hp Hf.
  assert (∀ s', processor_ s' = Some f → exchange access_error s' w g = R_undef) as E.
  { intros s' Hs. unfold exchange. rewrite Hg, Hs. destruct (f w c) as [w1 r]. cbn in Hf. by subst r. }
  unfold SendContainer, ProcessContainer, StreamContainers, CollectContainers, ProcessStream.
  cbn [collect_loop process_loop]. rewrite !E by done. by split_and!.
Qed.
End Facts.

(** ** A network that delivers everything at once *)

Section Network.
Context {P : protobuf} {L : ProtobufLaws P} (access_error : string) {W : Type}.
Abbreviation container := gtree.

(** The service, the messages of a batch that is being written, and the world. *)
Record net : Type := Net {
  net_service : service.t (W:=W); net_batch : list GrpcContainer; net_world : W }.

Definition delivered {A B} (answer : A → B) (n : net) (r : run (service.t (W:=W) * W * status * A))
    : run (net * (B + string)) :=
  let* (s, w, st, a) := r in
  R_done (Net s (net_batch n) w, match st with OK => inl (answer a) | INTERNAL e => inr e end).

Definition direct : transport net := {|
  call_send _ _ g n :=
    delivered id n (SendContainer access_error (Some g) (net_service n) (net_world n));
  call_process _ _ g n :=
    delivered id n (ProcessContainer access_error g (net_service n) (net_world n));
  call_stream _ _ g n :=
    let* (s, w, st, output) := StreamContainers access_error (Some g) (net_service n) (net_world n) in
    R_done (Net s (net_batch n) w, (output, match st with OK => None | INTERNAL e => Some e end));
  batch_write g n := (Net (net_service n) (net_batch n ++ [g]) (net_world n), true);
  batch_finish _ _ n :=
    delivered id (Net (net_service n) [] (net_world n))
      (CollectContainers access_error (net_batch n) (net_service n) (net_world n));
  call_status _ md n :=
    let '(s, st, a) := GetStreamStatus md (net_service n) in
    R_done (Net s (net_batch n) (net_world n),
      match st with OK => inl a | INTERNAL e => inr e end) |}.

(** What comes back of a container: it is converted twice. *)
Definition back (c : container) : container := arrives (arrives c).

Definition travels (c : container) : Prop :=
  sendable c = true ∧ (levels c ≤ 33)%nat.

(** The message of a container, what the service makes of it, and what is read from
    that. *)
Lemma there_and_back c :
  travels c →
  ∃ g g', to_grpc access_error c = O_ok g ∧ from_grpc g' = O_ok (back c) ∧
    ∀ (s : service.t (W:=W)) w, processor_ s = None →
      exchange access_error s w g = R_done (w, inl g').
Proof.
  intros [Hs Hl]. pose proof (all_convert access_error 33 c Hs) as H. unfold converts in H.
  destruct (decide _) as [_|]; [|done]. destruct H as (g & Hto & Hfrom).
  pose proof (read_fits 33 g) as Hr. rewrite Hfrom in Hr. destruct Hr as [Hs1 Hl1].
  pose proof (all_convert access_error 33 _ Hs1) as H. unfold converts in H.
  destruct (decide _) as [_|]; [|lia]. destruct H as (g' & Hto' & Hfrom').
  exists g, g'. split; [exact Hto|]. split.
  - unfold from_grpc, back. change (S MAX_NESTING_DEPTH) with 33%nat. by rewrite Hfrom'.
  - intros s w Hp. unfold exchange, from_grpc. change (S MAX_NESTING_DEPTH) with 33%nat.
    rewrite Hfrom, Hp. unfold to_grpc. change (S MAX_NESTING_DEPTH) with 33%nat. by rewrite Hto'.
Qed.

Lemma too_deep c :
  sendable c = true → ¬ (levels c ≤ 33)%nat →
  to_grpc access_error c = O_throw too_deep_to.
Proof.
  intros Hs Hl. pose proof (all_convert access_error 33 c Hs) as H. unfold converts in H.
  by destruct (decide _).
Qed.

Import grpc_client.

(** C29. A client and a service without a processor: a container of at most 33 levels
    comes back, converted twice, from [send], [process] and [stream], with one more
    request, one more message received and one more sent; a deeper one is refused
    by the client, and the service is not called. *)
Theorem client_echo c now cl n (callback : container → net → net) :
  sendable c = true → processor_ (net_service n) = None →
  let after := Net (add_sent (add_received (add_request (net_service n)))) (net_batch n) (net_world n) in
  if decide (levels c ≤ 33)%nat
  then send access_error (T:=direct) (Some c) now cl n = R_done (after, Result true "" (Some (back c))) ∧
       process access_error (T:=direct) (Some c) now cl n
         = R_done (after, Result true "" (Some (back c))) ∧
       stream access_error (T:=direct) (Some c) (Some callback) now cl n
         = R_done (callback (back c) after, true)
  else send access_error (T:=direct) (Some c) now cl n = R_done (n, failed too_deep_to None) ∧
       process access_error (T:=direct) (Some c) now cl n = R_done (n, failed too_deep_to None) ∧
       stream access_error (T:=direct) (Some c) (Some callback) now cl n = R_done (n, false).
Proof.
  intros Hs Hp after. destruct (decide (levels c ≤ 33)%nat) as [Hl|Hl].
  - destruct (there_and_back c (conj Hs Hl)) as (g & g' & Hto & Hfrom & Hx).
    generalize dependent (back c). intros b Hfrom.
    unfold send, process, stream, set_context_options. rewrite Hto. cbn.
    unfold delivered, SendContainer, ProcessContainer, StreamContainers.
    rewrite !Hx by done. cbn. unfold convert_answer. rewrite Hfrom. by split_and!.
  - unfold send, process, stream. rewrite (too_deep c Hs Hl). by split_and!.
Qed.

(** A batch: what the client writes, and what the service answers. *)
Lemma written cs n :
  Forall travels cs →
  ∃ gs gs', write_loop access_error (T:=direct) (Some <$> cs) n
      = R_done (Net (net_service n) (net_batch n ++ gs) (net_world n), None) ∧
    (∀ value, convert_results gs' value = R_done (Result true "" (value ++ (back <$> cs)))) ∧
    ∀ (s : service.t (W:=W)) w results p, processor_ s = None → ∃ s',
      collect_loop access_error gs results p 0 s w
      = R_done (s', w, (results ++ gs', p + size gs, 0)).
Proof.
  intros H. revert n. induction H as [|c cs Hc _ IH]; intros n.
  - exists [], []. cbn. rewrite app_nil_r. split; [by destruct n|]. split.
    + intros value. by rewrite app_nil_r.
    + intros s w results p Hp. exists s. by rewrite app_nil_r, Z.add_0_r.
  - destruct (there_and_back c Hc) as (g & g' & Hto & Hfrom & Hx).
    destruct (IH (Net (net_service n) (net_batch n ++ [g]) (net_world n))) as (gs & gs' & Hw & Hv & Hl).
    exists (g :: gs), (g' :: gs'). split_and!.
    + cbn [fmap list_fmap write_loop]. rewrite Hto. cbn [batch_write direct]. rewrite Hw. cbn.
      by rewrite <-app_assoc.
    + intros value. cbn [convert_results]. rewrite Hfrom, Hv. cbn. by rewrite <-app_assoc.
    + intros s w results p Hp. cbn [collect_loop]. rewrite Hx by done. cbn [run_bind].
      destruct (Hl (add_received s) w (results ++ [g']) (p + 1)) as (s' & ->); [done|].
      exists s'. rewrite <-app_assoc. unfold size. cbn [length app].
      replace (p + Z.of_nat (S (length gs))) with (p + 1 + Z.of_nat (length gs)) by lia. done.
Qed.

(** A batch of containers that can be sent comes back whole and in order. *)
Theorem client_batch cs now cl n :
  Forall travels cs → processor_ (net_service n) = None → net_batch n = [] →
  ∃ n', send_batch access_error (T:=direct) (Some <$> cs) now cl n
        = R_done (n', Result true "" (back <$> cs)).
Proof.
  intros Hcs Hp Hb. unfold send_batch, set_context_options.
  destruct (written cs n Hcs) as (gs & gs' & Hw & Hv & Hl). rewrite Hw. cbn. rewrite Hb. cbn [app].
  unfold delivered, CollectContainers.
  destruct (Hl (add_request (net_service n)) (net_world n) [] 0) as (s' & ->); [done|]. cbn.
  eexists. by rewrite Hv.
Qed.
End Network.

(** ** The server *)

Section Server.
Context {W : Type}.
Import grpc_server.

Inductive control : Type := K_start (built : bool) | K_stop (deadline_ms : Z).

(** The state, how many servers were started and how many shut down. *)
Fixpoint drive (cs : list control) (s : grpc_server.t W) (started stopped : nat)
    : grpc_server.t W * nat * nat :=
  match cs with
  | [] => (s, started, stopped)
  | K_start built :: cs =>
      let '(s, ok) := start built s in drive cs s (if ok : bool then S started else started) stopped
  | K_stop d :: cs =>
      let '(s, calls) := stop d s in drive cs s started (stopped + length calls)%nat
  end.

(** Whatever is called in which order: the server is running exactly when there is one,
    at most one runs, and after the destructor each that was started has been shut
    down once. *)
Theorem server_lifecycle config cs :
  let '(s, started, stopped) := drive cs (create config) 0 0 in
  has_server s = is_running s ∧
  started = (stopped + if is_running s then 1 else 0)%nat ∧
  started = (stopped + length (destroy s).2)%nat ∧ is_running (destroy s).1 = false.
Proof.
  cut (∀ s0 a b, has_server s0 = running_ s0 → a = (b + if running_ s0 then 1 else 0)%nat →
       let '(s, a', b') := drive cs s0 a b in
       has_server s = running_ s ∧ a' = (b' + if running_ s then 1 else 0)%nat).
  { intros H. specialize (H (create config) 0%nat 0%nat eq_refl eq_refl).
    destruct (drive cs (create config) 0 0) as [[s a] b]. destruct H as [H1 H2].
    unfold is_running, destroy, stop. rewrite H1. destruct (running_ s) eqn:E; cbn; rewrite ?E; by split_and!. }
  induction cs as [|[built|d] cs IH]; intros s0 a b H1 H2; [done|..]; cbn [drive].
  - unfold start. destruct (running_ s0) eqn:E; [by apply IH; rewrite ?E|].
    destruct built; apply IH; cbn; rewrite ?E; lia || done.
  - unfold stop. rewrite H1. destruct (running_ s0) eqn:E; cbn [negb].
    + apply IH; cbn; lia || done.
    + apply IH; cbn; rewrite ?E; lia || done.
Qed.
End Server.

(** ** Concrete calls *)

(** A processor that refuses a container without values. *)
Definition picky : container_processor (W:=unit) :=
  λ w c, (w, if bool_decide (optimized_units_ (node c) = []) then inr "empty"%string else inl (Some c)).

Definition some_message : @GrpcContainer tree_protobuf :=
  PContainer (λ _, EmptyString) [PValue "n" 4 (One_scalar int_val 5)].



Lemma batch_counts_witness :
  ∃ s w st r, CollectContainers (P:=tree_protobuf) "" [some_message; PContainer (λ _, EmptyString) []]
      (set_processor (Some picky) create) tt = R_done (s, w, st, r) ∧
    st = OK ∧ size (batch_results r) = batch_processed_count r ∧
    batch_processed_count r + batch_failed_count r = 2.
Proof.
  destruct (CollectContainers (P:=tree_protobuf) "" [some_message; PContainer (λ _, EmptyString) []]
      (set_processor (Some picky) create) tt) as [[[[s w] st] r]|] eqn:E;
    [|exfalso; revert E; vm_compute; discriminate].
  destruct (batch_counts (P:=tree_protobuf) "" _ _ _ _ _ _ _ E) as (H1 & H2 & H3 & _).
  exists s, w, st, r. split; [reflexivity|]. split_and!; [exact H1|exact H2|exact H3].
Defined.

Lemma null_processor_undefined_witness :
  SendContainer (P:=tree_protobuf) "" (Some some_message)
    (set_processor (Some (λ w _, (w, inl None))) create) tt = R_undef.
Proof.
  destruct (from_grpc (P:=tree_protobuf) some_message) as [c|] eqn:E;
    [|exfalso; revert E; vm_compute; discriminate].
  apply (null_processor_undefined (P:=tree_protobuf) "" (λ w _, (w, inl None)) some_message c);
    [exact E|reflexivity|reflexivity].
Defined.

Definition empty_net : @net tree_protobuf unit := Net create [] tt.
Definition some_client : grpc_client.t := grpc_client.create (grpc_client.of_target "localhost:50051").

Lemma client_echo_witness :
  ∃ n, grpc_client.send (P:=tree_protobuf) "" (T:=direct (P:=tree_protobuf) "")
         (Some sent_sample) 0 some_client empty_net
       = R_done (n, grpc_client.Result true "" (Some (back sent_sample))).
Proof.
  pose proof (client_echo (P:=tree_protobuf) (L:=tree_laws) "" sent_sample 0 some_client empty_net
    (λ _ n, n) eq_refl eq_refl) as H.
  destruct (decide (levels sent_sample ≤ 33)%nat) as [_|Hn]; [|destruct Hn; vm_compute; lia].
  destruct H as (H & _). eexists. exact H.
Defined.

Lemma client_batch_witness :
  ∃ n, grpc_client.send_batch (P:=tree_protobuf) "" (T:=direct (P:=tree_protobuf) "")
         (Some <$> [sent_sample; Node new ∅]) 0 some_client empty_net
       = R_done (n, grpc_client.Result true "" [back sent_sample; back (Node new ∅)]).
Proof.
  apply (client_batch (P:=tree_protobuf) (L:=tree_laws) "" [sent_sample; Node new ∅] 0 some_client empty_net);
    [|reflexivity..].
  constructor; [split; [reflexivity|vm_compute; lia]|].
  constructor; [split; [reflexivity|vm_compute; lia]|constructor].
Defined.
