(* ===== verification/SchemaFacts.v ===== *)
(** * Facts about container_schema

    What a schema means is stated by the predicate [conforms] on the numbers,
    strings and sizes a container has, without errors and without an order of the
    checks.  [validate] accepts what conforms, and three things more: those are
    [conforms true] and [overlooked].  Every error names a field of the schema,
    or a path into a nested schema. *)

#[local] Set Warnings "-register-all".
From S2P Require Import Prelude Float Types ErrorCodes Validation Container ContainerMsgpack Decimal FloatArith Schema.
Import container_schema.

Section SchemaFacts.
Context {C R : Type}.
Context (compile : string → option R).
Context (regex_match : R → string → option bool).
Context (deref : C → value_container.t C).

Abbreviation schema := (t C R).
Abbreviation field := (field_def C R (t C R)).
Abbreviation error := validation_error.t.
Implicit Types (f : field) (s : schema) (v : optimized_value C) (errors : list error).
Implicit Types (c : value_container.t C).

(** ** What the checks look at *)

(** The seven checks on a value, the nested one apart. *)
Record passes f v : Prop := {
  pass_type : Types.type v = type f;
  pass_int min max z : min_int f = Some min → max_int f = Some max → int_value_of v = Some z →
    min ≤ z ≤ max;
  pass_double min max z : min_double f = Some min → max_double f = Some max →
    double_value_of v = Some z → f_ltb f64 z min = false ∧ f_ltb f64 max z = false;
  pass_length min max n : min_length f = Some min → max_length f = Some max →
    length_of v = Some n → min ≤ n ≤ max;
  pass_pattern re str : compiled_pattern f = Some re → string_of v = Some str →
    regex_match re str = Some true;
  pass_allowed allowed str : allowed_values f = Some allowed → string_of v = Some str →
    str ∈ allowed;
  pass_custom validator : validator ∈ custom_validators f → validator v = Some None }.

Inductive accepts : schema → value_container.t C → Prop :=
| Accepts s c :
    (∀ f, f ∈ fields_ s → value_container.get (name f) c = None → required f = false) →
    (∀ f v, f ∈ fields_ s → value_container.get (name f) c = Some v → passes f v) →
    (∀ f v sub, f ∈ fields_ s → value_container.get (name f) c = Some v →
       nested_schema f = Some sub → Types.type v = container_value →
       ∃ n, vv (data v) = V_container (Some n) ∧ accepts sub (deref n)) →
    accepts s c.

(** The paths an error may name. *)
Inductive located : schema → string → Prop :=
| Located_here s f : f ∈ fields_ s → located s (name f)
| Located_nested s f sub path : f ∈ fields_ s → nested_schema f = Some sub → located sub path →
    located s (name f ++ "." ++ path).

Definition schema_code (e : error) : Prop := 310 ≤ validation_error.code e ≤ 317.

(** Induction on a schema and the schemas nested in it. *)
Lemma schema_nested_ind (P : schema → Prop) :
  (∀ fs, Forall (λ f, match nested_schema f with Some s => P s | None => True end) fs →
     P (Schema fs)) →
  ∀ s, P s.
Proof.
  intros H. fix IH 1. intros [fs]. apply H.
  induction fs as [|[? ? ? ? ? ? ? ? ? ? ? ? [s|] ?] fs IHfs]; constructor; simpl; auto.
Qed.

(** ** Checks that append *)

(** [check] appends [new], and passes when there is nothing to append. *)
Definition appends (check : list error → list error * bool) (new : list error) : Prop :=
  ∀ errors, check errors = (errors ++ new, bool_decide (new = [])).

Lemma appends_pass (check : list error → list error * bool) :
  (∀ errors, check errors = (errors, true)) → appends check [].
Proof. intros H errors. by rewrite H, app_nil_r. Qed.

Lemma appends_one (check : list error → list error * bool) e :
  (∀ errors, check errors = (push_back e errors, false)) → appends check [e].
Proof. intros H errors. by rewrite H. Qed.

(** A check of field [f]: what it appends is empty exactly when [ok] holds, and
    names [f]. *)
Definition check_spec (check : list error → list error * bool) f (ok : Prop) : Prop :=
  ∃ new, appends check new ∧ (new = [] ↔ ok) ∧
    Forall (λ e, validation_error.field e = name f ∧ schema_code e) new.

Lemma spec_pass check f (ok : Prop) :
  (∀ errors, check errors = (errors, true)) → ok → check_spec check f ok.
Proof. intros Hc Hok. exists []. split_and!; [by apply appends_pass|done|done]. Qed.

Lemma spec_fail check f e (ok : Prop) :
  (∀ errors, check errors = (push_back e errors, false)) → ¬ ok →
  validation_error.field e = name f → schema_code e → check_spec check f ok.
Proof.
  intros Hc Hok ??. exists [e]. split_and!; [by apply appends_one|done|].
  constructor; [done|constructor].
Qed.

Ltac spec_code := unfold schema_code; simpl; vm_compute; split; discriminate.

Lemma validate_type_spec f v : check_spec (validate_type f v) f (Types.type v = type f).
Proof.
  unfold validate_type. case_bool_decide; simpl; [by apply spec_pass|].
  eapply spec_fail; [done..|spec_code].
Qed.

Lemma range_error_spec ltb show f val min max :
  match range_error ltb show f val min max with
  | None => ∀ lo hi z, min = Some lo → max = Some hi → val = Some z →
              ltb z lo = false ∧ ltb hi z = false
  | Some e => validation_error.field e = name f ∧ schema_code e ∧
      ∃ lo hi z, min = Some lo ∧ max = Some hi ∧ val = Some z ∧ (ltb z lo = true ∨ ltb hi z = true)
  end.
Proof.
  unfold range_error. destruct min as [lo|], max as [hi|], val as [z|]; try (intros; by simplify_eq).
  destruct (ltb z lo || ltb hi z) eqn:E.
  - split_and!; [done|spec_code|]. exists lo, hi, z. split_and!; auto. by apply orb_prop in E.
  - apply orb_false_elim in E as [??]. intros. by simplify_eq.
Qed.

Lemma validate_range_spec f v :
  check_spec (validate_range f v) f
    ((∀ min max z, min_int f = Some min → max_int f = Some max → int_value_of v = Some z →
        min ≤ z ≤ max) ∧
     (∀ min max z, min_double f = Some min → max_double f = Some max →
        double_value_of v = Some z → f_ltb f64 z min = false ∧ f_ltb f64 max z = false)).
Proof.
  unfold validate_range.
  pose proof (range_error_spec Z.ltb to_string f (int_value_of v) (min_int f) (max_int f)) as Hi.
  pose proof (range_error_spec (f_ltb f64) to_string_f64 f (double_value_of v)
                (min_double f) (max_double f)) as Hd.
  destruct (range_error Z.ltb _ _ _ _ _) as [e|].
  { destruct Hi as (? & ? & lo & hi & z & E1 & E2 & E3 & Hlt).
    eapply spec_fail; [done| |done..]. intros [Hok _]. specialize (Hok lo hi z E1 E2 E3). lia. }
  destruct (range_error (f_ltb f64) _ _ _ _ _) as [e|].
  { destruct Hd as (? & ? & lo & hi & z & E1 & E2 & E3 & Hlt).
    eapply spec_fail; [done| |done..]. intros [_ Hok].
    destruct (Hok lo hi z E1 E2 E3) as [H1 H2]. destruct Hlt; congruence. }
  apply spec_pass; [done|]. split; [|done].
  intros lo hi z E1 E2 E3. destruct (Hi lo hi z E1 E2 E3). lia.
Qed.

Lemma validate_length_spec f v :
  check_spec (validate_length f v) f
    (∀ min max n, min_length f = Some min → max_length f = Some max → length_of v = Some n →
       min ≤ n ≤ max).
Proof.
  unfold validate_length.
  destruct (min_length f) as [lo|], (max_length f) as [hi|], (length_of v) as [n|];
    try (apply spec_pass; [done|intros; by simplify_eq]).
  destruct ((n <? lo) || (hi <? n)) eqn:E.
  - eapply spec_fail; [done| |done|spec_code]. intros Hok.
    specialize (Hok lo hi n eq_refl eq_refl eq_refl). lia.
  - apply spec_pass; [done|]. intros. simplify_eq. lia.
Qed.

Lemma validate_pattern_spec f v :
  check_spec (validate_pattern regex_match f v) f
    (∀ re str, compiled_pattern f = Some re → string_of v = Some str →
       regex_match re str = Some true).
Proof.
  unfold validate_pattern.
  destruct (compiled_pattern f) as [re|], (string_of v) as [str|];
    try (apply spec_pass; [done|intros; by simplify_eq]).
  destruct (regex_match re str) as [[]|] eqn:E.
  - apply spec_pass; [done|]. intros. by simplify_eq.
  - eapply spec_fail; [done| |done|spec_code]. intros Hok. specialize (Hok _ _ eq_refl eq_refl). congruence.
  - eapply spec_fail; [done| |done|spec_code]. intros Hok. specialize (Hok _ _ eq_refl eq_refl). congruence.
Qed.

Lemma validate_allowed_spec f v :
  check_spec (validate_allowed f v) f
    (∀ allowed str, allowed_values f = Some allowed → string_of v = Some str → str ∈ allowed).
Proof.
  unfold validate_allowed.
  destruct (allowed_values f) as [l|], (string_of v) as [str|];
    try (apply spec_pass; [done|intros; by simplify_eq]).
  case_bool_decide as E.
  - apply spec_pass; [done|]. intros. by simplify_eq.
  - eapply spec_fail; [done| |done|spec_code]. intros Hok. by apply E, Hok.
Qed.

Lemma run_validators_spec f validators v :
  check_spec (run_validators (name f) validators v) f
    (∀ validator, validator ∈ validators → validator v = Some None).
Proof.
  induction validators as [|g gs (new & Ha & Hn & Hl)]; simpl.
  - apply spec_pass; [done|]. by intros ? ?%not_elem_of_nil.
  - destruct (g v) as [[reason|]|] eqn:E.
    + eapply spec_fail; [done| |done|spec_code]. intros Hok.
      specialize (Hok g (list_elem_of_here _ _)). congruence.
    + exists new. split_and!; [done| |done]. rewrite Hn. split.
      * intros Hok g' [->|?]%elem_of_cons; auto.
      * intros Hok g' ?. apply Hok. by apply list_elem_of_further.
    + eapply spec_fail; [done| |done|spec_code]. intros Hok.
      specialize (Hok g (list_elem_of_here _ _)). congruence.
Qed.

(** What the nested check appends, and what it needs of the nested schema. *)
Definition nested_ok (ok : schema → value_container.t C → Prop) f v : Prop :=
  ∀ sub, nested_schema f = Some sub → Types.type v = container_value →
    ∃ n, vv (data v) = V_container (Some n) ∧ ok sub (deref n).

Definition nested_located f (e : error) : Prop :=
  schema_code e ∧ (validation_error.field e = name f ∨
    ∃ sub path, nested_schema f = Some sub ∧ located sub path ∧
      validation_error.field e = (name f ++ "." ++ path)%string).

(** What a nested schema's [validate_all] has to satisfy. *)
Definition rec_spec (rec : schema → value_container.t C → list error)
    (ok : schema → value_container.t C → Prop) (sub : schema) : Prop :=
  ∀ c, (rec sub c = [] ↔ ok sub c) ∧
    Forall (λ e, located sub (validation_error.field e) ∧ schema_code e) (rec sub c).

Lemma nested_failed_located f es : nested_located f (validation_error.nested_failed (name f) es).
Proof. split; [spec_code|by left]. Qed.

Lemma prefixed_located f sub es :
  nested_schema f = Some sub →
  Forall (λ e, located sub (validation_error.field e) ∧ schema_code e) es →
  Forall (nested_located f) (validation_error.prefixed (name f) <$> es).
Proof.
  intros Es Hl. apply list.Forall_fmap. eapply list.Forall_impl; [exact Hl|].
  intros e [Hp Hc]. split; [done|]. right. by exists sub, (validation_error.field e).
Qed.

Lemma validate_nested_spec rec ok f v :
  (∀ sub, nested_schema f = Some sub → rec_spec rec ok sub) →
  ∃ new, appends (validate_nested deref rec f v) new ∧ (new = [] ↔ nested_ok ok f v) ∧
    Forall (nested_located f) new.
Proof.
  intros Hrec. unfold validate_nested, nested_ok.
  destruct (nested_schema f) as [sub|] eqn:Es;
    [|exists []; split_and!; [by apply appends_pass|done|done]].
  destruct (decide (Types.type v = container_value)) as [Et|Et].
  2: { exists []. split_and!; [|split; [intros _ ? _ E; by destruct Et|done]|done].
       apply appends_pass. intros errors. by destruct (Types.type v). }
  rewrite Et. destruct (vv (data v)) as [| | | | | | | | | | | | | |[n|]|] eqn:Ev.
  15: { destruct (Hrec sub eq_refl (deref n)) as [Hok Hl].
    destruct (rec sub (deref n)) as [|e es] eqn:Er.
    - exists []. split_and!; [by apply appends_pass| |done]. split; [|done].
      intros _ ? [= <-] _. exists n. split; [done|]. by apply Hok.
    - eexists (validation_error.nested_failed (name f) (e :: es) :: _). split_and!.
      + intros errors. unfold push_back. by rewrite <-app_assoc.
      + split; [done|]. intros Hall. destruct (Hall sub eq_refl eq_refl) as (n' & [= <-] & Hn').
        by apply Hok in Hn'.
      + constructor; [apply nested_failed_located|by eapply prefixed_located]. }
  all: exists [validation_error.nested_failed (name f) []];
    split_and!; [by apply appends_one| |constructor; [apply nested_failed_located|constructor]];
    (split; [done|]); intros Hall; by destruct (Hall sub eq_refl eq_refl) as (? & ? & _).
Qed.

(** ** One field *)

Lemma appends_seq (a b : list error → list error * bool) na nb :
  appends a na → appends b nb →
  appends (λ errors, let (errors, v1) := a errors in let (errors, v2) := b errors in
             (errors, v1 && v2)) (na ++ nb).
Proof.
  intros Ha Hb errors. rewrite (Ha errors), (Hb (errors ++ na)), <-app_assoc. f_equal.
  by destruct na.
Qed.

Lemma spec_located f (check : list error → list error * bool) ok :
  check_spec check f ok → ∃ new, appends check new ∧ (new = [] ↔ ok) ∧ Forall (nested_located f) new.
Proof.
  intros (new & Ha & Hn & Hl). exists new. split_and!; [done..|].
  eapply list.Forall_impl; [exact Hl|]. intros e [??]. split; [done|by left].
Qed.

(** The errors of a field are those of its seven checks, in their order. *)
Lemma validate_field_spec rec ok f v :
  (∀ sub, nested_schema f = Some sub → rec_spec rec ok sub) →
  ∃ new, (∀ errors, (validate_field regex_match deref rec f v errors).1 = errors ++ new) ∧
    (new = [] ↔ passes f v ∧ nested_ok ok f v) ∧ Forall (nested_located f) new.
Proof.
  intros Hrec.
  destruct (spec_located _ _ _ (validate_type_spec f v)) as (n1 & A1 & E1 & L1).
  destruct (spec_located _ _ _ (validate_range_spec f v)) as (n2 & A2 & E2 & L2).
  destruct (spec_located _ _ _ (validate_length_spec f v)) as (n3 & A3 & E3 & L3).
  destruct (spec_located _ _ _ (validate_pattern_spec f v)) as (n4 & A4 & E4 & L4).
  destruct (spec_located _ _ _ (validate_allowed_spec f v)) as (n5 & A5 & E5 & L5).
  destruct (spec_located _ _ _ (run_validators_spec f (custom_validators f) v)) as (n6 & A6 & E6 & L6).
  destruct (validate_nested_spec rec ok f v Hrec) as (n7 & A7 & E7 & L7).
  exists (n1 ++ n2 ++ n3 ++ n4 ++ n5 ++ n6 ++ n7). split_and!.
  - intros errors. unfold validate_field, validate_custom.
    rewrite A1, A2, A3, A4, A5, A6, A7. cbn [fst]. by rewrite <-!app_assoc.
  - rewrite !app_nil, E1, E2, E3, E4, E5, E6, E7. split.
    + intros (? & [? ?] & ? & ? & ? & ? & ?). split; [by constructor|done].
    + intros [[] ?]. done.
  - repeat (apply Forall_app; split); done.
Qed.

(** ** The whole schema *)

Lemma validate_all_loop fs c :
  validate_all regex_match deref (Schema fs) c =
  fold_left (λ errors f, check_field regex_match deref (validate_all regex_match deref) c f errors) fs [].
Proof.
  cbn [validate_all fields_]. generalize (@nil error). 
  induction fs as [|f fs IH]; intros errors; simpl; [done|]. apply IH.
Qed.

Lemma check_field_spec rec ok c f :
  (∀ sub, nested_schema f = Some sub → rec_spec rec ok sub) →
  ∃ new, (∀ errors, check_field regex_match deref rec c f errors = errors ++ new) ∧
    (new = [] ↔ match value_container.get (name f) c with
                | None => required f = false
                | Some v => passes f v ∧ nested_ok ok f v
                end) ∧ Forall (nested_located f) new.
Proof.
  intros Hrec. unfold check_field. destruct (value_container.get (name f) c) as [v|].
  - by apply validate_field_spec.
  - destruct (required f).
    + exists [validation_error.missing_required (name f)]. split_and!; [done|done|].
      constructor; [split; [spec_code|by left]|constructor].
    + exists []. split_and!; [|done|done]. intros. by rewrite app_nil_r.
Qed.

Lemma fields_spec rec ok c (fs : list field) :
  Forall (λ f, ∀ sub, nested_schema f = Some sub → rec_spec rec ok sub) fs →
  ∃ new, (∀ errors, fold_left (λ errors f, check_field regex_match deref rec c f errors) fs errors
                    = errors ++ new) ∧
    (new = [] ↔ Forall (λ f, match value_container.get (name f) c with
                             | None => required f = false
                             | Some v => passes f v ∧ nested_ok ok f v
                             end) fs) ∧
    Forall (λ e, ∃ f, f ∈ fs ∧ nested_located f e) new.
Proof.
  induction 1 as [|f fs Hf _ (new & Ha & Hn & Hl)].
  - exists []. split_and!; [intros; by rewrite app_nil_r|by split|done].
  - destruct (check_field_spec rec ok c f Hf) as (n1 & A1 & E1 & L1). exists (n1 ++ new). split_and!.
    + intros errors. simpl. by rewrite A1, Ha, <-app_assoc.
    + by rewrite app_nil, E1, Hn, list.Forall_cons.
    + apply Forall_app; split.
      * eapply list.Forall_impl; [exact L1|]. intros e He. exists f. by split; [left|].
      * eapply list.Forall_impl; [exact Hl|]. intros e (f' & ? & ?). exists f'. by split; [right|].
Qed.

Lemma accepts_fields fs c :
  accepts (Schema fs) c ↔
  Forall (λ f, match value_container.get (name f) c with
               | None => required f = false
               | Some v => passes f v ∧ nested_ok accepts f v
               end) fs.
Proof.
  rewrite list.Forall_forall. split.
  - inversion 1 as [? ? H1 H2 H3]; subst. intros f Hf.
    destruct (value_container.get (name f) c) as [v|] eqn:E; [|eauto].
    split; [eauto|]. intros sub ??. by eapply H3.
  - intros H. constructor; cbn [fields_].
    + intros f Hf E. specialize (H f Hf). by rewrite E in H.
    + intros f v Hf E. specialize (H f Hf). rewrite E in H. by destruct H.
    + intros f v sub Hf E Hs Ht. specialize (H f Hf). rewrite E in H. destruct H as [_ H].
      by apply H.
Qed.

Lemma validate_all_spec s : rec_spec (validate_all regex_match deref) accepts s.
Proof.
  induction s as [fs IH] using schema_nested_ind. intros c.
  destruct (fields_spec (validate_all regex_match deref) accepts c fs) as (new & Ha & Hn & Hl).
  { eapply list.Forall_impl; [exact IH|]. intros f H sub Es. cbv beta in H. by rewrite Es in H. }
  rewrite validate_all_loop, Ha. simpl. split; [by rewrite accepts_fields|].
  eapply list.Forall_impl; [exact Hl|]. intros e (f & Hf & Hc & Hp). split; [|done].
  destruct Hp as [-> | (sub & path & ? & ? & ->)].
  - by apply (Located_here (Schema fs)).
  - by eapply (Located_nested (Schema fs)).
Qed.
End SchemaFacts.

(** ** What a schema means *)

Section Meaning.
Context {C R : Type}.
Context (compile : string → option R).
Context (regex_match : R → string → option bool).
Context (deref : C → value_container.t C).

Abbreviation schema := (t C R).
Abbreviation field := (field_def C R (t C R)).
Abbreviation data_of v := (vv (data v)).
Implicit Types (f : field) (s : schema) (v : optimized_value C) (d : variant (option C) (option (list (value_variant C)))).
Implicit Types (c : value_container.t C).

(** The data of a value; what is of another alternative than the type says is none. *)
Definition content v := if bool_decide (index_type (data v) = Types.type v) then Some (data_of v) else None.

Definition integer_of d : option Z :=
  match d with
  | V_short z | V_ushort z | V_int z | V_uint z | V_long z | V_ulong z | V_llong z | V_ullong z => Some z
  | _ => None
  end.
Definition number_of d : option real :=
  match d with V_float z => Some (real_of f32 z) | V_double z => Some (real_of f64 z) | _ => None end.
Definition size_of d : option Z :=
  match d with
  | V_string str => Some (Z.of_nat (String.length str))
  | V_bytes bs => Some (Z.of_nat (List.length bs))
  | _ => None
  end.

(** What the validator takes for [x <= y]. *)
Definition ordered (overlook : bool) (x y : real) : Prop :=
  real_le x y ∨ overlook = true ∧ (x = R_nan ∨ y = R_nan).

(** The constraints of a field on a value, its nested schema apart; with [overlook], as
    far as the validator sees them: an integer of 2^63 or more is also admitted when
    it lies in the range less 2^64, a NaN is in every range, and of a pattern that is
    no regular expression nothing is asked. *)
Record satisfies (overlook : bool) f v : Prop := Satisfies {
  sat_type : Types.type v = type f;
  sat_int min max d z : min_int f = Some min → max_int f = Some max →
    content v = Some d → integer_of d = Some z →
    min ≤ z ≤ max ∨ overlook = true ∧ 2 ^ 63 ≤ z ∧ min ≤ z - 2 ^ 64 ≤ max;
  sat_double min max d x : min_double f = Some min → max_double f = Some max →
    content v = Some d → number_of d = Some x →
    ordered overlook (real_of f64 min) x ∧ ordered overlook x (real_of f64 max);
  sat_length min max d n : min_length f = Some min → max_length f = Some max →
    content v = Some d → size_of d = Some n → min ≤ n ≤ max;
  sat_pattern p str : pattern_str f = Some p → content v = Some (V_string str) →
    (∃ re, compile p = Some re ∧ regex_match re str = Some true) ∨ overlook = true ∧ compile p = None;
  sat_allowed allowed str : allowed_values f = Some allowed → content v = Some (V_string str) →
    str ∈ allowed;
  sat_custom validator : validator ∈ custom_validators f → validator v = Some None }.

Definition nested_conforms (ok : schema → value_container.t C → Prop) f v : Prop :=
  ∀ sub, nested_schema f = Some sub → Types.type v = container_value →
    ∃ n, data_of v = V_container (Some n) ∧ ok sub (deref n).

Inductive conforms (overlook : bool) : schema → value_container.t C → Prop :=
| Conforms s c :
    (∀ f, f ∈ fields_ s → value_container.get (name f) c = None → required f = false) →
    (∀ f v, f ∈ fields_ s → value_container.get (name f) c = Some v → satisfies overlook f v) →
    (∀ f v sub, f ∈ fields_ s → value_container.get (name f) c = Some v →
       nested_schema f = Some sub → Types.type v = container_value →
       ∃ n, data_of v = V_container (Some n) ∧ conforms overlook sub (deref n)) →
    conforms overlook s c.

(** A value that one of the three concessions admits, in the container or a nested one. *)
Inductive conceded f v : Prop :=
| Conceded_unsigned d z min max :
    content v = Some d → integer_of d = Some z → min_int f = Some min → max_int f = Some max →
    2 ^ 63 ≤ z → min ≤ z - 2 ^ 64 ≤ max → conceded f v
| Conceded_nan d x min max :
    content v = Some d → number_of d = Some x → min_double f = Some min → max_double f = Some max →
    x = R_nan ∨ real_of f64 min = R_nan ∨ real_of f64 max = R_nan → conceded f v
| Conceded_pattern p str :
    content v = Some (V_string str) → pattern_str f = Some p → compile p = None → conceded f v.

Inductive overlooked : schema → value_container.t C → Prop :=
| Overlooked_here s c f v :
    f ∈ fields_ s → value_container.get (name f) c = Some v → conceded f v → overlooked s c
| Overlooked_nested s c f v sub n :
    f ∈ fields_ s → value_container.get (name f) c = Some v → nested_schema f = Some sub →
    data_of v = V_container (Some n) → overlooked sub (deref n) → overlooked s c.

(** ** What is assumed of schemas and containers *)

(** The bounds are of their types, and the compiled pattern is the pattern's. *)
Record field_ok f : Prop := FieldOk {
  ok_min_int z : min_int f = Some z → s_ok 64 z = true;
  ok_max_int z : max_int f = Some z → s_ok 64 z = true;
  ok_min_double z : min_double f = Some z → u_ok 64 z = true;
  ok_max_double z : max_double f = Some z → u_ok 64 z = true;
  ok_pattern : compiled_pattern f = pattern_str f ≫= compile }.

Inductive schema_ok : schema → Prop :=
| Schema_ok s :
    (∀ f, f ∈ fields_ s → field_ok f) →
    (∀ f sub, f ∈ fields_ s → nested_schema f = Some sub → schema_ok sub) → schema_ok s.

(** The numbers of the values the schema looks at are of their types. *)
Definition in_width d : bool :=
  match d with
  | V_short z => s_ok 16 z | V_ushort z => u_ok 16 z | V_int z => s_ok 32 z | V_uint z => u_ok 32 z
  | V_long z | V_llong z => s_ok 64 z | V_ulong z | V_ullong z => u_ok 64 z
  | V_float z => u_ok 32 z | V_double z => u_ok 64 z
  | _ => true
  end.

Inductive numbers_ok : schema → value_container.t C → Prop :=
| Numbers_ok s c :
    (∀ f v, f ∈ fields_ s → value_container.get (name f) c = Some v → in_width (data_of v) = true) →
    (∀ f v sub n, f ∈ fields_ s → value_container.get (name f) c = Some v →
       nested_schema f = Some sub → data_of v = V_container (Some n) → numbers_ok sub (deref n)) →
    numbers_ok s c.

(** ** What the checks look at is what a value holds *)

Lemma int_value_content v :
  in_width (data_of v) = true →
  match int_value_of v with
  | Some w => ∃ d z, content v = Some d ∧ integer_of d = Some z ∧
      (w = z ∧ z < 2 ^ 63 ∨ w = z - 2 ^ 64 ∧ 2 ^ 63 ≤ z)
  | None => ∀ d, content v = Some d → integer_of d = None
  end.
Proof.
  destruct v as [n ty [d]]. unfold content, int_value_of. cbn [Types.type data vv index_type].
  intros Hw. destruct ty, d; cbn -[swrap Z.pow] in *; try (intros d' [= <-]; done);
    try done; (do 2 eexists; split; [reflexivity|split; [reflexivity|]]); unfold s_ok, u_ok in Hw; try lia;
    unfold swrap; rewrite wrap_small by lia; destruct (Z.ltb_spec z (2 ^ (64 - 1))); lia.
Qed.

Lemma widened_range z : 0 ≤ z < 2 ^ 32 → 0 ≤ f32_to_f64 z < 2 ^ 64.
Proof.
  intros Hz. destruct (f_fields_range f32 z ltac:(cbn; lia) ltac:(cbn; lia) Hz) as (Hs & He & Hm).
  change (2 ^ ebits f32) with 256 in He. change (2 ^ mbits f32) with 8388608 in Hm.
  assert (∀ e m, 0 ≤ e < 2048 → 0 ≤ m < 2 ^ 52 → 0 ≤ f_make f64 (f_sign f32 z) e m < 2 ^ 64) as Hf
    by (intros e m ? ?; unfold f_make; change (ebits f64) with 11; change (mbits f64) with 52; lia).
  unfold f32_to_f64. cbv zeta. destruct (_ =? 255).
  - apply Hf; [lia|]. destruct (Z.eqb_spec (f_man f32 z) 0); [lia|].
    split; [apply Z.lor_nonneg; lia|]. apply Z.log2_lt_cancel. rewrite Z.log2_lor by lia.
    change (Z.log2 (2 ^ 51)) with 51. change (Z.log2 (2 ^ 52)) with 52.
    enough (Z.log2 (f_man f32 z * 2 ^ 29) < 52) by lia. apply Z.log2_lt_pow2; lia.
  - destruct (Z.eqb_spec (f_exp f32 z) 0); [destruct (Z.eqb_spec (f_man f32 z) 0)|]; [apply Hf; lia| |apply Hf; lia].
    destruct (log2_split (f_man f32 z)) as (? & ? & _); [lia..|]. apply Hf; lia.
Qed.

(** The bits of a double that is the same number as [x]. *)
Definition same_number (w : Z) (x : real) : Prop :=
  0 ≤ w < 2 ^ 64 ∧ (real_of f64 w = R_nan ↔ x = R_nan) ∧
  ∀ y, (real_le (real_of f64 w) y ↔ real_le x y) ∧ (real_le y (real_of f64 w) ↔ real_le y x).

Lemma double_value_content v :
  in_width (data_of v) = true →
  match double_value_of v with
  | Some w => ∃ d x, content v = Some d ∧ number_of d = Some x ∧ same_number w x
  | None => ∀ d, content v = Some d → number_of d = None
  end.
Proof.
  destruct v as [n ty [d]]. unfold content, double_value_of. cbn [Types.type data vv index_type].
  intros Hw. destruct ty, d; cbn -[f32_to_f64 real_of Z.pow] in *; try (intros d' [= <-]; done);
    try done; (do 2 eexists; split; [reflexivity|split; [reflexivity|]]); unfold u_ok in Hw.
  - split; [by apply widened_range; lia|]. split; [by apply (real_widened bits R_nan); lia|].
    intros y. by apply (real_widened bits y); lia.
  - by split; [lia|].
Qed.

Lemma length_content v :
  match length_of v with
  | Some n => ∃ d, content v = Some d ∧ size_of d = Some n
  | None => ∀ d, content v = Some d → size_of d = None
  end.
Proof.
  destruct v as [n ty [d]]. unfold content, length_of. cbn [Types.type data vv index_type].
  destruct ty, d; cbn; try (intros d' [= <-]; done); try done; eexists; (split; [reflexivity|]); cbn; [|done].
  unfold str_len. by rewrite str_bytes_length.
Qed.

Lemma string_content v str : string_of v = Some str ↔ content v = Some (V_string str).
Proof.
  destruct v as [n ty [d]]. unfold content, string_of. cbn [Types.type data vv index_type].
  destruct ty, d; cbn; (split; intros H; try discriminate H; by injection H as <-).
Qed.

Lemma in_range_ordered min max w x :
  u_ok 64 min = true → u_ok 64 max = true → same_number w x →
  (f_ltb f64 w min = false ∧ f_ltb f64 max w = false ↔
   ordered true (real_of f64 min) x ∧ ordered true x (real_of f64 max)).
Proof.
  intros Hmin Hmax (Hw & Hn & Hle). unfold u_ok in *.
  rewrite !f_ltb_real by lia. rewrite Hn. destruct (Hle (real_of f64 min)) as [_ ->], (Hle (real_of f64 max)) as [-> _].
  unfold ordered. naive_solver.
Qed.

(** The checks pass exactly what satisfies the field, with the concessions. *)
Lemma passes_satisfies f v :
  field_ok f → in_width (data_of v) = true →
  passes regex_match f v ↔ satisfies true f v.
Proof.
  intros [Hi1 Hi2 Hd1 Hd2 Hp] Hw.
  pose proof (int_value_content v Hw) as Hi. pose proof (double_value_content v Hw) as Hd.
  pose proof (length_content v) as Hl. split; intros [Ht Hint Hdouble Hlen Hpat Hall Hcus]; split; try done.
  - intros min max d z Emin Emax Ed Ez. destruct (int_value_of v) as [w|]; [|by rewrite (Hi d Ed) in Ez].
    destruct Hi as (d' & z' & Ed' & Ez' & Hwz). simplify_eq. specialize (Hint min max w Emin Emax eq_refl).
    destruct Hwz as [[-> ?]|[-> ?]]; [by left|by right].
  - intros min max d x Emin Emax Ed Ex. destruct (double_value_of v) as [w|]; [|by rewrite (Hd d Ed) in Ex].
    destruct Hd as (d' & x' & Ed' & Ex' & Hsame). assert (d' = d) as -> by congruence.
    assert (x' = x) as -> by congruence.
    apply (in_range_ordered min max w x); eauto.
  - intros min max d n Emin Emax Ed En. destruct (length_of v) as [w|]; [|by rewrite (Hl d Ed) in En].
    destruct Hl as (d' & Ed' & En'). simplify_eq. eauto.
  - intros p str Ep Es%string_content. rewrite Ep in Hp. cbn in Hp.
    destruct (compile p) as [re|] eqn:Ec; [|by right]. left. exists re. eauto.
  - intros allowed str Ea Es%string_content. eauto.
  - intros min max w Emin Emax Ew. rewrite Ew in Hi. destruct Hi as (d & z & Ed & Ez & Hwz).
    pose proof (Hi1 _ Emin). pose proof (Hi2 _ Emax). unfold s_ok in *.
    destruct (Hint min max d z Emin Emax Ed Ez) as [?|(_ & ? & ?)]; lia.
  - intros min max w Emin Emax Ew. rewrite Ew in Hd. destruct Hd as (d & x & Ed & Ex & Hsame).
    apply (in_range_ordered min max w x); eauto.
  - intros min max n Emin Emax En. rewrite En in Hl. destruct Hl as (d & Ed & En'). eauto.
  - intros re str Er Es%string_content. rewrite Hp in Er. destruct (pattern_str f) as [p|] eqn:Ep; [|done].
    cbn in Er. destruct (Hpat p str eq_refl Es) as [(re' & Er' & Hm)|[_ Hn]]; congruence.
  - intros allowed str Ea Es%string_content. eauto.
Qed.

(** Without the concessions, or one of them was made. *)
Lemma satisfies_or_conceded f v : satisfies true f v → satisfies false f v ∨ conceded f v.
Proof.
  intros [Ht Hint Hdouble Hlen Hpat Hall Hcus].
  destruct (content v) as [d|] eqn:Ed; [|left; split; try done; intros; congruence].
  assert (conceded f v ∨ (∀ min max z, min_int f = Some min → max_int f = Some max →
    integer_of d = Some z → min ≤ z ≤ max)) as [?|H1]; [|by right|].
  { destruct (min_int f) as [min|] eqn:E1, (max_int f) as [max|] eqn:E2, (integer_of d) as [z|] eqn:E3;
      try (right; intros; congruence).
    destruct (Hint min max d z eq_refl eq_refl eq_refl E3) as [?|(_ & ? & ?)];
      [right; intros; congruence|left; by eapply Conceded_unsigned]. }
  assert (conceded f v ∨ (∀ min max x, min_double f = Some min → max_double f = Some max →
    number_of d = Some x → ordered false (real_of f64 min) x ∧ ordered false x (real_of f64 max))) as [?|H2]; [|by right|].
  { destruct (min_double f) as [min|] eqn:E1, (max_double f) as [max|] eqn:E2, (number_of d) as [x|] eqn:E3;
      try (right; intros; congruence).
    destruct (Hdouble min max d x eq_refl eq_refl eq_refl E3) as [[?|(_ & Hn)] [?|(_ & Hn')]];
      [right; intros min' max' x' [= <-] [= <-] [= <-]; by split; left
      |left; eapply Conceded_nan; eauto; tauto..]. }
  assert (conceded f v ∨ (∀ p str, pattern_str f = Some p → d = V_string str →
    ∃ re, compile p = Some re ∧ regex_match re str = Some true)) as [?|H3]; [|by right|].
  { destruct (pattern_str f) as [p|] eqn:E1; [|right; intros; congruence].
    assert ((∃ str, d = V_string str) ∨ ∀ str, d ≠ V_string str) as [(str & ->)|Hn]
      by (destruct d; try (by right); left; by eexists).
    - destruct (Hpat p str eq_refl eq_refl) as [?|(_ & ?)]; [right; intros; naive_solver|left; by eapply Conceded_pattern].
    - right. intros p' str _ Es. by destruct (Hn str). }
  left. split; try done.
  - intros min max d' z ? ? Ed' ?. left. apply H1; congruence.
  - intros min max d' x ? ? Ed' ?. apply H2; congruence.
  - intros min max d' n ? ? Ed' ?. apply (Hlen min max d n); congruence.
  - intros p str ? Ed'. left. apply H3; congruence.
  - intros allowed str ? Ed'. apply (Hall allowed str); congruence.
Qed.

(** ** The whole schema *)

Lemma accepts_conforms s c :
  schema_ok s → numbers_ok s c → accepts regex_match deref s c ↔ conforms true s c.
Proof.
  intros Hs. revert c. induction Hs as [s Hf _ IH]. intros c Hc. inversion Hc as [? ? Hw Hn]; subst.
  split.
  - inversion 1 as [? ? H1 H2 H3]; subst. constructor; [done| |].
    + intros f v Hin Hv. apply passes_satisfies; eauto.
    + intros f v sub Hin Hv Hsub Ht. destruct (H3 f v sub Hin Hv Hsub Ht) as (n & En & Hacc).
      exists n. split; [done|]. eapply IH; eauto.
  - inversion 1 as [? ? H1 H2 H3]; subst. constructor; [done| |].
    + intros f v Hin Hv. apply passes_satisfies; eauto.
    + intros f v sub Hin Hv Hsub Ht. destruct (H3 f v sub Hin Hv Hsub Ht) as (n & En & Hacc).
      exists n. split; [done|]. eapply IH; eauto.
Qed.

Lemma satisfies_weaken f v : satisfies false f v → satisfies true f v.
Proof.
  intros [Ht Hint Hdouble Hlen Hpat Hall Hcus]. split; try done.
  - intros min max d z E1 E2 E3 E4. destruct (Hint min max d z E1 E2 E3 E4) as [?|[? _]]; [by left|done].
  - intros min max d x E1 E2 E3 E4.
    destruct (Hdouble min max d x E1 E2 E3 E4) as [[?|[? _]] [?|[? _]]]; try done. by split; left.
  - intros p str E1 E2. destruct (Hpat p str E1 E2) as [?|[? _]]; [by left|done].
Qed.

Lemma conforms_weaken s c : conforms false s c → conforms true s c.
Proof.
  revert c. induction s as [fs IH] using schema_nested_ind. intros c Hc.
  inversion Hc as [? ? H1 H2 H3]; subst. constructor; [done| |].
  - intros f v Hin Hv. by apply satisfies_weaken, H2.
  - intros f v sub Hin Hv Hsub Ht. destruct (H3 f v sub Hin Hv Hsub Ht) as (n & En & Hn).
    exists n. split; [done|]. rewrite list.Forall_forall in IH. specialize (IH f Hin). rewrite Hsub in IH. auto.
Qed.

(** A property of all fields, or the alternative for one. *)
Lemma all_or_one (P : field → Prop) (Q : Prop) (fs : list field) :
  (∀ f, f ∈ fs → P f ∨ Q) → (∀ f, f ∈ fs → P f) ∨ Q.
Proof.
  induction fs as [|f fs IH]; intros H; [left; by intros f ?%not_elem_of_nil|].
  destruct (H f) as [Hf|?]; [by left| |by right].
  destruct IH as [IH|?]; [intros; apply H; by right| |by right].
  left. by intros g [->|?]%elem_of_cons; auto.
Qed.

Lemma conforms_or_overlooked s c : conforms true s c → conforms false s c ∨ overlooked s c.
Proof.
  revert c. induction s as [fs IH] using schema_nested_ind. intros c Hc.
  inversion Hc as [? ? H1 H2 H3]; subst. cbn [fields_] in *.
  destruct (all_or_one (λ f, ∀ v, value_container.get (name f) c = Some v →
    satisfies false f v ∧ nested_conforms (conforms false) f v) (overlooked (Schema fs) c) fs) as [H|?]; [|left|by right].
  - intros f Hin. destruct (value_container.get (name f) c) as [v|] eqn:Ev; [|by left].
    destruct (satisfies_or_conceded f v (H2 f v Hin Ev)) as [Hs|Hcon]; [|right; by eapply Overlooked_here].
    rewrite list.Forall_forall in IH. specialize (IH f Hin).
    destruct (nested_schema f) as [sub|] eqn:Es; [|left; intros ? [= <-]; split; [done|]; intros ? ?; congruence].
    destruct (decide (Types.type v = container_value)) as [Ht|Ht];
      [|left; intros ? [= <-]; split; [done|]; by intros ? ? ?].
    destruct (H3 f v sub Hin Ev Es Ht) as (n & En & Hn).
    destruct (IH (deref n) Hn) as [Hno|Hyes]; [|right; by eapply Overlooked_nested].
    left. intros ? [= <-]. split; [done|]. intros sub' Es' _. exists n. split; [done|]. congruence.
  - constructor; [done| |].
    + intros f v Hin Hv. by apply H.
    + intros f v sub Hin Hv Hsub Ht. by apply (H f Hin v Hv).
Qed.

(** ** The builders *)

Lemma schema_ok_push f s :
  schema_ok s → field_ok f → (∀ sub, nested_schema f = Some sub → schema_ok sub) → schema_ok (push f s).
Proof.
  intros [? Hf Hn] Hok Hsub. constructor; unfold push; cbn [fields_].
  - intros g [?|Hg]%elem_of_app; [by apply Hf|]. by apply list_elem_of_singleton in Hg as ->.
  - intros g sub [?|Hg]%elem_of_app; [by apply Hn|]. apply list_elem_of_singleton in Hg as ->. apply Hsub.
Qed.

Lemma new_field_ok n ty req : field_ok (new_field n ty req).
Proof. by split. Qed.

Lemma update_in_elem key (upd : field → field) (fs : list field) g :
  g ∈ update_in key upd fs → ∃ f, f ∈ fs ∧ (g = f ∨ g = upd f).
Proof.
  induction fs as [|f fs IH]; cbn [update_in]; [by intros ?%not_elem_of_nil|].
  case_bool_decide.
  - intros [->|?]%elem_of_cons; [exists f; split; [left|by right]|exists g; split; [by right|by left]].
  - intros [->|Hg]%elem_of_cons; [exists f; split; [left|by left]|].
    destruct (IH Hg) as (f' & ? & ?). exists f'. split; [by right|done].
Qed.

Lemma schema_ok_update key upd s :
  (∀ f, field_ok f → field_ok (upd f)) → (∀ f, nested_schema (upd f) = nested_schema f) →
  schema_ok s → schema_ok (update_field key upd s).
Proof.
  intros Hok Hsub [? Hf Hn]. constructor; unfold update_field; cbn [fields_].
  - intros g (f & Hin & [->| ->])%update_in_elem; auto.
  - intros g sub (f & Hin & [->| ->])%update_in_elem; rewrite ?Hsub; eauto.
Qed.

(** Every schema the program builds is of this kind: [range] converts its bounds, and
    [pattern] compiles. *)
Theorem built_schemas_ok s :
  schema_ok s →
  schema_ok empty ∧
  (∀ key ty, schema_ok (require key ty s) ∧ schema_ok (optional key ty s)) ∧
  (∀ key ty nested, schema_ok nested →
     schema_ok (require_nested key ty nested s) ∧ schema_ok (optional_nested key ty nested s)) ∧
  (∀ key min max, schema_ok (range key min max s)) ∧
  (∀ key min max, 0 ≤ min < 2 ^ 64 → 0 ≤ max < 2 ^ 64 → schema_ok (range_f64 key min max s)) ∧
  (∀ key min max, 0 ≤ min < 2 ^ 32 → 0 ≤ max < 2 ^ 32 → schema_ok (range_f32 key min max s)) ∧
  (∀ key min max, schema_ok (length key min max s)) ∧
  (∀ key p, schema_ok (pattern compile key p s)) ∧
  (∀ key allowed, schema_ok (one_of key allowed s)) ∧
  (∀ key validator, schema_ok (custom key validator s)).
Proof.
  intros Hs. split_and!.
  - constructor; intros f; [|intros sub]; by intros ?%not_elem_of_nil.
  - intros key ty. split; (apply schema_ok_push; [done|apply new_field_ok|done]).
  - intros key ty nested Hn. split; (apply schema_ok_push; [done|by split|by intros sub [= <-]]).
  - intros key min max. apply schema_ok_update; [|done|done]. intros f [? ? ? ? ?]. split; try done;
      cbn; intros z [= <-]; unfold s_ok; [pose proof (swrap_range 64 min)|pose proof (swrap_range 64 max)]; lia.
  - intros key min max Hmin Hmax. apply schema_ok_update; [|done|done]. intros f [? ? ? ? ?]. split; try done;
      cbn; intros z [= <-]; unfold u_ok; lia.
  - intros key min max Hmin%widened_range Hmax%widened_range. apply schema_ok_update; [|done|done].
    intros f [? ? ? ? ?]. split; try done; cbn -[f32_to_f64]; intros z [= <-]; unfold u_ok; lia.
  - intros key min max. apply schema_ok_update; [|done|done]. by intros f [? ? ? ? ?].
  - intros key p. apply schema_ok_update; [|done|done]. by intros f [? ? ? ? ?].
  - intros key allowed. apply schema_ok_update; [|done|done]. by intros f [? ? ? ? ?].
  - intros key validator. apply schema_ok_update; [|done|done]. by intros f [? ? ? ? ?].
Qed.
End Meaning.

(** ** Changing one field *)

Section Update.
Context {C R : Type}.
Implicit Types (fs : list (field_def C R (t C R))) (s : t C R).

Lemma find_in_update key k upd fs :
  (∀ f, name (upd f) = name f) →
  find_in k (update_in key upd fs) =
  if bool_decide (key = k) then upd <$> find_in k fs else find_in k fs.
Proof.
  intros Hn. induction fs as [|f fs IH]; simpl; [by case_bool_decide|].
  destruct (decide (name f = key)) as [E|E].
  - rewrite (bool_decide_eq_true_2 (name f = key)) by done. simpl. rewrite Hn, E.
    case_bool_decide; simplify_eq; done.
  - rewrite (bool_decide_eq_false_2 (name f = key)) by done. simpl. rewrite IH.
    destruct (decide (name f = k)) as [E'|E'];
      [rewrite !(bool_decide_eq_true_2 (name f = k)) by done
      |by rewrite !(bool_decide_eq_false_2 (name f = k)) by done].
    rewrite bool_decide_eq_false_2 by congruence. done.
Qed.

Lemma length_update key upd fs : List.length (update_in key upd fs) = List.length fs.
Proof. induction fs as [|f fs IH]; simpl; [done|]. case_bool_decide; simpl; auto. Qed.

Lemma update_absent key upd fs : find_in key fs = None → update_in key upd fs = fs.
Proof.
  induction fs as [|f fs IH]; simpl; [done|]. case_bool_decide; [done|]. by intros ->%IH.
Qed.

(** A check that does not see the change. *)
Lemma fold_update {A} (g : A → field_def C R (t C R) → A) key upd fs a :
  (∀ a f, find_in key fs = Some f → g a (upd f) = g a f) →
  fold_left g (update_in key upd fs) a = fold_left g fs a.
Proof.
  revert a. induction fs as [|f fs IH]; intros a Hg; simpl in *; [done|].
  case_bool_decide; simpl; [by rewrite Hg|]. by apply IH.
Qed.
End Update.

(** ** Properties *)

Section Properties.
Context {C R : Type} (compile : string → option R) (regex_match : R → string → option bool)
        (deref : C → value_container.t C).

(** C2. [validate] reports nothing exactly when the container conforms to the schema,
    with three concessions: every required field is there, and every present field
    has the declared type, a number in the ranges, a length in the bounds, text that
    the pattern matches and that is allowed, passes all validators and, where a nested
    schema is given, holds a container that conforms to it.  So a container that
    conforms is never reported, and one that is not reported conforms unless it has an
    integer of 2^63 or more that is in range less 2^64, a NaN in a range of doubles or
    a text under a pattern that is no regular expression. *)
Theorem validate_iff_conforms s c :
  schema_ok compile s → numbers_ok deref s c →
  (validate regex_match deref s c = None ↔ conforms compile regex_match deref true s c) ∧
  (validate_result regex_match deref s c = inl tt ↔ conforms compile regex_match deref true s c) ∧
  (conforms compile regex_match deref false s c → validate regex_match deref s c = None) ∧
  (validate regex_match deref s c = None →
     conforms compile regex_match deref false s c ∨ overlooked compile deref s c).
Proof.
  intros Hs Hc. pose proof (proj1 (validate_all_spec regex_match deref s c)) as H.
  rewrite (accepts_conforms compile) in H by done.
  assert (validate regex_match deref s c = None ↔ conforms compile regex_match deref true s c) as Hv
    by (unfold validate; destruct (validate_all regex_match deref s c); rewrite <-H; by split).
  split_and!; [done| | |].
  - rewrite <-Hv. unfold validate_result. by destruct (validate regex_match deref s c).
  - intros Hn. by apply Hv, conforms_weaken.
  - intros Hn%Hv. by apply conforms_or_overlooked.
Qed.

(** Every error of [validate_all] names a field of the schema, or a path
    "outer.inner" into its nested schemas, and carries one of the codes 310
    to 317. *)
Theorem validation_errors_located s c e :
  e ∈ validate_all regex_match deref s c →
  located s (validation_error.field e) ∧ 310 ≤ validation_error.code e ≤ 317.
Proof.
  intros He. pose proof (proj2 (validate_all_spec regex_match deref s c)) as H.
  rewrite list.Forall_forall in H. by apply H.
Qed.

(** A pattern that [std::regex] refuses is not enforced: after [pattern]
    with an invalid expression on a field that had no valid one, the schema
    accepts and rejects the same containers with the same errors (and a valid
    pattern given before is no longer checked). *)
Theorem invalid_pattern_not_enforced key p s c :
  compile p = None →
  (∀ f, find_field key s = Some f → compiled_pattern f = None) →
  validate_all regex_match deref (pattern compile key p s) c =
  validate_all regex_match deref s c.
Proof.
  intros Hp Hs. destruct s as [fs]. unfold pattern, update_field.
  rewrite !validate_all_loop. cbn [fields_]. apply fold_update. intros errors f Hf.
  specialize (Hs f Hf). unfold check_field, validate_field. cbn [name required].
  destruct (value_container.get (name f) c); [|done].
  unfold validate_pattern. cbn [compiled_pattern]. rewrite Hp, Hs. done.
Qed.

(** A constraint is attached to the first field of its name only, and
    quietly dropped when there is none: [range], [length], [one_of], [pattern]
    and [custom] keep the number of fields, change what [find_field] returns at
    no other key, and leave a schema without that key as it is. *)
Theorem constraint_updates_one_field key k upd (s : t C R) :
  (∀ f, name (upd f) = name f) →
  field_count (update_field key upd s) = field_count s ∧
  find_field k (update_field key upd s) =
    (if bool_decide (key = k) then upd <$> find_field k s else find_field k s) ∧
  (has_field key s = false → update_field key upd s = s).
Proof.
  intros Hn. destruct s as [fs]. unfold field_count, find_field, has_field, update_field. simpl.
  split_and!; [by rewrite length_update|by apply find_in_update|].
  intros H. f_equal. apply update_absent. unfold find_field in H. simpl in H.
  apply bool_decide_eq_false in H. by destruct (find_in key fs); [destruct H|].
Qed.

(** The range check of [ulong] and [ullong] values looks at their
    conversion to [int64_t]: a value above [INT64_MAX] passes exactly when the
    value minus 2^64 is in the range. *)
Theorem unsigned_range_wraps f n z lo hi errors :
  2 ^ 63 ≤ z < 2 ^ 64 → min_int f = Some lo → max_int f = Some hi → max_double f = None →
  (validate_range (C:=C) (R:=R) f (Optimized n ullong_value (Vv (V_ullong z))) errors).2 =
  bool_decide (lo ≤ z - 2 ^ 64 ≤ hi).
Proof.
  intros Hz E1 E2 E3. unfold validate_range, range_error. rewrite E1, E2, E3.
  cbn [int_value_of double_value_of Types.type data vv].
  assert (swrap 64 z = z - 2 ^ 64) as ->.
  { unfold swrap. rewrite wrap_small by lia. change (2 ^ (64 - 1)) with (2 ^ 63).
    by destruct (Z.ltb_spec z (2 ^ 63)); [lia|]. }
  case_bool_decide.
  - replace (_ || _) with false by lia. by destruct (min_double f).
  - by replace (_ || _) with true by lia.
Qed.
End Properties.

Section Witnesses.
#[local] Open Scope string_scope.

Definition sample_schema : t ctree unit :=
  range "n" 0 100 (require "n" ullong_value
    (require_nested "c" container_value (require "m" int_value empty) empty)).

Definition sample_container : value_container.t ctree :=
  value_container.set "n" (Vv (V_ullong (2 ^ 64 - 1)))
    (value_container.set "c" (Vv (V_container (Some (Node value_container.new)))) value_container.new).

Definition range_field : field_def ctree unit (t ctree unit) :=
  FieldDef "n" ullong_value true (Some (-10)%Z) (Some 10%Z) None None None None None None None None [].

Definition no_regex : unit → string → option bool := λ _ _, None.

(** The unsigned value, which is not in the range. *)
Definition wrapped_schema : t ctree unit := range "n" (-10) 10 (require "n" ullong_value empty).
Definition wrapped_container : value_container.t ctree :=
  value_container.set "n" (Vv (V_ullong (2 ^ 64 - 1))) value_container.new.

Definition wrapped_field : field_def ctree unit (t ctree unit) :=
  FieldDef "n" ullong_value true (Some (-10)%Z) (Some 10%Z) None None None None None None None None [].
Definition wrapped_value : optimized_value ctree := Optimized "n" ullong_value (Vv (V_ullong (2 ^ 64 - 1))).

Lemma wrapped_fields f : f ∈ fields_ wrapped_schema → f = wrapped_field.
Proof. intros Hf. apply list_elem_of_singleton in Hf as ->. reflexivity. Qed.

Lemma wrapped_get : value_container.get "n" wrapped_container = Some wrapped_value.
Proof. vm_compute. reflexivity. Qed.

Lemma validate_iff_conforms_witness :
  validate no_regex node wrapped_schema wrapped_container = None ∧
  (conforms (λ _, None) no_regex node false wrapped_schema wrapped_container ∨
   overlooked (λ _, None) node wrapped_schema wrapped_container) ∧
  ¬ conforms (λ _, None) no_regex node false wrapped_schema wrapped_container.
Proof.
  assert (schema_ok (λ _, None) wrapped_schema) as Hs.
  { apply built_schemas_ok, built_schemas_ok, (built_schemas_ok _ (Schema [])).
    constructor; intros f; [|intros sub]; by intros ?%not_elem_of_nil. }
  assert (numbers_ok node wrapped_schema wrapped_container) as Hc.
  { constructor; intros f v.
    - intros ->%wrapped_fields. cbn [name wrapped_field]. rewrite wrapped_get. by intros [= <-].
    - by intros sub n ->%wrapped_fields. }
  destruct (validate_iff_conforms (λ _, None) no_regex node wrapped_schema wrapped_container Hs Hc)
    as (_ & _ & _ & H).
  assert (validate no_regex node wrapped_schema wrapped_container = None) as Hv by (vm_compute; reflexivity).
  split; [exact Hv|]. split; [exact (H Hv)|]. intros Hn. inversion Hn as [? ? _ H2 _]; subst.
  destruct (H2 wrapped_field wrapped_value) as [_ Hint _ _ _ _ _]; [by left|exact wrapped_get|].
  destruct (Hint (-10)%Z 10%Z (V_ullong (2 ^ 64 - 1)) (2 ^ 64 - 1)%Z) as [?|[? _]]; try reflexivity; [lia|discriminate].
Defined.

Lemma validation_errors_located_witness :
  located sample_schema "c.m" ∧ (310 ≤ 310 ≤ 317)%Z.
Proof.
  apply (validation_errors_located no_regex node sample_schema sample_container
           (validation_error.ValidationError "c.m" "Required field 'm' is missing" 310)).
  apply (bool_decide_eq_true_1 (_ ∈ _)). vm_compute. reflexivity.
Defined.

Lemma invalid_pattern_not_enforced_witness :
  validate_all no_regex node (pattern (λ _, None) "s" "[" (require "s" string_value empty))
    (value_container.set "s" (Vv (V_string "x")) value_container.new) = [].
Proof.
  apply (eq_trans (invalid_pattern_not_enforced (λ _, None) no_regex node "s" "["
    (require "s" string_value empty) (value_container.set "s" (Vv (V_string "x")) value_container.new)
    eq_refl ltac:(by intros f [= <-]))). reflexivity.
Defined.

Lemma constraint_updates_one_field_witness :
  field_count (length "z" 1 2 sample_schema) = 2%Z ∧
  find_field "n" (length "z" 1 2 sample_schema) = find_field "n" sample_schema ∧
  length "z" 1 2 sample_schema = sample_schema.
Proof.
  destruct (constraint_updates_one_field "z" "n" (λ f : field_def ctree unit (t ctree unit),
    FieldDef (name f) (type f) (required f) (min_int f) (max_int f) (min_double f) (max_double f)
      (Some 1%Z) (Some 2%Z) (pattern_str f) (compiled_pattern f) (allowed_values f)
      (nested_schema f) (custom_validators f)) sample_schema (λ _, eq_refl)) as (H1 & H2 & H3).
  split; [exact H1|]. split; [exact H2|]. apply H3. reflexivity.
Defined.

Lemma unsigned_range_wraps_witness :
  (validate_range (range_field : field_def ctree unit (t ctree unit))
     (Optimized "n" ullong_value (Vv (V_ullong (2 ^ 64 - 1)))) []).2 = true.
Proof.
  apply (eq_trans (unsigned_range_wraps range_field "n" (2 ^ 64 - 1) (-10) 10 []
    ltac:(lia) eq_refl eq_refl eq_refl)). reflexivity.
Defined.
End Witnesses.
