(* ===== verification/EpochManager.v ===== *)
(** * epoch_manager: deferred deletion

    [internal/epoch_manager.h].  Readers pin the global epoch, writers put a
    pointer on the retire list of the current epoch (one of three buckets), and
    [try_gc] advances the epoch and deletes the pointers of the bucket two
    epochs back.

    [defer_delete] and [try_gc] are not atomic: they load or advance the epoch,
    then take the bucket's lock, and [try_gc] deletes after it has released it.
    The functions of this file run a call without interference; the relation
    [step] interleaves the atomic phases of the calls of any number of threads.
    A pointer is deleted when its deleter is called on it; [deleted_] logs those
    calls, [deferred_] the pointers given to [defer_delete]. *)

From S2P Require Import Prelude.

Module epoch_manager.

Definition INACTIVE : Z := 2 ^ 64 - 1.
Definition NUM_EPOCHS : Z := 3.

(** Pointers and threads. *)
Abbreviation ptr := positive.
Abbreviation tid := nat.

Record t : Type := Manager {
  global_epoch_ : Z;
  thread_epoch : gmap tid Z;
  gc_count_ : Z;
  reclaimed_count_ : Z;
  retired_ : list (list ptr);
  deleted_ : list ptr }.

Definition new : t := Manager 0 ∅ 0 0 [[]; []; []] [].

Definition with_thread (i : tid) (e : Z) (m : t) : t :=
  Manager (global_epoch_ m) (<[i := e]> (thread_epoch m)) (gc_count_ m) (reclaimed_count_ m)
    (retired_ m) (deleted_ m).
Definition with_retired (r : list (list ptr)) (m : t) : t :=
  Manager (global_epoch_ m) (thread_epoch m) (gc_count_ m) (reclaimed_count_ m) r (deleted_ m).
Definition with_epoch (e : Z) (m : t) : t :=
  Manager e (thread_epoch m) (gc_count_ m) (reclaimed_count_ m) (retired_ m) (deleted_ m).

(** ** Pinning *)

Definition enter_critical (i : tid) (m : t) : t := with_thread i (global_epoch_ m) m.
Definition exit_critical (i : tid) (m : t) : t := with_thread i INACTIVE m.
Definition in_critical_section (i : tid) (m : t) : bool :=
  negb (default INACTIVE (thread_epoch m !! i) =? INACTIVE).

(** ** The atomic phases of the other calls *)

(** [epoch % NUM_EPOCHS] *)
Definition bucket_of (epoch : Z) : nat := Z.to_nat (epoch mod NUM_EPOCHS).

(** Under the bucket's lock. *)
Definition append_retired (b : nat) (p : ptr) (m : t) : t :=
  with_retired (alter (λ l, l ++ [p]) b (retired_ m)) m.
Definition take_retired (b : nat) (m : t) : list ptr * t :=
  (default [] (retired_ m !! b), with_retired (<[b := []]> (retired_ m)) m).

(** [global_epoch_.fetch_add(1)] and what it decides: the bucket to collect. *)
Definition advance (m : t) : option nat * t :=
  let current := global_epoch_ m in
  let m := with_epoch (wrap 64 (current + 1)) m in
  if current <? 2 then (None, m) else (Some (bucket_of (current - 2)), m).

(** [deleter(ptr)] for each pointer. *)
Definition delete_all (ps : list ptr) (m : t) : t :=
  Manager (global_epoch_ m) (thread_epoch m) (gc_count_ m) (reclaimed_count_ m) (retired_ m)
    (deleted_ m ++ ps).

Definition count_gc (n : Z) (m : t) : t :=
  Manager (global_epoch_ m) (thread_epoch m) (wrap 64 (gc_count_ m + 1))
    (wrap 64 (reclaimed_count_ m + n)) (retired_ m) (deleted_ m).

(** ** Whole calls *)

(** [None] is [nullptr]. *)
Definition defer_delete (p : option ptr) (m : t) : t :=
  match p with
  | None => m
  | Some p => append_retired (bucket_of (global_epoch_ m)) p m
  end.

Definition try_gc (m : t) : Z * t :=
  match advance m with
  | (None, m) => (0, m)
  | (Some b, m) =>
      let (ps, m) := take_retired b m in
      let n := Z.of_nat (length ps) in
      (n, count_gc n (delete_all ps m))
  end.

(** The loop of [force_gc] over the buckets from [b] on. *)
Fixpoint force_loop (k b : nat) (total : Z) (m : t) : Z * t :=
  match k with
  | O => (total, m)
  | S k =>
      let (ps, m) := take_retired b m in
      force_loop k (S b) (total + Z.of_nat (length ps)) (delete_all ps m)
  end.

Definition force_gc (m : t) : Z * t :=
  let (total, m) := force_loop 3 0 0 m in
  (total, if 0 <? total then count_gc total m else m).

Definition current_epoch (m : t) : Z := global_epoch_ m.
Definition gc_count (m : t) : Z := gc_count_ m.
Definition reclaimed_count (m : t) : Z := reclaimed_count_ m.
Definition pending_count (m : t) : Z := Z.of_nat (length (concat (retired_ m))).

(** [epoch_guard]: its constructor, its destructor, and a scope it guards. *)
Definition guard_enter (i : tid) (m : t) : t := enter_critical i m.
Definition guard_exit (i : tid) (m : t) : t := exit_critical i m.
Definition guarded (i : tid) (body : t → t) (m : t) : t := guard_exit i (body (guard_enter i m)).

(** [~epoch_manager] *)
Definition destroy (m : t) : t := (force_gc m).2.

(** ** Interleavings *)

(** Where a thread is in its call; the pointers it holds. *)
Inductive call : Type :=
| Idle
| Deferring (p : ptr) (b : nat)
| Collecting (b : nat)
| Deleting (ps : list ptr) (n : Z).

Definition holds (c : call) : list ptr :=
  match c with Deferring p _ => [p] | Deleting ps _ => ps | _ => [] end.

Record system : Type := System {
  manager : t;
  calls : list call;
  deferred_ : list ptr }.

Definition start (threads : nat) : system := System new (replicate threads Idle) [].

Inductive step (i : tid) : system → system → Prop :=
| step_enter m cs d :
    cs !! i = Some Idle → step i (System m cs d) (System (enter_critical i m) cs d)
| step_exit m cs d :
    cs !! i = Some Idle → step i (System m cs d) (System (exit_critical i m) cs d)
| step_defer_load m cs d p :
    cs !! i = Some Idle →
    step i (System m cs d)
      (System m (<[i := Deferring p (bucket_of (global_epoch_ m))]> cs) (d ++ [p]))
| step_defer_append m cs d p b :
    cs !! i = Some (Deferring p b) →
    step i (System m cs d) (System (append_retired b p m) (<[i := Idle]> cs) d)
| step_gc_advance m cs d :
    cs !! i = Some Idle →
    step i (System m cs d)
      (System (advance m).2
         (<[i := match (advance m).1 with Some b => Collecting b | None => Idle end]> cs) d)
| step_gc_take m cs d b :
    cs !! i = Some (Collecting b) →
    step i (System m cs d)
      (System (take_retired b m).2
         (<[i := Deleting (take_retired b m).1 (Z.of_nat (length (take_retired b m).1))]> cs) d)
| step_gc_delete m cs d p ps n :
    cs !! i = Some (Deleting (p :: ps) n) →
    step i (System m cs d) (System (delete_all [p] m) (<[i := Deleting ps n]> cs) d)
| step_gc_count m cs d n :
    cs !! i = Some (Deleting [] n) →
    step i (System m cs d) (System (count_gc n m) (<[i := Idle]> cs) d).

(** A step of some thread, and the states the interleavings reach. *)
Definition any_step (s s' : system) : Prop := ∃ i, step i s s'.
Definition reachable (threads : nat) : system → Prop := rtc any_step (start threads).
End epoch_manager.
