(* ===== verification/EpochManagerFacts.v ===== *)
(** * epoch_manager: what it guarantees, and what it does not

    Every pointer given to [defer_delete] is, at any moment of any interleaving,
    in exactly one place: in a call in progress, on a retire list, or deleted
    once ([deferred_conserved]).  But [try_gc] never looks at the pinned epochs:
    the third [try_gc] after a retirement deletes the pointer under a reader
    that was pinned before ([third_gc_deletes]). *)

From S2P Require Import Prelude EpochManager.
From stdpp Require Import relations sorting.
Import epoch_manager.
#[local] Open Scope Z_scope.

Section Lists.
Context {A : Type}.

Implicit Types (ls : list (list A)).

(** Moving elements between the lists of a list of lists. *)
Lemma concat_insert (ls : list (list A)) b l l' :
  ls !! b = Some l → concat (<[b := l']> ls) ++ l ≡ₚ concat ls ++ l'.
Proof.
  revert b. induction ls as [|x ls IH]; intros [|b] H; simpl in *; [done..| |].
  - injection H as ->. rewrite <-!app_assoc. rewrite (Permutation_app_comm (concat ls) l).
    rewrite app_assoc, (Permutation_app_comm l' l), <-app_assoc. f_equiv. apply Permutation_app_comm.
  - rewrite <-!app_assoc. f_equiv. by apply IH.
Qed.

Lemma concat_alter_snoc (ls : list (list A)) b x :
  (b < length ls)%nat → concat (alter (λ l, l ++ [x]) b ls) ≡ₚ concat ls ++ [x].
Proof.
  revert b. induction ls as [|l ls IH]; intros [|b] H; simpl in *; [lia..| |].
  - rewrite <-!app_assoc. f_equiv. apply Permutation_app_comm.
  - rewrite <-app_assoc. f_equiv. apply IH. lia.
Qed.
End Lists.

(** ** Nothing is lost, nothing is deleted twice *)

Implicit Types (cs : list call) (m : t).

Definition in_flight (cs : list call) : list ptr := concat (holds <$> cs).

Record conserved (s : system) : Prop := {
  con_buckets : length (retired_ (manager s)) = 3%nat;
  con_calls i p b : calls s !! i = Some (Deferring p b) → (b < 3)%nat;
  con_places : deferred_ s ≡ₚ
    in_flight (calls s) ++ concat (retired_ (manager s)) ++ deleted_ (manager s) }.

Lemma bucket_of_lt e : (bucket_of e < 3)%nat.
Proof. unfold bucket_of, NUM_EPOCHS. pose proof (Z.mod_pos_bound e 3). lia. Qed.

Lemma in_flight_insert cs i c c' :
  cs !! i = Some c → in_flight (<[i := c']> cs) ++ holds c ≡ₚ in_flight cs ++ holds c'.
Proof.
  intros Hc. unfold in_flight. rewrite list_fmap_insert. apply concat_insert.
  by rewrite list_lookup_fmap, Hc.
Qed.

(** A call gives up [xs]; the other way round, it takes them. *)
Lemma in_flight_release cs i c c' xs :
  cs !! i = Some c → holds c = xs ++ holds c' →
  in_flight cs ≡ₚ in_flight (<[i := c']> cs) ++ xs.
Proof.
  intros Hc E. pose proof (in_flight_insert _ _ _ c' Hc) as H. rewrite E, app_assoc in H.
  symmetry. by apply (Permutation_app_inv_r (holds c')).
Qed.

Lemma in_flight_take cs i c c' xs :
  cs !! i = Some c → holds c' = xs ++ holds c →
  in_flight (<[i := c']> cs) ≡ₚ in_flight cs ++ xs.
Proof.
  intros Hc E. pose proof (in_flight_insert _ _ _ c' Hc) as H. rewrite E, app_assoc in H.
  by apply (Permutation_app_inv_r (holds c)).
Qed.

Lemma calls_insert cs i j c p b :
  <[i := c]> cs !! j = Some (Deferring p b) →
  c = Deferring p b ∨ cs !! j = Some (Deferring p b).
Proof. intros [(-> & -> & ?)|[? ?]]%list_lookup_insert_Some; auto. Qed.

Lemma take_conserved m b :
  concat (retired_ (take_retired b m).2) ++ (take_retired b m).1 ≡ₚ concat (retired_ m).
Proof.
  unfold take_retired. simpl. destruct (retired_ m !! b) as [l|] eqn:E; simpl.
  - by rewrite (concat_insert _ _ _ [] E), app_nil_r.
  - by rewrite list_insert_ge, app_nil_r by (by apply lookup_ge_None).
Qed.

(** The bound on the bucket of a retirement in progress, after one call changed. *)
Lemma calls_bound cs i c :
  (∀ i p b, cs !! i = Some (Deferring p b) → (b < 3)%nat) →
  (∀ p b, c = Deferring p b → (b < 3)%nat) →
  ∀ j p b, <[i := c]> cs !! j = Some (Deferring p b) → (b < 3)%nat.
Proof. intros Hcs Hc j p b [H|H]%calls_insert; eauto. Qed.

Lemma step_conserved i s s' : conserved s → step i s s' → conserved s'.
Proof.
  intros [Hb Hc Hp] Hs. destruct Hs as [m cs d Hi|m cs d Hi|m cs d p Hi|m cs d p b Hi|m cs d Hi
    |m cs d b Hi|m cs d p ps n Hi|m cs d n Hi]; constructor; simpl in *; try done;
    try (by apply calls_bound).
  - apply calls_bound; [done|]. intros ?? [= <- <-]. apply bucket_of_lt.
  - rewrite (in_flight_take _ _ _ (Deferring p (bucket_of (global_epoch_ m))) [p] Hi) by done.
    rewrite Hp. solve_Permutation.
  - by rewrite length_alter.
  - rewrite concat_alter_snoc by (rewrite Hb; by apply (Hc i p)).
    rewrite Hp, (in_flight_release _ _ _ Idle [p] Hi) by done. solve_Permutation.
  - unfold advance. by case_match.
  - apply calls_bound; [done|]. intros ??. by case_match.
  - rewrite (in_flight_take _ _ _ _ [] Hi) by (by case_match). rewrite app_nil_r, Hp.
    unfold advance. by case_match.
  - by rewrite length_insert.
  - rewrite (in_flight_take _ _ _ (Deleting (default [] (retired_ m !! b)) _)
               (default [] (retired_ m !! b)) Hi) by (by rewrite app_nil_r).
    rewrite Hp, <-(take_conserved m b). simpl. solve_Permutation.
  - rewrite Hp, (in_flight_release _ _ _ (Deleting ps n) [p] Hi) by done. solve_Permutation.
  - rewrite (in_flight_take _ _ _ Idle [] Hi) by done. by rewrite app_nil_r.
Qed.

Lemma reachable_conserved n s : reachable n s → conserved s.
Proof.
  unfold reachable. intros H. assert (conserved (start n)) as H0.
  { constructor; simpl; [done| |].
    - intros i p b E. by apply lookup_replicate in E as [? ?].
    - unfold in_flight. clear. by induction n. }
  revert H0. generalize dependent (start n). intros s0 H. induction H as [|s0 s1 s2 [i Hi] _ IH]; [done|].
  intros H0. by eapply IH, step_conserved.
Qed.

(** ** Calls without interference *)

(** [p] waits in bucket [b]. *)
Definition waits (p : ptr) (b : nat) m : Prop := ∃ l, retired_ m !! b = Some l ∧ p ∈ l.

Lemma try_gc_epoch m : 0 ≤ global_epoch_ m < 2 ^ 64 - 1 →
  global_epoch_ (try_gc m).2 = global_epoch_ m + 1 ∧ thread_epoch (try_gc m).2 = thread_epoch m.
Proof.
  intros H. unfold try_gc, advance, take_retired. case_match eqn:E; simplify_eq;
    case_match; simplify_eq; simpl; rewrite wrap_small by lia; done.
Qed.

(** A collection of another bucket leaves [p] where it is. *)
Lemma try_gc_waits p b m :
  waits p b m → (2 ≤ global_epoch_ m → bucket_of (global_epoch_ m - 2) ≠ b) →
  waits p b (try_gc m).2.
Proof.
  intros (l & Hl & Hp) Hb. unfold try_gc, advance, take_retired.
  destruct (Z.ltb_spec (global_epoch_ m) 2); simpl; [by exists l|].
  exists l. split; [|done].
  change (<[bucket_of (global_epoch_ m - 2) := []]> (retired_ m) !! b = Some l).
  by rewrite list_lookup_insert_ne by auto.
Qed.

Lemma try_gc_deletes p m :
  2 ≤ global_epoch_ m → waits p (bucket_of (global_epoch_ m - 2)) m →
  p ∈ deleted_ (try_gc m).2.
Proof.
  intros Hg (l & Hl & Hp). unfold try_gc, advance, take_retired.
  destruct (Z.ltb_spec (global_epoch_ m) 2); [lia|]. simpl. rewrite Hl. simpl.
  apply elem_of_app. by right.
Qed.

Lemma bucket_eq a b : bucket_of a = bucket_of b ↔ a mod 3 = b mod 3.
Proof.
  unfold bucket_of, NUM_EPOCHS. pose proof (Z.mod_pos_bound a 3). pose proof (Z.mod_pos_bound b 3).
  split; [lia|congruence].
Qed.

Lemma bucket_minus e : bucket_of (e + 2 - 2) = bucket_of e.
Proof. f_equal. lia. Qed.

Lemma bucket_other e k : k = 1 ∨ k = 2 → bucket_of (e - k) ≠ bucket_of e.
Proof.
  intros Hk E%bucket_eq. pose proof (Z.div_mod e 3). pose proof (Z.div_mod (e - k) 3).
  pose proof (Z.mod_pos_bound e 3). lia.
Qed.

(** ** Properties *)

(** C17. In every interleaving of [defer_delete], [try_gc] and pinning by any
    number of threads, each pointer given to [defer_delete] is in exactly one
    place: held by a call in progress, on a retire list, or deleted.  So none
    is lost, and none is deleted more often than it was retired. *)
Theorem deferred_conserved threads s :
  reachable threads s →
  deferred_ s ≡ₚ concat (holds <$> calls s) ++ concat (retired_ (manager s)) ++ deleted_ (manager s).
Proof. intros H. apply (con_places _ (reachable_conserved _ _ H)). Qed.

(** C40. The age of a retired pointer: without interference the two [try_gc] calls
    after [defer_delete] leave it on its list, and the third deletes it.  No
    reader delays this: a thread that was in its critical section before the
    retirement is still there when the pointer is deleted. *)
Theorem third_gc_deletes p i m :
  0 ≤ global_epoch_ m < 2 ^ 64 - 3 → length (retired_ m) = 3%nat →
  in_critical_section i m = true →
  let m0 := defer_delete (Some p) m in
  let m1 := (try_gc m0).2 in
  let m2 := (try_gc m1).2 in
  let m3 := (try_gc m2).2 in
  p ∈ concat (retired_ m1) ∧ p ∈ concat (retired_ m2) ∧ p ∈ deleted_ m3 ∧
  in_critical_section i m3 = true.
Proof.
  intros Hg Hl Hc m0 m1 m2 m3. set (e := global_epoch_ m) in *.
  assert (waits p (bucket_of e) m0) as W0.
  { pose proof (bucket_of_lt e). destruct (lookup_lt_is_Some_2 (retired_ m) (bucket_of e)) as [l El]; [lia|].
    exists (l ++ [p]). unfold m0, defer_delete, append_retired. simpl. fold e.
    rewrite list_lookup_alter_eq, El. split; [done|]. apply elem_of_app. right. by left. }
  assert (global_epoch_ m0 = e ∧ thread_epoch m0 = thread_epoch m) as [E0 T0] by done.
  destruct (try_gc_epoch m0) as [E1 T1]; [lia|]. fold m1 in E1, T1.
  destruct (try_gc_epoch m1) as [E2 T2]; [lia|]. fold m2 in E2, T2.
  destruct (try_gc_epoch m2) as [E3 T3]; [lia|]. fold m3 in E3, T3.
  assert (waits p (bucket_of e) m1) as W1.
  { apply try_gc_waits; [done|]. intros _. rewrite E0. apply bucket_other. by right. }
  assert (waits p (bucket_of e) m2) as W2.
  { apply try_gc_waits; [done|]. intros _. rewrite E1, E0. replace (e + 1 - 2) with (e - 1) by lia.
    apply bucket_other. by left. }
  assert (∀ m', waits p (bucket_of e) m' → p ∈ concat (retired_ m')) as Hw.
  { intros m' (l & El & ?). apply list_elem_of_In, in_concat. exists l.
    rewrite <-!list_elem_of_In. eauto using list_elem_of_lookup_2. }
  split_and!; [by apply Hw|by apply Hw| |].
  - apply try_gc_deletes; rewrite E2, E1, E0; [lia|].
    replace (e + 1 + 1 - 2) with e by lia. done.
  - unfold in_critical_section in *. by rewrite T3, T2, T1, T0.
Qed.

Lemma deferred_conserved_witness :
  let s := System (append_retired 0 1%positive new) [Idle] [1%positive] in
  deferred_ s ≡ₚ concat (holds <$> calls s) ++ concat (retired_ (manager s)) ++ deleted_ (manager s).
Proof.
  apply (deferred_conserved 1 (System (append_retired 0 1%positive new) [Idle] [1%positive])).
  apply (rtc_l _ _ (System new [Deferring 1 0] [1%positive])).
  - exists 0%nat. apply (step_defer_load 0 new [Idle] [] 1). reflexivity.
  - apply rtc_once. exists 0%nat. apply (step_defer_append 0 new [Deferring 1 0] [1%positive] 1 0). reflexivity.
Defined.

Lemma third_gc_deletes_witness :
  1%positive ∈ deleted_ (try_gc (try_gc (try_gc (defer_delete (Some 1%positive)
     (enter_critical 0 new))).2).2).2.
Proof.
  apply (third_gc_deletes 1 0 (enter_critical 0 new)); [split; [discriminate|reflexivity]
    |reflexivity|reflexivity].
Defined.

(** A guard does not nest: when the inner one ends, its thread is in no critical
    section, although the outer one goes on. *)
Theorem inner_guard_unpins i body m :
  in_critical_section i (guarded i body (guard_enter i m)) = false ∧
  in_critical_section i (guard_exit i (guarded i body (guard_enter i m))) = false.
Proof.
  unfold guarded, guard_exit, exit_critical, in_critical_section, with_thread. simpl.
  by rewrite !lookup_insert_eq.
Qed.

(** The destructor deletes what is left, in the order of the buckets. *)
Theorem destroy_deletes_all m :
  length (retired_ m) = 3%nat →
  deleted_ (destroy m) = deleted_ m ++ concat (retired_ m) ∧ pending_count (destroy m) = 0.
Proof.
  intros H. destruct m as [e te g r [|b0 [|b1 [|b2 [|]]]] d]; try done.
  unfold destroy, force_gc. simpl.
  case_match; simpl; split; try done; by rewrite <-!app_assoc, app_nil_r.
Qed.
