(* ===== verification/Simd.v ===== *)
(** * SIMD reductions: [internal/simd_policies.h], [internal/simd_processor.{h,cpp}]

    Sums, minima and maxima of arrays of [float] and [double], once as policy
    classes chosen by the client ([scalar_simd_policy] to [neon_simd_policy]
    behind [simd_ops]) and once as private functions of [simd_processor], which
    the build's macros choose.  An array is a list of bit patterns with the
    [count] the caller passes; a read past its end is [None].  A vector
    register is the list of its lanes.

    The intrinsics come with the compiler: addition, loads, [hadd] and the
    extraction of halves are lane by lane what their names say and are written
    out; the lane-wise minimum and maximum of each instruction set and the
    three [_mm512_reduce] sequences are the class [Intrinsics], with their
    documented behaviour in [IntrinsicsSpec]. *)

From S2P Require Import Prelude Float Regex Numbers Decimal FloatArith FloatSum Types Value.

(** [std::numeric_limits<float>::max()] and [lowest()] *)
Definition float_max : Z := infinity f32 - 1.
Definition float_lowest : Z := f_neg f32 float_max.

(** ** The compiler's intrinsics *)

(** The lanes of the x86 minimum and maximum ([_mm_min_ps], [_mm256_min_ps],
    [_mm512_min_ps] are the same instruction at three widths), the NEON ones,
    and the reductions of a 512-bit register. *)
Class Intrinsics : Type := {
  minps : Z → Z → Z; maxps : Z → Z → Z;
  vminq : Z → Z → Z; vmaxq : Z → Z → Z;
  reduce_add_ps : list Z → Z; reduce_add_pd : list Z → Z;
  reduce_min_ps : list Z → Z; reduce_max_ps : list Z → Z }.

Definition setzero (w : nat) : list Z := replicate w 0.
Definition set1 (w : nat) (a : Z) : list Z := replicate w a.
Definition lanewise (op : Z → Z → Z) : list Z → list Z → list Z := zip_with op.
Definition add_ps : list Z → list Z → list Z := lanewise (f_add f32).
Definition add_pd : list Z → list Z → list Z := lanewise (f_add f64).

(** [_mm_hadd_ps]: the sums of neighbours of [a], then those of [b]. *)
Definition hadd_ps (a b : list Z) : list Z :=
  match a, b with
  | [a0; a1; a2; a3], [b0; b1; b2; b3] =>
      [f_add f32 a0 a1; f_add f32 a2 a3; f_add f32 b0 b1; f_add f32 b2 b3]
  | _, _ => []
  end.

(** [_mm_cvtss_f32], [_mm256_castps256_ps128] and [_mm256_extractf128_ps(v, 1)];
    [vget_low_f32] and [vget_high_f32]; [vget_lane_f32]. *)
Definition cvtss (v : list Z) : Z := hd 0 v.
Definition low_half (n : nat) (v : list Z) : list Z := take n v.
Definition high_half (n : nat) (v : list Z) : list Z := drop n v.
Definition lane (v : list Z) (i : nat) : Z := default 0 (v !! i).

(** ** The loops the functions share *)

(** [loadu(&data[i])]: all lanes lie inside the array. *)
Definition loadu (w : nat) (data : list Z) (i : nat) : option (list Z) :=
  if (i + w <=? length data)%nat then Some (take w (drop i data)) else None.

(** [for (i = 0; i < simd_end; i += w) acc = op(acc, loadu(&data[i]))], with
    [n] rounds to go. *)
Fixpoint vec_loop (op : list Z → list Z → list Z) (w : nat) (data : list Z)
    (n i : nat) (acc : list Z) : option (list Z) :=
  match n with
  | O => Some acc
  | S n' => vec ← loadu w data i; vec_loop op w data n' (i + w) (op acc vec)
  end.

(** [for (size_t i = simd_end; i < count; ++i) acc = step(acc, data[i])] *)
Fixpoint scalar_loop (step : Z → Z → Z) (data : list Z) (n i : nat) (acc : Z) : option Z :=
  match n with
  | O => Some acc
  | S n' => x ← data !! i; scalar_loop step data n' (S i) (step acc x)
  end.

(** [count - (count % w)] *)
Definition simd_end (w count : nat) : nat := (count - count mod w)%nat.

(** The vector loop over the whole blocks. *)
Definition vec_part (op : list Z → list Z → list Z) (w : nat) (data : list Z) (count : nat)
    (init : list Z) : option (list Z) :=
  vec_loop op w data (simd_end w count / w)%nat 0 init.

(** The loop over the remaining elements. *)
Definition tail_part (step : Z → Z → Z) (w : nat) (data : list Z) (count : nat) (acc : Z)
    : option Z :=
  scalar_loop step data (count - simd_end w count)%nat (simd_end w count) acc.

(** [if (x < min_val) min_val = x;] and [if (x > max_val) max_val = x;] *)
Definition min_step (min_val x : Z) : Z := if f_ltb f32 x min_val then x else min_val.
Definition max_step (max_val x : Z) : Z := if f_ltb f32 max_val x then x else max_val.

(** [val = result[0]; for (i = 1; i < w; ++i) step] on the stored register. *)
Definition extract (step : Z → Z → Z) (v : list Z) : Z :=
  match v with
  | [] => 0
  | r0 :: rest => foldl step r0 rest
  end.

(** ** [simd_policies.h] *)

Module scalar_simd_policy.
Definition name : string := "scalar".
Definition simd_width : nat := 1.

Definition sum_floats (data : list Z) (count : nat) : option Z :=
  scalar_loop (f_add f32) data count 0 0.

(** The loop starts at [i = 1] from [data[0]]. *)
Definition min_float (data : list Z) (count : nat) : option Z :=
  if (count =? 0)%nat then Some float_max
  else x ← data !! 0%nat; scalar_loop min_step data (count - 1) 1 x.

Definition max_float (data : list Z) (count : nat) : option Z :=
  if (count =? 0)%nat then Some float_lowest
  else x ← data !! 0%nat; scalar_loop max_step data (count - 1) 1 x.

Definition sum_doubles (data : list Z) (count : nat) : option Z :=
  scalar_loop (f_add f64) data count 0 0.
End scalar_simd_policy.

Module sse_simd_policy.
Definition name : string := "sse".
Definition simd_width : nat := 4.

Definition sum_floats (data : list Z) (count : nat) : option Z :=
  sum_vec ← vec_part add_ps 4 data count (setzero 4);
  let sum_vec := hadd_ps sum_vec sum_vec in
  let sum_vec := hadd_ps sum_vec sum_vec in
  tail_part (f_add f32) 4 data count (cvtss sum_vec).

Definition min_float `{Intrinsics} (data : list Z) (count : nat) : option Z :=
  if (count =? 0)%nat then Some float_max
  else
    min_vec ← vec_part (lanewise minps) 4 data count (set1 4 float_max);
    tail_part min_step 4 data count (extract min_step min_vec).

Definition max_float `{Intrinsics} (data : list Z) (count : nat) : option Z :=
  if (count =? 0)%nat then Some float_lowest
  else
    max_vec ← vec_part (lanewise maxps) 4 data count (set1 4 float_lowest);
    tail_part max_step 4 data count (extract max_step max_vec).

Definition sum_doubles (data : list Z) (count : nat) : option Z :=
  scalar_loop (f_add f64) data count 0 0.
End sse_simd_policy.

Module avx2_simd_policy.
Definition name : string := "avx2".
Definition simd_width : nat := 8.

Definition sum_floats (data : list Z) (count : nat) : option Z :=
  sum_vec ← vec_part add_ps 8 data count (setzero 8);
  let low := low_half 4 sum_vec in
  let high := high_half 4 sum_vec in
  let sum128 := add_ps low high in
  let sum128 := hadd_ps sum128 sum128 in
  let sum128 := hadd_ps sum128 sum128 in
  tail_part (f_add f32) 8 data count (cvtss sum128).

Definition min_float `{Intrinsics} (data : list Z) (count : nat) : option Z :=
  if (count =? 0)%nat then Some float_max
  else
    min_vec ← vec_part (lanewise minps) 8 data count (set1 8 float_max);
    tail_part min_step 8 data count (extract min_step min_vec).

Definition max_float `{Intrinsics} (data : list Z) (count : nat) : option Z :=
  if (count =? 0)%nat then Some float_lowest
  else
    max_vec ← vec_part (lanewise maxps) 8 data count (set1 8 float_lowest);
    tail_part max_step 8 data count (extract max_step max_vec).

Definition sum_doubles (data : list Z) (count : nat) : option Z :=
  scalar_loop (f_add f64) data count 0 0.
End avx2_simd_policy.

Module avx512_simd_policy.
Definition name : string := "avx512".
Definition simd_width : nat := 16.

Definition sum_floats `{Intrinsics} (data : list Z) (count : nat) : option Z :=
  sum_vec ← vec_part add_ps 16 data count (setzero 16);
  tail_part (f_add f32) 16 data count (reduce_add_ps sum_vec).

Definition min_float `{Intrinsics} (data : list Z) (count : nat) : option Z :=
  if (count =? 0)%nat then Some float_max
  else
    min_vec ← vec_part (lanewise minps) 16 data count (set1 16 float_max);
    tail_part min_step 16 data count (reduce_min_ps min_vec).

Definition max_float `{Intrinsics} (data : list Z) (count : nat) : option Z :=
  if (count =? 0)%nat then Some float_lowest
  else
    max_vec ← vec_part (lanewise maxps) 16 data count (set1 16 float_lowest);
    tail_part max_step 16 data count (reduce_max_ps max_vec).

Definition sum_doubles `{Intrinsics} (data : list Z) (count : nat) : option Z :=
  sum_vec ← vec_part add_pd 8 data count (setzero 8);
  tail_part (f_add f64) 8 data count (reduce_add_pd sum_vec).
End avx512_simd_policy.

Module neon_simd_policy.
Definition name : string := "neon".
Definition simd_width : nat := 4.

Definition sum_floats (data : list Z) (count : nat) : option Z :=
  sum_vec ← vec_part add_ps 4 data count (setzero 4);
  let sum_low := low_half 2 sum_vec in
  let sum_high := high_half 2 sum_vec in
  let sum_pair := add_ps sum_low sum_high in
  let sum := f_add f32 (lane sum_pair 0) (lane sum_pair 1) in
  tail_part (f_add f32) 4 data count sum.

Definition min_float `{Intrinsics} (data : list Z) (count : nat) : option Z :=
  if (count =? 0)%nat then Some float_max
  else
    min_vec ← vec_part (lanewise vminq) 4 data count (set1 4 float_max);
    tail_part min_step 4 data count (extract min_step min_vec).

Definition max_float `{Intrinsics} (data : list Z) (count : nat) : option Z :=
  if (count =? 0)%nat then Some float_lowest
  else
    max_vec ← vec_part (lanewise vmaxq) 4 data count (set1 4 float_lowest);
    tail_part max_step 4 data count (extract max_step max_vec).

Definition sum_doubles (data : list Z) (count : nat) : option Z :=
  scalar_loop (f_add f64) data count 0 0.
End neon_simd_policy.

(** The concept [SimdPolicy] with the extra [sum_doubles] every policy has, and
    the instances in the order of the selection of [default_simd_policy]. *)
Record policy : Type := Policy {
  name_of : string; policy_width : nat;
  p_sum_floats : list Z → nat → option Z; p_min_float : list Z → nat → option Z;
  p_max_float : list Z → nat → option Z; p_sum_doubles : list Z → nat → option Z }.

Inductive policies : Type := scalar | sse | avx2 | avx512 | neon.

#[export] Instance policies_eq : EqDecision policies.
Proof. solve_decision. Defined.

Definition policy_of `{Intrinsics} (p : policies) : policy :=
  match p with
  | scalar => Policy scalar_simd_policy.name scalar_simd_policy.simd_width scalar_simd_policy.sum_floats
      scalar_simd_policy.min_float scalar_simd_policy.max_float scalar_simd_policy.sum_doubles
  | sse => Policy sse_simd_policy.name sse_simd_policy.simd_width sse_simd_policy.sum_floats
      sse_simd_policy.min_float sse_simd_policy.max_float sse_simd_policy.sum_doubles
  | avx2 => Policy avx2_simd_policy.name avx2_simd_policy.simd_width avx2_simd_policy.sum_floats
      avx2_simd_policy.min_float avx2_simd_policy.max_float avx2_simd_policy.sum_doubles
  | avx512 => Policy avx512_simd_policy.name avx512_simd_policy.simd_width avx512_simd_policy.sum_floats
      avx512_simd_policy.min_float avx512_simd_policy.max_float avx512_simd_policy.sum_doubles
  | neon => Policy neon_simd_policy.name neon_simd_policy.simd_width neon_simd_policy.sum_floats
      neon_simd_policy.min_float neon_simd_policy.max_float neon_simd_policy.sum_doubles
  end.

(** The preprocessor symbols that decide what is compiled. *)
Record build : Type := Build {
  HAS_X86 : bool; HAS_AVX512 : bool; HAS_AVX2 : bool; HAS_SSE42 : bool; HAS_SSE2 : bool;
  HAS_ARM_NEON : bool }.

Definition default_simd_policy (b : build) : policies :=
  if HAS_AVX512 b then avx512
  else if HAS_AVX2 b then avx2
  else if HAS_SSE42 b || HAS_SSE2 b then sse
  else if HAS_ARM_NEON b then neon
  else scalar.

(** [simd_ops<Policy>]: every member delegates to the policy. *)
Module simd_ops.
Section Ops.
Context `{Intrinsics} (Policy : policies).

Definition policy_name : string := name_of (policy_of Policy).
Definition simd_width : nat := policy_width (policy_of Policy).
Definition sum_floats : list Z → nat → option Z := p_sum_floats (policy_of Policy).
Definition min_float : list Z → nat → option Z := p_min_float (policy_of Policy).
Definition max_float : list Z → nat → option Z := p_max_float (policy_of Policy).
Definition sum_doubles : list Z → nat → option Z := p_sum_doubles (policy_of Policy).
End Ops.
End simd_ops.

(** ** [simd_batch<TValue>]: the array a client fills for the operations *)

Module simd_batch.
Section Batch.
Context {TValue : Type}.

(** [values_]; [reserve] only allocates. *)
Definition new (reserve : nat) : list TValue := [].
Definition push (value : TValue) (values_ : list TValue) : list TValue := values_ ++ [value].
Definition values (values_ : list TValue) : list TValue := values_.
Definition size (values_ : list TValue) : nat := length values_.
Definition clear (values_ : list TValue) : list TValue := [].
End Batch.
End simd_batch.

(** ** [simd_processor.cpp] *)

Module simd_processor.

Definition sum_floats_scalar (data : list Z) (count : nat) : option Z :=
  scalar_loop (f_add f32) data count 0 0.

Definition min_float_scalar (data : list Z) (count : nat) : option Z :=
  if (count =? 0)%nat then Some float_max
  else x ← data !! 0%nat; scalar_loop min_step data (count - 1) 1 x.

Definition max_float_scalar (data : list Z) (count : nat) : option Z :=
  if (count =? 0)%nat then Some float_lowest
  else x ← data !! 0%nat; scalar_loop max_step data (count - 1) 1 x.

Section Processor.
Context `{Intrinsics}.

Definition sum_floats_avx512 (data : list Z) (count : nat) : option Z :=
  sum_vec ← vec_part add_ps 16 data count (setzero 16);
  tail_part (f_add f32) 16 data count (reduce_add_ps sum_vec).

Definition min_float_avx512 (data : list Z) (count : nat) : option Z :=
  if (count =? 0)%nat then Some float_max
  else
    min_vec ← vec_part (lanewise minps) 16 data count (set1 16 float_max);
    tail_part min_step 16 data count (reduce_min_ps min_vec).

Definition max_float_avx512 (data : list Z) (count : nat) : option Z :=
  if (count =? 0)%nat then Some float_lowest
  else
    max_vec ← vec_part (lanewise maxps) 16 data count (set1 16 float_lowest);
    tail_part max_step 16 data count (reduce_max_ps max_vec).

Definition sum_doubles_avx512 (data : list Z) (count : nat) : option Z :=
  sum_vec ← vec_part add_pd 8 data count (setzero 8);
  tail_part (f_add f64) 8 data count (reduce_add_pd sum_vec).

Definition sum_floats_avx2 (data : list Z) (count : nat) : option Z :=
  sum_vec ← vec_part add_ps 8 data count (setzero 8);
  let low := low_half 4 sum_vec in
  let high := high_half 4 sum_vec in
  let sum128 := add_ps low high in
  let sum128 := hadd_ps sum128 sum128 in
  let sum128 := hadd_ps sum128 sum128 in
  tail_part (f_add f32) 8 data count (cvtss sum128).

Definition min_float_avx2 (data : list Z) (count : nat) : option Z :=
  if (count =? 0)%nat then Some float_max
  else
    min_vec ← vec_part (lanewise minps) 8 data count (set1 8 float_max);
    tail_part min_step 8 data count (extract min_step min_vec).

Definition max_float_avx2 (data : list Z) (count : nat) : option Z :=
  if (count =? 0)%nat then Some float_lowest
  else
    max_vec ← vec_part (lanewise maxps) 8 data count (set1 8 float_lowest);
    tail_part max_step 8 data count (extract max_step max_vec).

Definition sum_floats_sse (data : list Z) (count : nat) : option Z :=
  sum_vec ← vec_part add_ps 4 data count (setzero 4);
  let sum_vec := hadd_ps sum_vec sum_vec in
  let sum_vec := hadd_ps sum_vec sum_vec in
  tail_part (f_add f32) 4 data count (cvtss sum_vec).

Definition min_float_sse (data : list Z) (count : nat) : option Z :=
  if (count =? 0)%nat then Some float_max
  else
    min_vec ← vec_part (lanewise minps) 4 data count (set1 4 float_max);
    tail_part min_step 4 data count (extract min_step min_vec).

Definition max_float_sse (data : list Z) (count : nat) : option Z :=
  if (count =? 0)%nat then Some float_lowest
  else
    max_vec ← vec_part (lanewise maxps) 4 data count (set1 4 float_lowest);
    tail_part max_step 4 data count (extract max_step max_vec).

Definition sum_floats_neon (data : list Z) (count : nat) : option Z :=
  sum_vec ← vec_part add_ps 4 data count (setzero 4);
  let sum_low := low_half 2 sum_vec in
  let sum_high := high_half 2 sum_vec in
  let sum_pair := add_ps sum_low sum_high in
  let sum := f_add f32 (lane sum_pair 0) (lane sum_pair 1) in
  tail_part (f_add f32) 4 data count sum.

Definition min_float_neon (data : list Z) (count : nat) : option Z :=
  if (count =? 0)%nat then Some float_max
  else
    min_vec ← vec_part (lanewise vminq) 4 data count (set1 4 float_max);
    tail_part min_step 4 data count (extract min_step min_vec).

Definition max_float_neon (data : list Z) (count : nat) : option Z :=
  if (count =? 0)%nat then Some float_lowest
  else
    max_vec ← vec_part (lanewise vmaxq) 4 data count (set1 4 float_lowest);
    tail_part max_step 4 data count (extract max_step max_vec).

Context {C : Type} (b : build).

(** The elements [std::get_if<float>] finds, in order. *)
Definition floats_of (values : list (ValueVariant C)) : list Z :=
  omap (λ v, match v with V_float f => Some f | _ => None end) values.

Definition HAS_SSE : bool := HAS_X86 b && (HAS_SSE2 b || HAS_SSE42 b).

(** Outer [option]: the reads stay inside the vector; inner one: [std::optional]. *)
Definition sum_floats (values : list (ValueVariant C)) : option Z :=
  let floats := floats_of values in
  if (length floats =? 0)%nat then Some 0
  else if HAS_AVX512 b then sum_floats_avx512 floats (length floats)
  else if HAS_AVX2 b then sum_floats_avx2 floats (length floats)
  else if HAS_SSE then sum_floats_sse floats (length floats)
  else if HAS_ARM_NEON b then sum_floats_neon floats (length floats)
  else sum_floats_scalar floats (length floats).

Definition sum_doubles (values : list (ValueVariant C)) : Z :=
  foldl (λ sum v, match v with V_double d => f_add f64 sum d | _ => sum end) 0 values.

Definition min_float (values : list (ValueVariant C)) : option (option Z) :=
  let floats := floats_of values in
  if (length floats =? 0)%nat then Some None
  else fmap Some
    (if HAS_AVX512 b then min_float_avx512 floats (length floats)
     else if HAS_AVX2 b then min_float_avx2 floats (length floats)
     else if HAS_SSE then min_float_sse floats (length floats)
     else if HAS_ARM_NEON b then min_float_neon floats (length floats)
     else min_float_scalar floats (length floats)).

Definition max_float (values : list (ValueVariant C)) : option (option Z) :=
  let floats := floats_of values in
  if (length floats =? 0)%nat then Some None
  else fmap Some
    (if HAS_AVX512 b then max_float_avx512 floats (length floats)
     else if HAS_AVX2 b then max_float_avx2 floats (length floats)
     else if HAS_SSE then max_float_sse floats (length floats)
     else if HAS_ARM_NEON b then max_float_neon floats (length floats)
     else max_float_scalar floats (length floats)).

(** [for (i = 0; i < values.size(); ++i)] with the indices pushed so far. *)
Fixpoint find_equal_loop (values : list (ValueVariant C)) (target : Z) (i : nat)
    (indices : list nat) : list nat :=
  match values with
  | [] => indices
  | v :: values' =>
      let indices :=
        match v with
        | V_float f => if f_eqb f32 f target then indices ++ [i] else indices
        | _ => indices
        end in
      find_equal_loop values' target (S i) indices
  end.

Definition find_equal_floats (values : list (ValueVariant C)) (target : Z) : list nat :=
  find_equal_loop values target 0 [].
End Processor.

(** [memcpy(dst, src, size)]: both ranges hold [size] bytes; the rest of [dst] stays. *)
Definition fast_copy (src dst : list byte) (size : nat) : option (list byte) :=
  if bool_decide (size ≤ length src ∧ size ≤ length dst)%nat
  then Some (take size src ++ drop size dst) else None.

(** [memcmp(a, b, size) == 0] *)
Definition fast_compare (a b : list byte) (size : nat) : option bool :=
  if bool_decide (size ≤ length a ∧ size ≤ length b)%nat
  then Some (bool_decide (take size a = take size b)) else None.
End simd_processor.

(** ** Detection *)

Inductive simd_level : Type := L_none | L_sse2 | L_sse42 | L_avx2 | L_avx512 | L_neon.

Module simd_support.

(** The registers [__get_cpuid] and [__get_cpuid_count] fill, when they know the
    leaf; the compiler's header and the processor are not part of the program. *)
Record registers : Type := Registers { ebx : Z; ecx : Z; edx : Z }.

Section Support.
Context (b : build) (gnu : bool) (get_cpuid : Z → option registers).

(** One bit of one register of a leaf, on x86 with GCC or Clang. *)
Definition cpuid_bit (leaf : Z) (reg : registers → Z) (n : Z) : bool :=
  if HAS_X86 b && gnu then
    match get_cpuid leaf with
    | Some r => negb (Z.land (reg r) (Z.shiftl 1 n) =? 0)
    | None => false
    end
  else false.

Definition has_sse2 : bool := cpuid_bit 1 edx 26.
Definition has_sse42 : bool := cpuid_bit 1 ecx 20.
Definition has_avx2 : bool := cpuid_bit 7 ebx 5.
Definition has_avx512f : bool := cpuid_bit 7 ebx 16.
Definition has_avx512dq : bool := cpuid_bit 7 ebx 17.
Definition has_avx512bw : bool := cpuid_bit 7 ebx 30.
Definition has_avx512vl : bool := cpuid_bit 7 ebx 31.
Definition has_neon : bool := HAS_ARM_NEON b.

Definition get_best_simd_level : simd_level :=
  if HAS_ARM_NEON b then L_neon
  else if has_avx512f then L_avx512
  else if has_avx2 then L_avx2
  else if has_sse42 then L_sse42
  else if has_sse2 then L_sse2
  else L_none.

Definition get_optimal_width : nat :=
  if HAS_AVX512 b then 16
  else if HAS_AVX2 b then 8
  else if HAS_SSE42 b || HAS_SSE2 b || HAS_ARM_NEON b then 4
  else 1.

Definition get_simd_info : string :=
  let info := "SIMD Support: " in
  let info := info +:+
    (if HAS_AVX512 b then "AVX-512 "
     else if HAS_AVX2 b then "AVX2 "
     else if HAS_SSE42 b then "SSE4.2 "
     else if HAS_SSE2 b then "SSE2 "
     else if HAS_ARM_NEON b then "NEON "
     else "None ") in
  let info := info +:+ "(Compile-time), Runtime: " in
  let info := info +:+
    (if has_avx512f then
       "AVX-512F " +:+ (if has_avx512dq then "AVX-512DQ " else "") +:+
       (if has_avx512bw then "AVX-512BW " else "") +:+
       (if has_avx512vl then "AVX-512VL " else "")
     else if has_avx2 then "AVX2 "
     else if has_sse42 then "SSE4.2 "
     else if has_sse2 then "SSE2 "
     else if has_neon then "NEON "
     else "None ") in
  info +:+ "(Width: " +:+ to_string (Z.of_nat get_optimal_width) +:+ ")".
End Support.
End simd_support.
