(* ===== verification/SimdFacts.v ===== *)
(** * Properties of the SIMD reductions

    Every kernel is a [reduction]: it combines the elements of the array and
    the start values of its lanes, each exactly once, in some order and
    bracketing.  From that come the properties of the sums (exact, hence equal
    for all policies, when the values lie on a common grid) and of the minima
    and maxima. *)

From S2P Require Import Prelude Float Regex Numbers Decimal FloatArith FloatSum.
From S2P Require Import Types Value Simd.
#[local] Hint Resolve pow2_pos : core.

(** ** Reductions *)

(** [r] combines the elements of [xs] with steps of [R], in any order. *)
Inductive reduction (R : Z → Z → Z → Prop) : list Z → Z → Prop :=
| red_one x : reduction R [x] x
| red_join xs ys zs a b c :
    reduction R xs a → reduction R ys b → R a b c → zs ≡ₚ xs ++ ys → reduction R zs c.

Section Reduction.
Context (R : Z → Z → Z → Prop).

Lemma red_perm xs ys r : xs ≡ₚ ys → reduction R xs r → reduction R ys r.
Proof.
  intros Hp Hr. destruct Hr as [x|xs' ys' zs a b c Ha Hb Hc E].
  - apply Permutation_length_1_inv in Hp as ->. constructor.
  - eapply red_join; [exact Ha|exact Hb|exact Hc|]. by rewrite <-Hp.
Qed.

Lemma red_snoc xs a x c : reduction R xs a → R a x c → reduction R (xs ++ [x]) c.
Proof. intros Ha Hc. eapply red_join; [exact Ha|constructor|exact Hc|done]. Qed.

(** Each leaf may itself be a reduction. *)
Lemma red_join_parts parts acc r :
  Forall2 (reduction R) parts acc → reduction R acc r → reduction R (mjoin parts) r.
Proof.
  intros Hp Hr. revert parts Hp. induction Hr as [x|xs ys zs a b c _ IHa _ IHb Hc E]; intros parts Hp.
  - apply Forall2_cons_inv_r in Hp as (p & ps & Hx & Hnil & ->).
    apply Forall2_nil_inv_r in Hnil as ->. simpl. by rewrite app_nil_r.
  - apply Forall2_flip in Hp. destruct (Permutation_Forall2 E Hp) as (parts' & Hp' & HF).
    apply Forall2_flip, Forall2_app_inv_r in HF as (p1 & p2 & H1 & H2 & ->).
    apply (red_perm (mjoin p1 ++ mjoin p2)).
    { rewrite <-join_app. by rewrite Hp'. }
    eapply red_join; [by apply IHa|by apply IHb|exact Hc|done].
Qed.

Lemma foldl_red step rest : (∀ a x, R a x (step a x)) →
  ∀ xs a, reduction R xs a → reduction R (xs ++ rest) (foldl step a rest).
Proof.
  intros HR. induction rest as [|x rest IH]; intros xs a Ha; simpl; [by rewrite app_nil_r|].
  rewrite cons_middle, (assoc_L (++)). apply IH. by eapply red_snoc.
Qed.

(** The loops. *)
Lemma scalar_loop_red step data n : (∀ a x, R a x (step a x)) →
  ∀ i xs acc, (i + n ≤ length data)%nat → reduction R xs acc →
  ∃ r, scalar_loop step data n i acc = Some r ∧ reduction R (xs ++ take n (drop i data)) r.
Proof.
  intros HR. induction n as [|n IH]; intros i xs acc Hi Hacc; simpl.
  - exists acc. by rewrite take_0, app_nil_r.
  - destruct (lookup_lt_is_Some_2 data i ltac:(lia)) as [x Hx]. rewrite Hx. cbn.
    destruct (IH (S i) (xs ++ [x]) (step acc x)) as (r & Hr & Hred);
      [lia|by eapply red_snoc|].
    exists r. split; [exact Hr|]. rewrite (drop_S _ _ _ Hx). cbn [take].
    by rewrite <-(assoc_L (++)) in Hred.
Qed.

Lemma lanes_step op parts acc vec :
  (∀ a x, R a x (op a x)) → length vec = length acc →
  Forall2 (reduction R) parts acc →
  ∃ parts', Forall2 (reduction R) parts' (zip_with op acc vec) ∧
    mjoin parts' ≡ₚ mjoin parts ++ vec.
Proof.
  intros HR Hlen HF. revert vec Hlen. induction HF as [|p a parts acc Hp _ IH]; intros vec Hlen.
  - destruct vec; [|done]. by exists [].
  - destruct vec as [|x vec]; [done|]. destruct (IH vec) as (parts' & HF' & HP); [by injection Hlen|].
    exists ((p ++ [x]) :: parts'). split.
    + simpl. constructor; [by eapply red_snoc|done].
    + simpl. rewrite HP. solve_Permutation.
Qed.

Lemma vec_loop_red op w data n : (∀ a x, R a x (op a x)) →
  ∀ i parts acc, (i + n * w ≤ length data)%nat → length acc = w →
  Forall2 (reduction R) parts acc →
  ∃ acc' parts', vec_loop (lanewise op) w data n i acc = Some acc' ∧ length acc' = w ∧
    Forall2 (reduction R) parts' acc' ∧ mjoin parts' ≡ₚ mjoin parts ++ take (n * w) (drop i data).
Proof.
  intros HR. induction n as [|n IH]; intros i parts acc Hi Hw HF; simpl.
  - exists acc, parts. by rewrite take_0, app_nil_r.
  - unfold loadu. rewrite (proj2 (Nat.leb_le _ _)) by lia. cbn.
    set (vec := take w (drop i data)).
    assert (length vec = w) as Hvec by (unfold vec; rewrite length_take, length_drop; lia).
    destruct (lanes_step op parts acc vec HR) as (parts1 & HF1 & HP1); [by rewrite Hvec|done|].
    destruct (IH (i + w)%nat parts1 (lanewise op acc vec)) as (acc' & parts' & E & Hl & HF' & HP');
      [lia|unfold lanewise; rewrite length_zip_with; lia|done|].
    exists acc', parts'. split_and!; [done..|]. rewrite HP', HP1, <-(assoc_L (++)).
    unfold vec. by rewrite <-drop_drop, take_take_drop.
Qed.
Lemma red_app xs ys a b c :
  reduction R xs a → reduction R ys b → R a b c → reduction R (xs ++ ys) c.
Proof. intros Ha Hb Hc. by apply (red_join R xs ys (xs ++ ys) a b). Qed.

Lemma extract_red step v : (∀ a x, R a x (step a x)) → v ≠ [] → reduction R v (extract step v).
Proof.
  intros HR Hv. destruct v as [|r0 rest]; [done|]. apply (foldl_red step rest HR [r0]). constructor.
Qed.

(** A whole kernel: blocks of [w] lanes from [init], a horizontal step [fin],
    the rest of the array.  All reads stay inside it. *)
Lemma kernel_red w op step fin init data count :
  w ≠ 0%nat → (∀ a x, R a x (op a x)) → (∀ a x, R a x (step a x)) →
  (∀ v, length v = w → reduction R v (fin v)) → (count ≤ length data)%nat →
  ∃ r, (v ← vec_part (lanewise op) w data count (replicate w init);
        tail_part step w data count (fin v)) = Some r ∧
    reduction R (replicate w init ++ take count data) r.
Proof.
  intros Hw Hop Hstep Hfin Hcount. unfold vec_part, tail_part.
  pose proof (Nat.Div0.mod_le count w). pose proof (Nat.Div0.div_mod count w).
  assert (simd_end w count / w = count / w ∧ simd_end w count = count / w * w)%nat as [E1 E2].
  { unfold simd_end. assert (count - count mod w = count / w * w)%nat as -> by lia.
    by rewrite Nat.div_mul. }
  destruct (vec_loop_red op w data (simd_end w count / w) Hop 0
    (replicate w [init]) (replicate w init)) as (v & parts & -> & Hv & HF & HP);
    [rewrite E1; lia|apply length_replicate| |].
  { apply Forall2_replicate. constructor. }
  cbn. destruct (scalar_loop_red step data (count - simd_end w count) Hstep (simd_end w count)
    (mjoin parts) (fin v)) as (r & Hr & Hred); [lia|by eapply red_join_parts; [|apply Hfin]|].
  exists r. split; [exact Hr|]. revert Hred. apply red_perm. rewrite HP.
  assert (mjoin (replicate w [init]) = replicate w init) as ->
    by (clear; induction w as [|w IH]; [done|]; simpl; by rewrite IH).
  rewrite E1, <-E2, drop_0, <-(assoc_L (++)), take_take_drop. do 2 f_equiv. lia.
Qed.

(** The horizontal steps of the sums. *)
Lemma hadd_red add v : (∀ a x, R a x (add a x)) → length v = 4%nat →
  reduction R v (add (add (lane v 0) (lane v 1)) (add (lane v 2) (lane v 3))).
Proof.
  intros HR Hv. do 5 (destruct v as [|? v]; try done).
  eapply (red_app [_; _] [_; _]); [eapply (red_app [_] [_])..|]; first [constructor|done].
Qed.

Lemma pairs_red add v : (∀ a x, R a x (add a x)) → length v = 4%nat →
  reduction R v (add (add (lane v 0) (lane v 2)) (add (lane v 1) (lane v 3))).
Proof.
  intros HR Hv. destruct v as [|a [|b [|c [|d []]]]]; try done.
  apply (red_perm [a; c; b; d]); [solve_Permutation|].
  by apply (hadd_red add [a; c; b; d]).
Qed.

Lemma halves_red add v : (∀ a x, R a x (add a x)) → length v = 8%nat →
  let l i := add (lane v i) (lane v (i + 4)) in
  reduction R v (add (add (l 0%nat) (l 1%nat)) (add (l 2%nat) (l 3%nat))).
Proof.
  intros HR Hv l. do 9 (destruct v as [|? v]; try done).
  set (v := [_; _; _; _; _; _; _; _]) in *.
  apply (red_perm (mjoin [[lane v 0; lane v 4]; [lane v 1; lane v 5];
    [lane v 2; lane v 6]; [lane v 3; lane v 7]])); [simpl; solve_Permutation|].
  eapply red_join_parts; [|apply (hadd_red add [l 0%nat; l 1%nat; l 2%nat; l 3%nat]); done].
  repeat (constructor; [eapply (red_app [_] [_]); [constructor..|apply HR]|]). constructor.
Qed.
End Reduction.

Lemma red_mono (R R' : Z → Z → Z → Prop) xs r :
  (∀ a b c, R a b c → R' a b c) → reduction R xs r → reduction R' xs r.
Proof.
  intros HR. induction 1 as [|xs ys zs a b c _ IHa _ IHb Hc E]; [constructor|].
  eapply red_join; [exact IHa|exact IHb|by apply HR|done].
Qed.

(** ** What the compiler documents of the intrinsics *)

(** [r] is a sum of [xs] in some order and bracketing. *)
Definition sums (f : fmt) : list Z → Z → Prop := reduction (λ a b c, c = f_add f a b).

(** [c] is one of [a], [b] and not beyond the other: the smaller for [sg = 1],
    the greater for [sg = -1]. *)
Definition picks (sg a b c : Z) : Prop :=
  f_is_nan f32 a = false → f_is_nan f32 b = false →
  (c = a ∨ c = b) ∧ sg * f_key f32 c ≤ sg * f_key f32 a ∧ sg * f_key f32 c ≤ sg * f_key f32 b.

(** [MINPS] and [MAXPS] return the second operand unless the first is strictly
    beyond it (so also when one of them is a NaN); NEON's instructions pick the
    smaller or greater of two numbers; a 512-bit register is reduced by a
    sequence of the instruction. *)
Class IntrinsicsSpec `{Intrinsics} : Prop := {
  minps_spec a b : minps a b = if f_ltb f32 a b then a else b;
  maxps_spec a b : maxps a b = if f_ltb f32 b a then a else b;
  vminq_spec a b : picks 1 a b (vminq a b);
  vmaxq_spec a b : picks (-1) a b (vmaxq a b);
  reduce_add_ps_spec v : length v = 16%nat → sums f32 v (reduce_add_ps v);
  reduce_add_pd_spec v : length v = 8%nat → sums f64 v (reduce_add_pd v);
  reduce_min_ps_spec v : length v = 16%nat → reduction (λ a b c, c = minps a b) v (reduce_min_ps v);
  reduce_max_ps_spec v : length v = 16%nat → reduction (λ a b c, c = maxps a b) v (reduce_max_ps v) }.

Lemma ltb_key a b :
  f_is_nan f32 a = false → f_is_nan f32 b = false →
  f_ltb f32 a b = (f_key f32 a <? f_key f32 b).
Proof. intros Ha Hb. unfold f_ltb. by rewrite Ha, Hb. Qed.

Lemma min_step_picks a b : picks 1 a b (min_step a b).
Proof.
  intros Ha Hb. unfold min_step. rewrite ltb_key by done.
  destruct (Z.ltb_spec (f_key f32 b) (f_key f32 a)); split; auto; lia.
Qed.

Lemma max_step_picks a b : picks (-1) a b (max_step a b).
Proof.
  intros Ha Hb. unfold max_step. rewrite ltb_key by done.
  destruct (Z.ltb_spec (f_key f32 a) (f_key f32 b)); split; auto; lia.
Qed.

Section X86Picks.
Context `{IntrinsicsSpec}.

Lemma minps_picks a b : picks 1 a b (minps a b).
Proof.
  intros Ha Hb. rewrite minps_spec, ltb_key by done.
  destruct (Z.ltb_spec (f_key f32 a) (f_key f32 b)); split; auto; lia.
Qed.

Lemma maxps_picks a b : picks (-1) a b (maxps a b).
Proof.
  intros Ha Hb. rewrite maxps_spec, ltb_key by done.
  destruct (Z.ltb_spec (f_key f32 b) (f_key f32 a)); split; auto; lia.
Qed.

Lemma reduce_min_picks v : length v = 16%nat → reduction (picks 1) v (reduce_min_ps v).
Proof.
  intros Hv. eapply red_mono; [|by apply reduce_min_ps_spec]. intros a b c ->. apply minps_picks.
Qed.

Lemma reduce_max_picks v : length v = 16%nat → reduction (picks (-1)) v (reduce_max_ps v).
Proof.
  intros Hv. eapply red_mono; [|by apply reduce_max_ps_spec]. intros a b c ->. apply maxps_picks.
Qed.
End X86Picks.

Create HintDb simd.
#[export] Hint Resolve min_step_picks max_step_picks minps_picks maxps_picks vminq_spec vmaxq_spec
  reduce_min_picks reduce_max_picks reduce_add_ps_spec reduce_add_pd_spec : simd.

(** ** Sums *)

Section Sums.
Context `{IntrinsicsSpec}.

Lemma scalar_sum_red f data count :
  (count ≤ length data)%nat →
  ∃ r, scalar_loop (f_add f) data count 0 0 = Some r ∧ sums f ([0] ++ take count data) r.
Proof.
  intros Hc. apply (scalar_loop_red _ (f_add f) data count); [done|lia|constructor].
Qed.

Lemma sum_floats_red p data count :
  (count ≤ length data)%nat →
  ∃ r, simd_ops.sum_floats p data count = Some r ∧
    sums f32 (replicate (simd_ops.simd_width p) 0 ++ take count data) r.
Proof.
  intros Hc. destruct p; [by apply scalar_sum_red|..]; cbn [simd_ops.simd_width policy_of policy_width];
    unfold simd_ops.sum_floats; cbn [policy_of p_sum_floats].
  - eapply (kernel_red _ 4 (f_add f32) (f_add f32)
      (λ v, cvtss (let v := hadd_ps v v in hadd_ps v v)) 0); try done.
    intros v Hv. do 5 (destruct v as [|? v]; try done).
    match goal with |- reduction _ ?v _ => by apply (hadd_red _ (f_add f32) v) end.
  - eapply (kernel_red _ 8 (f_add f32) (f_add f32)
      (λ v, cvtss (let s := add_ps (low_half 4 v) (high_half 4 v) in
                   let s := hadd_ps s s in hadd_ps s s)) 0); try done.
    intros v Hv. do 9 (destruct v as [|? v]; try done).
    match goal with |- reduction _ ?v _ => by apply (halves_red _ (f_add f32) v) end.
  - eapply (kernel_red _ 16 (f_add f32) (f_add f32) reduce_add_ps 0); try done.
    exact reduce_add_ps_spec.
  - eapply (kernel_red _ 4 (f_add f32) (f_add f32)
      (λ v, let s := add_ps (low_half 2 v) (high_half 2 v) in
            f_add f32 (lane s 0) (lane s 1)) 0); try done.
    intros v Hv. do 5 (destruct v as [|? v]; try done).
    match goal with |- reduction _ ?v _ => by apply (pairs_red _ (f_add f32) v) end.
Qed.
Lemma sum_doubles_red p data count :
  (count ≤ length data)%nat →
  ∃ r w, simd_ops.sum_doubles p data count = Some r ∧
    sums f64 (replicate w 0 ++ take count data) r.
Proof.
  intros Hc. destruct p;
    try (destruct (scalar_sum_red f64 data count Hc) as (r & Hr & Hs); by exists r, 1%nat).
  destruct (kernel_red (λ a b c, c = f_add f64 a b) 8 (f_add f64) (f_add f64) reduce_add_pd 0
    data count) as (r & Hr & Hs); try done; [exact reduce_add_pd_spec|by exists r, 8%nat].
Qed.
End Sums.

(** The sum of the values, in units of the smallest positive one. *)
Definition total (f : fmt) (xs : list Z) : Z := foldr Z.add 0 (map (f_units f) xs).
Definition total_abs (f : fmt) (xs : list Z) : Z := foldr Z.add 0 (map (λ a, Z.abs (f_units f a)) xs).

(** Finite multiples of [2^j] units whose absolute values add up to at most
    [mbits + 1] bits on that grid: e.g. integers, or amounts in quarters. *)
Definition on_grid (f : fmt) (j : Z) (xs : list Z) : Prop :=
  0 ≤ j ≤ 2 ^ ebits f - 4 ∧
  Forall (λ a, f_finite f a = true ∧ (2 ^ j | f_units f a)) xs ∧
  total_abs f xs ≤ 2 ^ (mbits f + 1 + j).

Section Exact.
Context (f : fmt) `{!ieee f}.

Lemma foldr_add_app xs ys : foldr Z.add 0 (xs ++ ys) = foldr Z.add 0 xs + foldr Z.add 0 ys.
Proof. induction xs as [|x xs IH]; simpl; [done|]. rewrite IH. lia. Qed.

Lemma foldr_add_perm xs ys : xs ≡ₚ ys → foldr Z.add 0 xs = foldr Z.add 0 ys.
Proof. induction 1; simpl; lia. Qed.

Lemma total_app xs ys : total f (xs ++ ys) = total f xs + total f ys.
Proof. unfold total. by rewrite map_app, foldr_add_app. Qed.
Lemma total_abs_app xs ys : total_abs f (xs ++ ys) = total_abs f xs + total_abs f ys.
Proof. unfold total_abs. by rewrite map_app, foldr_add_app. Qed.

Lemma total_bound xs : Z.abs (total f xs) ≤ total_abs f xs.
Proof. unfold total, total_abs. induction xs as [|x xs IH]; simpl; lia. Qed.

#[local] Instance total_proper : Proper ((≡ₚ) ==> (=)) (total f).
Proof. intros xs ys E. unfold total. apply foldr_add_perm. by rewrite E. Qed.
#[local] Instance total_abs_proper : Proper ((≡ₚ) ==> (=)) (total_abs f).
Proof. intros xs ys E. unfold total_abs. apply foldr_add_perm. by rewrite E. Qed.

(** Whatever the order and the bracketing, no addition rounds. *)
Lemma sums_exact j xs r :
  sums f xs r → on_grid f j xs →
  f_finite f r = true ∧ (2 ^ j | f_units f r) ∧ f_units f r = total f xs.
Proof.
  intros Hr (Hj & HF & Hb). revert HF Hb.
  induction Hr as [x|xs ys zs a b c _ IHa _ IHb -> E]; intros HF Hb.
  - apply Forall_singleton in HF as [? ?]. split_and!; [done..|]. unfold total. simpl. lia.
  - rewrite E in HF, Hb |- *. apply Forall_app in HF as [HFx HFy].
    rewrite total_abs_app in Hb. rewrite total_app.
    pose proof (total_bound xs). pose proof (total_bound ys).
    destruct (IHa HFx ltac:(lia)) as (Fa & Da & Ea). destruct (IHb HFy ltac:(lia)) as (Fb & Db & Eb).
    destruct (f_add_exact f a b j Fa Fb Hj Da Db ltac:(lia)) as [Fc Ec].
    rewrite Ec. split_and!; [done|by apply Z.divide_add_r|lia].
Qed.

Lemma on_grid_zeros j w xs : on_grid f j xs →
  on_grid f j (replicate w 0 ++ xs) ∧ total f (replicate w 0 ++ xs) = total f xs.
Proof.
  intros (Hj & HF & Hb). pose proof ieee_mbits. pose proof ieee_ebits.
  assert (f_mag f 0 = 0) as Hm by (apply Z.mod_0_l, Z.pow_nonzero; lia).
  assert (f_units f 0 = 0) as U0.
  { unfold f_units. rewrite Hm. unfold units. rewrite Z.div_0_l, Z.mod_0_l by
      (apply Z.pow_nonzero; lia). simpl. lia. }
  assert (0 < infinity f) as Hinf.
  { unfold infinity. pose proof (exp_range f). pose proof ieee_bias.
    pose proof (pow2_pos (mbits f) ltac:(lia)). nia. }
  unfold on_grid. rewrite total_abs_app, total_app, Forall_app.
  assert (total_abs f (replicate w 0) = 0 ∧ total f (replicate w 0) = 0) as [-> ->].
  { unfold total_abs, total. induction w as [|w [IH1 IH2]]; [done|]. simpl. by rewrite IH1, IH2, U0. }
  split_and!; try done; try lia. apply Forall_replicate. unfold f_finite. rewrite Hm, U0.
  split; [by apply Z.ltb_lt|apply Z.divide_0_r].
Qed.
End Exact.

(** ** Minima and maxima *)

(** [r] is an element of [xs] and none is beyond it. *)
Definition extremal (sg : Z) (xs : list Z) (r : Z) : Prop :=
  r ∈ xs ∧ Forall (λ x, sg * f_key f32 r ≤ sg * f_key f32 x) xs.

Definition no_nan (xs : list Z) : Prop := Forall (λ x, f_is_nan f32 x = false) xs.

Lemma picks_extremal sg xs r : reduction (picks sg) xs r → no_nan xs → extremal sg xs r.
Proof.
  unfold extremal, no_nan.
  induction 1 as [x|xs ys zs a b c _ IHa _ IHb Hc E]; intros HF.
  - split; [set_solver|]. by apply Forall_singleton.
  - rewrite E in HF |- *. apply Forall_app in HF as [HFx HFy].
    destruct (IHa HFx) as [Ia Fa], (IHb HFy) as [Ib Fb].
    destruct Hc as (Hin & La & Lb); [by apply (proj1 (list.Forall_forall _ _) HFx)|
      by apply (proj1 (list.Forall_forall _ _) HFy)|].
    rewrite list.Forall_app. split_and!.
    + rewrite elem_of_app. destruct Hin as [-> | ->]; auto.
    + eapply list.Forall_impl; [exact Fa|]. intros x Hx. cbn in *. lia.
    + eapply list.Forall_impl; [exact Fb|]. intros x Hx. cbn in *. lia.
Qed.

(** The two directions of the code: start value, policy member, sign. *)
Inductive direction : Type := Min | Max.
Definition sign_of (d : direction) : Z := match d with Min => 1 | Max => -1 end.
Definition start_of (d : direction) : Z := match d with Min => float_max | Max => float_lowest end.
Definition find `{Intrinsics} (d : direction) (p : policies) : list Z → nat → option Z :=
  match d with Min => simd_ops.min_float p | Max => simd_ops.max_float p end.

Section MinMax.
Context `{IntrinsicsSpec}.

Lemma scalar_find d data count :
  count ≠ 0%nat → (count ≤ length data)%nat →
  ∃ r, find d scalar data count = Some r ∧ reduction (picks (sign_of d)) (take count data) r.
Proof.
  intros Hne Hc. destruct count as [|n]; [done|]. destruct data as [|x data]; [simpl in Hc; lia|].
  simpl in Hc.
  destruct (scalar_loop_red (picks (sign_of d)) (match d with Min => min_step | Max => max_step end)
    (x :: data) n) with (i := 1%nat) (xs := [x]) (acc := x) as (r & Hr & Hred);
    [destruct d; auto with simd|simpl; lia|constructor|].
  exists r. split; [|exact Hred].
  destruct d; cbn [find simd_ops.min_float simd_ops.max_float policy_of p_min_float p_max_float];
    unfold scalar_simd_policy.min_float, scalar_simd_policy.max_float;
    cbn [Nat.eqb lookup list_lookup option_bind mbind]; by rewrite Nat.sub_succ, Nat.sub_0_r.
Qed.

Lemma vector_find d p data count :
  p ≠ scalar → count ≠ 0%nat → (count ≤ length data)%nat →
  ∃ r, find d p data count = Some r ∧
    reduction (picks (sign_of d)) (replicate (simd_ops.simd_width p) (start_of d) ++ take count data) r.
Proof.
  intros Hp Hne Hc. apply Nat.eqb_neq in Hne.
  assert (∀ step v w, length v = S w → (∀ a b, picks (sign_of d) a b (step a b)) →
    reduction (picks (sign_of d)) v (extract step v)) as Hext.
  { intros step v w Hv Hs. apply extract_red; [done|]. by destruct v. }
  destruct d, p; try done; cbn [find simd_ops.min_float simd_ops.max_float policy_of p_min_float
    p_max_float simd_ops.simd_width policy_width];
    unfold sse_simd_policy.min_float, sse_simd_policy.max_float, avx2_simd_policy.min_float,
      avx2_simd_policy.max_float, avx512_simd_policy.min_float, avx512_simd_policy.max_float,
      neon_simd_policy.min_float, neon_simd_policy.max_float, set1;
    rewrite Hne; eapply kernel_red; try done; eauto with simd.
Qed.

(** A vector policy treats its start value as one more element. *)
Lemma vector_extremal d p data count :
  p ≠ scalar → count ≠ 0%nat → (count ≤ length data)%nat → no_nan (take count data) →
  ∃ r, find d p data count = Some r ∧ extremal (sign_of d) (start_of d :: take count data) r.
Proof.
  intros Hp Hne Hc HN. destruct (vector_find d p data count) as (r & Hr & Hred); [done..|].
  exists r. split; [done|]. destruct (picks_extremal _ _ _ Hred) as [Hin HF].
  { apply Forall_app. split; [apply Forall_replicate; by destruct d|done]. }
  assert (∃ w, simd_ops.simd_width p = S w) as [w Hw] by (destruct p; by eexists).
  rewrite Hw in Hin, HF. split.
  - apply elem_of_app in Hin as [Hin|Hin]; [|set_solver].
    apply elem_of_replicate in Hin as [-> _]. set_solver.
  - apply Forall_app in HF as [HF1 HF2]. constructor; [|done]. simpl in HF1. by inversion HF1.
Qed.
End MinMax.

(** ** The theorems *)

(** C35. Sums of floats with a common unit do not round: every policy returns the
    exact sum, and therefore the same number as the scalar one. *)
Theorem sum_floats_exact `{IntrinsicsSpec} p data count j :
  (count ≤ length data)%nat → on_grid f32 j (take count data) →
  ∃ r, simd_ops.sum_floats p data count = Some r ∧ f_finite f32 r = true ∧
    f_units f32 r = total f32 (take count data).
Proof.
  intros Hc Hg. destruct (sum_floats_red p data count Hc) as (r & Hr & Hs).
  destruct (on_grid_zeros f32 j (simd_ops.simd_width p) _ Hg) as [Hg' Ht].
  destruct (sums_exact f32 j _ r Hs Hg') as (HF & _ & E).
  exists r. split_and!; [done..|]. by rewrite E, Ht.
Qed.

(** The same for doubles, which only AVX-512 sums in lanes. *)
Theorem sum_doubles_exact `{IntrinsicsSpec} p data count j :
  (count ≤ length data)%nat → on_grid f64 j (take count data) →
  ∃ r, simd_ops.sum_doubles p data count = Some r ∧ f_finite f64 r = true ∧
    f_units f64 r = total f64 (take count data).
Proof.
  intros Hc Hg. destruct (sum_doubles_red p data count Hc) as (r & w & Hr & Hs).
  destruct (on_grid_zeros f64 j w _ Hg) as [Hg' Ht].
  destruct (sums_exact f64 j _ r Hs Hg') as (HF & _ & E).
  exists r. split_and!; [done..|]. by rewrite E, Ht.
Qed.

(** Two policies agree (up to the sign of a zero) on data without a NaN in
    which some element is within the finite start value. *)
Theorem min_max_agree `{IntrinsicsSpec} d p data count :
  (count ≤ length data)%nat → no_nan (take count data) →
  count = 0%nat ∨ Exists (λ x, sign_of d * f_key f32 x ≤ sign_of d * f_key f32 (start_of d))
    (take count data) →
  ∃ r r0, find d p data count = Some r ∧ find d scalar data count = Some r0 ∧
    f_eqb f32 r r0 = true.
Proof.
  intros Hc HN Hex. destruct (decide (count = 0%nat)) as [->|Hne].
  { exists (start_of d), (start_of d). by destruct d, p. }
  destruct Hex as [?|Hex]; [done|].
  destruct (scalar_find d data count Hne Hc) as (r0 & Hr0 & Hred0).
  destruct (picks_extremal _ _ _ Hred0 HN) as [Hin0 HF0].
  assert (f_is_nan f32 r0 = false) as HN0 by exact (proj1 (list.Forall_forall _ _) HN _ Hin0).
  destruct (decide (p = scalar)) as [->|Hp].
  { exists r0, r0. split_and!; [done..|]. unfold f_eqb. by rewrite HN0, Z.eqb_refl. }
  destruct (vector_extremal d p data count) as (r & Hr & Hin & HF); [done..|].
  inversion HF as [|? ? Hs HF']; subst. exists r, r0. split_and!; [done..|].
  assert (sign_of d * f_key f32 r ≤ sign_of d * f_key f32 r0) as Hle
    by exact (proj1 (list.Forall_forall _ _) HF' _ Hin0).
  apply list.Exists_exists in Hex as (x & Hx & Hxs).
  assert (sign_of d * f_key f32 r0 ≤ sign_of d * f_key f32 x) as Hx0
    by exact (proj1 (list.Forall_forall _ _) HF0 _ Hx).
  assert (sign_of d * f_key f32 r0 ≤ sign_of d * f_key f32 r ∧ f_is_nan f32 r = false) as [Hge HNr].
  { apply elem_of_cons in Hin as [->|Hin]; [split; [lia|by destruct d]|].
    split; [exact (proj1 (list.Forall_forall _ _) HF0 _ Hin)|
            exact (proj1 (list.Forall_forall _ _) HN _ Hin)]. }
  unfold f_eqb. rewrite HN0, HNr. cbn. apply Z.eqb_eq. destruct d; cbn in *; lia.
Qed.

(** A NaN makes the x86 kernels forget the elements before it in its lane:
    their minimum comes from the rest, while the scalar one ignores the NaN. *)
Theorem nan_hides_minimum `{IntrinsicsSpec} a n b :
  f_is_nan f32 n = true → f_is_nan f32 a = false → f_is_nan f32 b = false →
  f_key f32 a < f_key f32 b →
  let data := replicate 4 a ++ replicate 4 n ++ replicate 4 b in
  simd_ops.min_float sse data 12 = Some b ∧ simd_ops.min_float scalar data 12 = Some a.
Proof.
  intros Hn Ha Hb Hlt data.
  assert (∀ x, f_ltb f32 x n = false ∧ f_ltb f32 n x = false) as Hnan.
  { intros x. unfold f_ltb. rewrite Hn. cbn. by rewrite andb_false_r. }
  assert (minps (minps (minps float_max a) n) b = b) as Hlane.
  { rewrite !minps_spec. rewrite (proj1 (Hnan _)), (proj2 (Hnan b)). done. }
  assert (min_step a n = a ∧ min_step a b = a ∧ min_step a a = a ∧ min_step b b = b) as (S1 & S2 & S3 & S4).
  { unfold min_step. rewrite (proj2 (Hnan a)), !ltb_key by done.
    destruct (Z.ltb_spec (f_key f32 b) (f_key f32 a)); [lia|]. by rewrite !Z.ltb_irrefl. }
  split.
  - unfold simd_ops.min_float, data. cbn [policy_of p_min_float replicate app].
    unfold sse_simd_policy.min_float, vec_part, tail_part, simd_end.
    change (12 - 12 mod 4)%nat with 12%nat. change (12 / 4)%nat with 3%nat.
    cbn -[minps min_step float_max]. rewrite !Hlane. unfold extract. cbn [foldl]. by rewrite !S4.
  - unfold simd_ops.min_float, data. cbn [policy_of p_min_float replicate app].
    unfold scalar_simd_policy.min_float. cbn -[min_step]. by rewrite !S3, !S1, !S2.
Qed.

(** The start value is finite: an array of [+inf] has a vector minimum that is
    not an element of it. *)
Theorem infinite_minimum `{IntrinsicsSpec} p n :
  p ≠ scalar → simd_ops.min_float p (replicate (S n) (infinity f32)) (S n) = Some float_max ∧
  simd_ops.min_float scalar (replicate (S n) (infinity f32)) (S n) = Some (infinity f32).
Proof.
  intros Hp. set (data := replicate (S n) (infinity f32)).
  assert (length data = S n) as Hl by apply length_replicate.
  assert (take (S n) data = data) as Ht by (rewrite take_ge; [done|lia]).
  assert (no_nan data) as HN by (by apply Forall_replicate).
  split.
  - destruct (vector_extremal Min p data (S n)) as (r & Hr & Hin & HF); [done|done|lia|by rewrite Ht|].
    cbn [find] in Hr. rewrite Hr. f_equal. rewrite Ht in Hin.
    apply elem_of_cons in Hin as [->|Hin]; [done|].
    apply elem_of_replicate in Hin as [-> _]. inversion HF as [|? ? Hs _]; subst. exfalso.
    revert Hs. vm_compute. congruence.
  - destruct (scalar_find Min data (S n)) as (r & Hr & Hred); [done|lia|].
    rewrite Ht in Hred. destruct (picks_extremal _ _ _ Hred HN) as [Hin _].
    apply elem_of_replicate in Hin as [-> _]. exact Hr.
Qed.

(** ** [simd_processor] *)

(** The macros as [simd_processor.h] leaves them: the x86 ones only on x86. *)
Definition build_ok (b : build) : Prop :=
  HAS_SSE42 b || HAS_SSE2 b = true → HAS_X86 b = true.

(** The private kernels are those of the policy [simd_policies.h] would choose;
    their width is the one [get_optimal_width] reports. *)
Theorem processor_uses_policy `{Intrinsics} {C} b (values : list (ValueVariant C)) :
  build_ok b →
  let p := default_simd_policy b in
  let floats := simd_processor.floats_of values in
  let n := length floats in
  simd_processor.sum_floats b values =
    (if (n =? 0)%nat then Some 0 else simd_ops.sum_floats p floats n) ∧
  simd_processor.min_float b values =
    (if (n =? 0)%nat then Some None else Some <$> simd_ops.min_float p floats n) ∧
  simd_processor.max_float b values =
    (if (n =? 0)%nat then Some None else Some <$> simd_ops.max_float p floats n) ∧
  simd_support.get_optimal_width b = simd_ops.simd_width p.
Proof.
  intros Hb p floats n. unfold build_ok in Hb. unfold simd_processor.sum_floats, simd_processor.min_float,
    simd_processor.max_float, simd_support.get_optimal_width. fold floats. fold n.
  assert (simd_processor.HAS_SSE b = HAS_SSE42 b || HAS_SSE2 b) as ->.
  { unfold simd_processor.HAS_SSE. rewrite (orb_comm (HAS_SSE2 b)).
    destruct (HAS_SSE42 b || HAS_SSE2 b); [by rewrite Hb|by rewrite andb_false_r]. }
  unfold p, default_simd_policy.
  destruct (HAS_SSE42 b || HAS_SSE2 b); destruct (HAS_AVX512 b), (HAS_AVX2 b), (HAS_ARM_NEON b);
    cbn [orb]; done.
Qed.

Lemma find_equal_loop_spec {C} (values : list (ValueVariant C)) target : ∀ i indices,
  simd_processor.find_equal_loop values target i indices =
  indices ++ ((λ k, (i + k)%nat) <$> simd_processor.find_equal_loop values target 0 []).
Proof.
  induction values as [|v values IH]; intros i indices; cbn; [by rewrite app_nil_r|].
  rewrite IH, (IH 1%nat).
  set (hit := match v with V_float f => f_eqb f32 f target | _ => false end).
  assert (∀ l (k : nat), match v with V_float f => if f_eqb f32 f target then l ++ [k] else l | _ => l end
    = if hit then l ++ [k] else l) as E by (intros; unfold hit; by destruct v).
  pose proof (E [] 0%nat) as E0. cbn in E0. rewrite E, E0. set (rest := simd_processor.find_equal_loop values target 0 []).
  assert ((λ k, (S i + k)%nat) <$> rest = (λ k, (i + k)%nat) <$> ((λ k, (1 + k)%nat) <$> rest)) as ->.
  { rewrite <-list_fmap_compose. apply list_fmap_ext. intros ? ? _. simpl. lia. }
  destruct hit; cbn; [|done]. by rewrite <-(assoc_L (++)), Nat.add_0_r.
Qed.

(** The indices of the floats equal to the target, and no others. *)
Theorem find_equal_floats_spec {C} (values : list (ValueVariant C)) target i :
  i ∈ simd_processor.find_equal_floats values target ↔
  ∃ f, values !! i = Some (V_float f) ∧ f_eqb f32 f target = true.
Proof.
  unfold simd_processor.find_equal_floats. revert i.
  induction values as [|v values IH]; intros i; cbn.
  { split; [intros Hin; by apply elem_of_nil in Hin|intros (f & [=] & _)]. }
  rewrite find_equal_loop_spec, elem_of_app, list_elem_of_fmap. setoid_rewrite IH.
  assert (∀ k, k ∈ match v with V_float f => if f_eqb f32 f target then [0%nat] else [] | _ => [] end
    ↔ k = 0%nat ∧ ∃ f, v = V_float f ∧ f_eqb f32 f target = true) as Hhead.
  { intros k. split.
    - intros Hk. destruct v as [| | | | | | | | | |f| | | | |]; try (by apply elem_of_nil in Hk).
      destruct (f_eqb f32 f target) eqn:E; [|by apply elem_of_nil in Hk].
      apply list_elem_of_singleton in Hk. eauto.
    - intros (-> & f & -> & ->). by apply list_elem_of_singleton. }
  rewrite Hhead. destruct i as [|i]; cbn; naive_solver lia.
Qed.

(** A copy compares equal to its source. *)
Lemma fast_copy_compare src dst size :
  (size ≤ length src)%nat → (size ≤ length dst)%nat →
  ∃ dst', simd_processor.fast_copy src dst size = Some dst' ∧ length dst' = length dst ∧
    simd_processor.fast_compare src dst' size = Some true ∧ drop size dst' = drop size dst.
Proof.
  intros Hs Hd. unfold simd_processor.fast_copy, simd_processor.fast_compare.
  rewrite bool_decide_eq_true_2 by done. eexists. split; [done|].
  assert (length (take size src) = size) as Hl by (rewrite length_take; lia).
  assert (length (take size src ++ drop size dst) = length dst) as Hl'
    by (rewrite length_app, length_drop; lia).
  split_and!; [done| |by rewrite drop_app_length'].
  rewrite bool_decide_eq_true_2 by lia. f_equal. apply bool_decide_eq_true_2.
  by rewrite take_app_length'.
Qed.

(** The reported level is one the processor has. *)
Lemma best_level_supported b gnu get_cpuid :
  match simd_support.get_best_simd_level b gnu get_cpuid with
  | L_none => True
  | L_sse2 => simd_support.has_sse2 b gnu get_cpuid = true
  | L_sse42 => simd_support.has_sse42 b gnu get_cpuid = true
  | L_avx2 => simd_support.has_avx2 b gnu get_cpuid = true
  | L_avx512 => simd_support.has_avx512f b gnu get_cpuid = true
  | L_neon => HAS_ARM_NEON b = true
  end.
Proof. unfold simd_support.get_best_simd_level. by repeat case_match. Qed.

(** ** A platform *)

(** The reduction the vendor's guide writes for a register: its two halves are
    combined lane by lane until one lane is left. *)
Fixpoint tree_reduce (op : Z → Z → Z) (n : nat) (v : list Z) : Z :=
  match n with
  | O => hd 0 v
  | S n' => tree_reduce op n' (zip_with op (take (2 ^ n') v) (drop (2 ^ n') v))
  end.

Lemma zip_pairs (R : Z → Z → Z → Prop) op l1 : (∀ a b, R a b (op a b)) →
  ∀ l2, length l2 = length l1 →
  let pairs := zip_with (λ a b, [a; b]) l1 l2 in
  mjoin pairs ≡ₚ l1 ++ l2 ∧ Forall2 (reduction R) pairs (zip_with op l1 l2).
Proof.
  intros HR. induction l1 as [|a l1 IH]; intros [|b l2] Hl; simplify_eq/=; [by split|].
  destruct (IH l2 Hl) as [IH1 IH2]. split.
  - rewrite IH1. solve_Permutation.
  - constructor; [|done]. apply (red_app R [a] [b] a b); [constructor..|done].
Qed.

Lemma tree_reduce_red (R : Z → Z → Z → Prop) op n : (∀ a b, R a b (op a b)) →
  ∀ v, length v = (2 ^ n)%nat → reduction R v (tree_reduce op n v).
Proof.
  intros HR. induction n as [|n IH]; intros v Hv; simpl in Hv |- *.
  - destruct v as [|x [|]]; try done. constructor.
  - destruct (zip_pairs R op (take (2 ^ n) v) HR (drop (2 ^ n) v)) as [HP HF];
      [rewrite length_take, length_drop; lia|].
    rewrite take_drop in HP. eapply red_perm; [exact HP|].
    eapply red_join_parts; [exact HF|]. apply IH.
    rewrite length_zip_with, length_take, length_drop. lia.
Qed.

Definition x86_min (a b : Z) : Z := if f_ltb f32 a b then a else b.
Definition x86_max (a b : Z) : Z := if f_ltb f32 b a then a else b.
Definition neon_pick (lt : bool) (a b : Z) : Z :=
  if f_is_nan f32 a || f_is_nan f32 b then quiet_nan f32 else if lt then a else b.

Definition platform : Intrinsics := {|
  minps := x86_min; maxps := x86_max;
  vminq a b := neon_pick (f_ltb f32 a b) a b; vmaxq a b := neon_pick (f_ltb f32 b a) a b;
  reduce_add_ps := tree_reduce (f_add f32) 4; reduce_add_pd := tree_reduce (f_add f64) 3;
  reduce_min_ps := tree_reduce x86_min 4; reduce_max_ps := tree_reduce x86_max 4 |}.

Lemma platform_spec : @IntrinsicsSpec platform.
Proof.
  constructor; try done; try (intros v Hv; by apply tree_reduce_red).
  - intros a b Ha Hb. cbn. unfold neon_pick. rewrite Ha, Hb, ltb_key by done. cbn.
    destruct (Z.ltb_spec (f_key f32 a) (f_key f32 b)); split; auto; lia.
  - intros a b Ha Hb. cbn. unfold neon_pick. rewrite Ha, Hb, ltb_key by done. cbn.
    destruct (Z.ltb_spec (f_key f32 b) (f_key f32 a)); split; auto; lia.
Qed.

(** 1.0, 2.0, ..., 9.0 and 0.5. *)
Definition one_to_nine : list Z :=
  [0x3f800000; 0x40000000; 0x40400000; 0x40800000; 0x40a00000; 0x40c00000; 0x40e00000;
   0x41000000; 0x41100000; 0x3f000000].

Example policies_run :
  map (λ p, @simd_ops.sum_floats platform p one_to_nine 10) [scalar; sse; avx2; avx512; neon]
    = replicate 5 (Some 0x42360000) ∧                                        (* 45.5 *)
  map (λ p, @simd_ops.min_float platform p one_to_nine 10) [scalar; sse; avx2; avx512; neon]
    = replicate 5 (Some 0x3f000000) ∧
  map (λ p, @simd_ops.max_float platform p one_to_nine 10) [scalar; sse; avx2; avx512; neon]
    = replicate 5 (Some 0x41100000) ∧
  @simd_ops.sum_floats platform sse one_to_nine 11 = None.
Proof. by vm_compute. Qed.

(** Off a common grid the order matters: 2^24 + 1 + 1 + 1 + 1. *)
Example sums_may_differ :
  let data := [0x4b800000; 0x3f800000; 0x3f800000; 0x3f800000; 0x3f800000] in
  @simd_ops.sum_floats platform scalar data 5 = Some 0x4b800000 ∧
  @simd_ops.sum_floats platform sse data 5 = Some 0x4b800002.
Proof. by vm_compute. Qed.

Lemma sum_floats_exact_witness :
  ∃ r, @simd_ops.sum_floats platform avx2 one_to_nine 10 = Some r ∧ f_finite f32 r = true ∧
    f_units f32 r = total f32 one_to_nine.
Proof.
  apply (@sum_floats_exact platform platform_spec avx2 one_to_nine 10 148); [vm_compute; lia|].
  split; [split; [done|vm_compute; congruence]|]. split; [|vm_compute; congruence].
  repeat (constructor; [split; [by vm_compute|apply Z.mod_divide; [done|by vm_compute]]|]). constructor.
Defined.

Lemma sum_doubles_exact_witness :
  ∃ r, @simd_ops.sum_doubles platform avx512 [u64_to_f64 3; u64_to_f64 4] 2 = Some r ∧
    f_finite f64 r = true ∧ f_units f64 r = total f64 [u64_to_f64 3; u64_to_f64 4].
Proof.
  apply (@sum_doubles_exact platform platform_spec avx512 [u64_to_f64 3; u64_to_f64 4] 2 1074);
    [vm_compute; lia|].
  split; [split; [done|vm_compute; congruence]|]. split; [|vm_compute; congruence].
  repeat (constructor; [split; [by vm_compute|apply Z.mod_divide; [done|by vm_compute]]|]). constructor.
Defined.

Lemma min_max_agree_witness :
  ∃ r r0, @find platform Min avx512 one_to_nine 10 = Some r ∧
    @find platform Min scalar one_to_nine 10 = Some r0 ∧ f_eqb f32 r r0 = true.
Proof.
  apply (@min_max_agree platform platform_spec Min avx512 one_to_nine 10); [vm_compute; lia| |right].
  - repeat (constructor; [by vm_compute|]). constructor.
  - apply Exists_cons_hd. vm_compute. congruence.
Defined.

Lemma nan_hides_minimum_witness :
  let data := replicate 4 0x3f800000 ++ replicate 4 0x7fc00000 ++ replicate 4 0x40000000 in
  @simd_ops.min_float platform sse data 12 = Some 0x40000000 ∧
  @simd_ops.min_float platform scalar data 12 = Some 0x3f800000.
Proof.
  apply (@nan_hides_minimum platform platform_spec 0x3f800000 0x7fc00000 0x40000000);
    by vm_compute.
Defined.

Lemma infinite_minimum_witness :
  @simd_ops.min_float platform sse (replicate 3 (infinity f32)) 3 = Some float_max ∧
  @simd_ops.min_float platform scalar (replicate 3 (infinity f32)) 3 = Some (infinity f32).
Proof. apply (@infinite_minimum platform platform_spec sse 2). discriminate. Defined.

(** An x86 build with AVX2. *)
Definition avx2_build : build := Build true false true false false false.

Lemma processor_uses_policy_witness :
  let values : list (ValueVariant unit) := [V_float 0x40000000; V_int 7; V_float 0x3f800000] in
  let floats := [0x40000000; 0x3f800000] in
  @simd_processor.sum_floats platform unit avx2_build values
    = @simd_ops.sum_floats platform avx2 floats 2 ∧
  @simd_processor.min_float platform unit avx2_build values
    = Some <$> @simd_ops.min_float platform avx2 floats 2 ∧
  @simd_processor.max_float platform unit avx2_build values
    = Some <$> @simd_ops.max_float platform avx2 floats 2 ∧
  simd_support.get_optimal_width avx2_build = @simd_ops.simd_width platform avx2.
Proof.
  apply (@processor_uses_policy platform unit avx2_build
    [V_float 0x40000000; V_int 7; V_float 0x3f800000]). done.
Defined.
