(* ===== verification/Async.v ===== *)
(** * Coroutine tasks: [internal/async/task.h] and the awaitables

    An operation of [async_container] is a coroutine: it starts at once
    ([initial_suspend] is [suspend_never]), and its one [co_await] hands the
    work to a detached thread or a pool ([async_awaitable],
    [executor_awaitable]), which publishes the outcome and resumes the
    coroutine.  The model is a transition system with one transition for each
    access of a thread to what the threads share: the outcome, [ready_], the
    coroutine frame with its promise, [completed_] and [continuation_].  What
    the language leaves undefined (resuming a coroutine that is not suspended,
    reading a result that is not there, using a destroyed frame) sets [ub].

    [work] is the function the coroutine hands over, run on a state [W] it may
    change; an outcome is a value or an exception. *)

From S2P Require Import Prelude.

Inductive holder : Type := Client | Worker.

(** Where the thread that runs the coroutine stands behind the suspension
    point: in [await_resume], at [co_return], in [final_suspend] before it reads
    the continuation and before it stores [completed_]. *)
Inductive phase : Type :=
| P_await_resume | P_return | P_final | P_complete (continuation : bool).

Inductive frame : Type :=
| F_suspended                       (* at the [co_await] *)
| F_running (h : holder) (p : phase)
| F_final                           (* suspended at the final point *)
| F_destroyed.

(** The thread the awaitable starts. *)
Inductive worker_pc : Type :=
| W_work | W_publish | W_resume | W_run | W_transfer (continuation : bool) | W_end.

(** The owner of the task: idle, having seen [done()] or not; running the
    coroutine inside its own [co_await] or [resume]; past one of them. *)
Inductive client_pc (O : Type) : Type :=
| C_idle (seen : bool)
| C_run
| C_transfer (continuation : bool)
| C_result (r : O)
| C_dropped.
Arguments C_idle {O} _.
Arguments C_run {O}.
Arguments C_transfer {O} _.
Arguments C_result {O} _.
Arguments C_dropped {O}.

Module task.
Section Task.
Context {W T E : Type} (work : W → W * (T + E)).

Record sys : Type := Sys {
  world : W;
  worker : worker_pc;
  ready_ : bool; cell : option (T + E);                 (* async_state *)
  frame_ : frame; promise : option (T + E);             (* result_, exception_ *)
  completed_ : bool; continuation_ : bool;
  client : client_pc (T + E);
  ub : bool }.

Definition set_world (w : W) (o : option (T + E)) (s : sys) : sys :=
  Sys w (worker s) (ready_ s) o (frame_ s) (promise s) (completed_ s) (continuation_ s) (client s) (ub s).
Definition set_worker (p : worker_pc) (s : sys) : sys :=
  Sys (world s) p (ready_ s) (cell s) (frame_ s) (promise s) (completed_ s) (continuation_ s) (client s) (ub s).
Definition set_ready (s : sys) : sys :=
  Sys (world s) (worker s) true (cell s) (frame_ s) (promise s) (completed_ s) (continuation_ s) (client s) (ub s).
Definition set_frame (f : frame) (s : sys) : sys :=
  Sys (world s) (worker s) (ready_ s) (cell s) f (promise s) (completed_ s) (continuation_ s) (client s) (ub s).
Definition set_promise (o : option (T + E)) (s : sys) : sys :=
  Sys (world s) (worker s) (ready_ s) (cell s) (frame_ s) o (completed_ s) (continuation_ s) (client s) (ub s).
Definition set_completed (s : sys) : sys :=
  Sys (world s) (worker s) (ready_ s) (cell s) (frame_ s) (promise s) true (continuation_ s) (client s) (ub s).
Definition set_continuation (s : sys) : sys :=
  Sys (world s) (worker s) (ready_ s) (cell s) (frame_ s) (promise s) (completed_ s) true (client s) (ub s).
Definition set_client (c : client_pc (T + E)) (s : sys) : sys :=
  Sys (world s) (worker s) (ready_ s) (cell s) (frame_ s) (promise s) (completed_ s) (continuation_ s) c (ub s).
Definition undefined (s : sys) : sys :=
  Sys (world s) (worker s) (ready_ s) (cell s) (frame_ s) (promise s) (completed_ s) (continuation_ s) (client s) true.

(** The call that creates the task: the body has run up to its [co_await],
    whose [await_suspend] has started the thread. *)
Definition start (w : W) : sys :=
  Sys w W_work false None F_suspended None false false (C_idle false) false.

(** A coroutine without a [co_await] ([make_ready_task], [make_exceptional_task])
    has completed when the call returns. *)
Definition start_ready (w : W) (r : T + E) : sys :=
  Sys w W_end false None F_final (Some r) true false (C_idle false) false.

(** [promise.result()]: rethrows the exception or returns the value. *)
Definition get_result (s : sys) : sys :=
  match frame_ s, promise s with
  | F_final, Some r => set_client (C_result r) s
  | _, _ => undefined s
  end.

(** The thread that left the coroutine goes on: [k], what it read of
    [continuation_], is resumed by symmetric transfer and takes the result. *)
Definition leave (h : holder) (k : bool) (s : sys) : sys :=
  match h with
  | Worker => set_worker (W_transfer k) s
  | Client => set_client (C_transfer k) s
  end.

(** One step of the coroutine by the thread [h] that runs it. *)
Definition run_coroutine (h : holder) (p : phase) (s : sys) : sys :=
  match p with
  | P_await_resume =>
      if ready_ s then set_frame (F_running h P_return) s else s           (* spins *)
  | P_return =>
      match cell s with
      | Some r => set_frame (F_running h P_final) (set_promise (Some r) s)
      | None => undefined s
      end
  | P_final => set_frame (F_running h (P_complete (continuation_ s))) s
  | P_complete k => leave h k (set_frame F_final (set_completed s))
  end.

(** [handle.resume()] *)
Definition resume (h : holder) (s : sys) : sys :=
  match frame_ s with
  | F_suspended => set_frame (F_running h P_await_resume) s
  | _ => undefined s
  end.

(** The lambda [await_suspend] runs in a thread, [work_job::execute] in a pool. *)
Definition worker_step (s : sys) : sys :=
  if ub s then s else
  match worker s with
  | W_work => let (w, r) := work (world s) in set_worker W_publish (set_world w (Some r) s)
  | W_publish => set_worker W_resume (set_ready s)
  | W_resume => resume Worker (set_worker W_run s)
  | W_run =>
      match frame_ s with
      | F_running Worker p => run_coroutine Worker p s
      | _ => undefined s
      end
  | W_transfer true => set_worker W_end (get_result s)
  | W_transfer false => set_worker W_end s
  | W_end => s
  end.

(** What the owner can do with the task: [done()], [get()], [co_await],
    [resume()], the destructor; or go on with what it is doing. *)
Inductive action : Type := Poll | Get | Await | Resume | Drop | Go.

(** [handle.done()] is defined for a suspended coroutine. *)
Definition handle_done (s : sys) : option bool :=
  match frame_ s with
  | F_suspended => Some false
  | F_final => Some true
  | _ => None
  end.

Definition client_step (a : action) (s : sys) : sys :=
  if ub s then s else
  match client s, a with
  | C_idle seen, Poll =>
      match frame_ s with
      | F_destroyed => undefined s
      | _ => set_client (C_idle (seen || completed_ s)) s
      end
  | C_idle _, Get => get_result s
  | C_idle _, Await =>
      match handle_done s with
      | Some true => get_result s                                          (* [await_ready] *)
      | Some false => resume Client (set_client C_run (set_continuation s))
      | None => undefined s
      end
  | C_idle seen, Resume =>
      match handle_done s with
      | Some true => s
      | Some false => resume Client (set_client C_run s)
      | None => undefined s
      end
  | (C_idle _ | C_result _), Drop =>
      match frame_ s with
      | F_suspended | F_final => set_client C_dropped (set_frame F_destroyed s)
      | _ => undefined s
      end
  | C_run, Go =>
      match frame_ s with
      | F_running Client p => run_coroutine Client p s
      | _ => undefined s
      end
  | C_transfer true, Go => get_result s
  | C_transfer false, Go => set_client (C_idle false) s
  | _, _ => s
  end.

Inductive event : Type := By_worker | By_client (a : action).

Definition step (s : sys) (e : event) : sys :=
  match e with By_worker => worker_step s | By_client a => client_step a s end.

(** An interleaving. *)
Definition run (s : sys) (es : list event) : sys := foldl step s es.

(** The owner that polls: it touches the task otherwise only when [done()] was true. *)
Definition careful (s : sys) (e : event) : bool :=
  match e with
  | By_client (Get | Await | Resume | Drop) =>
      match client s with C_idle seen => seen | _ => true end
  | _ => true
  end.

Fixpoint careful_run (s : sys) (es : list event) : bool :=
  match es with
  | [] => true
  | e :: es' => careful s e && careful_run (step s e) es'
  end.

Definition worker_steps (es : list event) : nat :=
  length (List.filter (λ e, match e with By_worker => true | _ => false end) es).
End Task.
End task.

(** ** Ownership of the frame *)

(** [task<T>] and [generator<T>] own a coroutine handle; an operation returns
    the handle it destroys, if any. *)
Module owner.
Section Owner.
Context {H : Type}.

Definition new : option H := None.
Definition of_handle (h : H) : option H := Some h.
Definition valid (handle_ : option H) : bool := bool_decide (is_Some handle_).

(** [std::exchange(other.handle_, nullptr)]: the new object and [other]. *)
Definition move_construct (other : option H) : option H * option H := (other, None).

(** [*this], [other] and what is destroyed; [same] is [this == &other]. *)
Definition move_assign (same : bool) (this other : option H) : option H * option H * option H :=
  if same then (this, other, None) else (other, None, this).

(** [~task()] *)
Definition destroy (handle_ : option H) : option H := handle_.

(** Objects in scope, by position: moves between them, construction, destruction. *)
Inductive op : Type := Create (h : H) | Move_new (j : nat) | Move_to (i j : nat) | Destroy (i : nat).

(** The objects and the handles destroyed so far; [Destroy] ends the lifetime. *)
Definition exec (st : list (option H) * list H) (o : op) : list (option H) * list H :=
  let (objs, gone) := st in
  match o with
  | Create h => (objs ++ [of_handle h], gone)
  | Move_new j =>
      match objs !! j with
      | Some other => let (n, other) := move_construct other in (<[j := other]> objs ++ [n], gone)
      | None => st
      end
  | Move_to i j =>
      match objs !! i, objs !! j with
      | Some this, Some other =>
          let '(this, other, d) := move_assign (bool_decide (i = j)) this other in
          (<[i := this]> (<[j := other]> objs), gone ++ option_list d)
      | _, _ => st
      end
  | Destroy i =>
      match objs !! i with
      | Some this => (delete i objs, gone ++ option_list (destroy this))
      | None => st
      end
  end.

Definition owned (objs : list (option H)) : list H := objs ≫= option_list.
End Owner.
End owner.

(** ** Where the work runs *)

(** [executor_awaitable::await_suspend]: a pool that is running and accepts the
    job runs it, in every other case a detached thread does.  [is_running] and
    what [execute] returns belong to the executor, which is not part of the
    program; without [common_system] there is none. *)
Inductive runner : Type := Pool | Detached.

Definition choose_runner (KCENON_HAS_COMMON_SYSTEM : bool) (executor_ : option (bool * bool))
    : runner :=
  if KCENON_HAS_COMMON_SYSTEM then
    match executor_ with
    | Some (is_running, execute_ok) =>
        if is_running then (if execute_ok : bool then Pool else Detached) else Detached
    | None => Detached
    end
  else Detached.

Module async_executor_context.
Section Context.
Context {Executor : Type}.

(** [executor_], null when absent. *)
Definition t : Type := option Executor.
Definition new : t := None.
Definition set_executor (executor : t) (c : t) : t := executor.
Definition get_executor (c : t) : t := c.
Definition has_executor (KCENON_HAS_COMMON_SYSTEM : bool) (c : t) : bool :=
  if KCENON_HAS_COMMON_SYSTEM then bool_decide (is_Some c) else false.
Definition clear_executor (KCENON_HAS_COMMON_SYSTEM : bool) (c : t) : t :=
  if KCENON_HAS_COMMON_SYSTEM then None else c.

(** [executor_context_guard]: its constructor and destructor on the context. *)
Definition guard_enter (executor : t) (c : t) : t * t := (get_executor c, set_executor executor c).
Definition guard_exit (previous : t) (c : t) : t := set_executor previous c.

(** Guards nested like scopes around [body]. *)
Fixpoint guarded (executors : list t) (body : t → t) (c : t) : t :=
  match executors with
  | [] => body c
  | ex :: rest =>
      let (previous, c) := guard_enter ex c in
      guard_exit previous (guarded rest body c)
  end.
End Context.
End async_executor_context.

(** ** Examples *)

Section Examples.
Import task.

(** Work that takes the first byte of a queue and throws when it is empty. *)
Definition pop (q : list Z) : list Z * (Z + unit) :=
  match q with [] => ([], inr tt) | x :: q' => (q', inl x) end.

Example polling_run :
  let s := run pop (start [7; 8])
    ([By_client Poll] ++ replicate 8 By_worker ++ [By_client Poll; By_client Get; By_client Drop]) in
  (world s, client s, frame_ s, ub s) = ([8], C_dropped, F_destroyed, false).
Proof. by vm_compute. Qed.

Example awaiting_run :
  ub (run pop (start [7; 8]) ([By_worker; By_client Await; By_worker] ++ replicate 4 (By_client Go)
    ++ [By_worker])) = true.
Proof. by vm_compute. Qed.
End Examples.

(** ** Correctness *)

Section Facts.
Import task.
Context {W T E : Type} (work : W → W * (T + E)).
Abbreviation sys := (sys (W := W) (T := T) (E := E)).

(** What holds after every step of a careful owner: where the worker stands
    determines the rest, and the work is done exactly once. *)
Definition client_ok (s : sys) (r : T + E) : Prop :=
  match client s with
  | C_idle _ => frame_ s = F_final
  | C_result r' => r' = r ∧ frame_ s = F_final
  | C_dropped => frame_ s = F_destroyed
  | _ => False
  end.

Definition inv (w0 : W) (s : sys) : Prop :=
  let w1 := (work w0).1 in
  let r := (work w0).2 in
  ub s = false ∧
  match worker s with
  | W_work => world s = w0 ∧ frame_ s = F_suspended ∧ continuation_ s = false ∧
      completed_ s = false ∧ client s = C_idle false
  | W_publish => world s = w1 ∧ cell s = Some r ∧ frame_ s = F_suspended ∧
      continuation_ s = false ∧ completed_ s = false ∧ client s = C_idle false
  | W_resume => world s = w1 ∧ cell s = Some r ∧ ready_ s = true ∧ frame_ s = F_suspended ∧
      continuation_ s = false ∧ completed_ s = false ∧ client s = C_idle false
  | W_run => world s = w1 ∧ cell s = Some r ∧ ready_ s = true ∧ completed_ s = false ∧
      continuation_ s = false ∧ client s = C_idle false ∧
      ∃ p, frame_ s = F_running Worker p ∧
        match p with
        | P_final => promise s = Some r
        | P_complete k => k = false ∧ promise s = Some r
        | _ => True
        end
  | W_transfer k => k = false ∧ world s = w1 ∧ promise s = Some r ∧ completed_ s = true ∧ client_ok s r
  | W_end => world s = w1 ∧ promise s = Some r ∧ completed_ s = true ∧ client_ok s r
  end.

Lemma inv_start w0 : inv w0 (start w0).
Proof. done. Qed.

Lemma inv_worker w0 s : inv w0 s → inv w0 (worker_step work s).
Proof.
  unfold inv, worker_step. intros [Hub H]. rewrite Hub.
  destruct (worker s) eqn:Hw; cbn.
  - destruct H as (-> & Hf & Hk & Hc & Hcl). destruct (work w0) as [w r] eqn:Ew. by cbn.
  - by destruct H as (? & ? & ? & ? & ? & ?).
  - destruct H as (? & ? & ? & Hf & ? & ? & ?). unfold resume. cbn. rewrite Hf. cbn.
    split_and!; try done. by exists P_await_resume.
  - destruct H as (Hwd & Hce & Hr & Hco & Hk & Hcl & p & Hf & Hp). rewrite Hf.
    destruct p as [| | |k]; cbn.
    + rewrite Hr. cbn. rewrite Hw. split_and!; try done. by exists P_return.
    + rewrite Hce. cbn. rewrite Hw. split_and!; try done. by exists P_final.
    + rewrite Hw. split_and!; try done. exists (P_complete (continuation_ s)). by rewrite Hk.
    + destruct Hp as [-> Hp]. unfold client_ok. cbn. by rewrite Hcl.
  - destruct H as (-> & ? & ? & ? & ?). by cbn.
  - cbn. by rewrite Hw.
Qed.

(** A careful owner of a completed task. *)
Lemma completed_client a s r :
  careful s (By_client a) = true → ub s = false → promise s = Some r → client_ok s r →
  let s' := client_step a s in
  ub s' = false ∧ worker s' = worker s ∧ world s' = world s ∧ promise s' = promise s ∧
  (completed_ s = true → completed_ s' = true) ∧ client_ok s' r.
Proof.
  unfold client_ok, client_step, careful. intros Ha Hub Hp Hcl. rewrite Hub.
  destruct (client s) as [seen| | |r'|] eqn:Hc; try done.
  - destruct a; cbn; unfold get_result, handle_done; rewrite ?Hcl, ?Hp; cbn; rewrite ?Hc, ?Hcl; by split_and!.
  - destruct Hcl as [-> Hcl]. destruct a; cbn; rewrite ?Hcl; cbn; rewrite ?Hc, ?Hcl; by split_and!.
  - destruct a; cbn; rewrite ?Hc, ?Hcl; by split_and!.
Qed.

Lemma inv_client w0 a s : careful s (By_client a) = true → inv w0 s → inv w0 (client_step a s).
Proof.
  unfold inv. intros Ha [Hub H]. destruct (worker s) eqn:Hw.
  1-4: repeat match goal with H : _ ∧ _ |- _ => destruct H | H : ∃ _, _ |- _ => destruct H end;
    unfold careful, client_step in *; rewrite Hub;
    match goal with Hc : client _ = _ |- _ => rewrite Hc in Ha |- * end;
    destruct a; try done; cbn;
    match goal with Hf : frame_ _ = _, Hco : completed_ _ = false |- _ => rewrite Hf, Hco end; cbn;
    rewrite Hw; split_and!; eauto 10.
  - destruct H as (-> & Hwd & Hp & Hco & Hcl).
    destruct (completed_client a s _ Ha Hub Hp Hcl) as (? & E1 & E2 & E3 & E4 & ?).
    rewrite E1, Hw, E2, E3. auto 10.
  - destruct H as (Hwd & Hp & Hco & Hcl).
    destruct (completed_client a s _ Ha Hub Hp Hcl) as (? & E1 & E2 & E3 & E4 & ?).
    rewrite E1, Hw, E2, E3. auto 10.
Qed.

Lemma inv_run w0 es s : careful_run work s es = true → inv w0 s → inv w0 (run work s es).
Proof.
  revert s. induction es as [|e es IH]; intros s; cbn; [done|].
  intros [He Hes]%andb_true_iff Hs. apply IH; [done|].
  destruct e; [by apply inv_worker|by apply inv_client].
Qed.
(** The worker steps left until [completed_] is set. *)
Definition remaining (s : sys) : nat :=
  match worker s with
  | W_work => 7 | W_publish => 6 | W_resume => 5
  | W_run =>
      match frame_ s with
      | F_running _ P_await_resume => 4 | F_running _ P_return => 3
      | F_running _ P_final => 2 | F_running _ (P_complete _) => 1
      | _ => 0
      end
  | W_transfer _ | W_end => 0
  end.

Lemma remaining_worker w0 s : inv w0 s → remaining (worker_step work s) = (remaining s - 1)%nat.
Proof.
  unfold inv, worker_step, remaining. intros [Hub H]. rewrite Hub.
  destruct (worker s) as [| | | |k|] eqn:Hw.
  - by destruct (work (world s)).
  - done.
  - destruct H as (? & ? & ? & Hf & _). unfold resume. cbn. by rewrite Hf.
  - destruct H as (_ & Hce & Hr & _ & _ & _ & p & Hf & _). rewrite Hf.
    destruct p; cbn; rewrite ?Hr, ?Hce; cbn; by rewrite ?Hw.
  - destruct H as [-> _]. done.
  - by rewrite Hw.
Qed.

Lemma remaining_client w0 a s :
  careful s (By_client a) = true → inv w0 s → remaining (client_step a s) = remaining s.
Proof.
  intros Ha Hs. pose proof (inv_client w0 a s Ha Hs) as [_ Hs']. destruct Hs as [Hub Hs].
  unfold remaining. destruct (worker s) eqn:Hw.
  1-4: repeat match goal with H : _ ∧ _ |- _ => destruct H | H : ∃ _, _ |- _ => destruct H end;
    unfold careful, client_step in *; rewrite Hub in *;
    match goal with Hc : client _ = _ |- _ => rewrite Hc in Ha |- * end;
    destruct a; try done; cbn; rewrite ?Hw; try done;
    match goal with Hf : frame_ _ = _ |- _ => rewrite Hf; cbn; by rewrite ?Hw, ?Hf end.
  all: assert (∃ r, promise s = Some r ∧ client_ok s r) as (r & Hp & Hc) by
    (repeat match goal with H : _ ∧ _ |- _ => destruct H end; eauto);
    destruct (completed_client a s r Ha Hub Hp Hc) as (_ & -> & _); by rewrite Hw.
Qed.

Lemma remaining_run w0 es s :
  careful_run work s es = true → inv w0 s →
  remaining (run work s es) = (remaining s - worker_steps es)%nat.
Proof.
  revert s. induction es as [|e es IH]; intros s; [unfold worker_steps; cbn; lia|].
  change (run work s (e :: es)) with (run work (step work s e) es). cbn [careful_run].
  intros [He Hes]%andb_true_iff Hs. unfold worker_steps in *. destruct e; cbn [List.filter length step] in *.
  - rewrite IH, (remaining_worker w0) by (try done; by apply inv_worker). lia.
  - by rewrite IH, (remaining_client w0) by (try done; by apply inv_client).
Qed.

Lemma remaining_completed w0 s : inv w0 s → remaining s = 0%nat → completed_ s = true.
Proof.
  unfold inv, remaining. intros [_ H]. destruct (worker s); try done.
  - destruct H as (_ & _ & _ & _ & _ & _ & p & Hf & _). rewrite Hf. by destruct p.
  - by destruct H as (_ & _ & _ & ? & _).
  - by destruct H as (_ & _ & ? & _).
Qed.

(** ** The two theorems *)

(** C36. An owner that touches a task only after [done()] returned true is safe
    in every interleaving: nothing undefined happens, the work has been done
    exactly once when a result is taken, and that result is its outcome.  Seven
    steps of the worker complete the task. *)
Theorem polling_owner_safe w0 es :
  careful_run work (start w0) es = true →
  let s := run work (start w0) es in
  ub s = false ∧
  (∀ r, client s = C_result r → r = (work w0).2 ∧ world s = (work w0).1) ∧
  (7 ≤ worker_steps es → completed_ s = true)%nat.
Proof.
  intros Hes s. pose proof (inv_run w0 es _ Hes (inv_start w0)) as Hs.
  pose proof (remaining_run w0 es _ Hes (inv_start w0)) as Hr. fold s in Hs, Hr.
  split_and!; [by destruct Hs|..].
  - intros r Hc. destruct Hs as [_ Hs]. unfold client_ok in Hs. rewrite Hc in Hs.
    destruct (worker s); naive_solver.
  - intros Hn. apply (remaining_completed w0); [done|]. cbn in Hr. lia.
Qed.

Lemma run_undefined es s : ub s = true → run work s es = s.
Proof.
  intros Hs. induction es as [|[|a] es IH]; cbn; [done|..];
    unfold worker_step, client_step; by rewrite Hs.
Qed.

(** The coroutine is not where the worker will resume it. *)
Definition doomed (k : nat) (s : sys) : Prop :=
  ub s = true ∨
  (frame_ s ≠ F_suspended ∧
   match worker s with
   | W_work => 3 ≤ k | W_publish => 2 ≤ k | W_resume => 1 ≤ k | _ => False
   end)%nat.

Lemma doomed_worker k s : doomed (S k) s → doomed k (worker_step work s).
Proof.
  unfold doomed, worker_step. destruct (ub s) eqn:Hub; [auto|].
  intros [|[Hf Hk]]; [done|]. destruct (worker s); try done.
  - destruct (work (world s)). right. cbn. split; [done|lia].
  - right. cbn. split; [done|lia].
  - left. unfold resume. cbn. by destruct (frame_ s).
Qed.

Lemma doomed_client k a s : doomed k s → doomed k (client_step a s).
Proof.
  unfold doomed, client_step, get_result, handle_done, resume.
  destruct (ub s) eqn:Hub; [auto|]. intros [|[Hf Hk]]; [done|].
  destruct (client s) as [seen| |[|]|r|], a; try (by right);
    destruct (frame_ s) as [|[|] [| | |k']| |] eqn:Hfr; cbn; try (by left);
    repeat (case_match; cbn); try (by left); right; rewrite ?Hfr; by split.
Qed.

Lemma doomed_run es k s : doomed k s → (k ≤ worker_steps es)%nat → ub (run work s es) = true.
Proof.
  revert k s. induction es as [|e es IH]; intros k s Hs Hk; unfold worker_steps in Hk; cbn in Hk.
  - destruct Hs as [|[_ Hw]]; [done|]. destruct (worker s); first [done|lia].
  - change (run work s (e :: es)) with (run work (step work s e) es). destruct e; cbn [step]; cbn in Hk.
    + destruct k as [|k]; [|apply (IH k); [by apply doomed_worker|unfold worker_steps; lia]].
      destruct Hs as [Hs|[_ Hw]]; [|destruct (worker s); first [done|lia]].
      cbn. unfold worker_step. rewrite Hs. by rewrite run_undefined.
    + apply (IH k); [by apply doomed_client|done].
Qed.

(** Any other use of a task before its worker has resumed the coroutine is
    undefined in the end, whatever happens afterwards: [co_await] and [resume()]
    run the coroutine, the destructor destroys it, and the worker resumes it
    all the same; [get()] reads a result that is not there. *)
Theorem unfinished_use_undefined w0 es0 a es :
  careful_run work (start w0) es0 = true → (worker_steps es0 ≤ 2)%nat →
  a ≠ Poll → a ≠ Go → (3 ≤ worker_steps es)%nat →
  ub (run work (start w0) (es0 ++ By_client a :: es)) = true.
Proof.
  intros Hes0 Hn Ha Ha' Hn'. unfold run. rewrite foldl_app. cbn.
  pose proof (inv_run w0 es0 _ Hes0 (inv_start w0)) as [Hub Hs].
  pose proof (remaining_run w0 es0 _ Hes0 (inv_start w0)) as Hr. cbn in Hr.
  unfold run in Hs, Hr, Hub. set (s := foldl (step work) (start w0) es0) in *.
  apply (doomed_run es 3 (client_step a s)); [|done].
  unfold remaining in Hr. unfold doomed, client_step. rewrite Hub.
  destruct (worker s) as [| | | |k|] eqn:Hw; try lia;
    [..|repeat case_match; lia];
    repeat match goal with H : _ ∧ _ |- _ => destruct H end;
    match goal with Hc : client _ = _, Hf : frame_ _ = _ |- _ =>
      rewrite Hc; destruct a; try done; unfold get_result, handle_done, resume; cbn;
      rewrite ?Hf; cbn; rewrite ?Hf; cbn; rewrite ?Hw
    end; first [by left | right; split; [done|lia]].
Qed.
End Facts.

Section Witnesses.
Import task.

Definition polling_schedule : list event :=
  [By_client Poll] ++ replicate 8 By_worker ++ [By_client Poll; By_client Await].

Lemma polling_owner_safe_witness :
  careful_run pop (start [7; 8]) polling_schedule = true ∧
  let s := run pop (start [7; 8]) polling_schedule in
  ub s = false ∧ (∀ r, client s = C_result r → r = (pop [7; 8]).2 ∧ world s = (pop [7; 8]).1) ∧
  (7 ≤ worker_steps polling_schedule → completed_ s = true)%nat.
Proof. split; [by vm_compute|]. apply (polling_owner_safe pop [7; 8]). by vm_compute. Defined.

Lemma unfinished_use_undefined_witness :
  ub (run pop (start [7; 8]) ([By_worker] ++ By_client Await :: replicate 4 By_worker)) = true.
Proof.
  apply (unfinished_use_undefined pop [7; 8] [By_worker] Await (replicate 4 By_worker));
    [by vm_compute|vm_compute; lia|done|done|vm_compute; lia].
Defined.
End Witnesses.

(** ** Ownership and guards *)

Section Owner.
Context {H : Type}.
Implicit Types (objs : list (option H)) (x y : option H).

Lemma owned_at objs j x y : objs !! j = Some x →
  owner.owned objs ≡ₚ option_list x ++ owner.owned (delete j objs) ∧
  owner.owned (<[j := y]> objs) ≡ₚ option_list y ++ owner.owned (delete j objs).
Proof.
  intros Hj. destruct (list_elem_of_split_length _ _ _ Hj) as (pre & post & -> & ->).
  rewrite delete_middle, insert_app_r_alt, Nat.sub_diag by done. cbn. unfold owner.owned.
  rewrite !bind_app. cbn. split; solve_Permutation.
Qed.

Lemma owned_app objs x : owner.owned (objs ++ [x]) = owner.owned objs ++ option_list x.
Proof. unfold owner.owned. rewrite bind_app. cbn. by rewrite app_nil_r. Qed.

(** Every handle is owned by one object or has been destroyed once, through any
    operation, self-moves included. *)
Lemma handles_conserved (o : owner.op) objs (gone : list H) :
  let (objs', gone') := owner.exec (objs, gone) o in
  owner.owned objs' ++ gone' ≡ₚ
    (match o with owner.Create h => [h] | _ => [] end) ++ owner.owned objs ++ gone.
Proof.
  destruct o as [h|j|i j|i]; cbn.
  - rewrite owned_app. cbn. solve_Permutation.
  - destruct (objs !! j) as [x|] eqn:Hj; [|done]. cbn. rewrite owned_app.
    destruct (owned_at objs j x None Hj) as [-> ->]. cbn. solve_Permutation.
  - destruct (objs !! i) as [x|] eqn:Hi; [|done]. destruct (objs !! j) as [y|] eqn:Hj; [|done].
    unfold owner.move_assign. destruct (decide (i = j)) as [->|Hne].
    + rewrite bool_decide_eq_true_2 by done. cbn. rewrite app_nil_r.
      by rewrite !list_insert_id by (by rewrite ?list_insert_id).
    + rewrite bool_decide_eq_false_2 by done. cbn.
      assert (<[j := None]> objs !! i = Some x) as Hi' by (by rewrite list_lookup_insert_ne).
      destruct (owned_at objs j y None Hj) as [E1 E2].
      destruct (owned_at (<[j := None]> objs) i x y Hi') as [E3 ->].
      rewrite E2 in E3. cbn in E3. rewrite E1, E3. solve_Permutation.
  - destruct (objs !! i) as [x|] eqn:Hi; [|done]. cbn.
    destruct (owned_at objs i x None Hi) as [-> _]. solve_Permutation.
Qed.
End Owner.

(** Nested guards leave the executor that was set before. *)
Lemma guards_restore {X} (exs : list (option X)) body (c : option X) :
  exs ≠ [] → async_executor_context.guarded exs body c = c.
Proof. by destruct exs. Qed.
