(* ===== verification/Generator.v ===== *)
(** * Generators: [internal/async/generator.h]

    A generator is a coroutine that suspends at every [co_yield].  A body is a
    step function on the state of its locals, so that it may go on for ever;
    the frame is that state, where it is suspended, with the promise
    ([current_value_], [exception_]).  Everything an object does with its handle
    is here: [begin], [++], the comparison with the sentinel, dereferencing, and
    the loop a range-based [for] runs; then the two adaptors of the header.
    Resuming a coroutine that has finished, and any use of a null handle other
    than [begin], is undefined. *)

From S2P Require Import Prelude.

(** What the body does until it is suspended again. *)
Inductive outcome (S T E : Type) : Type :=
| Yielded (v : T) (s : S)         (* [co_yield v] *)
| Completed                        (* fell off the end, [co_return] *)
| Threw (e : E).
Arguments Yielded {S T E} _ _.
Arguments Completed {S T E}.
Arguments Threw {S T E} _.

Inductive point (S : Type) : Type := At (s : S) | Finished.
Arguments At {S} _.
Arguments Finished {S}.

Record generator_frame (S T E : Type) : Type := Frame {
  at_ : point S; current_value_ : option T; exception_ : option E }.
Arguments Frame {S T E} _ _ _.
Arguments at_ {S T E} _.
Arguments current_value_ {S T E} _.
Arguments exception_ {S T E} _.

Module generator.
Section Generator.
Context {S T E : Type} (body : S → res (outcome S T E)).

(** The object: its handle may be null. *)
Definition t : Type := option (generator_frame S T E).

(** [generator()] and the call of the coroutine, which suspends before its
    first statement. *)
Definition empty : t := None.
Definition create (locals : S) : t := Some (Frame (At locals) None None).
Definition valid (g : t) : bool := bool_decide (is_Some g).

(** [handle.resume()], with [yield_value], [return_void] and [unhandled_exception]. *)
Definition resume (f : generator_frame S T E) : res (generator_frame S T E) :=
  match at_ f with
  | Finished => Undef
  | At s =>
      let? o := body s in
      Val (match o with
           | Yielded v s' => Frame (At s') (Some v) (exception_ f)
           | Completed => Frame Finished (current_value_ f) (exception_ f)
           | Threw e => Frame Finished (current_value_ f) (Some e)
           end)
  end.

Definition done (f : generator_frame S T E) : bool :=
  match at_ f with Finished => true | At _ => false end.

(** [resume] and [rethrow_if_exception], the body of [++]; an exception passes
    to the caller. *)
Definition advance (f : generator_frame S T E) : res (generator_frame S T E * (unit + E)) :=
  let? f := resume f in
  Val (f, match done f, exception_ f with true, Some e => inr e | _, _ => inl tt end).

Definition begin (g : t) : res (t * (unit + E)) :=
  match g with
  | Some f => let? (f, r) := advance f in Val (Some f, r)
  | None => Val (None, inl tt)
  end.

(** The iterator is the handle of its generator. *)
Definition incr (g : t) : res (t * (unit + E)) :=
  match g with
  | Some f => let? (f, r) := advance f in Val (Some f, r)
  | None => Undef
  end.

Definition at_end (g : t) : res bool :=
  match g with Some f => Val (done f) | None => Undef end.

(** The address of the yielded object is good while the body is suspended there. *)
Definition deref (g : t) : res T :=
  match g with
  | Some f => match at_ f, current_value_ f with At _, Some v => Val v | _, _ => Undef end
  | None => Undef
  end.

(** The rest of [for (auto&& element : gen)] after [begin]: the elements seen and
    the exception that ended the loop. *)
Fixpoint loop (fuel : nat) (g : t) : res (list T * option E) :=
  match fuel with
  | O => NoFuel
  | Datatypes.S fuel =>
      let? stop := at_end g in
      if stop : bool then Val ([], None)
      else
        let? v := deref g in
        let? (g, r) := incr g in
        match r with
        | inl _ => let? (vs, ended) := loop fuel g in Val (v :: vs, ended)
        | inr e => Val ([v], Some e)
        end
  end.

Definition for_each (fuel : nat) (g : t) : res (list T * option E) :=
  let? (g, r) := begin g in
  match r with inl _ => loop fuel g | inr e => Val ([], Some e) end.
End Generator.
End generator.

(** ** [from_range] *)

(** The locals: the elements ahead, and whether the range still exists; the
    parameter [Range&&] is kept as a reference. *)
Definition from_range_body {T E} (alive : bool) (rest : list T) : res (outcome (list T) T E) :=
  if alive then
    match rest with
    | [] => Val Completed
    | x :: rest' => Val (Yielded x rest')
    end
  else Undef.

(** ** [take] *)

Section Take.
Context {S T E : Type} (body : S → res (outcome S T E)).

(** Before the loop, and at the [co_yield] in it. *)
Inductive take_locals : Type :=
| Take_start (gen : @generator.t S T E) (count : nat)
| Take_at (gen : @generator.t S T E) (count yielded : nat).

(** The loop from its test: [it != end], then [if (yielded++ >= count) break]. *)
Definition take_test (gen : @generator.t S T E) (count yielded : nat)
    : res (outcome take_locals T E) :=
  let? stop := generator.at_end gen in
  if stop : bool then Val Completed
  else
    let? element := generator.deref gen in
    if (count <=? yielded)%nat then Val Completed
    else Val (Yielded element (Take_at gen count (Datatypes.S yielded))).

Definition take_body (s : take_locals) : res (outcome take_locals T E) :=
  match s with
  | Take_start gen count =>
      let? (gen, r) := generator.begin body gen in
      match r with inl _ => take_test gen count 0 | inr e => Val (Threw e) end
  | Take_at gen count yielded =>
      let? (gen, r) := generator.incr body gen in
      match r with inl _ => take_test gen count yielded | inr e => Val (Threw e) end
  end.
End Take.

(** ** Examples *)

(** [for (int i = start; i < end; ++i) co_yield i;] and one without an end. *)
Definition counting (stop : option Z) (i : Z) : res (outcome Z Z unit) :=
  match stop with
  | Some n => if i <? n then Val (Yielded i (i + 1)) else Val Completed
  | None => Val (Yielded i (i + 1))
  end.

Example generators_run :
  generator.for_each (counting (Some 3)) 10 (generator.create 0) = Val ([0; 1; 2], None) ∧
  generator.for_each (take_body (counting None)) 10
    (generator.create (Take_start (generator.create 0) 3)) = Val ([0; 1; 2], None) ∧
  generator.for_each (counting None) 10 (generator.create 0) = NoFuel ∧
  generator.for_each (counting None) 10 generator.empty = Undef.
Proof. by vm_compute. Qed.

(** ** What a generator emits *)

Section Emits.
Context {S T E : Type} (body : S → res (outcome S T E)).

(** The elements the body yields from the locals [s] on, and how it ends. *)
Inductive emits : S → list T → option E → Prop :=
| emits_return s : body s = Val Completed → emits s [] None
| emits_throw s e : body s = Val (Threw e) → emits s [] (Some e)
| emits_yield s v s' vs r : body s = Val (Yielded v s') → emits s' vs r → emits s (v :: vs) r.

(** One resumption of a suspended generator. *)
Lemma advance_at s o cur : body s = Val o →
  generator.advance body (Frame (At s) cur None) =
  Val (match o with
       | Yielded v s' => (Frame (At s') (Some v) None, inl tt)
       | Completed => (Frame Finished cur None, inl tt)
       | Threw e => (Frame Finished cur (Some e), inr e)
       end).
Proof.
  intros Hb. unfold generator.advance, generator.resume. cbn. rewrite Hb. cbn. by destruct o.
Qed.

Lemma loop_at s v fuel :
  generator.loop body (Datatypes.S fuel) (Some (Frame (At s) (Some v) None)) =
  let? (f, r) := generator.advance body (Frame (At s) (Some v) None) in
  match r with
  | inl _ => let? (vs, ended) := generator.loop body fuel (Some f) in Val (v :: vs, ended)
  | inr e => Val ([v], Some e)
  end.
Proof. cbn. by destruct (generator.advance body _) as [[f [[]|e]]| |]. Qed.

Lemma loop_emits s v vs r fuel :
  emits s vs r → (length vs < fuel)%nat →
  generator.loop body (Datatypes.S fuel) (Some (Frame (At s) (Some v) None)) = Val (v :: vs, r).
Proof.
  intros H. revert v fuel. induction H as [s Hb|s e Hb|s w s' vs r Hb _ IH]; intros v fuel Hf;
    (destruct fuel as [|fuel]; [cbn in Hf; lia|]);
    rewrite loop_at, (advance_at _ _ _ Hb), res_bind_val; [done|done|].
  rewrite IH by (cbn in Hf; lia). done.
Qed.

(** A range-based [for] over a fresh generator sees exactly what the body
    emits, then the end or the exception. *)
Theorem for_each_emits s vs r fuel :
  emits s vs r → (length vs + 1 < fuel)%nat →
  generator.for_each body fuel (generator.create s) = Val (vs, r).
Proof.
  intros H Hf. unfold generator.for_each, generator.create, generator.begin.
  destruct fuel as [|[|fuel]]; [lia..|].
  destruct H as [s Hb|s e Hb|s w s' vs r Hb H]; rewrite (advance_at _ _ _ Hb);
    rewrite !res_bind_val; [done..|].
  apply loop_emits; [done|]. cbn in Hf. lia.
Qed.
End Emits.

(** ** The adaptors *)

Section Adaptors.
Context {S T E : Type} (body : S → res (outcome S T E)).

(** The body yields [vs] first, whatever it does then. *)
Inductive starts : S → list T → Prop :=
| starts_nil s : starts s []
| starts_yield s v s' vs : body s = Val (Yielded v s') → starts s' vs → starts s (v :: vs).

Notation suspended s v := (Some (Frame (At s) (Some v) None)).

(** [take] behind its [co_yield]: the next element is fetched before the count
    is looked at. *)
Lemma take_next s v count yielded o : body s = Val o →
  take_body body (Take_at (suspended s v) count yielded) =
  Val (match o with
       | Yielded w s' =>
           if (count <=? yielded)%nat then Completed
           else Yielded w (Take_at (suspended s' w) count (Datatypes.S yielded))
       | Completed => Completed
       | Threw e => Threw e
       end).
Proof.
  intros Hb. cbn -[Nat.leb]. rewrite (advance_at _ _ _ _ Hb).
  destruct o as [w s'| |e]; cbn -[Nat.leb]; [|done..]. by destruct (count <=? yielded)%nat.
Qed.

Lemma take_first s count o : body s = Val o →
  take_body body (Take_start (generator.create s) count) =
  Val (match o with
       | Yielded w s' =>
           if (count <=? 0)%nat then Completed else Yielded w (Take_at (suspended s' w) count 1)
       | Completed => Completed
       | Threw e => Threw e
       end).
Proof.
  intros Hb. cbn -[Nat.leb]. rewrite (advance_at _ _ _ _ Hb).
  destruct o as [w s'| |e]; cbn -[Nat.leb]; [|done..]. by destruct (count <=? 0)%nat.
Qed.

Definition ended (count : nat) (vs : list T) (r : option E) : option E :=
  if (length vs <=? count)%nat then r else None.

Lemma take_rest_emits s v vs r count yielded :
  emits body s vs r → (yielded ≤ count)%nat →
  emits (take_body body) (Take_at (suspended s v) count yielded)
    (take (count - yielded) vs) (ended (count - yielded) vs r).
Proof.
  intros H. revert v yielded. induction H as [s Hb|s e Hb|s w s' vs r Hb _ IH]; intros v yielded Hy;
    pose proof (take_next s v count yielded _ Hb) as E1.
  - rewrite take_nil. by apply emits_return.
  - rewrite take_nil. by apply emits_throw.
  - cbn -[Nat.leb] in E1. destruct (Nat.leb_spec count yielded).
    + replace (count - yielded)%nat with 0%nat by lia. by apply emits_return.
    + replace (count - yielded)%nat with (Datatypes.S (count - Datatypes.S yielded)) by lia.
      eapply emits_yield; [exact E1|]. apply IH. lia.
Qed.

Lemma take_rest_starts s v vs count yielded :
  starts s vs → (yielded ≤ count)%nat → (count - yielded < length vs)%nat →
  emits (take_body body) (Take_at (suspended s v) count yielded) (take (count - yielded) vs) None.
Proof.
  intros H. revert v yielded. induction H as [s|s w s' vs Hb _ IH]; intros v yielded Hy Hl;
    [cbn in Hl; lia|]. pose proof (take_next s v count yielded _ Hb) as E1.
  cbn -[Nat.leb] in E1. destruct (Nat.leb_spec count yielded).
  - replace (count - yielded)%nat with 0%nat by lia. by apply emits_return.
  - replace (count - yielded)%nat with (Datatypes.S (count - Datatypes.S yielded)) by lia.
    eapply emits_yield; [exact E1|]. apply IH; [lia|]. cbn in Hl. lia.
Qed.

(** [take] emits the first [count] elements of its source, also of a source
    that never ends.  It fetches one element more than it emits: what the
    source throws right behind the last element wanted still ends it. *)
Theorem take_emits s count :
  (∀ vs r, emits body s vs r →
     emits (take_body body) (Take_start (generator.create s) count) (take count vs)
       (if (length vs <=? count)%nat then r else None)) ∧
  (∀ vs, starts s vs → (count < length vs)%nat →
     emits (take_body body) (Take_start (generator.create s) count) (take count vs) None).
Proof.
  split.
  - intros vs r H. destruct H as [s Hb|s e Hb|s w s' vs r Hb H];
      pose proof (take_first s count _ Hb) as E1.
    + rewrite take_nil. by apply emits_return.
    + rewrite take_nil. by apply emits_throw.
    + destruct count as [|n]; [by apply emits_return|]. cbn -[Nat.leb take_body] in E1.
      eapply emits_yield; [exact E1|].
      pose proof (take_rest_emits s' w vs r (Datatypes.S n) 1 H ltac:(lia)) as H1.
      unfold ended in H1. by rewrite Nat.sub_succ, Nat.sub_0_r in H1.
  - intros vs H Hl. destruct H as [s|s w s' vs Hb H]; [cbn in Hl; lia|].
    pose proof (take_first s count _ Hb) as E1.
    destruct count as [|n]; [by apply emits_return|]. cbn -[Nat.leb take_body] in E1.
    eapply emits_yield; [exact E1|].
    pose proof (take_rest_starts s' w vs (Datatypes.S n) 1 H ltac:(lia)) as H1.
    rewrite Nat.sub_succ, Nat.sub_0_r in H1. apply H1. cbn in Hl. lia.
Qed.
End Adaptors.

(** [from_range] emits the range while it exists; of a temporary, which ends with
    the expression that created the generator, the first resumption is undefined. *)
Lemma from_range_emits {T E} (xs : list T) :
  emits (E := E) (from_range_body true) xs xs None ∧
  ∀ fuel, generator.for_each (E := E) (from_range_body false) fuel (generator.create xs) = Undef.
Proof.
  split; [|done]. induction xs as [|x xs IH]; [by apply emits_return|].
  eapply emits_yield; [done|exact IH].
Qed.

(** An empty generator can be begun but not compared with the end. *)
Lemma empty_generator {S T E} (body : S → res (outcome S T E)) :
  generator.begin body generator.empty = Val (generator.empty, inl tt) ∧
  generator.at_end (S := S) (T := T) (E := E) generator.empty = Undef.
Proof. done. Qed.

(** ** Witnesses *)

Lemma counting_emits stop : emits (counting (Some (Z.of_nat stop))) 0 (Z.of_nat <$> seq 0 stop) None.
Proof.
  enough (∀ n i, (i + n = stop)%nat →
    emits (counting (Some (Z.of_nat stop))) (Z.of_nat i) (Z.of_nat <$> seq i n) None) as H
    by (apply (H stop 0%nat); lia).
  induction n as [|n IH]; intros i Hi; cbn.
  - apply emits_return. unfold counting. destruct (Z.ltb_spec (Z.of_nat i) (Z.of_nat stop)); [lia|done].
  - eapply emits_yield; [|apply (IH (Datatypes.S i)); lia].
    unfold counting. destruct (Z.ltb_spec (Z.of_nat i) (Z.of_nat stop)); [|lia].
    do 2 f_equal. lia.
Qed.

Lemma for_each_emits_witness :
  generator.for_each (counting (Some 3)) 6 (generator.create 0) = Val ([0; 1; 2], None).
Proof.
  apply (for_each_emits (counting (Some 3)) 0 [0; 1; 2] None 6); [apply (counting_emits 3)|simpl; lia].
Defined.

Lemma take_emits_witness :
  emits (take_body (counting (Some 5))) (Take_start (generator.create 0) 2) [0; 1] None ∧
  emits (take_body (counting None)) (Take_start (generator.create 0) 2) [0; 1] None.
Proof.
  split.
  - exact (proj1 (take_emits (counting (Some 5)) 0 2) [0; 1; 2; 3; 4] None (counting_emits 5)).
  - apply (proj2 (take_emits (counting None) 0 2) [0; 1; 2]); [|simpl; lia].
    repeat (eapply starts_yield; [reflexivity|]). constructor.
Defined.
