(* ===== verification/AsyncContainer.v ===== *)
(** * Files, chunks and the asynchronous API of a container

    [load_packet_result] and [save_packet_result] of [core/container.cpp], and
    the operations of [internal/async/async_container.h].  An asynchronous
    operation is the work its coroutine hands to the thread (Async.v says what
    becomes of it) with the parameter copies made before; each exists twice,
    with results ([CONTAINER_HAS_COMMON_RESULT]) and without.

    Files are a map from paths to bytes.  What the operating system may refuse
    is a [device]: opening, the size, each read and each write by its offset,
    and what a file holds once a stream that wrote some bytes has been
    destroyed (its destructor flushes and reports nothing).  The progress
    callback is the list of calls it gets. *)

#[local] Set Warnings "-register-all".
From S2P Require Import Prelude Float Msgpack Types ErrorCodes UnorderedMap Validation Container.
From S2P Require Import ContainerMsgpack Regex Numbers Text Schema Serializers Generator.
Import value_container unified text_container.

Record device : Type := Device {
  opens_for_reading : string → bool;
  tells : string → bool;
  reads : string → nat → bool;
  opens_for_writing : string → bool;
  writes : string → nat → bool;
  kept : string → list byte → list byte }.

Definition disk : Type := gmap string (list byte).

(** The calls of [callback(bytes_processed, total_bytes)], when there is one. *)
Definition calls : Type := list (nat * nat).
Definition call (callback : bool) (processed total : nat) (cs : calls) : calls :=
  if callback then cs ++ [(processed, total)] else cs.

Definition file_error (code : Z) (path : string) : error_info :=
  error code (error_codes.make_message code path).

(** ** Streams *)

Section Streams.
Context (dev : device) (chunk_size : nat).

(** [while (bytes_read < size)] with [std::min(chunk_size, size - bytes_read)];
    [None] when a read fails.  [buffer] is the part filled so far. *)
Fixpoint read_loop (fuel : nat) (path : string) (file : list byte) (callback : bool)
    (bytes_read : nat) (buffer : list byte) (cs : calls) : res (option (list byte) * calls) :=
  match fuel with
  | O => NoFuel
  | S fuel =>
      let size := length file in
      if (bytes_read <? size)%nat then
        let to_read := Nat.min chunk_size (size - bytes_read) in
        if reads dev path bytes_read then
          let buffer := buffer ++ take to_read (drop bytes_read file) in
          let bytes_read := (bytes_read + to_read)%nat in
          read_loop fuel path file callback bytes_read buffer (call callback bytes_read size cs)
        else Val (None, cs)
      else Val (Some buffer, cs)
  end.

(** [while (bytes_written < total_size)]; the bytes handed to the stream. *)
Fixpoint write_loop (fuel : nat) (path : string) (data : list byte) (callback : bool)
    (bytes_written : nat) (cs : calls) : res (bool * list byte * calls) :=
  match fuel with
  | O => NoFuel
  | S fuel =>
      let total_size := length data in
      if (bytes_written <? total_size)%nat then
        let to_write := Nat.min chunk_size (total_size - bytes_written) in
        if writes dev path bytes_written then
          let bytes_written := (bytes_written + to_write)%nat in
          write_loop fuel path data callback bytes_written
            (call callback bytes_written total_size cs)
        else Val (false, take bytes_written data, cs)
      else Val (true, take bytes_written data, cs)
  end.

(** [std::ifstream file(path, binary | ate)], [tellg], [seekg], the loop: the
    bytes, or the code of the error. *)
Definition read_stream (fuel : nat) (path : string) (callback : bool) (d : disk)
    : res ((list byte + Z) * calls) :=
  match d !! path with
  | Some file =>
      if opens_for_reading dev path then
        if tells dev path then
          let? (buffer, cs) := read_loop fuel path file callback 0 [] [] in
          Val (match buffer with
               | Some buffer => inl buffer
               | None => inr error_codes.file_read_error
               end, cs)
        else Val (inr error_codes.file_read_error, [])
      else Val (inr error_codes.file_not_found, [])
  | None => Val (inr error_codes.file_not_found, [])
  end.

(** [std::ofstream file(path, binary)] and the loop; the file afterwards. *)
Definition write_stream (fuel : nat) (path : string) (data : list byte) (callback : bool) (d : disk)
    : res (disk * bool * calls) :=
  if opens_for_writing dev path then
    let? (ok, written, cs) := write_loop fuel path data callback 0 [] in
    Val (<[path := kept dev path written]> d, ok, cs)
  else Val (d, false, []).
End Streams.

(** [64 * 1024]; enough rounds for a file of [n] bytes. *)
Definition file_chunk : nat := Z.to_nat (64 * 1024).
Definition rounds (n : nat) : nat := S (S n).

Section Operations.
Context (dev : device) (what : std_exception → string).
Abbreviation t := (t ctree).

(** [load_packet_result]: the whole file is read through an iterator. *)
Definition load_packet_result (file_path : string) (d : disk) (c : t)
    : res (noexcept (t * (unit + error_info))) :=
  match d !! file_path with
  | Some content =>
      if opens_for_reading dev file_path then
        if reads dev file_path 0 then deserialize_result Node "string data" content false c
        else Val (Returned (c, inr (file_error error_codes.file_read_error file_path)))
      else Val (Returned (c, inr (file_error error_codes.file_not_found file_path)))
  | None => Val (Returned (c, inr (file_error error_codes.file_not_found file_path)))
  end.

(** [save_packet_result]: one [write]. *)
Definition save_packet_result (file_path : string) (d : disk) (c : t) : disk * (unit + error_info) :=
  match serialize_string what fmt_binary c with
  | inr e => (d, inr e)
  | inl content =>
      if opens_for_writing dev file_path then
        if writes dev file_path 0
        then (<[file_path := kept dev file_path content]> d, inl tt)
        else (<[file_path := kept dev file_path []]> d,
              inr (file_error error_codes.file_write_error file_path))
      else (d, inr (file_error error_codes.file_write_error file_path))
  end.

Definition size_of (path : string) (d : disk) : nat := length (default [] (d !! path)).

End Operations.

(** ** The work of [async_container], with results *)

Module async_container.

(** [async_container(container)] and [async_container()]: the shared pointer. *)
Definition of_container (container : option ctree) : option ctree := container.
Definition new : option ctree := Some (Node value_container.new).
Definition get_container (container_ : option ctree) : option ctree := container_.
Definition set_container (container container_ : option ctree) : option ctree := container.

Section Forwarding.
Abbreviation t := (t ctree).

(** [set], [get<T>] and [contains] on the container. *)
Definition set (key : string) (value : value_variant ctree) (c : t) : t :=
  value_container.set key value c.
Definition get {T} (get_if : value_variant ctree → option T) (key : string) (c : t) : option T :=
  match value_container.get key c with
  | Some val => get_if (Types.data val)
  | None => None
  end.
Definition contains (key : string) (c : t) : bool := value_container.contains key c.
End Forwarding.

Section Work.
Context (dev : device) (what : std_exception → string).
Abbreviation t := (t ctree).

Definition serialize_async (c : t) : list byte + error_info := serialize what fmt_binary c.
Definition serialize_string_async (c : t) : text + error_info := serialize_string what fmt_binary c.

(** A fresh container, or the error of [deserialize_result]. *)
Definition into_fresh (kind : string) (data : text) : res (noexcept (ctree + error_info)) :=
  let? r := deserialize_result Node kind data false value_container.new in
  Val (match r with
       | Returned (container, inl _) => Returned (inl (Node container))
       | Returned (_, inr e) => Returned (inr e)
       | Terminated => Terminated
       end).

Definition deserialize_async (data : list byte) := into_fresh "byte array data" data.
Definition deserialize_string_async (data : text) := into_fresh "string data" data.

Definition load_async (path : string) (callback : bool) (d : disk) (c : t)
    : res (noexcept (t * (unit + error_info)) * calls) :=
  let? (r, cs) := read_stream dev file_chunk (rounds (size_of path d)) path callback d in
  match r with
  | inr code => Val (Returned (c, inr (file_error code path)), cs)
  | inl buffer =>
      let? r := deserialize_result Node "byte array data" buffer false c in
      Val (r, cs)
  end.

Definition save_async (path : string) (callback : bool) (d : disk) (c : t)
    : res (disk * (unit + error_info) * calls) :=
  match serialize what fmt_binary c with
  | inr e => Val (d, inr e, [])
  | inl data =>
      let? (d, ok, cs) :=
        write_stream dev file_chunk (rounds (length data)) path data callback d in
      Val (d, if ok : bool then inl tt else inr (file_error error_codes.file_write_error path), cs)
  end.

Definition read_file_async (path : string) (callback : bool) (d : disk)
    : res ((list byte + error_info) * calls) :=
  let? (r, cs) := read_stream dev file_chunk (rounds (size_of path d)) path callback d in
  Val (match r with inl buffer => inl buffer | inr code => inr (file_error code path) end, cs).

Definition write_file_async (path : string) (data : list byte) (callback : bool) (d : disk)
    : res (disk * (unit + error_info) * calls) :=
  let? (d, ok, cs) := write_stream dev file_chunk (rounds (length data)) path data callback d in
  Val (d, if ok : bool then inl tt else inr (file_error error_codes.file_write_error path), cs).

(** [serialize_chunked]: a generator; its locals before the first statement and
    at the [co_yield]. *)
Inductive chunk_locals : Type := Chunk_start (c : t) | Chunk_at (full_data : list byte) (offset : nat).

(** [while (offset < total_size)], one round. *)
Definition next_chunk (chunk_size : nat) (full_data : list byte) (offset : nat)
    : outcome chunk_locals (list byte) Empty_set :=
  let total_size := length full_data in
  if (offset <? total_size)%nat then
    let current_chunk_size := Nat.min chunk_size (total_size - offset) in
    let chunk := take current_chunk_size (drop offset full_data) in
    Yielded chunk (Chunk_at full_data (offset + current_chunk_size))
  else Completed.

Definition serialize_chunked (chunk_size : nat) (s : chunk_locals)
    : res (outcome chunk_locals (list byte) Empty_set) :=
  Val (match s with
       | Chunk_start c =>
           match serialize what fmt_binary c with
           | inr _ => Completed
           | inl full_data => next_chunk chunk_size full_data 0
           end
       | Chunk_at full_data offset => next_chunk chunk_size full_data offset
       end).

Definition deserialize_streaming (data : list byte) (is_final : bool)
    : res (noexcept (ctree + error_info)) :=
  if is_final then into_fresh "byte array data" data
  else Val (Returned (inr (error error_codes.deserialization_failed
         (error_codes.make_message error_codes.deserialization_failed
            "streaming requires complete data (is_final=true)")))).
End Work.
End async_container.

(** ** Without results *)

Module async_container_plain.
Section Work.
Context (dev : device) (what : std_exception → string).
Abbreviation t := (t ctree).

Definition serialize_async (c : t) : list byte :=
  match serialize what fmt_binary c with inl data => data | inr _ => [] end.
Definition serialize_string_async (c : t) : text :=
  match serialize_string what fmt_binary c with inl data => data | inr _ => [] end.

(** The constructor may throw; the awaitable rethrows it. *)
Definition into_fresh (data : text) : res (ctree + std_exception) :=
  let? r := of_text Node data false in
  Val (match r with inl c => inl (Node c) | inr e => inr e end).

Definition deserialize_async (data : list byte) := into_fresh data.
Definition deserialize_string_async (data : text) := into_fresh data.

(** [container->deserialize(buffer, false)]: its [bool] is dropped. *)
Definition load_async (path : string) (callback : bool) (d : disk) (c : t)
    : res (t * (bool + std_exception) * calls) :=
  let? (r, cs) := read_stream dev file_chunk (rounds (size_of path d)) path callback d in
  match r with
  | inr _ => Val (c, inl false, cs)
  | inl buffer =>
      let? (c, r) := text_reader.deserialize Node buffer false c in
      Val (c, match r with inl _ => inl true | inr e => inr e end, cs)
  end.

Definition save_async (path : string) (callback : bool) (d : disk) (c : t)
    : res (disk * bool * calls) :=
  match serialize what fmt_binary c with
  | inr _ => Val (d, false, [])
  | inl data =>
      if (length data =? 0)%nat then Val (d, false, [])
      else write_stream dev file_chunk (rounds (length data)) path data callback d
  end.

Definition read_file_async (path : string) (callback : bool) (d : disk) : res (list byte * calls) :=
  let? (r, cs) := read_stream dev file_chunk (rounds (size_of path d)) path callback d in
  Val (match r with inl buffer => buffer | inr _ => [] end, cs).

Definition write_file_async (path : string) (data : list byte) (callback : bool) (d : disk)
    : res (disk * bool * calls) :=
  write_stream dev file_chunk (rounds (length data)) path data callback d.

(** The empty text returns before the loop. *)
Definition serialize_chunked (chunk_size : nat) (s : async_container.chunk_locals)
    : res (outcome async_container.chunk_locals (list byte) Empty_set) :=
  Val (match s with
       | async_container.Chunk_start c =>
           match serialize what fmt_binary c with
           | inr _ => Completed
           | inl full_data =>
               if (length full_data =? 0)%nat then Completed
               else async_container.next_chunk chunk_size full_data 0
           end
       | async_container.Chunk_at full_data offset =>
           async_container.next_chunk chunk_size full_data offset
       end).

(** A null pointer until the data is final. *)
Definition deserialize_streaming (data : list byte) (is_final : bool)
    : res (option ctree + std_exception) :=
  if is_final then
    let? r := into_fresh data in
    Val (match r with inl c => inl (Some c) | inr e => inr e end)
  else Val (inl None).
End Work.
End async_container_plain.
