(* ===== verification/AsyncContainerFacts.v ===== *)
(** * Properties of files, chunks and the asynchronous operations

    The loops over a file read it whole or fail, and report every step once;
    what is saved is loaded again; the chunks of a container are its text, cut
    without a gap. *)

#[local] Set Warnings "-register-all".
From S2P Require Import Prelude Float Msgpack Types ErrorCodes UnorderedMap Validation Container.
From S2P Require Import ContainerMsgpack Regex Numbers Text TextFacts TextScan TextRoundtrip.
From S2P Require Import Schema Serializers SerializersFacts Generator AsyncContainer.
From stdpp Require Import sorting.
Import value_container unified text_container.
#[local] Open Scope nat_scope.

(** ** Progress *)

(** The calls made when [n] of [total] bytes are through: increasing, the last one
    with [n]; none without a callback. *)
Definition progress (callback : bool) (total n : nat) (cs : calls) : Prop :=
  StronglySorted lt cs.*1 ∧ Forall (λ p, p.1 ≤ n ∧ p.2 = total) cs ∧
  (if callback then n = 0 ∨ last cs = Some (n, total) else cs = []).

Lemma progress_call callback total n n' cs :
  n < n' → progress callback total n cs → progress callback total n' (call callback n' total cs).
Proof.
  intros Hn (Hs & HF & Hl). unfold call, progress. destruct callback; [|subst cs; split_and!; constructor].
  rewrite fmap_app. cbn. split_and!.
  - apply StronglySorted_app_2; [|done|by repeat constructor].
    intros x y Hx Hy%list_elem_of_singleton. apply list_elem_of_fmap in Hx as (p & -> & Hp).
    rewrite list.Forall_forall in HF. apply HF in Hp. lia.
  - apply list.Forall_app. split; [|by constructor].
    eapply list.Forall_impl; [exact HF|]. intros p [? ?]. split; [lia|done].
  - right. by rewrite last_snoc.
Qed.

Lemma progress_start callback total : progress callback total 0 [].
Proof. unfold progress. split_and!; [constructor|constructor|]. destruct callback; [by left|done]. Qed.

(** ** The loops *)

Section Loops.
Context (dev : device) (chunk_size : nat) (Hchunk : 0 < chunk_size).

(** Enough fuel: the whole file, or a read at some offset failed. *)
Lemma read_loop_spec path file callback fuel : ∀ n cs,
  n ≤ length file → length file - n < fuel → progress callback (length file) n cs →
  ∃ r cs', read_loop dev chunk_size fuel path file callback n (take n file) cs = Val (r, cs') ∧
    match r with
    | Some buffer => buffer = file ∧ progress callback (length file) (length file) cs'
    | None => ∃ n', n ≤ n' < length file ∧ reads dev path n' = false ∧
        progress callback (length file) n' cs'
    end.
Proof.
  induction fuel as [|fuel IH]; intros n cs Hn Hf Hp; [lia|]. cbn [read_loop]. cbv zeta.
  destruct (Nat.ltb_spec n (length file)) as [Hlt|Hge].
  - destruct (reads dev path n) eqn:Hr; [|exists None, cs; eauto 10 with lia].
    rewrite take_take_drop.
    destruct (IH (n + Nat.min chunk_size (length file - n))
      (call callback (n + Nat.min chunk_size (length file - n)) (length file) cs))
      as (r & cs' & E & H); [lia|lia|apply (progress_call _ _ n); [lia|done]|].
    exists r, cs'. split; [exact E|]. destruct r; [done|].
    destruct H as (n' & ? & ? & ?). exists n'. split_and!; [lia..|done|done].
  - exists (Some (take n file)), cs. assert (n = length file) as -> by lia.
    by rewrite take_ge.
Qed.

Lemma write_loop_spec path data callback fuel : ∀ n cs,
  n ≤ length data → length data - n < fuel → progress callback (length data) n cs →
  ∃ ok n' cs', write_loop dev chunk_size fuel path data callback n cs = Val (ok, take n' data, cs') ∧
    progress callback (length data) n' cs' ∧
    if ok : bool then n' = length data
    else n ≤ n' < length data ∧ writes dev path n' = false.
Proof.
  induction fuel as [|fuel IH]; intros n cs Hn Hf Hp; [lia|]. cbn [write_loop]. cbv zeta.
  destruct (Nat.ltb_spec n (length data)) as [Hlt|Hge].
  - destruct (writes dev path n) eqn:Hr; [|exists false, n, cs; auto with lia].
    destruct (IH (n + Nat.min chunk_size (length data - n))
      (call callback (n + Nat.min chunk_size (length data - n)) (length data) cs))
      as (ok & n' & cs' & E & Hp' & H); [lia|lia|apply (progress_call _ _ n); [lia|done]|].
    exists ok, n', cs'. split_and!; [exact E|done|]. destruct ok; [done|]. split; [lia|apply H].
  - exists true, n, cs. split_and!; [done..|lia].
Qed.

(** A file is read whole or not at all. *)
Lemma read_stream_spec path callback d fuel :
  size_of path d < fuel →
  ∃ r cs, read_stream dev chunk_size fuel path callback d = Val (r, cs) ∧
    match r with
    | inl buffer => d !! path = Some buffer ∧ progress callback (length buffer) (length buffer) cs
    | inr code =>
        (code = error_codes.file_not_found ∧ cs = [] ∧
           (d !! path = None ∨ opens_for_reading dev path = false)) ∨
        (code = error_codes.file_read_error ∧
           (tells dev path = false ∨ ∃ n, reads dev path n = false))
    end.
Proof.
  unfold read_stream, size_of. intros Hf.
  destruct (d !! path) as [file|]; [|eexists _, _; split; [done|]; left; auto].
  destruct (opens_for_reading dev path); [|eexists _, _; split; [done|]; left; auto].
  destruct (tells dev path); [|eexists _, _; split; [done|]; right; auto].
  destruct (read_loop_spec path file callback fuel 0 []) as (r & cs & E & H);
    [lia|cbn in Hf; lia|apply progress_start|].
  rewrite take_0 in E. rewrite E. cbn. eexists _, _. split; [done|].
  destruct r as [buffer|]; [destruct H as [-> H]; auto|].
  destruct H as (n & _ & ? & _). right. eauto.
Qed.

(** A write that reports success has handed every byte to the stream; one that
    fails has left what the stream kept of a proper prefix. *)
Lemma write_stream_spec path data callback d fuel :
  length data < fuel →
  ∃ d' ok cs, write_stream dev chunk_size fuel path data callback d = Val (d', ok, cs) ∧
    (if ok : bool then
       opens_for_writing dev path = true ∧ d' = <[path := kept dev path data]> d ∧
       progress callback (length data) (length data) cs
     else (opens_for_writing dev path = false ∧ d' = d ∧ cs = []) ∨
       ∃ n, n < length data ∧ writes dev path n = false ∧
         d' = <[path := kept dev path (take n data)]> d ∧ progress callback (length data) n cs).
Proof.
  unfold write_stream. intros Hf.
  destruct (opens_for_writing dev path); [|eexists _, _, _; split; [done|]; left; auto].
  destruct (write_loop_spec path data callback fuel 0 []) as (ok & n & cs & -> & Hp & H);
    [lia|lia|apply progress_start|].
  cbn. eexists _, _, _. split; [done|]. destruct ok.
  - subst n. by rewrite take_ge.
  - right. exists n. destruct H as [H1 H2]. split_and!; try done. lia.
Qed.
End Loops.

Lemma file_chunk_pos : 0 < file_chunk.
Proof. unfold file_chunk. lia. Qed.

(** ** Reading and writing files *)

(** C38. [read_file_async] and [write_file_async] return for every device: a file
    is read whole or the error says what failed; a write that reports success
    handed the stream every byte, one that fails left what was kept of a proper
    prefix.  The progress calls increase, never pass the total, and a
    successful operation ends with the total. *)
Theorem file_operations_total dev path data callback d :
  (∃ r cs, async_container.read_file_async dev path callback d = Val (r, cs) ∧
     match r with
     | inl bytes => d !! path = Some bytes ∧ progress callback (length bytes) (length bytes) cs
     | inr e => e = file_error error_codes.file_not_found path ∨
                e = file_error error_codes.file_read_error path
     end) ∧
  (∃ d' r cs, async_container.write_file_async dev path data callback d = Val (d', r, cs) ∧
     match r with
     | inl _ => d' = <[path := kept dev path data]> d ∧
                progress callback (length data) (length data) cs
     | inr e => e = file_error error_codes.file_write_error path ∧
         (d' = d ∨ ∃ n, n < length data ∧ d' = <[path := kept dev path (take n data)]> d)
     end).
Proof.
  split.
  - unfold async_container.read_file_async.
    destruct (read_stream_spec dev file_chunk file_chunk_pos path callback d
      (rounds (size_of path d))) as (r & cs & -> & H); [unfold rounds; lia|].
    cbn. eexists _, _. split; [done|]. destruct r as [buffer|code]; [done|].
    destruct H as [(-> & _)|(-> & _)]; auto.
  - unfold async_container.write_file_async.
    destruct (write_stream_spec dev file_chunk file_chunk_pos path data callback d
      (rounds (length data))) as (d' & ok & cs & -> & H); [unfold rounds; lia|].
    cbn. eexists _, _, _. split; [done|]. destruct ok; [by destruct H as (_ & ? & ?)|].
    split; [done|]. destruct H as [(_ & ? & _)|(n & ? & _ & ? & _)]; eauto.
Qed.

(** ** Saving and loading *)

(** Nothing refused on this path, and the file keeps what was written. *)
Definition healthy (dev : device) (path : string) : Prop :=
  opens_for_reading dev path = true ∧ tells dev path = true ∧ (∀ n, reads dev path n = true) ∧
  opens_for_writing dev path = true ∧ (∀ n, writes dev path n = true) ∧
  ∀ bs, kept dev path bs = bs.

Section SaveLoad.
Context (dev : device) (what : std_exception → string) (path : string).

Lemma read_stream_healthy callback d bs :
  healthy dev path → d !! path = Some bs →
  ∃ cs, read_stream dev file_chunk (rounds (size_of path d)) path callback d = Val (inl bs, cs).
Proof.
  intros (Ho & Ht & Hr & _) Hd.
  destruct (read_stream_spec dev file_chunk file_chunk_pos path callback d
    (rounds (size_of path d))) as (r & cs & E & H); [unfold rounds; lia|].
  exists cs. rewrite E. destruct r as [buffer|code]; [by destruct H; simplify_eq|].
  exfalso. destruct H as [(_ & _ & [?|?])|(_ & [?|[n Hn]])]; congruence.
Qed.

Lemma write_stream_healthy callback d bs :
  healthy dev path →
  ∃ cs, write_stream dev file_chunk (rounds (length bs)) path bs callback d
    = Val (<[path := bs]> d, true, cs).
Proof.
  intros (_ & _ & _ & Ho & Hw & Hk).
  destruct (write_stream_spec dev file_chunk file_chunk_pos path bs callback d
    (rounds (length bs))) as (d' & ok & cs & E & H); [unfold rounds; lia|].
  exists cs. rewrite E. destruct ok; [destruct H as (_ & -> & _); by rewrite Hk|].
  exfalso. destruct H as [(? & _)|(n & _ & Hn & _)]; congruence.
Qed.

Lemma binary_written c :
  text_ok c = true →
  serialize what fmt_binary c = inl (text_of c) ∧
  serialize_string what fmt_binary c = inl (text_of c) ∧ text_of c ≠ [].
Proof.
  intros Hok. unfold serialize, serialize_string, caught.
  cbn [serializer_factory.create run_serializer]. unfold binary_serializer.serialize.
  rewrite (text_written c Hok). split_and!; [done..|].
  unfold text_of, binary_serializer.header_text. by destruct (str_bytes "@header={{") eqn:?.
Qed.

Lemma binary_loaded kind (c c0 : t ctree) :
  text_ok c = true →
  deserialize_result Node kind (text_of c) false c0 = Val (Returned (restored false c c0, inl tt)).
Proof.
  intros Hok. unfold deserialize_result. by rewrite deserialize_flat, text_read.
Qed.

(** C37. What any of the three functions saves, any of the three loads: over a device
    that refuses nothing, all of them leave the same file, and loading it into
    any container restores the values and the header, with and without results. *)
Theorem save_load_roundtrip callback d (c c0 : t ctree) :
  healthy dev path → text_ok c = true →
  let d' := <[path := text_of c]> d in
  let loaded := restored false c c0 in
  (∃ cs, async_container.save_async dev what path callback d c = Val (d', inl tt, cs)) ∧
  (∃ cs, async_container_plain.save_async dev what path callback d c = Val (d', true, cs)) ∧
  save_packet_result dev what path d c = (d', inl tt) ∧
  (∃ cs, async_container.load_async dev path callback d' c0 = Val (Returned (loaded, inl tt), cs)) ∧
  (∃ cs, async_container_plain.load_async dev path callback d' c0 = Val (loaded, inl true, cs)) ∧
  load_packet_result dev path d' c0 = Val (Returned (loaded, inl tt)).
Proof.
  intros Hdev Hok d' loaded. destruct (binary_written c Hok) as (E1 & E2 & Hne).
  destruct (write_stream_healthy callback d (text_of c) Hdev) as [cs Ew].
  assert (d' !! path = Some (text_of c)) as Hd' by apply lookup_insert_eq.
  destruct (read_stream_healthy callback d' (text_of c) Hdev Hd') as [cs' Er].
  destruct Hdev as (Ho & Ht & Hr & Hwo & Hw & Hk).
  unfold async_container.save_async, async_container_plain.save_async, save_packet_result,
    async_container.load_async, async_container_plain.load_async, load_packet_result.
  rewrite E1, E2, Hd', Ew, Er, Ho, Hr, Hwo, Hw, Hk. cbn [res_bind].
  rewrite !binary_loaded, deserialize_flat, text_read by done. split_and!; eauto.
Qed.
End SaveLoad.

(** Without results a file that cannot be read as a container is loaded
    "successfully": the container is emptied and the task yields [true]. *)
Theorem plain_load_ignores_failure dev path callback d bs (c c' : t ctree) :
  healthy dev path → d !! path = Some bs → read_text Node bs false c = (c', inl false) →
  optimized_units_ c' = [] ∧
  (∃ cs, async_container_plain.load_async dev path callback d c = Val (c', inl true, cs)) ∧
  (∃ cs e, async_container.load_async dev path callback d c = Val (Returned (c', inr e), cs)).
Proof.
  intros Hdev Hd Hbs. destruct (read_stream_healthy dev path callback d bs Hdev Hd) as [cs Er].
  unfold async_container.load_async, async_container_plain.load_async. rewrite Er. cbn [res_bind].
  unfold deserialize_result. rewrite deserialize_flat, Hbs. cbn.
  split; [by apply (read_text_failed bs false c)|eauto].
Qed.

(** ** Chunks *)

Section Chunks.
Context (what : std_exception → string) (chunk_size : nat).

(** The pieces of [l] from an offset on. *)
Inductive pieces : list byte → list (list byte) → Prop :=
| pieces_nil : pieces [] []
| pieces_cons chunk rest cs :
    0 < length chunk ≤ chunk_size → (rest ≠ [] → length chunk = chunk_size) →
    pieces rest cs → pieces (chunk ++ rest) (chunk :: cs).

Lemma chunks_from l : 0 < chunk_size → ∀ k n, length l - n ≤ k → n ≤ length l →
  ∃ cs, emits (async_container.serialize_chunked what chunk_size)
      (async_container.Chunk_at l n) cs None ∧ pieces (drop n l) cs.
Proof.
  intros Hc. induction k as [|k IH]; intros n Hk Hn.
  - exists []. assert (n = length l) as -> by lia. rewrite drop_ge by lia. split; [|constructor].
    apply emits_return. unfold async_container.serialize_chunked, async_container.next_chunk. cbv zeta.
    by rewrite (proj2 (Nat.ltb_ge _ _)) by lia.
  - destruct (decide (n = length l)) as [->|Hne].
    { apply IH; lia. }
    set (m := Nat.min chunk_size (length l - n)).
    destruct (IH (n + m)) as (cs & He & Hp); [unfold m; lia..|].
    exists (take m (drop n l) :: cs). split.
    + eapply emits_yield; [|exact He]. unfold async_container.serialize_chunked, async_container.next_chunk. cbv zeta.
      by rewrite (proj2 (Nat.ltb_lt _ _)) by lia.
    + rewrite <-(take_drop m (drop n l)) at 1. rewrite drop_drop.
      assert (length (take m (drop n l)) = m) as Hl by (rewrite length_take, length_drop; unfold m; lia).
      constructor; [rewrite Hl; unfold m; lia| |done].
      rewrite Hl. intros Hr. assert (0 < length (drop (n + m) l)).
      { destruct (drop (n + m) l); [done|simpl; lia]. }
      rewrite length_drop in *. unfold m in *. lia.
Qed.

Lemma pieces_concat l cs : pieces l cs → mjoin cs = l.
Proof. induction 1 as [|chunk rest cs _ _ _ IH]; [done|]. simpl. by rewrite IH. Qed.

(** The chunks of a container are its text cut in pieces of [chunk_size] bytes, the
    last one shorter; put together and fed as final data they restore it. *)
Theorem chunks_roundtrip (c : t ctree) :
  0 < chunk_size → text_ok c = true →
  ∃ cs, (∀ fuel, length cs + 1 < fuel →
      generator.for_each (async_container.serialize_chunked what chunk_size) fuel
        (generator.create (async_container.Chunk_start c)) = Val (cs, None)) ∧
    pieces (text_of c) cs ∧
    async_container.deserialize_streaming (mjoin cs) true
      = Val (Returned (inl (Node (restored false c value_container.new)))).
Proof.
  intros Hc Hok. destruct (binary_written what c Hok) as (E & _ & _).
  destruct (chunks_from (text_of c) Hc (length (text_of c)) 0) as (cs & He & Hp); [lia..|].
  exists cs. rewrite drop_0 in Hp. split_and!.
  - intros fuel Hf. apply for_each_emits; [|done].
    assert (async_container.serialize_chunked what chunk_size (async_container.Chunk_start c)
      = async_container.serialize_chunked what chunk_size (async_container.Chunk_at (text_of c) 0)) as Es
      by (unfold async_container.serialize_chunked; by rewrite E).
    inversion He; subst; rewrite <-Es in *; [by apply emits_return|by eapply emits_yield].
  - done.
  - rewrite (pieces_concat _ _ Hp). unfold async_container.deserialize_streaming,
      async_container.into_fresh. by rewrite binary_loaded.
Qed.

(** A chunk size of zero never gets on: an empty chunk again and again. *)
Lemma zero_chunks l n :
  0 < length l → n = 0 →
  async_container.serialize_chunked what 0 (async_container.Chunk_at l n)
  = Val (Yielded [] (async_container.Chunk_at l n)).
Proof.
  intros Hl ->. unfold async_container.serialize_chunked, async_container.next_chunk. cbv zeta.
  by rewrite (proj2 (Nat.ltb_lt _ _)) by lia.
Qed.
End Chunks.

(** ** Witnesses *)

(** A device that refuses nothing. *)
Definition good_device : device :=
  Device (λ _, true) (λ _, true) (λ _ _, true) (λ _, true) (λ _ _, true) (λ _ bs, bs).

Lemma good_device_healthy path : healthy good_device path.
Proof. by split_and!. Qed.

Lemma written_sample_ok : text_ok written_sample = true.
Proof. by vm_compute. Qed.

Lemma save_load_roundtrip_witness :
  let d' := <["a.bin" := text_of written_sample]> ∅ in
  let loaded := restored false written_sample value_container.new in
  (∃ cs, async_container.save_async good_device (λ _, ""%string) "a.bin" true ∅ written_sample
     = Val (d', inl tt, cs)) ∧
  (∃ cs, async_container_plain.save_async good_device (λ _, ""%string) "a.bin" true ∅ written_sample
     = Val (d', true, cs)) ∧
  save_packet_result good_device (λ _, ""%string) "a.bin" ∅ written_sample = (d', inl tt) ∧
  (∃ cs, async_container.load_async good_device "a.bin" true d' value_container.new
     = Val (Returned (loaded, inl tt), cs)) ∧
  (∃ cs, async_container_plain.load_async good_device "a.bin" true d' value_container.new
     = Val (loaded, inl true, cs)) ∧
  load_packet_result good_device "a.bin" d' value_container.new = Val (Returned (loaded, inl tt)).
Proof.
  apply (save_load_roundtrip good_device (λ _, ""%string) "a.bin" true ∅ written_sample
    value_container.new); [apply good_device_healthy|apply written_sample_ok].
Defined.

Lemma chunks_roundtrip_witness :
  ∃ cs, (∀ fuel, length cs + 1 < fuel →
      generator.for_each (async_container.serialize_chunked (λ _, ""%string) 16) fuel
        (generator.create (async_container.Chunk_start written_sample)) = Val (cs, None)) ∧
    pieces 16 (text_of written_sample) cs ∧
    async_container.deserialize_streaming (mjoin cs) true
      = Val (Returned (inl (Node (restored false written_sample value_container.new)))).
Proof.
  apply (chunks_roundtrip (λ _, ""%string) 16 written_sample); [lia|apply written_sample_ok].
Defined.

Lemma plain_load_ignores_failure_witness :
  let d : disk := <["a.bin" := str_bytes "junk"]> ∅ in
  let c' := with_data true false "@data={{}}" (initialize written_sample) in
  optimized_units_ c' = [] ∧
  (∃ cs, async_container_plain.load_async good_device "a.bin" false d written_sample
     = Val (c', inl true, cs)) ∧
  (∃ cs e, async_container.load_async good_device "a.bin" false d written_sample
     = Val (Returned (c', inr e), cs)).
Proof.
  apply (plain_load_ignores_failure good_device "a.bin" false _ (str_bytes "junk") written_sample);
    [apply good_device_healthy|apply lookup_insert_eq|by vm_compute].
Defined.
