(* ===== verification/MemoryPool.v ===== *)
(** * fixed_block_pool and pool_allocator

    [internal/memory_pool.h] and [internal/pool_allocator.h].  An address is a
    [Z], [0] the null pointer; [heads] gives, for every block of the pool, the
    pointer in its first bytes: the link of the free list while the block is
    free, whatever the client wrote while it is in use ([client_write]).  A
    chunk is a fresh range of memory at an address the heap chooses; every call
    that may need one takes that address ([None]: [std::bad_alloc]).

    The size of a chunk is a product in [size_t]; to write the link of a block that
    does not lie in the chunk is [Undef], as is to read the link of an address that
    is not a block of the pool.
    The walk of [get_statistics] over the free list has a bound; it ends within
    the number of blocks unless the list is cyclic. *)

From S2P Require Import Prelude.

Module fixed_block_pool.

Record t : Type := Pool {
  block_size_ : Z;
  blocks_per_chunk_ : Z;
  chunks_ : list Z;
  free_list_ : Z;
  allocated_count_ : Z;
  heads : gmap Z Z }.

(** The size of a pointer. *)
Definition pointer_size : Z := 8.

Definition new (block_size blocks_per_chunk : Z) : t :=
  Pool (if block_size <? pointer_size then pointer_size else block_size) blocks_per_chunk [] 0 0 ∅.

Inductive exn : Type := bad_alloc | runtime_error (what : string).

(** [block_size_ * blocks_per_chunk_] *)
Definition chunk_bytes (p : t) : Z := wrap 64 (block_size_ p * blocks_per_chunk_ p).

(** The loop over the blocks [i, i + k) of the chunk of [bytes] bytes at [base]: each
    is pushed. *)
Fixpoint push_blocks (k : nat) (i base size bytes : Z) (free : Z) (h : gmap Z Z) : res (Z * gmap Z Z) :=
  match k with
  | O => Val (free, h)
  | S k =>
      let offset := wrap 64 (i * size) in
      if offset + pointer_size <=? bytes
      then push_blocks k (i + 1) base size bytes (base + offset) (<[base + offset := free]> h)
      else Undef
  end.

Definition allocate_chunk_unlocked (base : Z) (p : t) : res t :=
  let? (free, h) := push_blocks (Z.to_nat (blocks_per_chunk_ p)) 0 base (block_size_ p) (chunk_bytes p)
                      (free_list_ p) (heads p) in
  Val (Pool (block_size_ p) (blocks_per_chunk_ p) (chunks_ p ++ [base]) free (allocated_count_ p) h).

(** The pointer, or the exception; [base] is what [new uint8_t[]] gives. *)
Definition allocate (base : option Z) (p : t) : res (t * (Z + exn)) :=
  let take (p : t) : res (t * (Z + exn)) :=
    match heads p !! free_list_ p with
    | None => Undef
    | Some next =>
        Val (Pool (block_size_ p) (blocks_per_chunk_ p) (chunks_ p) next
               (wrap 64 (allocated_count_ p + 1)) (heads p), inl (free_list_ p))
    end in
  if free_list_ p =? 0 then
    match base with
    | None => Val (p, inr bad_alloc)
    | Some base =>
        let? p := allocate_chunk_unlocked base p in
        if free_list_ p =? 0
        then Val (p, inr (runtime_error "Memory pool chunk allocation failed to create free list"))
        else take p
    end
  else take p.

(** [chunk_start <= p < chunk_end] for some chunk. *)
Definition in_chunks (a : Z) (p : t) : bool :=
  existsb (λ start, (start <=? a) && (a <? start + chunk_bytes p)) (chunks_ p).

Definition deallocate (a : Z) (p : t) : t :=
  if a =? 0 then p
  else if negb (in_chunks a p) then p
  else Pool (block_size_ p) (blocks_per_chunk_ p) (chunks_ p) a
         (wrap 64 (allocated_count_ p - 1)) (<[a := free_list_ p]> (heads p)).

(** What a client stores in the first bytes of a block it owns. *)
Definition client_write (a v : Z) (p : t) : t :=
  Pool (block_size_ p) (blocks_per_chunk_ p) (chunks_ p) (free_list_ p) (allocated_count_ p)
    (<[a := v]> (heads p)).

Definition block_size (p : t) : Z := block_size_ p.

Record statistics : Type := Statistics {
  total_chunks : Z; allocated_blocks : Z; total_capacity : Z; free_blocks : Z }.

Definition memory_bytes (s : statistics) : Z := 0.

(** [while (current) { ++free_count; current = *current; }] *)
Fixpoint count_free (fuel : nat) (current : Z) (count : Z) (h : gmap Z Z) : res Z :=
  if current =? 0 then Val count
  else
    match fuel with
    | O => NoFuel
    | S fuel =>
        match h !! current with
        | None => Undef
        | Some next => count_free fuel next (count + 1) h
        end
    end.

Definition get_statistics (fuel : nat) (p : t) : res statistics :=
  let? free_count := count_free fuel (free_list_ p) 0 (heads p) in
  Val (Statistics (Z.of_nat (length (chunks_ p))) (allocated_count_ p)
         (Z.of_nat (length (chunks_ p)) * blocks_per_chunk_ p) free_count).

(** The blocks the pool has, in the order of their chunks. *)
Definition chunk_blocks (base size : Z) (n : nat) : list Z :=
  (λ i, base + Z.of_nat i * size) <$> seq 0 n.
Definition blocks (p : t) : list Z :=
  chunks_ p ≫= λ base, chunk_blocks base (block_size_ p) (Z.to_nat (blocks_per_chunk_ p)).

Definition fuel_for (p : t) : nat := length (blocks p).
End fixed_block_pool.

(** ** pool_allocator *)

Module pool_allocator.

Definition small_threshold : Z := 64.
Definition medium_threshold : Z := 256.
Definition blocks_per_chunk : Z := 1024.

Record pool_allocator_stats : Type := Stats {
  pool_hits : Z; pool_misses : Z; small_pool_allocs : Z; medium_pool_allocs : Z;
  deallocations : Z }.

Record t : Type := Allocator {
  small_pool_ : fixed_block_pool.t;
  medium_pool_ : fixed_block_pool.t;
  stats_ : pool_allocator_stats }.

Definition no_stats : pool_allocator_stats := Stats 0 0 0 0 0.

Definition new : t :=
  Allocator (fixed_block_pool.new small_threshold blocks_per_chunk)
    (fixed_block_pool.new medium_threshold blocks_per_chunk) no_stats.

(** Increments of the counters. *)
Definition hit_small (s : pool_allocator_stats) : pool_allocator_stats :=
  Stats (wrap 64 (pool_hits s + 1)) (pool_misses s) (wrap 64 (small_pool_allocs s + 1))
    (medium_pool_allocs s) (deallocations s).
Definition hit_medium (s : pool_allocator_stats) : pool_allocator_stats :=
  Stats (wrap 64 (pool_hits s + 1)) (pool_misses s) (small_pool_allocs s)
    (wrap 64 (medium_pool_allocs s + 1)) (deallocations s).
Definition miss (s : pool_allocator_stats) : pool_allocator_stats :=
  Stats (pool_hits s) (wrap 64 (pool_misses s + 1)) (small_pool_allocs s)
    (medium_pool_allocs s) (deallocations s).
Definition count_deallocation (s : pool_allocator_stats) : pool_allocator_stats :=
  Stats (pool_hits s) (pool_misses s) (small_pool_allocs s) (medium_pool_allocs s)
    (wrap 64 (deallocations s + 1)).

(** [::operator new(size, std::nothrow)], the last resort: [heap] is its result. *)
Definition from_heap (heap : Z) (a : t) : t * Z :=
  (Allocator (small_pool_ a) (medium_pool_ a) (miss (stats_ a)), heap).

(** [base] is the chunk a pool may ask for.  An exception of the pool falls
    through to the heap. *)
Definition allocate (size : Z) (base : option Z) (heap : Z) (a : t) : res (t * Z) :=
  if size =? 0 then Val (a, 0)
  else if size <=? small_threshold then
    let? (p, r) := fixed_block_pool.allocate base (small_pool_ a) in
    match r with
    | inl ptr => Val (Allocator p (medium_pool_ a) (hit_small (stats_ a)), ptr)
    | inr _ => Val (from_heap heap (Allocator p (medium_pool_ a) (stats_ a)))
    end
  else if size <=? medium_threshold then
    let? (p, r) := fixed_block_pool.allocate base (medium_pool_ a) in
    match r with
    | inl ptr => Val (Allocator (small_pool_ a) p (hit_medium (stats_ a)), ptr)
    | inr _ => Val (from_heap heap (Allocator (small_pool_ a) p (stats_ a)))
    end
  else Val (from_heap heap a).

(** The pointer that goes to [::operator delete], if any. *)
Definition deallocate (ptr size : Z) (a : t) : t * option Z :=
  if ptr =? 0 then (a, None)
  else
    let stats := count_deallocation (stats_ a) in
    if size <=? small_threshold
    then (Allocator (fixed_block_pool.deallocate ptr (small_pool_ a)) (medium_pool_ a) stats, None)
    else if size <=? medium_threshold
    then (Allocator (small_pool_ a) (fixed_block_pool.deallocate ptr (medium_pool_ a)) stats, None)
    else (Allocator (small_pool_ a) (medium_pool_ a) stats, Some ptr).

Definition get_stats (a : t) : pool_allocator_stats := stats_ a.
Definition get_small_pool_stats (fuel : nat) (a : t) : res fixed_block_pool.statistics :=
  fixed_block_pool.get_statistics fuel (small_pool_ a).
Definition get_medium_pool_stats (fuel : nat) (a : t) : res fixed_block_pool.statistics :=
  fixed_block_pool.get_statistics fuel (medium_pool_ a).
Definition reset_stats (a : t) : t := Allocator (small_pool_ a) (medium_pool_ a) no_stats.

Definition is_pool_allocatable (size : Z) : bool := size <=? medium_threshold.
Definition get_size_class (size : Z) : Z :=
  if size <=? small_threshold then 0 else if size <=? medium_threshold then 1 else 2.
End pool_allocator.
