(* ===== verification/MemoryPoolFacts.v ===== *)
(** * fixed_block_pool: correct for clients that free what they own, once

    For a client that frees only blocks it owns and writes only into them, the
    blocks in use and the free list always partition the pool ([pool_inv]), so
    no block is handed out twice and the statistics add up ([pool_correct]).  A
    second free of the same block makes the free list cyclic
    ([double_free_cycle]). *)

From S2P Require Import Prelude MemoryPool.
Import fixed_block_pool.
From stdpp Require Import relations.
#[local] Open Scope Z_scope.

(** The free list: the links from [a] visit the blocks [l] and end in null. *)
Fixpoint chain (h : gmap Z Z) (a : Z) (l : list Z) : Prop :=
  match l with
  | [] => a = 0
  | x :: l => a = x ∧ x ≠ 0 ∧ ∃ next, h !! x = Some next ∧ chain h next l
  end.

Record pool_inv (p : t) (live : list Z) : Prop := {
  inv_free : ∃ free, chain (heads p) (free_list_ p) free ∧ free ++ live ≡ₚ blocks p;
  inv_nodup : NoDup (blocks p);
  inv_nonzero : 0 ∉ blocks p;
  inv_size : 8 ≤ block_size_ p;
  inv_fits : blocks p = [] ∨ block_size_ p * blocks_per_chunk_ p < 2 ^ 64;
  inv_count : allocated_count_ p = wrap 64 (Z.of_nat (length live)) }.

(** What the heap promises of a new chunk: it lies in the address space, and its blocks
    are new and not null. *)
Definition fresh_chunk (base : Z) (p : t) : Prop :=
  0 < base ∧ base + block_size_ p * blocks_per_chunk_ p ≤ 2 ^ 64 ∧
  ∀ a, a ∈ chunk_blocks base (block_size_ p) (Z.to_nat (blocks_per_chunk_ p)) → a ∉ blocks p.

(** ** The free list *)

Lemma chain_insert h a l x v : x ∉ l → chain h a l → chain (<[x := v]> h) a l.
Proof.
  revert a. induction l as [|y l IH]; intros a; [done|]. rewrite not_elem_of_cons.
  intros [Hx Hl] (-> & Hy & next & E & Hc). split_and!; [done|done|]. exists next.
  rewrite lookup_insert_ne by done. split; [done|]. by apply IH.
Qed.

Lemma chain_elem h a l x : x ∈ l → chain h a l → x ≠ 0 ∧ is_Some (h !! x).
Proof.
  revert a. induction l as [|y l IH]; intros a; [by intros ?%not_elem_of_nil|].
  intros [->|Hx]%elem_of_cons (-> & Hy & next & E & Hc); eauto.
Qed.

Lemma count_free_chain h a l count fuel :
  chain h a l → (length l ≤ fuel)%nat →
  count_free fuel a count h = Val (count + Z.of_nat (length l)).
Proof.
  revert a count fuel. induction l as [|x l IH]; intros a count fuel; simpl.
  - intros -> _. destruct fuel; simpl; f_equal; lia.
  - intros (-> & Hx & next & E & Hc) Hf. destruct fuel as [|fuel]; [lia|]. cbn [count_free].
    destruct (Z.eqb_spec x 0); [done|]. rewrite E, IH by (done || lia). f_equal. lia.
Qed.

(** ** Chunks *)

Lemma chunk_blocks_S base size n :
  chunk_blocks base size (S n) = chunk_blocks base size n ++ [base + Z.of_nat n * size].
Proof. unfold chunk_blocks. by rewrite seq_S, fmap_app. Qed.

Lemma chunk_blocks_elem a base size n :
  a ∈ chunk_blocks base size n ↔ ∃ i, (i < n)%nat ∧ a = base + Z.of_nat i * size.
Proof.
  unfold chunk_blocks. rewrite list_elem_of_fmap. split.
  - intros (i & -> & Hi%elem_of_seq). exists i. split; [lia|done].
  - intros (i & Hi & ->). exists i. split; [done|]. apply elem_of_seq. lia.
Qed.

Lemma chunk_blocks_nodup base size n : 0 < size → NoDup (chunk_blocks base size n).
Proof.
  intros Hs. unfold chunk_blocks. apply NoDup_fmap_2_strong; [|apply NoDup_seq].
  intros i j _ _ E. nia.
Qed.

(** Pushing the blocks of a chunk puts them, last first, in front of the free list. *)
Lemma push_blocks_chain base size bytes k : 0 < base → 8 ≤ size → bytes < 2 ^ 64 → ∀ i free h l,
  chain h free l → (∀ j, (j < k)%nat → base + Z.of_nat (i + j) * size ∉ l) →
  Z.of_nat (i + k) * size ≤ bytes →
  ∃ free' h', push_blocks k (Z.of_nat i) base size bytes free h = Val (free', h') ∧
    chain h' free' (rev ((λ j, base + Z.of_nat j * size) <$> seq i k) ++ l).
Proof.
  intros Hb Hs Hby. induction k as [|k IH]; intros i free h l Hc Hl Hf; cbn [push_blocks]; [by eexists _, _|].
  rewrite wrap_small by nia. unfold pointer_size.
  destruct (Z.leb_spec (Z.of_nat i * size + 8) bytes); [|nia].
  replace (Z.of_nat i + 1) with (Z.of_nat (S i)) by lia.
  set (a := base + Z.of_nat i * size).
  assert (a ∉ l) as Ha by (specialize (Hl O ltac:(lia)); by rewrite Nat.add_0_r in Hl).
  destruct (IH (S i) a (<[a := free]> h) (a :: l)) as (free' & h' & E & Hc').
  - split_and!; [done|subst a; nia|]. exists free. rewrite lookup_insert_eq. split; [done|].
    by apply chain_insert.
  - intros j Hj. rewrite not_elem_of_cons. split; [subst a; nia|].
    specialize (Hl (S j) ltac:(lia)). by rewrite <-Nat.add_succ_comm in Hl.
  - by replace (S i + k)%nat with (i + S k)%nat by lia.
  - exists free', h'. split; [exact E|]. cbn [seq fmap list_fmap rev]. by rewrite <-app_assoc.
Qed.

(** ** The operations keep the invariant *)

Lemma new_inv size n : pool_inv (new size n) [].
Proof.
  constructor; simpl; [by exists []|apply NoDup_nil_2|apply not_elem_of_nil| |by left|done].
  unfold pointer_size. destruct (Z.ltb_spec size 8); lia.
Qed.

Lemma blocks_snoc (p : t) base h free n :
  blocks (Pool (block_size_ p) (blocks_per_chunk_ p) (chunks_ p ++ [base]) free n h) =
  blocks p ++ chunk_blocks base (block_size_ p) (Z.to_nat (blocks_per_chunk_ p)).
Proof. unfold blocks. simpl. by rewrite bind_app, bind_singleton. Qed.

Lemma chunk_inv base p live :
  pool_inv p live → free_list_ p = 0 → fresh_chunk base p →
  ∃ p', allocate_chunk_unlocked base p = Val p' ∧ pool_inv p' live.
Proof.
  intros [(free & Hc & Hp) Hnd H0 Hs _ Hn] Hf (Hb & Hfit & Hfresh). unfold allocate_chunk_unlocked, chunk_bytes.
  rewrite Hf in *. destruct free as [|x free]; [|by destruct Hc as (<- & [] & _)].
  assert (0 ≤ blocks_per_chunk_ p ∨ Z.to_nat (blocks_per_chunk_ p) = O) as Hpos by lia.
  destruct (push_blocks_chain base (block_size_ p) (wrap 64 (block_size_ p * blocks_per_chunk_ p))
    (Z.to_nat (blocks_per_chunk_ p)) Hb Hs ltac:(by apply wrap_range)
    0 0 (heads p) [] eq_refl (λ j _, not_elem_of_nil _)) as (free' & h' & E & Hpush).
  { destruct Hpos as [Hpos|Hpos]; [rewrite wrap_small by nia|rewrite Hpos; by apply wrap_range].
    rewrite Nat.add_0_l, Z2Nat.id by done. lia. }
  change (Z.of_nat 0) with 0 in E. rewrite E. rewrite app_nil_r in Hpush. eexists. split; [done|].
  constructor; simpl; [|rewrite blocks_snoc..|done|right; lia|done].
  - eexists. split; [exact Hpush|]. rewrite blocks_snoc. simpl in Hp. rewrite <-Hp.
    rewrite <-Permutation_rev. apply Permutation_app_comm.
  - apply list.NoDup_app. split_and!; [done| |apply chunk_blocks_nodup; lia].
    intros a Ha Ha'. by apply (Hfresh a).
  - rewrite not_elem_of_app. split; [done|]. intros (i & _ & E0)%chunk_blocks_elem. nia.
Qed.

(** Taking the first free block. *)
Lemma take_inv p live :
  pool_inv p live → free_list_ p ≠ 0 →
  ∃ next, heads p !! free_list_ p = Some next ∧ free_list_ p ∈ blocks p ∧ (free_list_ p ∉ live) ∧
    pool_inv (Pool (block_size_ p) (blocks_per_chunk_ p) (chunks_ p) next
                (wrap 64 (allocated_count_ p + 1)) (heads p)) (free_list_ p :: live).
Proof.
  intros [([|x free] & Hc & Hp) Hnd H0 Hs Hfit Hn] Hf; [done|].
  destruct Hc as (-> & Hx & next & E & Hc).
  assert (NoDup (x :: (free ++ live))) as Hnd' by (change (NoDup ((x :: free) ++ live)); by rewrite Hp).
  apply list.NoDup_cons in Hnd' as [Hxl Hnd']. rewrite not_elem_of_app in Hxl.
  exists next. split_and!; [done| |tauto|].
  - rewrite <-Hp. by left.
  - constructor; simpl; [|done|done|done|done|].
    + exists free. split; [done|]. change (blocks _) with (blocks p). rewrite <-Hp. simpl.
      by rewrite Permutation_middle.
    + rewrite Hn. unfold wrap. rewrite Zplus_mod_idemp_l. f_equal. lia.
Qed.

(** [allocate] gives a block that was not in use; without a block it throws and
    changes nothing (or, with empty chunks, only gains one). *)
Lemma allocate_inv base p live :
  pool_inv p live → (∀ b, base = Some b → free_list_ p = 0 → fresh_chunk b p) →
  ∃ p' r, allocate base p = Val (p', r) ∧
    match r with
    | inl a => (a ∉ live) ∧ a ∈ blocks p' ∧ pool_inv p' (a :: live)
    | inr _ => free_list_ p = 0 ∧ pool_inv p' live
    end.
Proof.
  intros Hinv Hbase. unfold allocate. destruct (Z.eqb_spec (free_list_ p) 0) as [Hf|Hf].
  - destruct base as [base|]; [|eexists _, (inr _); done].
    destruct (chunk_inv base p live Hinv Hf (Hbase _ eq_refl Hf)) as (p' & -> & Hinv'). cbn [res_bind].
    destruct (Z.eqb_spec (free_list_ p') 0) as [Hf'|Hf'];
      [by eexists _, (inr _)|].
    destruct (take_inv _ _ Hinv' Hf') as (next & -> & ? & ? & ?). by eexists _, (inl _).
  - destruct (take_inv _ _ Hinv Hf) as (next & -> & ? & ? & ?). by eexists _, (inl _).
Qed.

Lemma block_in_chunks a p live : pool_inv p live → a ∈ blocks p → in_chunks a p = true.
Proof.
  intros [_ _ _ Hs Hfit _] Hin. destruct Hfit as [E|Hfit]; [rewrite E in Hin; by apply not_elem_of_nil in Hin|].
  apply list_elem_of_bind in Hin as (base & Ha & Hb). unfold in_chunks. apply existsb_exists.
  exists base. split; [by apply list_elem_of_In|].
  apply chunk_blocks_elem in Ha as (i & Hi & ->). unfold chunk_bytes. rewrite wrap_small by nia. nia.
Qed.

Lemma deallocate_eq a p live :
  pool_inv p live → a ∈ blocks p →
  deallocate a p = Pool (block_size_ p) (blocks_per_chunk_ p) (chunks_ p) a
    (wrap 64 (allocated_count_ p - 1)) (<[a := free_list_ p]> (heads p)).
Proof.
  intros Hinv Ha. unfold deallocate. destruct (Z.eqb_spec a 0) as [->|]; [by destruct Hinv|].
  by rewrite (block_in_chunks a p live).
Qed.

Lemma deallocate_inv a p live :
  pool_inv p (a :: live) → pool_inv (deallocate a p) live.
Proof.
  intros Hinv. destruct Hinv as [(free & Hc & Hp) Hnd H0 Hs Hfit Hn] eqn:E.
  assert (a ∈ blocks p) as Ha by (rewrite <-Hp; apply elem_of_app; right; left).
  rewrite (deallocate_eq a p (a :: live)) by done.
  assert (NoDup (free ++ a :: live)) as Hnd' by (by rewrite Hp).
  apply list.NoDup_app in Hnd' as (_ & Hfa & _).
  assert (a ≠ 0) as Ha0 by (by intros ->).
  constructor; simpl; [|done..|].
  - exists (a :: free). split.
    + split_and!; [done|done|]. exists (free_list_ p). rewrite lookup_insert_eq. split; [done|].
      apply chain_insert; [|done]. intros Hin. apply (Hfa a Hin). by left.
    + change (blocks _) with (blocks p). rewrite <-Hp. simpl. by rewrite Permutation_middle.
  - rewrite Hn. cbn [length]. unfold wrap. rewrite Zminus_mod_idemp_l. f_equal. lia.
Qed.

Lemma client_write_inv a v p live :
  pool_inv p live → a ∈ live → pool_inv (client_write a v p) live.
Proof.
  intros [(free & Hc & Hp) Hnd H0 Hs Hfit Hn] Ha. constructor; [|done..].
  exists free. split; [|done]. simpl. apply chain_insert; [|done].
  assert (NoDup (free ++ live)) as Hnd' by (by rewrite Hp).
  apply list.NoDup_app in Hnd' as (_ & Hfa & _). intros Hin. by apply (Hfa a Hin).
Qed.

Lemma statistics_inv fuel p live :
  pool_inv p live → (fuel_for p ≤ fuel)%nat → ∃ s, get_statistics fuel p = Val s ∧
    allocated_blocks s = wrap 64 (Z.of_nat (length live)) ∧
    free_blocks s + Z.of_nat (length live) = Z.of_nat (length (blocks p)).
Proof.
  intros [(free & Hc & Hp) Hnd H0 Hs Hfit Hn] Hf. unfold fuel_for, get_statistics in *.
  apply Permutation_length in Hp. rewrite length_app in Hp.
  rewrite (count_free_chain _ _ _ _ _ Hc) by lia.
  simpl. eexists. split; [done|]. simpl. split; [done|lia].
Qed.

(** ** Clients *)

(** One step of a client that owns the blocks [live]: it allocates (the heap
    supplies a chunk when one is needed, or not), frees a block it owns, or
    writes into one. *)
Inductive client_step : t * list Z → t * list Z → Prop :=
| client_allocate base p live p' a :
    (∀ b, base = Some b → free_list_ p = 0 → fresh_chunk b p) →
    allocate base p = Val (p', inl a) → client_step (p, live) (p', a :: live)
| client_exception base p live p' e :
    (∀ b, base = Some b → free_list_ p = 0 → fresh_chunk b p) →
    allocate base p = Val (p', inr e) → client_step (p, live) (p', live)
| client_free p live1 a live2 :
    client_step (p, live1 ++ a :: live2) (deallocate a p, live1 ++ live2)
| client_writes p live a v :
    a ∈ live → client_step (p, live) (client_write a v p, live).

Definition client_reach (size n : Z) : t * list Z → Prop := rtc client_step (new size n, []).

Lemma inv_perm p live live' : live ≡ₚ live' → pool_inv p live → pool_inv p live'.
Proof.
  intros E [(free & Hc & Hp) Hnd H0 Hs Hn]. constructor; try done; [|by rewrite <-E].
  exists free. by rewrite <-E.
Qed.

Lemma client_step_inv s s' : client_step s s' → pool_inv s.1 s.2 → pool_inv s'.1 s'.2.
Proof.
  destruct 1 as [base p live p' a Hb E|base p live p' e Hb E|p l1 a l2|p live a v Ha]; simpl; intros Hinv.
  - destruct (allocate_inv base p live Hinv Hb) as (? & ? & E' & H). rewrite E in E'. simplify_eq. apply H.
  - destruct (allocate_inv base p live Hinv Hb) as (? & ? & E' & H). rewrite E in E'. simplify_eq. apply H.
  - apply deallocate_inv. eapply inv_perm; [|exact Hinv]. by rewrite Permutation_middle.
  - by apply client_write_inv.
Qed.

Lemma client_reach_inv size n s : client_reach size n s → pool_inv s.1 s.2.
Proof.
  unfold client_reach. intros H. pose proof (new_inv size n) as H0.
  change (pool_inv (new size n, @nil Z).1 (new size n, @nil Z).2) in H0. revert H0.
  induction H as [|s0 s1 s2 Hs _ IH]; [done|]. intros H0. by eapply IH, client_step_inv.
Qed.

Lemma inv_live p live : pool_inv p live → NoDup live ∧ (∀ a, a ∈ live → a ∈ blocks p).
Proof.
  intros [(free & Hc & Hp) Hnd H0 Hs Hfit Hn].
  assert (NoDup (free ++ live)) as (_ & _ & ?)%list.NoDup_app by (by rewrite Hp).
  split; [done|]. intros a Ha. rewrite <-Hp. apply elem_of_app. by right.
Qed.

(** ** Properties *)

(** C16. Allocation is sound for a client that frees only blocks it owns and
    writes only into them, at every point of every run: the blocks in use are
    distinct blocks of the pool, the next allocation gives a block that is not
    in use (or throws, when there is no free block and no chunk), and
    [get_statistics] ends, with free blocks and blocks in use adding up to the
    blocks of the pool. *)
Theorem pool_correct size n p live base :
  client_reach size n (p, live) → (∀ b, base = Some b → free_list_ p = 0 → fresh_chunk b p) →
  NoDup live ∧ (∀ a, a ∈ live → a ∈ blocks p) ∧
  (∃ p' r, allocate base p = Val (p', r) ∧
     match r with inl a => (a ∉ live) ∧ a ∈ blocks p' | inr _ => free_list_ p = 0 end) ∧
  ∃ s, get_statistics (fuel_for p) p = Val s ∧
    allocated_blocks s = wrap 64 (Z.of_nat (length live)) ∧
    free_blocks s + Z.of_nat (length live) = Z.of_nat (length (blocks p)).
Proof.
  intros Hr Hb. pose proof (client_reach_inv _ _ _ Hr) as Hinv. simpl in Hinv.
  destruct (inv_live _ _ Hinv) as [? ?]. split_and!; [done|done| |by apply (statistics_inv _ _ live)].
  destruct (allocate_inv base p live Hinv Hb) as (p' & r & E & Hc). exists p', r.
  split; [done|]. destruct r; [by destruct Hc as (? & ? & _)|by destruct Hc].
Qed.

(** The range check of [deallocate] does not stop a second free: after
    freeing a block twice the free list is a cycle, the next two allocations
    both return that block, and the walk of [get_statistics] never ends. *)
Theorem double_free_cycle size n p a live :
  client_reach size n (p, a :: live) →
  let p2 := deallocate a (deallocate a p) in
  (∀ base, ∃ p3 p4, allocate base p2 = Val (p3, inl a) ∧ allocate base p3 = Val (p4, inl a)) ∧
  ∀ fuel, get_statistics fuel p2 = NoFuel.
Proof.
  intros Hr p2. pose proof (client_reach_inv _ _ _ Hr) as Hinv. simpl in Hinv.
  destruct (inv_live _ _ Hinv) as [_ Hl]. specialize (Hl a (list_elem_of_here _ _)).
  assert (a ≠ 0) as Ha0 by (intros ->; by destruct Hinv).
  pose proof (deallocate_inv _ _ _ Hinv) as Hinv1.
  assert (p2 = Pool (block_size_ p) (blocks_per_chunk_ p) (chunks_ p) a
    (wrap 64 (wrap 64 (allocated_count_ p - 1) - 1)) (<[a := a]> (heads (deallocate a p)))) as E2.
  { unfold p2. rewrite (deallocate_eq a (deallocate a p) live Hinv1);
      rewrite (deallocate_eq a p (a :: live) Hinv Hl); done. }
  rewrite E2. clear E2 p2. split.
  - intros base. unfold allocate. cbn [free_list_ heads].
    destruct (Z.eqb_spec a 0); [done|]. rewrite !lookup_insert_eq. eexists _, _.
    split; [done|]. cbn [free_list_ heads]. destruct (Z.eqb_spec a 0); [done|].
    by rewrite !lookup_insert_eq.
  - intros fuel. unfold get_statistics. cbn [free_list_ heads].
    generalize (heads (deallocate a p)) 0. induction fuel as [|fuel IH]; intros h count; cbn [count_free];
      (destruct (Z.eqb_spec a 0); [done|]); [done|]. rewrite lookup_insert_eq. apply IH.
Qed.

(** A small pool of two blocks of 16 bytes, the second of which is in use. *)
Definition sample_pool : t :=
  match allocate (Some 4096) (new 16 2) with Val (p, _) => p | _ => new 16 2 end.

Lemma sample_reach : client_reach 16 2 (sample_pool, [4112]).
Proof.
  apply rtc_once, (client_allocate (Some 4096) (new 16 2) []); [|reflexivity].
  intros b [= <-] _. split; [lia|]. split; [vm_compute; discriminate|]. intros a _. apply not_elem_of_nil.
Qed.

Lemma pool_correct_witness :
  NoDup [4112] ∧ ∃ p' r, allocate None sample_pool = Val (p', r) ∧
    match r with inl a => (a ∉ [4112]) ∧ a ∈ blocks p' | inr _ => free_list_ sample_pool = 0 end.
Proof.
  destruct (pool_correct 16 2 sample_pool [4112] None sample_reach ltac:(done)) as (H1 & _ & H2 & _).
  exact (conj H1 H2).
Defined.

Lemma double_free_cycle_witness :
  get_statistics 1000 (deallocate 4112 (deallocate 4112 sample_pool)) = NoFuel.
Proof. apply (double_free_cycle 16 2 sample_pool 4112 [] sample_reach). Defined.
