(* ===== verification/PoolClients.v ===== *)
(** * Objects in the pools, and what a container reports of them

    The function templates at the end of [internal/pool_allocator.h], the
    instance each thread has of the allocator, the ratios of [memory_pool.h] and
    [types.h], and [value_container::get_pool_stats] and [clear_pool] of
    [core/container.cpp].  The build option [CONTAINER_USE_MEMORY_POOL] is on
    except where it is an argument.  Constructors and destructors of the pooled
    type are the client's: a constructor throws or leaves something in the first
    bytes, and uses no pool itself. *)

From S2P Require Import Prelude Float Numbers Decimal FloatArith MemoryPool MemoryPoolFacts.
From stdpp Require Import relations.
#[local] Open Scope Z_scope.
Import pool_allocator.

(** ** Ratios *)

Definition ratio (part whole : Z) : Z :=
  if 0 <? whole then f64_div (u64_to_f64 part) (u64_to_f64 whole) else 0.

Definition utilization_ratio (s : fixed_block_pool.statistics) : Z :=
  ratio (fixed_block_pool.allocated_blocks s) (fixed_block_pool.total_capacity s).

Definition allocator_hit_rate (s : pool_allocator_stats) : Z :=
  ratio (pool_hits s) (wrap 64 (pool_hits s + pool_misses s)).

Module pool_stats.
Record t : Type := Stats {
  hits : Z; misses : Z; small_pool_allocs : Z; medium_pool_allocs : Z;
  deallocations : Z; available : Z }.
Definition new : t := Stats 0 0 0 0 0 0.
(** [pool_stats(h, m, a)] *)
Definition of_three (h m a : Z) : t := Stats h m 0 0 0 a.
Definition hit_rate (s : t) : Z := ratio (hits s) (wrap 64 (hits s + misses s)).
End pool_stats.

(** [value_container::get_pool_stats] *)
Definition get_pool_stats (use_memory_pool : bool) (fuel : nat) (a : t) : res pool_stats.t :=
  if use_memory_pool then
    let stats := get_stats a in
    let? small_stats := get_small_pool_stats fuel a in
    let? medium_stats := get_medium_pool_stats fuel a in
    Val (pool_stats.Stats (pool_hits stats) (pool_misses stats) (small_pool_allocs stats)
           (medium_pool_allocs stats) (deallocations stats)
           (wrap 64 (fixed_block_pool.free_blocks small_stats +
                     fixed_block_pool.free_blocks medium_stats)))
  else Val (pool_stats.of_three 0 0 0).

(** [value_container::clear_pool] *)
Definition clear_pool (use_memory_pool : bool) (a : t) : t :=
  if use_memory_pool then reset_stats a else a.

(** ** The instance of a thread *)

Abbreviation instances := (gmap nat t).
Definition instance (thread : nat) (m : instances) : t := default new (m !! thread).

(** ** Objects *)

Section Object.
(** [sizeof(T)] *)
Context (size : Z).

(** The first bytes of a block are written; other memory is not modelled. *)
Definition write_block (ptr head : Z) (p : fixed_block_pool.t) : fixed_block_pool.t :=
  if fixed_block_pool.in_chunks ptr p then fixed_block_pool.client_write ptr head p else p.

Definition construct (ptr head : Z) (a : t) : t :=
  Allocator (write_block ptr head (small_pool_ a)) (write_block ptr head (medium_pool_ a)) (stats_ a).

(** The object's address, and what went to [::operator delete]; [head] is what the
    constructor leaves in the first bytes, [throws] that it throws then. *)
Definition pool_allocate (base : option Z) (heap head : Z) (throws : bool) (a : t)
    : res (t * Z * option Z) :=
  let? (a, ptr) := allocate size base heap a in
  if ptr =? 0 then Val (a, 0, None)
  else
    let a := construct ptr head a in
    if throws then let (a, deleted) := deallocate ptr size a in Val (a, 0, deleted)
    else Val (a, ptr, None).

Definition pool_deallocate (ptr : Z) (a : t) : t * option Z :=
  if ptr =? 0 then (a, None) else deallocate ptr size a.
End Object.

(** On a thread. *)
Definition pool_allocate_on (thread : nat) (size : Z) (base : option Z) (heap head : Z) (throws : bool)
    (m : instances) : res (instances * Z * option Z) :=
  let? (a, ptr, deleted) := pool_allocate size base heap head throws (instance thread m) in
  Val (<[thread := a]> m, ptr, deleted).

Definition pool_deallocate_on (thread : nat) (size ptr : Z) (m : instances) : instances * option Z :=
  let (a, deleted) := pool_deallocate size ptr (instance thread m) in (<[thread := a]> m, deleted).

(** ** Ratios are between 0 and 1 *)

Definition f64_one : Z := 0x3FF0000000000000.

Lemma ratio_bounds part whole : 0 ≤ part ≤ whole → whole < 2 ^ 64 → 0 ≤ ratio part whole ≤ f64_one.
Proof.
  intros Hp Hw. unfold ratio. destruct (Z.ltb_spec 0 whole) as [H0|]; [|done].
  pose proof (u64_to_f64_range whole ltac:(lia)).
  pose proof (u64_to_f64_mono 0 part ltac:(lia)). pose proof (u64_to_f64_mono part whole ltac:(lia)).
  assert (u64_to_f64 0 = 0 ∧ u64_to_f64 1 = f64_one ∧ units f64 (u64_to_f64 1) = 2 ^ 1074)
    as (Z0 & Z1 & U1) by (split_and!; by vm_compute).
  rewrite <-Z1. apply f64_div_le; [lia|lia|lia|].
  pose proof (units_mono f64 (u64_to_f64 part) (u64_to_f64 whole) ltac:(lia)). lia.
Qed.

(** ** Who owns which memory *)

(** The memory a client of the allocator has: blocks in use of the two pools, large
    blocks of the heap, blocks of the heap that a failing pool fell back to, with
    their sizes, and those of the last kind that were freed. *)
Record owned : Type := Owned {
  small : list Z; medium : list Z; large : list Z; fallback : list (Z * Z); leaked : list Z }.

Definition heap_blocks (o : owned) : list Z := large o ++ (fallback o).*1 ++ leaked o.

(** Whether the pool, not the heap, has served. *)
Definition pool_served (size : Z) (a a' : t) : bool :=
  (size <=? medium_threshold) && (pool_misses (stats_ a') =? pool_misses (stats_ a)).

Definition receive (size ptr : Z) (served : bool) (o : owned) : owned :=
  if ptr =? 0 then o
  else if served then
    if size <=? small_threshold
    then Owned (ptr :: small o) (medium o) (large o) (fallback o) (leaked o)
    else Owned (small o) (ptr :: medium o) (large o) (fallback o) (leaked o)
  else if size <=? medium_threshold
  then Owned (small o) (medium o) (large o) ((ptr, size) :: fallback o) (leaked o)
  else Owned (small o) (medium o) (ptr :: large o) (fallback o) (leaked o).

Definition held (a : t) (o : owned) (x : Z) : Prop :=
  fixed_block_pool.in_chunks x (small_pool_ a) = true ∨
  fixed_block_pool.in_chunks x (medium_pool_ a) = true ∨ x ∈ heap_blocks o.

(** What the heap promises: a chunk and a block are memory nobody has, a chunk in the
    address space. *)
Definition new_memory (base : option Z) (heap : Z) (a : t) (o : owned) : Prop :=
  (heap ≠ 0 → ¬ held a o heap) ∧
  ∀ b p, base = Some b → p = small_pool_ a ∨ p = medium_pool_ a →
    0 < b ∧ b + fixed_block_pool.block_size_ p * fixed_block_pool.blocks_per_chunk_ p ≤ 2 ^ 64 ∧
    ∀ x, b ≤ x < b + fixed_block_pool.block_size_ p * fixed_block_pool.blocks_per_chunk_ p →
      ¬ held a o x ∧ x ≠ heap.

Inductive client : t * owned → t * owned → Prop :=
| client_allocates size base heap a o a' ptr :
    0 ≤ size → new_memory base heap a o → allocate size base heap a = Val (a', ptr) →
    client (a, o) (a', receive size ptr (pool_served size a a') o)
| client_frees_small size ptr l1 l2 m l f k a :
    0 < size ≤ small_threshold →
    client (a, Owned (l1 ++ ptr :: l2) m l f k) ((deallocate ptr size a).1, Owned (l1 ++ l2) m l f k)
| client_frees_medium size ptr s l1 l2 l f k a :
    small_threshold < size ≤ medium_threshold →
    client (a, Owned s (l1 ++ ptr :: l2) l f k) ((deallocate ptr size a).1, Owned s (l1 ++ l2) l f k)
| client_frees_large size ptr s m l1 l2 f k a :
    medium_threshold < size →
    client (a, Owned s m (l1 ++ ptr :: l2) f k) ((deallocate ptr size a).1, Owned s m (l1 ++ l2) f k)
| client_frees_fallback size ptr s m l l1 l2 k a :
    client (a, Owned s m l (l1 ++ (ptr, size) :: l2) k)
           ((deallocate ptr size a).1, Owned s m l (l1 ++ l2) (ptr :: k)).

Definition nothing : owned := Owned [] [] [] [] [].
Definition client_reaches : t * owned → Prop := rtc client (new, nothing).

Record allocator_inv (a : t) (o : owned) : Prop := {
  ai_small : pool_inv (small_pool_ a) (small o);
  ai_medium : pool_inv (medium_pool_ a) (medium o);
  ai_sizes : fixed_block_pool.block_size_ (small_pool_ a) = small_threshold ∧
             fixed_block_pool.block_size_ (medium_pool_ a) = medium_threshold ∧
             fixed_block_pool.blocks_per_chunk_ (small_pool_ a) = blocks_per_chunk ∧
             fixed_block_pool.blocks_per_chunk_ (medium_pool_ a) = blocks_per_chunk;
  ai_apart : ∀ x, fixed_block_pool.in_chunks x (small_pool_ a) = true →
                  fixed_block_pool.in_chunks x (medium_pool_ a) = false;
  ai_heap : ∀ x, x ∈ heap_blocks o → x ≠ 0 ∧ fixed_block_pool.in_chunks x (small_pool_ a) = false ∧
                 fixed_block_pool.in_chunks x (medium_pool_ a) = false;
  ai_nodup : NoDup (heap_blocks o);
  ai_fallback : Forall (λ b, 0 < b.2 ≤ medium_threshold) (fallback o);
  ai_hits : pool_hits (stats_ a) = wrap 64 (small_pool_allocs (stats_ a) + medium_pool_allocs (stats_ a)) }.

(** *** Allocation *)

Lemma allocate_chunks base p p' r :
  fixed_block_pool.allocate base p = Val (p', r) →
  fixed_block_pool.block_size_ p' = fixed_block_pool.block_size_ p ∧
  fixed_block_pool.blocks_per_chunk_ p' = fixed_block_pool.blocks_per_chunk_ p ∧
  (fixed_block_pool.chunks_ p' = fixed_block_pool.chunks_ p ∨
   ∃ b, base = Some b ∧ fixed_block_pool.chunks_ p' = fixed_block_pool.chunks_ p ++ [b]).
Proof.
  assert (∀ b q, fixed_block_pool.allocate_chunk_unlocked b p = Val q →
    fixed_block_pool.block_size_ q = fixed_block_pool.block_size_ p ∧
    fixed_block_pool.blocks_per_chunk_ q = fixed_block_pool.blocks_per_chunk_ p ∧
    fixed_block_pool.chunks_ q = fixed_block_pool.chunks_ p ++ [b]) as Hq.
  { intros b q. unfold fixed_block_pool.allocate_chunk_unlocked.
    destruct (fixed_block_pool.push_blocks _ _ _ _ _ _ _) as [[free h]| |]; [|done..].
    by intros [= <-]. }
  unfold fixed_block_pool.allocate. intros H.
  destruct (fixed_block_pool.free_list_ p =? 0).
  - destruct base as [b|]; [|injection H as <- _; eauto].
    destruct (fixed_block_pool.allocate_chunk_unlocked b p) as [q| |] eqn:Eq; [|done..]. cbn [res_bind] in H.
    destruct (Hq b q Eq) as (E1 & E2 & E3).
    repeat case_match; simplify_eq; simpl; eauto 10.
  - repeat case_match; simplify_eq; simpl; eauto.
Qed.

(** What an allocation from one pool does; [used] is the memory of others. *)
Lemma pool_allocates p live base (used : Z → Prop) :
  pool_inv p live → 0 ≤ fixed_block_pool.blocks_per_chunk_ p →
  (∀ b, base = Some b → 0 < b ∧
     b + fixed_block_pool.block_size_ p * fixed_block_pool.blocks_per_chunk_ p ≤ 2 ^ 64 ∧
     ∀ x, b ≤ x < b + fixed_block_pool.block_size_ p * fixed_block_pool.blocks_per_chunk_ p →
       fixed_block_pool.in_chunks x p = false ∧ ¬ used x) →
  ∃ p' r, fixed_block_pool.allocate base p = Val (p', r) ∧
  fixed_block_pool.block_size_ p' = fixed_block_pool.block_size_ p ∧
  fixed_block_pool.blocks_per_chunk_ p' = fixed_block_pool.blocks_per_chunk_ p ∧
  (∀ x, used x → fixed_block_pool.in_chunks x p = false → fixed_block_pool.in_chunks x p' = false) ∧
  match r with inl ptr => ptr ≠ 0 ∧ pool_inv p' (ptr :: live) | inr _ => pool_inv p' live end.
Proof.
  intros Hinv Hn Hb. destruct (allocate_inv base p live Hinv) as (p' & r & E & Hr).
  { intros b Eb _. destruct (Hb b Eb) as (Hpos & Hfit & Hfree). split_and!; [done..|].
    intros x Hx Hin. apply (block_in_chunks x p live Hinv) in Hin.
    apply chunk_blocks_elem in Hx as (i & Hi & ->).
    destruct Hinv as [_ _ _ Hs _ _]. destruct (Hfree (b + Z.of_nat i * fixed_block_pool.block_size_ p)) as [Hf _];
      [nia|congruence]. }
  destruct (allocate_chunks _ _ _ _ E) as (E1 & E2 & E3). exists p', r. split_and!; [done..| |].
  - intros x Hx Hp. unfold fixed_block_pool.in_chunks, fixed_block_pool.chunk_bytes in *. rewrite E1, E2.
    destruct E3 as [->|(b & -> & ->)]; [done|]. rewrite existsb_app, Hp. simpl.
    destruct (Hb b eq_refl) as (Hpos & Hfit & Hfree). rewrite orb_false_r.
    destruct Hinv as [_ _ _ Hs _ _]. rewrite wrap_small by nia.
    destruct (Z.leb_spec b x); [|done]. simpl. destruct (Z.ltb_spec x
      (b + fixed_block_pool.block_size_ p * fixed_block_pool.blocks_per_chunk_ p)) as [Hlt|]; [|done].
    by destruct (Hfree x (conj H Hlt)) as [_ []].
  - destruct r as [ptr|]; [|by destruct Hr].
    destruct Hr as (_ & Hin & Hi). split; [|done]. intros ->. by destruct Hi.
Qed.

Lemma miss_seen n : (wrap 64 (n + 1) =? n) = false.
Proof. apply Z.eqb_neq. unfold wrap. Z.div_mod_to_equations. lia. Qed.

Lemma hits_add_up s :
  pool_hits s = wrap 64 (small_pool_allocs s + medium_pool_allocs s) →
  (pool_hits (hit_small s) =
     wrap 64 (small_pool_allocs (hit_small s) + medium_pool_allocs (hit_small s))) ∧
  (pool_hits (hit_medium s) =
     wrap 64 (small_pool_allocs (hit_medium s) + medium_pool_allocs (hit_medium s))).
Proof.
  intros E. unfold hit_small, hit_medium, wrap in *. simpl. rewrite E.
  split; Z.div_mod_to_equations; lia.
Qed.

(** Changing one pool at a time. *)
Lemma change_small a o p live st :
  allocator_inv a o → pool_inv p live →
  fixed_block_pool.block_size_ p = fixed_block_pool.block_size_ (small_pool_ a) →
  fixed_block_pool.blocks_per_chunk_ p = fixed_block_pool.blocks_per_chunk_ (small_pool_ a) →
  (∀ x, fixed_block_pool.in_chunks x (medium_pool_ a) = true ∨ x ∈ heap_blocks o →
     fixed_block_pool.in_chunks x (small_pool_ a) = false → fixed_block_pool.in_chunks x p = false) →
  pool_hits st = wrap 64 (small_pool_allocs st + medium_pool_allocs st) →
  allocator_inv (Allocator p (medium_pool_ a) st)
    (Owned live (medium o) (large o) (fallback o) (leaked o)).
Proof.
  intros [Hs Hm (S1 & S2 & S3 & S4) Ha Hh Hn Hf _] Hp E1 E2 Hused Hst.
  constructor; simpl; [done|done| | | |done|done|done].
  - by rewrite E1, E2.
  - intros x Hx. apply not_true_iff_false. intros Hxm.
    assert (fixed_block_pool.in_chunks x (small_pool_ a) = false) as Hxs.
    { apply not_true_iff_false. intros Hxs. apply Ha in Hxs. congruence. }
    rewrite (Hused x) in Hx; [done|by left|done].
  - intros x Hx. destruct (Hh x Hx) as (? & ? & ?). split_and!; [done| |done]. apply Hused; [by right|done].
Qed.

Lemma change_medium a o p live st :
  allocator_inv a o → pool_inv p live →
  fixed_block_pool.block_size_ p = fixed_block_pool.block_size_ (medium_pool_ a) →
  fixed_block_pool.blocks_per_chunk_ p = fixed_block_pool.blocks_per_chunk_ (medium_pool_ a) →
  (∀ x, fixed_block_pool.in_chunks x (small_pool_ a) = true ∨ x ∈ heap_blocks o →
     fixed_block_pool.in_chunks x (medium_pool_ a) = false → fixed_block_pool.in_chunks x p = false) →
  pool_hits st = wrap 64 (small_pool_allocs st + medium_pool_allocs st) →
  allocator_inv (Allocator (small_pool_ a) p st)
    (Owned (small o) live (large o) (fallback o) (leaked o)).
Proof.
  intros [Hs Hm (S1 & S2 & S3 & S4) Ha Hh Hn Hf _] Hp E1 E2 Hused Hst.
  constructor; simpl; [done|done| | | |done|done|done].
  - by rewrite E1, E2.
  - intros x Hx. apply Hused; [by left|by apply Ha].
  - intros x Hx. destruct (Hh x Hx) as (? & ? & ?). split_and!; [done|done|]. apply Hused; [by right|done].
Qed.

(** The last resort. *)
Lemma from_heap_inv a o size heap :
  allocator_inv a o → 0 < size →
  (heap ≠ 0 → (heap ∉ heap_blocks o) ∧ fixed_block_pool.in_chunks heap (small_pool_ a) = false ∧
     fixed_block_pool.in_chunks heap (medium_pool_ a) = false) →
  allocator_inv (from_heap heap a).1 (receive size heap false o).
Proof.
  intros [Hs Hm Hz Ha Hh Hn Hf Hst] Hsize Hheap. unfold receive.
  destruct (Z.eqb_spec heap 0) as [->|H0]; [by constructor|].
  destruct (Hheap H0) as (Hnew & H1 & H2).
  assert (∀ x, x ∈ heap :: heap_blocks o → x ≠ 0 ∧ fixed_block_pool.in_chunks x (small_pool_ a) = false ∧
            fixed_block_pool.in_chunks x (medium_pool_ a) = false) as Hh'
    by (intros x [->|Hx]%elem_of_cons; [done|by apply Hh]).
  assert (NoDup (heap :: heap_blocks o)) as Hn' by (by constructor).
  destruct (Z.leb_spec size medium_threshold) as [Hle|Hle]; constructor; simpl; try done.
  - intros x Hx. apply Hh'. revert Hx. unfold heap_blocks. simpl.
    rewrite elem_of_cons, !elem_of_app, !elem_of_cons, !elem_of_app. tauto.
  - unfold heap_blocks in *. simpl. by rewrite <-Permutation_middle.
  - constructor; [simpl; lia|done].
Qed.

(** The promises of the heap, for one pool. *)
Lemma new_memory_pool base heap a o p (used : Z → Prop) :
  new_memory base heap a o → p = small_pool_ a ∨ p = medium_pool_ a →
  (∀ x, used x → fixed_block_pool.in_chunks x (small_pool_ a) = true ∨
     fixed_block_pool.in_chunks x (medium_pool_ a) = true ∨ x ∈ heap_blocks o ∨ x = heap) →
  ∀ b, base = Some b → 0 < b ∧
    b + fixed_block_pool.block_size_ p * fixed_block_pool.blocks_per_chunk_ p ≤ 2 ^ 64 ∧
    ∀ x, b ≤ x < b + fixed_block_pool.block_size_ p * fixed_block_pool.blocks_per_chunk_ p →
      fixed_block_pool.in_chunks x p = false ∧ ¬ used x.
Proof.
  intros [_ Hbase] Hp Hused b Eb. destruct (Hbase b p Eb Hp) as (? & ? & Hx). split_and!; [done..|].
  intros x Hxr. destruct (Hx x Hxr) as [Hh Hn]. unfold held in Hh. split.
  - apply not_true_iff_false. intros E. apply Hh. destruct Hp as [-> | ->]; tauto.
  - intros Hu. apply Hused in Hu. tauto.
Qed.

Lemma new_memory_heap base heap a o :
  new_memory base heap a o → heap ≠ 0 →
  (heap ∉ heap_blocks o) ∧ fixed_block_pool.in_chunks heap (small_pool_ a) = false ∧
  fixed_block_pool.in_chunks heap (medium_pool_ a) = false.
Proof.
  intros [Hh _] Hn. apply Hh in Hn. unfold held in Hn.
  split_and!; [tauto|apply not_true_iff_false; tauto|apply not_true_iff_false; tauto].
Qed.

Lemma pools_counted a o :
  allocator_inv a o → 0 ≤ fixed_block_pool.blocks_per_chunk_ (small_pool_ a) ∧
  0 ≤ fixed_block_pool.blocks_per_chunk_ (medium_pool_ a).
Proof. intros [_ _ (_ & _ & -> & ->) _ _ _ _ _]. done. Qed.

Lemma allocates_small a o size base heap :
  allocator_inv a o → 0 < size ≤ small_threshold → new_memory base heap a o →
  ∃ a' ptr, allocate size base heap a = Val (a', ptr) ∧
    allocator_inv a' (receive size ptr (pool_served size a a') o).
Proof.
  intros Hinv Hs Hnew. unfold allocate, pool_served.
  rewrite (proj2 (Z.eqb_neq size 0)), (proj2 (Z.leb_le size small_threshold)) by lia.
  destruct (pool_allocates (small_pool_ a) (small o) base (λ x, fixed_block_pool.in_chunks x
    (medium_pool_ a) = true ∨ x ∈ heap_blocks o ∨ x = heap)) as (p & r & E & E1 & E2 & Hu & Hr).
  { apply Hinv. }
  { apply (pools_counted a o Hinv). }
  { apply (new_memory_pool base heap a o); [done|by left|tauto]. }
  rewrite E. cbn [res_bind]. rewrite (proj2 (Z.leb_le size medium_threshold))
    by (unfold small_threshold, medium_threshold in *; lia).
  destruct r as [ptr|e]; eexists _, _; (split; [reflexivity|]); cbn [from_heap stats_ pool_misses miss hit_small].
  - rewrite Z.eqb_refl. unfold receive. destruct Hr as [Hp Hr].
    rewrite (proj2 (Z.eqb_neq ptr 0)), (proj2 (Z.leb_le size small_threshold)) by (done || lia). cbn [andb].
    apply change_small; try assumption; [intros x Hx; apply Hu; tauto|].
    by apply hits_add_up, Hinv.
  - rewrite miss_seen. cbn [andb].
    apply (from_heap_inv (Allocator p (medium_pool_ a) (stats_ a)) o); [|lia|].
    + destruct o as [ls lm l f k]. apply (change_small a (Owned ls lm l f k)); try assumption;
        [intros x Hx; apply Hu; tauto|apply Hinv].
    + intros Hn. destruct (new_memory_heap _ _ _ _ Hnew Hn) as (? & ? & ?). split_and!; [done| |done].
      simpl. apply Hu; [by right; right|done].
Qed.

Lemma allocates_medium a o size base heap :
  allocator_inv a o → small_threshold < size ≤ medium_threshold → new_memory base heap a o →
  ∃ a' ptr, allocate size base heap a = Val (a', ptr) ∧
    allocator_inv a' (receive size ptr (pool_served size a a') o).
Proof.
  intros Hinv Hs Hnew. unfold allocate, pool_served. assert (0 < small_threshold) by done.
  rewrite (proj2 (Z.eqb_neq size 0)), (proj2 (Z.leb_gt size small_threshold)),
    (proj2 (Z.leb_le size medium_threshold)) by lia.
  destruct (pool_allocates (medium_pool_ a) (medium o) base (λ x, fixed_block_pool.in_chunks x
    (small_pool_ a) = true ∨ x ∈ heap_blocks o ∨ x = heap)) as (p & r & E & E1 & E2 & Hu & Hr).
  { apply Hinv. }
  { apply (pools_counted a o Hinv). }
  { apply (new_memory_pool base heap a o); [done|by right|tauto]. }
  rewrite E. cbn [res_bind].
  destruct r as [ptr|e]; eexists _, _; (split; [reflexivity|]); cbn [from_heap stats_ pool_misses miss hit_medium].
  - rewrite Z.eqb_refl. unfold receive. destruct Hr as [Hp Hr].
    rewrite (proj2 (Z.eqb_neq ptr 0)), (proj2 (Z.leb_gt size small_threshold)) by (done || lia). cbn [andb].
    apply change_medium; try assumption; [intros x Hx; apply Hu; tauto|].
    by apply hits_add_up, Hinv.
  - rewrite miss_seen. cbn [andb].
    apply (from_heap_inv (Allocator (small_pool_ a) p (stats_ a)) o); [|lia|].
    + destruct o as [ls lm l f k]. apply (change_medium a (Owned ls lm l f k)); try assumption;
        [intros x Hx; apply Hu; tauto|apply Hinv].
    + intros Hn. destruct (new_memory_heap _ _ _ _ Hnew Hn) as (? & ? & ?). split_and!; [done|done|].
      simpl. apply Hu; [by right; right|done].
Qed.

Lemma allocator_allocates a o size base heap :
  allocator_inv a o → 0 ≤ size → new_memory base heap a o →
  ∃ a' ptr, allocate size base heap a = Val (a', ptr) ∧
    allocator_inv a' (receive size ptr (pool_served size a a') o).
Proof.
  intros Hinv H0 Hnew. assert (0 < small_threshold < medium_threshold) as Ht by done.
  destruct (Z.eq_dec size 0) as [->|Hne]; [by eexists _, _|].
  destruct (Z.le_gt_cases size small_threshold); [by apply allocates_small; [|lia|]|].
  destruct (Z.le_gt_cases size medium_threshold); [by apply allocates_medium; [|lia|]|].
  unfold allocate, pool_served. rewrite (proj2 (Z.eqb_neq size 0)), (proj2 (Z.leb_gt size small_threshold)),
    (proj2 (Z.leb_gt size medium_threshold)) by lia.
  eexists _, _. split; [reflexivity|]. cbn [andb].
  apply (from_heap_inv a o size heap Hinv); [lia|]. by eapply new_memory_heap.
Qed.

(** *** Freeing *)

Lemma deallocate_sizes x p :
  fixed_block_pool.block_size_ (fixed_block_pool.deallocate x p) = fixed_block_pool.block_size_ p ∧
  fixed_block_pool.blocks_per_chunk_ (fixed_block_pool.deallocate x p) = fixed_block_pool.blocks_per_chunk_ p ∧
  ∀ y, fixed_block_pool.in_chunks y (fixed_block_pool.deallocate x p) = fixed_block_pool.in_chunks y p.
Proof. unfold fixed_block_pool.deallocate. by repeat case_match. Qed.

Lemma frees_small a o ptr l1 l2 size :
  allocator_inv a o → small o = l1 ++ ptr :: l2 → 0 < size ≤ small_threshold →
  allocator_inv (deallocate ptr size a).1
    (Owned (l1 ++ l2) (medium o) (large o) (fallback o) (leaked o)).
Proof.
  intros Hinv Ho Hs. pose proof (ai_small _ _ Hinv) as Hp. rewrite Ho in Hp.
  apply (inv_perm _ _ (ptr :: l1 ++ l2)) in Hp; [|by rewrite Permutation_middle].
  assert (ptr ≠ 0) as H0.
  { intros ->. destruct (inv_live _ _ Hp) as [_ Hb]. destruct Hp as [_ _ Hz _ _].
    apply Hz, Hb. by left. }
  unfold deallocate. rewrite (proj2 (Z.eqb_neq ptr 0)), (proj2 (Z.leb_le size _)) by (done || lia).
  destruct (deallocate_sizes ptr (small_pool_ a)) as (E1 & E2 & E3).
  apply change_small; [done|by apply deallocate_inv|done|done|by intros x _; rewrite E3|].
  apply Hinv.
Qed.

Lemma frees_medium a o ptr l1 l2 size :
  allocator_inv a o → medium o = l1 ++ ptr :: l2 → small_threshold < size ≤ medium_threshold →
  allocator_inv (deallocate ptr size a).1
    (Owned (small o) (l1 ++ l2) (large o) (fallback o) (leaked o)).
Proof.
  intros Hinv Ho Hs. pose proof (ai_medium _ _ Hinv) as Hp. rewrite Ho in Hp.
  apply (inv_perm _ _ (ptr :: l1 ++ l2)) in Hp; [|by rewrite Permutation_middle].
  assert (ptr ≠ 0) as H0.
  { intros ->. destruct (inv_live _ _ Hp) as [_ Hb]. destruct Hp as [_ _ Hz _ _].
    apply Hz, Hb. by left. }
  unfold deallocate. rewrite (proj2 (Z.eqb_neq ptr 0)), (proj2 (Z.leb_gt size small_threshold)),
    (proj2 (Z.leb_le size _)) by (done || lia).
  destruct (deallocate_sizes ptr (medium_pool_ a)) as (E1 & E2 & E3).
  apply change_medium; [done|by apply deallocate_inv|done|done|by intros x _; rewrite E3|].
  apply Hinv.
Qed.

(** A block of the heap is no pool's, so a free of a size the pools serve is lost. *)
Lemma fallback_ignored a o ptr size :
  allocator_inv a o → (ptr, size) ∈ fallback o →
  deallocate ptr size a = (Allocator (small_pool_ a) (medium_pool_ a) (count_deallocation (stats_ a)), None).
Proof.
  intros Hinv Hin. pose proof (ai_fallback _ _ Hinv) as Hf. rewrite list.Forall_forall in Hf.
  destruct (Hf _ Hin) as [_ Hs]. simpl in Hs.
  destruct (ai_heap _ _ Hinv ptr) as (H0 & H1 & H2).
  { unfold heap_blocks. rewrite !elem_of_app. right. left. apply list_elem_of_fmap. by exists (ptr, size). }
  unfold deallocate, fixed_block_pool.deallocate. rewrite (proj2 (Z.eqb_neq ptr 0)), H1, H2 by done. simpl.
  destruct (size <=? small_threshold); [done|]. by rewrite (proj2 (Z.leb_le size medium_threshold)).
Qed.

Lemma large_freed a o ptr size :
  allocator_inv a o → ptr ∈ large o → medium_threshold < size →
  deallocate ptr size a = (Allocator (small_pool_ a) (medium_pool_ a) (count_deallocation (stats_ a)), Some ptr).
Proof.
  intros Hinv Hin Hs. destruct (ai_heap _ _ Hinv ptr) as (H0 & _ & _).
  { unfold heap_blocks. rewrite !elem_of_app. by left. }
  assert (small_threshold < medium_threshold) by done. unfold deallocate.
  by rewrite (proj2 (Z.eqb_neq ptr 0)), (proj2 (Z.leb_gt size small_threshold)),
    (proj2 (Z.leb_gt size medium_threshold)) by (done || lia).
Qed.

(** The pools stay as they are; blocks of the heap may go. *)
Lemma change_heap a o l f k :
  allocator_inv a o →
  (∃ gone, heap_blocks o ≡ₚ gone ++ heap_blocks (Owned (small o) (medium o) l f k)) →
  Forall (λ b, 0 < b.2 ≤ medium_threshold) f →
  allocator_inv (Allocator (small_pool_ a) (medium_pool_ a) (count_deallocation (stats_ a)))
    (Owned (small o) (medium o) l f k).
Proof.
  intros [Hs Hm Hz Ha Hh Hn _ Hst] [gone Hg] Hf. constructor; simpl; try done.
  - intros x Hx. apply Hh. rewrite Hg. apply elem_of_app. by right.
  - rewrite Hg in Hn. apply list.NoDup_app in Hn. tauto.
Qed.

Lemma client_inv s s' : client s s' → allocator_inv s.1 s.2 → allocator_inv s'.1 s'.2.
Proof.
  destruct 1 as [size base heap a o a' ptr H0 Hnew E|size ptr l1 l2 m l f k a Hs|
    size ptr s l1 l2 l f k a Hs|size ptr s m l1 l2 f k a Hs|size ptr s m l l1 l2 k a]; simpl; intros Hinv.
  - destruct (allocator_allocates a o size base heap Hinv H0 Hnew) as (a2 & p2 & E2 & H).
    rewrite E in E2. by injection E2 as <- <-.
  - exact (frees_small a _ ptr l1 l2 size Hinv eq_refl Hs).
  - exact (frees_medium a _ ptr l1 l2 size Hinv eq_refl Hs).
  - rewrite (large_freed _ _ ptr size Hinv); [|simpl; rewrite elem_of_app, elem_of_cons; tauto|done].
    apply (change_heap _ _ _ _ _ Hinv); [|apply Hinv]. exists [ptr]. unfold heap_blocks. simpl.
    rewrite <-!app_assoc. simpl. symmetry. apply Permutation_middle.
  - rewrite (fallback_ignored _ _ ptr size Hinv); [|simpl; rewrite elem_of_app, elem_of_cons; tauto].
    pose proof (ai_fallback _ _ Hinv) as Hf. simpl in Hf. rewrite list.Forall_app, list.Forall_cons in Hf.
    apply (change_heap _ _ _ _ _ Hinv); [|apply list.Forall_app; tauto]. exists []. unfold heap_blocks. simpl.
    rewrite !fmap_app. simpl. rewrite <-!app_assoc. simpl.
    do 2 f_equiv. apply Permutation_middle.
Qed.

Lemma new_allocator_inv : allocator_inv new nothing.
Proof.
  constructor; simpl; try done; [apply new_inv|apply new_inv| |constructor].
  intros x Hx. by apply elem_of_nil in Hx.
Qed.

Lemma client_reaches_inv s : client_reaches s → allocator_inv s.1 s.2.
Proof.
  unfold client_reaches. intros H. cut (allocator_inv (new, nothing).1 (new, nothing).2);
    [|apply new_allocator_inv].
  revert H. generalize (new, nothing). intros s0 H. induction H as [|s0 s1 s2 Hs _ IH]; [done|].
  intros H0. by eapply IH, client_inv.
Qed.

(** ** The properties *)

Definition all_blocks (o : owned) : list Z := small o ++ medium o ++ heap_blocks o.

Lemma inv_distinct a o : allocator_inv a o → NoDup (all_blocks o).
Proof.
  intros [Hs Hm _ Ha Hh Hn _ _].
  destruct (inv_live _ _ Hs) as [Ns Bs]. destruct (inv_live _ _ Hm) as [Nm Bm].
  assert (∀ x, x ∈ small o → fixed_block_pool.in_chunks x (small_pool_ a) = true) as Cs
    by (intros x Hx; eapply block_in_chunks; eauto).
  assert (∀ x, x ∈ medium o → fixed_block_pool.in_chunks x (medium_pool_ a) = true) as Cm
    by (intros x Hx; eapply block_in_chunks; eauto).
  apply list.NoDup_app. split_and!; [done| |apply list.NoDup_app; split_and!; [done| |done]].
  - intros x Hx [Hx'|Hx']%elem_of_app; apply Cs in Hx.
    + apply Cm in Hx'. apply Ha in Hx. congruence.
    + apply Hh in Hx'. destruct Hx' as (_ & ? & _). congruence.
  - intros x Hx Hx'. apply Cm in Hx. apply Hh in Hx'. destruct Hx' as (_ & _ & ?). congruence.
Qed.

Lemma received_blocks size ptr served o :
  ptr ≠ 0 → all_blocks (receive size ptr served o) ≡ₚ ptr :: all_blocks o.
Proof.
  intros H. unfold receive. rewrite (proj2 (Z.eqb_neq ptr 0)) by done. unfold all_blocks, heap_blocks.
  destruct served; case_match; simpl; [done|..]; by rewrite <-!Permutation_middle.
Qed.

(** C31. For a client that frees what it has, once and with its size, all memory it has
    is distinct and every request is answered, with memory it does not have or with
    null.  But what the heap gave in place of a failing pool is kept for ever:
    freeing it reaches a pool that does not know it and only counts. *)
Theorem allocator_correct a o size base heap :
  client_reaches (a, o) → 0 ≤ size → new_memory base heap a o →
  NoDup (all_blocks o) ∧
  (∃ a' ptr, allocate size base heap a = Val (a', ptr) ∧ (ptr ≠ 0 → ptr ∉ all_blocks o)) ∧
  pool_hits (stats_ a) = wrap 64 (small_pool_allocs (stats_ a) + medium_pool_allocs (stats_ a)) ∧
  (∀ ptr n, (ptr, n) ∈ fallback o → deallocate ptr n a =
     (Allocator (small_pool_ a) (medium_pool_ a) (count_deallocation (stats_ a)), None)).
Proof.
  intros Hinv%client_reaches_inv H0 Hnew. simpl in Hinv. split_and!.
  - by eapply inv_distinct.
  - destruct (allocator_allocates _ _ _ _ _ Hinv H0 Hnew) as (a' & ptr & E & H).
    exists a', ptr. split; [done|]. intros Hp. apply inv_distinct in H.
    rewrite received_blocks in H by done. by apply list.NoDup_cons in H as [? _].
  - apply Hinv.
  - intros ptr n. by apply fallback_ignored with (o := o).
Qed.

(** A pool out of memory, the heap not: the object is freed and stays allocated. *)
Lemma allocator_correct_witness :
  let a := Allocator (small_pool_ new) (medium_pool_ new) (miss no_stats) in
  let o := Owned [] [] [] [(4096, 32)] [] in
  client_reaches (a, o) ∧
  deallocate 4096 32 a = (Allocator (small_pool_ new) (medium_pool_ new) (count_deallocation (miss no_stats)), None).
Proof.
  intros a o. assert (client_reaches (a, o)) as H.
  { eapply rtc_l; [|apply rtc_refl].
    apply (client_allocates 32 None 4096 new nothing a 4096); [lia| |by vm_compute].
    split; [|done]. intros _ [H|[H|H]]; [done|done|by apply elem_of_nil in H]. }
  split; [exact H|]. apply (allocator_correct a o 0 None 0 H); [lia| |by left].
  split; [done|]. done.
Defined.

(** *** Objects *)

Lemma construct_inv ptr head a o :
  allocator_inv a o → ptr ∈ all_blocks o → allocator_inv (construct ptr head a) o.
Proof.
  intros [Hs Hm Hz Ha Hh Hn Hf Hst] Hin.
  assert (∀ p live, pool_inv p live → ptr ∈ live ∨ fixed_block_pool.in_chunks ptr p = false →
    pool_inv (write_block ptr head p) live) as Hw.
  { intros p live Hp [Hl|Hc]; unfold write_block; [|by rewrite Hc].
    case_match; [by apply client_write_inv|done]. }
  assert (∀ p, fixed_block_pool.block_size_ (write_block ptr head p) = fixed_block_pool.block_size_ p ∧
    fixed_block_pool.blocks_per_chunk_ (write_block ptr head p) = fixed_block_pool.blocks_per_chunk_ p ∧
    ∀ y, fixed_block_pool.in_chunks y (write_block ptr head p) = fixed_block_pool.in_chunks y p) as Hp.
  { intros p. unfold write_block. by case_match. }
  destruct (Hp (small_pool_ a)) as (S1 & S2 & S3). destruct (Hp (medium_pool_ a)) as (M1 & M2 & M3).
  constructor; simpl; [apply Hw; [done|]|apply Hw; [done|]|by rewrite S1, S2, M1, M2| | |done|done|done].
  - apply elem_of_app in Hin as [?|[Hx|Hx]%elem_of_app]; [by left|right..].
    + apply not_true_iff_false. intros E. apply Ha in E.
      destruct (inv_live _ _ Hm) as [_ Bm]. rewrite (block_in_chunks _ _ _ Hm) in E; [done|by apply Bm].
    + by apply Hh.
  - apply elem_of_app in Hin as [Hx|[?|Hx]%elem_of_app]; [right|by left|right].
    + apply Ha. destruct (inv_live _ _ Hs) as [_ Bs]. eapply block_in_chunks; [done|by apply Bs].
    + by apply Hh.
  - intros x. rewrite S3, M3. apply Ha.
  - intros x. rewrite S3, M3. apply Hh.
Qed.

(** Freeing what has just been received. *)
Lemma give_back a o size ptr served :
  allocator_inv a (receive size ptr served o) → 0 < size → ptr ≠ 0 →
  (served = true → size ≤ medium_threshold) →
  ∃ lost, (length lost ≤ 1)%nat ∧
    allocator_inv (deallocate ptr size a).1
      (Owned (small o) (medium o) (large o) (fallback o) (lost ++ leaked o)).
Proof.
  intros Hinv Hsize Hp Hserved. unfold receive in Hinv. rewrite (proj2 (Z.eqb_neq ptr 0)) in Hinv by done.
  destruct served.
  - exists []. split; [simpl; lia|]. destruct (Z.leb_spec size small_threshold) as [Hs|Hs].
    + exact (frees_small a _ ptr [] (small o) size Hinv eq_refl (conj Hsize Hs)).
    + exact (frees_medium a _ ptr [] (medium o) size Hinv eq_refl (conj Hs (Hserved eq_refl))).
  - destruct (Z.leb_spec size medium_threshold) as [Hs|Hs].
    + exists [ptr]. split; [simpl; lia|].
      refine (client_inv (a, _) (_, _) (client_frees_fallback size ptr (small o) (medium o) (large o)
        [] (fallback o) (leaked o) a) Hinv).
    + exists []. split; [simpl; lia|].
      exact (client_inv (a, _) (_, _) (client_frees_large size ptr (small o) (medium o)
        [] (large o) (fallback o) (leaked o) a Hs) Hinv).
Qed.

(** An object is placed in memory of its own; a constructor that throws leaves the
    client with what it had, unless the memory came from the heap in place of a pool. *)
Theorem objects_correct a o size base heap head :
  allocator_inv a o → 0 < size → new_memory base heap a o →
  (∃ a' ptr served, pool_allocate size base heap head false a = Val (a', ptr, None) ∧
     allocator_inv a' (receive size ptr served o)) ∧
  ∃ a' deleted lost, pool_allocate size base heap head true a = Val (a', 0, deleted) ∧
    (length lost ≤ 1)%nat ∧
    allocator_inv a' (Owned (small o) (medium o) (large o) (fallback o) (lost ++ leaked o)).
Proof.
  intros Hinv Hsize Hnew.
  destruct (allocator_allocates a o size base heap Hinv ltac:(lia) Hnew) as (a1 & ptr & E & H1).
  unfold pool_allocate. rewrite E. cbn [res_bind]. destruct (Z.eqb_spec ptr 0) as [->|Hp].
  { split; [by eexists _, 0, false|]. exists a1, None, []. split_and!; [done|simpl; lia|].
    unfold receive in H1. simpl in H1. by destruct o. }
  assert (allocator_inv (construct ptr head a1) (receive size ptr (pool_served size a a1) o)) as H2.
  { apply construct_inv; [done|]. rewrite received_blocks by done. by left. }
  split; [by eexists _, _, _|].
  destruct (give_back _ _ _ _ _ H2 Hsize Hp) as (lost & Hl & H3).
  { unfold pool_served. intros [Hs _]%andb_true_iff. by apply Z.leb_le. }
  destruct (deallocate ptr size (construct ptr head a1)) as [a2 deleted].
  by exists a2, deleted, lost.
Qed.

Lemma objects_correct_witness :
  ∃ a' ptr served, pool_allocate 40 (Some 65536) 0 7 false new = Val (a', ptr, None) ∧
    allocator_inv a' (receive 40 ptr served nothing).
Proof.
  apply (objects_correct new nothing 40 (Some 65536) 0 7); [exact new_allocator_inv|lia|].
  split; [done|]. intros b p [= <-] Hp. split; [lia|]. split; [by destruct Hp as [-> | ->]|]. intros x Hx. split; [|lia].
  intros [H|[H|H]]; [done|done|by apply elem_of_nil in H].
Defined.

(** A thread that frees an object of another thread's pools frees nothing. *)
Theorem foreign_free_leaks m owner other size ptr :
  owner ≠ other → ptr ≠ 0 → size ≤ medium_threshold →
  fixed_block_pool.in_chunks ptr (small_pool_ (instance other m)) = false →
  fixed_block_pool.in_chunks ptr (medium_pool_ (instance other m)) = false →
  let (m', deleted) := pool_deallocate_on other size ptr m in
  instance owner m' = instance owner m ∧ deleted = None ∧
  small_pool_ (instance other m') = small_pool_ (instance other m) ∧
  medium_pool_ (instance other m') = medium_pool_ (instance other m).
Proof.
  intros Hne Hp Hs H1 H2. unfold pool_deallocate_on, pool_deallocate, deallocate, fixed_block_pool.deallocate.
  rewrite (proj2 (Z.eqb_neq ptr 0)), H1, H2, (proj2 (Z.leb_le size medium_threshold)) by done. simpl.
  destruct (size <=? small_threshold); unfold instance;
    rewrite lookup_insert_ne by done; by rewrite !lookup_insert_eq.
Qed.

(** ** What is reported *)

Lemma count_free_ge fuel current n h r : fixed_block_pool.count_free fuel current n h = Val r → n ≤ r.
Proof.
  revert current n. induction fuel as [|fuel IH]; intros current n; cbn [fixed_block_pool.count_free];
    (destruct (current =? 0); [intros [= ->]; lia|]); [done|].
  case_match; [|done]. intros Hc%IH. lia.
Qed.

(** The report of a container: the counters, and free blocks that with those in use
    are all blocks; the hit rate is between 0.0 and 1.0 while the counters fit.
    Clearing the pool changes no block. *)
Theorem pool_stats_exact a o :
  allocator_inv a o →
  let total := Z.of_nat (length (fixed_block_pool.blocks (small_pool_ a) ++
                                 fixed_block_pool.blocks (medium_pool_ a))) in
  let fuel := Nat.max (fixed_block_pool.fuel_for (small_pool_ a)) (fixed_block_pool.fuel_for (medium_pool_ a)) in
  total < 2 ^ 64 →
  ∃ s, get_pool_stats true fuel a = Val s ∧
    pool_stats.available s + Z.of_nat (length (small o ++ medium o)) = total ∧
    pool_stats.hits s = pool_hits (stats_ a) ∧
    (0 ≤ pool_stats.hits s → 0 ≤ pool_stats.misses s → pool_stats.hits s + pool_stats.misses s < 2 ^ 64 →
       0 ≤ pool_stats.hit_rate s ≤ f64_one) ∧
    allocator_inv (clear_pool true a) o ∧
    ∃ s', get_pool_stats true fuel (clear_pool true a) = Val s' ∧
      pool_stats.available s' = pool_stats.available s ∧ pool_stats.hits s' = 0.
Proof.
  intros Hinv total fuel Htotal. unfold get_pool_stats, get_small_pool_stats, get_medium_pool_stats.
  destruct (statistics_inv fuel (small_pool_ a) (small o)) as (s1 & E1 & _ & F1); [apply Hinv|lia|].
  destruct (statistics_inv fuel (medium_pool_ a) (medium o)) as (s2 & E2 & _ & F2); [apply Hinv|lia|].
  change (small_pool_ (clear_pool true a)) with (small_pool_ a).
  change (medium_pool_ (clear_pool true a)) with (medium_pool_ a).
  rewrite E1, E2. cbn [res_bind]. eexists. split; [done|]. cbn [pool_stats.available pool_stats.hits pool_stats.misses].
  assert (0 ≤ fixed_block_pool.free_blocks s1 ∧ 0 ≤ fixed_block_pool.free_blocks s2) as [? ?].
  { split; [revert E1|revert E2]; unfold fixed_block_pool.get_statistics;
      intros (n & En & [= <-])%res_bind_Val_inv; simpl; revert En; apply count_free_ge. }
  unfold total in *. rewrite length_app in *. split_and!.
  - rewrite wrap_small by lia. rewrite length_app. lia.
  - done.
  - intros Hh Hm Hs. unfold pool_stats.hit_rate. simpl in *. rewrite wrap_small by lia.
    apply ratio_bounds; lia.
  - destruct Hinv. by constructor.
  - by eexists.
Qed.
