(* ===== verification/RcuValue.v ===== *)
(** * rcu_value: an immutable version behind an atomic pointer

    [internal/rcu_value.h].  Readers take the current version, writers publish
    a new one by an atomic store or a compare-and-swap and then count it.  A
    version is named by the order of its creation; an address is reused only
    when no [shared_ptr] holds it, so an [expected] pointer that somebody holds
    names one version for as long as it is compared.

    The relation [step] interleaves threads that update by reading the current
    version, computing [f] of it and calling [compare_and_update]; the count is
    a separate step. *)

From S2P Require Import Prelude.
From stdpp Require Import relations.
#[local] Open Scope Z_scope.

Module rcu_value.
Section Rcu.
Context {A : Type}.

(** [None] is the null pointer. *)
Record t : Type := Rcu {
  versions : list A;
  current_ : option nat;
  update_count_ : Z }.

(** [make_shared<const T>(x)] *)
Definition make_shared (x : A) (v : t) : nat * t :=
  (length (versions v), Rcu (versions v ++ [x]) (current_ v) (update_count_ v)).
Definition store (p : option nat) (v : t) : t := Rcu (versions v) p (update_count_ v).
Definition count (v : t) : t := Rcu (versions v) (current_ v) (wrap 64 (update_count_ v + 1)).

Definition new (initial : A) : t := Rcu [initial] (Some 0%nat) 0.

(** [rcu_value(other)]: the same version, a count of its own. *)
Definition copy (other : t) : t := Rcu (versions other) (current_ other) 0.

(** Moving copies: the new object and [other], which keeps its version. *)
Definition move_construct (other : t) : t * t :=
  (Rcu (versions other) (current_ other) 0, other).

(** [this = other], the two sharing their versions. *)
Definition assign (v : t) (other : option nat) : t := store other v.

Definition read (v : t) : option nat := current_ v.

Definition update (new_value : A) (v : t) : t :=
  let (p, v) := make_shared new_value v in count (store (Some p) v).

(** The compare-and-swap without the count. *)
Definition exchange (expected : option nat) (new_value : A) (v : t) : t * bool :=
  let (p, v) := make_shared new_value v in
  if bool_decide (current_ v = expected) then (store (Some p) v, true) else (v, false).

Definition compare_and_update (expected : option nat) (new_value : A) (v : t) : t * bool :=
  let (v, success) := exchange expected new_value v in
  (if success then count v else v, success).

Definition update_count (v : t) : Z := update_count_ v.
Definition has_value (v : t) : bool := bool_decide (current_ v ≠ None).

(** What a reader of version [p] sees. *)
Definition value (v : t) (p : option nat) : option A := p ≫= (versions v !!.).

(** ** Interleavings *)

Inductive thread : Type := Idle | Holds (snapshot : option nat) | Counting.

Context (f : A → A).

Record system : Type := System { rcu : t; threads : list thread }.

Inductive step : system → system → Prop :=
| step_read v ts i :
    ts !! i = Some Idle → step (System v ts) (System v (<[i := Holds (read v)]> ts))
| step_exchange v ts i p x v' success :
    ts !! i = Some (Holds p) → value v p = Some x → exchange p (f x) v = (v', success) →
    step (System v ts) (System v' (<[i := if success then Counting else Idle]> ts))
| step_count v ts i :
    ts !! i = Some Counting → step (System v ts) (System (count v) (<[i := Idle]> ts)).

Definition reachable (n : nat) (initial : A) : system → Prop :=
  rtc step (System (new initial) (replicate n Idle)).
End Rcu.
Arguments t : clear implicits.

Section Facts.
Context {A : Type} (f : A → A).
Implicit Types (v : t A) (ts : list thread).

Definition counting (th : thread) : Z := match th with Counting => 1 | _ => 0 end.
Definition pending ts : Z := foldr (λ th n, counting th + n) 0 ts.

Lemma pending_insert ts i th th' :
  ts !! i = Some th → pending (<[i := th']> ts) = pending ts + counting th' - counting th.
Proof.
  revert i. induction ts as [|x ts IH]; intros [|i] H; simpl in *; [done..| |].
  - injection H as ->. lia.
  - unfold pending in *. rewrite (IH i) by done. lia.
Qed.

(** The invariant: [n] exchanges succeeded. *)
Record inv (initial : A) (s : system) (n : nat) : Prop := {
  inv_value : value (rcu s) (current_ (rcu s)) = Some (Nat.iter n f initial);
  inv_count : wrap 64 (update_count_ (rcu s) + pending (threads s)) = wrap 64 (Z.of_nat n) }.

Lemma value_snoc v x p y : value v p = Some y →
  value (Rcu (versions v ++ [x]) (current_ v) (update_count_ v)) p = Some y.
Proof.
  unfold value. destruct p as [p|]; [|done]. simpl. intros H.
  rewrite lookup_app_l; [done|]. by apply lookup_lt_Some in H.
Qed.

Lemma step_inv initial s s' n : inv initial s n → step f s s' → ∃ n', inv initial s' n'.
Proof.
  intros [Hv Hc] Hs. destruct Hs as [v ts i Hi|v ts i p x v' success Hi Hx He|v ts i Hi]; simpl in *.
  - exists n. constructor; [done|]. simpl. rewrite (pending_insert _ _ _ _ Hi). simpl.
    by rewrite Z.add_0_r, Z.sub_0_r.
  - unfold exchange, make_shared in He. simpl in He. case_bool_decide as Ep; injection He as <- <-.
    + exists (S n). subst p. rewrite Hx in Hv. injection Hv as ->. constructor; simpl.
      * by rewrite list_lookup_middle.
      * rewrite (pending_insert _ _ _ _ Hi). cbn [counting]. unfold wrap in *.
        replace (update_count_ v + (pending ts + 1 - 0)) with (update_count_ v + pending ts + 1) by lia.
        rewrite <-Zplus_mod_idemp_l, Hc, Zplus_mod_idemp_l. f_equal. lia.
    + exists n. constructor; simpl; [by apply value_snoc|].
      rewrite (pending_insert _ _ _ _ Hi). simpl. by rewrite Z.add_0_r, Z.sub_0_r.
  - exists n. constructor; [done|]. simpl. rewrite (pending_insert _ _ _ _ Hi). cbn [counting].
    unfold wrap in *. rewrite Zplus_mod_idemp_l, <-Hc. f_equal. lia.
Qed.

(** C39. No update is lost: when any number of threads update a value by reading
    it, applying [f] and calling [compare_and_update], then in every
    interleaving the current value is [f] applied to the initial value as often
    as an exchange succeeded, and the update count is that number less the
    threads between their exchange and their count (modulo 2^64). *)
Theorem rcu_no_lost_update initial k s :
  reachable f k initial s →
  ∃ n, value (rcu s) (read (rcu s)) = Some (Nat.iter n f initial) ∧
    wrap 64 (update_count (rcu s) + pending (threads s)) = wrap 64 (Z.of_nat n).
Proof.
  unfold reachable. intros H.
  assert (inv initial (System (new initial) (replicate k Idle)) 0) as H0.
  { constructor; [done|]. simpl. f_equal. clear. induction k; simpl in *; lia. }
  revert H0. generalize 0%nat. generalize dependent (System (new initial) (replicate k Idle)).
  intros s0 H. induction H as [s0|s0 s1 s2 Hs _ IH]; intros n Hn.
  - exists n. split; [apply Hn|apply Hn].
  - destruct (step_inv _ _ _ _ Hn Hs) as [n' Hn']. by apply (IH n').
Qed.
End Facts.

Lemma rcu_no_lost_update_witness :
  ∃ n, value (compare_and_update (Some 0%nat) 6 (new 5)).1 (Some 1%nat) = Some (Nat.iter n Z.succ 5).
Proof.
  destruct (rcu_no_lost_update Z.succ 5 1
    (System (compare_and_update (Some 0%nat) 6 (new 5)).1 [Idle])) as (n & Hn & _); [|by exists n].
  eapply rtc_l; [by apply (step_read Z.succ (new 5) [Idle] 0)|].
  eapply rtc_l; [by apply (step_exchange Z.succ (new 5) [Holds (Some 0%nat)] 0 (Some 0%nat) 5
    (exchange (Some 0%nat) 6 (new 5)).1 true)|].
  by apply rtc_once, (step_count Z.succ _ [Counting] 0).
Defined.
End rcu_value.
